(* ===== verification/_CoqProject ===== *)
-Q . S2P
Prelude.v
StdNet.v
IpNet.v
PolicyDsl.v
PolicyCompile.v
EnfFlatten.v
PolicySem.v
EnfCommon.v
EnfLpm.v
EnfDatapath.v
EnfVerdict.v
EnfRate.v
EnfGenerations.v
EnfApply.v
EnfNft.v
GwPath.v
GwBackoff.v
GwUapi.v
CtlKeys.v
CtlRotation.v
CtlLifecycle.v
CtlGrace.v
CtlConverge.v
CtlStore.v
CtlEnroll.v
CtlApply.v
CtlStoreInv.v
CtlStoreOk.v
SyncProto.v
CtlProjection.v
GwState.v
GwReconcile.v
CtlView.v
CtlEffects.v
CtlApplyEffect.v
CtlStream.v
CtlBroker.v
CtlReport.v
GwEpochKeys.v
GwTunnelset.v
GwPolicyWorker.v
GwRotation.v
GwRotate.v
GwRotateInv.v
GwRotateRun.v
GwRotateSafe.v
RelayWire.v
RelayServe.v
OpApi.v
OpAdmin.v
StdNet6.v
GwConfig.v
OpWorkloads.v
OpGateway.v
OpRelay.v
OpFabric.v
