(* ===== verification/Prelude.v ===== *)
(** * wireMesh verification library

    wireMesh is a WireGuard mesh fabric.  A controller (SQLite, gRPC) compiles
    the operator's policy document, rotates the gateways' keys and streams the
    desired state; a gateway per segment keeps one tunnel path per peer and
    enforces the compiled policy in the kernel with two eBPF tc classifiers;
    relays carry traffic when no direct path exists.  This library models the
    policy pipeline end to end, the kernel datapath and its loader, the
    controller's key rotation, and the gateway's path state machine.

    ** Files, and the code they model

    - [Prelude]: [Result] and its monad, machine integers and time, decimal
      text, Rust string operations, runs of a transition function, tactics.
    - [StdNet], [IpNet]: [Ipv4Addr], [SocketAddrV4] text; the CIDR type of the
      [ipnet] crate as a class ([Ipv4NetApi], [Ipv4NetLaws]) with a concrete
      instance, so that every theorem over the class has an inhabited witness.
    - [PolicyDsl]: crates/wiremesh-policy/src dsl.rs, validate.rs and
      [parse_policy] of lib.rs.  The YAML reader is a parameter.
    - [PolicyCompile]: compile.rs and ir.rs; SHA-256 and JSON are parameters,
      panics of the source are [Panicked] outcomes.
    - [EnfFlatten]: crates/wiremesh-enforcer/src/flatten.rs and the capacity
      checks of ebpf.rs.
    - [PolicySem]: what a written document, a compiled policy and a flattened
      list mean, and that the three agree.
    - [EnfCommon]: crates/wiremesh-enforcer-ebpf/common/src/lib.rs (map value
      types, bit sets, counter and config indices).
    - [EnfLpm]: the rule bit sets per prefix ([build_lpm_entries], [build_trie]
      of ebpf.rs) and the kernel's longest-prefix lookup, a class with laws and
      an instance.
    - [EnfDatapath]: crates/wiremesh-enforcer-ebpf/program/src/main.rs, both
      classifiers over explicit map state; packets are byte lists.
    - [EnfVerdict], [EnfRate]: verdicts, flows, rate and log budgets.
    - [EnfGenerations], [EnfApply]: the loader of ebpf.rs, where an apply is a
      list of map writes that traffic may interleave with; the end-to-end
      theorem is in [EnfApply].
    - [GwPath]: crates/wiremesh-gateway/src/path.rs.
    - [CtlKeys]: the gateway_key transactions of
      crates/wiremesh-controller/src/db.rs.
    - [CtlRotation]: rotation.rs and the rotation driver, sweep, timer and ack
      recording of services/sync.rs.
    - [CtlLifecycle]: the abstract life of a gateway's keys and the refinement
      of the driver; [CtlGrace] and [CtlConverge]: its safety and its progress.

    State is a record per component and operations are functions on it; a
    failing call is a value ([result], [option], or a fault flag of the call's
    environment).  Maps are [gmap]s.  An [Instant] or [Duration] is a [Z] of
    nanoseconds, unsigned integers are [Z] with their wrap-around written out.

    ** What the theorems show

    - Policy: [parse_policy] accepts exactly the documents that satisfy the
      stated conditions and reports every rule's errors; an accepted document
      compiles without panicking, keeps its verdicts through compilation and
      flattening, and always fits the kernel maps; rule ids identify rules as
      long as segment names hold no bar.
    - Datapath: the bit-set scan is the first match of the flattened list; the
      ingress verdict is characterised on every packet; nothing unsolicited
      passes; replies of recorded flows pass; records and deny events are
      bounded per second.
    - Loader: an apply is atomic under interleaved traffic, keeps the counters
      of surviving rules, and after it the kernel passes a fresh packet exactly
      when the written document allows it.
    - Paths: [Direct] is claimed only on recent corroborated evidence, a silent
      path always escalates within a stated bound, actions keep their distance,
      timers match the state.
    - Key rotation: the driver refines the abstract lifecycle; a gateway always
      has exactly one active, real key; a serving key is deleted only after its
      grace; sweeps finish every rotation.

    ** Bounds and fuel

    [show_uint] prints with 20 digits of fuel, enough below 2^64
    ([parse_digits_show]); [trim] uses the string's length; the kernel scan runs
    its 256 iterations, the bound of the verifier-friendly loop of the source;
    a longest-prefix lookup tries the 33 prefix lengths.  Everything else is
    structural recursion.

    ** What is not modelled

    Pure I/O and glue: gRPC services, TLS and certificates, SQLite itself, the
    tc/bpffs attachment, netlink, metrics, command lines, the Kubernetes
    operator, the test kit.  One packet is processed at a time, so per-CPU races
    on counters and budgets are not covered, and the controller's actions run
    one at a time, so drivers overlapping between their critical sections are
    not.  Next, in this order: overlapping rotation drivers, the projection of
    the controller's state and its punch broker, the gateway's own rotation
    ([rotation.rs], [epochkeys.rs], [tunnelset.rs]), its desired state and
    reconciliation ([state.rs], [reconcile.rs]), the UAPI text ([uapi.rs]), the
    back-off types, and the nftables backend. *)
From Stdlib Require Import ZArith Lia Ascii.
From stdpp Require Export base option list strings gmap numbers.
From stdpp Require sorting.

Declare Scope mesh_scope.
Delimit Scope mesh_scope with mesh.

(** ** Fallible computations

    [result E A] is Rust's [Result<A, E>]; its bind is the [?] operator, written
    with stdpp's [x ← e; k]. *)

Inductive result (E A : Type) : Type :=
| Ok (a : A)
| Err (e : E).
Arguments Ok {E A} a.
Arguments Err {E A} e.

#[export] Instance result_ret (E : Type) : MRet (result E) := fun A a => Ok a.
#[export] Instance result_bind (E : Type) : MBind (result E) :=
  fun A B k m => match m with Ok a => k a | Err e => Err e end.

Definition is_ok {E A : Type} (r : result E A) : bool :=
  match r with Ok _ => true | Err _ => false end.

Definition result_ok {E A : Type} (r : result E A) : option A :=
  match r with Ok a => Some a | Err _ => None end.

(** The value of a result, or [d]. *)
Definition ok_or {E A : Type} (d : A) (r : result E A) : A :=
  match r with Ok a => a | Err _ => d end.

(** [iter().map(f).collect::<Result<Vec<_>, _>>()]. *)
Fixpoint traverse {E A B : Type} (f : A -> result E B) (l : list A) : result E (list B) :=
  match l with
  | [] => Ok []
  | a :: l' => b ← f a; bs ← traverse f l'; Ok (b :: bs)
  end.

(** ** Machine integers and time

    Unsigned [w]-bit integers are [Z] values in [0, 2^w).  An [Instant] or a
    [Duration] is a [Z] count of nanoseconds. *)

Definition wrap (w x : Z) : Z := Z.modulo x (2 ^ w).
Definition sat_add (w x y : Z) : Z := Z.min (x + y) (2 ^ w - 1).
Definition sat_sub (x y : Z) : Z := Z.max 0 (x - y).
Definition checked_add (w x y : Z) : option Z :=
  if Z.ltb (x + y) (2 ^ w) then Some (x + y)%Z else None.

Definition NANOS_PER_SEC : Z := 1000000000.
Definition secs (n : Z) : Z := n * NANOS_PER_SEC.

(** ** Decimal numbers as Rust prints and parses them *)

Definition digit_of (c : ascii) : option Z :=
  let n := Z.of_nat (nat_of_ascii c) in
  if (Z.leb 48 n && Z.leb n 57)%bool then Some (n - 48)%Z else None.

Definition digit_char (d : Z) : ascii := ascii_of_nat (Z.to_nat (48 + d)).

Fixpoint digits_acc (acc : Z) (s : string) : option Z :=
  match s with
  | EmptyString => Some acc
  | String c s' =>
      match digit_of c with
      | Some d => digits_acc (10 * acc + d) s'
      | None => None
      end
  end.

Definition parse_digits (s : string) : option Z :=
  match s with EmptyString => None | _ => digits_acc 0 s end.

Definition strip_plus (s : string) : string :=
  match s with String "+"%char s' => s' | _ => s end.

(** [<unsigned>::from_str]: an optional [+], at least one digit, no overflow. *)
Definition parse_unsigned (w : Z) (s : string) : option Z :=
  match parse_digits (strip_plus s) with
  | Some v => if Z.ltb v (2 ^ w) then Some v else None
  | None => None
  end.

(** [i64::from_str]. *)
Definition parse_i64 (s : string) : option Z :=
  match s with
  | String "-"%char s' =>
      match parse_digits s' with
      | Some v => if Z.leb v (2 ^ 63) then Some (- v)%Z else None
      | None => None
      end
  | _ => parse_unsigned 63 s
  end.

Fixpoint show_go (fuel : nat) (n : Z) (acc : string) : string :=
  match fuel with
  | O => acc
  | S f =>
      let acc' := String (digit_char (Z.modulo n 10)) acc in
      if Z.ltb n 10 then acc' else show_go f (Z.div n 10) acc'
  end.

(** [Display] of an unsigned integer; 20 digits are enough for [u64]. *)
Definition show_uint (n : Z) : string := show_go 20 n "".

(** ** Strings as byte sequences *)

Fixpoint str_all (p : ascii -> bool) (s : string) : bool :=
  match s with EmptyString => true | String c s' => p c && str_all p s' end.

Fixpoint has_char (c : ascii) (s : string) : bool :=
  match s with
  | EmptyString => false
  | String d s' => Ascii.eqb c d || has_char c s'
  end.

(** [str::split_once] on an ASCII separator. *)
Fixpoint split_once (c : ascii) (s : string) : option (string * string) :=
  match s with
  | EmptyString => None
  | String d s' =>
      if Ascii.eqb d c then Some (EmptyString, s')
      else match split_once c s' with
           | Some (a, b) => Some (String d a, b)
           | None => None
           end
  end.

(** [str::split] on an ASCII separator. *)
(** [str::rsplit_once]: at the last [c]. *)
Fixpoint rsplit_once (c : ascii) (s : string) : option (string * string) :=
  match s with
  | EmptyString => None
  | String d s' =>
      match rsplit_once c s' with
      | Some (a, b) => Some (String d a, b)
      | None => if Ascii.eqb d c then Some (EmptyString, s') else None
      end
  end.

Fixpoint str_split (c : ascii) (s : string) : list string :=
  match s with
  | EmptyString => [EmptyString]
  | String d s' =>
      if Ascii.eqb d c then EmptyString :: str_split c s'
      else match str_split c s' with
           | p :: ps => String d p :: ps
           | [] => [String d EmptyString]
           end
  end.

(** [Vec<String>::join]. *)
Fixpoint str_join (sep : string) (l : list string) : string :=
  match l with
  | [] => ""
  | [x] => x
  | x :: l' => x +:+ sep +:+ str_join sep l'
  end.

(** [str::strip_prefix]. *)
Fixpoint str_strip_prefix (p s : string) : option string :=
  match p, s with
  | EmptyString, _ => Some s
  | String a p', String b s' => if Ascii.eqb a b then str_strip_prefix p' s' else None
  | String _ _, EmptyString => None
  end.

(** UTF-8 encodings of the Unicode [White_Space] characters that
    [str::trim] removes. *)
Definition byte1 (a : nat) : string := String (ascii_of_nat a) "".
Definition byte2 (a b : nat) : string := byte1 a +:+ byte1 b.
Definition byte3 (a b c : nat) : string := byte1 a +:+ byte1 b +:+ byte1 c.
Definition white_space : list string :=
  map byte1 [9; 10; 11; 12; 13; 32]%nat
  ++ [byte2 194 133; byte2 194 160; byte3 225 154 128]
  ++ map (byte3 226 128) (seq 128 11)
  ++ [byte3 226 128 168; byte3 226 128 169; byte3 226 128 175; byte3 226 129 159;
      byte3 227 128 128].

Fixpoint str_rev_acc (s acc : string) : string :=
  match s with EmptyString => acc | String c s' => str_rev_acc s' (String c acc) end.
Definition str_rev (s : string) : string := str_rev_acc s "".

Fixpoint strip_any (pats : list string) (s : string) : option string :=
  match pats with
  | [] => None
  | p :: pats' =>
      match str_strip_prefix p s with Some r => Some r | None => strip_any pats' s end
  end.

Fixpoint trim_with (fuel : nat) (pats : list string) (s : string) : string :=
  match fuel with
  | O => s
  | S f => match strip_any pats s with Some r => trim_with f pats r | None => s end
  end.

(** [str::trim]; every step removes at least one byte, so the length is enough fuel. *)
Definition trim (s : string) : string :=
  let s1 := trim_with (String.length s) white_space s in
  str_rev (trim_with (String.length s1) (map str_rev white_space) (str_rev s1)).

(** Rust's [{:?}] of a string and of a list of strings, on ASCII. *)
Definition hex_char (d : nat) : ascii := ascii_of_nat (if Nat.ltb d 10 then 48 + d else 87 + d).

Definition debug_char (c : ascii) : string :=
  let n := nat_of_ascii c in
  if Nat.eqb n 34 then String "\" (String c "")
  else if Nat.eqb n 92 then String "\" (String c "")
  else if Nat.eqb n 10 then "\n"
  else if Nat.eqb n 13 then "\r"
  else if Nat.eqb n 9 then "\t"
  else if Nat.eqb n 0 then "\0"
  else if (Nat.ltb n 32 || Nat.eqb n 127)%bool then
    "\u{" +:+ (if Nat.ltb n 16 then "" else String (hex_char (n / 16)) "") +:+ String (hex_char (n mod 16)) "}"
  else String c "".

Fixpoint debug_chars (s : string) : string :=
  match s with EmptyString => EmptyString | String c s' => debug_char c +:+ debug_chars s' end.

Definition QUOTE : ascii := ascii_of_nat 34.
Definition debug_str (s : string) : string := String QUOTE (debug_chars s +:+ String QUOTE "").
Definition debug_strs (l : list string) : string := "[" +:+ str_join ", " (map debug_str l) +:+ "]".

(** Text in byte order: [ORDER BY] on a text column, [Vec<String>::sort], and
    the iteration of a [BTreeSet<String>]. *)
Definition str_le (a b : string) : Prop := String.leb a b = true.

#[export] Instance str_le_dec a b : Decision (str_le a b).
Proof. unfold str_le. apply _. Defined.

Definition sort_text (l : list string) : list string := sorting.merge_sort str_le l.

Lemma str_le_cons a b s t :
  str_le (String a s) (String b t) <-> (N_of_ascii a < N_of_ascii b)%N \/ (a = b /\ str_le s t).
Proof.
  unfold str_le, String.leb. cbn. unfold Ascii.compare.
  destruct (N.compare_spec (N_of_ascii a) (N_of_ascii b)) as [E|E|E].
  - assert (a = b) as -> by (rewrite <- (ascii_N_embedding a), <- (ascii_N_embedding b); by rewrite E).
    split; [auto|]. intros [?|[_ ?]]; [lia|done].
  - split; auto.
  - split; [done|]. intros [?|[-> _]]; lia.
Qed.

#[export] Instance str_le_trans : Transitive str_le.
Proof.
  intros s. induction s as [|a s IH]; intros [|b t] [|c u] H1 H2; try done.
  rewrite str_le_cons in *. destruct H1 as [H1|[-> H1]], H2 as [H2|[-> H2]]; [left; lia|auto..|].
  right. split; [done|by apply (IH t u)].
Qed.

#[export] Instance str_le_antisymm : AntiSymm (=) str_le.
Proof. intros s t. apply String.leb_antisym. Qed.

#[export] Instance str_le_total : Total str_le.
Proof. intros s t. apply String.leb_total. Qed.

(** ** Runs of a transition function *)

Section runs.
Context {S Ev Out : Type} (step : S -> Ev -> S * Out).

Fixpoint run (s : S) (evs : list Ev) : S * list Out :=
  match evs with
  | [] => (s, [])
  | e :: evs' =>
      let '(s1, o) := step s e in
      let '(s2, os) := run s1 evs' in
      (s2, o :: os)
  end.

Lemma run_app s evs1 evs2 :
  run s (evs1 ++ evs2) =
  let '(s1, os1) := run s evs1 in
  let '(s2, os2) := run s1 evs2 in (s2, os1 ++ os2).
Proof.
  revert s. induction evs1 as [|e evs1 IH]; intros s; simpl.
  - by destruct (run s evs2).
  - destruct (step s e) as [s1 o]. rewrite IH.
    destruct (run s1 evs1) as [s2 os2]. by destruct (run s2 evs2).
Qed.

(** The invariant rule: established once, preserved by every step. *)
Lemma run_invariant (I : S -> Prop) s evs :
  (forall s e, I s -> I (fst (step s e))) -> I s -> I (fst (run s evs)).
Proof.
  intros Hstep. revert s. induction evs as [|e evs IH]; intros s Hs; simpl; [done|].
  specialize (Hstep s e Hs). destruct (step s e) as [s1 o]. simpl in Hstep.
  specialize (IH s1 Hstep). by destruct (run s1 evs).
Qed.

Lemma length_run_outputs s evs : length (snd (run s evs)) = length evs.
Proof.
  revert s. induction evs as [|e evs IH]; intros s; simpl; [done|].
  destruct (step s e) as [s1 o]. specialize (IH s1).
  destruct (run s1 evs). simpl in *. by rewrite IH.
Qed.
End runs.

(** ** Inevitability

    [P] holds at some point of every run of [R], and no run stops before. *)

Section eventually.
Context {S : Type} (R : S -> S -> Prop).

Inductive eventually (P : S -> Prop) (s : S) : Prop :=
| eventually_here : P s -> eventually P s
| eventually_next : (exists s', R s s') -> (forall s', R s s' -> eventually P s') -> eventually P s.

Lemma eventually_mono (P Q : S -> Prop) s : (forall s, P s -> Q s) -> eventually P s -> eventually Q s.
Proof. intros HPQ H. induction H; [apply eventually_here|apply eventually_next]; auto. Qed.

(** The variant rule: under an invariant every step counts down. *)
Lemma eventually_variant (P I : S -> Prop) (m : S -> Z) :
  (forall s, I s -> P s \/ (exists s', R s s') /\ forall s', R s s' -> I s' /\ (0 <= m s' < m s)%Z) ->
  forall s, I s -> eventually P s.
Proof.
  intros Hstep s Hs. remember (Z.to_nat (m s)) as n eqn:En. revert s Hs En.
  induction n as [n IH] using lt_wf_ind. intros s Hs ->.
  destruct (Hstep s Hs) as [HP|[Hex Hall]]; [by apply eventually_here|].
  apply eventually_next; [done|]. intros s' Hs'. destruct (Hall s' Hs') as [HI Hm].
  apply (IH (Z.to_nat (m s'))); [lia|done|done].
Qed.
End eventually.

(** ** Tactics *)

(** Case analysis on every [match] and [if] of the goal. *)
Ltac case_all :=
  repeat match goal with
         | |- context [match ?x with _ => _ end] => destruct x eqn:?; simpl in *
         end.

(** Turn boolean comparisons in hypotheses and goal into [Prop]. *)
Ltac bool_to_prop :=
  repeat match goal with
         | H : context [Is_true _] |- _ => rewrite Is_true_true in H
         | H : (_ && _)%bool = true |- _ => apply andb_true_iff in H as [? ?]
         | H : (_ || _)%bool = true |- _ => apply orb_true_iff in H
         | H : (_ || _)%bool = false |- _ => apply orb_false_iff in H as [? ?]
         | H : (_ && _)%bool = false |- _ => apply andb_false_iff in H
         | H : negb _ = true |- _ => apply negb_true_iff in H
         | H : negb _ = false |- _ => apply negb_false_iff in H
         | H : Z.eqb _ _ = true |- _ => apply Z.eqb_eq in H
         | H : Z.eqb _ _ = false |- _ => apply Z.eqb_neq in H
         | H : Z.ltb _ _ = true |- _ => apply Z.ltb_lt in H
         | H : Z.ltb _ _ = false |- _ => apply Z.ltb_ge in H
         | H : Z.leb _ _ = true |- _ => apply Z.leb_le in H
         | H : Z.leb _ _ = false |- _ => apply Z.leb_gt in H
         | H : Nat.leb _ _ = true |- _ => apply Nat.leb_le in H
         | H : Nat.leb _ _ = false |- _ => apply Nat.leb_gt in H
         | H : Nat.ltb _ _ = true |- _ => apply Nat.ltb_lt in H
         | H : Nat.ltb _ _ = false |- _ => apply Nat.ltb_ge in H
         end.

(** ** Results *)

Lemma ok_or_ok {E A : Type} (d : A) (r : result E A) : is_ok r = true -> r = Ok (ok_or d r).
Proof. by destruct r. Qed.

Lemma bind_ok {E A B : Type} (m : result E A) (k : A -> result E B) b :
  (m ≫= k) = Ok b <-> exists a, m = Ok a /\ k a = Ok b.
Proof.
  destruct m as [a|e]; split; simpl.
  - eauto.
  - by intros (a' & [= ->] & ?).
  - done.
  - by intros (a' & ? & ?).
Qed.

Lemma bind_err {E A B : Type} (m : result E A) (k : A -> result E B) e :
  (m ≫= k) = Err e <-> m = Err e \/ exists a, m = Ok a /\ k a = Err e.
Proof.
  destruct m as [a|e']; split; simpl.
  - eauto.
  - by intros [?|(a' & [= ->] & ?)].
  - intros [= ->]; eauto.
  - by intros [[= ->]|(a' & ? & ?)].
Qed.

Lemma traverse_ok {E A B : Type} (f : A -> result E B) l bs :
  traverse f l = Ok bs <-> Forall2 (fun a b => f a = Ok b) l bs.
Proof.
  revert bs. induction l as [|a l IH]; intros bs; simpl.
  - split; [by intros [= <-]|by inversion 1].
  - rewrite bind_ok. setoid_rewrite bind_ok. setoid_rewrite IH. split.
    + intros (b & ? & bs' & ? & [= <-]). by constructor.
    + inversion 1; subst. eauto 10.
Qed.

Lemma traverse_total {E A B : Type} (f : A -> result E B) (g : A -> B) l :
  Forall (fun a => f a = Ok (g a)) l -> traverse f l = Ok (map g l).
Proof.
  intros H. apply traverse_ok. induction H; simpl; constructor; auto.
Qed.

(** ** Lists *)

Lemma find_ext {A : Type} (p q : A -> bool) l :
  Forall (fun a => p a = q a) l -> List.find p l = List.find q l.
Proof. induction 1 as [|a l Ha _ IH]; simpl; [done|]. by rewrite Ha, IH. Qed.

Lemma find_map_inj {A B : Type} (f : A -> B) (p : B -> bool) l :
  List.find p (map f l) = f <$> List.find (fun a => p (f a)) l.
Proof. induction l as [|a l IH]; simpl; [done|]. by destruct (p (f a)). Qed.

Lemma find_app {A : Type} (p : A -> bool) l1 l2 :
  List.find p (l1 ++ l2) =
  match List.find p l1 with Some a => Some a | None => List.find p l2 end.
Proof. induction l1 as [|a l1 IH]; simpl; [done|]. by destruct (p a). Qed.

Lemma find_none_iff {A : Type} (p : A -> bool) l :
  List.find p l = None <-> Forall (fun a => p a = false) l.
Proof.
  induction l as [|a l IH]; simpl; [done|]. rewrite Forall_cons_iff.
  destruct (p a) eqn:E.
  - split; [done|]. intros [? _]. congruence.
  - rewrite IH. tauto.
Qed.

Lemma NoDup_map_inv {A B : Type} (f : A -> B) l a b :
  NoDup (map f l) -> a ∈ l -> b ∈ l -> f a = f b -> a = b.
Proof.
  induction l as [|c l IH]; cbn; [by rewrite elem_of_nil|]. rewrite list.NoDup_cons, !elem_of_cons.
  intros [Hc Hnd] Ha Hb E. assert (forall d, d ∈ l -> f d ∈ map f l) as Hin.
  { intros d Hd. apply list_elem_of_fmap. by exists d. }
  destruct Ha as [-> | Ha], Hb as [-> | Hb]; [done| | |by apply IH].
  - destruct Hc. rewrite E. auto.
  - destruct Hc. rewrite <- E. auto.
Qed.

Lemma existsb_iff {A : Type} (p : A -> bool) l :
  existsb p l = true <-> exists a, a ∈ l /\ p a = true.
Proof.
  rewrite existsb_exists. split; intros (a & Ha & ?); exists a; (split; [|done]);
    by apply list_elem_of_In.
Qed.

Lemma forallb_iff {A : Type} (p : A -> bool) l :
  forallb p l = true <-> forall a, a ∈ l -> p a = true.
Proof.
  rewrite forallb_forall. split; intros H a Ha; by apply H, list_elem_of_In.
Qed.

Lemma imap_lookup_map {A B : Type} (f : nat -> A -> B) l i b :
  imap f l !! i = Some b -> exists a, l !! i = Some a /\ b = f i a.
Proof. rewrite list_lookup_imap. destruct (l !! i); naive_solver. Qed.

Lemma concat_map_nil {A B : Type} (f : A -> list B) l :
  concat (map f l) = [] <-> Forall (fun a => f a = []) l.
Proof.
  induction l as [|a l IH]; simpl; [done|].
  rewrite app_nil, IH, Forall_cons_iff. done.
Qed.

Lemma concat_imap_nil {A B : Type} (f : nat -> A -> list B) (P : A -> Prop) l :
  (forall i a, f i a = [] <-> P a) -> (concat (imap f l) = [] <-> Forall P l).
Proof.
  revert f. induction l as [|a l IH]; intros f Hf; simpl; [done|].
  rewrite app_nil, Hf, Forall_cons_iff, IH; [done|]. intros i x. apply Hf.
Qed.

(** ** Characters and numerals *)

Lemma digit_of_digit_char d : (0 <= d < 10)%Z -> digit_of (digit_char d) = Some d.
Proof.
  intros H. assert (d = 0 \/ d = 1 \/ d = 2 \/ d = 3 \/ d = 4 \/ d = 5 \/ d = 6
                    \/ d = 7 \/ d = 8 \/ d = 9)%Z as Hd by lia.
  by destruct Hd as [->|[->|[->|[->|[->|[->|[->|[->|[->| ->]]]]]]]]].
Qed.

Lemma digits_acc_show_go f n acc :
  (0 <= n < 10 ^ Z.of_nat f)%Z -> f <> O ->
  digits_acc 0 (show_go f n acc) = digits_acc n acc.
Proof.
  revert n acc. induction f as [|f IH]; intros n acc Hn Hf; [done|]. simpl.
  pose proof (Z.mod_pos_bound n 10 ltac:(lia)).
  destruct (Z.ltb_spec n 10).
  - cbn [digits_acc]. rewrite digit_of_digit_char by lia. f_equal.
    rewrite Z.mod_small; lia.
  - assert (f <> O) by (intros ->; change (10 ^ Z.of_nat 1)%Z with 10%Z in Hn; lia).
    rewrite IH; [|split|done].
    + cbn [digits_acc]. rewrite digit_of_digit_char by lia. f_equal.
      pose proof (Z.div_mod n 10). lia.
    + apply Z.div_pos; lia.
    + apply Z.div_lt_upper_bound; [lia|].
      replace (Z.of_nat (S f)) with (Z.succ (Z.of_nat f)) in Hn by lia.
      rewrite Z.pow_succ_r in Hn; lia.
Qed.

Lemma show_go_cons f n acc : f <> O -> exists c s, show_go f n acc = String c s.
Proof.
  revert n acc. induction f as [|f IH]; intros n acc Hf; [done|]. simpl.
  destruct (Z.ltb n 10); [eauto|].
  destruct f as [|f]; [simpl; eauto|]. by apply IH.
Qed.

Lemma parse_digits_show n : (0 <= n < 2 ^ 64)%Z -> parse_digits (show_uint n) = Some n.
Proof.
  intros Hn. unfold show_uint, parse_digits.
  destruct (show_go_cons 20 n "") as (c & s & E); [done|].
  rewrite E. rewrite <- E, digits_acc_show_go; [done| |done].
  change (10 ^ Z.of_nat 20)%Z with 100000000000000000000%Z. lia.
Qed.

Lemma show_uint_inj n m :
  (0 <= n < 2 ^ 64)%Z -> (0 <= m < 2 ^ 64)%Z -> show_uint n = show_uint m -> n = m.
Proof.
  intros Hn Hm E. apply (f_equal parse_digits) in E.
  rewrite !parse_digits_show in E by done. congruence.
Qed.

Definition is_digit (c : ascii) : bool :=
  match digit_of c with Some _ => true | None => false end.

Lemma str_all_show_go f n acc :
  (0 <= n)%Z -> str_all is_digit acc = true -> str_all is_digit (show_go f n acc) = true.
Proof.
  revert n acc. induction f as [|f IH]; intros n acc Hn Hacc; simpl; [done|].
  pose proof (Z.mod_pos_bound n 10 ltac:(lia)).
  assert (is_digit (digit_char (n mod 10)) = true) as Hd
    by (unfold is_digit; by rewrite digit_of_digit_char by lia).
  destruct (Z.ltb n 10); simpl; [by rewrite Hd, Hacc|].
  apply IH; [apply Z.div_pos; lia|]. simpl. by rewrite Hd, Hacc.
Qed.

Lemma str_all_show_uint n : (0 <= n)%Z -> str_all is_digit (show_uint n) = true.
Proof. intros. by apply str_all_show_go. Qed.

Lemma parse_unsigned_show w n :
  (0 <= n < 2 ^ w)%Z -> (w <= 64)%Z -> parse_unsigned w (show_uint n) = Some n.
Proof.
  intros Hn Hw. assert (n < 2 ^ 64)%Z.
  { apply Z.lt_le_trans with (2 ^ w)%Z; [lia|]. apply Z.pow_le_mono_r; lia. }
  unfold parse_unsigned.
  assert (strip_plus (show_uint n) = show_uint n) as ->.
  { pose proof (str_all_show_uint n ltac:(lia)) as H'. destruct (show_uint n) as [|c s]; [done|].
    cbn [str_all] in H'. apply andb_true_iff in H' as [H' _].
    unfold strip_plus. repeat case_match; try done; subst; done. }
  rewrite parse_digits_show by lia. destruct (Z.ltb_spec n (2 ^ w)); [done|lia].
Qed.

Lemma string_app_cons c (s t : string) : String c s +:+ t = String c (s +:+ t).
Proof. reflexivity. Qed.

Lemma string_app_nil_l (s : string) : "" +:+ s = s.
Proof. reflexivity. Qed.

Lemma str_all_app p s t : str_all p (s +:+ t) = str_all p s && str_all p t.
Proof.
  induction s as [|c s IH]; [done|]. rewrite string_app_cons. simpl. by rewrite IH, andb_assoc.
Qed.

Lemma str_all_impl (p q : ascii -> bool) s :
  (forall c, p c = true -> q c = true) -> str_all p s = true -> str_all q s = true.
Proof.
  intros Hpq. induction s as [|c s IH]; simpl; [done|].
  intros [Hc Hs]%andb_true_iff. by rewrite Hpq, IH.
Qed.

Lemma has_char_all c s :
  has_char c s = false <-> str_all (fun d => negb (Ascii.eqb c d)) s = true.
Proof.
  induction s as [|d s IH]; simpl; [done|].
  rewrite orb_false_iff, andb_true_iff, negb_true_iff. tauto.
Qed.

Lemma string_app_assoc (s t u : string) : (s +:+ t) +:+ u = s +:+ t +:+ u.
Proof. induction s as [|c s IH]; [done|]. by rewrite !string_app_cons, IH. Qed.

Lemma string_app_nil_r (s : string) : s +:+ "" = s.
Proof. induction s as [|c s IH]; [done|]. by rewrite string_app_cons, IH. Qed.

Lemma split_once_app c s t :
  has_char c s = false -> split_once c (s +:+ String c t) = Some (s, t).
Proof.
  induction s as [|d s IH]; rewrite ?string_app_nil_l, ?string_app_cons; simpl.
  - intros _. by rewrite Ascii.eqb_refl.
  - rewrite orb_false_iff. intros [Hd Hs].
    rewrite Ascii.eqb_sym, Hd. by rewrite IH.
Qed.

Lemma split_once_some c s a b :
  split_once c s = Some (a, b) -> s = a +:+ String c b /\ has_char c a = false.
Proof.
  revert a b. induction s as [|d s IH]; intros a b; simpl; [done|].
  destruct (Ascii.eqb_spec d c) as [->|Hne].
  - by intros [= <- <-].
  - destruct (split_once c s) as [[a' b']|] eqn:E; [|done].
    intros [= <- <-]. destruct (IH a' b') as [-> Ha]; [done|]. split; [done|].
    simpl. rewrite Ha, orb_false_r. by apply Ascii.eqb_neq.
Qed.

Lemma has_char_app c s t : has_char c (s +:+ t) = has_char c s || has_char c t.
Proof.
  induction s as [|d s IH]; [done|]. rewrite string_app_cons. simpl. by rewrite IH, orb_assoc.
Qed.

Lemma rsplit_once_none c s : has_char c s = false -> rsplit_once c s = None.
Proof.
  induction s as [|d s IH]; simpl; [done|]. rewrite orb_false_iff. intros [Hd Hs].
  by rewrite IH, Ascii.eqb_sym, Hd.
Qed.

Lemma rsplit_once_app c s t :
  has_char c t = false -> rsplit_once c (s +:+ String c t) = Some (s, t).
Proof.
  intros Ht. induction s as [|d s IH]; rewrite ?string_app_nil_l, ?string_app_cons; simpl.
  - by rewrite rsplit_once_none, Ascii.eqb_refl.
  - by rewrite IH.
Qed.

Lemma rsplit_once_some c s a b :
  rsplit_once c s = Some (a, b) -> s = a +:+ String c b /\ has_char c b = false.
Proof.
  revert a b. induction s as [|d s IH]; intros a b; simpl; [done|].
  destruct (rsplit_once c s) as [[a' b']|] eqn:E.
  - intros [= <- <-]. destruct (IH a' b') as [-> Hb]; done.
  - destruct (Ascii.eqb_spec d c) as [->|]; [|done]. intros [= <- <-]. split; [done|].
    destruct (has_char c s) eqn:Hc; [|done]. exfalso. clear IH.
    induction s as [|e s IH]; [done|]. simpl in E, Hc.
    destruct (rsplit_once c s) as [[]|]; [done|].
    destruct (Ascii.eqb_spec e c) as [->|Hne]; [done|].
    apply IH; [done|]. by rewrite Ascii.eqb_sym, (proj2 (Ascii.eqb_neq _ _) Hne) in Hc.
Qed.

(** *** Separated lists are read back *)

Definition sep_free (c : ascii) (l : list string) : Prop := Forall (fun s => has_char c s = false) l.

Lemma app_cut c s1 t1 s2 t2 :
  has_char c s1 = false -> has_char c s2 = false ->
  s1 +:+ String c t1 = s2 +:+ String c t2 -> s1 = s2 /\ t1 = t2.
Proof.
  intros H1 H2 E. apply (f_equal (split_once c)) in E.
  rewrite !split_once_app in E by done. by injection E.
Qed.

Lemma has_char_str_join c sep l :
  has_char c sep = false -> sep_free c l -> has_char c (str_join sep l) = false.
Proof.
  intros Hsep H. induction H as [|s l Hs Hl IH]; [done|]. simpl.
  destruct l as [|s' l']; [done|]. by rewrite !has_char_app, Hs, Hsep, IH.
Qed.

Lemma str_join_inj c l1 l2 :
  sep_free c l1 -> sep_free c l2 -> Forall (fun s => s <> "") l1 -> Forall (fun s => s <> "") l2 ->
  str_join (String c "") l1 = str_join (String c "") l2 -> l1 = l2.
Proof.
  intros H1. revert l2. induction H1 as [|s1 l1 Hs1 Hl1 IH]; intros l2 H2 N1 N2 E.
  { destruct l2 as [|s2 [|s2' l2]]; [done|..]; simpl in E; inversion N2; subst; [done|].
    destruct s2; done. }
  destruct l2 as [|s2 l2]; [destruct l1; simpl in E; inversion N1; subst; [done|by destruct s1]|].
  inversion H2 as [|? ? Hs2 Hl2]; inversion N1; inversion N2; subst. simpl in E.
  destruct l1 as [|s1' l1], l2 as [|s2' l2].
  - by subst.
  - rewrite E, !has_char_app in Hs1. simpl in Hs1. rewrite Ascii.eqb_refl in Hs1.
    by rewrite orb_true_r in Hs1.
  - rewrite <- E, !has_char_app in Hs2. simpl in Hs2. rewrite Ascii.eqb_refl in Hs2.
    by rewrite orb_true_r in Hs2.
  - change (String c "" +:+ ?x) with (String c x) in E.
    apply app_cut in E as [-> E]; [|done..]. f_equal. by apply IH.
Qed.

(** *** Splitting *)

(** The pieces of a concatenation: the last piece of the left one meets the first of the right one. *)
Fixpoint splice (l1 l2 : list string) : list string :=
  match l1 with
  | [] => l2
  | [a] => match l2 with b :: l2' => (a +:+ b) :: l2' | [] => [a] end
  | a :: l1' => a :: splice l1' l2
  end.

Lemma str_split_cons c s : exists p ps, str_split c s = p :: ps.
Proof.
  induction s as [|d s (p & ps & IH)]; cbn; [eauto|]. destruct (Ascii.eqb d c); [eauto|]. rewrite IH. eauto.
Qed.

Lemma str_split_splice c s t : str_split c (s +:+ t) = splice (str_split c s) (str_split c t).
Proof.
  induction s as [|d s IH].
  - rewrite string_app_nil_l. cbn. by destruct (str_split_cons c t) as (p & ps & ->).
  - rewrite string_app_cons. cbn. rewrite IH. destruct (str_split_cons c s) as (p & ps & ->).
    destruct (str_split_cons c t) as (q & qs & ->). destruct (Ascii.eqb d c); [done|]. by destruct ps.
Qed.

Lemma str_split_word c s : has_char c s = false -> str_split c s = [s].
Proof.
  induction s as [|d s IH]; [done|]. cbn. rewrite orb_false_iff. intros [Hd Hs].
  by rewrite Ascii.eqb_sym, Hd, IH.
Qed.

Lemma splice_snoc l1 a b l2 : splice (l1 ++ [a]) (b :: l2) = l1 ++ (a +:+ b) :: l2.
Proof. induction l1 as [|x l1 IH]; [done|]. cbn. rewrite IH. by destruct l1. Qed.

Create HintDb mesh.
#[export] Hint Rewrite @str_all_app @string_app_cons @string_app_nil_l @string_app_assoc
  @string_app_nil_r : mesh.
