(* ===== verification/StdNet.v ===== *)
(** * Addresses of the Rust standard library: [Ipv4Addr] and [SocketAddrV4]

    An [Ipv4Addr] is its 32-bit value (most significant octet first).  The
    parser accepts what [core::net::parser] accepts: four decimal octets of one
    to three digits, no leading zero, value at most 255, nothing left over; a
    port is one or more digits that fit [u16]. *)
From S2P Require Export Prelude.
From Stdlib Require Import ZArith Lia Ascii.
Local Open Scope Z_scope.

Definition parse_octet (s : string) : option Z :=
  match s with
  | EmptyString => None
  | String c s' =>
      if Ascii.eqb c "0" then
        match s' with EmptyString => Some 0 | _ => None end
      else if Nat.leb (String.length s) 3 then
        match digits_acc 0 s with
        | Some v => if Z.leb v 255 then Some v else None
        | None => None
        end
      else None
  end.

Definition octets (a b c d : Z) : Z := ((a * 256 + b) * 256 + c) * 256 + d.

(** [Ipv4Addr::from_str]. *)
Definition parse_ipv4 (s : string) : option Z :=
  '(p1, r1) ← split_once "." s;
  '(p2, r2) ← split_once "." r1;
  '(p3, p4) ← split_once "." r2;
  a ← parse_octet p1;
  b ← parse_octet p2;
  c ← parse_octet p3;
  d ← parse_octet p4;
  Some (octets a b c d).

Definition octet (x i : Z) : Z := Z.modulo (Z.div x (256 ^ i)) 256.

(** [Display for Ipv4Addr]. *)
Definition show_ipv4 (x : Z) : string :=
  show_uint (octet x 3) +:+ "." +:+ show_uint (octet x 2) +:+ "."
  +:+ show_uint (octet x 1) +:+ "." +:+ show_uint (octet x 0).

(** The port of [SocketAddrV4::from_str]: no sign, leading zeros allowed. *)
Definition parse_port (s : string) : option Z :=
  match parse_digits s with
  | Some v => if Z.ltb v (2 ^ 16) then Some v else None
  | None => None
  end.

(** [SocketAddrV4::from_str]. *)
Definition parse_socket_v4 (s : string) : option (Z * Z) :=
  '(h, p) ← split_once ":" s;
  ip ← parse_ipv4 h;
  port ← parse_port p;
  Some (ip, port).

(** [Display for SocketAddrV4]. *)
Definition show_socket_v4 (ap : Z * Z) : string :=
  show_ipv4 ap.1 +:+ ":" +:+ show_uint ap.2.

Example parse_ipv4_ex : parse_ipv4 "10.0.0.255" = Some 167772415.
Proof. reflexivity. Qed.
Example parse_ipv4_leading_zero : parse_ipv4 "10.0.00.1" = None.
Proof. reflexivity. Qed.
Example show_ipv4_ex : show_ipv4 167772415 = "10.0.0.255".
Proof. reflexivity. Qed.

(** ** Round trips *)

Lemma octet_range x i : 0 <= octet x i < 256.
Proof. unfold octet. apply Z.mod_pos_bound. lia. Qed.

Lemma octets_of_octet x :
  0 <= x < 2 ^ 32 -> octets (octet x 3) (octet x 2) (octet x 1) (octet x 0) = x.
Proof.
  intros Hx. unfold octets, octet.
  change (256 ^ 0) with 1. change (256 ^ 1) with 256.
  change (256 ^ 2) with (256 * 256). change (256 ^ 3) with (256 * 256 * 256).
  rewrite Z.div_1_r, <- !Z.div_div by lia.
  pose proof (Z.div_mod x 256 ltac:(lia)).
  pose proof (Z.div_mod (x / 256) 256 ltac:(lia)).
  pose proof (Z.div_mod (x / 256 / 256) 256 ltac:(lia)).
  rewrite (Z.mod_small (x / 256 / 256 / 256)); [lia|].
  pose proof (Z.mod_pos_bound x 256 ltac:(lia)).
  pose proof (Z.mod_pos_bound (x / 256) 256 ltac:(lia)).
  pose proof (Z.mod_pos_bound (x / 256 / 256) 256 ltac:(lia)). lia.
Qed.

Lemma octets_range a b c d :
  0 <= a < 256 -> 0 <= b < 256 -> 0 <= c < 256 -> 0 <= d < 256 ->
  0 <= octets a b c d < 2 ^ 32.
Proof. unfold octets. lia. Qed.

(** A finite check: the 256 octets print and parse back. *)
Lemma parse_show_octet v : 0 <= v < 256 -> parse_octet (show_uint v) = Some v.
Proof.
  intros Hv.
  assert (forallb (fun n => bool_decide (parse_octet (show_uint (Z.of_nat n)) = Some (Z.of_nat n)))
            (seq 0 256) = true) as H by (vm_compute; reflexivity).
  rewrite forallb_iff in H. specialize (H (Z.to_nat v)).
  rewrite elem_of_seq, Z2Nat.id in H by lia.
  eapply bool_decide_eq_true_1, H. lia.
Qed.

Lemma is_digit_not c d : is_digit c = true -> is_digit d = false -> Ascii.eqb d c = false.
Proof. intros Hc Hd. apply Ascii.eqb_neq. intros ->. congruence. Qed.

Lemma has_char_digits c s :
  is_digit c = false -> str_all is_digit s = true -> has_char c s = false.
Proof.
  intros Hc Hs. apply has_char_all. revert Hs. apply str_all_impl.
  intros d Hd. by rewrite is_digit_not.
Qed.

Lemma has_char_show_uint c n : 0 <= n -> is_digit c = false -> has_char c (show_uint n) = false.
Proof. intros. apply has_char_digits; [done|]. by apply str_all_show_uint. Qed.

Lemma parse_show_ipv4 x : 0 <= x < 2 ^ 32 -> parse_ipv4 (show_ipv4 x) = Some x.
Proof.
  intros Hx. unfold parse_ipv4, show_ipv4.
  pose proof (octet_range x 0). pose proof (octet_range x 1).
  pose proof (octet_range x 2). pose proof (octet_range x 3).
  change ("." +:+ ?s) with (String "." s).
  rewrite split_once_app by (apply has_char_show_uint; [lia|done]). simpl.
  change ("." +:+ ?s) with (String "." s).
  rewrite split_once_app by (apply has_char_show_uint; [lia|done]). simpl.
  change ("." +:+ ?s) with (String "." s).
  rewrite split_once_app by (apply has_char_show_uint; [lia|done]). simpl.
  rewrite !parse_show_octet by done. simpl. by rewrite octets_of_octet.
Qed.

Definition ipv4_char (c : ascii) : bool := is_digit c || Ascii.eqb c ".".

Lemma str_all_show_ipv4 x : str_all ipv4_char (show_ipv4 x) = true.
Proof.
  assert (forall i, str_all ipv4_char (show_uint (octet x i)) = true) as H.
  { intros i. eapply str_all_impl; [|apply str_all_show_uint; apply octet_range].
    intros c Hc. unfold ipv4_char. by rewrite Hc. }
  unfold show_ipv4. by rewrite !str_all_app, !H.
Qed.

Lemma show_ipv4_inj x y :
  0 <= x < 2 ^ 32 -> 0 <= y < 2 ^ 32 -> show_ipv4 x = show_ipv4 y -> x = y.
Proof.
  intros Hx Hy E. apply (f_equal parse_ipv4) in E.
  rewrite !parse_show_ipv4 in E by done. congruence.
Qed.

Lemma has_char_show_ipv4 c x : ipv4_char c = false -> has_char c (show_ipv4 x) = false.
Proof.
  intros Hc. apply has_char_all. eapply str_all_impl; [|apply str_all_show_ipv4].
  intros d Hd. apply negb_true_iff, Ascii.eqb_neq. intros ->. congruence.
Qed.

Lemma digits_acc_nonneg s acc v : 0 <= acc -> digits_acc acc s = Some v -> 0 <= v.
Proof.
  revert acc. induction s as [|c s IH]; intros acc Hacc; simpl; [intros [= <-]; done|].
  unfold digit_of. destruct (Z.leb_spec 48 (Z.of_nat (nat_of_ascii c))); [|done].
  destruct (Z.leb_spec (Z.of_nat (nat_of_ascii c)) 57); simpl; [|done].
  apply IH. lia.
Qed.

Lemma parse_digits_nonneg s v : parse_digits s = Some v -> 0 <= v.
Proof. unfold parse_digits. destruct s; [done|]. by apply digits_acc_nonneg. Qed.

Lemma parse_octet_range s v : parse_octet s = Some v -> 0 <= v < 256.
Proof.
  intros E.
  assert (v = 0 \/ digits_acc 0 s = Some v /\ v <= 255) as [->|[Hd ?]]; [|lia|].
  - unfold parse_octet in E. destruct s as [|c s']; [done|].
    destruct (Ascii.eqb c "0"); [destruct s'; [left; congruence|done]|right].
    destruct (Nat.leb _ 3); [|done]. destruct (digits_acc 0 _) as [v'|]; [|done].
    destruct (Z.leb_spec v' 255); [|done]. by simplify_eq.
  - split; [eapply digits_acc_nonneg; [|exact Hd]; lia|lia].
Qed.

Lemma parse_ipv4_range s x : parse_ipv4 s = Some x -> 0 <= x < 2 ^ 32.
Proof.
  unfold parse_ipv4. intros E.
  apply bind_Some in E as ([p1 r1] & _ & E). apply bind_Some in E as ([p2 r2] & _ & E).
  apply bind_Some in E as ([p3 p4] & _ & E). simplify_option_eq.
  apply octets_range; eapply parse_octet_range; eassumption.
Qed.

Lemma parse_port_range s p : parse_port s = Some p -> 0 <= p < 2 ^ 16.
Proof.
  unfold parse_port. destruct (parse_digits s) eqn:E; [|done]. apply parse_digits_nonneg in E.
  destruct (Z.ltb_spec z (2 ^ 16)); [|done]. intros [= <-]. lia.
Qed.

Lemma parse_socket_v4_range s ip port :
  parse_socket_v4 s = Some (ip, port) -> 0 <= ip < 2 ^ 32 /\ 0 <= port < 2 ^ 16.
Proof.
  unfold parse_socket_v4. intros E. apply bind_Some in E as ([h p] & _ & E).
  apply bind_Some in E as (ip' & Eip & E). apply bind_Some in E as (port' & Eport & [= -> ->]).
  split; [by eapply parse_ipv4_range|by eapply parse_port_range].
Qed.

Lemma parse_show_port p : 0 <= p < 2 ^ 16 -> parse_port (show_uint p) = Some p.
Proof.
  intros Hp. unfold parse_port. rewrite parse_digits_show by lia.
  destruct (Z.ltb_spec p (2 ^ 16)); [done|lia].
Qed.

Lemma parse_show_socket_v4 ip port :
  0 <= ip < 2 ^ 32 -> 0 <= port < 2 ^ 16 ->
  parse_socket_v4 (show_socket_v4 (ip, port)) = Some (ip, port).
Proof.
  intros Hip Hp. unfold parse_socket_v4, show_socket_v4. simpl.
  change (":" +:+ ?s) with (String ":" s).
  rewrite split_once_app by (by apply has_char_show_ipv4). simpl.
  by rewrite parse_show_ipv4, parse_show_port.
Qed.
