(* ===== verification/IpNet.v ===== *)
(** * The interface of the [ipnet] crate

    [Ipv4Net] comes from a third-party crate, so the development takes it as a
    class of operations with the laws its documentation gives: [Display] is
    [addr/prefix], [FromStr] reads it back, [network]/[broadcast] bound the block
    and [contains] compares those bounds.  [SimpleNet] is an instance, used where
    a theorem is applied to concrete data. *)
From S2P Require Export Prelude.
From S2P Require Import StdNet.
From Stdlib Require Import ZArith Lia Ascii.
Local Open Scope Z_scope.

Definition block_size (p : Z) : Z := 2 ^ (32 - p).
Definition network_of (a p : Z) : Z := a / block_size p * block_size p.
Definition broadcast_of (a p : Z) : Z := network_of a p + block_size p - 1.

Class Ipv4NetApi := {
  ipv4net : Type;
  ipv4net_eq_dec :: EqDecision ipv4net;
  net_parse : string -> option ipv4net;
  net_parse_is_v6 : string -> bool;
  net_show : ipv4net -> string;
  net_addr : ipv4net -> Z;
  net_prefix : ipv4net -> Z;
  net_network : ipv4net -> Z;
  net_contains : ipv4net -> ipv4net -> bool
}.

Class Ipv4NetLaws (N : Ipv4NetApi) := {
  net_addr_range n : 0 <= net_addr n < 2 ^ 32;
  net_prefix_range n : 0 <= net_prefix n <= 32;
  net_ext n m : net_addr n = net_addr m -> net_prefix n = net_prefix m -> n = m;
  net_show_spec n : net_show n = show_ipv4 (net_addr n) +:+ "/" +:+ show_uint (net_prefix n);
  net_parse_show n : net_parse (net_show n) = Some n;
  net_network_spec n : net_network n = network_of (net_addr n) (net_prefix n);
  net_contains_spec a b :
    net_contains a b = true <->
    network_of (net_addr a) (net_prefix a) <= network_of (net_addr b) (net_prefix b) /\
    broadcast_of (net_addr b) (net_prefix b) <= broadcast_of (net_addr a) (net_prefix a)
}.

Section net_lemmas.
Context {N : Ipv4NetApi} {NL : Ipv4NetLaws N}.

(** Address [x] lies in the block [n]. *)
Definition net_has (n : ipv4net) (x : Z) : Prop :=
  x / block_size (net_prefix n) = net_addr n / block_size (net_prefix n).

#[export] Instance net_has_dec n x : Decision (net_has n x).
Proof. unfold net_has. apply _. Defined.

Lemma block_size_pos p : p <= 32 -> 0 < block_size p.
Proof. intros. unfold block_size. apply Z.pow_pos_nonneg; lia. Qed.

Lemma block_size_split p q : 0 <= p <= q -> q <= 32 -> block_size p = block_size q * 2 ^ (q - p).
Proof.
  intros. unfold block_size. rewrite <- Z.pow_add_r by lia. f_equal. lia.
Qed.

Lemma net_has_bounds n x :
  net_has n x <-> network_of (net_addr n) (net_prefix n) <= x
                  <= broadcast_of (net_addr n) (net_prefix n).
Proof.
  unfold net_has, broadcast_of, network_of.
  pose proof (block_size_pos (net_prefix n) ltac:(apply net_prefix_range)) as Hb.
  set (B := block_size (net_prefix n)) in *. set (a := net_addr n).
  pose proof (Z.div_mod x B ltac:(lia)). pose proof (Z.mod_pos_bound x B ltac:(lia)).
  split.
  - intros <-. nia.
  - intros [H1 H2]. symmetry. apply (Z.div_unique_pos x B (a / B) (x - a / B * B)); lia.
Qed.

Lemma network_of_in n : net_has n (network_of (net_addr n) (net_prefix n)).
Proof.
  apply net_has_bounds. unfold broadcast_of.
  pose proof (block_size_pos (net_prefix n) ltac:(apply net_prefix_range)). lia.
Qed.

Lemma net_has_addr n : net_has n (net_addr n).
Proof. done. Qed.

(** [contains] is inclusion of the sets of addresses. *)
Lemma net_contains_incl a b :
  net_contains a b = true <-> forall x, net_has b x -> net_has a x.
Proof.
  rewrite net_contains_spec. split.
  - intros [H1 H2] x. rewrite !net_has_bounds. lia.
  - intros H. pose proof (H _ (network_of_in b)) as Hn.
    assert (net_has b (broadcast_of (net_addr b) (net_prefix b))) as Hbr%H.
    { apply net_has_bounds. unfold broadcast_of.
      pose proof (block_size_pos (net_prefix b) ltac:(apply net_prefix_range)). lia. }
    rewrite net_has_bounds in Hn, Hbr. lia.
Qed.

Lemma net_contains_refl a : net_contains a a = true.
Proof. by apply net_contains_incl. Qed.

Lemma net_contains_trans a b c :
  net_contains a b = true -> net_contains b c = true -> net_contains a c = true.
Proof. rewrite !net_contains_incl. auto. Qed.

(** [contains] in terms of prefixes: a shorter prefix that agrees. *)
Lemma net_contains_prefix a b :
  net_contains a b = true <->
  net_prefix a <= net_prefix b /\
  net_addr a / block_size (net_prefix a) = net_addr b / block_size (net_prefix a).
Proof.
  pose proof (net_prefix_range a) as Ha. pose proof (net_prefix_range b) as Hb.
  pose proof (block_size_pos (net_prefix a) ltac:(lia)) as Hpa.
  pose proof (block_size_pos (net_prefix b) ltac:(lia)) as Hpb.
  rewrite net_contains_incl. split.
  - intros H. split; [|symmetry; apply (H (net_addr b)), net_has_addr].
    assert (net_contains a b = true) as Hc by (by apply net_contains_incl).
    apply net_contains_spec in Hc as [H1 H2]. unfold broadcast_of in H2.
    destruct (Z.le_gt_cases (net_prefix a) (net_prefix b)); [done|].
    rewrite (block_size_split (net_prefix b) (net_prefix a)) in H2 by lia.
    assert (2 ^ 1 <= 2 ^ (net_prefix a - net_prefix b)) by (apply Z.pow_le_mono_r; lia). nia.
  - intros [Hle Hpre] x. unfold net_has. rewrite Hpre.
    rewrite (block_size_split (net_prefix a) (net_prefix b)) by lia.
    rewrite <- !Z.div_div by lia. by intros ->.
Qed.

Lemma net_has_contains a b x :
  net_has a x -> net_has b x -> net_prefix a <= net_prefix b -> net_contains a b = true.
Proof.
  unfold net_has. intros Ha Hb Hle. apply net_contains_prefix. split; [done|].
  pose proof (net_prefix_range a). pose proof (net_prefix_range b).
  pose proof (block_size_pos (net_prefix b) ltac:(lia)).
  rewrite <- Ha, (block_size_split (net_prefix a) (net_prefix b)) by lia.
  assert (0 < 2 ^ (net_prefix b - net_prefix a)) by (apply Z.pow_pos_nonneg; lia).
  rewrite <- !Z.div_div by lia. by rewrite Hb.
Qed.

(** *** The text of a block *)

#[export] Instance net_show_inj : Inj (=) (=) net_show.
Proof.
  intros a b E. apply (f_equal net_parse) in E. rewrite !net_parse_show in E. congruence.
Qed.

Definition net_char (c : ascii) : bool := ipv4_char c || Ascii.eqb c "/".

Lemma str_all_net_show n : str_all net_char (net_show n) = true.
Proof.
  rewrite net_show_spec, !str_all_app. simpl. rewrite !andb_true_iff. repeat split.
  - eapply str_all_impl; [|apply str_all_show_ipv4]. intros c Hc. unfold net_char. by rewrite Hc.
  - eapply str_all_impl; [|apply str_all_show_uint; apply net_prefix_range].
    intros c Hc. unfold net_char, ipv4_char. by rewrite Hc.
Qed.

Lemma has_char_net_show c n : net_char c = false -> has_char c (net_show n) = false.
Proof.
  intros Hc. apply has_char_all. eapply str_all_impl; [|apply str_all_net_show].
  intros d Hd. apply negb_true_iff, Ascii.eqb_neq. intros ->. congruence.
Qed.

Lemma net_show_nonempty n : net_show n <> "".
Proof.
  rewrite net_show_spec. intros E. apply (f_equal (has_char "/")) in E.
  rewrite !has_char_app in E. simpl in E. by rewrite orb_true_r in E.
Qed.
End net_lemmas.

(** ** An instance *)

Definition net_range_ok (a p : Z) : bool :=
  (0 <=? a) && (a <? 2 ^ 32) && (0 <=? p) && (p <=? 32).

Record simple_net := { sn_addr : Z; sn_prefix : Z; sn_ok : net_range_ok sn_addr sn_prefix = true }.

Lemma simple_net_ext n m : sn_addr n = sn_addr m -> sn_prefix n = sn_prefix m -> n = m.
Proof.
  destruct n as [a p H], m as [a' p' H']. simpl. intros -> ->. f_equal.
  apply Eqdep_dec.UIP_dec, bool_dec.
Qed.

#[export] Instance simple_net_eq_dec : EqDecision simple_net.
Proof.
  intros n m. destruct (decide (sn_addr n = sn_addr m)); [destruct (decide (sn_prefix n = sn_prefix m))|].
  - left. by apply simple_net_ext.
  - right. congruence.
  - right. congruence.
Defined.

Definition mk_net (a p : Z) : option simple_net :=
  match net_range_ok a p as b return net_range_ok a p = b -> option simple_net with
  | true => fun H => Some (Build_simple_net a p H)
  | false => fun _ => None
  end eq_refl.

Lemma mk_net_ok a p (H : net_range_ok a p = true) : mk_net a p = Some (Build_simple_net a p H).
Proof.
  unfold mk_net. generalize (eq_refl (net_range_ok a p)).
  generalize (net_range_ok a p) at 2 3. intros b E. destruct b; [|congruence].
  do 2 f_equal. apply Eqdep_dec.UIP_dec, bool_dec.
Qed.

Lemma simple_net_range n : 0 <= sn_addr n < 2 ^ 32 /\ 0 <= sn_prefix n <= 32.
Proof.
  pose proof (sn_ok n) as H. unfold net_range_ok in H. rewrite !andb_true_iff in H.
  rewrite !Z.leb_le, Z.ltb_lt in H. lia.
Qed.

Definition simple_parse (s : string) : option simple_net :=
  '(h, t) ← split_once "/" s;
  a ← parse_ipv4 h;
  p ← parse_digits t;
  mk_net a p.

#[export] Instance SimpleNet : Ipv4NetApi := {
  ipv4net := simple_net;
  net_parse := simple_parse;
  net_parse_is_v6 := has_char ":";
  net_show n := show_ipv4 (sn_addr n) +:+ "/" +:+ show_uint (sn_prefix n);
  net_addr n := (sn_addr n);
  net_prefix n := (sn_prefix n);
  net_network n := network_of (sn_addr n) (sn_prefix n);
  net_contains a b :=
    Z.leb (network_of (sn_addr a) (sn_prefix a)) (network_of (sn_addr b) (sn_prefix b)) &&
    Z.leb (broadcast_of (sn_addr b) (sn_prefix b)) (broadcast_of (sn_addr a) (sn_prefix a))
}.

#[export] Instance SimpleNetLaws : Ipv4NetLaws SimpleNet.
Proof.
  split; simpl.
  - apply simple_net_range.
  - apply simple_net_range.
  - apply simple_net_ext.
  - done.
  - intros n. pose proof (simple_net_range n). unfold simple_parse.
    change ("/" +:+ ?s) with (String "/" s).
    rewrite split_once_app by (by apply has_char_show_ipv4). simpl.
    rewrite parse_show_ipv4 by lia. simpl. rewrite parse_digits_show by lia. simpl.
    rewrite (mk_net_ok _ _ (sn_ok n)). by destruct n.
  - done.
  - intros a b. by rewrite andb_true_iff, !Z.leb_le.
Qed.
