(* ===== verification/PolicyDsl.v ===== *)
(** * [wiremesh-policy]: the policy document and its validation
    ([dsl.rs], [validate.rs], [lib.rs])

    [serde_yaml] is a parameter of [parse_policy]; the validator is modelled
    with the exact errors it pushes, in the order it pushes them. *)
From S2P Require Export IpNet.
From Stdlib Require Import ZArith Lia Ascii.
Local Open Scope Z_scope.

(** ** Data *)

Inductive PortSpec :=
| Single (n : Z)
| Range (s : string).

Record RuleBody := { rb_src : list string; rb_dst : list string;
                     rb_ports : list PortSpec; rb_proto : option string }.

Record RuleSrc := { rs_allow : option RuleBody; rs_deny : option RuleBody }.

Record BlockSrc := { bs_from : string; bs_to : string; bs_rules : list RuleSrc }.

Record PolicyDoc := { pd_policy : list BlockSrc }.

Record CompileError := { ce_block : option nat; ce_rule : option nat; ce_msg : string }.

Definition show_nat (n : nat) : string := show_uint (Z.of_nat n).
Definition show_int (n : Z) : string :=
  if Z.ltb n 0 then "-" +:+ show_uint (- n) else show_uint n.

(** [Display for CompileError]. *)
Definition show_compile_error (e : CompileError) : string :=
  match ce_block e, ce_rule e with
  | Some b, Some r => "block " +:+ show_nat b +:+ " rule " +:+ show_nat r +:+ ": " +:+ ce_msg e
  | Some b, None => "block " +:+ show_nat b +:+ ": " +:+ ce_msg e
  | None, _ => ce_msg e
  end.

(** [parse_range]: ["lo-hi"], both ends trimmed and parsed as [i64]. *)
Definition parse_range (s : string) : option (Z * Z) :=
  '(lo, hi) ← split_once "-" s;
  l ← parse_i64 (trim lo);
  h ← parse_i64 (trim hi);
  Some (l, h).

Section validate.
Context {N : Ipv4NetApi}.

Record SegmentDef := { seg_name : string; seg_cidrs : list ipv4net }.

Definition find_seg (segments : list SegmentDef) (name : string) : option SegmentDef :=
  List.find (fun s => String.eqb (seg_name s) name) segments.

Definition rule_err (b r : nat) (msg : string) : CompileError :=
  {| ce_block := Some b; ce_rule := Some r; ce_msg := msg |}.
Definition block_err (b : nat) (msg : string) : CompileError :=
  {| ce_block := Some b; ce_rule := None; ce_msg := msg |}.

(** Whether the port is usable, and the errors pushed. *)
Definition check_port_value (b r : nat) (ctx : string) (n : Z) : bool * list CompileError :=
  if Z.eqb n 0 then
    (false, [rule_err b r (ctx +:+ " port 0 is not valid (ports are 1-65535)")])
  else if negb (Z.leb 1 n && Z.leb n 65535) then
    (false, [rule_err b r (ctx +:+ " port " +:+ show_int n
                               +:+ " is out of range (ports are 1-65535)")])
  else (true, []).

Definition quote : string := byte1 34.

Definition validate_port (b r : nat) (ctx : string) (port : PortSpec) : list CompileError :=
  match port with
  | Single n => snd (check_port_value b r ctx n)
  | Range s =>
      match parse_range s with
      | Some (lo, hi) =>
          let '(ok_lo, errs_lo) := check_port_value b r ctx lo in
          if ok_lo then
            let '(ok_hi, errs_hi) := check_port_value b r ctx hi in
            errs_lo ++ errs_hi ++
            (if (ok_hi && Z.ltb hi lo)%bool then
               [rule_err b r (ctx +:+ " port range '" +:+ s +:+ "' invalid: lo > hi ("
                                  +:+ show_int lo +:+ " > " +:+ show_int hi +:+ ")")]
             else [])
          else errs_lo
      | None =>
          [rule_err b r (ctx +:+ " port range '" +:+ s +:+ "' is malformed (expected "
                             +:+ quote +:+ "lo-hi" +:+ quote +:+ ")")]
      end
  end.

Definition validate_ports (b r : nat) (ctx : string) (body : RuleBody) : list CompileError :=
  let known := match rb_proto body with
               | None => true
               | Some p => bool_decide (p ∈ ["tcp"; "udp"; "icmp"])
               end in
  match rb_proto body, known with
  | Some other, false =>
      [rule_err b r (ctx +:+ " invalid proto '" +:+ other
                         +:+ "' (must be tcp, udp, icmp, or omitted)")]
  | proto, _ =>
      match rb_ports body with
      | [] => []
      | ports =>
          if match proto with Some p => bool_decide (p ∈ ["tcp"; "udp"]) | None => false end
          then concat (map (validate_port b r ctx) ports)
          else [rule_err b r (ctx +:+ " ports require proto tcp|udp")]
      end
  end.

Definition validate_cidr (b r : nat) (ctx field : string) (segment : option SegmentDef)
    (raw : string) : list CompileError :=
  match net_parse raw with
  | Some v4 =>
      match segment with
      | Some seg =>
          if existsb (fun seg_cidr => net_contains seg_cidr v4) (seg_cidrs seg) then []
          else [rule_err b r (ctx +:+ " " +:+ field +:+ " '" +:+ raw
                                  +:+ "' is not a subset of segment's CIDRs")]
      | None => []
      end
  | None =>
      if net_parse_is_v6 raw then
        [rule_err b r (ctx +:+ " " +:+ field +:+ " '" +:+ raw
                           +:+ "' is not IPv4 (v1 is IPv4-only)")]
      else [rule_err b r (ctx +:+ " " +:+ field +:+ " '" +:+ raw +:+ "': invalid CIDR")]
  end.

Definition validate_cidrs (b r : nat) (ctx field : string) (values : list string)
    (segment : option SegmentDef) : list CompileError :=
  concat (map (validate_cidr b r ctx field segment) values).

Definition validate_rule (b r : nat) (ctx : string) (from_seg to_seg : option SegmentDef)
    (rule : RuleSrc) : list CompileError :=
  match rs_allow rule, rs_deny rule with
  | Some body, None | None, Some body =>
      validate_cidrs b r ctx "src" (rb_src body) from_seg
      ++ validate_cidrs b r ctx "dst" (rb_dst body) to_seg
      ++ validate_ports b r ctx body
  | None, None => [rule_err b r (ctx +:+ " rule needs exactly one of allow/deny")]
  | Some _, Some _ =>
      [rule_err b r (ctx +:+ " rule needs exactly one of allow/deny (both present)")]
  end.

(** The resolution of one side ([from] or [to]) of a block. *)
Definition validate_side (b : nat) (ctx dir name : string) (seg : option SegmentDef)
    : list CompileError :=
  match seg with
  | None => [block_err b (ctx +:+ " unknown segment '" +:+ name +:+ "' in " +:+ dir)]
  | Some s =>
      match seg_cidrs s with
      | [] => [block_err b (ctx +:+ " segment '" +:+ name +:+ "' referenced in " +:+ dir
                                +:+ " has no CIDRs (a segment's cidrs list must not be empty)")]
      | _ => []
      end
  end.

Definition block_ctx (block : BlockSrc) : string :=
  "(" +:+ bs_from block +:+ "→" +:+ bs_to block +:+ ")".

(** One iteration of the block loop; [seen] maps a pair to the block that introduced it. *)
Definition validate_block (segments : list SegmentDef) (b : nat) (block : BlockSrc)
    (seen : gmap (string * string) nat) : gmap (string * string) nat * list CompileError :=
  let ctx := block_ctx block in
  let from_seg := find_seg segments (bs_from block) in
  let to_seg := find_seg segments (bs_to block) in
  let errs := validate_side b ctx "from" (bs_from block) from_seg
              ++ validate_side b ctx "to" (bs_to block) to_seg in
  let pair := (bs_from block, bs_to block) in
  let '(seen', dup) :=
    match seen !! pair with
    | Some original =>
        (seen, [block_err b (ctx +:+ " duplicate block for ordered (from, to) pair '"
                                 +:+ bs_from block +:+ "' → '" +:+ bs_to block
                                 +:+ "' (pair first defined at block "
                                 +:+ show_nat original +:+ ")")])
    | None => (<[pair := b]> seen, [])
    end in
  (seen', errs ++ dup
          ++ concat (imap (fun r rule => validate_rule b r ctx from_seg to_seg rule)
                       (bs_rules block))).

Fixpoint validate_blocks (segments : list SegmentDef) (b : nat) (blocks : list BlockSrc)
    (seen : gmap (string * string) nat) : list CompileError :=
  match blocks with
  | [] => []
  | block :: blocks' =>
      let '(seen', errs) := validate_block segments b block seen in
      errs ++ validate_blocks segments (S b) blocks' seen'
  end.

Definition validate (doc : PolicyDoc) (segments : list SegmentDef) : list CompileError :=
  validate_blocks segments 0 (pd_policy doc) ∅.

(** [parse_policy], over the YAML reader [from_str]. *)
Definition parse_policy (from_str : string -> result string PolicyDoc) (yaml : string)
    (segments : list SegmentDef) : result (list CompileError) PolicyDoc :=
  match from_str yaml with
  | Err e => Err [{| ce_block := None; ce_rule := None; ce_msg := "YAML parse error: " +:+ e |}]
  | Ok doc =>
      match validate doc segments with
      | [] => Ok doc
      | errors => Err errors
      end
  end.

(** ** The declarative reading of a valid document *)

Definition port_ok (p : PortSpec) : Prop :=
  match p with
  | Single n => 1 <= n <= 65535
  | Range s => exists lo hi, parse_range s = Some (lo, hi) /\ 1 <= lo <= hi /\ hi <= 65535
  end.

Definition cidr_ok (seg : option SegmentDef) (raw : string) : Prop :=
  exists n, net_parse raw = Some n /\
    forall s, seg = Some s -> exists c, c ∈ seg_cidrs s /\ net_contains c n = true.

Definition ports_ok (body : RuleBody) : Prop :=
  match rb_proto body with
  | None => rb_ports body = []
  | Some p => p ∈ ["tcp"; "udp"; "icmp"] /\
              (rb_ports body <> [] -> p ∈ ["tcp"; "udp"]) /\ Forall port_ok (rb_ports body)
  end.

Definition body_ok (from_seg to_seg : option SegmentDef) (body : RuleBody) : Prop :=
  Forall (cidr_ok from_seg) (rb_src body) /\ Forall (cidr_ok to_seg) (rb_dst body) /\
  ports_ok body.

Definition rule_ok (from_seg to_seg : option SegmentDef) (rule : RuleSrc) : Prop :=
  match rs_allow rule, rs_deny rule with
  | Some body, None | None, Some body => body_ok from_seg to_seg body
  | _, _ => False
  end.

Definition side_ok (seg : option SegmentDef) : Prop :=
  exists s, seg = Some s /\ seg_cidrs s <> [].

Definition block_ok (segments : list SegmentDef) (block : BlockSrc) : Prop :=
  let f := find_seg segments (bs_from block) in
  let t := find_seg segments (bs_to block) in
  side_ok f /\ side_ok t /\ Forall (rule_ok f t) (bs_rules block).

Definition pairs_of (blocks : list BlockSrc) : list (string * string) :=
  map (fun b => (bs_from b, bs_to b)) blocks.

Definition doc_ok (segments : list SegmentDef) (doc : PolicyDoc) : Prop :=
  Forall (block_ok segments) (pd_policy doc) /\ NoDup (pairs_of (pd_policy doc)).

(** ** Each check reports nothing exactly when its condition holds *)

Lemma check_port_value_ok b r ctx n :
  check_port_value b r ctx n = (true, []) \/
  exists e, check_port_value b r ctx n = (false, [rule_err b r e]) /\ ~ 1 <= n <= 65535.
Proof.
  unfold check_port_value. destruct (Z.eqb_spec n 0); [right; eexists; split; [done|lia]|].
  destruct (Z.leb_spec 1 n), (Z.leb_spec n 65535); simpl; eauto;
    right; eexists; (split; [done|lia]).
Qed.

Lemma check_port_value_true b r ctx n :
  check_port_value b r ctx n = (true, []) -> 1 <= n <= 65535.
Proof.
  unfold check_port_value. destruct (Z.eqb_spec n 0); [done|].
  destruct (Z.leb_spec 1 n), (Z.leb_spec n 65535); simpl; try done; lia.
Qed.

Lemma validate_port_nil b r ctx p : validate_port b r ctx p = [] <-> port_ok p.
Proof.
  destruct p as [n|s]; simpl.
  - destruct (check_port_value_ok b r ctx n) as [E|(e & E & ?)]; rewrite E; simpl.
    + apply check_port_value_true in E. tauto.
    + split; [done|lia].
  - destruct (parse_range s) as [[lo hi]|]; [|by split; [|intros (? & ? & [=] & _)]].
    destruct (check_port_value_ok b r ctx lo) as [E1|(e1 & E1 & ?)]; rewrite E1.
    2: { split; [done|]. intros (? & ? & [= <- <-] & ? & ?). lia. }
    destruct (check_port_value_ok b r ctx hi) as [E2|(e2 & E2 & ?)]; rewrite E2; simpl.
    2: { split; [done|]. intros (? & ? & [= <- <-] & ? & ?). lia. }
    apply check_port_value_true in E1. apply check_port_value_true in E2.
    destruct (Z.ltb_spec hi lo).
    + split; [done|]. intros (? & ? & [= <- <-] & ? & ?). lia.
    + split; [|done]. intros _. exists lo, hi. repeat split; lia.
Qed.

Lemma validate_ports_nil b r ctx body : validate_ports b r ctx body = [] <-> ports_ok body.
Proof.
  unfold validate_ports, ports_ok. destruct (rb_proto body) as [p|].
  - case_bool_decide as Hp.
    + destruct (rb_ports body) as [|q qs] eqn:Eq.
      { split; [|done]. intros _. split_and!; [done|by intros []|constructor]. }
      case_bool_decide as Ht; [|split; [done|naive_solver]].
      rewrite <- Eq, concat_map_nil.
      setoid_rewrite validate_port_nil. naive_solver.
    + split; [done|naive_solver].
  - destruct (rb_ports body); naive_solver.
Qed.

Lemma validate_cidr_nil b r ctx field seg raw :
  validate_cidr b r ctx field seg raw = [] <-> cidr_ok seg raw.
Proof.
  unfold validate_cidr, cidr_ok. destruct (net_parse raw) as [n|].
  - destruct seg as [s|]; [|naive_solver].
    destruct (existsb _ (seg_cidrs s)) eqn:E.
    + apply existsb_iff in E. split; [|done]. intros _. exists n. naive_solver.
    + split; [done|]. intros (n' & [= <-] & H). destruct (H s eq_refl) as (c & Hc & Hin).
      apply not_true_iff_false in E. destruct E. apply existsb_iff. eauto.
  - destruct (net_parse_is_v6 raw); naive_solver.
Qed.

Lemma validate_rule_nil b r ctx f t rule : validate_rule b r ctx f t rule = [] <-> rule_ok f t rule.
Proof.
  unfold validate_rule, rule_ok, body_ok, validate_cidrs.
  destruct (rs_allow rule), (rs_deny rule); try (split; done).
  all: rewrite !app_nil, !concat_map_nil, validate_ports_nil;
    by setoid_rewrite validate_cidr_nil.
Qed.

Lemma validate_side_nil b ctx dir name seg :
  validate_side b ctx dir name seg = [] <-> side_ok seg.
Proof.
  unfold validate_side, side_ok. destruct seg as [s|]; [|by split; [|intros (? & [=] & _)]].
  destruct (seg_cidrs s) eqn:E.
  - split; [done|]. intros (? & [= <-] & ?). done.
  - split; [|done]. intros _. exists s. by rewrite E.
Qed.

(** [seen] after the first [b] blocks: each pair met so far, with its first index. *)
Definition seen_spec (pairs : list (string * string)) (seen : gmap (string * string) nat) : Prop :=
  forall p, is_Some (seen !! p) <-> p ∈ pairs.

Lemma validate_block_spec segments b block seen pairs :
  seen_spec pairs seen ->
  let '(seen', errs) := validate_block segments b block seen in
  seen_spec (pairs ++ [(bs_from block, bs_to block)]) seen' /\
  (errs = [] <-> block_ok segments block /\ (bs_from block, bs_to block) ∉ pairs).
Proof.
  intros Hseen. unfold validate_block. set (pair := (bs_from block, bs_to block)).
  assert (forall f t, concat (imap (fun r rule =>
            validate_rule b r (block_ctx block) f t rule) (bs_rules block)) = []
          <-> Forall (rule_ok f t) (bs_rules block)) as Hrules.
  { intros f t. apply concat_imap_nil. intros. apply validate_rule_nil. }
  destruct (seen !! pair) as [original|] eqn:E.
  - split.
    + intros p. rewrite (Hseen p), elem_of_app, list_elem_of_singleton. split; [tauto|].
      intros [?| ->]; [done|]. apply Hseen. eauto.
    + split; [|intros [_ []]; apply Hseen; eauto].
      rewrite !app_nil. naive_solver.
  - split.
    + intros p. rewrite elem_of_app, list_elem_of_singleton, <- (Hseen p), lookup_insert_is_Some.
      destruct (decide (pair = p)); naive_solver.
    + rewrite !app_nil, !validate_side_nil, Hrules. unfold block_ok.
      rewrite <- (Hseen pair), E, is_Some_alt. simpl. tauto.
Qed.

Lemma validate_blocks_nil segments b blocks seen pairs :
  seen_spec pairs seen ->
  validate_blocks segments b blocks seen = [] <->
  Forall (block_ok segments) blocks /\ NoDup (pairs_of blocks) /\
  Forall (fun p => p ∉ pairs) (pairs_of blocks).
Proof.
  revert b seen pairs. induction blocks as [|block blocks IH]; intros b seen pairs Hseen; simpl.
  { split; [|done]. repeat constructor. }
  pose proof (validate_block_spec segments b block seen pairs Hseen) as Hb.
  destruct (validate_block segments b block seen) as [seen' errs]. destruct Hb as [Hseen' Herrs].
  rewrite app_nil, Herrs, (IH (S b) _ _ Hseen'), !Forall_cons_iff, list.NoDup_cons.
  set (p := (bs_from block, bs_to block)).
  assert (Forall (fun q => q ∉ pairs ++ [p]) (pairs_of blocks) <->
          Forall (fun q => q ∉ pairs) (pairs_of blocks) /\ p ∉ pairs_of blocks) as ->.
  { rewrite !list.Forall_forall. setoid_rewrite elem_of_app. setoid_rewrite list_elem_of_singleton.
    split; [intros H; split|].
    - intros q Hq ?. by apply (H q Hq); left.
    - intros Hp. by apply (H p Hp); right.
    - intros [H1 H2] q Hq [?| ->]; [by apply (H1 q)|done]. }
  tauto.
Qed.

(** *** Where errors are reported *)

Definition located (b : nat) (ro : option nat) (e : CompileError) : Prop :=
  ce_block e = Some b /\ ce_rule e = ro.

#[export] Instance located_dec b ro e : Decision (located b ro e).
Proof. unfold located. apply _. Defined.

Lemma filter_all {A : Type} (P : A -> Prop) `{forall x, Decision (P x)} l :
  Forall P l -> filter P l = l.
Proof. induction 1; [done|]. rewrite filter_cons_True by done. by f_equal. Qed.

Lemma filter_none {A : Type} (P : A -> Prop) `{forall x, Decision (P x)} l :
  Forall (fun a => ~ P a) l -> filter P l = [].
Proof. induction 1; [done|]. by rewrite filter_cons_False. Qed.

Lemma Forall_concat_map {A B : Type} (P : B -> Prop) (f : A -> list B) l :
  Forall (fun a => Forall P (f a)) l -> Forall P (concat (map f l)).
Proof. induction 1; simpl; [constructor|]. by apply Forall_app. Qed.

Lemma validate_port_located b r ctx p : Forall (located b (Some r)) (validate_port b r ctx p).
Proof.
  assert (forall n, Forall (located b (Some r)) (snd (check_port_value b r ctx n))) as Hc.
  { intros n. destruct (check_port_value_ok b r ctx n) as [->|(e & -> & _)];
      repeat constructor. }
  destruct p as [n|s]; simpl; [done|].
  destruct (parse_range s) as [[lo hi]|]; [|repeat constructor].
  pose proof (Hc lo) as H1. pose proof (Hc hi) as H2.
  destruct (check_port_value b r ctx lo) as [[] ?]; [|done].
  destruct (check_port_value b r ctx hi) as [[] ?]; simpl in *;
    destruct (Z.ltb hi lo); rewrite ?Forall_app; repeat split; try done; repeat constructor.
Qed.

Lemma validate_rule_located b r ctx f t rule :
  Forall (located b (Some r)) (validate_rule b r ctx f t rule).
Proof.
  assert (forall seg field l, Forall (located b (Some r)) (validate_cidrs b r ctx field l seg)) as Hc.
  { intros seg field l. apply Forall_concat_map, list.Forall_forall. intros raw _.
    unfold validate_cidr. case_all; repeat constructor. }
  assert (forall body, Forall (located b (Some r)) (validate_ports b r ctx body)) as Hp.
  { intros body. unfold validate_ports. repeat case_match; try (repeat constructor; done).
    all: apply Forall_concat_map, list.Forall_forall; intros; apply validate_port_located. }
  unfold validate_rule. destruct (rs_allow rule), (rs_deny rule);
    rewrite ?Forall_app; repeat split; auto; repeat constructor.
Qed.

Lemma filter_rules b r ctx f t rules k rule :
  rules !! r = Some rule ->
  filter (located b (Some (k + r)%nat))
    (concat (imap (fun i => validate_rule b (k + i) ctx f t) rules)) =
  validate_rule b (k + r) ctx f t rule.
Proof.
  revert k r. induction rules as [|rule' rules IH]; intros k r Hr; [done|]. simpl.
  rewrite list.filter_app.
  rewrite (imap_ext _ (fun i => validate_rule b (S k + i) ctx f t))
    by (intros; unfold compose; f_equal; lia).
  destruct r as [|r]; simpl in Hr.
  - simplify_eq. rewrite Nat.add_0_r, filter_all by apply validate_rule_located.
    rewrite filter_none, app_nil_r; [done|].
    assert (forall l j, (k < j)%nat -> Forall (fun e => ~ located b (Some k) e)
              (concat (imap (fun i => validate_rule b (j + i) ctx f t) l))) as H.
    { clear. induction l as [|a l IH]; intros j Hj; simpl; [constructor|].
      rewrite (imap_ext _ (fun i => validate_rule b (S j + i) ctx f t))
        by (intros; unfold compose; f_equal; lia).
      apply Forall_app. split; [|apply IH; lia].
      eapply list.Forall_impl; [apply validate_rule_located|].
      intros e [_ He] [_ He']. rewrite He in He'. injection He'. lia. }
    apply H. lia.
  - rewrite filter_none.
    + rewrite Nat.add_succ_r. apply (IH (S k) r). done.
    + eapply list.Forall_impl; [apply validate_rule_located|].
      intros e [_ He] [_ He']. rewrite He in He'. injection He'. lia.
Qed.

Lemma filter_validate_block segments b block seen r rule :
  bs_rules block !! r = Some rule ->
  filter (located b (Some r)) (snd (validate_block segments b block seen)) =
  validate_rule b r (block_ctx block) (find_seg segments (bs_from block))
    (find_seg segments (bs_to block)) rule.
Proof.
  intros Hr. unfold validate_block.
  assert (forall dir name seg, filter (located b (Some r))
            (validate_side b (block_ctx block) dir name seg) = []) as Hs.
  { intros. apply filter_none. unfold validate_side. case_all; repeat constructor; intros [_ [=]]. }
  destruct (seen !! _) eqn:?; simpl; rewrite !list.filter_app, !Hs; simpl;
    [rewrite filter_cons_False by (intros [_ [=]])|];
    by apply (filter_rules b r (block_ctx block) _ _ (bs_rules block) 0%nat).
Qed.

Lemma validate_block_located segments b block seen :
  Forall (fun e => ce_block e = Some b /\
                   forall r, ce_rule e = Some r -> (r < length (bs_rules block))%nat)
    (snd (validate_block segments b block seen)).
Proof.
  unfold validate_block. destruct (seen !! _) eqn:?; simpl; rewrite !Forall_app; repeat split.
  all: try (unfold validate_side; case_all; repeat constructor; done).
  all: try (apply Forall_cons_iff; split; [split; [done|by intros ? [=]]|]).
  all: apply list.Forall_forall; intros e He; apply list_elem_of_In, in_concat in He as (errs & Hin & He);
    apply list_elem_of_In, elem_of_lookup_imap in Hin as (i & rule & -> & Hi);
    pose proof (validate_rule_located b i (block_ctx block)
      (find_seg segments (bs_from block)) (find_seg segments (bs_to block)) rule) as Hl;
    apply list_elem_of_In in He; rewrite list.Forall_forall in Hl; destruct (Hl e He) as [-> ->];
    split; [done|]; intros r [= <-]; by eapply lookup_lt_Some.
Qed.

Lemma filter_validate_blocks segments k blocks seen b block r rule :
  blocks !! b = Some block -> bs_rules block !! r = Some rule ->
  filter (located (k + b)%nat (Some r)) (validate_blocks segments k blocks seen) =
  validate_rule (k + b) r (block_ctx block) (find_seg segments (bs_from block))
    (find_seg segments (bs_to block)) rule.
Proof.
  revert k seen b. induction blocks as [|block' blocks IH]; intros k seen b Hb Hr; [done|]. simpl.
  pose proof (validate_block_located segments k block' seen) as Hloc.
  pose proof (fun r rule H => filter_validate_block segments k block' seen r rule H) as Hf.
  destruct (validate_block segments k block' seen) as [seen' errs]. simpl in *. rewrite list.filter_app.
  destruct b as [|b]; simpl in Hb.
  - simplify_eq. rewrite Nat.add_0_r, (Hf r rule Hr), filter_none, app_nil_r; [done|].
    assert (forall l j s, (k < j)%nat ->
              Forall (fun e => ~ located k (Some r) e) (validate_blocks segments j l s)) as H.
    { clear. induction l as [|bl l IH]; intros j s Hj; simpl; [constructor|].
      pose proof (validate_block_located segments j bl s) as Hloc.
      destruct (validate_block segments j bl s) as [s' errs]. simpl in Hloc.
      apply Forall_app. split; [|apply IH; lia].
      eapply list.Forall_impl; [exact Hloc|]. intros e [He _] [He' _]. rewrite He in He'.
      injection He'. lia. }
    apply H. lia.
  - rewrite Nat.add_succ_r, filter_none; [by apply (IH (S k) seen' b)|].
    eapply list.Forall_impl; [exact Hloc|]. intros e [He _] [He' _]. rewrite He in He'.
    injection He'. lia.
Qed.

Lemma validate_nil segments doc : validate doc segments = [] <-> doc_ok segments doc.
Proof.
  unfold validate, doc_ok. rewrite (validate_blocks_nil segments 0 _ ∅ []).
  - rewrite (list.Forall_forall (fun p => p ∉ [])). setoid_rewrite elem_of_nil. tauto.
  - intros p. rewrite lookup_empty, elem_of_nil. split; [by intros []|done].
Qed.

Lemma parse_policy_inv from_str yaml segments doc :
  parse_policy from_str yaml segments = Ok doc <-> from_str yaml = Ok doc /\ doc_ok segments doc.
Proof.
  unfold parse_policy. destruct (from_str yaml) as [d|e]; [|naive_solver].
  destruct (validate d segments) eqn:E.
  - apply validate_nil in E. naive_solver.
  - split; [done|]. intros [[= ->] H%validate_nil]. congruence.
Qed.

(** ** Properties *)

(** C20: A policy is accepted exactly when it parses and is valid: every block names two
    known segments with at least one CIDR each, no ordered pair is declared twice, and
    every rule has exactly one action, CIDRs that parse and lie inside one CIDR of their
    side's segment, a known protocol, and ports only with tcp or udp, in 1..=65535 and in
    order.  Nothing valid is refused and nothing else is let through. *)
Theorem parse_policy_accepts_iff from_str yaml segments doc :
  parse_policy from_str yaml segments = Ok doc <->
  from_str yaml = Ok doc /\
  (forall block, block ∈ pd_policy doc ->
     exists f t, find_seg segments (bs_from block) = Some f /\
                 find_seg segments (bs_to block) = Some t /\
                 seg_cidrs f <> [] /\ seg_cidrs t <> [] /\
                 forall rule, rule ∈ bs_rules block -> rule_ok (Some f) (Some t) rule) /\
  NoDup (pairs_of (pd_policy doc)).
Proof.
  rewrite parse_policy_inv. unfold doc_ok, block_ok. rewrite list.Forall_forall.
  apply and_iff_compat_l, and_iff_compat_r. split; intros H block Hb; specialize (H block Hb).
  - destruct H as ((f & Ef & ?) & (t & Et & ?) & Hr). exists f, t.
    rewrite Ef, Et in Hr. rewrite list.Forall_forall in Hr. auto.
  - destruct H as (f & t & Ef & Et & ? & ? & Hr). rewrite Ef, Et, list.Forall_forall.
    unfold side_ok. eauto 10.
Qed.

(** Errors are collected, not cut short: whatever the other blocks and rules look
    like, the errors located at rule [r] of block [b] are exactly the ones that rule's own
    check produces, and there are none exactly when the rule is well formed. *)
Theorem validate_reports_every_rule segments doc b block r rule :
  pd_policy doc !! b = Some block -> bs_rules block !! r = Some rule ->
  let f := find_seg segments (bs_from block) in
  let t := find_seg segments (bs_to block) in
  filter (located b (Some r)) (validate doc segments) =
    validate_rule b r (block_ctx block) f t rule /\
  (filter (located b (Some r)) (validate doc segments) = [] <-> rule_ok f t rule).
Proof.
  intros Hb Hr f t. unfold validate.
  rewrite (filter_validate_blocks segments 0 _ ∅ b block r rule) by done.
  split; [done|]. apply validate_rule_nil.
Qed.
End validate.

(** ** Concrete documents *)

Definition zero_net : simple_net := Build_simple_net 0 0 eq_refl.
Definition test_net (s : string) : simple_net := default zero_net (simple_parse s).

Definition test_segments : list (@SegmentDef SimpleNet) :=
  [ @Build_SegmentDef SimpleNet "web" [test_net "10.1.0.0/16"];
    @Build_SegmentDef SimpleNet "db" [test_net "10.2.0.0/16"; test_net "10.3.0.0/24"] ].

Definition test_body : RuleBody :=
  {| rb_src := ["10.1.2.0/24"]; rb_dst := ["10.3.0.7/32"];
     rb_ports := [Single 443; Range "8000 - 8080"]; rb_proto := Some "tcp" |}.

Definition test_rule_ok : RuleSrc := {| rs_allow := Some test_body; rs_deny := None |}.
Definition test_rule_both : RuleSrc := {| rs_allow := Some test_body; rs_deny := Some test_body |}.
Definition test_rule_deny : RuleSrc :=
  {| rs_allow := None;
     rs_deny := Some {| rb_src := []; rb_dst := []; rb_ports := []; rb_proto := None |} |}.

Definition test_doc (rules : list RuleSrc) : PolicyDoc :=
  {| pd_policy := [{| bs_from := "web"; bs_to := "db"; bs_rules := rules |}] |}.

Example validate_test_doc : validate (test_doc [test_rule_ok; test_rule_deny]) test_segments = [].
Proof. vm_compute. reflexivity. Qed.

Example validate_test_doc_both :
  validate (test_doc [test_rule_ok; test_rule_both]) test_segments =
  [rule_err 0 1 "(web→db) rule needs exactly one of allow/deny (both present)"].
Proof. vm_compute. reflexivity. Qed.

Lemma validate_reports_every_rule_witness :
  filter (located 0 (Some 1%nat)) (validate (test_doc [test_rule_ok; test_rule_both]) test_segments)
  = [rule_err 0 1 "(web→db) rule needs exactly one of allow/deny (both present)"].
Proof.
  exact (proj1 (validate_reports_every_rule test_segments (test_doc [test_rule_ok; test_rule_both])
    0 (Build_BlockSrc "web" "db" [test_rule_ok; test_rule_both]) 1 test_rule_both
    eq_refl eq_refl)).
Defined.
