(* ===== verification/PolicyCompile.v ===== *)
(** * [wiremesh-policy]: the compiled policy and the compiler ([ir.rs], [compile.rs])

    [compile] runs on validated documents; its [expect] and [unreachable!] calls are
    modelled as [Panicked] so that their absence is a theorem.  [sha2] and
    [serde_json] are parameters. *)
From S2P Require Export PolicyDsl.
From S2P Require Import StdNet.
From stdpp Require Import sorting.
From Stdlib Require Import ZArith Lia Ascii.
Local Open Scope Z_scope.

(** ** The IR *)

Inductive IrAction := Allow | Deny.
Inductive IrProto := Tcp | Udp | Icmp | AnyProto.

#[export] Instance IrAction_eq_dec : EqDecision IrAction.
Proof. solve_decision. Defined.
#[export] Instance IrProto_eq_dec : EqDecision IrProto.
Proof. solve_decision. Defined.

Record IrRule := { ir_rule_id : string; ir_action : IrAction; ir_proto : IrProto;
                   ir_src : list string; ir_dst : list string; ir_ports : list (Z * Z) }.

Record IrBlock := { ib_from : string; ib_to : string; ib_src_cidrs : list string;
                    ib_dst_cidrs : list string; ib_rules : list IrRule }.

Record PolicyIR := { pi_schema : Z; pi_version : Z; pi_blocks : list IrBlock }.

#[export] Instance IrRule_eq_dec : EqDecision IrRule.
Proof. solve_decision. Defined.
#[export] Instance IrBlock_eq_dec : EqDecision IrBlock.
Proof. solve_decision. Defined.
#[export] Instance PolicyIR_eq_dec : EqDecision PolicyIR.
Proof. solve_decision. Defined.

(** [PolicyIR::from_json] over the JSON reader. *)
Definition from_json (from_slice : string -> option PolicyIR) (bytes : string)
    : option PolicyIR :=
  ir ← from_slice bytes;
  if Z.eqb (pi_schema ir) 1 then Some ir else None.

Definition hex_digit (n : nat) : ascii :=
  ascii_of_nat (if Nat.ltb n 10 then 48 + n else 87 + n)%nat.

(** [hex_encode]: two lower-case hex digits per byte. *)
Fixpoint hex_encode (bytes : string) : string :=
  match bytes with
  | EmptyString => EmptyString
  | String c s =>
      let n := nat_of_ascii c in
      String (hex_digit (n / 16)) (String (hex_digit (n mod 16)) (hex_encode s))
  end.

(** [blocks_fingerprint]: depends on [blocks] alone. *)
Definition blocks_fingerprint (sha256 : string -> string) (to_string : list IrBlock -> string)
    (ir : PolicyIR) : string :=
  hex_encode (sha256 (to_string (pi_blocks ir))).

(** ** Rule identities *)

Definition action_text (a : IrAction) : string :=
  match a with Allow => "allow" | Deny => "deny" end.
Definition proto_text (p : IrProto) : string :=
  match p with Tcp => "tcp" | Udp => "udp" | Icmp => "icmp" | AnyProto => "any" end.
Definition port_text (p : Z * Z) : string := show_uint p.1 +:+ "-" +:+ show_uint p.2.

(** The text [rule_id] hashes. *)
Definition rule_preimage (from to : string) (rule : IrRule) : string :=
  from +:+ "|" +:+ to +:+ "|" +:+ action_text (ir_action rule) +:+ "|"
  +:+ proto_text (ir_proto rule) +:+ "|src=" +:+ str_join "," (ir_src rule)
  +:+ "|dst=" +:+ str_join "," (ir_dst rule)
  +:+ "|ports=" +:+ str_join "," (map port_text (ir_ports rule)).

Definition rule_id (sha256 : string -> string) (from to : string) (rule : IrRule) : string :=
  hex_encode (String.substring 0 8 (sha256 (rule_preimage from to rule))).

(** ** The compiler *)

Inductive panic := Panicked.

(** [Option::expect] and the [unreachable!] arms. *)
Definition expect {A : Type} (o : option A) : result panic A :=
  match o with Some a => Ok a | None => Err Panicked end.

Definition MAX_RULES : nat := 256.
Definition MAX_LPM_CIDRS_PER_SIDE : nat := 1024.

Definition normalize_port (spec : PortSpec) : result panic (Z * Z) :=
  match spec with
  | Single n => Ok (wrap 16 n, wrap 16 n)
  | Range s =>
      '(lo, hi) ← expect (split_once "-" s);
      l ← expect (parse_unsigned 16 (trim lo));
      h ← expect (parse_unsigned 16 (trim hi));
      Ok (l, h)
  end.

(** The [proto] match of [compile]. *)
Definition compile_proto (proto : option string) : result panic IrProto :=
  match proto with
  | None => Ok AnyProto
  | Some p =>
      if String.eqb p "tcp" then Ok Tcp
      else if String.eqb p "udp" then Ok Udp
      else if String.eqb p "icmp" then Ok Icmp
      else if String.eqb p "any" then Ok AnyProto
      else Err Panicked
  end.

Definition compile_action (rule : RuleSrc) : result panic (IrAction * RuleBody) :=
  match rs_allow rule, rs_deny rule with
  | Some body, None => Ok (Allow, body)
  | None, Some body => Ok (Deny, body)
  | _, _ => Err Panicked
  end.

(** The side a rule constrains: its own list, or its block's when it is empty. *)
Definition effective_side {A : Type} (own seg : list A) : list A :=
  match own with [] => seg | _ => own end.

Section compile.
Context {N : Ipv4NetApi} (sha256 : string -> string).

Definition net_le (a b : ipv4net) : Prop :=
  net_addr a < net_addr b \/ net_addr a = net_addr b /\ net_prefix a <= net_prefix b.

#[export] Instance net_le_dec a b : Decision (net_le a b).
Proof. unfold net_le. apply _. Defined.

Definition sorted_cidr_strings (cidrs : list ipv4net) : list string :=
  map net_show (merge_sort net_le cidrs).

Definition normalized_cidr_strings (raw : list string) : result panic (list string) :=
  traverse (fun s => n ← expect (net_parse s); Ok (net_show n)) raw.

(** The body of the rule loop. *)
Definition compile_rule (block : BlockSrc) (rule : RuleSrc) : result panic IrRule :=
  '(action, body) ← compile_action rule;
  proto ← compile_proto (rb_proto body);
  src_ips ← normalized_cidr_strings (rb_src body);
  dst_ips ← normalized_cidr_strings (rb_dst body);
  ports ← traverse normalize_port (rb_ports body);
  let ir_rule := {| ir_rule_id := ""; ir_action := action; ir_proto := proto;
                    ir_src := src_ips; ir_dst := dst_ips; ir_ports := ports |} in
  Ok {| ir_rule_id := rule_id sha256 (bs_from block) (bs_to block) ir_rule;
        ir_action := action; ir_proto := proto;
        ir_src := src_ips; ir_dst := dst_ips; ir_ports := ports |}.

(** The body of the block loop. *)
Definition compile_block (segments : list SegmentDef) (block : BlockSrc) : result panic IrBlock :=
  from_seg ← expect (find_seg segments (bs_from block));
  to_seg ← expect (find_seg segments (bs_to block));
  rules ← traverse (compile_rule block) (bs_rules block);
  Ok {| ib_from := bs_from block; ib_to := bs_to block;
        ib_src_cidrs := sorted_cidr_strings (seg_cidrs from_seg);
        ib_dst_cidrs := sorted_cidr_strings (seg_cidrs to_seg);
        ib_rules := rules |}.

(** [.flat_map(|b| &b.rules).map(|r| r.ports.len().max(1)).sum()]. *)
Definition rule_width (r : IrRule) : nat := Nat.max 1 (length (ir_ports r)).
Definition flattened_count (blocks : list IrBlock) : nat :=
  sum_list_with rule_width (concat (map ib_rules blocks)).

Definition side_strings (side : IrBlock -> IrRule -> list string) (blocks : list IrBlock)
    : list string :=
  concat (map (fun b => concat (map (side b) (ib_rules b))) blocks).
Definition rule_src (b : IrBlock) (r : IrRule) : list string :=
  effective_side (ir_src r) (ib_src_cidrs b).
Definition rule_dst (b : IrBlock) (r : IrRule) : list string :=
  effective_side (ir_dst r) (ib_dst_cidrs b).

(** The size of the [BTreeSet] of one side. *)
Definition distinct_count (l : list string) : nat := size (list_to_set l : gset string).

Definition doc_err (msg : string) : CompileError :=
  {| ce_block := None; ce_rule := None; ce_msg := msg |}.

Definition side_limit (side : string) (count : nat) : list CompileError :=
  if Nat.ltb MAX_LPM_CIDRS_PER_SIDE count then
    [doc_err ("policy's " +:+ side +:+ " side resolves to " +:+ show_nat count
              +:+ " distinct CIDRs, exceeding the 1024-entry per-side eBPF LPM trie capacity "
              +:+ "(MAX_LPM_CIDRS_PER_SIDE; see wiremesh_enforcer_common::LPM_MAX_ENTRIES)")]
  else [].

(** The limit guards of [compile]. *)
Definition compile_limits (blocks : list IrBlock) : list CompileError :=
  (if Nat.ltb MAX_RULES (flattened_count blocks) then
     [doc_err ("policy flattens to " +:+ show_nat (flattened_count blocks)
               +:+ " rules, exceeding the 256-rule limit "
               +:+ "(MAX_RULES; see wiremesh_enforcer::flatten::MAX_RULES)")]
   else [])
  ++ side_limit "src" (distinct_count (side_strings rule_src blocks))
  ++ side_limit "dst" (distinct_count (side_strings rule_dst blocks)).

Definition compile (src : PolicyDoc) (segments : list SegmentDef) (version : Z)
    : result panic (result (list CompileError) PolicyIR) :=
  blocks ← traverse (compile_block segments) (pd_policy src);
  match compile_limits blocks with
  | [] => Ok (Ok {| pi_schema := 1; pi_version := version; pi_blocks := blocks |})
  | errors => Ok (Err errors)
  end.

End compile.

(** ** A concrete run *)

Example compile_test_doc :
  compile (N := SimpleNet) (fun s => s) (test_doc [test_rule_ok; test_rule_deny]) test_segments 7 =
  Ok (Ok {| pi_schema := 1; pi_version := 7; pi_blocks :=
    [{| ib_from := "web"; ib_to := "db"; ib_src_cidrs := ["10.1.0.0/16"];
        ib_dst_cidrs := ["10.2.0.0/16"; "10.3.0.0/24"];
        ib_rules :=
          [{| ir_rule_id := "7765627c64627c61"; ir_action := Allow; ir_proto := Tcp;
              ir_src := ["10.1.2.0/24"]; ir_dst := ["10.3.0.7/32"];
              ir_ports := [(443, 443); (8000, 8080)] |};
           {| ir_rule_id := "7765627c64627c64"; ir_action := Deny; ir_proto := AnyProto;
              ir_src := []; ir_dst := []; ir_ports := [] |}] |}] |}).
Proof. vm_compute. reflexivity. Qed.

(** ** What a compiled rule means *)

Definition port_meaning (spec : PortSpec) (range : Z * Z) : Prop :=
  match spec with
  | Single n => range = (n, n)
  | Range s => parse_range s = Some range
  end.

Definition proto_meaning (proto : option string) (p : IrProto) : Prop :=
  match proto with
  | None => p = AnyProto
  | Some s => (s, p) ∈ [("tcp", Tcp); ("udp", Udp); ("icmp", Icmp)]
  end.

Definition port_range_ok (range : Z * Z) : Prop := 1 <= range.1 <= range.2 /\ range.2 <= 65535.

Section compile_spec.
Context {N : Ipv4NetApi} {NL : Ipv4NetLaws N} (sha256 : string -> string).

Definition cidr_meaning (raw shown : string) : Prop :=
  exists n, net_parse raw = Some n /\ shown = net_show n.

Definition body_meaning (body : RuleBody) (r : IrRule) : Prop :=
  proto_meaning (rb_proto body) (ir_proto r) /\
  Forall2 cidr_meaning (rb_src body) (ir_src r) /\
  Forall2 cidr_meaning (rb_dst body) (ir_dst r) /\
  Forall2 port_meaning (rb_ports body) (ir_ports r).

Definition rule_meaning (from to : string) (rule : RuleSrc) (r : IrRule) : Prop :=
  ir_rule_id r = rule_id sha256 from to r /\
  match rs_allow rule, rs_deny rule with
  | Some body, None => ir_action r = Allow /\ body_meaning body r
  | None, Some body => ir_action r = Deny /\ body_meaning body r
  | _, _ => False
  end.

Definition block_meaning (segments : list SegmentDef) (block : BlockSrc) (b : IrBlock) : Prop :=
  exists f t,
    find_seg segments (bs_from block) = Some f /\ find_seg segments (bs_to block) = Some t /\
    ib_from b = bs_from block /\ ib_to b = bs_to block /\
    ib_src_cidrs b = sorted_cidr_strings (seg_cidrs f) /\
    ib_dst_cidrs b = sorted_cidr_strings (seg_cidrs t) /\
    Forall2 (rule_meaning (bs_from block) (bs_to block)) (bs_rules block) (ib_rules b).

(** *** Integer parsing at two widths *)

(** A positive value small enough parses at 16 bits as it did at 64. *)
Lemma parse_i64_u16 s n : parse_i64 s = Some n -> 1 <= n <= 65535 -> parse_unsigned 16 s = Some n.
Proof.
  intros E Hn.
  assert (forall v, parse_unsigned 63 s = Some v -> 1 <= v <= 65535 -> parse_unsigned 16 s = Some v)
    as Hu.
  { unfold parse_unsigned. intros v. destruct (parse_digits (strip_plus s)) as [w|]; [|done].
    destruct (Z.ltb_spec w (2 ^ 63)); [|done]. intros [= ->] ?.
    destruct (Z.ltb_spec v (2 ^ 16)); [done|lia]. }
  apply Hu; [|done]. revert E. unfold parse_i64.
  destruct s as [|c s']; [done|].
  assert (parse_digits s' = Some (- n) -> False) as Hneg.
  { intros H%parse_digits_nonneg. lia. }
  destruct c as [[] [] [] [] [] [] [] []]; try done.
  destruct (parse_digits s') as [v|]; [|done]. destruct (Z.leb v (2 ^ 63)); [|done].
  intros [= <-]. destruct Hneg. f_equal. lia.
Qed.

Lemma parse_range_inv s lo hi :
  parse_range s = Some (lo, hi) <->
  exists a b, split_once "-" s = Some (a, b) /\ parse_i64 (trim a) = Some lo /\
              parse_i64 (trim b) = Some hi.
Proof.
  unfold parse_range. split.
  - intros E. apply bind_Some in E as ([a b] & E1 & E). simplify_option_eq. eauto.
  - intros (a & b & -> & Ha & Hb). simpl. rewrite Ha. simpl. by rewrite Hb.
Qed.

Lemma normalize_port_ok spec :
  port_ok spec ->
  exists range, normalize_port spec = Ok range /\ port_meaning spec range /\ port_range_ok range.
Proof.
  destruct spec as [n|s]; simpl; unfold port_range_ok.
  - intros Hn. exists (n, n). unfold wrap. rewrite Z.mod_small by lia. simpl. repeat split; lia.
  - intros (lo & hi & E & H). exists (lo, hi). split_and!; simpl; try tauto.
    apply parse_range_inv in E as (a & b & -> & Ha & Hb). simpl.
    rewrite (parse_i64_u16 _ _ Ha), (parse_i64_u16 _ _ Hb) by lia. done.
Qed.

Lemma compile_proto_ok proto :
  match proto with Some p => p ∈ ["tcp"; "udp"; "icmp"] | None => True end ->
  exists p, compile_proto proto = Ok p /\ proto_meaning proto p.
Proof.
  destruct proto as [p|]; simpl; [|eauto].
  rewrite !elem_of_cons, elem_of_nil.
  intros [->|[->|[->|[]]]]; eexists; (split; [done|]); rewrite !elem_of_cons; auto.
Qed.

Lemma normalized_ok seg raws :
  Forall (cidr_ok seg) raws ->
  exists shown, normalized_cidr_strings raws = Ok shown /\ Forall2 cidr_meaning raws shown.
Proof.
  intros H. unfold normalized_cidr_strings. setoid_rewrite traverse_ok.
  induction H as [|raw raws (n & Hn & _) _ (shown & H1 & H2)].
  - exists []. by split.
  - exists (net_show n :: shown). split; constructor; auto; [by rewrite Hn|by exists n].
Qed.

Lemma ports_normalized specs :
  Forall port_ok specs ->
  exists ranges, traverse normalize_port specs = Ok ranges /\
                 Forall2 port_meaning specs ranges /\ Forall port_range_ok ranges.
Proof.
  intros H. setoid_rewrite traverse_ok.
  induction H as [|spec specs Hs _ (ranges & H1 & H2 & H3)].
  - exists []. by repeat constructor.
  - destruct (normalize_port_ok spec Hs) as (range & ? & ? & ?).
    exists (range :: ranges). repeat split; by constructor.
Qed.

(** Rules whose ports are in range and only on tcp or udp. *)
Definition ir_rule_ports_ok (r : IrRule) : Prop :=
  Forall port_range_ok (ir_ports r) /\
  (ir_ports r <> [] -> ir_proto r = Tcp \/ ir_proto r = Udp).

Lemma compile_rule_ok f t block rule :
  rule_ok f t rule ->
  exists r, compile_rule sha256 block rule = Ok r /\
            rule_meaning (bs_from block) (bs_to block) rule r /\ ir_rule_ports_ok r.
Proof.
  unfold rule_ok, compile_rule, compile_action, rule_meaning, ir_rule_ports_ok.
  intros H. assert (exists action body,
    compile_action rule = Ok (action, body) /\ body_ok f t body /\
    (rs_allow rule, rs_deny rule) =
      match action with Allow => (Some body, None) | Deny => (None, Some body) end)
    as (action & body & Ea & (Hsrc & Hdst & Hports) & Hr).
  { unfold compile_action. destruct (rs_allow rule), (rs_deny rule); try done; eauto. }
  unfold compile_action in Ea. rewrite Ea. simpl.
  assert (exists p, compile_proto (rb_proto body) = Ok p /\ proto_meaning (rb_proto body) p)
    as (p & Ep & Hp).
  { unfold ports_ok in Hports. apply compile_proto_ok. destruct (rb_proto body); tauto. }
  destruct (normalized_ok _ _ Hsrc) as (ss & Es & Hss).
  destruct (normalized_ok _ _ Hdst) as (ds & Ed & Hds).
  assert (Forall port_ok (rb_ports body)) as Hpo.
  { unfold ports_ok in Hports. destruct (rb_proto body); [tauto|by rewrite Hports]. }
  destruct (ports_normalized _ Hpo) as (ps & Eps & Hps & Hrange).
  rewrite Ep, Es, Ed, Eps. simpl. eexists. split; [done|]. simpl. split_and!.
  - done.
  - destruct action; injection Hr as E1 E2; rewrite E1, E2; unfold body_meaning; simpl; auto.
  - done.
  - intros Hne. unfold ports_ok in Hports. unfold proto_meaning in Hp.
    assert (rb_ports body <> []) as Hnb by (intros E; rewrite E in Hps; by inversion Hps; subst).
    destruct (rb_proto body) as [s|]; [|done]. destruct Hports as (_ & Hin & _).
    specialize (Hin Hnb). set_solver.
Qed.

Lemma traverse_exists {E A B : Type} (f : A -> result E B) (P : A -> B -> Prop) l :
  (forall a, a ∈ l -> exists b, f a = Ok b /\ P a b) ->
  exists bs, traverse f l = Ok bs /\ Forall2 P l bs.
Proof.
  setoid_rewrite traverse_ok. induction l as [|a l IH]; intros H.
  - exists []. by repeat constructor.
  - destruct (H a) as (b & ? & ?); [by left|].
    destruct IH as (bs & ? & ?); [intros; apply H; by right|].
    exists (b :: bs). split; by constructor.
Qed.

Definition ir_block_ok (b : IrBlock) : Prop :=
  ib_src_cidrs b <> [] /\ ib_dst_cidrs b <> [] /\ Forall ir_rule_ports_ok (ib_rules b).

Lemma sorted_cidrs_nonempty l : l <> [] -> sorted_cidr_strings l <> [].
Proof.
  unfold sorted_cidr_strings. intros Hl E%map_eq_nil. apply Hl.
  pose proof (merge_sort_Permutation net_le l) as HP. rewrite E in HP.
  by apply Permutation_nil in HP.
Qed.

Lemma compile_block_ok segments block :
  block_ok segments block ->
  exists b, compile_block sha256 segments block = Ok b /\ block_meaning segments block b /\
            ir_block_ok b.
Proof.
  intros ((f & Ef & Hf) & (t & Et & Ht) & Hrules). unfold compile_block.
  rewrite Ef, Et in *. simpl.
  destruct (traverse_exists (compile_rule sha256 block)
    (fun rule r => rule_meaning (bs_from block) (bs_to block) rule r /\ ir_rule_ports_ok r)
    (bs_rules block)) as (rs & Er & Hrs).
  { intros rule Hin. rewrite list.Forall_forall in Hrules.
    by apply (compile_rule_ok (Some f) (Some t)), Hrules. }
  rewrite Er. simpl. eexists. split; [done|]. split.
  - exists f, t. split_and!; try done. simpl. eapply Forall2_impl; [exact Hrs|]. naive_solver.
  - split_and!; simpl; try by apply sorted_cidrs_nonempty.
    eapply Forall2_Forall_r; [exact Hrs|]. apply list.Forall_forall. naive_solver.
Qed.

Lemma compile_blocks_ok segments doc :
  doc_ok segments doc ->
  exists blocks, traverse (compile_block sha256 segments) (pd_policy doc) = Ok blocks /\
    Forall2 (block_meaning segments) (pd_policy doc) blocks /\ Forall ir_block_ok blocks.
Proof.
  intros [Hb _]. rewrite list.Forall_forall in Hb.
  destruct (traverse_exists (compile_block sha256 segments)
    (fun block b => block_meaning segments block b /\ ir_block_ok b) (pd_policy doc))
    as (bs & E & H); [by intros; apply compile_block_ok, Hb|].
  exists bs. split_and!; [done| |].
  - eapply Forall2_impl; [exact H|]. naive_solver.
  - eapply Forall2_Forall_r; [exact H|]. apply list.Forall_forall. naive_solver.
Qed.

Definition within_limits (blocks : list IrBlock) : Prop :=
  (flattened_count blocks <= MAX_RULES)%nat /\
  (distinct_count (side_strings rule_src blocks) <= MAX_LPM_CIDRS_PER_SIDE)%nat /\
  (distinct_count (side_strings rule_dst blocks) <= MAX_LPM_CIDRS_PER_SIDE)%nat.

Lemma side_limit_nil side n : side_limit side n = [] <-> (n <= MAX_LPM_CIDRS_PER_SIDE)%nat.
Proof. unfold side_limit. destruct (Nat.ltb_spec MAX_LPM_CIDRS_PER_SIDE n); split; done || lia. Qed.

Lemma compile_limits_nil blocks : compile_limits blocks = [] <-> within_limits blocks.
Proof.
  unfold compile_limits, within_limits. rewrite !app_nil, !side_limit_nil. f_equiv.
  destruct (Nat.ltb_spec MAX_RULES (flattened_count blocks)); split; done || lia.
Qed.

Lemma compile_inv doc segments version ir :
  doc_ok segments doc -> compile sha256 doc segments version = Ok (Ok ir) ->
  pi_schema ir = 1 /\ pi_version ir = version /\ within_limits (pi_blocks ir) /\
  Forall2 (block_meaning segments) (pd_policy doc) (pi_blocks ir) /\
  Forall ir_block_ok (pi_blocks ir).
Proof.
  intros Hdoc. unfold compile.
  destruct (compile_blocks_ok segments doc Hdoc) as (blocks & -> & Hm & Hok). simpl.
  destruct (compile_limits blocks) eqn:El; intros [= <-]. simpl.
  by apply compile_limits_nil in El.
Qed.

(** *** The hashed text determines the rule *)

(** What compilation guarantees of a rule's fields. *)
Definition ir_rule_canonical (r : IrRule) : Prop :=
  (forall s, s ∈ ir_src r ++ ir_dst r -> exists n : ipv4net, s = net_show n) /\
  Forall (fun p => 0 <= p.1 < 2 ^ 16 /\ 0 <= p.2 < 2 ^ 16) (ir_ports r).

Lemma shown_sep_free c (l : list string) :
  net_char c = false -> (forall s, s ∈ l -> exists n : ipv4net, s = net_show n) -> sep_free c l.
Proof.
  intros Hc H. apply list.Forall_forall. intros s [n ->]%H. by apply has_char_net_show.
Qed.

Lemma shown_nonempty (l : list string) :
  (forall s, s ∈ l -> exists n : ipv4net, s = net_show n) -> Forall (fun s => s <> "") l.
Proof. intros H. apply list.Forall_forall. intros s [n ->]%H. apply net_show_nonempty. Qed.

Lemma port_text_free c p :
  0 <= p.1 < 2 ^ 16 /\ 0 <= p.2 < 2 ^ 16 -> is_digit c = false -> Ascii.eqb c "-" = false ->
  has_char c (port_text p) = false.
Proof.
  intros [H1 H2] Hc Hd. unfold port_text. rewrite !has_char_app, !has_char_show_uint by (done || lia).
  simpl. by rewrite Hd.
Qed.

Lemma port_text_inj p q :
  0 <= p.1 < 2 ^ 16 /\ 0 <= p.2 < 2 ^ 16 -> 0 <= q.1 < 2 ^ 16 /\ 0 <= q.2 < 2 ^ 16 ->
  port_text p = port_text q -> p = q.
Proof.
  destruct p as [p1 p2], q as [q1 q2]. simpl. intros [? ?] [? ?]. unfold port_text. simpl.
  change ("-" +:+ ?x) with (String "-" x). intros E.
  apply app_cut in E as [E1%show_uint_inj E2%show_uint_inj];
    first [by apply has_char_show_uint; (lia || done) | lia | by subst].
Qed.

Lemma ports_text_inj l1 l2 :
  Forall (fun p => 0 <= p.1 < 2 ^ 16 /\ 0 <= p.2 < 2 ^ 16) l1 ->
  Forall (fun p => 0 <= p.1 < 2 ^ 16 /\ 0 <= p.2 < 2 ^ 16) l2 ->
  str_join "," (map port_text l1) = str_join "," (map port_text l2) -> l1 = l2.
Proof.
  intros H1 H2 E. apply (str_join_inj ",") in E.
  - revert l2 H2 E. induction H1 as [|p l1 Hp _ IH]; intros [|q l2] H2 E; try done.
    inversion H2; subst. injection E as Ep El. f_equal; [by apply port_text_inj|by apply IH].
  - apply List.Forall_map. eapply list.Forall_impl; [exact H1|].
    intros p Hp. simpl. by apply port_text_free.
  - apply List.Forall_map. eapply list.Forall_impl; [exact H2|].
    intros p Hp. simpl. by apply port_text_free.
  - apply List.Forall_map, list.Forall_forall. intros p _ E'. simpl in E'.
    apply (f_equal (has_char "-")) in E'. unfold port_text in E'.
    rewrite !has_char_app in E'. simpl in E'. by rewrite orb_true_r in E'.
  - apply List.Forall_map, list.Forall_forall. intros p _ E'. simpl in E'.
    apply (f_equal (has_char "-")) in E'. unfold port_text in E'.
    rewrite !has_char_app in E'. simpl in E'. by rewrite orb_true_r in E'.
Qed.

Lemma action_text_inj a b : action_text a = action_text b -> a = b.
Proof. by destruct a, b. Qed.
Lemma proto_text_inj a b : proto_text a = proto_text b -> a = b.
Proof. by destruct a, b. Qed.

Lemma rule_meaning_canonical from to rule r :
  rule_meaning from to rule r -> ir_rule_ports_ok r -> ir_rule_canonical r.
Proof.
  intros [_ H] [Hp _]. split.
  - assert (exists body, body_meaning body r) as (body & _ & H1 & H2 & _)
      by (destruct (rs_allow rule), (rs_deny rule); naive_solver).
    intros s [Hs|Hs]%elem_of_app;
      [eapply list_elem_of_lookup in Hs as [i Hi]; eapply Forall2_lookup_r in H1 as (? & _ & n & _ & ->)
      |eapply list_elem_of_lookup in Hs as [i Hi]; eapply Forall2_lookup_r in H2 as (? & _ & n & _ & ->)];
      eauto.
  - eapply list.Forall_impl; [exact Hp|]. unfold port_range_ok. intros; simpl; lia.
Qed.

Lemma rule_preimage_inj from1 to1 r1 from2 to2 r2 :
  has_char "|" from1 = false -> has_char "|" to1 = false ->
  has_char "|" from2 = false -> has_char "|" to2 = false ->
  ir_rule_canonical r1 -> ir_rule_canonical r2 ->
  rule_preimage from1 to1 r1 = rule_preimage from2 to2 r2 ->
  from1 = from2 /\ to1 = to2 /\ ir_action r1 = ir_action r2 /\ ir_proto r1 = ir_proto r2 /\
  ir_src r1 = ir_src r2 /\ ir_dst r1 = ir_dst r2 /\ ir_ports r1 = ir_ports r2.
Proof.
  intros F1 T1 F2 T2 [C1 P1] [C2 P2] E. unfold rule_preimage in E.
  assert (forall s, (forall x, x ∈ s -> exists n : ipv4net, x = net_show n) ->
            has_char "|" (str_join "," s) = false) as HJ.
  { intros l Hl. apply has_char_str_join; [done|]. by apply shown_sep_free. }
  assert (forall r, (forall x, x ∈ ir_src r ++ ir_dst r -> exists n : ipv4net, x = net_show n) ->
            (forall x, x ∈ ir_src r -> exists n : ipv4net, x = net_show n) /\
            (forall x, x ∈ ir_dst r -> exists n : ipv4net, x = net_show n)) as Hsd.
  { intros r H. split; intros x Hx; apply H, elem_of_app; auto. }
  destruct (Hsd r1 C1) as [S1 D1], (Hsd r2 C2) as [S2 D2].
  change ("|" +:+ ?x) with (String "|" x) in E.
  change ("|src=" +:+ ?x) with (String "|" ("src=" +:+ x)) in E.
  change ("|dst=" +:+ ?x) with (String "|" ("dst=" +:+ x)) in E.
  change ("|ports=" +:+ ?x) with (String "|" ("ports=" +:+ x)) in E.
  apply app_cut in E as [-> E]; [|done..].
  apply app_cut in E as [-> E]; [|done..].
  apply app_cut in E as [EA%action_text_inj E];
    [|by destruct (ir_action r1)|by destruct (ir_action r2)].
  apply app_cut in E as [EP%proto_text_inj E];
    [|by destruct (ir_proto r1)|by destruct (ir_proto r2)].
  rewrite <- !(string_app_assoc "src="), <- !(string_app_assoc "dst=") in E.
  apply app_cut in E as [ES E]; [|by rewrite has_char_app, HJ..].
  apply app_cut in E as [ED E]; [|by rewrite has_char_app, HJ..].
  apply (f_equal (str_strip_prefix "src=")) in ES. apply (f_equal (str_strip_prefix "dst=")) in ED.
  apply (f_equal (str_strip_prefix "ports=")) in E.
  simpl in ES, ED, E. injection ES as ES. injection ED as ED. injection E as E.
  apply (str_join_inj ",") in ES; try (by apply shown_sep_free); try by apply shown_nonempty.
  apply (str_join_inj ",") in ED; try (by apply shown_sep_free); try by apply shown_nonempty.
  apply ports_text_inj in E; auto 10.
Qed.

(** ** Properties *)

(** C22: On a document that [parse_policy] accepted, [compile] never reaches one of its
    [expect] or [unreachable!] calls.  Its blocks are, in source order, the document's
    blocks with segment CIDRs sorted and printed and each rule's action, protocol, CIDRs
    and port ranges as written; it returns them (schema 1, the given version) exactly
    when they flatten to at most 256 rules with at most 1024 distinct CIDRs per side, and
    a non-empty list of errors otherwise. *)
Theorem compile_total_and_faithful from_str yaml segments doc version :
  parse_policy from_str yaml segments = Ok doc ->
  exists blocks,
    Forall2 (block_meaning segments) (pd_policy doc) blocks /\ Forall ir_block_ok blocks /\
    ((within_limits blocks /\ compile sha256 doc segments version =
        Ok (Ok {| pi_schema := 1; pi_version := version; pi_blocks := blocks |})) \/
     (~ within_limits blocks /\
      exists e es, compile sha256 doc segments version = Ok (Err (e :: es)))).
Proof.
  intros [_ Hdoc]%parse_policy_inv.
  destruct (compile_blocks_ok segments doc Hdoc) as (blocks & E & Hm & Hok).
  exists blocks. split_and!; [done..|]. unfold compile. rewrite E. simpl.
  destruct (compile_limits blocks) as [|e es] eqn:El.
  - left. by apply compile_limits_nil in El.
  - right. split; [|eauto]. rewrite <- compile_limits_nil. congruence.
Qed.

(** C24: The text hashed into a rule id determines the rule: for segment names without
    ['|'], two compiled rules of any two blocks with the same text belong to the same
    ordered pair and agree on action, protocol, both CIDR lists and the port ranges, so
    distinct rules can share an id only by a collision of the hash. *)
Theorem rule_id_preimage_determines_rule segments block1 rule1 r1 block2 rule2 r2 :
  rule_ok (find_seg segments (bs_from block1)) (find_seg segments (bs_to block1)) rule1 ->
  rule_ok (find_seg segments (bs_from block2)) (find_seg segments (bs_to block2)) rule2 ->
  compile_rule sha256 block1 rule1 = Ok r1 -> compile_rule sha256 block2 rule2 = Ok r2 ->
  Forall (fun s => has_char "|" s = false)
    [bs_from block1; bs_to block1; bs_from block2; bs_to block2] ->
  rule_preimage (bs_from block1) (bs_to block1) r1 =
    rule_preimage (bs_from block2) (bs_to block2) r2 ->
  bs_from block1 = bs_from block2 /\ bs_to block1 = bs_to block2 /\
  ir_action r1 = ir_action r2 /\ ir_proto r1 = ir_proto r2 /\
  ir_src r1 = ir_src r2 /\ ir_dst r1 = ir_dst r2 /\ ir_ports r1 = ir_ports r2.
Proof.
  intros H1 H2 E1 E2 HF E. rewrite !Forall_cons_iff in HF.
  destruct HF as (F1 & F2 & F3 & F4 & _).
  destruct (compile_rule_ok _ _ block1 rule1 H1) as (r1' & E1' & M1 & P1).
  destruct (compile_rule_ok _ _ block2 rule2 H2) as (r2' & E2' & M2 & P2).
  rewrite E1 in E1'. rewrite E2 in E2'. simplify_eq.
  apply rule_preimage_inj; auto; by eapply rule_meaning_canonical.
Qed.
End compile_spec.

(** The separator matters: with ['|'] in a segment name, two ordered pairs hash the same text. *)
Example rule_preimage_ambiguous r :
  rule_preimage "a|b" "c" r = rule_preimage "a" "b|c" r.
Proof. reflexivity. Qed.

Lemma compile_total_and_faithful_witness :
  exists blocks : list IrBlock, length blocks = 1%nat /\ Forall ir_block_ok blocks.
Proof.
  destruct (compile_total_and_faithful (N := SimpleNet) (fun s => s)
    (fun _ => Ok (test_doc [test_rule_ok; test_rule_deny])) "" test_segments
    (test_doc [test_rule_ok; test_rule_deny]) 7 ltac:(vm_compute; reflexivity))
    as (blocks & H1 & H2 & _).
  exists blocks. split; [symmetry; exact (Forall2_length _ _ _ H1)|exact H2].
Defined.

Definition test_block : BlockSrc := Build_BlockSrc "web" "db" [].
Definition test_ir_rule : IrRule :=
  ok_or {| ir_rule_id := ""; ir_action := Deny; ir_proto := Icmp; ir_src := []; ir_dst := [];
           ir_ports := [] |}
    (compile_rule (N := SimpleNet) (fun s => s) test_block test_rule_ok).

Lemma rule_id_preimage_determines_rule_witness :
  ir_ports test_ir_rule = ir_ports test_ir_rule /\
  ir_ports test_ir_rule = [(443, 443); (8000, 8080)].
Proof.
  split; [|vm_compute; reflexivity].
  assert (rule_ok (find_seg test_segments "web") (find_seg test_segments "db") test_rule_ok) as Hok
    by (apply (validate_rule_nil 0 0 ""); vm_compute; reflexivity).
  assert (compile_rule (N := SimpleNet) (fun s => s) test_block test_rule_ok = Ok test_ir_rule) as Hr
    by (apply ok_or_ok; vm_compute; reflexivity).
  apply (rule_id_preimage_determines_rule (N := SimpleNet) (fun s => s) test_segments
    test_block test_rule_ok test_ir_rule test_block test_rule_ok test_ir_rule
    Hok Hok Hr Hr); [repeat constructor|reflexivity].
Defined.
