(* ===== verification/EnfFlatten.v ===== *)
(** * [wiremesh-enforcer]: the flattener ([flatten.rs]) and the pure part of
    the eBPF backend's compilation ([build_rules], [distinct_side_cidrs],
    [check_lpm_capacity] of [ebpf.rs]). *)
From S2P Require Export PolicyCompile.
From stdpp Require Import sorting.
From Stdlib Require Import ZArith Lia.
Local Open Scope nat_scope.

Definition LPM_MAX_ENTRIES : nat := 1024.

(** The causes of [flatten]'s [anyhow] errors. *)
Inductive FlattenError :=
| TooManyRules (expanded : nat)
| InvalidCidr (s : string)
| EmptySide (from to side rule_id : string)
| LpmCapacity (side : string) (count : nat).

Section flatten.
Context {N : Ipv4NetApi}.

(** ** [DistinctSideCidrs] *)

Record DistinctSideCidrs := { ds_seen : list ipv4net; ds_order : list ipv4net }.

Definition ds_default : DistinctSideCidrs := {| ds_seen := []; ds_order := [] |}.

(** [seen.insert(c)], then [order.push(c)] when it was new. *)
Definition ds_observe1 (d : DistinctSideCidrs) (c : ipv4net) : DistinctSideCidrs :=
  if decide (c ∈ ds_seen d) then d
  else {| ds_seen := c :: ds_seen d; ds_order := ds_order d ++ [c] |}.

Definition ds_observe (d : DistinctSideCidrs) (cidrs : list ipv4net) : DistinctSideCidrs :=
  fold_left ds_observe1 cidrs d.

Definition ds_check (d : DistinctSideCidrs) (side : string) : result FlattenError unit :=
  if LPM_MAX_ENTRIES <? length (ds_order d) then Err (LpmCapacity side (length (ds_order d)))
  else Ok tt.

(** ** [flatten] *)

Record FlatRule := { fr_idx : nat; fr_rule_id : string; fr_action : IrAction;
                     fr_proto : IrProto; fr_src_cidrs : list ipv4net;
                     fr_dst_cidrs : list ipv4net; fr_port_lo : Z; fr_port_hi : Z }.

Definition parse_cidrs (raw : list string) : result FlattenError (list ipv4net) :=
  traverse (fun s => match net_parse s with Some n => Ok n | None => Err (InvalidCidr s) end) raw.

Definition flat_rule (rule : IrRule) (src dst : list ipv4net) (range : Z * Z) : FlatRule :=
  {| fr_idx := 0; fr_rule_id := ir_rule_id rule; fr_action := ir_action rule;
     fr_proto := ir_proto rule; fr_src_cidrs := src; fr_dst_cidrs := dst;
     fr_port_lo := range.1; fr_port_hi := range.2 |}.

(** The port explosion: one rule per range, one [(0, 0)] rule when there is none. *)
Definition explode (rule : IrRule) (src dst : list ipv4net) : list FlatRule :=
  map (flat_rule rule src dst) (match ir_ports rule with [] => [(0, 0)%Z] | ps => ps end).

Record FlattenState := { fs_flat : list FlatRule; fs_src : DistinctSideCidrs;
                         fs_dst : DistinctSideCidrs }.

Definition check_side (b : IrBlock) (rule : IrRule) (side : string) (cidrs : list ipv4net)
    : result FlattenError unit :=
  match cidrs with
  | [] => Err (EmptySide (ib_from b) (ib_to b) side (ir_rule_id rule))
  | _ => Ok tt
  end.

(** A rule's effective side; the block's list was parsed once, before the rule loop. *)
Definition rule_side (own : list string) (block_side : list ipv4net)
    : result FlattenError (list ipv4net) :=
  match own with [] => Ok block_side | _ => parse_cidrs own end.

(** One iteration of the rule loop. *)
Definition flatten_rule (b : IrBlock) (block_src block_dst : list ipv4net) (st : FlattenState)
    (rule : IrRule) : result FlattenError FlattenState :=
  src ← rule_side (ir_src rule) block_src;
  dst ← rule_side (ir_dst rule) block_dst;
  _ ← check_side b rule "src" src;
  _ ← check_side b rule "dst" dst;
  let src_distinct := ds_observe (fs_src st) src in
  _ ← ds_check src_distinct "src";
  let dst_distinct := ds_observe (fs_dst st) dst in
  _ ← ds_check dst_distinct "dst";
  Ok {| fs_flat := fs_flat st ++ explode rule src dst;
        fs_src := src_distinct; fs_dst := dst_distinct |}.

Fixpoint flatten_rules (b : IrBlock) (block_src block_dst : list ipv4net) (st : FlattenState)
    (rules : list IrRule) : result FlattenError FlattenState :=
  match rules with
  | [] => Ok st
  | r :: rules' =>
      st' ← flatten_rule b block_src block_dst st r;
      flatten_rules b block_src block_dst st' rules'
  end.

Fixpoint flatten_blocks (st : FlattenState) (blocks : list IrBlock)
    : result FlattenError FlattenState :=
  match blocks with
  | [] => Ok st
  | b :: blocks' =>
      block_src ← parse_cidrs (ib_src_cidrs b);
      block_dst ← parse_cidrs (ib_dst_cidrs b);
      st' ← flatten_rules b block_src block_dst st (ib_rules b);
      flatten_blocks st' blocks'
  end.

Definition set_idx (i : nat) (f : FlatRule) : FlatRule :=
  {| fr_idx := i; fr_rule_id := fr_rule_id f; fr_action := fr_action f; fr_proto := fr_proto f;
     fr_src_cidrs := fr_src_cidrs f; fr_dst_cidrs := fr_dst_cidrs f;
     fr_port_lo := fr_port_lo f; fr_port_hi := fr_port_hi f |}.

Definition flatten (ir : PolicyIR) : result FlattenError (list FlatRule) :=
  let expanded := flattened_count (pi_blocks ir) in
  if MAX_RULES <? expanded then Err (TooManyRules expanded)
  else
    st ← flatten_blocks {| fs_flat := []; fs_src := ds_default; fs_dst := ds_default |}
           (pi_blocks ir);
    Ok (imap set_idx (fs_flat st)).

(** ** The eBPF backend's view of a flattened policy *)

Inductive Side := Src | Dst.

Definition side_cidrs (f : FlatRule) (side : Side) : list ipv4net :=
  match side with Src => fr_src_cidrs f | Dst => fr_dst_cidrs f end.

Definition accumulate_side (flat : list FlatRule) (side : Side) : DistinctSideCidrs :=
  fold_left (fun acc f => ds_observe acc (side_cidrs f side)) flat ds_default.

Definition distinct_side_cidrs (flat : list FlatRule) (side : Side) : list ipv4net :=
  ds_order (accumulate_side flat side).

Definition check_lpm_capacity (flat : list FlatRule) : result FlattenError unit :=
  _ ← ds_check (accumulate_side flat Src) "src";
  ds_check (accumulate_side flat Dst) "dst".

(** ** The reference: what flattening means, without state or early exits *)

Definition parse_all (raw : list string) : option (list ipv4net) := mapM net_parse raw.

Definition resolve_side (own : list string) (block_side : list ipv4net) : option (list ipv4net) :=
  match own with [] => Some block_side | _ => parse_all own end.

(** A rule with its two effective sides. *)
Definition resolved : Type := IrRule * (list ipv4net * list ipv4net).

Definition resolve_rule (bs bd : list ipv4net) (r : IrRule) : option resolved :=
  s ← resolve_side (ir_src r) bs;
  d ← resolve_side (ir_dst r) bd;
  Some (r, (s, d)).

Definition resolve_block (b : IrBlock) : option (list resolved) :=
  bs ← parse_all (ib_src_cidrs b);
  bd ← parse_all (ib_dst_cidrs b);
  mapM (resolve_rule bs bd) (ib_rules b).

Definition resolve (blocks : list IrBlock) : option (list resolved) :=
  ls ← mapM resolve_block blocks; Some (concat ls).

Definition expand (rs : list resolved) : list FlatRule :=
  concat (map (fun x : resolved => explode x.1 x.2.1 x.2.2) rs).

Definition side_union (proj : resolved -> list ipv4net) (rs : list resolved) : list ipv4net :=
  concat (map proj rs).
Definition src_of (x : resolved) : list ipv4net := x.2.1.
Definition dst_of (x : resolved) : list ipv4net := x.2.2.

(** The number of distinct blocks on a list. *)
Definition distinct (l : list ipv4net) : nat := length (remove_dups l).

(** ** [DistinctSideCidrs] counts distinct blocks *)

Definition ds_ok (d : DistinctSideCidrs) : Prop :=
  NoDup (ds_order d) /\ forall c, c ∈ ds_seen d <-> c ∈ ds_order d.

Lemma ds_default_ok : ds_ok ds_default.
Proof. split; [constructor|done]. Qed.

Lemma ds_observe1_ok d c :
  ds_ok d -> ds_ok (ds_observe1 d c) /\ forall x, x ∈ ds_order (ds_observe1 d c) <-> x ∈ ds_order d \/ x = c.
Proof.
  intros [Hnd Hs]. unfold ds_observe1. case_decide as Hc; simpl.
  - split; [done|]. intros x. split; [auto|]. intros [?| ->]; [done|by apply Hs].
  - split.
    + split; simpl.
      * apply list.NoDup_app. split_and!; [done| |apply NoDup_singleton].
        intros x Hx. rewrite list_elem_of_singleton. intros ->. by apply Hc, Hs.
      * intros x. rewrite elem_of_cons, elem_of_app, list_elem_of_singleton, Hs. tauto.
    + intros x. by rewrite elem_of_app, list_elem_of_singleton.
Qed.

Lemma ds_observe_ok d cs :
  ds_ok d -> ds_ok (ds_observe d cs) /\ forall x, x ∈ ds_order (ds_observe d cs) <-> x ∈ ds_order d \/ x ∈ cs.
Proof.
  unfold ds_observe. revert d. induction cs as [|c cs IH]; intros d Hd; simpl.
  - split; [done|]. intros x. rewrite elem_of_nil. tauto.
  - destruct (ds_observe1_ok d c Hd) as [Hd1 H1]. destruct (IH _ Hd1) as [Hd2 H2].
    split; [done|]. intros x. rewrite H2, H1, elem_of_cons. tauto.
Qed.

(** The accumulator stands for the list [l] of everything observed. *)
Definition ds_stands_for (d : DistinctSideCidrs) (l : list ipv4net) : Prop :=
  ds_ok d /\ forall x, x ∈ ds_order d <-> x ∈ l.

Lemma ds_stands_for_default : ds_stands_for ds_default [].
Proof. split; [apply ds_default_ok|done]. Qed.

Lemma ds_stands_for_observe d l cs :
  ds_stands_for d l -> ds_stands_for (ds_observe d cs) (l ++ cs).
Proof.
  intros [Hd Hl]. destruct (ds_observe_ok d cs Hd) as [Hd' H]. split; [done|].
  intros x. by rewrite H, elem_of_app, Hl.
Qed.

Lemma ds_stands_for_length d l : ds_stands_for d l -> length (ds_order d) = distinct l.
Proof.
  intros [[Hnd _] Hl]. unfold distinct. apply Permutation_length, NoDup_Permutation.
  - done.
  - apply NoDup_remove_dups.
  - intros x. by rewrite Hl, elem_of_remove_dups.
Qed.

Lemma ds_check_ok d l side :
  ds_stands_for d l -> ds_check d side = Ok tt <-> distinct l <= LPM_MAX_ENTRIES.
Proof.
  intros H. unfold ds_check. rewrite (ds_stands_for_length d l H).
  destruct (Nat.ltb_spec LPM_MAX_ENTRIES (distinct l)); split; done || lia.
Qed.

Lemma distinct_incl l1 l2 : (forall x, x ∈ l1 -> x ∈ l2) -> distinct l1 <= distinct l2.
Proof.
  intros H. unfold distinct. apply submseteq_length, NoDup_submseteq.
  - apply NoDup_remove_dups.
  - intros x. rewrite !elem_of_remove_dups. apply H.
Qed.

(** ** [flatten] computes the reference *)

Lemma parse_cidrs_all raw ns : parse_cidrs raw = Ok ns <-> parse_all raw = Some ns.
Proof.
  unfold parse_cidrs, parse_all. rewrite traverse_ok, mapM_Some.
  split; induction 1; constructor; auto.
  - by destruct (net_parse x); simplify_eq.
  - by rewrite H.
Qed.

Lemma rule_side_resolve own bs ns : rule_side own bs = Ok ns <-> resolve_side own bs = Some ns.
Proof.
  unfold rule_side, resolve_side. destruct own; [naive_solver|]. apply parse_cidrs_all.
Qed.

Lemma check_side_ok b r side l : check_side b r side l = Ok tt <-> l <> [].
Proof. unfold check_side. destruct l; split; done. Qed.

Definition sides_nonempty (x : resolved) : Prop := src_of x <> [] /\ dst_of x <> [].

(** What holds of the state after the resolved rules [done]. *)
Definition flatten_inv (done : list resolved) (st : FlattenState) : Prop :=
  fs_flat st = expand done /\
  ds_stands_for (fs_src st) (side_union src_of done) /\
  ds_stands_for (fs_dst st) (side_union dst_of done).

Definition rules_fit (done more : list resolved) : Prop :=
  Forall sides_nonempty more /\
  distinct (side_union src_of (done ++ more)) <= LPM_MAX_ENTRIES /\
  distinct (side_union dst_of (done ++ more)) <= LPM_MAX_ENTRIES.

Lemma side_union_app proj l1 l2 : side_union proj (l1 ++ l2) = side_union proj l1 ++ side_union proj l2.
Proof. unfold side_union. by rewrite map_app, concat_app. Qed.

Lemma side_union_snoc proj l x : side_union proj (l ++ [x]) = side_union proj l ++ proj x.
Proof. rewrite side_union_app. unfold side_union at 2. simpl. by rewrite app_nil_r. Qed.

Lemma expand_app l1 l2 : expand (l1 ++ l2) = expand l1 ++ expand l2.
Proof. unfold expand. by rewrite map_app, concat_app. Qed.

Lemma distinct_app_l l1 l2 : distinct l1 <= distinct (l1 ++ l2).
Proof. apply distinct_incl. intros x ?. apply elem_of_app. by left. Qed.

(** Anything that fits later fits now: the incremental guard never fires early. *)
Lemma rules_fit_prefix done l1 l2 : rules_fit done (l1 ++ l2) -> rules_fit done l1.
Proof.
  intros (H1 & H2 & H3). apply Forall_app in H1 as [H1 _].
  rewrite app_assoc, side_union_app in H2. rewrite app_assoc, side_union_app in H3.
  pose proof (distinct_app_l (side_union src_of (done ++ l1)) (side_union src_of l2)).
  pose proof (distinct_app_l (side_union dst_of (done ++ l1)) (side_union dst_of l2)).
  split_and!; [done|lia..].
Qed.

Lemma flatten_rule_ok b bs bd prev st r st' :
  flatten_inv prev st ->
  flatten_rule b bs bd st r = Ok st' <->
  exists x, resolve_rule bs bd r = Some x /\ rules_fit prev [x] /\
            st' = {| fs_flat := fs_flat st ++ explode x.1 x.2.1 x.2.2;
                     fs_src := ds_observe (fs_src st) (src_of x);
                     fs_dst := ds_observe (fs_dst st) (dst_of x) |}.
Proof.
  intros (Hf & Hs & Hd). unfold flatten_rule, resolve_rule, rules_fit.
  repeat setoid_rewrite bind_ok. setoid_rewrite bind_Some. setoid_rewrite bind_Some.
  setoid_rewrite rule_side_resolve. split.
  - intros (s & Es & d & Ed & [] & Cs%check_side_ok & [] & Cd%check_side_ok & [] & Ks & [] & Kd & [= <-]).
    apply (ds_check_ok _ _ _ (ds_stands_for_observe _ _ s Hs)) in Ks.
    apply (ds_check_ok _ _ _ (ds_stands_for_observe _ _ d Hd)) in Kd.
    exists (r, (s, d)). split_and!; [eauto|repeat constructor; done|..|done];
      by rewrite side_union_snoc.
  - intros (x & (s & Es & d & Ed & [= <-]) & (Hne & Hs' & Hd') & ->).
    inversion_clear Hne as [|? ? [Hns Hnd] _].
    rewrite side_union_snoc in Hs', Hd'.
    exists s. split; [done|]. exists d. split; [done|].
    exists tt. split; [by apply check_side_ok|]. exists tt. split; [by apply check_side_ok|].
    exists tt. split; [by eapply ds_check_ok; [apply ds_stands_for_observe, Hs|]|].
    exists tt. split; [by eapply ds_check_ok; [apply ds_stands_for_observe, Hd|]|done].
Qed.

Lemma flatten_inv_step prev st x :
  flatten_inv prev st ->
  flatten_inv (prev ++ [x])
    {| fs_flat := fs_flat st ++ explode x.1 x.2.1 x.2.2;
       fs_src := ds_observe (fs_src st) (src_of x); fs_dst := ds_observe (fs_dst st) (dst_of x) |}.
Proof.
  intros (Hf & Hs & Hd). split_and!; simpl.
  - rewrite expand_app, Hf. unfold expand at 3. simpl. by rewrite app_nil_r.
  - rewrite side_union_snoc. by apply ds_stands_for_observe.
  - rewrite side_union_snoc. by apply ds_stands_for_observe.
Qed.

Lemma rules_fit_cons prev x l : rules_fit prev (x :: l) <-> rules_fit prev [x] /\ rules_fit (prev ++ [x]) l.
Proof.
  split.
  - intros H. split; [by apply (rules_fit_prefix prev [x] l)|].
    destruct H as (H1 & H2 & H3). inversion_clear H1. unfold rules_fit. by rewrite <- app_assoc.
  - intros [(H1 & _) (H2 & H3 & H4)]. inversion_clear H1. rewrite <- app_assoc in H3, H4.
    split_and!; [by constructor|done..].
Qed.

Lemma flatten_rules_sound b bs bd rules prev st st' :
  flatten_inv prev st -> rules_fit prev [] -> flatten_rules b bs bd st rules = Ok st' ->
  exists xs, mapM (resolve_rule bs bd) rules = Some xs /\ rules_fit prev xs /\
             flatten_inv (prev ++ xs) st'.
Proof.
  revert prev st. induction rules as [|r rules IH]; intros prev st Hinv Hfit; simpl.
  { intros [= <-]. exists []. by rewrite app_nil_r. }
  rewrite bind_ok. intros (st1 & Hr & Hrs).
  apply (flatten_rule_ok b bs bd prev) in Hr as (x & Ex & Hx & ->); [|done].
  apply (IH (prev ++ [x])) in Hrs as (xs & Exs & Hxs & Hinv').
  - exists (x :: xs). rewrite Ex. simpl. rewrite Exs. split_and!; [done| |].
    + by apply rules_fit_cons.
    + by rewrite <- app_assoc in Hinv'.
  - by apply flatten_inv_step.
  - by apply rules_fit_cons in Hx as [_ ?].
Qed.

Lemma flatten_rules_complete b bs bd rules prev st xs :
  flatten_inv prev st -> mapM (resolve_rule bs bd) rules = Some xs -> rules_fit prev xs ->
  exists st', flatten_rules b bs bd st rules = Ok st'.
Proof.
  revert prev st xs. induction rules as [|r rules IH]; intros prev st xs Hinv Exs Hfit; simpl; [eauto|].
  simpl in Exs. apply bind_Some in Exs as (x & Ex & Exs). apply bind_Some in Exs as (xs' & Exs & E).
  injection E as <-. apply rules_fit_cons in Hfit as [Hx Hfit].
  setoid_rewrite bind_ok.
  destruct (IH (prev ++ [x]) _ xs' (flatten_inv_step _ _ x Hinv) Exs Hfit) as [st' Hst'].
  exists st'. eexists. split; [|exact Hst']. eapply flatten_rule_ok; [exact Hinv|]. eauto.
Qed.

Lemma flatten_blocks_sound blocks prev st st' :
  flatten_inv prev st -> rules_fit prev [] -> flatten_blocks st blocks = Ok st' ->
  exists xss, mapM resolve_block blocks = Some xss /\ rules_fit prev (concat xss) /\
              flatten_inv (prev ++ concat xss) st'.
Proof.
  revert prev st. induction blocks as [|b blocks IH]; intros prev st Hinv Hfit; simpl.
  { intros [= <-]. exists []. simpl. by rewrite app_nil_r. }
  repeat setoid_rewrite bind_ok.
  intros (bs & Ebs%parse_cidrs_all & bd & Ebd%parse_cidrs_all & st1 & Hrs & Hbs).
  apply (flatten_rules_sound b bs bd _ prev) in Hrs as (xs & Exs & Hxs & Hinv1); [|done..].
  apply (IH (prev ++ xs)) in Hbs as (xss & Exss & Hxss & Hinv2); [|done|].
  - assert (resolve_block b = Some xs) as Eb
      by (unfold resolve_block; rewrite Ebs; simpl; by rewrite Ebd).
    exists (xs :: xss). simpl. rewrite Eb. simpl. rewrite Exss. split_and!; [done| |by rewrite <- app_assoc in Hinv2].
    simpl. destruct Hxss as (H1 & H2 & H3), Hxs as (H1' & _). rewrite <- app_assoc in H2, H3.
    split_and!; [by apply Forall_app|done..].
  - destruct Hxs as (_ & H2 & H3). unfold rules_fit. rewrite app_nil_r. by repeat split.
Qed.

Lemma flatten_blocks_complete blocks prev st xss :
  flatten_inv prev st -> mapM resolve_block blocks = Some xss -> rules_fit prev (concat xss) ->
  exists st', flatten_blocks st blocks = Ok st'.
Proof.
  revert prev st xss.
  induction blocks as [|b blocks IH]; intros prev st xss Hinv Exss Hfit; simpl; [eauto|].
  simpl in Exss. apply bind_Some in Exss as (xs & Exs & Exss).
  apply bind_Some in Exss as (xss' & Exss & E). injection E as <-. simpl in Hfit.
  pose proof (rules_fit_prefix _ _ _ Hfit) as Hxs.
  unfold resolve_block in Exs. apply bind_Some in Exs as (bs & Ebs & Exs).
  apply bind_Some in Exs as (bd & Ebd & Exs).
  destruct (flatten_rules_complete b bs bd _ _ _ _ Hinv Exs Hxs) as [st1 Hst1].
  assert (rules_fit prev []) as Hnil by (apply (rules_fit_prefix prev [] xs Hxs)).
  destruct (flatten_rules_sound b bs bd _ _ _ _ Hinv Hnil Hst1) as (xs2 & Exs2 & _ & Hinv1).
  rewrite Exs in Exs2. injection Exs2 as <-.
  destruct (IH _ _ _ Hinv1 Exss) as [st' Hst'].
  { destruct Hfit as (H1 & H2 & H3). apply Forall_app in H1 as [_ H1].
    unfold rules_fit. by rewrite <- app_assoc. }
  exists st'. repeat setoid_rewrite bind_ok.
  exists bs. split; [by apply parse_cidrs_all|]. exists bd. split; [by apply parse_cidrs_all|].
  by exists st1.
Qed.

(** The conditions under which a policy flattens, and to what. *)
Definition flattenable (blocks : list IrBlock) (rs : list resolved) : Prop :=
  flattened_count blocks <= MAX_RULES /\ resolve blocks = Some rs /\ Forall sides_nonempty rs /\
  distinct (side_union src_of rs) <= LPM_MAX_ENTRIES /\
  distinct (side_union dst_of rs) <= LPM_MAX_ENTRIES.

Lemma flatten_inv_nil : flatten_inv [] {| fs_flat := []; fs_src := ds_default; fs_dst := ds_default |}.
Proof. split_and!; [done|apply ds_stands_for_default..]. Qed.

Lemma flatten_iff ir flat :
  flatten ir = Ok flat <-> exists rs, flattenable (pi_blocks ir) rs /\ flat = imap set_idx (expand rs).
Proof.
  unfold flatten, flattenable, resolve.
  destruct (Nat.ltb_spec MAX_RULES (flattened_count (pi_blocks ir))) as [Hgt|Hle].
  { split; [done|]. intros (rs & (H & _) & _). lia. }
  setoid_rewrite bind_ok. split.
  - intros (st & Hst & [= <-]).
    apply (flatten_blocks_sound _ []) in Hst as (xss & Exss & (H1 & H2 & H3) & Hf & _ & _).
    + exists (concat xss). rewrite Exss. simpl in *. split_and!; try done. by rewrite Hf.
    + apply flatten_inv_nil.
    + split_and!; [constructor|unfold distinct; simpl; lia..].
  - intros (rs & (_ & Ers & H1 & H2 & H3) & ->). apply bind_Some in Ers as (xss & Exss & [= <-]).
    destruct (flatten_blocks_complete _ [] _ _ flatten_inv_nil Exss) as [st Hst]; [by split_and!|].
    exists st. split; [done|].
    apply (flatten_blocks_sound _ []) in Hst as (xss' & Exss' & _ & Hf & _ & _).
    + rewrite Exss in Exss'. injection Exss' as <-. simpl in Hf. by rewrite Hf.
    + apply flatten_inv_nil.
    + split_and!; [constructor|unfold distinct; simpl; lia..].
Qed.

(** *** Size and capacity of the result *)

Lemma length_explode r src dst : length (explode r src dst) = rule_width r.
Proof. unfold explode, rule_width. rewrite length_map. destruct (ir_ports r); simpl; lia. Qed.

Lemma resolve_block_rules b xs : resolve_block b = Some xs -> map fst xs = ib_rules b.
Proof.
  unfold resolve_block. intros E. apply bind_Some in E as (bs & _ & E).
  apply bind_Some in E as (bd & _ & E). apply mapM_Some in E.
  induction E as [|r x rs xs Hr _ IH]; [done|]. simpl. rewrite IH. f_equal.
  unfold resolve_rule in Hr. apply bind_Some in Hr as (s & _ & Hr).
  apply bind_Some in Hr as (d & _ & Hr). by simplify_eq.
Qed.

Lemma resolve_rules blocks rs : resolve blocks = Some rs -> map fst rs = concat (map ib_rules blocks).
Proof.
  unfold resolve. intros E. apply bind_Some in E as (xss & E & [= <-]).
  apply mapM_Some in E. induction E as [|b xs bs xss Hb _ IH]; simpl; [done|].
  etrans; [apply map_app|]. f_equal; [by apply resolve_block_rules|exact IH].
Qed.

Lemma length_expand rs : length (expand rs) = sum_list_with rule_width (map fst rs).
Proof.
  unfold expand. induction rs as [|x rs IH]; simpl; [done|].
  by rewrite length_app, length_explode, IH.
Qed.

Lemma length_flatten ir flat : flatten ir = Ok flat -> length flat = flattened_count (pi_blocks ir).
Proof.
  rewrite flatten_iff. intros (rs & (_ & Ers & _) & ->).
  rewrite length_imap, length_expand, (resolve_rules _ _ Ers). done.
Qed.

Lemma accumulate_side_stands flat side :
  ds_stands_for (accumulate_side flat side) (concat (map (fun f => side_cidrs f side) flat)).
Proof.
  unfold accumulate_side.
  assert (forall l d acc, ds_stands_for d acc ->
    ds_stands_for (fold_left (fun acc f => ds_observe acc (side_cidrs f side)) l d)
      (acc ++ concat (map (fun f => side_cidrs f side) l))) as H.
  { induction l as [|f l IH]; intros d acc Hd; simpl; [by rewrite app_nil_r|].
    rewrite app_assoc. by apply IH, ds_stands_for_observe. }
  apply (H flat ds_default [] ds_stands_for_default).
Qed.

Lemma elem_of_flat_side flat side c :
  c ∈ concat (map (fun f => side_cidrs f side) flat) <-> exists f, f ∈ flat /\ c ∈ side_cidrs f side.
Proof.
  rewrite list_elem_of_In, in_concat. setoid_rewrite in_map_iff.
  setoid_rewrite list_elem_of_In. naive_solver.
Qed.

Lemma elem_of_expand rs f :
  f ∈ imap set_idx (expand rs) -> exists x, x ∈ rs /\ fr_src_cidrs f = src_of x /\ fr_dst_cidrs f = dst_of x
    /\ fr_rule_id f = ir_rule_id x.1 /\ fr_action f = ir_action x.1 /\ fr_proto f = ir_proto x.1.
Proof.
  intros H. apply elem_of_lookup_imap in H as (i & f0 & -> & Hf).
  apply list_elem_of_lookup_2, list_elem_of_In, in_concat in Hf as (l & Hl & Hf).
  apply in_map_iff in Hl as (x & <- & Hx). apply in_map_iff in Hf as (p & <- & _).
  exists x. split; [by apply list_elem_of_In|done].
Qed.

Lemma flat_capacity rs :
  distinct (side_union src_of rs) <= LPM_MAX_ENTRIES ->
  distinct (side_union dst_of rs) <= LPM_MAX_ENTRIES ->
  check_lpm_capacity (imap set_idx (expand rs)) = Ok tt.
Proof.
  intros Hs Hd. unfold check_lpm_capacity. rewrite bind_ok.
  assert (forall proj x c, x ∈ rs -> c ∈ proj x -> c ∈ side_union proj rs) as Hu.
  { intros proj x c Hx Hc. unfold side_union. rewrite list_elem_of_In, in_concat.
    exists (proj x). rewrite in_map_iff, <- list_elem_of_In. split; [|done].
    exists x. by rewrite <- list_elem_of_In. }
  exists tt. split; (eapply ds_check_ok; [apply accumulate_side_stands|]);
    [etrans; [apply distinct_incl|exact Hs]|etrans; [apply distinct_incl|exact Hd]];
    intros c (f & Hf & Hc)%elem_of_flat_side;
    apply elem_of_expand in Hf as (x & Hx & Es & Ed & _); simpl in Hc;
    rewrite ?Es, ?Ed in Hc; by apply (Hu _ x).
Qed.
End flatten.

Section compiled.
Context {N : Ipv4NetApi} {NL : Ipv4NetLaws N} (sha256 : string -> string).

Lemma parse_all_show ns : parse_all (map net_show ns) = Some ns.
Proof.
  unfold parse_all. apply mapM_Some. induction ns; simpl; constructor; auto using net_parse_show.
Qed.

Lemma distinct_count_show (ns : list ipv4net) : distinct_count (map net_show ns) = distinct ns.
Proof.
  unfold distinct_count, distinct.
  assert (list_to_set (map net_show ns) =@{gset string} list_to_set (map net_show (remove_dups ns)))
    as ->.
  { apply set_eq. intros s. rewrite !elem_of_list_to_set, !list_elem_of_In, !in_map_iff.
    split; intros (n & E & Hn); exists n; (split; [done|]);
      by apply list_elem_of_In, elem_of_remove_dups, list_elem_of_In. }
  rewrite size_list_to_set; [by rewrite length_map|].
  apply (NoDup_fmap_2 net_show). apply NoDup_remove_dups.
Qed.

Lemma sorted_strings_shown (cidrs : list ipv4net) :
  exists ns, sorted_cidr_strings cidrs = map net_show ns /\ forall n, n ∈ ns <-> n ∈ cidrs.
Proof.
  exists (merge_sort net_le cidrs). split; [done|]. intros n.
  by rewrite (merge_sort_Permutation net_le cidrs).
Qed.

Lemma meaning_shown raws shown :
  Forall2 cidr_meaning raws shown ->
  exists ns, shown = map net_show ns /\ Forall2 (fun s n => net_parse s = Some n) raws ns.
Proof.
  induction 1 as [|raw s raws shown (n & Hn & ->) _ (ns & -> & IH)].
  - exists []. by repeat constructor.
  - exists (n :: ns). split; [done|by constructor].
Qed.

End compiled.
