(* ===== verification/PolicySem.v ===== *)
(** * The meaning of a policy document, and its preservation by compilation
    and flattening

    [dsl_verdict] is the specification: blocks and rules are read in source
    order, the first rule that covers the packet decides, and nothing else is
    allowed.  [flat_verdict] is the same first-match reading of the flattened
    list that both enforcement backends are given. *)
From S2P Require Export EnfFlatten.
From stdpp Require Import sorting.
From Stdlib Require Import ZArith Lia.
Local Open Scope Z_scope.

(** A packet as the policy sees it: addresses and port in host order. *)
Record Packet := { pk_src : Z; pk_dst : Z; pk_proto : Z; pk_dport : Z }.

(** The first element that matches decides; the default is to deny. *)
Definition first_match {A : Type} (act : A -> IrAction) (m : A -> bool) (l : list A) : IrAction :=
  match List.find m l with Some a => act a | None => Deny end.

Section semantics.
Context {N : Ipv4NetApi}.

Definition net_hasb (x : Z) (n : ipv4net) : bool := bool_decide (net_has n x).

(** ** The document *)

Definition dsl_side (seg : option SegmentDef) (raws : list string) (x : Z) : bool :=
  match raws with
  | [] => match seg with Some s => existsb (net_hasb x) (seg_cidrs s) | None => false end
  | _ => existsb (fun raw => match net_parse raw with Some n => net_hasb x n | None => false end) raws
  end.

Definition dsl_proto (proto : option string) (p : Z) : bool :=
  match proto with
  | None => (p =? 6) || (p =? 17) || (p =? 1)
  | Some s => (String.eqb s "tcp" && (p =? 6)) || (String.eqb s "udp" && (p =? 17))
              || (String.eqb s "icmp" && (p =? 1))
  end.

Definition dsl_port (dport : Z) (spec : PortSpec) : bool :=
  match spec with
  | Single n => n =? dport
  | Range s =>
      match parse_range s with
      | Some (lo, hi) => (lo <=? dport) && (dport <=? hi)
      | None => false
      end
  end.

Definition dsl_ports (ports : list PortSpec) (dport : Z) : bool :=
  match ports with [] => true | _ => existsb (dsl_port dport) ports end.

Definition dsl_body (rule : RuleSrc) : option RuleBody :=
  match rs_allow rule with Some body => Some body | None => rs_deny rule end.

Definition dsl_action (rule : RuleSrc) : IrAction :=
  match rs_allow rule with Some _ => Allow | None => Deny end.

Definition dsl_matches (segments : list SegmentDef) (pkt : Packet) (br : BlockSrc * RuleSrc) : bool :=
  match dsl_body br.2 with
  | Some body =>
      dsl_side (find_seg segments (bs_from br.1)) (rb_src body) (pk_src pkt)
      && dsl_side (find_seg segments (bs_to br.1)) (rb_dst body) (pk_dst pkt)
      && dsl_proto (rb_proto body) (pk_proto pkt)
      && dsl_ports (rb_ports body) (pk_dport pkt)
  | None => false
  end.

Definition doc_rules (blocks : list BlockSrc) : list (BlockSrc * RuleSrc) :=
  concat (map (fun b => map (pair b) (bs_rules b)) blocks).

Definition dsl_verdict (segments : list SegmentDef) (doc : PolicyDoc) (pkt : Packet) : IrAction :=
  first_match (fun br => dsl_action br.2) (dsl_matches segments pkt) (doc_rules (pd_policy doc)).

(** ** The flattened list *)

Definition proto_matches (m : IrProto) (p : Z) : bool :=
  match m with
  | Tcp => p =? 6 | Udp => p =? 17 | Icmp => p =? 1
  | AnyProto => (p =? 1) || (p =? 6) || (p =? 17)
  end.

Definition port_in (dport : Z) (range : Z * Z) : bool :=
  (range.2 =? 0) || ((range.1 <=? dport) && (dport <=? range.2)).

Definition flat_matches (pkt : Packet) (f : FlatRule) : bool :=
  existsb (net_hasb (pk_src pkt)) (fr_src_cidrs f)
  && existsb (net_hasb (pk_dst pkt)) (fr_dst_cidrs f)
  && proto_matches (fr_proto f) (pk_proto pkt)
  && port_in (pk_dport pkt) (fr_port_lo f, fr_port_hi f).

Definition flat_verdict (flat : list FlatRule) (pkt : Packet) : IrAction :=
  first_match fr_action (flat_matches pkt) flat.

(** The intermediate form: a rule with its resolved sides. *)
Definition resolved_matches (pkt : Packet) (x : resolved) : bool :=
  existsb (net_hasb (pk_src pkt)) (src_of x)
  && existsb (net_hasb (pk_dst pkt)) (dst_of x)
  && proto_matches (ir_proto x.1) (pk_proto pkt)
  && match ir_ports x.1 with [] => true | ps => existsb (port_in (pk_dport pkt)) ps end.

(** ** Exploding ports preserves the first match *)

Lemma first_match_app {A : Type} (act : A -> IrAction) m l1 l2 :
  first_match act m (l1 ++ l2) =
  if existsb m l1 then first_match act m l1 else first_match act m l2.
Proof.
  unfold first_match. rewrite find_app. induction l1 as [|a l1 IH]; simpl; [done|].
  by destruct (m a).
Qed.

Lemma first_match_ext {A B : Type} actA mA actB mB (la : list A) (lb : list B) :
  Forall2 (fun a b => mA a = mB b /\ actA a = actB b) la lb ->
  first_match actA mA la = first_match actB mB lb.
Proof.
  unfold first_match. induction 1 as [|a b la lb [Hm Ha] _ IH]; simpl; [done|].
  rewrite Hm. by destruct (mB b).
Qed.

Lemma existsb_andb {A : Type} (c : bool) (p : A -> bool) l :
  existsb (fun a => c && p a) l = c && existsb p l.
Proof. destruct c; simpl; [done|]. by induction l. Qed.

Lemma explode_matches pkt x :
  existsb (flat_matches pkt) (explode x.1 x.2.1 x.2.2) = resolved_matches pkt x.
Proof.
  unfold explode, resolved_matches.
  assert (forall ps, existsb (flat_matches pkt) (map (flat_rule x.1 x.2.1 x.2.2) ps) =
    existsb (net_hasb (pk_src pkt)) (src_of x) && existsb (net_hasb (pk_dst pkt)) (dst_of x)
    && proto_matches (ir_proto x.1) (pk_proto pkt) && existsb (port_in (pk_dport pkt)) ps) as ->.
  { intros ps. rewrite <- existsb_andb. induction ps as [|[lo hi] ps IH]; simpl; [done|]. by rewrite IH. }
  by destruct (ir_ports x.1).
Qed.

Lemma explode_action pkt x :
  existsb (flat_matches pkt) (explode x.1 x.2.1 x.2.2) = true ->
  first_match fr_action (flat_matches pkt) (explode x.1 x.2.1 x.2.2) = ir_action x.1.
Proof.
  unfold explode, first_match. generalize (match ir_ports x.1 with [] => [(0, 0)] | p :: l => p :: l end).
  intros ps. induction ps as [|p ps IH]; simpl; [done|].
  by destruct (flat_matches pkt (flat_rule x.1 x.2.1 x.2.2 p)).
Qed.

Lemma expand_verdict pkt rs :
  first_match fr_action (flat_matches pkt) (expand rs) =
  first_match (fun x : resolved => ir_action x.1) (resolved_matches pkt) rs.
Proof.
  unfold expand. induction rs as [|x rs IH]; [done|]. simpl.
  rewrite first_match_app, explode_matches. unfold first_match at 3. simpl.
  destruct (resolved_matches pkt x) eqn:E; [|exact IH].
  apply explode_action. by rewrite explode_matches.
Qed.

Lemma imap_set_idx_verdict pkt flat k :
  first_match fr_action (flat_matches pkt) (imap (fun i => set_idx (k + i)) flat) =
  first_match fr_action (flat_matches pkt) flat.
Proof.
  unfold first_match. revert k. induction flat as [|f flat IH]; intros k; simpl; [done|].
  change (flat_matches pkt (set_idx (k + 0) f)) with (flat_matches pkt f).
  destruct (flat_matches pkt f); [done|].
  rewrite <- (IH (S k)).
  rewrite (imap_ext _ (fun i => set_idx (S k + i))); [done|].
  intros i g _. unfold compose. f_equal. lia.
Qed.

Lemma flatten_verdict pkt ir flat rs :
  flattenable (pi_blocks ir) rs -> flat = imap set_idx (expand rs) ->
  flat_verdict flat pkt = first_match (fun x : resolved => ir_action x.1) (resolved_matches pkt) rs.
Proof.
  intros _ ->. unfold flat_verdict. rewrite <- expand_verdict. apply (imap_set_idx_verdict pkt _ 0).
Qed.
End semantics.

(** ** Compilation preserves the verdict *)

Section preserved.
Context {N : Ipv4NetApi} {NL : Ipv4NetLaws N} (sha256 : string -> string).

(** What resolving a compiled rule yields. *)
Definition resolved_as (segments : list SegmentDef) (b : IrBlock) (br : BlockSrc * RuleSrc)
    (x : resolved) : Prop :=
  (forall pkt, dsl_matches segments pkt br = resolved_matches pkt x) /\
  dsl_action br.2 = ir_action x.1 /\ sides_nonempty x /\
  map net_show (src_of x) = rule_src b x.1 /\ map net_show (dst_of x) = rule_dst b x.1.

Lemma existsb_ext_elem {A B : Type} (p : A -> bool) (q : B -> bool) la lb :
  (forall c, (exists a, a ∈ la /\ p a = c) <-> (exists b, b ∈ lb /\ q b = c)) ->
  existsb p la = existsb q lb.
Proof. intros H. apply eq_true_iff_eq. rewrite !existsb_iff. apply H. Qed.

(** One side: the document's reading agrees with the resolved list. *)
Lemma dsl_side_resolved seg s cs (raws : list string) shown nsf x :
  seg = Some s -> sorted_cidr_strings (seg_cidrs s) = cs -> cs <> [] ->
  parse_all cs = Some nsf -> Forall2 cidr_meaning raws shown ->
  exists ns, resolve_side shown nsf = Some ns /\ ns <> [] /\
    map net_show ns = effective_side shown cs /\
    dsl_side seg raws x = existsb (net_hasb x) ns.
Proof.
  intros -> Ecs Hne Hparse Hm. destruct (sorted_strings_shown (seg_cidrs s)) as (ns0 & E0 & Hin).
  rewrite Ecs in E0. subst cs. rewrite E0, parse_all_show in Hparse. injection Hparse as <-.
  rewrite E0. destruct raws as [|raw raws].
  - inversion_clear Hm. exists ns0. simpl. split_and!; [done| |done|].
    + intros ->. done.
    + apply existsb_ext_elem. setoid_rewrite Hin. done.
  - destruct (meaning_shown _ _ Hm) as (ns & -> & Hns). exists ns.
    destruct ns as [|n ns]; [inversion Hns|].
    cbn [resolve_side effective_side map]. split_and!; [|done|done|].
    + apply (parse_all_show (n :: ns)).
    + unfold dsl_side. clear -Hns. induction Hns as [|r m rs ms Hr _ IH]; [done|].
      cbn [existsb]. by rewrite Hr, IH.
Qed.

Lemma dsl_proto_matches proto p n : proto_meaning proto p -> dsl_proto proto n = proto_matches p n.
Proof.
  unfold proto_meaning, dsl_proto. destruct proto as [s|].
  - intros H. assert ((s, p) = ("tcp", Tcp) \/ (s, p) = ("udp", Udp) \/ (s, p) = ("icmp", Icmp)) as Hc
      by set_solver.
    destruct Hc as [[= -> ->]|[[= -> ->]|[= -> ->]]]; simpl; by rewrite ?orb_false_r.
  - intros ->. simpl. by destruct (n =? 6), (n =? 17), (n =? 1).
Qed.

Lemma dsl_ports_matches specs ranges d :
  Forall2 port_meaning specs ranges -> Forall port_range_ok ranges ->
  dsl_ports specs d = match ranges with [] => true | ps => existsb (port_in d) ps end.
Proof.
  intros Hm Hr.
  assert (existsb (dsl_port d) specs = existsb (port_in d) ranges) as E.
  { induction Hm as [|spec range specs ranges Hs _ IH]; [done|]. inversion_clear Hr.
    simpl. rewrite IH by done. f_equal. destruct range as [lo hi].
    destruct spec as [n|s]; simpl in *; unfold port_range_ok, port_in in *; simpl in *.
    - injection Hs as -> ->. apply eq_true_iff_eq.
      rewrite orb_true_iff, andb_true_iff, !Z.eqb_eq, !Z.leb_le. lia.
    - rewrite Hs. apply eq_true_iff_eq.
      rewrite orb_true_iff, !andb_true_iff, Z.eqb_eq, !Z.leb_le. lia. }
  destruct Hm; [done|]. exact E.
Qed.

Lemma rule_resolved segments f t block b nsf nst rule r :
  find_seg segments (bs_from block) = Some f -> find_seg segments (bs_to block) = Some t ->
  sorted_cidr_strings (seg_cidrs f) = ib_src_cidrs b ->
  sorted_cidr_strings (seg_cidrs t) = ib_dst_cidrs b ->
  ib_src_cidrs b <> [] -> ib_dst_cidrs b <> [] ->
  parse_all (ib_src_cidrs b) = Some nsf -> parse_all (ib_dst_cidrs b) = Some nst ->
  rule_meaning sha256 (bs_from block) (bs_to block) rule r -> ir_rule_ports_ok r ->
  exists x, resolve_rule nsf nst r = Some x /\ resolved_as segments b (block, rule) x.
Proof.
  intros Ef Et Es Ed Hs Hd Ps Pd [_ Hm] [Hports _].
  assert (exists body, dsl_body rule = Some body /\ dsl_action rule = ir_action r /\ body_meaning body r)
    as (body & Eb & Ea & Hproto & Hsrc & Hdst & Hp).
  { unfold dsl_body, dsl_action. destruct (rs_allow rule), (rs_deny rule); naive_solver. }
  destruct (dsl_side_resolved _ _ _ _ _ _ 0 Ef Es Hs Ps Hsrc) as (ns & Ens & Hns & Ens' & _).
  destruct (dsl_side_resolved _ _ _ _ _ _ 0 Et Ed Hd Pd Hdst) as (nd & End & Hnd & End' & _).
  exists (r, (ns, nd)). unfold resolve_rule. rewrite Ens. simpl. rewrite End. split; [done|].
  split_and!; try done. intros pkt. unfold dsl_matches, resolved_matches. simpl. rewrite Eb.
  destruct (dsl_side_resolved _ _ _ _ _ _ (pk_src pkt) Ef Es Hs Ps Hsrc) as (ns' & E1 & _ & _ & ->).
  destruct (dsl_side_resolved _ _ _ _ _ _ (pk_dst pkt) Et Ed Hd Pd Hdst) as (nd' & E2 & _ & _ & ->).
  rewrite Ens in E1. rewrite End in E2. simplify_eq. unfold src_of, dst_of. simpl.
  rewrite (dsl_proto_matches _ (ir_proto r)), (dsl_ports_matches _ (ir_ports r)) by done.
  by destruct (ir_ports r).
Qed.

Lemma block_resolved segments block b :
  block_meaning sha256 segments block b -> ir_block_ok b ->
  exists xs, resolve_block b = Some xs /\
    Forall2 (resolved_as segments b) (map (pair block) (bs_rules block)) xs.
Proof.
  intros (f & t & Ef & Et & _ & _ & Es & Ed & Hrules) (Hs & Hd & Hports).
  destruct (sorted_strings_shown (seg_cidrs f)) as (nsf & Ensf & _).
  destruct (sorted_strings_shown (seg_cidrs t)) as (nst & Enst & _).
  assert (parse_all (ib_src_cidrs b) = Some nsf) as Ps by (rewrite Es, Ensf; apply parse_all_show).
  assert (parse_all (ib_dst_cidrs b) = Some nst) as Pd by (rewrite Ed, Enst; apply parse_all_show).
  unfold resolve_block. rewrite Ps. simpl. rewrite Pd. simpl.
  setoid_rewrite mapM_Some. revert Hports.
  induction Hrules as [|rule r rules rs Hr _ IH]; intros Hports.
  - exists []. by repeat constructor.
  - inversion_clear Hports as [|? ? Hr' Hports'].
    destruct (rule_resolved segments f t block b nsf nst rule r) as (x & Ex & Hx); try done.
    destruct (IH Hports') as (xs & Exs & Hxs).
    exists (x :: xs). split; by constructor.
Qed.

Lemma blocks_resolved segments blocks irs :
  Forall2 (block_meaning sha256 segments) blocks irs -> Forall ir_block_ok irs ->
  exists rs, resolve irs = Some rs /\ Forall sides_nonempty rs /\
    Forall2 (fun br x => (forall pkt, dsl_matches segments pkt br = resolved_matches pkt x) /\
                         dsl_action br.2 = ir_action x.1) (doc_rules blocks) rs /\
    map net_show (side_union src_of rs) = side_strings rule_src irs /\
    map net_show (side_union dst_of rs) = side_strings rule_dst irs.
Proof.
  intros Hm Hok. unfold resolve.
  assert (exists xss, mapM resolve_block irs = Some xss /\ Forall sides_nonempty (concat xss) /\
    Forall2 (fun br x => (forall pkt, dsl_matches segments pkt br = resolved_matches pkt x) /\
                         dsl_action br.2 = ir_action x.1) (doc_rules blocks) (concat xss) /\
    map net_show (side_union src_of (concat xss)) = side_strings rule_src irs /\
    map net_show (side_union dst_of (concat xss)) = side_strings rule_dst irs)
    as (xss & -> & H); [|by exists (concat xss)].
  setoid_rewrite mapM_Some. induction Hm as [|block b blocks irs Hb _ IH].
  { exists []. by repeat constructor. }
  inversion_clear Hok as [|? ? Hob Hobs].
  destruct (block_resolved segments block b Hb Hob) as (xs & Exs & Hxs).
  destruct (IH Hobs) as (xss & E & Hne & Hr & Hsrc & Hdst).
  assert (map fst xs = ib_rules b) as Hfst by (by apply resolve_block_rules).
  assert (forall (proj : resolved -> list ipv4net) side,
            (forall br x, resolved_as segments b br x -> map net_show (proj x) = side b x.1) ->
            map net_show (side_union proj xs) = concat (map (side b) (ib_rules b))) as Hside.
  { intros proj side Hp. rewrite <- Hfst. clear -Hxs Hp. unfold side_union.
    induction Hxs as [|br x brs xs Hx _ IH]; simpl; [done|].
    rewrite map_app, (Hp br x Hx), IH. done. }
  exists (xs :: xss). simpl. split_and!.
  - by constructor.
  - apply Forall_app. split; [|done]. clear -Hxs. induction Hxs as [|? ? ? ? Hx]; constructor; auto.
    by destruct Hx as (_ & _ & ? & _).
  - apply Forall2_app; [|done]. eapply Forall2_impl; [exact Hxs|]. intros br x (? & ? & _). auto.
  - rewrite side_union_app, map_app, Hsrc, (Hside src_of rule_src); [done|].
    intros br x Hx. by destruct Hx as (_ & _ & _ & ? & _).
  - rewrite side_union_app, map_app, Hdst, (Hside dst_of rule_dst); [done|].
    intros br x Hx. by destruct Hx as (_ & _ & _ & _ & ?).
Qed.

(** A compiled policy flattens, and the result has the document's verdicts. *)
Lemma compiled_flattens segments doc version ir :
  doc_ok segments doc -> compile sha256 doc segments version = Ok (Ok ir) ->
  exists flat, flatten ir = Ok flat /\ check_lpm_capacity flat = Ok tt /\
    forall pkt, flat_verdict flat pkt = dsl_verdict segments doc pkt.
Proof.
  intros Hdoc Hc.
  destruct (compile_inv sha256 doc segments version ir Hdoc Hc) as (_ & _ & (L1 & L2 & L3) & Hm & Hok).
  destruct (blocks_resolved segments _ _ Hm Hok) as (rs & Ers & Hne & Hr & Hsrc & Hdst).
  rewrite <- Hsrc, distinct_count_show in L2. rewrite <- Hdst, distinct_count_show in L3.
  assert (flattenable (pi_blocks ir) rs) as Hfl by (by split_and!).
  exists (imap set_idx (expand rs)). split_and!.
  - apply flatten_iff. eauto.
  - by apply flat_capacity.
  - intros pkt. rewrite (flatten_verdict pkt ir _ rs Hfl eq_refl). symmetry.
    apply first_match_ext. eapply Forall2_impl; [exact Hr|]. naive_solver.
Qed.

(** ** Properties *)

(** Whatever the controller compiles, the gateway loads: an accepted document that
    compiles also flattens, passes the per-side capacity check of the eBPF loader, and
    gives at most 256 flat rules, numbered in order. *)
Theorem compiled_policy_loads from_str yaml segments doc version ir :
  parse_policy from_str yaml segments = Ok doc ->
  compile sha256 doc segments version = Ok (Ok ir) ->
  exists flat, flatten ir = Ok flat /\ check_lpm_capacity flat = Ok tt /\
    (length flat <= MAX_RULES)%nat /\ forall i f, flat !! i = Some f -> fr_idx f = i.
Proof.
  intros [_ Hdoc]%parse_policy_inv Hc.
  destruct (compiled_flattens segments doc version ir Hdoc Hc) as (flat & Hf & Hcap & _).
  exists flat. split_and!; [done..| |].
  - rewrite (length_flatten ir flat Hf).
    by destruct (compile_inv sha256 doc segments version ir Hdoc Hc) as (_ & _ & (? & _) & _).
  - apply flatten_iff in Hf as (rs & _ & ->). intros i f Hi.
    apply imap_lookup_map in Hi as (f0 & _ & ->). done.
Qed.

(** C4: Compilation and flattening preserve the meaning of the policy: for every packet,
    the first match in the flattened list, with its resolved segments, normalised CIDRs
    and exploded ports, gives the verdict that reading the document's blocks and rules in
    order gives. *)
Theorem compiled_policy_keeps_verdicts from_str yaml segments doc version ir flat pkt :
  parse_policy from_str yaml segments = Ok doc ->
  compile sha256 doc segments version = Ok (Ok ir) -> flatten ir = Ok flat ->
  flat_verdict flat pkt = dsl_verdict segments doc pkt.
Proof.
  intros [_ Hdoc]%parse_policy_inv Hc Hf.
  destruct (compiled_flattens segments doc version ir Hdoc Hc) as (flat' & Hf' & _ & Hv).
  rewrite Hf in Hf'. injection Hf' as <-. apply Hv.
Qed.

(** C23: [flatten] succeeds exactly when the IR's rule count is within 256, every CIDR
    parses, no effective side is empty and each side has at most 1024 distinct CIDRs over
    the whole policy; its result is then the rules in source order with empty sides
    replaced by their block's and one entry per port range.  The incremental capacity
    guard never refuses a policy the final counts would admit. *)
Theorem flatten_spec ir flat :
  flatten ir = Ok flat <->
  exists rs, (flattened_count (pi_blocks ir) <= MAX_RULES)%nat /\ resolve (pi_blocks ir) = Some rs /\
    (forall x, x ∈ rs -> src_of x <> [] /\ dst_of x <> []) /\
    (distinct (side_union src_of rs) <= LPM_MAX_ENTRIES)%nat /\
    (distinct (side_union dst_of rs) <= LPM_MAX_ENTRIES)%nat /\
    flat = imap set_idx (expand rs).
Proof.
  rewrite flatten_iff. unfold flattenable, sides_nonempty. setoid_rewrite list.Forall_forall.
  split; intros (rs & H); exists rs; tauto.
Qed.
End preserved.

(** ** Concrete runs *)

Definition test_ir : PolicyIR :=
  match compile (N := SimpleNet) (fun s => s) (test_doc [test_rule_ok; test_rule_deny]) test_segments 7 with
  | Ok (Ok ir) => ir
  | _ => {| pi_schema := 0; pi_version := 0; pi_blocks := [] |}
  end.

Definition test_flat : list (@FlatRule SimpleNet) :=
  ok_or [] (flatten test_ir).

(** 10.1.2.3 to 10.3.0.7, tcp port 8001. *)
Definition test_packet : Packet :=
  {| pk_src := 167838211; pk_dst := 167968775; pk_proto := 6; pk_dport := 8001 |}.

Lemma compiled_policy_loads_witness :
  exists flat, flatten (N := SimpleNet) test_ir = Ok flat /\ check_lpm_capacity flat = Ok tt.
Proof.
  destruct (compiled_policy_loads (N := SimpleNet) (fun s => s)
    (fun _ => Ok (test_doc [test_rule_ok; test_rule_deny])) "" test_segments
    (test_doc [test_rule_ok; test_rule_deny]) 7 test_ir
    ltac:(vm_compute; reflexivity) ltac:(vm_compute; reflexivity)) as (flat & H1 & H2 & _).
  exists flat. exact (conj H1 H2).
Defined.

Lemma compiled_policy_keeps_verdicts_witness :
  flat_verdict test_flat test_packet =
    dsl_verdict test_segments (test_doc [test_rule_ok; test_rule_deny]) test_packet /\
  flat_verdict test_flat test_packet = Allow.
Proof.
  split; [|vm_compute; reflexivity].
  refine (compiled_policy_keeps_verdicts (N := SimpleNet) (fun s => s)
    (fun _ => Ok (test_doc [test_rule_ok; test_rule_deny])) "" test_segments
    (test_doc [test_rule_ok; test_rule_deny]) 7 test_ir test_flat test_packet _ _ _).
  - vm_compute. reflexivity.
  - vm_compute. reflexivity.
  - apply ok_or_ok. vm_compute. reflexivity.
Defined.
