(* ===== verification/EnfCommon.v ===== *)
(** * [wiremesh-enforcer-common]: the types and constants the kernel program and
    its loader share ([wiremesh-enforcer-ebpf/common/src/lib.rs]), and the byte
    order of the integers they exchange.

    Map values are kept as the kernel program loads them: a [u32] or [u16] read
    from a packet on a little-endian host, so [bswap32]/[bswap16] are
    [to_be]/[from_be]. *)
From S2P Require Export Prelude.
From Stdlib Require Import ZArith Lia.
Local Open Scope Z_scope.

Definition MAX_RULES : Z := 256.
Definition BITSET_WORDS : Z := 4.
Definition LPM_MAX_ENTRIES : nat := 1024.
Definition CTR_DEFAULT_DENY : Z := MAX_RULES.
Definition CTR_FLOW_HIT : Z := MAX_RULES + 1.
Definition COUNTERS_LEN : nat := 258.
Definition ACT_DENY : Z := 0.
Definition ACT_ALLOW : Z := 1.

Record RuleMeta := { rm_action : Z; rm_proto : Z; rm_port_lo : Z; rm_port_hi : Z }.

(** [[u64; BITSET_WORDS]]. *)
Notation RuleBits := (list Z).
Definition zero_bits : RuleBits := [0; 0; 0; 0].

Definition bit_get (bits : RuleBits) (idx : Z) : bool :=
  let w := idx / 64 in
  if BITSET_WORDS <=? w then false
  else negb (Z.land (Z.shiftr (nth (Z.to_nat w) bits 0) (idx mod 64)) 1 =? 0).

Definition bit_set (bits : RuleBits) (idx : Z) : RuleBits :=
  let w := idx / 64 in
  if w <? BITSET_WORDS then
    <[Z.to_nat w := Z.lor (nth (Z.to_nat w) bits 0) (Z.shiftl 1 (idx mod 64))]> bits
  else bits.

Record FlowKey := { fk_src : Z; fk_dst : Z; fk_sport : Z; fk_dport : Z; fk_proto : Z }.
Record FlowVal := { last_seen_ns : Z }.
Record RateVal := { window_start_ns : Z; rv_count : Z }.
Record DenyEventRaw := { de_src : Z; de_dst : Z; de_proto : Z; de_dport : Z; de_rule_idx : Z }.

#[export] Instance FlowKey_eq_dec : EqDecision FlowKey.
Proof. solve_decision. Defined.
#[export] Instance FlowKey_countable : Countable FlowKey.
Proof.
  refine (inj_countable'
    (fun k => (fk_src k, fk_dst k, fk_sport k, fk_dport k, fk_proto k))
    (fun '(a, b, c, d, e) => Build_FlowKey a b c d e) _).
  by intros [].
Defined.

Definition CFG_TCP_NS : nat := 0.
Definition CFG_UDP_NS : nat := 1.
Definition CFG_ICMP_NS : nat := 2.
Definition CFG_RATE_CAP : nat := 3.
Definition CFG_LOG_PER_RULE : nat := 4.
Definition CFG_LOG_AGGREGATE : nat := 5.
Definition CONFIG_LEN : nat := 6.
Definition DEFAULT_TCP_NS : Z := 7200 * 1000000000.
Definition DEFAULT_UDP_NS : Z := 60 * 1000000000.
Definition DEFAULT_ICMP_NS : Z := 30 * 1000000000.
Definition DEFAULT_RATE_CAP : Z := 256.
Definition DEFAULT_LOG_PER_RULE : Z := 10.
Definition DEFAULT_LOG_AGGREGATE : Z := 100.
Definition RATE_WINDOW_NS : Z := 1000000000.

(** ** Byte order *)

Definition bswap16 (x : Z) : Z := (x mod 256) * 256 + (x / 256) mod 256.

Definition bswap32 (x : Z) : Z :=
  (((x mod 256) * 256 + (x / 256) mod 256) * 256 + (x / 65536) mod 256) * 256
  + (x / 16777216) mod 256.

Lemma bswap32_range x : 0 <= bswap32 x < 2 ^ 32.
Proof.
  unfold bswap32. pose proof (Z.mod_pos_bound x 256 ltac:(lia)).
  pose proof (Z.mod_pos_bound (x / 256) 256 ltac:(lia)).
  pose proof (Z.mod_pos_bound (x / 65536) 256 ltac:(lia)).
  pose proof (Z.mod_pos_bound (x / 16777216) 256 ltac:(lia)). lia.
Qed.

Lemma bswap16_range x : 0 <= bswap16 x < 2 ^ 16.
Proof.
  unfold bswap16. pose proof (Z.mod_pos_bound x 256 ltac:(lia)).
  pose proof (Z.mod_pos_bound (x / 256) 256 ltac:(lia)). lia.
Qed.

Lemma bytes4 a b c d :
  0 <= a < 256 -> 0 <= b < 256 -> 0 <= c < 256 -> 0 <= d < 256 ->
  let x := ((a * 256 + b) * 256 + c) * 256 + d in
  x mod 256 = d /\ (x / 256) mod 256 = c /\ (x / 65536) mod 256 = b /\ (x / 16777216) mod 256 = a.
Proof.
  intros Ha Hb Hc Hd x.
  assert (x / 256 = (a * 256 + b) * 256 + c) as E1
    by (unfold x; rewrite Z.div_add_l, (Z.div_small d) by lia; lia).
  assert (x / 65536 = a * 256 + b) as E2.
  { change 65536 with (256 * 256). rewrite <- Z.div_div, E1 by lia.
    rewrite Z.div_add_l, (Z.div_small c) by lia. lia. }
  assert (x / 16777216 = a) as E3.
  { change 16777216 with (65536 * 256). rewrite <- Z.div_div, E2 by lia.
    rewrite Z.div_add_l, (Z.div_small b) by lia. lia. }
  rewrite E1, E2, E3. unfold x.
  rewrite !(Z.add_comm (_ * 256)), !Z.mod_add, !Z.mod_small by lia. done.
Qed.

Lemma bswap32_involutive x : 0 <= x < 2 ^ 32 -> bswap32 (bswap32 x) = x.
Proof.
  intros Hx. unfold bswap32 at 2.
  pose proof (Z.mod_pos_bound x 256 ltac:(lia)) as H0.
  pose proof (Z.mod_pos_bound (x / 256) 256 ltac:(lia)) as H1.
  pose proof (Z.mod_pos_bound (x / 65536) 256 ltac:(lia)) as H2.
  pose proof (Z.mod_pos_bound (x / 16777216) 256 ltac:(lia)) as H3.
  destruct (bytes4 _ _ _ _ H0 H1 H2 H3) as (E0 & E1 & E2 & E3).
  unfold bswap32. rewrite E0, E1, E2, E3.
  change 65536 with (256 * 256) in *. change 16777216 with (256 * 256 * 256) in *.
  rewrite <- !Z.div_div in * by lia.
  pose proof (Z.div_mod x 256 ltac:(lia)). pose proof (Z.div_mod (x / 256) 256 ltac:(lia)).
  pose proof (Z.div_mod (x / 256 / 256) 256 ltac:(lia)).
  rewrite (Z.mod_small (x / 256 / 256 / 256)); [lia|].
  split; [repeat apply Z.div_pos; lia|repeat apply Z.div_lt_upper_bound; lia].
Qed.

(** ** Bit sets *)

Definition bits_ok (b : RuleBits) : Prop := length b = 4%nat.

Lemma zero_bits_ok : bits_ok zero_bits.
Proof. done. Qed.

Lemma bit_set_ok b i : bits_ok b -> bits_ok (bit_set b i).
Proof. unfold bit_set, bits_ok. intros H. case_match; [by rewrite length_insert|done]. Qed.

Lemma land_shiftr_1 x n : 0 <= n -> negb (Z.land (Z.shiftr x n) 1 =? 0) = Z.testbit x n.
Proof.
  intros Hn. change 1 with (Z.ones 1). rewrite Z.land_ones by lia.
  change (2 ^ 1) with 2. rewrite <- Z.bit0_mod, Z.shiftr_spec, Z.add_0_l by lia.
  by destruct (Z.testbit x n).
Qed.

Lemma bit_get_zero i : bit_get zero_bits i = false.
Proof.
  unfold bit_get. case_match; [done|].
  assert (forall k, nth k zero_bits 0 = 0) as -> by (intros [|[|[|[|[]]]]]; done).
  by rewrite Z.shiftr_0_l.
Qed.

Lemma nth_insert_list (b : RuleBits) i j v :
  (i < length b)%nat -> nth j (<[i := v]> b) 0 = if decide (i = j) then v else nth j b 0.
Proof.
  intros Hi. rewrite !nth_lookup. case_decide as E.
  - subst. by rewrite list_lookup_insert_eq.
  - by rewrite list_lookup_insert_ne.
Qed.

(** Setting one bit changes that bit only, within the 256 bits of the set. *)
Lemma bit_get_set b i j :
  bits_ok b -> 0 <= i -> 0 <= j < MAX_RULES ->
  bit_get (bit_set b i) j = (i =? j) || bit_get b j.
Proof.
  unfold bits_ok, MAX_RULES. intros Hb Hi Hj. unfold bit_get, bit_set, BITSET_WORDS.
  assert (0 <= j / 64 < 4) as Hjw
    by (split; [apply Z.div_pos|apply Z.div_lt_upper_bound]; lia).
  pose proof (Z.mod_pos_bound i 64 ltac:(lia)). pose proof (Z.mod_pos_bound j 64 ltac:(lia)).
  pose proof (Z.div_mod i 64 ltac:(lia)). pose proof (Z.div_mod j 64 ltac:(lia)).
  pose proof (Z.div_pos i 64 Hi ltac:(lia)).
  destruct (Z.leb_spec 4 (j / 64)); [lia|]. rewrite !land_shiftr_1 by lia.
  destruct (Z.ltb_spec (i / 64) 4).
  - rewrite nth_insert_list by lia. case_decide as E.
    + assert (i / 64 = j / 64) as Ew by lia. rewrite Z.lor_spec, Ew.
      rewrite Z.shiftl_spec, orb_comm by lia. f_equal.
      destruct (Z.eqb_spec i j) as [->|Hne].
      * by rewrite Z.sub_diag.
      * destruct (Z.ltb_spec (j mod 64) (i mod 64)).
        -- by rewrite Z.testbit_neg_r by lia.
        -- rewrite Z.bits_above_log2; [done|lia|]. simpl. lia.
    + destruct (Z.eqb_spec i j) as [->|]; [done|done].
  - destruct (Z.eqb_spec i j) as [->|]; [lia|done].
Qed.

(** An index past the set is ignored by both. *)
Lemma bit_out_of_range b i : MAX_RULES <= i -> bit_set b i = b /\ bit_get b i = false.
Proof.
  unfold MAX_RULES, bit_set, bit_get, BITSET_WORDS. intros Hi.
  assert (4 <= i / 64) by (apply Z.div_le_lower_bound; lia).
  destruct (Z.ltb_spec (i / 64) 4); [lia|]. destruct (Z.leb_spec 4 (i / 64)); [done|lia].
Qed.

Definition bits_and (a b : RuleBits) : RuleBits := zip_with Z.land a b.

Lemma bit_get_and a b i :
  bits_ok a -> bits_ok b -> 0 <= i < MAX_RULES ->
  bit_get (bits_and a b) i = bit_get a i && bit_get b i.
Proof.
  unfold bits_ok, MAX_RULES. intros Ha Hb Hi. unfold bit_get, BITSET_WORDS.
  assert (0 <= i / 64 < 4) as Hw
    by (split; [apply Z.div_pos|apply Z.div_lt_upper_bound]; lia).
  pose proof (Z.mod_pos_bound i 64 ltac:(lia)).
  destruct (Z.leb_spec 4 (i / 64)); [lia|]. rewrite !land_shiftr_1 by lia.
  rewrite !nth_lookup. unfold bits_and. rewrite lookup_zip_with.
  destruct (lookup_lt_is_Some_2 a (Z.to_nat (i / 64))) as [x Hx]; [lia|].
  destruct (lookup_lt_is_Some_2 b (Z.to_nat (i / 64))) as [y Hy]; [lia|].
  rewrite Hx, Hy. simpl. apply Z.land_spec.
Qed.
