(* ===== verification/EnfLpm.v ===== *)
(** * The LPM tries of a generation ([build_rules], [build_lpm_entries] and
    [build_trie] of [wiremesh-enforcer/src/ebpf.rs])

    The kernel's [BPF_MAP_TYPE_LPM_TRIE] is not code of this repository: it is
    the class [LpmTrieApi], whose laws say what the kernel documents - keys are
    masked to their prefix, an equal key is overwritten, [max_entries] keys fit,
    and a full-length lookup returns the entry of the longest matching prefix. *)
From S2P Require Export PolicySem EnfCommon.
From Stdlib Require Import ZArith Lia.
Local Open Scope Z_scope.

(** The 32 bits of a key's 8 data bytes that prefix matching reads, as an address. *)
Definition key_addr (data : Z) : Z := bswap32 (data mod 2 ^ 32).

(** Longest-prefix search among the prefixes shorter than [n]. *)
Fixpoint lpm_search (n : nat) (m : gmap (Z * Z) RuleBits) (a : Z) : option RuleBits :=
  match n with
  | O => None
  | S k =>
      match m !! (Z.of_nat k, network_of a (Z.of_nat k)) with
      | Some v => Some v
      | None => lpm_search k m a
      end
  end.

Class LpmTrieApi := {
  trie : Type;
  trie_create : trie;
  trie_insert : trie -> Z -> Z -> RuleBits -> option trie;
  trie_get : trie -> Z -> Z -> option RuleBits
}.

Class LpmTrieLaws (T : LpmTrieApi) := {
  trie_view : trie -> gmap (Z * Z) RuleBits;
  trie_view_create : trie_view trie_create = ∅;
  trie_insert_ok t p d v :
    0 <= p <= 32 -> 0 <= d < 2 ^ 64 ->
    is_Some (trie_view t !! (p, network_of (key_addr d) p)) \/
      (size (trie_view t) < LPM_MAX_ENTRIES)%nat ->
    exists t', trie_insert t p d v = Some t' /\
               trie_view t' = <[(p, network_of (key_addr d) p) := v]> (trie_view t);
  trie_get_spec t d : 0 <= d < 2 ^ 64 -> trie_get t 32 d = lpm_search 33 (trie_view t) (key_addr d)
}.

(** An instance, for concrete runs. *)
#[export] Instance MapTrie : LpmTrieApi := {
  trie := gmap (Z * Z) RuleBits;
  trie_create := ∅;
  trie_insert m p d v :=
    let k := (p, network_of (key_addr d) p) in
    if decide (is_Some (m !! k)) then Some (<[k := v]> m)
    else if Nat.ltb (size m) LPM_MAX_ENTRIES then Some (<[k := v]> m) else None;
  trie_get m _ d := lpm_search 33 m (key_addr d)
}.

#[export] Instance MapTrieLaws : LpmTrieLaws MapTrie.
Proof.
  refine {| trie_view := fun m : @trie MapTrie => m |}; [done| |done].
  intros t p d v _ _ H. simpl. case_decide as Hk; [eauto|].
  destruct H as [?|H]; [done|]. apply Nat.ltb_lt in H. rewrite H. eauto.
Qed.

Section lpm.
Context {N : Ipv4NetApi} {NL : Ipv4NetLaws N} {T : LpmTrieApi} {TL : LpmTrieLaws T}.

Definition proto_num (p : IrProto) : Z :=
  match p with Tcp => 6 | Udp => 17 | Icmp => 1 | AnyProto => 0 end.

Definition rule_meta (f : FlatRule) : RuleMeta :=
  {| rm_action := match fr_action f with Allow => ACT_ALLOW | Deny => ACT_DENY end;
     rm_proto := proto_num (fr_proto f); rm_port_lo := fr_port_lo f; rm_port_hi := fr_port_hi f |}.

Definition build_rules (flat : list FlatRule) : list RuleMeta * list string :=
  (map rule_meta flat, map fr_rule_id flat).

(** The rule has a CIDR on [side] that covers [p]. *)
Definition covers (side : Side) (p : ipv4net) (f : FlatRule) : bool :=
  existsb (fun c => net_contains c p) (side_cidrs f side).

Definition entry_bits (flat : list FlatRule) (side : Side) (p : ipv4net) : RuleBits :=
  fold_left (fun bits f => if covers side p f then bit_set bits (Z.of_nat (fr_idx f)) else bits)
    flat zero_bits.

Definition build_lpm_entries (flat : list FlatRule) (side : Side) : list (ipv4net * RuleBits) :=
  map (fun p => (p, entry_bits flat side p)) (distinct_side_cidrs flat side).

(** [u32::from(net.network()).to_be() as u64]. *)
Definition trie_key (net : ipv4net) : Z := bswap32 (net_network net).

Fixpoint insert_entries (t : trie) (entries : list (ipv4net * RuleBits)) : option trie :=
  match entries with
  | [] => Some t
  | (net, bits) :: entries' =>
      t' ← trie_insert t (net_prefix net) (trie_key net) bits;
      insert_entries t' entries'
  end.

Definition build_trie (entries : list (ipv4net * RuleBits)) : option trie :=
  insert_entries trie_create entries.

(** The kernel's lookup of a loaded address. *)
Definition lookup_bits (t : trie) (raw : Z) : RuleBits := default zero_bits (trie_get t 32 raw).

(** ** The stored bit sets *)

Lemma fold_bits_ok side p flat b : bits_ok b ->
  bits_ok (fold_left (fun bits f => if covers side p f then bit_set bits (Z.of_nat (fr_idx f)) else bits) flat b).
Proof.
  revert b. induction flat as [|f flat IH]; intros b Hb; simpl; [done|].
  apply IH. destruct (covers side p f); [by apply bit_set_ok|done].
Qed.

Lemma entry_bits_ok flat side p : bits_ok (entry_bits flat side p).
Proof. apply fold_bits_ok, zero_bits_ok. Qed.

Lemma entry_bits_get flat side p i :
  0 <= i < MAX_RULES ->
  bit_get (entry_bits flat side p) i = true <->
  exists f, f ∈ flat /\ Z.of_nat (fr_idx f) = i /\ covers side p f = true.
Proof.
  intros Hi. unfold entry_bits.
  assert (forall l b, bits_ok b ->
    bit_get (fold_left (fun bits f => if covers side p f then bit_set bits (Z.of_nat (fr_idx f)) else bits) l b) i = true
    <-> bit_get b i = true \/ exists f, f ∈ l /\ Z.of_nat (fr_idx f) = i /\ covers side p f = true) as H.
  { induction l as [|f l IH]; intros b Hb; simpl.
    - split; [auto|]. intros [?|(f & Hf & _)]; [done|]. by apply elem_of_nil in Hf.
    - rewrite IH by (destruct (covers side p f); [by apply bit_set_ok|done]).
      setoid_rewrite elem_of_cons. destruct (covers side p f) eqn:E.
      + rewrite bit_get_set, orb_true_iff, Z.eqb_eq by (done || lia). split.
        * intros [[?|?]|(g & ? & ? & ?)]; [right; exists f; auto|by left|right; exists g; auto].
        * intros [?|(g & [->|?] & ? & ?)]; [auto|auto|right; exists g; auto].
      + split.
        * intros [?|(g & ? & ? & ?)]; [by left|right; exists g; auto].
        * intros [?|(g & [->|?] & ? & ?)]; [auto|congruence|right; exists g; auto]. }
  rewrite (H flat zero_bits zero_bits_ok), bit_get_zero. split; [by intros [?|?]|by right].
Qed.

(** *** Keys *)

Definition net_key (n : ipv4net) : Z * Z := (net_prefix n, network_of (net_addr n) (net_prefix n)).

Lemma covers_key side a b f : net_key a = net_key b -> covers side a f = covers side b f.
Proof.
  intros E. unfold net_key in E. injection E as Ep En. unfold covers.
  assert (forall c, net_contains c a = net_contains c b) as H.
  { intros c. apply eq_true_iff_eq. rewrite !net_contains_spec.
    unfold broadcast_of. by rewrite En, Ep. }
  induction (side_cidrs f side) as [|c l IH]; simpl; [done|]. by rewrite H, IH.
Qed.

Lemma entry_bits_key flat side a b : net_key a = net_key b -> entry_bits flat side a = entry_bits flat side b.
Proof.
  intros E. unfold entry_bits. generalize zero_bits.
  induction flat as [|f flat IH]; intros z; simpl; [done|]. by rewrite (covers_key side a b f E), IH.
Qed.

Lemma network_of_idem a p : p <= 32 -> network_of (network_of a p) p = network_of a p.
Proof.
  intros Hp. unfold network_of. pose proof (block_size_pos p Hp). by rewrite Z.div_mul by lia.
Qed.

Lemma network_of_range a p : 0 <= a < 2 ^ 32 -> p <= 32 -> 0 <= network_of a p < 2 ^ 32.
Proof.
  intros Ha Hp. unfold network_of. pose proof (block_size_pos p Hp).
  pose proof (Z.div_pos a (block_size p) ltac:(lia) ltac:(lia)).
  pose proof (Z.mul_div_le a (block_size p) ltac:(lia)). nia.
Qed.

Lemma key_addr_bswap x : 0 <= x < 2 ^ 32 -> key_addr (bswap32 x) = x.
Proof.
  intros Hx. unfold key_addr. pose proof (bswap32_range x).
  by rewrite Z.mod_small, bswap32_involutive.
Qed.

Lemma trie_key_range n : 0 <= trie_key n < 2 ^ 64.
Proof. unfold trie_key. pose proof (bswap32_range (net_network n)). lia. Qed.

Lemma trie_key_net n : (net_prefix n, network_of (key_addr (trie_key n)) (net_prefix n)) = net_key n.
Proof.
  unfold trie_key, net_key. pose proof (net_prefix_range n). pose proof (net_addr_range n).
  rewrite net_network_spec, key_addr_bswap by (apply network_of_range; lia).
  by rewrite network_of_idem by lia.
Qed.

Lemma net_has_key n a : net_has n a <-> network_of a (net_prefix n) = network_of (net_addr n) (net_prefix n).
Proof.
  unfold net_has, network_of. pose proof (net_prefix_range n).
  pose proof (block_size_pos (net_prefix n) ltac:(lia)). split; [by intros ->|]. nia.
Qed.

(** *** The trie built from a side's entries *)

(** [t] holds exactly the entries of the CIDRs [ps]. *)
Definition holds (flat : list FlatRule) (side : Side) (t : trie) (ps : list ipv4net) : Prop :=
  forall k v, trie_view t !! k = Some v <->
    exists p, p ∈ ps /\ k = net_key p /\ v = entry_bits flat side p.

Lemma holds_size flat side t ps : holds flat side t ps -> (size (trie_view t) <= length ps)%nat.
Proof.
  intros H.
  assert (dom (trie_view t) ⊆ list_to_set (map net_key ps)) as Hd.
  { intros k [v Hv]%elem_of_dom. apply elem_of_list_to_set, list_elem_of_In, in_map_iff.
    apply H in Hv as (p & Hp & -> & _). exists p. by rewrite <- list_elem_of_In. }
  rewrite <- size_dom. etrans; [exact (subseteq_size _ _ Hd)|].
  rewrite <- (length_map net_key ps).
  generalize (map net_key ps). clear. intros l. induction l as [|k l IH].
  - by rewrite list_to_set_nil, size_empty.
  - rewrite list_to_set_cons, size_union_alt, size_singleton. simpl.
    pose proof (subseteq_size (list_to_set l ∖ {[k]} : gset (Z * Z)) (list_to_set l) ltac:(set_solver)).
    lia.
Qed.

Lemma insert_entries_holds flat side ps t done :
  holds flat side t done -> (length done + length ps <= LPM_MAX_ENTRIES)%nat ->
  exists t', insert_entries t (map (fun p => (p, entry_bits flat side p)) ps) = Some t' /\
             holds flat side t' (done ++ ps).
Proof.
  revert t done. induction ps as [|p ps IH]; intros t done Ht Hlen; simpl.
  { exists t. by rewrite app_nil_r. }
  pose proof (holds_size _ _ _ _ Ht) as Hsz. simpl in Hlen.
  destruct (trie_insert_ok t (net_prefix p) (trie_key p) (entry_bits flat side p)
    (net_prefix_range p) (trie_key_range p)) as (t1 & E1 & V1); [right; lia|].
  rewrite E1. simpl. rewrite trie_key_net in V1.
  destruct (IH t1 (done ++ [p])) as (t' & E' & H').
  - intros k v. rewrite V1, lookup_insert_Some. setoid_rewrite elem_of_app.
    setoid_rewrite list_elem_of_singleton. split.
    + intros [[<- <-]|[Hne Hk]]; [exists p; auto|].
      apply Ht in Hk as (q & Hq & -> & ->). exists q. auto.
    + intros (q & [Hq| ->] & -> & ->); [|auto].
      destruct (decide (net_key p = net_key q)) as [E|E].
      * left. split; [done|]. by apply entry_bits_key.
      * right. split; [done|]. apply Ht. eauto.
  - rewrite length_app. simpl. lia.
  - exists t'. split; [exact E'|]. by rewrite <- app_assoc in H'.
Qed.

Lemma build_trie_ok flat side :
  (length (distinct_side_cidrs flat side) <= LPM_MAX_ENTRIES)%nat ->
  exists t, build_trie (build_lpm_entries flat side) = Some t /\
            holds flat side t (distinct_side_cidrs flat side).
Proof.
  intros H. unfold build_trie, build_lpm_entries.
  destruct (insert_entries_holds flat side (distinct_side_cidrs flat side) trie_create [])
    as (t & E & Ht); [|done|eauto].
  intros k v. rewrite trie_view_create, lookup_empty. split; [done|].
  intros (p & Hp & _). by apply elem_of_nil in Hp.
Qed.

(** *** Longest-prefix search finds a narrowest covering CIDR *)

Lemma lpm_search_spec m a n :
  match lpm_search n m a with
  | Some v => exists k, (k < n)%nat /\ m !! (Z.of_nat k, network_of a (Z.of_nat k)) = Some v /\
                        forall j, (k < j < n)%nat -> m !! (Z.of_nat j, network_of a (Z.of_nat j)) = None
  | None => forall j, (j < n)%nat -> m !! (Z.of_nat j, network_of a (Z.of_nat j)) = None
  end.
Proof.
  induction n as [|n IH]; simpl; [lia|].
  destruct (m !! (Z.of_nat n, network_of a (Z.of_nat n))) as [v|] eqn:E.
  - exists n. split_and!; [lia|done|lia].
  - destruct (lpm_search n m a) as [v|].
    + destruct IH as (k & Hk & Hv & Hj). exists k. split_and!; [lia|done|].
      intros j Hkj. destruct (decide (j = n)) as [->|]; [done|]. apply Hj. lia.
    + intros j Hj. destruct (decide (j = n)) as [->|]; [done|]. apply IH. lia.
Qed.

Lemma distinct_side_elem flat side c :
  c ∈ distinct_side_cidrs flat side <-> exists f, f ∈ flat /\ c ∈ side_cidrs f side.
Proof.
  rewrite <- elem_of_flat_side. apply (accumulate_side_stands flat side).
Qed.

Lemma net_key_prefix_nat n : exists k, (k < 33)%nat /\ net_prefix n = Z.of_nat k.
Proof. pose proof (net_prefix_range n). exists (Z.to_nat (net_prefix n)). lia. Qed.

(** The bits found for an address are those of the rules with a CIDR that holds it. *)
Lemma lookup_bits_spec flat side t a i :
  holds flat side t (distinct_side_cidrs flat side) -> 0 <= a < 2 ^ 32 -> 0 <= i < MAX_RULES ->
  bit_get (lookup_bits t (bswap32 a)) i = true <->
  exists f, f ∈ flat /\ Z.of_nat (fr_idx f) = i /\ existsb (net_hasb a) (side_cidrs f side) = true.
Proof.
  intros Ht Ha Hi. unfold lookup_bits.
  rewrite trie_get_spec, key_addr_bswap by (pose proof (bswap32_range a); lia || done).
  pose proof (lpm_search_spec (trie_view t) a 33) as Hs.
  assert (forall f c, f ∈ flat -> c ∈ side_cidrs f side -> net_has c a ->
            exists k, (k < 33)%nat /\ net_prefix c = Z.of_nat k /\
              is_Some (trie_view t !! (Z.of_nat k, network_of a (Z.of_nat k)))) as Hin.
  { intros f c Hf Hc Hca. destruct (net_key_prefix_nat c) as (k & Hk & Ek).
    exists k. split_and!; [done..|]. exists (entry_bits flat side c). apply Ht. exists c.
    split_and!; [apply distinct_side_elem; eauto| |done]. unfold net_key.
    apply net_has_key in Hca. by rewrite <- Hca, Ek. }
  destruct (lpm_search 33 (trie_view t) a) as [v|]; simpl.
  - destruct Hs as (k & Hk & Hv & Hmax). apply Ht in Hv as (p & Hp & Ekey & ->).
    injection Ekey as Ep En.
    assert (net_has p a) as Hpa by (apply net_has_key; by rewrite <- En, Ep).
    rewrite entry_bits_get by done. unfold covers.
    split; intros (f & Hf & Ei & Hc); exists f; (split_and!; [done..|]);
      apply existsb_iff in Hc as (c & Hc & Hcc); apply existsb_iff; exists c; (split; [done|]).
    + apply bool_decide_eq_true. apply net_contains_incl with (x := a) in Hcc; done.
    + unfold net_hasb in Hcc. apply bool_decide_eq_true in Hcc.
      apply (net_has_contains c p a); [done..|].
      destruct (Hin f c Hf Hc Hcc) as (j & Hj & Ej & [w Hw]).
      rewrite <- Ep, Ej. apply Nat2Z.inj_le.
      destruct (Nat.le_gt_cases j k); [done|]. by rewrite (Hmax j) in Hw by lia.
  - rewrite bit_get_zero. split; [done|]. intros (f & Hf & _ & Hc).
    apply existsb_iff in Hc as (c & Hc & Hca). unfold net_hasb in Hca.
    apply bool_decide_eq_true in Hca.
    destruct (Hin f c Hf Hc Hca) as (j & Hj & _ & [w Hw]). by rewrite (Hs j) in Hw.
Qed.
End lpm.
