(* ===== verification/EnfDatapath.v ===== *)
(** * The kernel program ([wiremesh-enforcer-ebpf/program/src/main.rs])

    The two tc classifiers as state transformers over the program's maps.  A
    packet is its bytes; [ctx.load] is a bounds-checked little-endian load.  The
    LRU hash maps and the ring buffer belong to the kernel: an insertion is a
    parameter that may also evict or drop ([LruApi]). *)
From S2P Require Export EnfLpm.
From Stdlib Require Import ZArith Lia.
Local Open Scope Z_scope.

Definition TC_ACT_SHOT : Z := 2.
Definition TC_ACT_PIPE : Z := 3.

Class LruApi := {
  flows_insert : FlowKey -> FlowVal -> gmap FlowKey FlowVal -> gmap FlowKey FlowVal;
  rate_insert : Z -> RateVal -> gmap Z RateVal -> gmap Z RateVal;
  rb_output : DenyEventRaw -> list DenyEventRaw -> list DenyEventRaw
}.

(** An insertion stores its entry and may evict others; the ring buffer may be full. *)
Class LruLaws (L : LruApi) := {
  flows_insert_key k v m : flows_insert k v m !! k = Some v;
  flows_insert_sub k v m : flows_insert k v m ⊆ <[k := v]> m;
  rate_insert_key k v m : rate_insert k v m !! k = Some v;
  rate_insert_sub k v m : rate_insert k v m ⊆ <[k := v]> m;
  rb_output_spec e l : rb_output e l = l ++ [e] \/ rb_output e l = l
}.

#[export] Instance PlainLru : LruApi :=
  {| flows_insert k v m := <[k := v]> m; rate_insert k v m := <[k := v]> m;
     rb_output e l := l ++ [e] |}.
#[export] Instance PlainLruLaws : LruLaws PlainLru.
Proof. split; intros; simpl; first [apply lookup_insert_eq|by left|done]. Qed.

Section program.
Context {T : LpmTrieApi} {L : LruApi}.

(** The maps, under their names in the source.  Each [GEN_*] outer has two slots. *)
Record Maps := { COUNTERS : list Z; ACTIVE : Z; FLOWS : gmap FlowKey FlowVal;
                 RATE : gmap Z RateVal; CONFIG : list Z; DENY_RB : list DenyEventRaw;
                 LOG_RULE_BUDGET : list RateVal; LOG_AGG_BUDGET : list RateVal;
                 GEN_SRC : list (option trie); GEN_DST : list (option trie);
                 GEN_RULES : list (option (list RuleMeta)); GEN_META : list (option Z) }.

Definition set_COUNTERS x s := {| COUNTERS := x; ACTIVE := ACTIVE s; FLOWS := FLOWS s; RATE := RATE s;
  CONFIG := CONFIG s; DENY_RB := DENY_RB s; LOG_RULE_BUDGET := LOG_RULE_BUDGET s;
  LOG_AGG_BUDGET := LOG_AGG_BUDGET s; GEN_SRC := GEN_SRC s; GEN_DST := GEN_DST s;
  GEN_RULES := GEN_RULES s; GEN_META := GEN_META s |}.
Definition set_FLOWS x s := {| COUNTERS := COUNTERS s; ACTIVE := ACTIVE s; FLOWS := x; RATE := RATE s;
  CONFIG := CONFIG s; DENY_RB := DENY_RB s; LOG_RULE_BUDGET := LOG_RULE_BUDGET s;
  LOG_AGG_BUDGET := LOG_AGG_BUDGET s; GEN_SRC := GEN_SRC s; GEN_DST := GEN_DST s;
  GEN_RULES := GEN_RULES s; GEN_META := GEN_META s |}.
Definition set_RATE x s := {| COUNTERS := COUNTERS s; ACTIVE := ACTIVE s; FLOWS := FLOWS s; RATE := x;
  CONFIG := CONFIG s; DENY_RB := DENY_RB s; LOG_RULE_BUDGET := LOG_RULE_BUDGET s;
  LOG_AGG_BUDGET := LOG_AGG_BUDGET s; GEN_SRC := GEN_SRC s; GEN_DST := GEN_DST s;
  GEN_RULES := GEN_RULES s; GEN_META := GEN_META s |}.
Definition set_log rb pr ag s := {| COUNTERS := COUNTERS s; ACTIVE := ACTIVE s; FLOWS := FLOWS s;
  RATE := RATE s; CONFIG := CONFIG s; DENY_RB := rb; LOG_RULE_BUDGET := pr;
  LOG_AGG_BUDGET := ag; GEN_SRC := GEN_SRC s; GEN_DST := GEN_DST s;
  GEN_RULES := GEN_RULES s; GEN_META := GEN_META s |}.

(** A computation of the program: [Result<A, ()>] over the maps. *)
Definition prog (A : Type) : Type := Maps -> result unit A * Maps.
#[export] Instance prog_ret : MRet prog := fun A a s => (Ok a, s).
#[export] Instance prog_bind : MBind prog := fun A B k m s =>
  match m s with
  | (Ok a, s') => k a s'
  | (Err e, s') => (Err e, s')
  end.
Definition lift {A : Type} (r : option A) : prog A :=
  fun s => (match r with Some a => Ok a | None => Err tt end, s).
Definition modify (f : Maps -> Maps) : prog unit := fun s => (Ok tt, f s).
Definition gets {A : Type} (f : Maps -> A) : prog A := fun s => (Ok (f s), s).

(** ** Small helpers of the program *)

(** [*c += 1] on a [u64]. *)
Definition bump (idx : Z) : prog unit := modify (fun s =>
  match COUNTERS s !! Z.to_nat idx with
  | Some c => set_COUNTERS (<[Z.to_nat idx := wrap 64 (c + 1)]> (COUNTERS s)) s
  | None => s
  end).

Definition cfg_or_default (idx : nat) (default : Z) (s : Maps) : Z :=
  let v := nth idx (CONFIG s) 0 in
  if v =? 0 then default else v.

Definition timeout_ns (proto : Z) (s : Maps) : Z :=
  if proto =? 6 then cfg_or_default CFG_TCP_NS DEFAULT_TCP_NS s
  else if proto =? 1 then cfg_or_default CFG_ICMP_NS DEFAULT_ICMP_NS s
  else cfg_or_default CFG_UDP_NS DEFAULT_UDP_NS s.

Definition rate_cap (s : Maps) : Z := wrap 32 (cfg_or_default CFG_RATE_CAP DEFAULT_RATE_CAP s).

Definition flow_hit (key : FlowKey) (proto now : Z) (refresh : bool) : prog bool := fun s =>
  match FLOWS s !! key with
  | None => (Ok false, s)
  | Some v =>
      if timeout_ns proto s <? sat_sub now (last_seen_ns v) then
        (Ok false, set_FLOWS (delete key (FLOWS s)) s)
      else
        (Ok true, if refresh then set_FLOWS (<[key := {| last_seen_ns := now |}]> (FLOWS s)) s else s)
  end.

Definition rate_allows (src now : Z) : prog bool := fun s =>
  let cap := rate_cap s in
  match RATE s !! src with
  | None => (Ok true, set_RATE (rate_insert src {| window_start_ns := now; rv_count := 1 |} (RATE s)) s)
  | Some r =>
      if RATE_WINDOW_NS <? sat_sub now (window_start_ns r) then
        (Ok true, set_RATE (<[src := {| window_start_ns := now; rv_count := 1 |}]> (RATE s)) s)
      else if rv_count r <? cap then
        (Ok true, set_RATE (<[src := {| window_start_ns := window_start_ns r;
                                       rv_count := sat_add 32 (rv_count r) 1 |}]> (RATE s)) s)
      else (Ok false, s)
  end.

Definition budget_would_allow (arr : list RateVal) (idx cap now : Z) : bool :=
  match arr !! Z.to_nat idx with
  | None => false
  | Some r =>
      if RATE_WINDOW_NS <? sat_sub now (window_start_ns r) then true else rv_count r <? cap
  end.

Definition budget_commit (arr : list RateVal) (idx now : Z) : list RateVal :=
  match arr !! Z.to_nat idx with
  | None => arr
  | Some r =>
      <[Z.to_nat idx :=
        if RATE_WINDOW_NS <? sat_sub now (window_start_ns r)
        then {| window_start_ns := now; rv_count := 1 |}
        else {| window_start_ns := window_start_ns r; rv_count := sat_add 32 (rv_count r) 1 |}]> arr
  end.

Definition log_allows (rule_idx now : Z) : prog bool := fun s =>
  let per_rule_cap := wrap 32 (cfg_or_default CFG_LOG_PER_RULE DEFAULT_LOG_PER_RULE s) in
  if negb (budget_would_allow (LOG_RULE_BUDGET s) rule_idx per_rule_cap now) then (Ok false, s)
  else
    let agg_cap := wrap 32 (cfg_or_default CFG_LOG_AGGREGATE DEFAULT_LOG_AGGREGATE s) in
    if negb (budget_would_allow (LOG_AGG_BUDGET s) 0 agg_cap now) then (Ok false, s)
    else (Ok true, set_log (DENY_RB s) (budget_commit (LOG_RULE_BUDGET s) rule_idx now)
                     (budget_commit (LOG_AGG_BUDGET s) 0 now) s).

Definition maybe_emit_deny (ev : DenyEventRaw) (now : Z) : prog unit :=
  allowed ← log_allows (de_rule_idx ev) now;
  if (allowed : bool) then
    modify (fun s => set_log (rb_output ev (DENY_RB s)) (LOG_RULE_BUDGET s) (LOG_AGG_BUDGET s) s)
  else mret tt.

(** ** Parsing *)

Definition load8 (pkt : list Z) (off : Z) : option Z := pkt !! Z.to_nat off.
Definition load16 (pkt : list Z) (off : Z) : option Z :=
  a ← load8 pkt off; b ← load8 pkt (off + 1); Some (b * 256 + a).
Definition load32 (pkt : list Z) (off : Z) : option Z :=
  a ← load16 pkt off; b ← load16 pkt (off + 2); Some (b * 65536 + a).

(** Source, destination, protocol and header length. *)
Definition ipv4_at (pkt : list Z) : option (Z * Z * Z * Z) :=
  vihl ← load8 pkt 0;
  if negb (Z.shiftr vihl 4 =? 4) then None
  else
    let ihl := Z.land vihl 15 * 4 in
    proto ← load8 pkt 9;
    src ← load32 pkt 12;
    dst ← load32 pkt 16;
    Some (src, dst, proto, ihl).

Definition ports_at (pkt : list Z) (off proto : Z) : Z * Z :=
  if (proto =? 6) || (proto =? 17) then
    (default 0 (load16 pkt off), default 0 (load16 pkt (off + 2)))
  else if proto =? 1 then (default 0 (load16 pkt (off + 4)), 0)
  else (0, 0).

(** ** Rule evaluation *)

Definition meta_matches (m : RuleMeta) (proto dport : Z) : bool :=
  (if rm_proto m =? 0 then (proto =? 1) || (proto =? 6) || (proto =? 17) else rm_proto m =? proto)
  && ((rm_port_hi m =? 0) ||
      (let p := bswap16 dport in (rm_port_lo m <=? p) && (p <=? rm_port_hi m))).

(** Inner maps of a slot; an uninstalled slot reads as absent. *)
Definition slot_get {A : Type} (outer : list (option A)) (slot : Z) : option A :=
  mjoin (outer !! Z.to_nat slot).

(** The bounded loop over [i..i+n); the result is the first match. *)
Fixpoint scan_rules (n : nat) (i len : Z) (bits : RuleBits) (rules : option (list RuleMeta))
    (proto dport : Z) : option (Z * RuleMeta) :=
  match n with
  | O => None
  | S n' =>
      if len <=? i then None
      else if negb (bit_get bits i) then scan_rules n' (i + 1) len bits rules proto dport
      else
        match (rs ← rules; rs !! Z.to_nat i) with
        | None => None
        | Some m =>
            if meta_matches m proto dport then Some (i, m)
            else scan_rules n' (i + 1) len bits rules proto dport
        end
  end.

(** The lookups of one packet, all against [slot]. *)
Definition scan_slot (slot src dst proto dport : Z) (s : Maps) : option (Z * RuleMeta) :=
  let src_bits := default zero_bits (t ← slot_get (GEN_SRC s) slot; trie_get t 32 src) in
  let dst_bits := default zero_bits (t ← slot_get (GEN_DST s) slot; trie_get t 32 dst) in
  let bits := bits_and src_bits dst_bits in
  let len := Z.min (default 0 (slot_get (GEN_META s) slot)) MAX_RULES in
  scan_rules (Z.to_nat MAX_RULES) 0 len bits (slot_get (GEN_RULES s) slot) proto dport.

Definition deny_event (src dst proto dport idx : Z) : DenyEventRaw :=
  {| de_src := src; de_dst := dst; de_proto := proto; de_dport := dport; de_rule_idx := idx |}.

(** Counting, sampling and the returned action. *)
Definition scan_outcome (m : option (Z * RuleMeta)) (src dst proto dport now : Z) : prog Z :=
  match m with
  | Some (i, meta) =>
      _ ← bump i;
      _ ← (if rm_action meta =? ACT_DENY then maybe_emit_deny (deny_event src dst proto dport i) now
           else mret tt);
      mret (rm_action meta)
  | None =>
      _ ← bump CTR_DEFAULT_DENY;
      _ ← maybe_emit_deny (deny_event src dst proto dport CTR_DEFAULT_DENY) now;
      mret ACT_DENY
  end.

Definition scan_generation (src dst proto dport now : Z) : prog Z :=
  m ← gets (fun s => scan_slot (ACTIVE s) src dst proto dport s);
  scan_outcome m src dst proto dport now.

(** ** The classifiers *)

Definition mk_key (src dst sport dport proto : Z) : FlowKey :=
  {| fk_src := src; fk_dst := dst; fk_sport := sport; fk_dport := dport; fk_proto := proto |}.

(** The key a reply's request was recorded under: ICMP keeps its (id, 0) pair. *)
Definition reverse_key (k : FlowKey) : FlowKey :=
  if fk_proto k =? 1 then mk_key (fk_dst k) (fk_src k) (fk_sport k) (fk_dport k) (fk_proto k)
  else mk_key (fk_dst k) (fk_src k) (fk_dport k) (fk_sport k) (fk_proto k).

(** The original packet an ICMP error reports on: [Err] unparseable, [Ok None] no lookup. *)
Definition embedded_key (pkt : list Z) (ihl proto : Z) : option (option FlowKey) :=
  if proto =? 1 then
    itype ← load8 pkt ihl;
    if (itype =? 3) || (itype =? 11) || (itype =? 12) then
      let eoff := ihl + 8 in
      evihl ← load8 pkt eoff;
      if Z.shiftr evihl 4 =? 4 then
        let eihl := Z.land evihl 15 * 4 in
        eproto ← load8 pkt (eoff + 9);
        esrc ← load32 pkt (eoff + 12);
        edst ← load32 pkt (eoff + 16);
        let esport := default 0 (load16 pkt (eoff + eihl)) in
        let edport := default 0 (load16 pkt (eoff + eihl + 2)) in
        Some (Some (mk_key esrc edst esport edport eproto))
      else Some None
    else Some None
  else Some None.

Definition pass_flow : prog Z := _ ← bump CTR_FLOW_HIT; mret TC_ACT_PIPE.

(** 4) Rules: an allowed packet records its own 5-tuple. *)
Definition ingress_rules (fwd : FlowKey) (now : Z) : prog Z :=
  action ← scan_generation (fk_src fwd) (fk_dst fwd) (fk_proto fwd) (fk_dport fwd) now;
  if action =? ACT_ALLOW then
    _ ← modify (fun s => set_FLOWS (flows_insert fwd {| last_seen_ns := now |} (FLOWS s)) s);
    mret TC_ACT_PIPE
  else mret TC_ACT_SHOT.

Definition try_ingress (pkt : list Z) (now : Z) : prog Z :=
  '(src, dst, proto, ihl) ← lift (ipv4_at pkt);
  let '(sport, dport) := ports_at pkt ihl proto in
  let fwd := mk_key src dst sport dport proto in
  rev_hit ← flow_hit (reverse_key fwd) proto now true;
  if (rev_hit : bool) then pass_flow else
  fwd_hit ← flow_hit fwd proto now true;
  if (fwd_hit : bool) then pass_flow else
  ekey ← lift (embedded_key pkt ihl proto);
  err_hit ← match ekey with
            | Some k => flow_hit k (fk_proto k) now false
            | None => mret false
            end;
  if (err_hit : bool) then pass_flow else ingress_rules fwd now.

Definition try_egress (pkt : list Z) (now : Z) : prog unit :=
  '(src, dst, proto, ihl) ← lift (ipv4_at pkt);
  let '(sport, dport) := ports_at pkt ihl proto in
  let key := mk_key src dst sport dport proto in
  let record : prog unit :=
    allowed ← rate_allows src now;
    if (allowed : bool) then
      modify (fun s => set_FLOWS (flows_insert key {| last_seen_ns := now |} (FLOWS s)) s)
    else mret tt in
  entry ← gets (fun s => FLOWS s !! key);
  match entry with
  | None => record
  | Some v =>
      timeout ← gets (timeout_ns proto);
      if timeout <? sat_sub now (last_seen_ns v) then
        _ ← modify (fun s => set_FLOWS (delete key (FLOWS s)) s);
        record
      else modify (fun s => set_FLOWS (<[key := {| last_seen_ns := now |}]> (FLOWS s)) s)
  end.

Definition aeth_ingress (pkt : list Z) (now : Z) (s : Maps) : Z * Maps :=
  match try_ingress pkt now s with
  | (Ok verdict, s') => (verdict, s')
  | (Err _, s') => (TC_ACT_SHOT, s')
  end.

Definition aeth_egress (pkt : list Z) (now : Z) (s : Maps) : Z * Maps :=
  (TC_ACT_PIPE, (try_egress pkt now s).2).
End program.
