(* ===== verification/EnfVerdict.v ===== *)
(** * What the kernel program decides

    [installed] says that a slot holds the generation of a flattened policy;
    under it the bounded bit-set scan is the first match in that list, and the
    ingress verdict is: a live flow, or an allowing rule. *)
From S2P Require Export EnfDatapath.
From Stdlib Require Import ZArith Lia.
Local Open Scope Z_scope.

Section verdict.
Context {N : Ipv4NetApi} {NL : Ipv4NetLaws N} {T : LpmTrieApi} {TL : LpmTrieLaws T}.
Context {L : LruApi} {LL : LruLaws L}.

(** ** The scan is the first match *)

(** The packet in host order, from the loaded fields. *)
Definition host_packet (src dst proto dport : Z) : Packet :=
  {| pk_src := bswap32 src; pk_dst := bswap32 dst; pk_proto := proto; pk_dport := bswap16 dport |}.

Definition numbered (flat : list FlatRule) : Prop :=
  (length flat <= 256)%nat /\ forall i f, flat !! i = Some f -> fr_idx f = i.

Record installed (flat : list FlatRule) (slot : Z) (s : Maps) : Prop := {
  inst_numbered : numbered flat;
  inst_src : exists t, slot_get (GEN_SRC s) slot = Some t /\ holds flat Src t (distinct_side_cidrs flat Src);
  inst_dst : exists t, slot_get (GEN_DST s) slot = Some t /\ holds flat Dst t (distinct_side_cidrs flat Dst);
  inst_rules : exists rs, slot_get (GEN_RULES s) slot = Some rs /\
                 forall i f, flat !! i = Some f -> rs !! i = Some (rule_meta f);
  inst_meta : slot_get (GEN_META s) slot = Some (Z.of_nat (length flat))
}.

Fixpoint first_index (i : Z) (m : FlatRule -> bool) (l : list FlatRule) : option (Z * RuleMeta) :=
  match l with
  | [] => None
  | f :: l' => if m f then Some (i, rule_meta f) else first_index (i + 1) m l'
  end.

Lemma meta_matches_rule f proto dport :
  meta_matches (rule_meta f) proto dport =
  proto_matches (fr_proto f) proto && port_in (bswap16 dport) (fr_port_lo f, fr_port_hi f).
Proof.
  unfold meta_matches, rule_meta, port_in. simpl. f_equal.
  by destruct (fr_proto f); simpl; rewrite ?(Z.eqb_sym proto).
Qed.

Lemma lookup_bits_ok flat side t ps raw :
  holds flat side t ps -> 0 <= raw < 2 ^ 32 -> bits_ok (lookup_bits t raw).
Proof.
  intros H Hr. unfold lookup_bits. rewrite trie_get_spec by lia.
  pose proof (lpm_search_spec (trie_view t) (key_addr raw) 33) as Hs.
  destruct (lpm_search 33 (trie_view t) (key_addr raw)) as [v|]; [|done].
  destruct Hs as (k & _ & Hv & _). apply H in Hv as (p & _ & _ & ->). apply entry_bits_ok.
Qed.

(** The bit of rule [i] after intersecting both lookups. *)
Lemma bits_of_rule flat ts td src dst i f :
  numbered flat -> holds flat Src ts (distinct_side_cidrs flat Src) ->
  holds flat Dst td (distinct_side_cidrs flat Dst) ->
  0 <= src < 2 ^ 32 -> 0 <= dst < 2 ^ 32 -> flat !! i = Some f ->
  bit_get (bits_and (lookup_bits ts src) (lookup_bits td dst)) (Z.of_nat i) =
  existsb (net_hasb (bswap32 src)) (fr_src_cidrs f) && existsb (net_hasb (bswap32 dst)) (fr_dst_cidrs f).
Proof.
  intros [Hlen Hnum] Hts Htd Hsrc Hdst Hf.
  assert (0 <= Z.of_nat i < MAX_RULES) as Hi
    by (apply lookup_lt_Some in Hf; unfold MAX_RULES; lia).
  rewrite bit_get_and by (done || by eapply lookup_bits_ok).
  assert (forall side t raw, holds flat side t (distinct_side_cidrs flat side) -> 0 <= raw < 2 ^ 32 ->
    bit_get (lookup_bits t raw) (Z.of_nat i) = existsb (net_hasb (bswap32 raw)) (side_cidrs f side)) as H.
  { intros side t raw Ht Hr. apply eq_true_iff_eq.
    rewrite <- (bswap32_involutive raw) at 1 by done.
    rewrite (lookup_bits_spec flat side t (bswap32 raw)) by (done || apply bswap32_range).
    split; [|intros; exists f; split_and!; [by eapply list_elem_of_lookup_2|f_equal; by apply Hnum|done]].
    intros (g & [j Hg]%list_elem_of_lookup & Ei & Hc).
    rewrite (Hnum j g Hg) in Ei. apply Nat2Z.inj in Ei. by simplify_eq. }
  f_equal; [by apply (H Src)|by apply (H Dst)].
Qed.

Lemma scan_rules_first_index flat rs bits proto dport (m : FlatRule -> bool) n i :
  (forall j f, flat !! j = Some f -> rs !! j = Some (rule_meta f)) ->
  (forall j f, flat !! j = Some f ->
     m f = bit_get bits (Z.of_nat j) && meta_matches (rule_meta f) proto dport) ->
  (length flat <= i + n)%nat ->
  scan_rules n (Z.of_nat i) (Z.of_nat (length flat)) bits (Some rs) proto dport =
  first_index (Z.of_nat i) m (drop i flat).
Proof.
  intros Hrs Hm. revert i. induction n as [|n IH]; intros i Hn.
  { rewrite drop_ge by lia. done. }
  cbn [scan_rules]. destruct (Z.leb_spec (Z.of_nat (length flat)) (Z.of_nat i)).
  { rewrite drop_ge by lia. done. }
  destruct (lookup_lt_is_Some_2 flat i) as [f Hf]; [lia|].
  rewrite (drop_S flat f i Hf). cbn [first_index]. rewrite (Hm i f Hf).
  replace (Z.of_nat i + 1) with (Z.of_nat (S i)) by lia.
  destruct (bit_get bits (Z.of_nat i)); simpl; [|apply IH; lia].
  rewrite Nat2Z.id, (Hrs i f Hf).
  destruct (meta_matches (rule_meta f) proto dport); [done|]. apply IH. lia.
Qed.

Lemma scan_slot_first flat slot s src dst proto dport :
  installed flat slot s -> 0 <= src < 2 ^ 32 -> 0 <= dst < 2 ^ 32 ->
  scan_slot slot src dst proto dport s =
  first_index 0 (flat_matches (host_packet src dst proto dport)) flat.
Proof.
  intros [Hnum (ts & Ets & Hts) (td & Etd & Htd) (rs & Ers & Hrs) Emeta] Hsrc Hdst.
  assert (exists n, Z.to_nat MAX_RULES = n /\ n = 256%nat) as (n & En & Hn) by eauto.
  unfold scan_slot. rewrite En, Ets, Etd, Ers, Emeta. simpl.
  change (default zero_bits (trie_get ts 32 src)) with (lookup_bits ts src).
  change (default zero_bits (trie_get td 32 dst)) with (lookup_bits td dst).
  destruct Hnum as [Hlen Hidx]. rewrite Z.min_l by (unfold MAX_RULES; lia).
  rewrite (scan_rules_first_index flat rs _ proto dport
    (flat_matches (host_packet src dst proto dport)) n 0 Hrs).
  - by rewrite drop_0.
  - intros j f Hf.
    rewrite (bits_of_rule flat ts td src dst j f), meta_matches_rule, andb_assoc by done. done.
  - lia.
Qed.

(** The verdict of a scan result, and its agreement with [flat_verdict]. *)
Definition scan_action (m : option (Z * RuleMeta)) : Z :=
  match m with Some (_, meta) => rm_action meta | None => ACT_DENY end.

Lemma first_index_action i m flat :
  scan_action (first_index i m flat) =
  match first_match fr_action m flat with Allow => ACT_ALLOW | Deny => ACT_DENY end.
Proof.
  unfold first_match. revert i. induction flat as [|f flat IH]; intros i; simpl; [done|].
  destruct (m f); [unfold rule_meta; simpl; by destruct (fr_action f)|apply IH].
Qed.

Lemma first_index_lookup i m flat k meta :
  first_index (Z.of_nat i) m flat = Some (k, meta) ->
  exists j f, k = Z.of_nat (i + j) /\ flat !! j = Some f /\ m f = true /\ meta = rule_meta f /\
              forall j' f', (j' < j)%nat -> flat !! j' = Some f' -> m f' = false.
Proof.
  revert i. induction flat as [|f flat IH]; intros i; simpl; [done|].
  destruct (m f) eqn:E.
  - intros [= <- <-]. exists 0%nat, f. split_and!; [lia|done..|]. lia.
  - replace (Z.of_nat i + 1) with (Z.of_nat (S i)) by lia.
    intros (j & g & -> & Hg & Hm & -> & Hfst)%IH. exists (S j), g. split_and!; try done; [lia|].
    intros [|j'] f' Hj Hf'; simpl in Hf'; [congruence|]. apply (Hfst j'); [lia|done].
Qed.

(** ** State changes of the helpers *)

(** Everything a verdict reads, apart from the flow table. *)
Definition same_tables (s s' : Maps) : Prop :=
  ACTIVE s' = ACTIVE s /\ CONFIG s' = CONFIG s /\ GEN_SRC s' = GEN_SRC s /\
  GEN_DST s' = GEN_DST s /\ GEN_RULES s' = GEN_RULES s /\ GEN_META s' = GEN_META s.

#[export] Instance same_tables_preorder : PreOrder same_tables.
Proof.
  split.
  - by intros s.
  - intros s1 s2 s3 H1 H2. unfold same_tables in *. intuition congruence.
Qed.

Definition scan_allows (src dst proto dport : Z) (s : Maps) : bool :=
  scan_action (scan_slot (ACTIVE s) src dst proto dport s) =? ACT_ALLOW.

Lemma same_tables_scan s s' slot src dst proto dport :
  same_tables s s' -> scan_slot slot src dst proto dport s' = scan_slot slot src dst proto dport s.
Proof. intros (_ & _ & E1 & E2 & E3 & E4). unfold scan_slot. by rewrite E1, E2, E3, E4. Qed.

Lemma same_tables_allows s s' src dst proto dport :
  same_tables s s' -> scan_allows src dst proto dport s' = scan_allows src dst proto dport s.
Proof.
  intros H. unfold scan_allows. rewrite (same_tables_scan s s') by done. by destruct H as (-> & _).
Qed.

Lemma same_tables_timeout s s' proto : same_tables s s' -> timeout_ns proto s' = timeout_ns proto s.
Proof. intros (_ & E & _). unfold timeout_ns, cfg_or_default. by rewrite E. Qed.

(** From here on the scan is used through the lemmas above. *)
#[local] Opaque scan_slot.

(** The counter array after [bump idx]. *)
Definition bumped (idx : Z) (cs : list Z) : list Z :=
  match cs !! Z.to_nat idx with
  | Some c => <[Z.to_nat idx := wrap 64 (c + 1)]> cs
  | None => cs
  end.

Lemma bump_run idx s : bump idx s = (Ok tt, set_COUNTERS (bumped idx (COUNTERS s)) s).
Proof. unfold bump, modify, bumped. destruct (COUNTERS s !! Z.to_nat idx); [done|by destruct s]. Qed.

(** [s'] differs from [s] at most in the counters and the deny log. *)
Definition logged (s s' : Maps) : Prop := same_tables s s' /\ FLOWS s' = FLOWS s /\ RATE s' = RATE s.

#[export] Instance logged_preorder : PreOrder logged.
Proof.
  split.
  - by intros s.
  - intros s1 s2 s3 (H1 & ? & ?) (H2 & ? & ?). split_and!; [by etrans|congruence..].
Qed.

Lemma maybe_emit_deny_run ev now s :
  exists s', maybe_emit_deny ev now s = (Ok tt, s') /\ logged s s' /\ COUNTERS s' = COUNTERS s.
Proof.
  unfold maybe_emit_deny, mbind, prog_bind, log_allows.
  destruct (budget_would_allow (LOG_RULE_BUDGET s) _ _ now); simpl; [|by exists s].
  destruct (budget_would_allow (LOG_AGG_BUDGET s) _ _ now); simpl; [|by exists s].
  eexists. split; [reflexivity|]. done.
Qed.

Definition counter_of (m : option (Z * RuleMeta)) : Z :=
  match m with Some (i, _) => i | None => CTR_DEFAULT_DENY end.

Lemma scan_outcome_run m src dst proto dport now s :
  exists s', scan_outcome m src dst proto dport now s = (Ok (scan_action m), s') /\ logged s s' /\
             COUNTERS s' = bumped (counter_of m) (COUNTERS s).
Proof.
  unfold scan_outcome, mbind, prog_bind. destruct m as [[i meta]|]; rewrite bump_run; simpl.
  - destruct (rm_action meta =? ACT_DENY).
    + destruct (maybe_emit_deny_run (deny_event src dst proto dport i) now
        (set_COUNTERS (bumped i (COUNTERS s)) s)) as (s' & -> & Hl & Hc).
      exists s'. split_and!; [done|exact Hl|exact Hc].
    + eexists. split; [reflexivity|]. done.
  - destruct (maybe_emit_deny_run (deny_event src dst proto dport CTR_DEFAULT_DENY) now
      (set_COUNTERS (bumped CTR_DEFAULT_DENY (COUNTERS s)) s)) as (s' & -> & Hl & Hc).
    exists s'. split_and!; [done|exact Hl|exact Hc].
Qed.

(** ** Flow lookups *)

(** A recorded, unexpired flow. *)
Definition live (s : Maps) (k : FlowKey) (now : Z) : bool :=
  match FLOWS s !! k with
  | Some v => negb (timeout_ns (fk_proto k) s <? sat_sub now (last_seen_ns v))
  | None => false
  end.

Definition flows_after (s : Maps) (k : FlowKey) (now : Z) (refresh : bool) : gmap FlowKey FlowVal :=
  match FLOWS s !! k with
  | Some v =>
      if timeout_ns (fk_proto k) s <? sat_sub now (last_seen_ns v) then delete k (FLOWS s)
      else if refresh then <[k := {| last_seen_ns := now |}]> (FLOWS s) else FLOWS s
  | None => FLOWS s
  end.

Lemma flow_hit_run k proto now refresh s :
  proto = fk_proto k ->
  flow_hit k proto now refresh s = (Ok (live s k now), set_FLOWS (flows_after s k now refresh) s).
Proof.
  intros ->. unfold flow_hit, live, flows_after. destruct (FLOWS s !! k) as [v|]; [|by destruct s].
  destruct (timeout_ns (fk_proto k) s <? sat_sub now (last_seen_ns v)); [done|].
  by destruct refresh; [|destruct s].
Qed.

(** A miss removes at most the key it looked for, so other lookups are unaffected. *)
Lemma live_after_miss s k k' now refresh :
  live s k now = false -> live (set_FLOWS (flows_after s k now refresh) s) k' now = live s k' now.
Proof.
  unfold live at 1 2, flows_after. simpl. intros Hmiss.
  destruct (FLOWS s !! k) as [v|] eqn:Ek; [|done].
  apply negb_false_iff in Hmiss. rewrite Hmiss.
  destruct (decide (k = k')) as [<-|Hne].
  - rewrite lookup_delete_eq. unfold live. by rewrite Ek, Hmiss.
  - by rewrite lookup_delete_ne by done.
Qed.

Lemma same_tables_set_FLOWS m s : same_tables s (set_FLOWS m s).
Proof. done. Qed.

(** The packet's own 5-tuple, as both classifiers read it. *)
Definition packet_key (pkt : list Z) : option FlowKey :=
  '(src, dst, proto, ihl) ← ipv4_at pkt;
  let '(sport, dport) := ports_at pkt ihl proto in Some (mk_key src dst sport dport proto).

Definition packet_embedded (pkt : list Z) : option (option FlowKey) :=
  '(src, dst, proto, ihl) ← ipv4_at pkt; embedded_key pkt ihl proto.

Definition key_allowed (k : FlowKey) (s : Maps) : bool :=
  scan_allows (fk_src k) (fk_dst k) (fk_proto k) (fk_dport k) s.

(** The condition under which an ingress packet passes. *)
Definition ingress_passes (pkt : list Z) (now : Z) (s : Maps) : bool :=
  match packet_key pkt with
  | None => false
  | Some k =>
      live s (reverse_key k) now || live s k now ||
      match packet_embedded pkt with
      | None => false
      | Some ek => match ek with Some k' => live s k' now | None => false end || key_allowed k s
      end
  end.

Lemma reverse_of_proto k : fk_proto (reverse_key k) = fk_proto k.
Proof. unfold reverse_key. by destruct (fk_proto k =? 1). Qed.

(** The state a classifier may leave: same tables, and a flow table whose new keys are known. *)
Definition flows_within (ks : list FlowKey) (s s' : Maps) : Prop :=
  same_tables s s' /\ forall k, is_Some (FLOWS s' !! k) -> is_Some (FLOWS s !! k) \/ k ∈ ks.

Lemma flows_within_trans ks s1 s2 s3 :
  flows_within ks s1 s2 -> flows_within ks s2 s3 -> flows_within ks s1 s3.
Proof.
  intros [T1 F1] [T2 F2]. split; [by etrans|]. intros k [Hk|?]%F2; [by apply F1|by right].
Qed.

Lemma flows_within_weaken ks ks' s s' :
  (forall k, k ∈ ks -> k ∈ ks') -> flows_within ks s s' -> flows_within ks' s s'.
Proof. intros H [? F]. split; [done|]. intros k [?|?]%F; auto. Qed.

Lemma flow_hit_within s k now refresh :
  flows_within [] s (set_FLOWS (flows_after s k now refresh) s).
Proof.
  split; [done|]. intros k'. simpl. unfold flows_after. intros H. left. revert H.
  destruct (FLOWS s !! k) as [v|] eqn:Ek; [|done].
  destruct (timeout_ns (fk_proto k) s <? sat_sub now (last_seen_ns v)).
  - by intros [? [_ ?]%lookup_delete_Some].
  - destruct refresh; [|done]. intros [w Hw].
    apply lookup_insert_Some in Hw as [[<- _]|[_ ?]]; eauto.
Qed.

Lemma pass_flow_run s :
  pass_flow s = (Ok TC_ACT_PIPE, set_COUNTERS (bumped CTR_FLOW_HIT (COUNTERS s)) s).
Proof. unfold pass_flow, mbind, prog_bind. by rewrite bump_run. Qed.

#[local] Arguments pass_flow : simpl never.
#[local] Arguments scan_generation : simpl never.

Lemma insert_within s k v : flows_within [k] s (set_FLOWS (flows_insert k v (FLOWS s)) s).
Proof.
  split; [done|]. simpl. intros k' [w Hw].
  pose proof (lookup_weaken _ _ _ _ Hw (flows_insert_sub k v (FLOWS s))) as Hi.
  apply lookup_insert_Some in Hi as [[<- _]|[_ ?]]; [right; by left|left; eauto].
Qed.

Lemma logged_within s s' : logged s s' -> flows_within [] s s'.
Proof. intros (? & E & _). split; [done|]. intros k. rewrite E. auto. Qed.

Lemma ingress_rules_run k now s :
  exists s', ingress_rules k now s = (Ok (if key_allowed k s then TC_ACT_PIPE else TC_ACT_SHOT), s') /\
             flows_within (if key_allowed k s then [k] else []) s s'.
Proof.
  unfold ingress_rules, scan_generation, gets, mbind, prog_bind, key_allowed, scan_allows.
  destruct (scan_outcome_run (scan_slot (ACTIVE s) (fk_src k) (fk_dst k) (fk_proto k) (fk_dport k) s)
    (fk_src k) (fk_dst k) (fk_proto k) (fk_dport k) now s) as (s' & E & Hl & _). rewrite E.
  destruct (scan_action _ =? ACT_ALLOW); simpl.
  - eexists. split; [reflexivity|]. eapply flows_within_trans; [|apply insert_within].
    eapply flows_within_weaken; [|by apply logged_within]. by intros ? ?%elem_of_nil.
  - exists s'. split; [done|]. by apply logged_within.
Qed.

(** The keys an ingress packet may add to the flow table. *)
Definition ingress_adds (pkt : list Z) (s : Maps) : list FlowKey :=
  match packet_key pkt with
  | Some k => if key_allowed k s then [k] else []
  | None => []
  end.

Lemma try_ingress_run pkt now s :
  (exists s', aeth_ingress pkt now s = (if ingress_passes pkt now s then TC_ACT_PIPE else TC_ACT_SHOT, s') /\
              flows_within (ingress_adds pkt s) s s').
Proof.
  assert (forall s1 s2, flows_within [] s1 s2 -> flows_within (ingress_adds pkt s) s1 s2) as Hw0
    by (intros; eapply flows_within_weaken; [|done]; by intros ? ?%elem_of_nil).
  unfold aeth_ingress, try_ingress, ingress_passes, packet_embedded, ingress_adds, packet_key, lift,
    mbind, prog_bind in *.
  destruct (ipv4_at pkt) as [[[[src dst] proto] ihl]|]; simpl; [|exists s; split; [done|split; [done|by left]]].
  destruct (ports_at pkt ihl proto) as [sport dport] eqn:Ep. simpl in *. rewrite Ep in *.
  set (k := mk_key src dst sport dport proto) in *.
  rewrite flow_hit_run by (by rewrite reverse_of_proto).
  set (s1 := set_FLOWS (flows_after s (reverse_key k) now true) s) in *.
  assert (flows_within [] s s1) as W1 by apply flow_hit_within.
  destruct (live s (reverse_key k) now) eqn:E1; cbn beta iota.
  { rewrite pass_flow_run. eexists. split; [reflexivity|]. by apply Hw0. }
  rewrite (flow_hit_run k) by done.
  assert (live s1 k now = live s k now) as El1 by (by apply live_after_miss). rewrite El1.
  set (s2 := set_FLOWS (flows_after s1 k now true) s1) in *.
  assert (flows_within [] s s2) as W2
    by (eapply flows_within_trans; [exact W1|apply flow_hit_within]).
  destruct (live s k now) eqn:E2; cbn beta iota.
  { rewrite pass_flow_run. eexists. split; [reflexivity|]. by apply Hw0. }
  destruct (embedded_key pkt ihl proto) as [ek|] eqn:Eek; [|exists s2; split; [done|by apply Hw0]].
  assert (forall s3, flows_within [] s s3 -> exists s', match ingress_rules k now s3 with
      | (Ok v, s') => (v, s') | (Err _, s') => (TC_ACT_SHOT, s') end =
      (if key_allowed k s then TC_ACT_PIPE else TC_ACT_SHOT, s') /\
      flows_within (if key_allowed k s then [k] else []) s s') as Htail.
  { intros s3 W3. destruct (ingress_rules_run k now s3) as (s' & E & W'). rewrite E.
    assert (key_allowed k s3 = key_allowed k s) as Ea by (apply same_tables_allows, W3).
    rewrite Ea in *. exists s'. split; [done|]. eapply flows_within_trans; [|exact W'].
    by apply Hw0. }
  destruct ek as [k'|]; cbn beta iota.
  - rewrite flow_hit_run by done.
    assert (live s2 k' now = live s k' now) as El2.
    { unfold s2. rewrite live_after_miss by congruence. by apply live_after_miss. }
    rewrite El2. destruct (live s k' now); cbn beta iota.
    + rewrite pass_flow_run. eexists. split; [reflexivity|].
      eapply flows_within_trans; [|apply Hw0, flow_hit_within]. by apply Hw0.
    + apply Htail. eapply flows_within_trans; [exact W2|apply flow_hit_within].
  - by apply Htail.
Qed.

(** ** Egress *)

Lemma rate_allows_run src now s :
  exists b s', rate_allows src now s = (Ok b, s') /\ same_tables s s' /\ FLOWS s' = FLOWS s.
Proof. unfold rate_allows. repeat case_match; do 2 eexists; (split; [reflexivity|done]). Qed.

(** Whether an egress packet's flow is in the table afterwards. *)
Definition egress_records (k : FlowKey) (now : Z) (s : Maps) : bool :=
  live s k now || match rate_allows (fk_src k) now s with (Ok b, _) => b | (Err _, _) => false end.

Lemma rate_allows_flows src now s m :
  fst (rate_allows src now (set_FLOWS m s)) = fst (rate_allows src now s).
Proof. unfold rate_allows, rate_cap, cfg_or_default. simpl. repeat case_match; simplify_eq; done. Qed.

Lemma try_egress_run pkt now s k :
  packet_key pkt = Some k ->
  let s' := (aeth_egress pkt now s).2 in
  flows_within [k] s s' /\
  (egress_records k now s = true -> FLOWS s' !! k = Some {| last_seen_ns := now |}).
Proof.
  unfold packet_key, aeth_egress, try_egress, egress_records, lift, mbind, prog_bind, gets.
  destruct (ipv4_at pkt) as [[[[src dst] proto] ihl]|]; simpl; [|done].
  destruct (ports_at pkt ihl proto) as [sport dport]. intros [= <-].
  set (k := mk_key src dst sport dport proto).
  assert (forall s1, flows_within [k] s s1 -> fst (rate_allows src now s1) = fst (rate_allows src now s) ->
    let s2 := match rate_allows src now s1 with
              | (Ok true, s') => (Ok tt, set_FLOWS (flows_insert k {| last_seen_ns := now |} (FLOWS s')) s')
              | (Ok false, s') => (Ok tt, s')
              | (Err e, s') => (Err e, s')
              end.2 in
    flows_within [k] s s2 /\
    (match rate_allows src now s with (Ok b, _) => b | (Err _, _) => false end = true ->
       FLOWS s2 !! k = Some {| last_seen_ns := now |})) as Hrec.
  { intros s1 W1 E. destruct (rate_allows_run src now s1) as (b & s2 & E2 & Ht & Hf).
    rewrite E2 in *. destruct (rate_allows src now s) as [r s3]. simpl in E. subst r.
    assert (flows_within [k] s1 s2) as W2 by (split; [done|]; rewrite Hf; auto).
    destruct b; simpl; (split; [|try done]).
    - eapply flows_within_trans; [|apply insert_within]. by eapply flows_within_trans.
    - intros _. apply flows_insert_key.
    - by eapply flows_within_trans. }
  assert (flows_within [k] s s) as W0 by (split; [done|by left]).
  unfold live. change (fk_src k) with src. change (fk_proto k) with proto.
  destruct (FLOWS s !! k) as [v|] eqn:Ek; simpl.
  - destruct (timeout_ns proto s <? sat_sub now (last_seen_ns v)) eqn:Es; simpl.
    + specialize (Hrec (set_FLOWS (delete k (FLOWS s)) s)).
      destruct Hrec as [H1 H2]; [| |].
      * split; [done|]. simpl. intros k' [w [_ Hw]%lookup_delete_Some]. left; eauto.
      * apply rate_allows_flows.
      * simpl in *. destruct (rate_allows src now (set_FLOWS _ s)) as [[[]|] ?]; done.
    + split.
      * split; [done|]. simpl. intros k' [w Hw]. apply lookup_insert_Some in Hw as [[<- _]|[_ ?]];
          [right; by left|left; eauto].
      * intros _. by rewrite lookup_insert_eq.
  - destruct (Hrec s W0 eq_refl) as [H1 H2].
    destruct (rate_allows src now s) as [[[]|] ?]; simpl in *; done.
Qed.

Lemma reverse_key_involutive k : reverse_key (reverse_key k) = k.
Proof.
  unfold reverse_key. destruct k as [a b c d p]. cbn. destruct (p =? 1) eqn:E; cbn; by rewrite E.
Qed.

Lemma aeth_egress_within pkt now s :
  flows_within (match packet_key pkt with Some k => [k] | None => [] end) s (aeth_egress pkt now s).2.
Proof.
  destruct (packet_key pkt) as [k|] eqn:E; [by apply try_egress_run|].
  unfold packet_key, aeth_egress, try_egress, lift, mbind, prog_bind in *.
  destruct (ipv4_at pkt) as [[[[src dst] proto] ihl]|]; simpl in *; [|by split; [|left]].
  by destruct (ports_at pkt ihl proto).
Qed.

(** ** Traffic *)

Inductive event := Ingress (pkt : list Z) (now : Z) | Egress (pkt : list Z) (now : Z).

(** One classifier run; the output is the tc verdict. *)
Definition traffic_step (s : Maps) (ev : event) : Maps * Z :=
  match ev with
  | Ingress pkt now => let '(v, s') := aeth_ingress pkt now s in (s', v)
  | Egress pkt now => let '(v, s') := aeth_egress pkt now s in (s', v)
  end.

(** [k] was sent from inside, or allowed in by a rule, by one of the events. *)
Definition opened (s0 : Maps) (evs : list event) (k : FlowKey) : Prop :=
  (exists pkt now, Egress pkt now ∈ evs /\ packet_key pkt = Some k) \/
  (exists pkt now, Ingress pkt now ∈ evs /\ packet_key pkt = Some k) /\ key_allowed k s0 = true.

Lemma opened_app s0 evs1 evs2 k : opened s0 evs1 k -> opened s0 (evs1 ++ evs2) k.
Proof.
  intros [(p & n & ? & ?)|[(p & n & ? & ?) ?]]; [left|right; split; [|done]];
    exists p, n; (split; [apply elem_of_app; by left|done]).
Qed.

Lemma traffic_tables s evs s' os : run traffic_step s evs = (s', os) -> same_tables s s'.
Proof.
  intros E. change s' with (s', os).1. rewrite <- E.
  apply (run_invariant traffic_step (same_tables s)); [|done].
  intros s1 ev H. etrans; [exact H|]. destruct ev as [pkt now|pkt now]; simpl.
  - destruct (try_ingress_run pkt now s1) as (s2 & -> & [? _]). done.
  - apply (aeth_egress_within pkt now s1).
Qed.

Lemma traffic_opened s evs s' os k :
  run traffic_step s evs = (s', os) -> FLOWS s = ∅ -> is_Some (FLOWS s' !! k) -> opened s evs k.
Proof.
  revert s' os. induction evs as [|ev evs IH] using rev_ind; intros s' os E H0 Hk.
  { simpl in E. injection E as <- _. rewrite H0, lookup_empty in Hk. by destruct Hk. }
  rewrite run_app in E. destruct (run traffic_step s evs) as [s1 os1] eqn:E1.
  pose proof (traffic_tables _ _ _ _ E1) as Ht. simpl in E.
  destruct ev as [pkt now|pkt now]; simpl in E.
  - destruct (try_ingress_run pkt now s1) as (s2 & E2 & [_ W]). rewrite E2 in E. injection E as <- _.
    apply W in Hk as [Hk|Hk]; [by eapply opened_app, IH|].
    unfold ingress_adds in Hk. destruct (packet_key pkt) as [k'|] eqn:Ek; [|by apply elem_of_nil in Hk].
    destruct (key_allowed k' s1) eqn:Ea; [|by apply elem_of_nil in Hk].
    apply list_elem_of_singleton in Hk as ->. right. split.
    + exists pkt, now. rewrite elem_of_app, list_elem_of_singleton. auto.
    + rewrite <- Ea. symmetry. by apply same_tables_allows.
  - injection E as <- _. apply (aeth_egress_within pkt now s1) in Hk as [Hk|Hk]; [by eapply opened_app, IH|].
    destruct (packet_key pkt) as [k'|] eqn:Ek; [|by apply elem_of_nil in Hk].
    apply list_elem_of_singleton in Hk as ->. left. exists pkt, now.
    rewrite elem_of_app, list_elem_of_singleton. auto.
Qed.

Lemma ingress_passes_cases pkt now s :
  (aeth_ingress pkt now s).1 = TC_ACT_PIPE ->
  exists k, packet_key pkt = Some k /\
    (key_allowed k s = true \/ live s (reverse_key k) now = true \/ live s k now = true \/
     exists k', packet_embedded pkt = Some (Some k') /\ live s k' now = true).
Proof.
  destruct (try_ingress_run pkt now s) as (s' & E & _). rewrite E. cbn [fst]. intros Hp.
  assert (ingress_passes pkt now s = true) as H by (by destruct (ingress_passes pkt now s)).
  clear -H. unfold ingress_passes in H. destruct (packet_key pkt) as [k|]; [|done]. exists k.
  split; [done|]. apply orb_true_iff in H as [H|H]; [apply orb_true_iff in H as [H|H]; auto|].
  destruct (packet_embedded pkt) as [[k'|]|]; [|auto|done].
  apply orb_true_iff in H as [H|H]; [|auto]. right; right; right. by exists k'.
Qed.

(** ** Properties *)

(** C25: With the generation of a flattened policy in the active slot, evaluating a packet
    returns the action of the first rule of the list that covers it, deny when there is
    none; it adds one (mod 2^64) to that rule's counter, or to the default-deny counter,
    and changes nothing else but the deny log. *)
Theorem scan_generation_first_match flat s src dst proto dport now :
  installed flat (ACTIVE s) s -> 0 <= src < 2 ^ 32 -> 0 <= dst < 2 ^ 32 ->
  let hit := first_index 0 (flat_matches (host_packet src dst proto dport)) flat in
  exists s', scan_generation src dst proto dport now s =
      (Ok (match flat_verdict flat (host_packet src dst proto dport) with
           | Allow => ACT_ALLOW | Deny => ACT_DENY end), s') /\
    COUNTERS s' = bumped (counter_of hit) (COUNTERS s) /\
    FLOWS s' = FLOWS s /\ RATE s' = RATE s /\ same_tables s s'.
Proof.
  intros Hinst Hsrc Hdst hit. unfold scan_generation, gets, mbind, prog_bind.
  rewrite (scan_slot_first flat) by done. fold hit.
  destruct (scan_outcome_run hit src dst proto dport now s) as (s' & E & (Ht & Hf & Hr) & Hc).
  exists s'. rewrite E. unfold hit at 1. rewrite first_index_action. by split_and!.
Qed.

(** C26: The ingress verdict, for every packet, time and state: it passes exactly when it
    parses and is a reply to or a continuation of a live flow, or parses as carrying an
    ICMP error about one, or its rules allow it; everything else, unparseable packets
    included, is dropped. *)
Theorem ingress_verdict pkt now s :
  (aeth_ingress pkt now s).1 =
  match packet_key pkt, packet_embedded pkt with
  | Some k, Some (Some k') =>
      if live s (reverse_key k) now || live s k now || live s k' now || key_allowed k s
      then TC_ACT_PIPE else TC_ACT_SHOT
  | Some k, Some None =>
      if live s (reverse_key k) now || live s k now || key_allowed k s
      then TC_ACT_PIPE else TC_ACT_SHOT
  | Some k, None =>
      if live s (reverse_key k) now || live s k now then TC_ACT_PIPE else TC_ACT_SHOT
  | None, _ => TC_ACT_SHOT
  end.
Proof.
  destruct (try_ingress_run pkt now s) as (s' & E & _). rewrite E. simpl. unfold ingress_passes.
  destruct (packet_key pkt) as [k|]; [|done].
  destruct (packet_embedded pkt) as [[k'|]|]; by rewrite ?orb_false_l, ?orb_false_r, ?orb_assoc.
Qed.

(** C5: No unsolicited traffic: starting from an empty flow table, after any sequence of
    ingress and egress packets, an ingress packet passes only if the rules allow it, or
    its 5-tuple, its reverse, or the original packet inside its ICMP error was sent from
    inside or let in by a rule before. *)
Theorem unsolicited_ingress_dropped s0 evs s os pkt now :
  run traffic_step s0 evs = (s, os) -> FLOWS s0 = ∅ ->
  (aeth_ingress pkt now s).1 = TC_ACT_PIPE ->
  exists k, packet_key pkt = Some k /\
    (key_allowed k s0 = true \/ opened s0 evs (reverse_key k) \/ opened s0 evs k \/
     exists k', packet_embedded pkt = Some (Some k') /\ opened s0 evs k').
Proof.
  intros Hrun H0 Hpass. destruct (ingress_passes_cases pkt now s Hpass) as (k & Hk & H).
  exists k. split; [done|].
  assert (forall k', live s k' now = true -> opened s0 evs k') as Hlive.
  { intros k' Hl. eapply traffic_opened; [done..|]. unfold live in Hl.
    destruct (FLOWS s !! k'); [eauto|done]. }
  destruct H as [H|[H|[H|(k' & Hk' & H)]]]; [left|right; left; auto|right; right; left; auto|].
  - rewrite <- H. symmetry. apply same_tables_allows. by eapply traffic_tables.
  - right; right; right. exists k'. auto.
Qed.

(** C27: Replies get back in: once an outbound packet has been recorded (its flow was live,
    or its source is within its rate cap), a packet with the reverse 5-tuple, ICMP echo
    replies included, that arrives within the protocol's idle timeout passes whatever the
    rules say, and restarts the timeout. *)
Theorem reply_of_outbound_flow_passes req rep k t0 t1 s :
  packet_key req = Some k -> egress_records k t0 s = true ->
  packet_key rep = Some (reverse_key k) ->
  t0 <= t1 <= t0 + timeout_ns (fk_proto k) s ->
  let s1 := (aeth_egress req t0 s).2 in
  (aeth_ingress rep t1 s1).1 = TC_ACT_PIPE /\
  FLOWS (aeth_ingress rep t1 s1).2 !! k = Some {| last_seen_ns := t1 |}.
Proof.
  intros Hreq Hrec Hrep Ht s1. destruct (try_egress_run req t0 s k Hreq) as [[Htab _] Hs1].
  specialize (Hs1 Hrec). fold s1 in Hs1, Htab.
  assert (timeout_ns (fk_proto k) s1 = timeout_ns (fk_proto k) s) as Eto
    by (by apply same_tables_timeout).
  assert (live s1 k t1 = true) as Hlive.
  { unfold live. rewrite Hs1, Eto. apply negb_true_iff, Z.ltb_ge. unfold sat_sub. simpl. lia. }
  unfold packet_key in Hrep. unfold aeth_ingress, try_ingress, lift, mbind, prog_bind.
  destruct (ipv4_at rep) as [[[[src dst] proto] ihl]|]; [|done]. simpl in Hrep.
  destruct (ports_at rep ihl proto) as [sport dport]. injection Hrep as Hrep. rewrite Hrep.
  rewrite reverse_key_involutive. rewrite flow_hit_run.
  2: { change proto with (fk_proto (mk_key src dst sport dport proto)).
       by rewrite Hrep, reverse_of_proto. }
  rewrite Hlive. rewrite pass_flow_run. split; [done|]. simpl.
  unfold flows_after. rewrite Hs1. unfold live in Hlive. rewrite Hs1 in Hlive.
  apply negb_true_iff in Hlive. rewrite Hlive. apply lookup_insert_eq.
Qed.
End verdict.

(** ** Concrete runs *)

#[local] Transparent scan_slot.

(** The maps as loaded: nothing installed, nothing recorded, no configuration. *)
Definition boot_maps {T : LpmTrieApi} : Maps :=
  let no_rate := {| window_start_ns := 0; rv_count := 0 |} in
  {| COUNTERS := replicate COUNTERS_LEN 0; ACTIVE := 0; FLOWS := ∅; RATE := ∅;
     CONFIG := replicate CONFIG_LEN 0; DENY_RB := [];
     LOG_RULE_BUDGET := replicate 257 no_rate; LOG_AGG_BUDGET := [no_rate];
     GEN_SRC := [None; None]; GEN_DST := [None; None]; GEN_RULES := [None; None];
     GEN_META := [None; None] |}.

Definition be32 (x : Z) : list Z := [x / 16777216 mod 256; x / 65536 mod 256; x / 256 mod 256; x mod 256].
Definition be16 (x : Z) : list Z := [x / 256 mod 256; x mod 256].

(** An IPv4 header without options, then the first bytes of the transport header. *)
Definition mk_packet (src dst proto : Z) (l4 : list Z) : list Z :=
  [69; 0; 0; 40; 0; 0; 0; 0; 64; proto; 0; 0] ++ be32 src ++ be32 dst ++ l4.

Definition tcp_packet (src dst sport dport : Z) : list Z :=
  mk_packet src dst 6 (be16 sport ++ be16 dport ++ [0; 0; 0; 0]).

(** An ICMP echo: request (8) or reply (0), identifier [id]. *)
Definition icmp_echo (itype src dst id : Z) : list Z :=
  mk_packet src dst 1 ([itype; 0; 170; 187] ++ be16 id ++ [0; 1]).

Definition inside : Z := 167838211.
Definition outside : Z := 167968775.

Definition the_key (pkt : list Z) : FlowKey := default (mk_key 0 0 0 0 0) (packet_key pkt).

Lemma unsolicited_ingress_dropped_witness :
  exists k, packet_key (tcp_packet outside inside 443 5555) = Some k.
Proof.
  set (s0 := @boot_maps MapTrie).
  set (evs := [Egress (tcp_packet inside outside 5555 443) 5]).
  destruct (unsolicited_ingress_dropped (L := PlainLru) s0 evs
    (run (traffic_step (L := PlainLru)) s0 evs).1 (run (traffic_step (L := PlainLru)) s0 evs).2
    (tcp_packet outside inside 443 5555) 6) as (k & Hk & _);
    [by destruct (run _ s0 evs)|reflexivity|vm_compute; reflexivity|].
  exists k. exact Hk.
Defined.

Lemma reply_of_outbound_flow_passes_witness :
  (aeth_ingress (L := PlainLru) (icmp_echo 0 outside inside 77) 9
     (aeth_egress (L := PlainLru) (icmp_echo 8 inside outside 77) 5 (@boot_maps MapTrie)).2).1 = TC_ACT_PIPE.
Proof.
  apply (reply_of_outbound_flow_passes (L := PlainLru) (icmp_echo 8 inside outside 77)
    (icmp_echo 0 outside inside 77) (the_key (icmp_echo 8 inside outside 77)) 5 9 (@boot_maps MapTrie));
    [vm_compute; reflexivity|vm_compute; reflexivity|vm_compute; reflexivity|vm_compute; split; discriminate].
Defined.

Lemma ingress_verdict_witness :
  (aeth_ingress (L := PlainLru) [] 3 (@boot_maps MapTrie)).1 = TC_ACT_SHOT.
Proof.
  rewrite (ingress_verdict (L := PlainLru) [] 3 (@boot_maps MapTrie)). vm_compute. reflexivity.
Defined.
