(* ===== verification/EnfRate.v ===== *)
(** * Rolling-window budgets of the kernel program

    The egress rate cap and the two deny-log budgets are the same bucket: a
    window start and a count.  The window is not sliding, so the bound over an
    arbitrary one-second interval is twice the cap. *)
From S2P Require Export EnfVerdict.
From Stdlib Require Import ZArith Lia.
Local Open Scope Z_scope.

(** One attempt against a bucket; [None] is a slot never seen. *)
Definition bucket_step (cap : Z) (r : option RateVal) (now : Z) : option RateVal * bool :=
  match r with
  | None => (Some {| window_start_ns := now; rv_count := 1 |}, true)
  | Some r =>
      if RATE_WINDOW_NS <? sat_sub now (window_start_ns r) then
        (Some {| window_start_ns := now; rv_count := 1 |}, true)
      else if rv_count r <? cap then
        (Some {| window_start_ns := window_start_ns r; rv_count := sat_add 32 (rv_count r) 1 |}, true)
      else (Some r, false)
  end.

Definition grants (bs : list bool) : Z := Z.of_nat (length (filter (fun b => b = true) bs)).

Lemma grants_cons b bs : grants (b :: bs) = (if b then 1 else 0) + grants bs.
Proof. unfold grants. rewrite filter_cons. destruct b; case_decide; try done; simpl length; lia. Qed.

Lemma grants_nonneg bs : 0 <= grants bs.
Proof. unfold grants. lia. Qed.

(** Times that stay within one window of [t]. *)
Definition within (t : Z) (ts : list Z) : Prop := Forall (fun x => t <= x <= t + RATE_WINDOW_NS) ts.

(** While the window does not elapse, only the rest of the cap is granted. *)
Lemma bucket_no_reset cap r ts :
  0 <= cap < 2 ^ 32 -> Forall (fun x => x - window_start_ns r <= RATE_WINDOW_NS) ts ->
  grants (run (bucket_step cap) (Some r) ts).2 <= Z.max 0 (cap - rv_count r).
Proof.
  intros Hcap. revert r. induction ts as [|t ts IH]; intros r H; [unfold grants; simpl; lia|].
  inversion_clear H as [|? ? Ht Hts]. simpl.
  destruct (Z.ltb_spec RATE_WINDOW_NS (sat_sub t (window_start_ns r))) as [Hs|_];
    [unfold sat_sub, RATE_WINDOW_NS in *; lia|].
  destruct (Z.ltb_spec (rv_count r) cap).
  - set (r' := {| window_start_ns := window_start_ns r; rv_count := sat_add 32 (rv_count r) 1 |}).
    specialize (IH r' Hts). destruct (run (bucket_step cap) (Some r') ts) as [r2 bs]. simpl in *.
    rewrite grants_cons. unfold sat_add in IH. lia.
  - specialize (IH r Hts). destruct (run (bucket_step cap) (Some r) ts) as [r2 bs]. simpl in *.
    rewrite grants_cons. lia.
Qed.

(** From a fresh window started at [t]. *)
Lemma bucket_fresh cap t ts :
  0 <= cap < 2 ^ 32 -> within t ts ->
  1 + grants (run (bucket_step cap) (Some {| window_start_ns := t; rv_count := 1 |}) ts).2 <= Z.max 1 cap.
Proof.
  intros Hcap H.
  pose proof (bucket_no_reset cap {| window_start_ns := t; rv_count := 1 |} ts Hcap) as Hb.
  simpl in Hb. specialize (Hb ltac:(eapply list.Forall_impl; [exact H|]; simpl; lia)). lia.
Qed.

Fixpoint sorted_times (ts : list Z) : Prop :=
  match ts with [] => True | t :: ts' => Forall (fun x => t <= x) ts' /\ sorted_times ts' end.

Lemma sublist_Forall (P : Z -> Prop) l1 l2 : sublist l1 l2 -> Forall P l2 -> Forall P l1.
Proof.
  intros Hs H. rewrite list.Forall_forall in *. intros x Hx. apply H.
  eapply elem_of_submseteq; [exact Hx|]. by apply sublist_submseteq.
Qed.

Lemma sorted_times_sublist l1 l2 : sublist l1 l2 -> sorted_times l2 -> sorted_times l1.
Proof.
  induction 1 as [|x l1 l2 Hs IH|x l1 l2 Hs IH]; simpl; [done| |tauto].
  intros [? ?]. split; [by eapply sublist_Forall|auto].
Qed.

Definition bucket_count (r : option RateVal) : Z := match r with Some r => rv_count r | None => 0 end.

(** At most one reset fits in an interval of one window. *)
Lemma bucket_bound cap r t0 ts :
  0 <= cap < 2 ^ 32 -> sorted_times ts -> within t0 ts ->
  grants (run (bucket_step cap) r ts).2 <= Z.max 0 (cap - bucket_count r) + Z.max 1 cap.
Proof.
  intros Hcap. revert r. induction ts as [|t ts IH]; intros r Hsort Hin; [unfold grants; simpl; lia|].
  destruct Hsort as [Hle Hsort]. inversion_clear Hin as [|? ? Ht Hts].
  assert (1 + grants (run (bucket_step cap) (Some {| window_start_ns := t; rv_count := 1 |}) ts).2
          <= Z.max 1 cap) as Hfresh.
  { apply bucket_fresh; [done|]. apply list.Forall_forall. intros x Hx.
    rewrite list.Forall_forall in Hts, Hle. specialize (Hts x Hx). specialize (Hle x Hx). lia. }
  destruct r as [r|]; simpl.
  - destruct (Z.ltb_spec RATE_WINDOW_NS (sat_sub t (window_start_ns r))).
    + destruct (run (bucket_step cap) _ ts) as [r2 bs]. simpl in *. rewrite grants_cons. lia.
    + destruct (Z.ltb_spec (rv_count r) cap).
      * set (r' := {| window_start_ns := window_start_ns r; rv_count := sat_add 32 (rv_count r) 1 |}).
        specialize (IH (Some r') Hsort Hts). destruct (run (bucket_step cap) (Some r') ts) as [r2 bs].
        simpl in *. rewrite grants_cons. unfold sat_add in IH. lia.
      * specialize (IH (Some r) Hsort Hts). destruct (run (bucket_step cap) (Some r) ts) as [r2 bs].
        simpl in *. rewrite grants_cons. lia.
  - destruct (run (bucket_step cap) _ ts) as [r2 bs]. simpl in *. rewrite grants_cons. lia.
Qed.

Section rates.
Context {N : Ipv4NetApi} {T : LpmTrieApi} {L : LruApi} {LL : LruLaws L}.

(** Attempts of one source at the times [ts]: what [try_egress] asks before each new flow. *)
Definition rate_step (src : Z) (s : Maps) (now : Z) : Maps * bool :=
  match rate_allows src now s with (Ok b, s') => (s', b) | (Err _, s') => (s', false) end.

Lemma rate_step_bucket src s now :
  (RATE (rate_step src s now).1 !! src, (rate_step src s now).2) =
    bucket_step (rate_cap s) (RATE s !! src) now /\
  rate_cap (rate_step src s now).1 = rate_cap s.
Proof.
  unfold rate_step, rate_allows, bucket_step. destruct (RATE s !! src) as [r|] eqn:E; simpl.
  - destruct (RATE_WINDOW_NS <? _); simpl; [by rewrite lookup_insert_eq|].
    destruct (rv_count r <? rate_cap s); simpl; [by rewrite lookup_insert_eq|by rewrite E].
  - by rewrite rate_insert_key.
Qed.

Lemma rate_run_bucket src s ts :
  (run (rate_step src) s ts).2 = (run (bucket_step (rate_cap s)) (RATE s !! src) ts).2.
Proof.
  revert s. induction ts as [|t ts IH]; intros s; [done|]. cbn [run].
  destruct (rate_step_bucket src s t) as [E1 E2]. destruct (rate_step src s t) as [s1 b].
  cbn [fst snd] in E1, E2. rewrite <- E1. specialize (IH s1). rewrite E2 in IH.
  destruct (run (rate_step src) s1 ts), (run (bucket_step (rate_cap s)) (RATE s1 !! src) ts).
  simpl in *. by rewrite IH.
Qed.

(** ** The deny log *)

Definition agg_cap (s : Maps) : Z := wrap 32 (cfg_or_default CFG_LOG_AGGREGATE DEFAULT_LOG_AGGREGATE s).
Definition rule_log_cap (s : Maps) : Z := wrap 32 (cfg_or_default CFG_LOG_PER_RULE DEFAULT_LOG_PER_RULE s).

Lemma budget_bucket arr idx cap now r :
  arr !! Z.to_nat idx = Some r ->
  budget_would_allow arr idx cap now = (bucket_step cap (Some r) now).2 /\
  (budget_would_allow arr idx cap now = true ->
   budget_commit arr idx now !! Z.to_nat idx = (bucket_step cap (Some r) now).1).
Proof.
  intros E. unfold budget_would_allow, budget_commit, bucket_step. rewrite E.
  pose proof (lookup_lt_Some _ _ _ E).
  destruct (RATE_WINDOW_NS <? sat_sub now (window_start_ns r)); simpl.
  - split; [done|]. intros _. by rewrite list_lookup_insert_eq.
  - destruct (rv_count r <? cap); simpl; [|done]. split; [done|]. intros _.
    by rewrite list_lookup_insert_eq.
Qed.

(** Log attempts: (rule index, time). *)
Definition log_step (s : Maps) (a : Z * Z) : Maps * bool :=
  match log_allows a.1 a.2 s with (Ok b, s') => (s', b) | (Err _, s') => (s', false) end.

Lemma log_step_caps s a : agg_cap (log_step s a).1 = agg_cap s /\ rule_log_cap (log_step s a).1 = rule_log_cap s.
Proof. unfold log_step, log_allows. repeat case_match; simplify_eq; done. Qed.

(** Refused attempts leave both budgets alone; granted ones charge both. *)
Lemma log_step_spec s idx now :
  let b := budget_would_allow (LOG_RULE_BUDGET s) idx (rule_log_cap s) now
           && budget_would_allow (LOG_AGG_BUDGET s) 0 (agg_cap s) now in
  log_step s (idx, now) =
    (if b then set_log (DENY_RB s) (budget_commit (LOG_RULE_BUDGET s) idx now)
                 (budget_commit (LOG_AGG_BUDGET s) 0 now) s
     else s, b).
Proof.
  unfold log_step, log_allows, rule_log_cap, agg_cap. simpl.
  destruct (budget_would_allow (LOG_RULE_BUDGET s) _ _ _); simpl; [|done].
  by destruct (budget_would_allow (LOG_AGG_BUDGET s) _ _ _).
Qed.

(** The granted log attempts are grants of the aggregate bucket at some of the times. *)
Lemma log_run_agg s r atts :
  LOG_AGG_BUDGET s = [r] ->
  exists ts, sublist ts (map snd atts) /\
    grants (run log_step s atts).2 = grants (run (bucket_step (agg_cap s)) (Some r) ts).2.
Proof.
  revert s r. induction atts as [|[idx now] atts IH]; intros s r Hr; [by exists []|].
  cbn [run]. pose proof (log_step_caps s (idx, now)) as [Ec _]. rewrite log_step_spec in *.
  destruct (budget_bucket (LOG_AGG_BUDGET s) 0 (agg_cap s) now r) as [Ea Ecommit]; [by rewrite Hr|].
  destruct (budget_would_allow (LOG_RULE_BUDGET s) idx (rule_log_cap s) now); cbn [andb] in *.
  2: { destruct (IH s r Hr) as (ts & Hts & E). exists ts. split; [by apply sublist_cons|].
       destruct (run log_step s atts). simpl in *. by rewrite grants_cons. }
  destruct (budget_would_allow (LOG_AGG_BUDGET s) 0 (agg_cap s) now).
  - specialize (Ecommit eq_refl).
    destruct (bucket_step (agg_cap s) (Some r) now) as [r' b'] eqn:Eb. simpl in Ea. subst b'.
    assert (exists r1, r' = Some r1) as (r1 & ->)
      by (unfold bucket_step in Eb; repeat case_match; simplify_eq; eauto).
    set (s1 := set_log _ _ _ s) in *.
    assert (LOG_AGG_BUDGET s1 = [r1]) as Hr1.
    { unfold s1. simpl. rewrite Hr in *. unfold budget_commit in *. simpl in *. congruence. }
    destruct (IH s1 r1 Hr1) as (ts & Hts & E). exists (now :: ts). split; [by apply sublist_skip|].
    cbn [run]. rewrite Eb. simpl in Ec. rewrite Ec in E.
    destruct (run log_step s1 atts), (run (bucket_step (agg_cap s)) (Some r1) ts).
    simpl in *. by rewrite !grants_cons, E.
  - destruct (IH s r Hr) as (ts & Hts & E). exists ts. split; [by apply sublist_cons|].
    destruct (run log_step s atts). simpl in *. by rewrite grants_cons.
Qed.

(** ** Properties *)


(** The deny log cannot flood: over any interleaving of rules, the events emitted in
    one second number at most twice the aggregate cap; an attempt refused by either budget
    charges neither. *)
Theorem deny_log_bounded s r t0 atts :
  LOG_AGG_BUDGET s = [r] -> 0 <= rv_count r -> sorted_times (map snd atts) -> within t0 (map snd atts) ->
  grants (run log_step s atts).2 <= 2 * Z.max 1 (agg_cap s) /\
  forall a, (log_step s a).2 = false -> (log_step s a).1 = s.
Proof.
  intros Hr Hc Hsort Hin. split.
  - destruct (log_run_agg s r atts Hr) as (ts & Hts & ->).
    assert (0 <= agg_cap s < 2 ^ 32) as Hcap by (apply Z.mod_pos_bound; lia).
    pose proof (bucket_bound (agg_cap s) (Some r) t0 ts Hcap
      (sorted_times_sublist _ _ Hts Hsort) (sublist_Forall _ _ _ Hts Hin)) as Hb.
    simpl in Hb. lia.
  - intros [idx now]. rewrite log_step_spec. by destruct (_ && _).
Qed.
End rates.


Lemma deny_log_bounded_witness :
  grants (run log_step (@boot_maps MapTrie) [(3, 2000000000); (4, 2000000001)]).2 <= 200.
Proof.
  apply (deny_log_bounded (@boot_maps MapTrie) {| window_start_ns := 0; rv_count := 0 |} 2000000000).
  - reflexivity.
  - simpl. lia.
  - simpl. repeat constructor. lia.
  - unfold within, RATE_WINDOW_NS. repeat constructor; simpl; lia.
Defined.
