(* ===== verification/EnfGenerations.v ===== *)
(** * The eBPF loader ([wiremesh-enforcer/src/ebpf.rs]): generations, counters
    and deny events

    [apply] builds a generation in the inactive slot of the four outer arrays,
    folds the live counters away and flips [ACTIVE].  The kernel-visible effects
    are an explicit list of single writes, so that the state after any prefix of
    them, with packets in between, can be reasoned about. *)
From S2P Require Export EnfRate.
From Stdlib Require Import ZArith Lia Ascii.
Local Open Scope Z_scope.

(** ** [EnforcerConfig] and its defaults; names of interfaces *)

Record EnforcerConfig := { flow_max : Z; tcp_idle_s : Z; udp_idle_s : Z; icmp_idle_s : Z;
                           rate_cap_per_src : Z; log_per_rule : Z; log_aggregate : Z; reap_grace : Z }.

Definition REAP_GRACE : Z := secs 10.
Definition default_config : EnforcerConfig :=
  {| flow_max := 1048576; tcp_idle_s := 7200; udp_idle_s := 60; icmp_idle_s := 30;
     rate_cap_per_src := 256; log_per_rule := 10; log_aggregate := 100; reap_grace := REAP_GRACE |}.

Definition iface_char (c : Ascii.ascii) : bool :=
  let n := Z.of_nat (Ascii.nat_of_ascii c) in
  ((48 <=? n) && (n <=? 57)) || ((65 <=? n) && (n <=? 90)) || ((97 <=? n) && (n <=? 122))
  || (n =? 95) || (n =? 46) || (n =? 45).

(** Whether [validate_iface] accepts the name. *)
Definition validate_iface (iface : string) : bool :=
  match iface with
  | EmptyString => false
  | String c _ =>
      Nat.leb (String.length iface) 15 && str_all iface_char iface
      && negb (Ascii.eqb c "-") && negb (Ascii.eqb c ".")
  end.

Section generations.
Context {N : Ipv4NetApi} {T : LpmTrieApi} {L : LruApi}.

Definition write_config (cfg : EnforcerConfig) (s : Maps) : Maps :=
  let config := [tcp_idle_s cfg * 1000000000; udp_idle_s cfg * 1000000000;
                 icmp_idle_s cfg * 1000000000; rate_cap_per_src cfg;
                 log_per_rule cfg; log_aggregate cfg] in
  {| COUNTERS := COUNTERS s; ACTIVE := ACTIVE s; FLOWS := FLOWS s; RATE := RATE s;
     CONFIG := config; DENY_RB := DENY_RB s; LOG_RULE_BUDGET := LOG_RULE_BUDGET s;
     LOG_AGG_BUDGET := LOG_AGG_BUDGET s; GEN_SRC := GEN_SRC s; GEN_DST := GEN_DST s;
     GEN_RULES := GEN_RULES s; GEN_META := GEN_META s |}.

(** ** Single writes *)

Inductive write :=
| WriteSrc (slot : Z) (t : trie)
| WriteDst (slot : Z) (t : trie)
| WriteRules (slot : Z) (rules : list RuleMeta)
| WriteMeta (slot : Z) (len : Z)
| ZeroCounter (idx : Z)
| WriteActive (slot : Z).

Definition set_outer {A : Type} (outer : list (option A)) (slot : Z) (x : A) : list (option A) :=
  <[Z.to_nat slot := Some x]> outer.

Definition exec_write (s : Maps) (w : write) : Maps :=
  let upd active src dst rules meta counters :=
    {| COUNTERS := counters; ACTIVE := active; FLOWS := FLOWS s; RATE := RATE s;
       CONFIG := CONFIG s; DENY_RB := DENY_RB s; LOG_RULE_BUDGET := LOG_RULE_BUDGET s;
       LOG_AGG_BUDGET := LOG_AGG_BUDGET s; GEN_SRC := src; GEN_DST := dst;
       GEN_RULES := rules; GEN_META := meta |} in
  match w with
  | WriteSrc slot t =>
      upd (ACTIVE s) (set_outer (GEN_SRC s) slot t) (GEN_DST s) (GEN_RULES s) (GEN_META s) (COUNTERS s)
  | WriteDst slot t =>
      upd (ACTIVE s) (GEN_SRC s) (set_outer (GEN_DST s) slot t) (GEN_RULES s) (GEN_META s) (COUNTERS s)
  | WriteRules slot rules =>
      upd (ACTIVE s) (GEN_SRC s) (GEN_DST s) (set_outer (GEN_RULES s) slot rules) (GEN_META s) (COUNTERS s)
  | WriteMeta slot len =>
      upd (ACTIVE s) (GEN_SRC s) (GEN_DST s) (GEN_RULES s) (set_outer (GEN_META s) slot len) (COUNTERS s)
  | ZeroCounter idx =>
      upd (ACTIVE s) (GEN_SRC s) (GEN_DST s) (GEN_RULES s) (GEN_META s)
        (<[Z.to_nat idx := 0]> (COUNTERS s))
  | WriteActive slot =>
      upd slot (GEN_SRC s) (GEN_DST s) (GEN_RULES s) (GEN_META s) (COUNTERS s)
  end.

Definition exec_writes (s : Maps) (ws : list write) : Maps := fold_left exec_write ws s.

(** A fresh 256-entry rules array with the given prefix. *)
Definition rules_array (rules : list RuleMeta) : list RuleMeta :=
  let zero := {| rm_action := 0; rm_proto := 0; rm_port_lo := 0; rm_port_hi := 0 |} in
  rules ++ replicate (Z.to_nat MAX_RULES - length rules) zero.

(** [install_generation]: both tries are built before anything is written. *)
Definition install_generation (target : Z) (src_entries dst_entries : list (ipv4net * RuleBits))
    (rules : list RuleMeta) : option (list write) :=
  src_trie ← build_trie src_entries;
  dst_trie ← build_trie dst_entries;
  if Nat.ltb (Z.to_nat MAX_RULES) (length rules) then None
  else Some [WriteSrc target src_trie; WriteDst target dst_trie;
             WriteRules target (rules_array rules); WriteMeta target (Z.of_nat (length rules))].

(** ** Userspace bookkeeping *)

Record PendingReap := { pr_slot : Z; pr_flipped_at : Z }.

Record GenerationState := { idx_to_rule_id : list string; pending_reap : option PendingReap;
                            counter_accum : gmap string Z; default_deny_accum : Z }.

Definition gen_default : GenerationState :=
  {| idx_to_rule_id := []; pending_reap := None; counter_accum := ∅; default_deny_accum := 0 |}.

(** [*entry(id).or_insert(0) += val] on [u64]. *)
Definition accumulate (m : gmap string Z) (id : string) (val : Z) : gmap string Z :=
  <[id := wrap 64 (default 0 (m !! id) + val)]> m.

Definition read_counter (s : Maps) (idx : nat) : Z := nth idx (COUNTERS s) 0.

(** One turn of the fold loop: the slot is zeroed at once, then folded if the old
    mapping names it. *)
Definition fold_counter (ids : list string) (st : list write * gmap string Z) (s : Maps) (idx : nat)
    : list write * gmap string Z :=
  let val := read_counter s idx in
  if 0 <? val then
    (st.1 ++ [ZeroCounter (Z.of_nat idx)],
     match ids !! idx with Some id => accumulate st.2 id val | None => st.2 end)
  else st.

Definition fold_and_reset_counters (s : Maps) (gen : GenerationState) (new_len : nat)
    : list write * GenerationState :=
  let old_len := length (idx_to_rule_id gen) in
  let reset_len := Nat.min (Nat.max old_len new_len) (Z.to_nat MAX_RULES) in
  let '(ws, accum) := fold_left (fun st idx => fold_counter (idx_to_rule_id gen) st s idx)
                        (seq 0 reset_len) ([], counter_accum gen) in
  let dd := read_counter s (Z.to_nat CTR_DEFAULT_DENY) in
  let '(ws', dd_accum) :=
    if 0 <? dd then (ws ++ [ZeroCounter CTR_DEFAULT_DENY], wrap 64 (default_deny_accum gen + dd))
    else (ws, default_deny_accum gen) in
  (ws', {| idx_to_rule_id := idx_to_rule_id gen; pending_reap := pending_reap gen;
           counter_accum := accum; default_deny_accum := dd_accum |}).

Definition prune_retired_counters (gen : GenerationState) (new_ids : list string) : GenerationState :=
  {| idx_to_rule_id := idx_to_rule_id gen; pending_reap := pending_reap gen;
     counter_accum := filter (fun kv => kv.1 ∈ new_ids) (counter_accum gen);
     default_deny_accum := default_deny_accum gen |}.

(** [apply_generation]: the writes in order, and the bookkeeping published after the flip. *)
Definition apply_generation (s : Maps) (flat : list FlatRule) (gen : GenerationState) (now : Z)
    : option (list write * GenerationState) :=
  let active_now := ACTIVE s in
  let target := 1 - active_now in
  let '(rules, ids) := build_rules flat in
  installs ← install_generation target (build_lpm_entries flat Src) (build_lpm_entries flat Dst) rules;
  let '(zeroes, gen1) := fold_and_reset_counters (exec_writes s installs) gen (length flat) in
  let gen2 := prune_retired_counters gen1 ids in
  Some (installs ++ zeroes ++ [WriteActive target],
        {| idx_to_rule_id := ids;
           pending_reap := Some {| pr_slot := active_now; pr_flipped_at := now |};
           counter_accum := counter_accum gen2; default_deny_accum := default_deny_accum gen2 |}).

(** [Enforcer::apply] of the eBPF backend. *)
Definition apply (s : Maps) (gen : GenerationState) (ir : PolicyIR) (now : Z)
    : option (list write * GenerationState) :=
  match flatten ir with
  | Err _ => None
  | Ok flat =>
      match check_lpm_capacity flat with
      | Err _ => None
      | Ok _ => apply_generation s flat gen now
      end
  end.

Definition apply_ready_at (cfg : EnforcerConfig) (gen : GenerationState) : option Z :=
  p ← pending_reap gen; Some (pr_flipped_at p + reap_grace cfg).

Record Counters := { by_rule : gmap string Z; default_deny : Z }.

Definition counters (s : Maps) (gen : GenerationState) : Counters :=
  {| by_rule := foldl (fun m (x : nat * string) =>
                  let c := read_counter s x.1 in
                  if 0 <? c then accumulate m x.2 c else m)
                (counter_accum gen) (imap pair (idx_to_rule_id gen));
     default_deny := wrap 64 (default_deny_accum gen + read_counter s (Z.to_nat CTR_DEFAULT_DENY)) |}.

Record DenyEvent := { dv_src : Z; dv_dst : Z; dv_proto : Z; dv_dport : Z; dv_rule_id : option string }.

Definition deny_event_of (gen : GenerationState) (raw : DenyEventRaw) : DenyEvent :=
  {| dv_src := bswap32 (de_src raw); dv_dst := bswap32 (de_dst raw); dv_proto := de_proto raw;
     dv_dport := bswap16 (de_dport raw);
     dv_rule_id := if de_rule_idx raw =? CTR_DEFAULT_DENY then None
                   else idx_to_rule_id gen !! Z.to_nat (de_rule_idx raw) |}.

(** [deny_events]: drains the ring buffer. *)
Definition deny_events (s : Maps) (gen : GenerationState) : Maps * list DenyEvent :=
  (set_log [] (LOG_RULE_BUDGET s) (LOG_AGG_BUDGET s) s, map (deny_event_of gen) (DENY_RB s)).

Definition flush_flows (s : Maps) : Maps := set_FLOWS ∅ s.
End generations.
