(* ===== verification/EnfApply.v ===== *)
(** * Applying a policy: atomic generations, surviving counters and the
    end-to-end verdict

    Theorems about [EnfGenerations]: what the maps hold after any prefix of the
    writes of an [apply], with packets in between; and that the verdict of the
    kernel program is the verdict of the policy document. *)
From S2P Require Export EnfGenerations.
From Stdlib Require Import ZArith Lia.
Local Open Scope Z_scope.

Section apply.
Context {N : Ipv4NetApi} {NL : Ipv4NetLaws N} {T : LpmTrieApi} {TL : LpmTrieLaws T}.
Context {L : LruApi} {LL : LruLaws L}.

(** ** The shape of the maps *)

Record shaped (s : Maps) : Prop := {
  sh_active : ACTIVE s = 0 \/ ACTIVE s = 1;
  sh_src : length (GEN_SRC s) = 2%nat;
  sh_dst : length (GEN_DST s) = 2%nat;
  sh_rules : length (GEN_RULES s) = 2%nat;
  sh_meta : length (GEN_META s) = 2%nat
}.

Lemma slot_get_set {A : Type} (outer : list (option A)) slot slot' x :
  (slot = 0 \/ slot = 1) -> length outer = 2%nat ->
  slot_get (set_outer outer slot x) slot' =
  if decide (Z.to_nat slot = Z.to_nat slot') then Some x else slot_get outer slot'.
Proof.
  intros Hs Hl. unfold slot_get, set_outer. case_decide as E.
  - rewrite <- E, list_lookup_insert_eq by lia. done.
  - by rewrite list_lookup_insert_ne.
Qed.

(** ** Writes and traffic *)

Definition table_write (w : write) : bool := match w with ZeroCounter _ => false | _ => true end.

Lemma zero_write_tables s idx : same_tables s (exec_write s (ZeroCounter idx)).
Proof. done. Qed.

Lemma exec_write_same s s' w : same_tables s s' -> same_tables (exec_write s w) (exec_write s' w).
Proof. intros (E1 & E2 & E3 & E4 & E5 & E6). destruct w; simpl; repeat split; simpl; congruence. Qed.

Lemma exec_writes_same s s' ws : same_tables s s' -> same_tables (exec_writes s ws) (exec_writes s' ws).
Proof.
  revert s s'. induction ws as [|w ws IH]; intros s s' H; [done|]. by apply IH, exec_write_same.
Qed.

(** What the loader and the traffic do, in the order they happen. *)
Inductive action := Packet_ (ev : event) | Write_ (w : write).

Definition act (s : Maps) (a : action) : Maps :=
  match a with Packet_ ev => (traffic_step s ev).1 | Write_ w => exec_write s w end.

Definition acts (s : Maps) (l : list action) : Maps := fold_left act l s.

Fixpoint writes_of (l : list action) : list write :=
  match l with
  | [] => []
  | Packet_ _ :: l' => writes_of l'
  | Write_ w :: l' => if table_write w then w :: writes_of l' else writes_of l'
  end.

Lemma traffic_step_tables s ev : same_tables s (traffic_step s ev).1.
Proof.
  destruct ev as [pkt now|pkt now]; simpl.
  - destruct (try_ingress_run pkt now s) as (s' & -> & [? _]). done.
  - apply (aeth_egress_within pkt now s).
Qed.

Lemma writes_of_all ws : writes_of (map Write_ ws) = filter (fun w => table_write w = true) ws.
Proof.
  induction ws as [|w ws IH]; [done|]. simpl. rewrite filter_cons, IH.
  destruct (table_write w); by case_decide.
Qed.

(** Packets and counter resets in between do not change what the table writes build. *)
Lemma acts_tables s l : same_tables (exec_writes s (writes_of l)) (acts s l).
Proof.
  enough (forall s', same_tables s s' -> same_tables (exec_writes s (writes_of l)) (acts s' l)) as H
    by by apply H.
  revert s. induction l as [|[ev|w] l IH]; intros s s' H; [done| |]; simpl.
  - apply IH. etrans; [exact H|apply traffic_step_tables].
  - destruct (table_write w) eqn:E; simpl; [by apply IH, exec_write_same|].
    apply IH. destruct w; try done.
Qed.

(** ** The writes of one [apply] *)

Lemma scan_slot_ext slot s s' src dst proto dport :
  slot_get (GEN_SRC s') slot = slot_get (GEN_SRC s) slot ->
  slot_get (GEN_DST s') slot = slot_get (GEN_DST s) slot ->
  slot_get (GEN_RULES s') slot = slot_get (GEN_RULES s) slot ->
  slot_get (GEN_META s') slot = slot_get (GEN_META s) slot ->
  scan_slot slot src dst proto dport s' = scan_slot slot src dst proto dport s.
Proof. unfold scan_slot. by intros -> -> -> ->. Qed.

Lemma scan_slot_other s w slot src dst proto dport :
  shaped s -> (slot = 0 \/ slot = 1) ->
  match w with
  | WriteSrc t _ | WriteDst t _ | WriteRules t _ | WriteMeta t _ => t = 1 - slot
  | ZeroCounter _ | WriteActive _ => True
  end ->
  scan_slot slot src dst proto dport (exec_write s w) = scan_slot slot src dst proto dport s.
Proof.
  intros [_ H1 H2 H3 H4] Hslot Hw.
  apply scan_slot_ext; destruct w; try done; subst; cbn -[slot_get];
    rewrite slot_get_set by (done || lia); case_decide; (lia || done).
Qed.

Lemma exec_write_shaped s w :
  shaped s -> match w with WriteActive t => t = 0 \/ t = 1 | _ => True end -> shaped (exec_write s w).
Proof.
  intros [H0 H1 H2 H3 H4] Hw. destruct w; split; simpl; try done; unfold set_outer;
    by rewrite length_insert.
Qed.

Lemma fold_counters_zero (s : Maps) ids idxs st :
  Forall (fun w => table_write w = false) st.1 ->
  Forall (fun w => table_write w = false)
    (fold_left (fun st idx => fold_counter ids st s idx) idxs st).1.
Proof.
  revert st. induction idxs as [|i idxs IH]; intros st H; simpl; [done|]. apply IH.
  unfold fold_counter. destruct (0 <? read_counter s i); simpl; [|done].
  apply Forall_app. split; [done|]. repeat constructor.
Qed.

Lemma fold_and_reset_zero s gen n : Forall (fun w => table_write w = false) (fold_and_reset_counters s gen n).1.
Proof.
  unfold fold_and_reset_counters.
  pose proof (fold_counters_zero s (idx_to_rule_id gen)
    (seq 0 (Nat.min (Nat.max (length (idx_to_rule_id gen)) n) (Z.to_nat MAX_RULES)))
    ([], counter_accum gen) ltac:(constructor)) as H.
  destruct (fold_left _ _ ([], counter_accum gen)) as [ws accum]. simpl in H.
  destruct (0 <? read_counter s (Z.to_nat CTR_DEFAULT_DENY)); simpl; [|done].
  apply Forall_app. split; [done|]. repeat constructor.
Qed.

(** The table writes of an [apply]: four installs in the other slot, then the flip. *)
Lemma apply_writes s gen ir now ws gen' :
  apply s gen ir now = Some (ws, gen') ->
  exists flat ts td,
    flatten ir = Ok flat /\
    build_trie (build_lpm_entries flat Src) = Some ts /\
    build_trie (build_lpm_entries flat Dst) = Some td /\
    (length flat <= 256)%nat /\
    idx_to_rule_id gen' = map fr_rule_id flat /\
    pending_reap gen' = Some {| pr_slot := ACTIVE s; pr_flipped_at := now |} /\
    filter (fun w => table_write w = true) ws =
      [WriteSrc (1 - ACTIVE s) ts; WriteDst (1 - ACTIVE s) td;
       WriteRules (1 - ACTIVE s) (rules_array (map rule_meta flat));
       WriteMeta (1 - ACTIVE s) (Z.of_nat (length flat)); WriteActive (1 - ACTIVE s)].
Proof.
  unfold apply. destruct (flatten ir) as [flat|]; [|done].
  destruct (check_lpm_capacity flat); [|done].
  unfold apply_generation, build_rules, install_generation.
  destruct (build_trie (build_lpm_entries flat Src)) as [ts|] eqn:Ets; [|done].
  destruct (build_trie (build_lpm_entries flat Dst)) as [td|] eqn:Etd; [|done].
  cbn [mbind option_bind]. rewrite length_map.
  destruct (Nat.ltb_spec (Z.to_nat MAX_RULES) (length flat)) as [|Hlen]; [done|].
  cbn [mbind option_bind].
  match goal with |- context [fold_and_reset_counters ?s1 gen ?n] =>
    pose proof (fold_and_reset_zero s1 gen n) as Hz;
    destruct (fold_and_reset_counters s1 gen n) as [zs gen1] end.
  intros [= <- <-]. exists flat, ts, td. change (Z.to_nat MAX_RULES) with 256%nat in Hlen.
  split_and!; try done. simpl in Hz.
  assert (filter (fun w => table_write w = true) zs = []) as Ezs.
  { apply filter_none. eapply list.Forall_impl; [exact Hz|]. intros w. simpl. congruence. }
  etrans; [apply (list.filter_app _ [_; _; _; _] (zs ++ _))|].
  rewrite list.filter_app, Ezs. done.
Qed.

(** ** Prefixes *)

Definition other_slot_write (slot : Z) (w : write) : Prop :=
  match w with
  | WriteSrc t _ | WriteDst t _ | WriteRules t _ | WriteMeta t _ | WriteActive t => t = 1 - slot
  | ZeroCounter _ => True
  end.

Lemma other_slot_writes s slot ws src dst proto dport :
  shaped s -> (slot = 0 \/ slot = 1) -> Forall (other_slot_write slot) ws ->
  scan_slot slot src dst proto dport (exec_writes s ws) = scan_slot slot src dst proto dport s.
Proof.
  intros Hs Hslot H. revert s Hs. induction H as [|w ws Hw _ IH]; intros s Hs; [done|].
  change (exec_writes s (w :: ws)) with (exec_writes (exec_write s w) ws).
  rewrite IH.
  - apply scan_slot_other; [done..|]. by destruct w.
  - apply exec_write_shaped; [done|]. destruct w; simpl in *; lia || done.
Qed.

Lemma flatten_numbered ir flat : flatten ir = Ok flat -> numbered flat.
Proof.
  intros Hf. pose proof (length_flatten ir flat Hf) as Hl.
  apply flatten_iff in Hf as (rs & (Hle & _) & ->). unfold PolicyCompile.MAX_RULES in Hle.
  split; [lia|]. intros i f Hi. apply imap_lookup_map in Hi as (f0 & _ & ->). done.
Qed.

Lemma flatten_distinct_bound ir flat side :
  flatten ir = Ok flat -> (length (distinct_side_cidrs flat side) <= 1024)%nat.
Proof.
  intros (rs & (_ & _ & _ & Hs & Hd) & ->)%flatten_iff.
  pose proof (flat_capacity rs Hs Hd) as Hc. unfold check_lpm_capacity in Hc.
  apply bind_ok in Hc as ([] & Hc1 & Hc2). unfold distinct_side_cidrs.
  assert (forall d name, ds_check d name = Ok () -> (length (ds_order (N := N) d) <= 1024)%nat) as H.
  { intros d name. unfold ds_check, EnfFlatten.LPM_MAX_ENTRIES. case_match eqn:E; [done|].
    apply Nat.ltb_ge in E. done. }
  destruct side; by eapply H.
Qed.

Lemma lookup_rules_array rules i m : rules !! i = Some m -> rules_array rules !! i = Some m.
Proof. intros H. unfold rules_array. by apply lookup_app_l_Some. Qed.

(** The four installs put a generation of [flat] in the target slot. *)
Lemma installs_installed s flat ts td :
  shaped s -> numbered flat ->
  holds flat Src ts (distinct_side_cidrs flat Src) -> holds flat Dst td (distinct_side_cidrs flat Dst) ->
  let target := 1 - ACTIVE s in
  installed flat target (exec_writes s
    [WriteSrc target ts; WriteDst target td; WriteRules target (rules_array (map rule_meta flat));
     WriteMeta target (Z.of_nat (length flat)); WriteActive target]).
Proof.
  intros [H0 H1 H2 H3 H4] Hnum Hts Htd target.
  assert (target = 0 \/ target = 1) as Ht by (unfold target; lia).
  assert (forall A (outer : list (option A)) x, length outer = 2%nat ->
            slot_get (set_outer outer target x) target = Some x) as Hg.
  { intros A outer x Hl. rewrite slot_get_set by done. by rewrite decide_True. }
  unfold exec_writes. cbn [fold_left exec_write]. split; cbn -[slot_get set_outer].
  - done.
  - exists ts. by rewrite Hg.
  - exists td. by rewrite Hg.
  - exists (rules_array (map rule_meta flat)). rewrite Hg by done. split; [done|].
    intros i f Hi. apply lookup_rules_array. by rewrite list_lookup_fmap, Hi.
  - by rewrite Hg.
Qed.

Lemma installed_same flat slot s s' : same_tables s s' -> installed flat slot s -> installed flat slot s'.
Proof. intros (_ & _ & E1 & E2 & E3 & E4) []. split; by rewrite ?E1, ?E2, ?E3, ?E4. Qed.

(** ** Counters across an [apply] *)

(** The body of the loop of [counters]. *)
Definition count_step (s : Maps) (m : gmap string Z) (x : nat * string) : gmap string Z :=
  let c := read_counter s x.1 in if 0 <? c then accumulate m x.2 c else m.

Lemma fold_counter_accum s ids st k n :
  (length (drop k ids) <= n)%nat ->
  (fold_left (fun st idx => fold_counter ids st s idx) (seq k n) st).2 =
  foldl (count_step s) st.2 (imap (fun i => pair (k + i)%nat) (drop k ids)).
Proof.
  revert st k. induction n as [|n IH]; intros st k Hn; simpl.
  { destruct (drop k ids); [done|simpl in Hn; lia]. }
  rewrite IH by (rewrite length_drop in *; lia).
  unfold fold_counter, count_step. destruct (ids !! k) as [id|] eqn:E.
  - rewrite (drop_S ids id k E). cbn [imap foldl]. rewrite Nat.add_0_r. cbn [fst snd].
    rewrite (imap_ext ((fun i => pair (k + i)%nat) ∘ S) (fun i => pair (S k + i)%nat))
      by (intros; unfold compose; f_equal; lia).
    destruct (0 <? read_counter s k); done.
  - apply lookup_ge_None in E. rewrite !drop_ge by lia. simpl.
    by destruct (0 <? read_counter s k).
Qed.

Definition zeroes (idx : nat) (w : write) : bool :=
  match w with ZeroCounter i => Nat.eqb (Z.to_nat i) idx | _ => false end.

Lemma read_counter_writes s ws idx :
  read_counter (exec_writes s ws) idx = if existsb (zeroes idx) ws then 0 else read_counter s idx.
Proof.
  revert s. induction ws as [|w ws IH]; intros s; [done|].
  change (exec_writes s (w :: ws)) with (exec_writes (exec_write s w) ws). rewrite IH. cbn [existsb].
  destruct (existsb (zeroes idx) ws); [by rewrite orb_true_r|]. rewrite orb_false_r.
  unfold read_counter. destruct w as [| | | |j|]; try done. cbn [zeroes].
  cbn. rewrite !nth_lookup. destruct (Nat.eqb_spec (Z.to_nat j) idx) as [<-|Hne].
  - destruct (decide (Z.to_nat j < length (COUNTERS s))%nat).
    + by rewrite list_lookup_insert_eq.
    + rewrite list_insert_ge by lia. by rewrite lookup_ge_None_2 by lia.
  - by rewrite list_lookup_insert_ne.
Qed.

Lemma fold_counter_zeroes s ids st idxs i :
  0 <= read_counter s i -> i ∈ idxs ->
  existsb (zeroes i) (fold_left (fun st idx => fold_counter ids st s idx) idxs st).1 = true \/
  read_counter s i = 0.
Proof.
  intros H0. revert st.
  assert (forall idxs st, existsb (zeroes i) st.1 = true ->
    existsb (zeroes i) (fold_left (fun st idx => fold_counter ids st s idx) idxs st).1 = true) as Hmono.
  { clear. induction idxs as [|j idxs IH]; intros st H; simpl; [done|]. apply IH. unfold fold_counter.
    destruct (0 <? read_counter s j); simpl; [|done]. by rewrite existsb_app, H. }
  induction idxs as [|j idxs IH]; intros st Hi; [by apply elem_of_nil in Hi|]. simpl.
  apply elem_of_cons in Hi as [->|Hi]; [|by apply IH].
  unfold fold_counter at 2. destruct (Z.ltb_spec 0 (read_counter s j)).
  - left. apply Hmono. simpl. rewrite existsb_app. simpl.
    by rewrite Nat2Z.id, Nat.eqb_refl, orb_true_r.
  - right. lia.
Qed.

Lemma installs_counters s flat_src flat_dst rules target ws :
  install_generation target flat_src flat_dst rules = Some ws ->
  COUNTERS (exec_writes s ws) = COUNTERS s /\
  Forall (fun w => match w with ZeroCounter _ => False | _ => True end) ws.
Proof.
  unfold install_generation. intros H.
  apply bind_Some in H as (ts & _ & H). apply bind_Some in H as (td & _ & H).
  case_match; [done|]. injection H as <-. split; [done|]. repeat constructor.
Qed.

(** Folding moves every live count into the accumulators, which is what [counters] shows. *)
Lemma fold_and_reset_spec s gen n ws gen1 :
  (length (idx_to_rule_id gen) <= 256)%nat -> (n <= 256)%nat -> (forall i, 0 <= read_counter s i) ->
  0 <= default_deny_accum gen < 2 ^ 64 ->
  fold_and_reset_counters s gen n = (ws, gen1) ->
  counter_accum gen1 = by_rule (counters s gen) /\
  default_deny_accum gen1 = default_deny (counters s gen) /\
  (forall i, (i < n)%nat -> read_counter (exec_writes s ws) i = 0) /\
  read_counter (exec_writes s ws) (Z.to_nat CTR_DEFAULT_DENY) = 0.
Proof.
  intros Hold Hn Hpos Hdd. unfold fold_and_reset_counters.
  change (Z.to_nat MAX_RULES) with 256%nat.
  set (len := Nat.min (Nat.max (length (idx_to_rule_id gen)) n) 256).
  pose proof (fold_counter_accum s (idx_to_rule_id gen) ([], counter_accum gen) 0 len
    ltac:(rewrite drop_0; lia)) as Hacc. rewrite drop_0 in Hacc.
  pose proof (fun i => fold_counter_zeroes s (idx_to_rule_id gen) ([], counter_accum gen) (seq 0 len) i
    (Hpos i)) as Hz.
  destruct (fold_left _ (seq 0 len) ([], counter_accum gen)) as [zs acc]. cbn [fst snd] in *.
  assert (forall ws' i, (i < n)%nat -> read_counter (exec_writes s (zs ++ ws')) i = 0) as Hzero.
  { intros ws' i Hi. rewrite read_counter_writes, existsb_app.
    destruct (Hz i) as [-> | ->]; [apply elem_of_seq; lia|done|by case_match]. }
  destruct (Z.ltb_spec 0 (read_counter s (Z.to_nat CTR_DEFAULT_DENY))); intros [= <- <-]; simpl.
  - split_and!; [exact Hacc|done| |].
    + apply Hzero.
    + rewrite read_counter_writes, existsb_app. by rewrite orb_true_r.
  - pose proof (Hpos (Z.to_nat CTR_DEFAULT_DENY)).
    assert (read_counter s (Z.to_nat CTR_DEFAULT_DENY) = 0) as E by lia. split_and!.
    + exact Hacc.
    + unfold counters. cbn [default_deny]. rewrite E, Z.add_0_r. unfold wrap. by rewrite Z.mod_small.
    + intros i Hi. rewrite <- (app_nil_r zs). by apply Hzero.
    + rewrite read_counter_writes, E. by case_match.
Qed.

(** All the writes together. *)
Lemma all_writes_tables s ws :
  same_tables (exec_writes s (filter (fun w => table_write w = true) ws)) (exec_writes s ws).
Proof.
  pose proof (acts_tables s (map Write_ ws)) as Ht. rewrite writes_of_all in Ht.
  assert (acts s (map Write_ ws) = exec_writes s ws) as E; [|by rewrite E in Ht].
  unfold acts, exec_writes. clear. revert s. induction ws as [|w ws IH]; intros s; [done|].
  simpl. apply IH.
Qed.

Lemma table_writes_install s gen ir now ws gen' flat :
  shaped s -> apply s gen ir now = Some (ws, gen') -> flatten ir = Ok flat ->
  let s' := exec_writes s (filter (fun w => table_write w = true) ws) in
  ACTIVE s' = 1 - ACTIVE s /\ installed flat (ACTIVE s') s'.
Proof.
  intros Hs Ha Hf. cbv zeta.
  destruct (apply_writes _ _ _ _ _ _ Ha) as (flat' & ts & td & Hf' & Ets & Etd & _ & _ & _ & ->).
  rewrite Hf in Hf'. injection Hf' as <-.
  destruct (build_trie_ok flat Src) as (ts' & Ets' & Hts);
    [apply (flatten_distinct_bound ir flat Src Hf)|].
  destruct (build_trie_ok flat Dst) as (td' & Etd' & Htd);
    [apply (flatten_distinct_bound ir flat Dst Hf)|].
  rewrite Ets in Ets'. injection Ets' as <-. rewrite Etd in Etd'. injection Etd' as <-.
  split; [done|].
  apply (installs_installed s flat ts td Hs (flatten_numbered ir flat Hf) Hts Htd).
Qed.

Lemma apply_installs s gen ir now ws gen' flat :
  shaped s -> apply s gen ir now = Some (ws, gen') -> flatten ir = Ok flat ->
  installed flat (ACTIVE (exec_writes s ws)) (exec_writes s ws).
Proof.
  intros Hs Ha Hf. destruct (table_writes_install _ _ _ _ _ _ _ Hs Ha Hf) as [_ Hi].
  pose proof (all_writes_tables s ws) as Ht. apply (installed_same _ _ _ _ Ht) in Hi.
  destruct Ht as (EA & _). rewrite EA. exact Hi.
Qed.

(** ** Properties *)

(** C2: Policy updates are atomic.  Stop the loader after any number of the writes of an
    [apply], with any traffic and any counter resets in between: until the flip the old
    slot is active, and the rules a packet finds through the old slot are unchanged at
    every point, the flip included, so a packet that read [ACTIVE] before the flip is
    still judged by one whole generation; once all writes are done the other slot is
    active and holds exactly the generation of the flattened policy. *)
Theorem apply_is_atomic s gen ir now ws gen' l rest :
  shaped s -> apply s gen ir now = Some (ws, gen') ->
  writes_of l ++ rest = filter (fun w => table_write w = true) ws ->
  (forall src dst proto dport,
     scan_slot (ACTIVE s) src dst proto dport (acts s l) = scan_slot (ACTIVE s) src dst proto dport s) /\
  (rest <> [] -> ACTIVE (acts s l) = ACTIVE s) /\
  (rest = [] -> ACTIVE (acts s l) = 1 - ACTIVE s /\
     exists flat, flatten ir = Ok flat /\ installed flat (ACTIVE (acts s l)) (acts s l)).
Proof.
  intros Hs Ha Hl. destruct (apply_writes _ _ _ _ _ _ Ha) as (flat & ts & td & Hf & Ets & Etd & _ & _ & _ & Ew).
  rewrite Ew in Hl. pose proof (acts_tables s l) as Ht. split_and!.
  - intros src dst proto dport. rewrite (same_tables_scan (exec_writes s (writes_of l))) by done.
    apply other_slot_writes; [done|apply Hs|].
    apply (Forall_app _ (writes_of l) rest). rewrite Hl. repeat constructor.
  - intros Hr. destruct Ht as (-> & _). destruct Hs as [H0 _ _ _ _].
    assert (length (writes_of l) < 5)%nat as Hlen
      by (apply (f_equal length) in Hl; rewrite length_app in Hl; simpl in Hl; destruct rest;
          [done|simpl in Hl; lia]).
    destruct (writes_of l) as [|w1 [|w2 [|w3 [|w4 [|w5 l5]]]]]; simpl in Hlen; try lia;
      simplify_eq/=; done.
  - intros ->. rewrite app_nil_r in Hl. rewrite Hl, <- Ew in Ht.
    destruct (table_writes_install _ _ _ _ _ _ _ Hs Ha Hf) as [EA Hi].
    assert (ACTIVE (acts s l) = 1 - ACTIVE s) as EA' by (by destruct Ht as (-> & _)).
    split; [done|]. exists flat. split; [done|]. rewrite EA', <- EA.
    eapply installed_same; [exact Ht|exact Hi].
Qed.

(** What one [apply] publishes, in terms of the fold. *)
Lemma apply_counters s gen ir now ws gen' :
  apply s gen ir now = Some (ws, gen') ->
  (length (idx_to_rule_id gen) <= 256)%nat -> (forall i, 0 <= read_counter s i) ->
  0 <= default_deny_accum gen < 2 ^ 64 ->
  counter_accum gen' = filter (fun kv => kv.1 ∈ idx_to_rule_id gen') (by_rule (counters s gen)) /\
  default_deny_accum gen' = default_deny (counters s gen) /\
  (forall i, (i < length (idx_to_rule_id gen'))%nat -> read_counter (exec_writes s ws) i = 0) /\
  read_counter (exec_writes s ws) (Z.to_nat CTR_DEFAULT_DENY) = 0.
Proof.
  intros Ha Hold Hpos Hdd.
  destruct (apply_writes _ _ _ _ _ _ Ha) as (flat & _ & _ & Hf & _ & _ & Hlen & Eids & _ & _).
  unfold apply in Ha. rewrite Hf in Ha. destruct (check_lpm_capacity flat); [|done].
  unfold apply_generation, build_rules in Ha.
  destruct (install_generation _ _ _ _) as [ins|] eqn:Ei; [|done]. cbn [mbind option_bind] in Ha.
  destruct (installs_counters s _ _ _ _ _ Ei) as [Ec _].
  assert (forall i, read_counter (exec_writes s ins) i = read_counter s i) as Er
    by (intros; unfold read_counter; by rewrite Ec).
  destruct (fold_and_reset_counters (exec_writes s ins) gen (length flat)) as [zs gen1] eqn:Ez.
  apply fold_and_reset_spec in Ez as (H1 & H2 & H3 & H4); try done; [|intros; rewrite Er; apply Hpos].
  injection Ha as <- <-. cbn [idx_to_rule_id counter_accum default_deny_accum prune_retired_counters] in *. rewrite length_map.
  assert (counters (exec_writes s ins) gen = counters s gen) as E.
  { unfold counters. f_equal; [|by rewrite Er]. generalize (counter_accum gen). clear -Er.
    induction (imap pair (idx_to_rule_id gen)) as [|x l IH]; intros m; simpl; [done|].
    rewrite Er. apply IH. }
  rewrite H1, H2, E.
  assert (forall i, read_counter (exec_writes s (ins ++ zs ++ [WriteActive (1 - ACTIVE s)])) i =
                    read_counter (exec_writes (exec_writes s ins) zs) i) as Et.
  { intros i. unfold exec_writes. by rewrite !fold_left_app. }
  split_and!; [done..| |].
  - intros i Hi. rewrite Et. by apply H3.
  - by rewrite Et.
Qed.

Lemma counters_all_zero s gen :
  (forall i, (i < length (idx_to_rule_id gen))%nat -> read_counter s i = 0) ->
  by_rule (counters s gen) = counter_accum gen.
Proof.
  intros H. unfold counters. simpl.
  assert (forall l m, (forall x, x ∈ l -> (x.1 < length (idx_to_rule_id gen))%nat) ->
    foldl (fun m (x : nat * string) => let c := read_counter s x.1 in
             if 0 <? c then accumulate m x.2 c else m) m l = m) as Hl.
  { induction l as [|x l IH]; intros m Hx; simpl; [done|]. rewrite (H x.1) by (apply Hx; by left).
    apply IH. intros y Hy. apply Hx. by right. }
  apply Hl. intros x Hx. apply elem_of_lookup_imap in Hx as (i & id & -> & Hi). simpl.
  by eapply lookup_lt_Some.
Qed.

(** Counters survive policy updates by rule identity: after an [apply], the count of
    every rule of the new policy is what it was before, wherever the rule moved in the
    list; a rule that is new starts without one, even on an index that was busy; a rule
    that was removed is gone; and the default-deny count is unchanged. *)
Theorem counters_survive_apply s gen ir now ws gen' :
  apply s gen ir now = Some (ws, gen') ->
  (length (idx_to_rule_id gen) <= 256)%nat -> (forall i, 0 <= read_counter s i) ->
  0 <= default_deny_accum gen < 2 ^ 64 ->
  let s' := exec_writes s ws in
  (forall id, id ∈ idx_to_rule_id gen' ->
     by_rule (counters s' gen') !! id = by_rule (counters s gen) !! id) /\
  (forall id, id ∉ idx_to_rule_id gen' -> by_rule (counters s' gen') !! id = None) /\
  default_deny (counters s' gen') = default_deny (counters s gen).
Proof.
  intros Ha Hold Hpos Hdd s'.
  destruct (apply_counters _ _ _ _ _ _ Ha Hold Hpos Hdd) as (H1 & H2 & H3 & H4).
  assert (by_rule (counters s' gen') = counter_accum gen') as E by (by apply counters_all_zero).
  rewrite E, H1. split_and!.
  - intros id Hid. rewrite map_lookup_filter.
    destruct (by_rule (counters s gen) !! id); simpl; [|done]. by rewrite option_guard_True.
  - intros id Hid. rewrite map_lookup_filter.
    destruct (by_rule (counters s gen) !! id); simpl; [|done]. by rewrite option_guard_False.
  - unfold counters at 1. cbn [default_deny]. unfold s'. rewrite H4, H2, Z.add_0_r.
    unfold counters, wrap. simpl. by rewrite Z.mod_mod.
Qed.

(** ** End to end *)

Lemma scan_allows_installed flat s src dst proto dport :
  installed flat (ACTIVE s) s -> 0 <= src < 2 ^ 32 -> 0 <= dst < 2 ^ 32 ->
  scan_allows src dst proto dport s =
  bool_decide (flat_verdict flat (host_packet src dst proto dport) = Allow).
Proof.
  intros Hi Hs Hd. unfold scan_allows. rewrite (scan_slot_first flat), first_index_action by done.
  fold (flat_verdict flat (host_packet src dst proto dport)). by destruct (flat_verdict _ _).
Qed.

Lemma apply_succeeds s gen ir now flat :
  flatten ir = Ok flat -> exists ws gen', apply s gen ir now = Some (ws, gen').
Proof.
  intros Hf. unfold apply. rewrite Hf.
  pose proof Hf as (rs & (_ & _ & _ & Hs & Hd) & E)%flatten_iff.
  pose proof (flat_capacity rs Hs Hd) as Hcap. rewrite <- E in Hcap. rewrite Hcap.
  destruct (build_trie_ok flat Src) as (ts & Ets & _);
    [apply (flatten_distinct_bound ir flat Src Hf)|].
  destruct (build_trie_ok flat Dst) as (td & Etd & _);
    [apply (flatten_distinct_bound ir flat Dst Hf)|].
  pose proof (flatten_numbered ir flat Hf) as [Hlen _].
  unfold apply_generation, build_rules, install_generation. rewrite Ets, Etd.
  cbn [mbind option_bind]. rewrite length_map. change (Z.to_nat MAX_RULES) with 256%nat.
  destruct (Nat.ltb_spec 256 (length flat)); [lia|]. cbn [mbind option_bind].
  destruct (fold_and_reset_counters _ _ _) as [zs gen1]. eauto.
Qed.

(** C1: The gateway enforces the policy the operator wrote.  For a document that parsed,
    validated and compiled against a segment table, applying the compiled IR on the
    gateway succeeds; and in the resulting kernel maps an ingress packet without a live
    flow or ICMP error lookup passes exactly when the document, read block by block and
    rule by rule, allows it. *)
Theorem gateway_enforces_document sha256 from_str yaml segments doc version ir s gen now :
  parse_policy from_str yaml segments = Ok doc ->
  compile sha256 doc segments version = Ok (Ok ir) -> shaped s ->
  exists ws gen', apply s gen ir now = Some (ws, gen') /\
    forall pkt k t,
      packet_key pkt = Some k -> packet_embedded pkt = Some None ->
      0 <= fk_src k < 2 ^ 32 -> 0 <= fk_dst k < 2 ^ 32 ->
      let s' := exec_writes s ws in
      live s' (reverse_key k) t = false -> live s' k t = false ->
      (aeth_ingress pkt t s').1 = TC_ACT_PIPE <->
      dsl_verdict segments doc (host_packet (fk_src k) (fk_dst k) (fk_proto k) (fk_dport k)) = Allow.
Proof.
  intros [_ Hdoc]%parse_policy_inv Hc Hs.
  destruct (compiled_flattens sha256 segments doc version ir Hdoc Hc) as (flat & Hf & _ & Hv).
  destruct (apply_succeeds s gen ir now flat Hf) as (ws & gen' & Ha). exists ws, gen'.
  split; [done|]. intros pkt k t Hk He Hsrc Hdst s' Hl1 Hl2.
  pose proof (apply_installs _ _ _ _ _ _ _ Hs Ha Hf) as Hinst.
  destruct (try_ingress_run pkt t s') as (s2 & E & _). rewrite E. cbn [fst].
  unfold ingress_passes. rewrite Hk, He, Hl1, Hl2. cbn [orb]. unfold key_allowed.
  rewrite (scan_allows_installed flat) by done. rewrite Hv.
  destruct (dsl_verdict segments doc _); simpl; split; done.
Qed.
End apply.

(** ** Concrete runs *)

Definition test_boot : @Maps MapTrie := write_config default_config boot_maps.

Definition test_apply : option (list (@write MapTrie) * GenerationState) :=
  apply (N := SimpleNet) test_boot gen_default test_ir 5.
Definition test_writes : list (@write MapTrie) := default [] (fst <$> test_apply).
Definition test_gen : GenerationState := default gen_default (snd <$> test_apply).
Definition test_enforcing : @Maps MapTrie := exec_writes test_boot test_writes.

Lemma test_apply_some : apply (N := SimpleNet) test_boot gen_default test_ir 5 = Some (test_writes, test_gen).
Proof.
  assert (match test_apply with Some _ => true | None => false end = true) as H
    by (vm_compute; reflexivity).
  unfold test_writes, test_gen. change (test_apply = Some (default [] (fst <$> test_apply),
    default gen_default (snd <$> test_apply))). destruct test_apply as [[ws gen]|]; [reflexivity|discriminate].
Qed.

Lemma test_boot_shaped : shaped test_boot.
Proof. split; [left|..]; reflexivity. Qed.

Lemma apply_is_atomic_witness :
  ACTIVE (acts (L := PlainLru) test_boot (map Write_ test_writes)) = 1.
Proof.
  refine (proj1 (proj2 (proj2 (apply_is_atomic (N := SimpleNet) (L := PlainLru) test_boot gen_default
    test_ir 5 test_writes test_gen _ [] test_boot_shaped test_apply_some _)) eq_refl)).
  rewrite app_nil_r. apply writes_of_all.
Defined.

Lemma counters_survive_apply_witness :
  default_deny (counters (exec_writes test_boot test_writes) test_gen) =
  default_deny (counters test_boot gen_default).
Proof.
  refine (proj2 (proj2 (counters_survive_apply (N := SimpleNet) test_boot gen_default test_ir 5
    test_writes test_gen test_apply_some _ _ _))).
  - simpl. lia.
  - intros i. unfold read_counter. change (COUNTERS test_boot) with (replicate 258 0).
    rewrite nth_lookup. destruct (replicate 258 0 !! i) as [c|] eqn:E; [|done].
    apply lookup_replicate in E as [-> _]. done.
  - simpl. lia.
Defined.

Lemma gateway_enforces_document_witness :
  exists ws gen', apply (N := SimpleNet) test_boot gen_default test_ir 5 = Some (ws, gen').
Proof.
  destruct (gateway_enforces_document (N := SimpleNet) (L := PlainLru) (fun s => s)
    (fun _ => Ok (test_doc [test_rule_ok; test_rule_deny])) "" test_segments
    (test_doc [test_rule_ok; test_rule_deny]) 7 test_ir test_boot gen_default 5
    ltac:(vm_compute; reflexivity) ltac:(vm_compute; reflexivity) test_boot_shaped)
    as (ws & gen' & H & _).
  exists ws, gen'. exact H.
Defined.

(** The written policy allows 8001 and denies 22, and so does the running one. *)
Example enforcing_8001 :
  (aeth_ingress (L := PlainLru) (tcp_packet inside outside 999 8001) 7 test_enforcing).1 = TC_ACT_PIPE.
Proof. vm_compute. reflexivity. Qed.
Example enforcing_22 :
  (aeth_ingress (L := PlainLru) (tcp_packet inside outside 999 22) 7 test_enforcing).1 = TC_ACT_SHOT.
Proof. vm_compute. reflexivity. Qed.

Lemma test_flat_flattens : flatten test_ir = Ok test_flat.
Proof. apply ok_or_ok. vm_compute. reflexivity. Qed.

Lemma scan_generation_first_match_witness :
  exists s', scan_generation (L := PlainLru) (bswap32 inside) (bswap32 outside) 6 (bswap16 8001) 7
    test_enforcing = (Ok ACT_ALLOW, s').
Proof.
  destruct (scan_generation_first_match (N := SimpleNet) (L := PlainLru) test_flat test_enforcing
    (bswap32 inside) (bswap32 outside) 6 (bswap16 8001) 7
    (apply_installs (N := SimpleNet) test_boot gen_default test_ir 5 test_writes test_gen test_flat
       test_boot_shaped test_apply_some test_flat_flattens)
    (bswap32_range inside) (bswap32_range outside)) as (s' & H & _).
  exists s'. rewrite H.
  assert (flat_verdict test_flat (host_packet (bswap32 inside) (bswap32 outside) 6 (bswap16 8001)) = Allow)
    as -> by (vm_compute; reflexivity).
  reflexivity.
Defined.
