(* ===== verification/EnfNft.v ===== *)
(** * The nftables backend

    [crates/wiremesh-enforcer/src/nft.rs].  [ruleset] writes the script that
    replaces the table of one interface; [NftEnforcer] hands it to the [nft]
    program and prunes the counters of removed rules.  [read_script] reads the
    script back, as a list of match statements in chain order, and [nft_verdict]
    is their first match: nft(8) evaluates a chain's rules in order and [accept]
    and [drop] end the evaluation.  The [nft] and [conntrack] programs and the
    JSON reader are parameters. *)
From S2P Require Import StdNet PolicySem EnfDatapath EnfVerdict EnfGenerations EnfApply.
From Stdlib Require Import ZArith Lia Ascii.
Local Open Scope Z_scope.

Definition NEWLINE : ascii := ascii_of_nat 10.

(** [writeln!], over the lines of a text. *)
Definition writelns (ls : list string) : string := foldr (fun l out => l +:+ String NEWLINE out) "" ls.

Definition quoted (s : string) : string := String QUOTE (s +:+ String QUOTE "").

Section nft.
Context {N : Ipv4NetApi}.

(** ** The script *)

Definition cidr_set (cidrs : list ipv4net) : string := "{ " +:+ str_join ", " (map net_show cidrs) +:+ " }".

Definition verdict (action : IrAction) : string := match action with Allow => "accept" | Deny => "drop" end.

Definition proto_match (proto_str : string) (port_lo port_hi : Z) : string :=
  if (port_lo =? 0) && (port_hi =? 0) then "meta l4proto " +:+ proto_str
  else if port_lo =? port_hi then proto_str +:+ " dport { " +:+ show_uint port_lo +:+ " }"
  else proto_str +:+ " dport { " +:+ show_uint port_lo +:+ "-" +:+ show_uint port_hi +:+ " }".

(** The protocols one flat rule is written for. *)
Definition protos_of (p : IrProto) : list string :=
  match p with
  | Tcp => ["tcp"] | Udp => ["udp"] | Icmp => ["icmp"] | AnyProto => ["tcp"; "udp"; "icmp"]
  end.

Definition rule_line (f : FlatRule) (proto_str : string) : string :=
  let '(lo, hi) := if String.eqb proto_str "icmp" then (0, 0) else (fr_port_lo f, fr_port_hi f) in
  "    ip saddr " +:+ cidr_set (fr_src_cidrs f) +:+ " ip daddr " +:+ cidr_set (fr_dst_cidrs f) +:+ " " +:+
  proto_match proto_str lo hi +:+ " counter name " +:+ quoted ("r_" +:+ fr_rule_id f) +:+ " " +:+
  verdict (fr_action f).

Definition write_rule_lines (f : FlatRule) : list string := map (rule_line f) (protos_of (fr_proto f)).

(** The distinct rule ids, by first appearance. *)
Definition distinct_ids (flat : list FlatRule) : list string :=
  foldl (fun ids f => if bool_decide (fr_rule_id f ∈ ids) then ids else ids ++ [fr_rule_id f]) [] flat.

Definition table_name (iface : string) : string := "wiremesh_" +:+ iface.

Definition counter_line (name : string) : string := "  counter " +:+ name +:+ " {}".

Definition hook_line (chain iface : string) : string :=
  "  chain " +:+ chain +:+ " { type filter hook " +:+ chain +:+ " priority 0; policy accept; iifname " +:+
  quoted iface +:+ " jump from_fabric; }".

Definition DEFAULT_DENY_LINE : string := "    counter name " +:+ quoted "default_deny" +:+ " drop".

Definition script_lines (flat : list FlatRule) (iface : string) : list string :=
  ["table ip " +:+ table_name iface; "flush table ip " +:+ table_name iface; "table ip " +:+ table_name iface +:+ " {"] ++
  map (fun id => counter_line ("r_" +:+ id)) (distinct_ids flat) ++ [counter_line "default_deny"] ++
  ["  chain from_fabric {"; "    ct state established,related counter accept"] ++
  flat_map write_rule_lines flat ++
  [DEFAULT_DENY_LINE; "  }"; hook_line "input" iface; hook_line "forward" iface; "}"].

Inductive NftError : Type :=
| BadIface (iface : string)
| FlattenFailed (e : FlattenError)
| NftRejected (stderr : string)
| ListFailed (stderr : string)
| BadJson (msg : string)
| ConntrackFailed (stderr : string).

Definition ruleset (ir : PolicyIR) (iface : string) : result NftError string :=
  if validate_iface iface then
    match flatten ir with
    | Ok flat => Ok (writelns (script_lines flat iface))
    | Err e => Err (FlattenFailed e)
    end
  else Err (BadIface iface).

(** ** Reading a script *)

Record NftRule : Type := {
  nr_src : list ipv4net; nr_dst : list ipv4net; nr_proto : string; nr_ports : option (Z * Z);
  nr_counter : string; nr_action : IrAction }.

Record NftScript : Type := { ns_iface : string; ns_counters : list string; ns_rules : list NftRule }.

Definition expect (lit : string) (toks : list string) : option (list string) :=
  match toks with t :: rest => if String.eqb t lit then Some rest else None | [] => None end.

Fixpoint expects (lits toks : list string) : option (list string) :=
  match lits with [] => Some toks | l :: ls => rest ← expect l toks; expects ls rest end.

(** The elements of [{ a, b }] past the brace. *)
Fixpoint read_set (toks : list string) : option (list ipv4net * list string) :=
  match toks with
  | [] => None
  | t :: rest =>
      match split_once "," t with
      | Some (a, EmptyString) =>
          n ← net_parse a; '(ns, rest') ← read_set rest; Some (n :: ns, rest')
      | Some _ => None
      | None => n ← net_parse t; rest' ← expect "}" rest; Some ([n], rest')
      end
  end.

Definition read_ports (t : string) : option (Z * Z) :=
  match split_once "-" t with
  | Some (a, b) => lo ← parse_port a; hi ← parse_port b; Some (lo, hi)
  | None => p ← parse_port t; Some (p, p)
  end.

Definition read_match (toks : list string) : option (string * option (Z * Z) * list string) :=
  match toks with
  | t1 :: t2 :: t3 :: rest =>
      if String.eqb t1 "meta" && String.eqb t2 "l4proto" then Some (t3, None, rest)
      else if String.eqb t2 "dport" && String.eqb t3 "{" then
        match rest with
        | r :: rest' => ports ← read_ports r; rest'' ← expect "}" rest'; Some (t1, Some ports, rest'')
        | [] => None
        end
      else None
  | _ => None
  end.

Definition read_verdict (t : string) : option IrAction :=
  if String.eqb t "accept" then Some Allow else if String.eqb t "drop" then Some Deny else None.

Definition unquote (t : string) : option string :=
  match t with
  | String q s =>
      if Ascii.eqb q QUOTE then
        match split_once QUOTE s with Some (name, EmptyString) => Some name | _ => None end
      else None
  | EmptyString => None
  end.

Definition read_rule (line : string) : option NftRule :=
  toks ← expects [""; ""; ""; ""; "ip"; "saddr"; "{"] (str_split " " line);
  '(src, toks) ← read_set toks;
  toks ← expects ["ip"; "daddr"; "{"] toks;
  '(dst, toks) ← read_set toks;
  '(proto, ports, toks) ← read_match toks;
  toks ← expects ["counter"; "name"] toks;
  match toks with
  | [q; v] =>
      name ← unquote q; action ← read_verdict v;
      Some {| nr_src := src; nr_dst := dst; nr_proto := proto; nr_ports := ports; nr_counter := name;
              nr_action := action |}
  | _ => None
  end.

(** The counter declarations up to the chain. *)
Fixpoint read_counters (lines : list string) : option (list string * list string) :=
  match lines with
  | [] => None
  | l :: rest =>
      match str_split " " l with
      | [a; b; kw; name; braces] =>
          if bool_decide ([a; b; kw; braces] = [""; ""; "counter"; "{}"]) then
            '(names, rest') ← read_counters rest; Some (name :: names, rest')
          else Some ([], lines)
      | _ => Some ([], lines)
      end
  end.

(** The rules up to the final drop. *)
Fixpoint read_rules (lines : list string) : option (list NftRule * list string) :=
  match lines with
  | [] => None
  | l :: rest =>
      if String.eqb l DEFAULT_DENY_LINE then Some ([], rest)
      else r ← read_rule l; '(rs, rest') ← read_rules rest; Some (r :: rs, rest')
  end.

Definition read_script (text : string) : option NftScript :=
  match str_split NEWLINE text with
  | l1 :: l2 :: l3 :: rest =>
      table ← str_strip_prefix "table ip " l1;
      iface ← str_strip_prefix "wiremesh_" table;
      _ ← expects ["flush table ip " +:+ table; "table ip " +:+ table +:+ " {"] [l2; l3];
      '(counters, rest) ← read_counters rest;
      rest ← expects ["  chain from_fabric {"; "    ct state established,related counter accept"] rest;
      '(rules, rest) ← read_rules rest;
      _ ← expects ["  }"; hook_line "input" iface; hook_line "forward" iface; "}"; ""] rest;
      Some {| ns_iface := iface; ns_counters := counters; ns_rules := rules |}
  | _ => None
  end.

(** ** What a script does to a packet *)

Definition l4proto (name : string) : Z :=
  if String.eqb name "tcp" then 6 else if String.eqb name "udp" then 17
  else if String.eqb name "icmp" then 1 else -1.

Definition nft_matches (pkt : Packet) (r : NftRule) : bool :=
  existsb (net_hasb (pk_src pkt)) (nr_src r) && existsb (net_hasb (pk_dst pkt)) (nr_dst r)
  && (pk_proto pkt =? l4proto (nr_proto r))
  && match nr_ports r with Some (lo, hi) => (lo <=? pk_dport pkt) && (pk_dport pkt <=? hi) | None => true end.

(** The chain [from_fabric]: a packet of an established flow passes, another one
    takes the first matching rule, and the chain ends in a drop. *)
Definition nft_verdict (s : NftScript) (established : bool) (pkt : Packet) : IrAction :=
  if established then Allow else first_match nr_action (nft_matches pkt) (ns_rules s).

(** The counter a fresh packet is charged to. *)
Definition nft_counter (s : NftScript) (pkt : Packet) : string :=
  match List.find (nft_matches pkt) (ns_rules s) with Some r => nr_counter r | None => "default_deny" end.
End nft.

(** ** The golden fixtures of [tests/nft_codegen.rs] *)

Definition ex_block (src dst : string) (rules : list IrRule) : PolicyIR :=
  {| pi_schema := 1; pi_version := 1;
     pi_blocks := [{| ib_from := "a"; ib_to := "b"; ib_src_cidrs := [src]; ib_dst_cidrs := [dst]; ib_rules := rules |}] |}.
Definition ex_rule (id : string) (a : IrAction) (p : IrProto) (dst : list string) (ports : list (Z * Z)) : IrRule :=
  {| ir_rule_id := id; ir_action := a; ir_proto := p; ir_src := []; ir_dst := dst; ir_ports := ports |}.

Definition carve_out : PolicyIR :=
  ex_block "10.5.0.0/16" "203.0.113.0/24"
    [ex_rule "carve_deny" Deny Tcp ["203.0.113.5/32"] [(3389, 3389)]; ex_rule "carve_allow" Allow Tcp [] []].

(** carve_out_ordering.nft *)
Example carve_out_fixture :
  ruleset (N := SimpleNet) carve_out "wg0" = Ok (writelns [
    "table ip wiremesh_wg0"; "flush table ip wiremesh_wg0"; "table ip wiremesh_wg0 {";
    "  counter r_carve_deny {}"; "  counter r_carve_allow {}"; "  counter default_deny {}";
    "  chain from_fabric {"; "    ct state established,related counter accept";
    "    ip saddr { 10.5.0.0/16 } ip daddr { 203.0.113.5/32 } tcp dport { 3389 } counter name " +:+ quoted "r_carve_deny" +:+ " drop";
    "    ip saddr { 10.5.0.0/16 } ip daddr { 203.0.113.0/24 } meta l4proto tcp counter name " +:+ quoted "r_carve_allow" +:+ " accept";
    "    counter name " +:+ quoted "default_deny" +:+ " drop"; "  }";
    "  chain input { type filter hook input priority 0; policy accept; iifname " +:+ quoted "wg0" +:+ " jump from_fabric; }";
    "  chain forward { type filter hook forward priority 0; policy accept; iifname " +:+ quoted "wg0" +:+ " jump from_fabric; }";
    "}"]).
Proof. vm_compute. done. Qed.

(** proto_any_explosion.nft *)
Example any_fixture :
  flat_map write_rule_lines (ok_or [] (flatten (N := SimpleNet) (ex_block "10.0.0.0/16" "10.1.0.0/16" [ex_rule "any1" Allow AnyProto [] []]))) =
  map (fun p => "    ip saddr { 10.0.0.0/16 } ip daddr { 10.1.0.0/16 } meta l4proto " +:+ p +:+ " counter name " +:+ quoted "r_any1" +:+ " accept")
    ["tcp"; "udp"; "icmp"].
Proof. vm_compute. done. Qed.

Example carve_out_read :
  (fun s => (ns_iface s, ns_counters s, map (fun r => (nr_proto r, nr_ports r, nr_counter r, nr_action r)) (ns_rules s)))
    <$> read_script (N := SimpleNet) (ok_or "" (ruleset carve_out "wg0")) =
  Some ("wg0", ["r_carve_deny"; "r_carve_allow"; "default_deny"],
        [("tcp", Some (3389, 3389), "r_carve_deny", Deny); ("tcp", None, "r_carve_allow", Allow)]).
Proof. vm_compute. done. Qed.

(** ** The script reads back as the rules it was written for *)

Section reads_back.
Context {N : Ipv4NetApi} {NL : Ipv4NetLaws N}.

(** The statements one flat rule stands for. *)
Definition nft_rule (f : FlatRule) (p : string) : NftRule :=
  {| nr_src := fr_src_cidrs f; nr_dst := fr_dst_cidrs f; nr_proto := p;
     nr_ports := if String.eqb p "icmp" || ((fr_port_lo f =? 0) && (fr_port_hi f =? 0)) then None
                 else Some (fr_port_lo f, fr_port_hi f);
     nr_counter := "r_" +:+ fr_rule_id f; nr_action := fr_action f |}.

Definition nft_rules (f : FlatRule) : list NftRule := map (nft_rule f) (protos_of (fr_proto f)).

(** The characters of a rule id that keep the script's words and lines apart. *)
Definition id_char (c : ascii) : bool :=
  negb (Ascii.eqb c " ") && negb (Ascii.eqb c NEWLINE) && negb (Ascii.eqb c QUOTE).

(** What the codegen relies on: sides are not empty, ports fit, ids are words. *)
Record writable (f : FlatRule) : Prop := {
  wr_src : fr_src_cidrs f <> [];
  wr_dst : fr_dst_cidrs f <> [];
  wr_ports : 0 <= fr_port_lo f < 2 ^ 16 /\ 0 <= fr_port_hi f < 2 ^ 16;
  wr_id : str_all id_char (fr_rule_id f) = true }.

Fixpoint set_words (l : list string) : list string :=
  match l with
  | [] => []
  | [a] => [a]
  | a :: l' => (a +:+ ",") :: set_words l'
  end.

Lemma split_join_set l :
  l <> [] -> sep_free " " l -> str_split " " (str_join ", " l) = set_words l.
Proof.
  intros Hl Hf. induction Hf as [|a l Ha Hf IH]; [done|]. destruct l as [|b l].
  - by apply str_split_word.
  - change (str_join ", " (a :: b :: l)) with (a +:+ ", " +:+ str_join ", " (b :: l)).
    rewrite !str_split_splice, IH, (str_split_word _ a) by done.
    change (set_words (a :: b :: l)) with ((a +:+ ",") :: set_words (b :: l)).
    assert (exists x t, set_words (b :: l) = x :: t) as (x & t & ->) by (destruct l; cbn; eauto). done.
Qed.

Lemma show_free c n : net_char c = false -> has_char c (net_show n) = false.
Proof. apply has_char_net_show. Qed.

Lemma words_cidr_set cs :
  cs <> [] -> str_split " " (cidr_set cs) = "{" :: set_words (map net_show cs) ++ ["}"].
Proof.
  intros Hcs. unfold cidr_set. rewrite !str_split_splice, split_join_set.
  - assert (exists l x, set_words (map net_show cs) = l ++ [x]) as (l & x & ->).
    { destruct cs as [|c cs]; [done|]. clear Hcs. revert c. induction cs as [|d cs IH]; intros c; cbn; [by exists []; eexists|].
      destruct (IH d) as (l & x & E). cbn in E. rewrite E. by exists (((net_show c) +:+ ",") :: l), x. }
    change (str_split " " " }") with [""; "}"]. rewrite splice_snoc, string_app_nil_r.
    change (str_split " " "{ ") with ["{"; ""]. cbn [splice].
    destruct (l ++ [x; "}"]) as [|y t] eqn:E; [by destruct l|]. rewrite string_app_nil_l, <- E, <- app_assoc. done.
  - by destruct cs.
  - apply list.Forall_forall. intros s (n & -> & _)%list_elem_of_fmap. by apply show_free.
Qed.

Lemma split_once_none c s : has_char c s = false -> split_once c s = None.
Proof.
  intros H. destruct (split_once c s) as [[a b]|] eqn:E; [|done].
  apply split_once_some in E as [-> _]. rewrite has_char_app in H. cbn in H. rewrite Ascii.eqb_refl in H.
  by rewrite orb_true_r in H.
Qed.

Lemma read_set_more c toks :
  read_set ((net_show c +:+ ",") :: toks) = ('(ns, rest) ← read_set toks; Some (c :: ns, rest)).
Proof.
  cbn [read_set]. change "," with (String "," ""). rewrite split_once_app by by apply show_free.
  by rewrite net_parse_show.
Qed.

Lemma read_set_words cs rest :
  cs <> [] -> read_set (set_words (map net_show cs) ++ "}" :: rest) = Some (cs, rest).
Proof.
  induction cs as [|c cs IH]; [done|]. intros _. destruct cs as [|d cs].
  - cbn [map set_words app read_set]. rewrite split_once_none by by apply show_free.
    rewrite net_parse_show. done.
  - change (set_words (map net_show (c :: d :: cs))) with ((net_show c +:+ ",") :: set_words (map net_show (d :: cs))).
    rewrite <- app_comm_cons, read_set_more, IH by done. done.
Qed.

(** Ports and protocol. *)
Lemma digits_free c n : 0 <= n -> is_digit c = false -> has_char c (show_uint n) = false.
Proof. apply has_char_show_uint. Qed.

Lemma read_ports_text lo hi :
  0 <= lo < 2 ^ 16 -> 0 <= hi < 2 ^ 16 ->
  read_ports (if lo =? hi then show_uint lo else show_uint lo +:+ "-" +:+ show_uint hi) = Some (lo, hi).
Proof.
  intros Hl Hh. unfold read_ports. destruct (Z.eqb_spec lo hi) as [->|Hne].
  - rewrite split_once_none by (apply digits_free; [lia|done]). by rewrite parse_show_port.
  - change ("-" +:+ show_uint hi) with (String "-" (show_uint hi)).
    rewrite split_once_app by (apply digits_free; [lia|done]). cbn [mbind option_bind]. by rewrite !parse_show_port.
Qed.

(** The words of the match clause of [nft_rule f p]. *)
Definition match_words (p : string) (ports : option (Z * Z)) : list string :=
  match ports with
  | None => ["meta"; "l4proto"; p]
  | Some (lo, hi) =>
      [p; "dport"; "{"; if lo =? hi then show_uint lo else show_uint lo +:+ "-" +:+ show_uint hi; "}"]
  end.

Lemma read_match_words p ports rest :
  p <> "meta" -> (forall lo hi, ports = Some (lo, hi) -> 0 <= lo < 2 ^ 16 /\ 0 <= hi < 2 ^ 16) ->
  read_match (match_words p ports ++ rest) = Some (p, ports, rest).
Proof.
  intros Hp Hr. destruct ports as [[lo hi]|]; [|done]. destruct (Hr lo hi eq_refl) as [Hl Hh].
  cbn [match_words app read_match]. rewrite (proj2 (String.eqb_neq p "meta") Hp). cbn [andb].
  change (String.eqb "dport" "dport" && String.eqb "{" "{") with true. cbv iota.
  by rewrite read_ports_text.
Qed.

Lemma words_proto_match p lo hi :
  has_char " " p = false -> 0 <= lo -> 0 <= hi ->
  str_split " " (proto_match p lo hi) =
  match_words p (if (lo =? 0) && (hi =? 0) then None else Some (lo, hi)).
Proof.
  intros Hp Hl Hh. unfold proto_match.
  assert (Hw : forall n, 0 <= n -> str_split " " (show_uint n) = [show_uint n])
    by (intros n Hn; apply str_split_word, digits_free; done).
  destruct ((lo =? 0) && (hi =? 0)).
  - by rewrite str_split_splice, (str_split_word _ p).
  - destruct (Z.eqb_spec lo hi) as [->|Hne]; cbn [match_words].
    + rewrite !str_split_splice, (str_split_word _ p), Hw by done. rewrite Z.eqb_refl. cbn.
      by rewrite !string_app_nil_r.
    + rewrite !str_split_splice, (str_split_word _ p), !Hw by done. rewrite (proj2 (Z.eqb_neq lo hi)) by done.
      cbn. by rewrite !string_app_nil_r.
Qed.

Lemma splice_empty l r : l <> [] -> splice l ("" :: r) = l ++ r.
Proof.
  intros Hl. destruct l as [|x l _] using rev_ind; [done|]. by rewrite splice_snoc, string_app_nil_r, <- app_assoc.
Qed.

Lemma splice_lead l r : r <> [] -> splice (l ++ [""]) r = l ++ r.
Proof. intros Hr. destruct r as [|b r]; [done|]. by rewrite splice_snoc, string_app_nil_l. Qed.

Lemma id_free c f : writable f -> c ∈ [" "%char; NEWLINE; QUOTE] -> has_char c (fr_rule_id f) = false.
Proof.
  intros [_ _ _ Hid] Hc. apply has_char_all. eapply str_all_impl; [|exact Hid]. intros d. unfold id_char.
  rewrite !(Ascii.eqb_sym c d), !andb_true_iff, !negb_true_iff.
  rewrite !elem_of_cons in Hc. destruct Hc as [-> |[-> |[-> |Hc%elem_of_nil]]]; [by intros [[? ?] ?]..|done].
Qed.

Lemma quoted_free c s : Ascii.eqb c QUOTE = false -> has_char c s = false -> has_char c (quoted s) = false.
Proof. intros H1 H2. unfold quoted. cbn [has_char]. rewrite H1, has_char_app, H2. cbn [has_char]. by rewrite H1. Qed.

Lemma counter_name_free c f : writable f -> c ∈ [" "%char; NEWLINE; QUOTE] -> has_char c ("r_" +:+ fr_rule_id f) = false.
Proof.
  intros Hf Hc. rewrite has_char_app, id_free by done.
  rewrite !elem_of_cons in Hc. destruct Hc as [-> |[-> |[-> |Hc%elem_of_nil]]]; done.
Qed.

Lemma proto_free c f p : p ∈ protos_of (fr_proto f) -> c ∈ [" "%char; NEWLINE] -> has_char c p = false /\ p <> "meta".
Proof.
  intros Hp Hc. assert (p ∈ ["tcp"; "udp"; "icmp"]) as Hin by (destruct (fr_proto f); set_solver).
  rewrite !elem_of_cons in Hin. rewrite !elem_of_cons in Hc.
  destruct Hin as [-> |[-> |[-> |Hin%elem_of_nil]]]; [| | |done]; destruct Hc as [-> |[-> |Hc%elem_of_nil]]; done.
Qed.

Lemma rule_ports_range f p lo hi :
  writable f -> nr_ports (nft_rule f p) = Some (lo, hi) -> 0 <= lo < 2 ^ 16 /\ 0 <= hi < 2 ^ 16.
Proof. intros [_ _ Hr _]. cbn. destruct (orb _ _); [done|]. by intros [= <- <-]. Qed.

(** The ports a line is written with. *)
Lemma rule_line_ports f p :
  writable f -> p ∈ protos_of (fr_proto f) ->
  exists lo hi, (if String.eqb p "icmp" then (0, 0) else (fr_port_lo f, fr_port_hi f)) = (lo, hi) /\ 0 <= lo /\ 0 <= hi /\
    nr_ports (nft_rule f p) = if (lo =? 0) && (hi =? 0) then None else Some (lo, hi).
Proof.
  intros [_ _ Hr _] Hp. cbn. destruct (String.eqb p "icmp"); [exists 0, 0; done|].
  exists (fr_port_lo f), (fr_port_hi f). split_and!; [done|lia|lia|done].
Qed.

Lemma words_rule_line f p :
  writable f -> p ∈ protos_of (fr_proto f) ->
  str_split " " (rule_line f p) =
  [""; ""; ""; ""; "ip"; "saddr"; "{"] ++ set_words (map net_show (fr_src_cidrs f)) ++
  "}" :: ["ip"; "daddr"; "{"] ++ set_words (map net_show (fr_dst_cidrs f)) ++
  "}" :: match_words p (nr_ports (nft_rule f p)) ++
  ["counter"; "name"; quoted ("r_" +:+ fr_rule_id f); verdict (fr_action f)].
Proof.
  intros Hf Hp. destruct (rule_line_ports f p Hf Hp) as (lo & hi & E & Hl & Hh & Ep).
  unfold rule_line. rewrite E, Ep, !str_split_splice.
  rewrite (words_cidr_set (fr_src_cidrs f)), (words_cidr_set (fr_dst_cidrs f)) by apply Hf.
  rewrite words_proto_match by (done || by (apply (proto_free _ f); [done|set_solver])).
  rewrite (str_split_word " " (quoted _)) by (apply quoted_free; [done|apply counter_name_free; [done|set_solver]]).
  rewrite (str_split_word " " (verdict _)) by (by destruct (fr_action f)).
  set (M := match_words p _). assert (HM : M <> []) by (subst M; by destruct (_ && _)).
  set (S := set_words (map net_show (fr_src_cidrs f))). set (D := set_words (map net_show (fr_dst_cidrs f))).
  set (q := quoted _). set (v := verdict _). clearbody M S D q v.
  change (splice (str_split " " " ") [v]) with [""; v]. rewrite (splice_empty [q]) by done.
  change (splice (str_split " " " counter name ") ([q] ++ [v])) with [""; "counter"; "name"; q; v].
  rewrite (splice_empty M) by done. change (str_split " " " ") with ([""] ++ [""]).
  rewrite (splice_lead [""] (M ++ _)) by (by destruct M). cbn [app]. rewrite (splice_empty ("{" :: D ++ ["}"])) by done.
  change (str_split " " " ip daddr ") with ([""; "ip"; "daddr"] ++ [""]). rewrite (splice_lead [""; "ip"; "daddr"]) by done.
  cbn [app]. rewrite (splice_empty ("{" :: S ++ ["}"])) by done.
  change (str_split " " "    ip saddr ") with ([""; ""; ""; ""; "ip"; "saddr"] ++ [""]).
  rewrite (splice_lead [""; ""; ""; ""; "ip"; "saddr"]) by done. cbn [app]. by rewrite <- !app_assoc.
Qed.

Lemma unquote_quoted s : has_char QUOTE s = false -> unquote (quoted s) = Some s.
Proof. intros H. unfold unquote, quoted. rewrite Ascii.eqb_refl. by rewrite split_once_app. Qed.

Lemma read_rule_line f p : writable f -> p ∈ protos_of (fr_proto f) -> read_rule (rule_line f p) = Some (nft_rule f p).
Proof.
  intros Hf Hp. unfold read_rule. rewrite (words_rule_line f p Hf Hp).
  rewrite <- !app_comm_cons. cbn [app expects expect String.eqb Ascii.eqb Bool.eqb mbind option_bind].
  rewrite read_set_words by apply Hf. cbn [mbind option_bind expects expect String.eqb Ascii.eqb Bool.eqb].
  rewrite read_set_words by apply Hf. cbn [mbind option_bind].
  rewrite read_match_words; [|apply (proto_free " " f p); [done|set_solver]|intros; by apply (rule_ports_range f p)].
  cbn [mbind option_bind expects expect String.eqb Ascii.eqb Bool.eqb].
  rewrite unquote_quoted by (apply counter_name_free; [done|set_solver]). by destruct f as [? ? [] ? ? ? ? ?].
Qed.

(** *** Lines *)

Lemma split_writelns ls : sep_free NEWLINE ls -> str_split NEWLINE (writelns ls) = ls ++ [""].
Proof.
  induction 1 as [|l ls Hl Hls IH]; [done|]. cbn [writelns foldr]. fold (writelns ls).
  change (String NEWLINE (writelns ls)) with (String NEWLINE "" +:+ writelns ls).
  rewrite !str_split_splice, IH, (str_split_word _ l) by done.
  change (str_split NEWLINE (String NEWLINE "")) with ([""] ++ [""]).
  rewrite splice_lead by (by destruct ls). cbn [app]. by rewrite (splice_empty [l]).
Qed.

Lemma iface_free c iface :
  validate_iface iface = true -> c ∈ [" "%char; NEWLINE; QUOTE] -> has_char c iface = false.
Proof.
  unfold validate_iface. destruct iface as [|d iface]; [done|]. rewrite !andb_true_iff. intros [[[_ Ha] _] _] Hc.
  apply has_char_all. eapply str_all_impl; [|exact Ha]. intros x Hx. rewrite negb_true_iff. apply Ascii.eqb_neq.
  intros <-. rewrite !elem_of_cons in Hc. by destruct Hc as [-> |[-> |[-> |Hc%elem_of_nil]]].
Qed.

Lemma rule_line_free f p : writable f -> p ∈ protos_of (fr_proto f) -> has_char NEWLINE (rule_line f p) = false.
Proof.
  intros Hf Hp. destruct (rule_line_ports f p Hf Hp) as (lo & hi & E & Hl & Hh & _).
  assert (Hset : forall cs, has_char NEWLINE (cidr_set cs) = false).
  { intros cs. unfold cidr_set. rewrite !has_char_app, has_char_str_join; [done|done|].
    apply list.Forall_forall. intros s (n & -> & _)%list_elem_of_fmap. by apply show_free. }
  assert (Hm : has_char NEWLINE (proto_match p lo hi) = false).
  { assert (Hpf : has_char NEWLINE p = false) by (apply (proto_free _ f); [done|set_solver]).
    unfold proto_match. repeat case_match; rewrite !has_char_app, ?Hpf, ?digits_free by done; done. }
  unfold rule_line. rewrite E, !has_char_app, !Hset, Hm, quoted_free by (done || by apply counter_name_free; [done|set_solver]).
  by destruct (fr_action f).
Qed.

Lemma words_counter name : has_char " " name = false -> str_split " " (counter_line name) = [""; ""; "counter"; name; "{}"].
Proof.
  intros Hn. unfold counter_line. rewrite !str_split_splice, (str_split_word _ name) by done. cbn.
  by rewrite string_app_nil_r.
Qed.

Lemma read_counter_lines names rest :
  Forall (fun n => has_char " " n = false) names ->
  read_counters (map counter_line names ++ "  chain from_fabric {" :: rest) = Some (names, "  chain from_fabric {" :: rest).
Proof.
  induction 1 as [|n names Hn _ IH]; [done|]. cbn [map app read_counters]. rewrite words_counter by done.
  rewrite bool_decide_true by done. by rewrite IH.
Qed.

Lemma read_rules_of flat rest :
  Forall writable flat ->
  read_rules (flat_map write_rule_lines flat ++ DEFAULT_DENY_LINE :: rest) = Some (flat_map nft_rules flat, rest).
Proof.
  induction 1 as [|f flat Hf _ IH]; [cbn [flat_map app read_rules]; by rewrite String.eqb_refl|].
  cbn [flat_map]. rewrite <- app_assoc. unfold write_rule_lines at 1, nft_rules at 1.
  assert (Hall : Forall (fun p => p ∈ protos_of (fr_proto f)) (protos_of (fr_proto f))) by (by apply list.Forall_forall).
  revert Hall. generalize (protos_of (fr_proto f)) at 2 3 4 as ps. intros ps Hall.
  induction Hall as [|p ps Hp _ IHp]; [exact IH|]. cbn [map app read_rules].
  assert (String.eqb (rule_line f p) DEFAULT_DENY_LINE = false) as ->.
  { unfold rule_line. destruct (String.eqb p "icmp"); done. }
  rewrite read_rule_line by done. cbn [mbind option_bind]. by rewrite IHp.
Qed.

Lemma distinct_ids_spec flat id : id ∈ distinct_ids flat <-> id ∈ map fr_rule_id flat.
Proof.
  unfold distinct_ids. set (step := fun (ids : list string) f => _).
  enough (H : forall l, id ∈ foldl step l flat <-> id ∈ l \/ id ∈ map fr_rule_id flat)
    by (rewrite (H []); split; [by intros [?%elem_of_nil|?]|auto]).
  induction flat as [|f flat IH]; intros l; cbn [foldl map]; [split; [auto|by intros [?|?%elem_of_nil]]|].
  rewrite IH. subst step. cbv beta. case_bool_decide; rewrite ?elem_of_app, !elem_of_cons; [|rewrite elem_of_nil; tauto].
  split; [tauto|]. intros [?|[->|?]]; auto.
Qed.

(** The script of a flattened policy. *)
Definition script_of (flat : list FlatRule) (iface : string) : NftScript :=
  {| ns_iface := iface; ns_counters := map (fun id => "r_" +:+ id) (distinct_ids flat) ++ ["default_deny"];
     ns_rules := flat_map nft_rules flat |}.

Lemma script_lines_free flat iface :
  validate_iface iface = true -> Forall writable flat -> sep_free NEWLINE (script_lines flat iface).
Proof.
  intros Hi Hw. assert (Hif : has_char NEWLINE iface = false) by (apply iface_free; [done|set_solver]).
  assert (Hhook : forall chain, has_char NEWLINE chain = false -> has_char NEWLINE (hook_line chain iface) = false).
  { intros chain Hc. unfold hook_line. rewrite !has_char_app, !Hc, quoted_free by done. done. }
  unfold script_lines, sep_free, table_name. rewrite !Forall_app. split_and!.
  - repeat constructor; rewrite !has_char_app, Hif; done.
  - apply list.Forall_forall. intros s (id & -> & Hid)%list_elem_of_fmap.
    apply distinct_ids_spec, list_elem_of_fmap in Hid as (f & -> & Hf).
    unfold counter_line. rewrite !has_char_app, id_free; [done| |set_solver]. by eapply list.Forall_forall in Hw.
  - by repeat constructor.
  - by repeat constructor.
  - apply list.Forall_forall. intros s Hs. apply list_elem_of_In, in_flat_map in Hs as (f & Hf & Hs).
    apply list_elem_of_In in Hf, Hs. apply list_elem_of_fmap in Hs as (p & -> & Hp).
    apply rule_line_free; [|done]. by eapply list.Forall_forall in Hw.
  - repeat constructor; try done; by apply Hhook.
Qed.

Lemma script_reads_back flat iface :
  validate_iface iface = true -> Forall writable flat ->
  read_script (writelns (script_lines flat iface)) = Some (script_of flat iface).
Proof.
  intros Hi Hw. unfold read_script. rewrite split_writelns by (by apply script_lines_free).
  unfold script_lines. cbn [app]. unfold table_name.
  assert (Hp : forall p s, str_strip_prefix p (p +:+ s) = Some s).
  { intros p s. induction p as [|c p IH]; [done|]. rewrite string_app_cons. cbn. by rewrite Ascii.eqb_refl. }
  rewrite Hp. cbn [mbind option_bind]. rewrite Hp. cbn [mbind option_bind expects expect].
  rewrite !String.eqb_refl. cbn [mbind option_bind].
  change ([counter_line "default_deny"]) with (map counter_line ["default_deny"]).
  rewrite <- (map_map (fun id => "r_" +:+ id) counter_line).
  set (names := map _ (distinct_ids flat)).
  assert (Hn : Forall (fun n => has_char " " n = false) (names ++ ["default_deny"])).
  { apply Forall_app. split; [|by repeat constructor]. apply list.Forall_forall. subst names.
    intros s (id & -> & Hid)%list_elem_of_fmap. apply distinct_ids_spec, list_elem_of_fmap in Hid as (f & -> & Hf).
    apply counter_name_free; [by eapply list.Forall_forall in Hw|set_solver]. }
  pose proof (read_counter_lines (names ++ ["default_deny"]) ("    ct state established,related counter accept" ::
    flat_map write_rule_lines flat ++ [DEFAULT_DENY_LINE; "  }"; hook_line "input" iface; hook_line "forward" iface; "}"; ""]) Hn) as Hc.
  rewrite map_app, <- app_assoc in Hc. cbn [map app] in Hc |- *. rewrite <- !app_assoc. cbn [app]. rewrite <- !app_assoc. cbn [app].
  rewrite Hc. cbn [mbind option_bind expects expect].
  rewrite !String.eqb_refl. cbn [mbind option_bind expect]. rewrite String.eqb_refl. cbn [mbind option_bind].
  rewrite read_rules_of by done. cbn [mbind option_bind expects expect].
  rewrite !String.eqb_refl. cbn [mbind option_bind expect]. repeat (rewrite String.eqb_refl; cbn [mbind option_bind expect]).
  done.
Qed.
End reads_back.

(** ** The two backends agree *)

Section agree.
Context {N : Ipv4NetApi} {NL : Ipv4NetLaws N}.

(** The flat rules on which both readings of ports and protocols coincide. *)
Definition port_sane (f : FlatRule) : Prop :=
  (fr_port_hi f = 0 -> fr_port_lo f = 0) /\
  (fr_proto f = Icmp \/ fr_proto f = AnyProto -> fr_port_hi f = 0).

Lemma nft_rule_ports_any pkt f p :
  port_sane f -> fr_port_hi f = 0 -> nft_matches pkt (nft_rule f p) =
  existsb (net_hasb (pk_src pkt)) (fr_src_cidrs f) && existsb (net_hasb (pk_dst pkt)) (fr_dst_cidrs f) &&
  (pk_proto pkt =? l4proto p).
Proof.
  intros [Hs _] Hh. unfold nft_matches. cbn [nft_rule nr_src nr_dst nr_proto nr_ports].
  rewrite Hh, Hs by done. cbn. by rewrite orb_true_r, andb_true_r.
Qed.

Lemma nft_rules_match pkt f : port_sane f -> existsb (nft_matches pkt) (nft_rules f) = flat_matches pkt f.
Proof.
  intros Hf. unfold nft_rules, flat_matches, port_in. cbn [fst snd].
  destruct (Z.eqb_spec (fr_port_hi f) 0) as [Hh|Hh].
  - destruct (fr_proto f); cbn [protos_of map existsb]; rewrite !nft_rule_ports_any by done; cbn [proto_matches l4proto orb];
      change (l4proto "tcp") with 6; change (l4proto "udp") with 17; change (l4proto "icmp") with 1;
      destruct (existsb _ (fr_src_cidrs f)), (existsb _ (fr_dst_cidrs f)); cbn; rewrite ?orb_false_r, ?andb_true_r; try done.
    destruct (pk_proto pkt =? 1), (pk_proto pkt =? 6), (pk_proto pkt =? 17); done.
  - destruct Hf as [_ Hp]. assert (Hm : forall p, p <> "icmp" -> nft_matches pkt (nft_rule f p) =
      existsb (net_hasb (pk_src pkt)) (fr_src_cidrs f) && existsb (net_hasb (pk_dst pkt)) (fr_dst_cidrs f) &&
      (pk_proto pkt =? l4proto p) && ((fr_port_lo f <=? pk_dport pkt) && (pk_dport pkt <=? fr_port_hi f))).
    { intros p Hi. unfold nft_matches. cbn [nft_rule nr_src nr_dst nr_proto nr_ports].
      rewrite (proj2 (String.eqb_neq p "icmp") Hi), (proj2 (Z.eqb_neq (fr_port_hi f) 0) Hh), andb_false_r. done. }
    destruct (fr_proto f); cbn [protos_of map existsb]; [rewrite Hm by done; by rewrite orb_false_r..| |];
      (destruct Hh; auto).
Qed.

Lemma nft_rules_action f p : nr_action (nft_rule f p) = fr_action f.
Proof. done. Qed.

(** The chain's first match is the flat list's first match. *)
Lemma nft_first_match pkt flat :
  Forall port_sane flat ->
  first_match nr_action (nft_matches pkt) (flat_map nft_rules flat) = flat_verdict flat pkt.
Proof.
  unfold flat_verdict. induction 1 as [|f flat Hf _ IH]; [done|]. cbn [flat_map]. rewrite first_match_app, nft_rules_match by done.
  unfold first_match at 3. cbn [List.find]. destruct (flat_matches pkt f) eqn:E; [|exact IH].
  rewrite <- (nft_rules_match pkt f Hf) in E. unfold first_match, nft_rules in *.
  induction (protos_of (fr_proto f)) as [|p ps IHp]; [done|]. cbn in E |- *.
  destruct (nft_matches pkt (nft_rule f p)); [done|]. by apply IHp.
Qed.

(** A fresh packet is charged to the counter of the rule that decides it. *)
Lemma nft_counter_charged pkt flat iface :
  Forall port_sane flat ->
  nft_counter (script_of flat iface) pkt =
  match List.find (flat_matches pkt) flat with Some f => "r_" +:+ fr_rule_id f | None => "default_deny" end.
Proof.
  unfold nft_counter. cbn [ns_rules script_of]. induction 1 as [|f flat Hf _ IH]; [done|].
  cbn [flat_map List.find]. rewrite find_app, <- (nft_rules_match pkt f Hf). unfold nft_rules.
  induction (protos_of (fr_proto f)) as [|p ps IHp]; [exact IH|]. cbn.
  by destruct (nft_matches pkt (nft_rule f p)).
Qed.

(** *** What the compiler guarantees of the flat rules *)

Lemma hex_id_char s : str_all id_char (hex_encode s) = true.
Proof.
  induction s as [|c s IH]; [done|]. cbn [hex_encode]. cbv zeta. cbn [str_all]. rewrite IH, andb_true_r.
  assert (Hd : forall n, (n < 16)%nat -> id_char (hex_digit n) = true).
  { intros n Hn. do 16 (destruct n as [|n]; [done|]). lia. }
  rewrite !Hd; [done| |]; pose proof (nat_ascii_bounded c).
  - apply Nat.mod_upper_bound. lia.
  - apply Nat.Div0.div_lt_upper_bound. lia.
Qed.

Lemma compiled_rules sha256 segments doc version ir x :
  doc_ok segments doc -> compile sha256 doc segments version = Ok (Ok ir) ->
  x ∈ concat (map ib_rules (pi_blocks ir)) -> str_all id_char (ir_rule_id x) = true /\ ir_rule_ports_ok x.
Proof.
  intros Hdoc Hc Hx. destruct (compile_inv sha256 doc segments version ir Hdoc Hc) as (_ & _ & _ & Hm & Hok).
  apply list_elem_of_In, in_concat in Hx as (rules & Hr & Hx). apply list_elem_of_In, list_elem_of_fmap in Hr as (b & -> & Hb).
  apply list_elem_of_In in Hx. apply list_elem_of_lookup in Hb as [i Hi].
  destruct (Forall2_lookup_r _ _ _ _ _ Hm Hi) as (block & _ & (f & t & _ & _ & _ & _ & _ & _ & Hrules)).
  pose proof (list.Forall_lookup_1 _ _ _ _ Hok Hi) as (_ & _ & Hports).
  split; [|by eapply list.Forall_forall in Hports].
  apply list_elem_of_lookup in Hx as [j Hj]. destruct (Forall2_lookup_r _ _ _ _ _ Hrules Hj) as (rule & _ & [-> _]).
  apply hex_id_char.
Qed.

Lemma compiled_flat_sane sha256 segments doc version ir flat :
  doc_ok segments doc -> compile sha256 doc segments version = Ok (Ok ir) -> flatten ir = Ok flat ->
  Forall (fun f => writable f /\ port_sane f) flat.
Proof.
  intros Hdoc Hc Hf. apply flatten_iff in Hf as (rs & (_ & Hres & Hne & _) & ->).
  apply list.Forall_forall. intros f Hin. apply list_elem_of_lookup in Hin as [i Hi].
  apply imap_lookup_map in Hi as (f0 & Hi & ->). apply list_elem_of_lookup_2 in Hi.
  unfold expand in Hi. apply list_elem_of_In, in_concat in Hi as (fs & Hfs & Hi).
  apply list_elem_of_In, list_elem_of_fmap in Hfs as (x & -> & Hx). apply list_elem_of_In in Hi.
  unfold explode in Hi. apply list_elem_of_fmap in Hi as (range & -> & Hrange).
  assert (Hrule : x.1 ∈ concat (map ib_rules (pi_blocks ir)))
    by (rewrite <- (resolve_rules _ _ Hres); by apply list_elem_of_fmap_2).
  destruct (compiled_rules sha256 segments doc version ir x.1 Hdoc Hc Hrule) as [Hid [Hports Htcp]].
  eapply list.Forall_forall in Hne as [Hsrc Hdst]; [|exact Hx].
  assert (Hr : range = (0, 0) \/ (port_range_ok range /\ (ir_proto x.1 = Tcp \/ ir_proto x.1 = Udp))).
  { destruct (ir_ports x.1) as [|p ps] eqn:E; [left; by apply list_elem_of_singleton in Hrange|right].
    split; [by eapply list.Forall_forall in Hports|by apply Htcp]. }
  unfold port_range_ok in Hr. unfold port_sane.
  split; [split; cbn; [done|done| |done]|split; cbn]; destruct Hr as [-> |[[H1 H2] Hp]]; cbn in *;
    try lia; try done; intros [E|E]; rewrite E in Hp; destruct Hp; done.
Qed.
End agree.

Section enforces.
Context {N : Ipv4NetApi} {NL : Ipv4NetLaws N} {T : LpmTrieApi} {TL : LpmTrieLaws T}.
Context {L : LruApi} {LL : LruLaws L}.

(** What the codegen writes is read back as what it was given: for a flattened
    policy with nonempty sides, 16-bit ports and one-word rule ids, the script holds the
    interface, one counter per distinct rule id in order of appearance with the default
    one last, and each flat rule's statements in order, with its networks, ports, counter
    and verdict. *)
Theorem ruleset_reads_back ir iface flat text :
  ruleset ir iface = Ok text -> flatten ir = Ok flat -> Forall writable flat ->
  read_script text = Some (script_of flat iface).
Proof.
  unfold ruleset. destruct (validate_iface iface) eqn:Hi; [|done]. intros Hr Hf Hw. rewrite Hf in Hr.
  injection Hr as <-. by apply script_reads_back.
Qed.

(** C3: Both backends enforce the document: for a document that parsed and compiled, the
    nftables script of any valid interface is written and reads back, the eBPF maps
    load, and on every fresh packet the chain's first match, the kernel program's
    decision and the reading of the document in order agree. *)
Theorem backends_agree sha256 from_str yaml segments doc version ir s gen now iface :
  parse_policy from_str yaml segments = Ok doc ->
  compile sha256 doc segments version = Ok (Ok ir) -> shaped s -> validate_iface iface = true ->
  exists text script ws gen',
    ruleset ir iface = Ok text /\ read_script text = Some script /\ apply s gen ir now = Some (ws, gen') /\
    (forall pkt, nft_verdict script false pkt = dsl_verdict segments doc pkt) /\
    (forall pkt k t, packet_key pkt = Some k -> packet_embedded pkt = Some None ->
       0 <= fk_src k < 2 ^ 32 -> 0 <= fk_dst k < 2 ^ 32 ->
       let s' := exec_writes s ws in
       live s' (reverse_key k) t = false -> live s' k t = false ->
       (aeth_ingress pkt t s').1 = TC_ACT_PIPE <->
       nft_verdict script false (host_packet (fk_src k) (fk_dst k) (fk_proto k) (fk_dport k)) = Allow).
Proof.
  intros [_ Hdoc]%parse_policy_inv Hc Hs Hi.
  destruct (compiled_flattens sha256 segments doc version ir Hdoc Hc) as (flat & Hf & _ & Hv).
  destruct (apply_succeeds s gen ir now flat Hf) as (ws & gen' & Ha).
  pose proof (compiled_flat_sane sha256 segments doc version ir flat Hdoc Hc Hf) as Hsane.
  assert (Hw : Forall writable flat) by (eapply list.Forall_impl; [exact Hsane|by intros f []]).
  assert (Hp : Forall port_sane flat) by (eapply list.Forall_impl; [exact Hsane|by intros f []]).
  assert (Hn : forall pkt, nft_verdict (script_of flat iface) false pkt = dsl_verdict segments doc pkt).
  { intros pkt. unfold nft_verdict. cbn [ns_rules script_of]. by rewrite nft_first_match, Hv. }
  eexists _, (script_of flat iface), ws, gen'. split_and!; [|by apply script_reads_back|done|done|].
  - unfold ruleset. by rewrite Hi, Hf.
  - intros pkt k t Hk He Hsrc Hdst s' Hl1 Hl2. rewrite Hn.
    pose proof (apply_installs _ _ _ _ _ _ _ Hs Ha Hf) as Hinst.
    destruct (try_ingress_run pkt t s') as (s2 & E & _). rewrite E. cbn [fst].
    unfold ingress_passes. rewrite Hk, He, Hl1, Hl2. cbn [orb]. unfold key_allowed.
    rewrite (scan_allows_installed flat) by done. rewrite Hv.
    destruct (dsl_verdict segments doc _); simpl; split; done.
Qed.
End enforces.

(** ** The enforcer *)

(** [serde_json::Value], as far as the counter listing is read. *)
#[warnings="-register-all"] Inductive Value : Type :=
| Object (fields : list (string * Value))
| Array (items : list Value)
| Text (s : string)
| U64 (n : Z)
| Other.

Definition get (key : string) (v : Value) : option Value :=
  match v with
  | Object fields => snd <$> List.find (fun f : string * Value => String.eqb (fst f) key) fields
  | _ => None
  end.
Definition json_str (v : Value) : option string := match v with Text s => Some s | _ => None end.
Definition json_u64 (v : Value) : option Z := match v with U64 n => Some n | _ => None end.
Definition json_array (v : Value) : option (list Value) := match v with Array l => Some l | _ => None end.

(** One entry of the listing. *)
Definition fold_counter_entry (table : string) (c : Counters) (entry : Value) : Counters :=
  match get "counter" entry with
  | None => c
  | Some counter =>
      if bool_decide (get "table" counter ≫= json_str = Some table) then
        match get "name" counter ≫= json_str with
        | None => c
        | Some name =>
            let packets := default 0 (get "packets" counter ≫= json_u64) in
            match str_strip_prefix "r_" name with
            | Some rule_id => {| by_rule := <[rule_id := packets]> (by_rule c); default_deny := default_deny c |}
            | None =>
                if String.eqb name "default_deny" then {| by_rule := by_rule c; default_deny := packets |} else c
            end
        end
      else c
  end.

Definition counters_default : Counters := {| by_rule := ∅; default_deny := 0 |}.

Fixpoint str_contains (p s : string) : bool :=
  String.prefix p s || match s with EmptyString => false | String _ s' => str_contains p s' end.

(** The outcome of a child process: exit status, standard output, standard error. *)
Record Output : Type := { o_success : bool; o_stdout : string; o_stderr : string }.

Section enforcer.
Context {N : Ipv4NetApi} {W : Type}.

(** The programs, over the kernel state [W]: [nft -f -] with a script, [nft -j list
    counters table ip], and [conntrack -F]; and the JSON reader. *)
Context (nft_f : string -> W -> Output * W) (nft_list : string -> W -> Output) (conntrack_f : W -> Output * W).
Context (from_slice : string -> result string Value).

Definition parse_counters_json (bytes table : string) : result NftError Counters :=
  match from_slice bytes with
  | Err e => Err (BadJson e)
  | Ok value =>
      Ok (foldl (fold_counter_entry table) counters_default (default [] (get "nftables" value ≫= json_array)))
  end.

Definition read_live_counters (iface : string) (w : W) : result NftError Counters :=
  let table := table_name iface in
  let out := nft_list table w in
  if o_success out then parse_counters_json (o_stdout out) table
  else if str_contains "No such file or directory" (o_stderr out) || str_contains "does not exist" (o_stderr out)
  then Ok counters_default
  else Err (ListFailed (trim (o_stderr out))).

Definition apply_script (script : string) (w : W) : result NftError unit * W :=
  let '(out, w') := nft_f script w in
  if o_success out then (Ok tt, w') else (Err (NftRejected (trim (o_stderr out))), w').

Definition stale_ids (live : Counters) (flat : list FlatRule) : list string :=
  List.filter (fun id => negb (bool_decide (id ∈ map fr_rule_id flat)))
    (sort_text (map fst (map_to_list (by_rule live)))).

Definition delete_script (table : string) (stale : list string) : string :=
  writelns (map (fun id => "delete counter ip " +:+ table +:+ " r_" +:+ id) stale).

Definition nft_prune_retired_counters (iface : string) (flat : list FlatRule) (w : W) : W :=
  match read_live_counters iface w with
  | Err _ => w
  | Ok live =>
      match stale_ids live flat with
      | [] => w
      | stale => snd (apply_script (delete_script (table_name iface) stale) w)
      end
  end.

(** [Enforcer::apply]. *)
Definition nft_apply (iface : string) (ir : PolicyIR) (w : W) : result NftError unit * W :=
  match flatten ir with
  | Err e => (Err (FlattenFailed e), w)
  | Ok flat =>
      match ruleset ir iface with
      | Err e => (Err e, w)
      | Ok script =>
          match apply_script script w with
          | (Err e, w1) => (Err e, w1)
          | (Ok _, w1) => (Ok tt, nft_prune_retired_counters iface flat w1)
          end
      end
  end.

Definition nft_apply_ready_at : option Z := None.

Definition nft_counters (iface : string) (w : W) : result NftError Counters := read_live_counters iface w.

Definition nft_flush_flows (w : W) : result NftError unit * W :=
  let '(out, w') := conntrack_f w in
  if o_success out then (Ok tt, w') else (Err (ConntrackFailed (trim (o_stderr out))), w').

Definition nft_deny_events : list DenyEvent := [].

(** nft(8): a rejected script leaves everything as it was. *)
Hypothesis nft_atomic : forall script w, o_success (fst (nft_f script w)) = false -> snd (nft_f script w) = w.

(** C39: [apply] of the nftables backend keeps its contract: an error means that the
    kernel is as before; success means that the script of the policy was committed, and
    that nothing was run after it but the deletion of counters of rules the policy does
    not have, whose failure is not reported. *)
Theorem nft_apply_contract iface ir w :
  match nft_apply iface ir w with
  | (Err _, w') => w' = w
  | (Ok _, w') => exists flat script out w1 stale,
      flatten ir = Ok flat /\ ruleset ir iface = Ok script /\
      nft_f script w = (out, w1) /\ o_success out = true /\
      (forall id, id ∈ stale -> id ∉ map fr_rule_id flat) /\
      (w' = w1 \/ w' = snd (nft_f (delete_script (table_name iface) stale) w1))
  end.
Proof.
  unfold nft_apply. destruct (flatten ir) as [flat|e] eqn:Hf; [|done].
  destruct (ruleset ir iface) as [script|e] eqn:Hr; [|done].
  unfold apply_script. pose proof (nft_atomic script w) as Hat. destruct (nft_f script w) as [out w1] eqn:E.
  cbn [fst snd] in *. destruct (o_success out) eqn:Ho; [|by apply Hat].
  unfold nft_prune_retired_counters.
  destruct (read_live_counters iface w1) as [live|e].
  - exists flat, script, out, w1, (stale_ids live flat). split_and!; [done..| |].
    + intros id Hid. apply list_elem_of_In, filter_In in Hid as [_ Hid]. by apply negb_true_iff, bool_decide_eq_false in Hid.
    + destruct (stale_ids live flat) as [|x l]; [by left|]. right. unfold apply_script.
      destruct (nft_f _ w1) as [out2 w2]. by destruct (o_success out2).
  - exists flat, script, out, w1, []. split_and!; [done..|by intros id ?%elem_of_nil|by left].
Qed.
End enforcer.

(** ** Concrete runs *)

(** A kernel that holds the accepted scripts and rejects a script without a table. *)
Definition log_nft (script : string) (w : list string) : Output * list string :=
  if str_contains "ip" script then ({| o_success := true; o_stdout := ""; o_stderr := "" |}, w ++ [script])
  else ({| o_success := false; o_stdout := ""; o_stderr := "syntax error" |}, w).

(** A listing that shows one rule of an older policy. *)
Definition old_listing : Value :=
  let counter name := Object [("counter", Object [("table", Text "wiremesh_wg0"); ("name", Text name); ("packets", U64 3)])] in
  Object [("nftables", Array [Object [("metainfo", Other)]; counter "r_gone"; counter "r_carve_deny"; counter "default_deny"])].
Definition log_list (table : string) (w : list string) : Output :=
  {| o_success := true; o_stdout := "json"; o_stderr := "" |}.

Example carve_out_applied :
  nft_apply (N := SimpleNet) log_nft log_list (fun _ => Ok old_listing) "wg0" carve_out [] =
  (Ok tt, [ok_or "" (ruleset (N := SimpleNet) carve_out "wg0"); writelns ["delete counter ip wiremesh_wg0 r_gone"]]).
Proof. vm_compute. done. Qed.

Lemma nft_apply_contract_witness :
  exists flat script out w1 stale,
    flatten (N := SimpleNet) carve_out = Ok flat /\ ruleset (N := SimpleNet) carve_out "wg0" = Ok script /\
    log_nft script [] = (out, w1) /\ o_success out = true /\
    (forall id, id ∈ stale -> id ∉ map fr_rule_id flat) /\
    (snd (nft_apply (N := SimpleNet) log_nft log_list (fun _ => Ok old_listing) "wg0" carve_out []) = w1 \/
     snd (nft_apply (N := SimpleNet) log_nft log_list (fun _ => Ok old_listing) "wg0" carve_out []) =
       snd (log_nft (delete_script (table_name "wg0") stale) w1)).
Proof.
  pose proof (nft_apply_contract (N := SimpleNet) log_nft log_list (fun _ => Ok old_listing)
    (fun script w => ltac:(unfold log_nft; destruct (str_contains "ip" script); done)) "wg0" carve_out []) as H.
  rewrite carve_out_applied in H |- *. exact H.
Defined.

Lemma ruleset_reads_back_witness :
  read_script (N := SimpleNet) (ok_or "" (ruleset carve_out "wg0")) =
  Some (script_of (ok_or [] (flatten carve_out)) "wg0").
Proof.
  apply (ruleset_reads_back (N := SimpleNet) carve_out "wg0" (ok_or [] (flatten carve_out))).
  - apply ok_or_ok. vm_compute. done.
  - apply ok_or_ok. vm_compute. done.
  - assert (Hall : forallb (fun f : FlatRule => negb (bool_decide (fr_src_cidrs f = [])) && negb (bool_decide (fr_dst_cidrs f = [])) &&
      (0 <=? fr_port_lo f) && (fr_port_lo f <? 2 ^ 16) && (0 <=? fr_port_hi f) && (fr_port_hi f <? 2 ^ 16) &&
      str_all id_char (fr_rule_id f)) (ok_or [] (flatten (N := SimpleNet) carve_out)) = true) by (vm_compute; done).
    apply list.Forall_forall. intros f Hf. pose proof (proj1 (List.forallb_forall _ _) Hall f (proj1 (list_elem_of_In _ _) Hf)) as H.
    cbn beta in H. bool_to_prop.
    repeat match goal with H : bool_decide _ = false |- _ => apply bool_decide_eq_false in H end. by split.
Defined.

Lemma backends_agree_witness :
  exists text script ws gen',
    ruleset (N := SimpleNet) test_ir "wg0" = Ok text /\ read_script text = Some script /\
    apply (N := SimpleNet) test_boot gen_default test_ir 5 = Some (ws, gen') /\
    forall pkt, nft_verdict script false pkt = dsl_verdict test_segments (test_doc [test_rule_ok; test_rule_deny]) pkt.
Proof.
  destruct (backends_agree (N := SimpleNet) (fun s => s) (fun _ => Ok (test_doc [test_rule_ok; test_rule_deny])) "" test_segments
    (test_doc [test_rule_ok; test_rule_deny]) 7 test_ir test_boot gen_default 5 "wg0"
    ltac:(vm_compute; reflexivity) ltac:(vm_compute; reflexivity) test_boot_shaped ltac:(vm_compute; reflexivity))
    as (text & script & ws & gen' & H1 & H2 & H3 & H4 & _).
  exists text, script, ws, gen'. exact (conj H1 (conj H2 (conj H3 H4))).
Defined.
