(* ===== verification/GwPath.v ===== *)
(** * Gateway: one peer's path state machine

    [crates/wiremesh-gateway/src/path.rs].  [Path] is the per-peer record the
    driver keeps; [tick], [on_handshake] and [on_authenticated_inbound] are its
    three operations.  An [Instant] is a [Z] of nanoseconds and
    [saturating_duration_since] is [sat_sub].  A run is a sequence of events in
    the order the driver delivers them, with non-decreasing instants. *)
From Stdlib Require Import ZArith Lia.
From S2P Require Import Prelude.
Open Scope Z_scope.

(** [uapi::PERSISTENT_KEEPALIVE_SECS]. *)
Definition PERSISTENT_KEEPALIVE_SECS : Z := 25.
Definition KEEPALIVE : Z := secs PERSISTENT_KEEPALIVE_SECS.
Definition CONNECT_TIMEOUT : Z := secs 10.
Definition DEGRADED_AFTER : Z := secs 45.
Definition DEGRADED_DEAD_AFTER : Z := CONNECT_TIMEOUT.
Definition BACKOFF_INITIAL : Z := secs 2.
Definition BACKOFF_MAX : Z := secs 30.
Definition PROBE_DIRECT_INTERVAL : Z := secs 20.

Inductive PathState : Type := Connecting | Direct | Degraded | Relayed | Disconnected.

#[export] Instance PathState_eq_dec : EqDecision PathState.
Proof. solve_decision. Defined.

Definition as_str (s : PathState) : string :=
  match s with
  | Connecting => "connecting"
  | Direct => "direct"
  | Degraded => "degraded"
  | Relayed => "relayed"
  | Disconnected => "disconnected"
  end.

Definition directive_should_punch (state : option PathState) (relay_pointed : bool) : bool :=
  (match state with None | Some Connecting => true | _ => false end && negb relay_pointed)%bool.

Definition settled (s : PathState) : bool :=
  match s with Direct | Relayed => true | _ => false end.

Definition transition_crosses_settled_boundary (before after : PathState) : bool :=
  negb (Bool.eqb (settled before) (settled after)).

Inductive PathAction : Type := StartPunch | MarkRelayNeeded | RelayDied | Retry | ProbeDirect.

#[export] Instance PathAction_eq_dec : EqDecision PathAction.
Proof. solve_decision. Defined.

Record Path : Type := {
  state : PathState;
  last_handshake : option Z;
  last_inbound : option Z;
  connecting_since : Z;
  backoff : Z;
  degraded_since : option Z;
  disconnected_since : option Z;
  relayed_probe_last : option Z }.

Definition new (now : Z) : Path :=
  {| state := Connecting; last_handshake := None; last_inbound := None;
     connecting_since := now; backoff := BACKOFF_INITIAL; degraded_since := None;
     disconnected_since := None; relayed_probe_last := None |}.

Definition on_handshake (p : Path) (now : Z) (rx_corroborated : bool) : Path :=
  if negb rx_corroborated then p else
  {| state := Direct; last_handshake := Some now; last_inbound := Some now;
     connecting_since := connecting_since p; backoff := BACKOFF_INITIAL;
     degraded_since := None; disconnected_since := None; relayed_probe_last := None |}.

Definition on_authenticated_inbound (p : Path) (now : Z) : Path :=
  {| state := state p; last_handshake := last_handshake p; last_inbound := Some now;
     connecting_since := connecting_since p; backoff := backoff p;
     degraded_since := degraded_since p; disconnected_since := disconnected_since p;
     relayed_probe_last := relayed_probe_last p |}.

(** [self.last_inbound.or(self.last_handshake)]. *)
Definition last_evidence (p : Path) : option Z :=
  match last_inbound p with Some t => Some t | None => last_handshake p end.

(** The escalation [Connecting] and [Degraded] share: ride the relay when one
    is available, otherwise park. *)
Definition escalate (p : Path) (now : Z) (relay_available : bool) : Path :=
  if relay_available then
    {| state := Relayed; last_handshake := last_handshake p; last_inbound := last_inbound p;
       connecting_since := connecting_since p; backoff := backoff p;
       degraded_since := degraded_since p; disconnected_since := disconnected_since p;
       relayed_probe_last := Some now |}
  else
    {| state := Disconnected; last_handshake := last_handshake p; last_inbound := last_inbound p;
       connecting_since := connecting_since p; backoff := backoff p;
       degraded_since := degraded_since p; disconnected_since := Some now;
       relayed_probe_last := relayed_probe_last p |}.

Definition tick_connecting (p : Path) (now : Z) (relay_available : bool) : Path * option PathAction :=
  if CONNECT_TIMEOUT <=? sat_sub now (connecting_since p)
  then (escalate p now relay_available, Some MarkRelayNeeded)
  else (p, None).

Definition tick_direct (p : Path) (now : Z) : Path * option PathAction :=
  match last_evidence p with
  | Some last =>
      if DEGRADED_AFTER <=? sat_sub now last then
        ({| state := Degraded; last_handshake := last_handshake p; last_inbound := last_inbound p;
            connecting_since := connecting_since p; backoff := backoff p;
            degraded_since := Some now; disconnected_since := disconnected_since p;
            relayed_probe_last := relayed_probe_last p |}, Some Retry)
      else (p, None)
  | None => (p, None)
  end.

Definition tick_degraded (p : Path) (now : Z) (relay_available : bool) : Path * option PathAction :=
  let since := default now (degraded_since p) in
  if DEGRADED_DEAD_AFTER <=? sat_sub now since
  then (escalate p now relay_available, Some MarkRelayNeeded)
  else (p, Some Retry).

Definition tick_relayed (p : Path) (now : Z) (relay_available : bool) : Path * option PathAction :=
  if relay_available then
    let due := match relayed_probe_last p with
               | None => true
               | Some last => PROBE_DIRECT_INTERVAL <=? sat_sub now last
               end in
    if due then
      ({| state := state p; last_handshake := last_handshake p; last_inbound := last_inbound p;
          connecting_since := connecting_since p; backoff := backoff p;
          degraded_since := degraded_since p; disconnected_since := disconnected_since p;
          relayed_probe_last := Some now |}, Some ProbeDirect)
    else (p, None)
  else
    ({| state := Disconnected; last_handshake := last_handshake p; last_inbound := last_inbound p;
        connecting_since := connecting_since p; backoff := backoff p;
        degraded_since := degraded_since p; disconnected_since := Some now;
        relayed_probe_last := None |}, Some RelayDied).

Definition tick_disconnected (p : Path) (now : Z) : Path * option PathAction :=
  let since := default now (disconnected_since p) in
  if backoff p <=? sat_sub now since then
    ({| state := Connecting; last_handshake := last_handshake p; last_inbound := last_inbound p;
        connecting_since := now; backoff := Z.min (backoff p * 2) BACKOFF_MAX;
        degraded_since := degraded_since p; disconnected_since := None;
        relayed_probe_last := relayed_probe_last p |}, Some StartPunch)
  else (p, None).

Definition tick (p : Path) (now : Z) (relay_available : bool) : Path * option PathAction :=
  match state p with
  | Connecting => tick_connecting p now relay_available
  | Direct => tick_direct p now
  | Degraded => tick_degraded p now relay_available
  | Relayed => tick_relayed p now relay_available
  | Disconnected => tick_disconnected p now
  end.

(** ** Runs *)

Inductive Event : Type :=
| ETick (now : Z) (relay_available : bool)
| EHandshake (now : Z) (rx_corroborated : bool)
| EInbound (now : Z).

Definition etime (e : Event) : Z :=
  match e with ETick now _ => now | EHandshake now _ => now | EInbound now => now end.

Definition step (p : Path) (e : Event) : Path * option PathAction :=
  match e with
  | ETick now relay => tick p now relay
  | EHandshake now corr => (on_handshake p now corr, None)
  | EInbound now => (on_authenticated_inbound p now, None)
  end.

(** The path and the time-stamped actions emitted so far. *)
Definition run1 (s : Path * list (Z * PathAction)) (e : Event) : Path * list (Z * PathAction) :=
  let '(p', a) := step (fst s) e in
  (p', snd s ++ match a with Some a => [(etime e, a)] | None => [] end).

Definition run (p : Path) (evs : list Event) : Path * list (Z * PathAction) :=
  foldl run1 (p, []) evs.

(** The driver's clock: instants never go back. *)
Fixpoint monotone (t : Z) (evs : list Event) : Prop :=
  match evs with [] => True | e :: evs' => t <= etime e /\ monotone (etime e) evs' end.

Definition clock (t : Z) (evs : list Event) : Z := foldl (fun _ e => etime e) t evs.

Lemma run_snoc p evs e : run p (evs ++ [e]) = run1 (run p evs) e.
Proof. unfold run. by rewrite foldl_app. Qed.

Lemma clock_snoc t evs e : clock t (evs ++ [e]) = etime e.
Proof. unfold clock. by rewrite foldl_app. Qed.

Lemma monotone_snoc t evs e :
  monotone t (evs ++ [e]) <-> monotone t evs /\ clock t evs <= etime e.
Proof.
  revert t. induction evs as [|e' evs IH]; intros t; cbn.
  - tauto.
  - rewrite IH. unfold clock. cbn. tauto.
Qed.

Lemma monotone_start t evs e : monotone t evs -> e ∈ evs -> t <= etime e.
Proof.
  revert t. induction evs as [|e' evs IH]; intros t H He; [by apply elem_of_nil in He|].
  destruct H as [H1 H2]. apply elem_of_cons in He as [-> | He]; [done|].
  specialize (IH _ H2 He). lia.
Qed.

(** A property of every reachable path is proved by one step. *)
Lemma path_invariant (I : list Event -> Z -> Path -> list (Z * PathAction) -> Prop) t0 p0 :
  I [] t0 p0 [] ->
  (forall evs e p acts now,
     I evs now p acts -> now <= etime e ->
     I (evs ++ [e]) (etime e) (fst (step p e))
       (acts ++ match snd (step p e) with Some a => [(etime e, a)] | None => [] end)) ->
  forall evs, monotone t0 evs ->
    I evs (clock t0 evs) (fst (run p0 evs)) (snd (run p0 evs)).
Proof.
  intros H0 Hs evs. induction evs as [|e evs IH] using rev_ind; intros Hm; [exact H0|].
  apply monotone_snoc in Hm as [Hm Hle]. specialize (IH Hm).
  rewrite run_snoc, clock_snoc. unfold run1.
  pose proof (Hs _ _ _ _ _ IH Hle) as H.
  destruct (step (fst (run p0 evs)) e) as [p' a]. exact H.
Qed.

(** ** Well-formedness

    Which timer is armed in which state, how the back-off is bounded, and that
    no recorded instant lies in the future. *)

Definition past (now : Z) (o : option Z) : Prop := match o with Some t => t <= now | None => True end.

Record wf (now : Z) (p : Path) : Prop := {
  wf_backoff : BACKOFF_INITIAL <= backoff p <= BACKOFF_MAX;
  wf_connecting : connecting_since p <= now;
  wf_inbound : past now (last_inbound p);
  wf_degraded : past now (degraded_since p);
  wf_disconnected : past now (disconnected_since p);
  wf_probe : past now (relayed_probe_last p);
  wf_state :
    match state p with
    | Connecting => disconnected_since p = None /\ relayed_probe_last p = None
    | Direct => is_Some (last_inbound p) /\ is_Some (last_handshake p) /\
                degraded_since p = None /\ disconnected_since p = None /\ relayed_probe_last p = None
    | Degraded => is_Some (degraded_since p) /\ disconnected_since p = None /\ relayed_probe_last p = None
    | Relayed => is_Some (relayed_probe_last p) /\ disconnected_since p = None
    | Disconnected => is_Some (disconnected_since p) /\ relayed_probe_last p = None
    end }.

Ltac path_consts :=
  unfold BACKOFF_INITIAL, BACKOFF_MAX, CONNECT_TIMEOUT, DEGRADED_AFTER, DEGRADED_DEAD_AFTER,
    CONNECT_TIMEOUT, PROBE_DIRECT_INTERVAL, secs, NANOS_PER_SEC, sat_sub in *.

(** Splits a path, its state and the guards of the step at hand. *)
Ltac path_step :=
  repeat match goal with
  | p : Path |- _ => destruct p as [[] ? [] ? ? [] [] []]
  | H : wf _ _ |- _ => destruct H; cbn in *
  | H : is_Some None |- _ => by destruct H
  | H : _ /\ _ |- _ => destruct H
  | H : Some _ = None |- _ => discriminate H
  end.

Ltac path_guards :=
  repeat (cbn in *; match goal with
  | |- context [Z.leb ?a ?b] => destruct (Z.leb_spec a b)
  | |- context [if ?b then _ else _] => destruct b
  end).

Lemma wf_new now : wf now (new now).
Proof. constructor; cbn; try done; path_consts; lia. Qed.

Lemma wf_step now p e : wf now p -> now <= etime e -> wf (etime e) (fst (step p e)).
Proof.
  intros Hw Hle. path_step; destruct e as [t r|t [] |t]; cbn in Hle |- *;
    unfold on_handshake, tick, tick_connecting, tick_direct, tick_degraded, tick_relayed,
      tick_disconnected, escalate, last_evidence; path_guards;
    constructor; cbn in *; eauto; try (path_consts; lia).
Qed.

(** ** How far apart actions are

    [gap a b] is the least time between an emission of [a] and a later
    emission of [b]. *)

Definition gap (a b : PathAction) : Z :=
  match a, b with
  | StartPunch, StartPunch => secs 12
  | StartPunch, MarkRelayNeeded => secs 10
  | StartPunch, RelayDied => secs 10
  | StartPunch, ProbeDirect => secs 30
  | MarkRelayNeeded, StartPunch => secs 2
  | MarkRelayNeeded, MarkRelayNeeded => secs 12
  | MarkRelayNeeded, ProbeDirect => secs 20
  | RelayDied, StartPunch => secs 2
  | RelayDied, MarkRelayNeeded => secs 12
  | RelayDied, RelayDied => secs 12
  | RelayDied, ProbeDirect => secs 32
  | ProbeDirect, ProbeDirect => secs 20
  | ProbeDirect, StartPunch => secs 2
  | ProbeDirect, MarkRelayNeeded => secs 12
  | _, _ => 0
  end.

Definition spaced (acts : list (Z * PathAction)) : Prop :=
  forall i j t1 a1 t2 a2, (i < j)%nat ->
    acts !! i = Some (t1, a1) -> acts !! j = Some (t2, a2) -> t1 + gap a1 a2 <= t2.

(** The instant the current state gives up on its own: the earliest moment the
    path can enter [Relayed] or [Disconnected]. *)
Definition gives_up (p : Path) (now : Z) : Z :=
  match state p with
  | Connecting => Z.max now (connecting_since p + CONNECT_TIMEOUT)
  | Direct => Z.max now (default now (last_inbound p) + DEGRADED_AFTER) + DEGRADED_DEAD_AFTER
  | Degraded => Z.max now (default now (degraded_since p) + DEGRADED_DEAD_AFTER)
  | Relayed => now
  | Disconnected => Z.max now (default now (disconnected_since p) + BACKOFF_INITIAL) + CONNECT_TIMEOUT
  end.

(** A lower bound on the next emission of each action. *)
Definition earliest (p : Path) (now : Z) (b : PathAction) : Z :=
  match b with
  | Retry => now
  | RelayDied => gives_up p now
  | MarkRelayNeeded =>
      match state p with
      | Relayed => now + BACKOFF_INITIAL + CONNECT_TIMEOUT
      | _ => gives_up p now
      end
  | StartPunch =>
      match state p with
      | Disconnected => Z.max now (default now (disconnected_since p) + BACKOFF_INITIAL)
      | _ => gives_up p now + BACKOFF_INITIAL
      end
  | ProbeDirect =>
      match state p with
      | Relayed => Z.max now (default now (relayed_probe_last p) + PROBE_DIRECT_INTERVAL)
      | _ => gives_up p now + PROBE_DIRECT_INTERVAL
      end
  end.

Lemma earliest_step now p e b :
  wf now p -> now <= etime e ->
  earliest p now b <= earliest (fst (step p e)) (etime e) b \/
  snd (step p e) = Some b.
Proof.
  intros Hw Hle. path_step; destruct e as [t r|t [] |t]; cbn in Hle |- *;
    unfold on_handshake, tick, tick_connecting, tick_direct, tick_degraded, tick_relayed,
      tick_disconnected, escalate, last_evidence; path_guards;
    destruct b; cbn; auto; left; unfold earliest, gives_up; cbn in *; path_consts; lia.
Qed.

Lemma earliest_emitted now p e a :
  wf now p -> now <= etime e -> snd (step p e) = Some a ->
  earliest p now a <= etime e /\
  forall b, etime e + gap a b <= earliest (fst (step p e)) (etime e) b.
Proof.
  intros Hw Hle. path_step; destruct e as [t r|t [] |t]; cbn in Hle |- *; try done;
    unfold on_handshake, tick, tick_connecting, tick_direct, tick_degraded, tick_relayed,
      tick_disconnected, escalate, last_evidence; path_guards; intros [= <-];
    (split; [|intros b; destruct b]); unfold earliest, gives_up, gap; cbn in *; path_consts; lia.
Qed.

Lemma earliest_now now p b : wf now p -> now <= earliest p now b.
Proof.
  intros Hw. path_step; destruct b; unfold earliest, gives_up; cbn in *; path_consts; lia.
Qed.

(** ** Reachable paths *)

Lemma reachable_wf t0 evs : monotone t0 evs -> wf (clock t0 evs) (fst (run (new t0) evs)).
Proof.
  intros Hm. apply (path_invariant (fun _ now p _ => wf now p)); [apply wf_new| |done].
  intros. by eapply wf_step.
Qed.

(** Every emitted action holds back the later ones. *)
Record spacing (now : Z) (p : Path) (acts : list (Z * PathAction)) : Prop := {
  sp_wf : wf now p;
  sp_spaced : spaced acts;
  sp_next : forall t a b, (t, a) ∈ acts -> t + gap a b <= earliest p now b }.

Lemma spaced_snoc acts t a :
  spaced acts -> (forall t1 a1, (t1, a1) ∈ acts -> t1 + gap a1 a <= t) -> spaced (acts ++ [(t, a)]).
Proof.
  intros Hs Ha i j t1 a1 t2 a2 Hij Hi Hj.
  assert (Hlt := lookup_lt_Some _ _ _ Hj). rewrite length_app in Hlt. cbn in Hlt.
  rewrite lookup_app_l in Hi by lia.
  destruct (decide (j < length acts)%nat) as [Hl|Hl].
  - rewrite lookup_app_l in Hj by lia. by eapply (Hs i j).
  - assert (j = length acts) as -> by lia.
    rewrite lookup_app_r, Nat.sub_diag in Hj by lia. injection Hj as <- <-.
    apply Ha. by eapply list_elem_of_lookup_2.
Qed.

Lemma spacing_step now p acts e :
  spacing now p acts -> now <= etime e ->
  spacing (etime e) (fst (step p e))
    (acts ++ match snd (step p e) with Some a => [(etime e, a)] | None => [] end).
Proof.
  intros [Hw Hs Hn] Hle. destruct (snd (step p e)) as [a|] eqn:Ha.
  - destruct (earliest_emitted _ _ _ _ Hw Hle Ha) as [Hearly Hnext].
    constructor; [by eapply wf_step| |].
    + apply spaced_snoc; [done|]. intros t1 a1 H1. specialize (Hn _ _ a H1). lia.
    + intros t b c [Hin|Hin]%elem_of_app.
      * destruct (earliest_step now p e c Hw Hle) as [Hmon|Heq].
        -- specialize (Hn _ _ c Hin). lia.
        -- rewrite Ha in Heq. injection Heq as <-. specialize (Hn _ _ a Hin).
           pose proof (earliest_now _ _ a (wf_step now p e Hw Hle)). lia.
      * apply list_elem_of_singleton in Hin as [= -> ->]. apply Hnext.
  - rewrite app_nil_r. constructor; [by eapply wf_step|done|].
    intros t b c Hin. specialize (Hn _ _ c Hin).
    destruct (earliest_step now p e c Hw Hle) as [Hmon|Heq]; [lia|congruence].
Qed.

(** Whatever the driver delivers, the actions of one path are never closer
    than [gap] allows: two direct probes at least 20 s apart and the first one
    20 s after the relay took over, two fresh punches at least 12 s apart, two
    relay requests at least 12 s apart; a dead relay leg gets its punch window
    of 12 s before the relay is asked for again. *)
Theorem path_actions_spaced (t0 : Z) (evs : list Event) (Hm : monotone t0 evs) :
  spaced (snd (run (new t0) evs)).
Proof.
  apply (sp_spaced (clock t0 evs) (fst (run (new t0) evs))).
  apply (path_invariant (fun _ => spacing)); [|intros; by eapply spacing_step|done].
  constructor; [apply wf_new|by intros i j t1 a1 t2 a2 _ Hi|].
  intros t a b Hin. by apply elem_of_nil in Hin.
Qed.

(** ** [Direct] is only claimed on evidence *)

Definition evidence (e : Event) : bool :=
  match e with EHandshake _ corr => corr | EInbound _ => true | ETick _ _ => false end.

(** [evs] ends with a corroborated handshake and a spell of [Direct] since. *)
Record direct_spell (p0 : Path) (evs pre : list Event) (th : Z) (post : list Event) : Prop := {
  ds_split : evs = pre ++ EHandshake th true :: post;
  ds_direct : forall k, state (fst (run p0 (pre ++ EHandshake th true :: take k post))) = Direct }.

Lemma direct_spell_snoc p0 evs pre th post e :
  direct_spell p0 evs pre th post -> state (fst (run p0 (evs ++ [e]))) = Direct ->
  direct_spell p0 (evs ++ [e]) pre th (post ++ [e]).
Proof.
  intros [-> Hd] Hlast. constructor.
  - by rewrite <- app_assoc.
  - intros k. destruct (decide (k <= length post)%nat) as [Hk|Hk].
    + rewrite take_app_le by lia. apply Hd.
    + rewrite take_ge by (rewrite length_app; cbn; lia).
      by rewrite <- app_assoc in Hlast.
Qed.

Definition direct_inv (t0 : Z) (evs : list Event) (p : Path) : Prop :=
  state p = Direct ->
  exists pre th post e,
    direct_spell (new t0) evs pre th post /\
    e ∈ EHandshake th true :: post /\ evidence e = true /\ last_inbound p = Some (etime e).

(** A step that ends in [Direct] is a corroborated handshake, or starts in
    [Direct] and moves [last_inbound] only on inbound evidence. *)
Lemma direct_step p e :
  state (fst (step p e)) = Direct ->
  (exists t, e = EHandshake t true /\ last_inbound (fst (step p e)) = Some t) \/
  (state p = Direct /\
    (last_inbound (fst (step p e)) = last_inbound p \/
     evidence e = true /\ last_inbound (fst (step p e)) = Some (etime e))).
Proof.
  intros H. destruct e as [t r|t [] |t]; cbn in *; [|by left; eauto|by auto|by auto].
  right. revert H. destruct p as [[] ? [] ? ? ? ? []]; cbn;
    unfold tick, tick_connecting, tick_direct, tick_degraded, tick_relayed,
      tick_disconnected, escalate, last_evidence; path_guards; try discriminate; auto;
    destruct last_handshake0; path_guards; try discriminate; auto.
Qed.

Lemma direct_inv_reachable t0 evs : direct_inv t0 evs (fst (run (new t0) evs)).
Proof.
  induction evs as [|e evs IH] using rev_ind; [done|].
  intros Hd. pose proof Hd as Hd'. rewrite run_snoc in Hd |- *. unfold run1 in *.
  destruct (step (fst (run (new t0) evs)) e) as [p' a] eqn:Hstep. cbn in Hd |- *.
  pose proof (direct_step (fst (run (new t0) evs)) e) as Hs. rewrite Hstep in Hs. cbn in Hs.
  destruct (Hs Hd) as [(t & -> & Hl)|(Hdir & Hl)].
  - exists evs, t, [], (EHandshake t true). split_and!; [|by left|done|done].
    constructor; [done|]. intros k. rewrite take_nil. exact Hd'.
  - destruct (IH Hdir) as (pre & th & post & e0 & Hsp & Hin & Hev & Hl0).
    pose proof (direct_spell_snoc _ _ _ _ _ _ Hsp Hd') as Hsp'.
    destruct Hl as [Hl|[Hev' Hl]].
    + exists pre, th, (post ++ [e]), e0. split_and!; [done| |done|congruence].
      apply elem_of_cons in Hin as [-> | Hin]; [by left|]. right. apply elem_of_app. by left.
    + exists pre, th, (post ++ [e]), e. split_and!; [done| |done|done].
      right. apply elem_of_app. right. by left.
Qed.

Lemma direct_tick_fresh p now r l :
  last_inbound p = Some l -> state p = Direct -> state (fst (tick p now r)) = Direct ->
  now - l < DEGRADED_AFTER /\ fst (tick p now r) = p.
Proof.
  intros Hl Hd. unfold tick. rewrite Hd. unfold tick_direct, last_evidence. rewrite Hl.
  destruct (Z.leb_spec DEGRADED_AFTER (sat_sub now l)); cbn; [discriminate|].
  intros _. split; [|done]. revert H. path_consts. lia.
Qed.

(** C29: A path reads [Direct] after a tick only if a corroborated handshake put
    it there, it has been [Direct] ever since, and some corroborated handshake
    or authenticated inbound of that spell is less than 45 s old. A handshake
    without traffic never makes or keeps a path [Direct]. *)
Theorem direct_only_on_evidence (t0 : Z) (evs : list Event) (now : Z) (r : bool) :
  state (fst (run (new t0) (evs ++ [ETick now r]))) = Direct ->
  exists pre th post e,
    direct_spell (new t0) (evs ++ [ETick now r]) pre th post /\
    e ∈ EHandshake th true :: post /\ evidence e = true /\ now - etime e < DEGRADED_AFTER.
Proof.
  intros Hd. destruct (direct_inv_reachable t0 _ Hd) as (pre & th & post & e & Hsp & Hin & Hev & Hl).
  exists pre, th, post, e. split_and!; try done.
  rewrite run_snoc in Hd, Hl. unfold run1 in Hd, Hl.
  pose proof (direct_step (fst (run (new t0) evs)) (ETick now r)) as Hs. cbn in Hd, Hl, Hs.
  destruct (tick (fst (run (new t0) evs)) now r) as [p' a] eqn:Ht. cbn in Hd, Hl, Hs.
  destruct (Hs Hd) as [(t & [=] & _)|(Hdir & [Heq|[[=] _]])].
  apply (direct_tick_fresh (fst (run (new t0) evs)) now r); [congruence|done|by rewrite Ht].
Qed.

(** ** A silent path always escalates

    Ticks only, at most [d] apart, as the driver's timer delivers them while a
    peer says nothing. *)

Definition tick_events (ticks : list (Z * bool)) : list Event :=
  map (fun '(t, r) => ETick t r) ticks.

Fixpoint paced (d now : Z) (ticks : list (Z * bool)) : Prop :=
  match ticks with
  | [] => True
  | (t, _) :: ticks' => now <= t <= now + d /\ paced d t ticks'
  end.

Lemma run_acc evs p acts :
  foldl run1 (p, acts) evs = (fst (run p evs), acts ++ snd (run p evs)).
Proof.
  unfold run. revert p acts. induction evs as [|e evs IH]; intros p acts; cbn; [by rewrite app_nil_r|].
  unfold run1 at 2 4 6. cbn. destruct (step p e) as [p' a]. cbn.
  rewrite (IH p'), (IH p' (match a with Some a => _ | None => _ end)). cbn. by rewrite app_assoc.
Qed.

Lemma run_cons p e evs :
  snd (run p (e :: evs)) =
  match snd (step p e) with Some a => [(etime e, a)] | None => [] end ++ snd (run (fst (step p e)) evs).
Proof.
  unfold run at 1. cbn. unfold run1 at 2. cbn. destruct (step p e) as [p' a]. cbn.
  by rewrite run_acc.
Qed.

Section Reach.
  (** [goal]: the actions waited for; [deadline p now]: by when one is due;
      [allowed]: what the ticks may report about the relay. *)
  Variables (goal : PathAction -> bool) (allowed : bool -> bool) (d : Z).
  Variable deadline : Path -> Z -> Z.
  Hypothesis progress : forall p now t r,
    wf now p -> now <= t <= now + d -> allowed r = true ->
    (exists a, snd (tick p t r) = Some a /\ goal a = true /\ t <= deadline p now) \/
    (deadline (fst (tick p t r)) t <= deadline p now /\ t < deadline (fst (tick p t r)) t).

Lemma reach ticks : forall p now D,
  wf now p -> paced d now ticks -> Forall (fun '(_, r) => allowed r = true) ticks ->
  deadline p now <= D -> now < D -> clock now (tick_events ticks) >= D ->
  exists t a, (t, a) ∈ snd (run p (tick_events ticks)) /\ goal a = true /\ now <= t <= D.
Proof using progress.
  induction ticks as [|[t r] ticks IH]; intros p now D Hw Hp Ha HD Hlt Hend.
  - cbn in Hend. lia.
  - cbn in Hp. destruct Hp as [Ht Hp]. apply Forall_cons_iff in Ha as [Hr Ha].
    cbn [tick_events map] in *. setoid_rewrite run_cons. cbn [step etime].
    destruct (progress p now t r Hw Ht Hr) as [(a & Hs & Hg & Hle)|[Hmon Hltd]].
    + exists t, a. rewrite Hs. split_and!; [by left|done|lia|lia].
    + destruct (IH (fst (tick p t r)) t D) as (t' & a & Hin & Hg & Hle); try done; try lia.
      * apply (wf_step now p (ETick t r)); [done|cbn; lia].
      * exists t', a. split_and!; [apply elem_of_app; by right|done|lia|lia].
Qed.
End Reach.

(** The driver has relay work or a probe to do. *)
Definition recovers (a : PathAction) : bool :=
  match a with MarkRelayNeeded | RelayDied | ProbeDirect => true | _ => false end.

Definition recovery_deadline (d : Z) (p : Path) (now : Z) : Z :=
  match state p with
  | Connecting => Z.max now (connecting_since p + CONNECT_TIMEOUT) + d
  | Direct => Z.max now (default now (last_inbound p) + DEGRADED_AFTER) + DEGRADED_DEAD_AFTER + 2 * d
  | Degraded => Z.max now (default now (degraded_since p) + DEGRADED_DEAD_AFTER) + d
  | Relayed => Z.max now (default now (relayed_probe_last p) + PROBE_DIRECT_INTERVAL) + d
  | Disconnected => Z.max now (default now (disconnected_since p) + backoff p) + CONNECT_TIMEOUT + 2 * d
  end.

Lemma recovery_progress d p now t r :
  0 <= d -> wf now p -> now <= t <= now + d ->
  (exists a, snd (tick p t r) = Some a /\ recovers a = true /\ t <= recovery_deadline d p now) \/
  (recovery_deadline d (fst (tick p t r)) t <= recovery_deadline d p now /\
   t < recovery_deadline d (fst (tick p t r)) t).
Proof.
  intros Hd Hw Ht. path_step;
    unfold tick, tick_connecting, tick_direct, tick_degraded, tick_relayed,
      tick_disconnected, escalate, last_evidence, recovery_deadline; path_guards;
    first [ left; eexists; split_and!; [reflexivity|reflexivity|path_consts; lia]
          | right; path_consts; cbn in *; lia ].
Qed.

(** The deadline to the next fresh punch while no relay is to be had. *)
Definition punch_deadline (d : Z) (p : Path) (now : Z) : Z :=
  match state p with
  | Connecting => Z.max now (connecting_since p + CONNECT_TIMEOUT) + BACKOFF_MAX + 2 * d
  | Direct => Z.max now (default now (last_inbound p) + DEGRADED_AFTER) + DEGRADED_DEAD_AFTER
              + BACKOFF_MAX + 3 * d
  | Degraded => Z.max now (default now (degraded_since p) + DEGRADED_DEAD_AFTER) + BACKOFF_MAX + 2 * d
  | Relayed => now + BACKOFF_MAX + 2 * d
  | Disconnected => Z.max now (default now (disconnected_since p) + backoff p) + d
  end.

Lemma punch_progress d p now t r :
  0 <= d -> wf now p -> now <= t <= now + d -> negb r = true ->
  (exists a, snd (tick p t r) = Some a /\ bool_decide (a = StartPunch) = true /\ t <= punch_deadline d p now) \/
  (punch_deadline d (fst (tick p t r)) t <= punch_deadline d p now /\
   t < punch_deadline d (fst (tick p t r)) t).
Proof.
  intros Hd Hw Ht Hr. destruct r; [discriminate|]. path_step;
    unfold tick, tick_connecting, tick_direct, tick_degraded, tick_relayed,
      tick_disconnected, escalate, last_evidence, punch_deadline; path_guards;
    first [ left; eexists; split_and!; [reflexivity|reflexivity|path_consts; lia]
          | right; path_consts; cbn in *; lia ].
Qed.


(** ** Timers, back-off and the settled boundary *)

(** In every reachable path the timers match the state: [Disconnected]
    and [Relayed] have their start instant, [Degraded] its own, [Direct] has
    both evidence stamps and no armed timer, nothing is stamped in the future
    and the back-off stays between 2 s and 30 s. *)
Theorem path_timers_coherent (t0 : Z) (evs : list Event) (Hm : monotone t0 evs) :
  wf (clock t0 evs) (fst (run (new t0) evs)).
Proof.
  apply (path_invariant (fun _ now p _ => wf now p)); [apply wf_new| |done].
  intros. by eapply wf_step.
Qed.

Definition punches (acts : list (Z * PathAction)) : nat :=
  length (filter (fun '(_, a) => a = StartPunch) acts).

Definition no_recovery (e : Event) : bool :=
  match e with EHandshake _ corr => negb corr | _ => true end.

Lemma punches_app l1 l2 : punches (l1 ++ l2) = (punches l1 + punches l2)%nat.
Proof. unfold punches. by rewrite list.filter_app, length_app. Qed.

Lemma backoff_step p e :
  no_recovery e = true ->
  backoff (fst (step p e)) =
  if decide (snd (step p e) = Some StartPunch) then Z.min (backoff p * 2) BACKOFF_MAX else backoff p.
Proof.
  intros He. destruct e as [t r|t [] |t]; cbn in *; try done.
  unfold tick, tick_connecting, tick_direct, tick_degraded, tick_relayed, tick_disconnected, escalate.
  destruct (state p); try destruct (last_evidence p); path_guards; try reflexivity;
    try congruence; destruct (relayed_probe_last p); path_guards; first [reflexivity | congruence].
Qed.

(** The retry back-off doubles from 2 s with every punch of an unanswered
    spell and stays at 30 s; a corroborated handshake restores 2 s. *)
Theorem path_backoff_doubles (p : Path) (evs : list Event)
    (Hev : Forall (fun e => no_recovery e = true) evs)
    (now : Z) (Hp : backoff p = BACKOFF_INITIAL) :
  let n := punches (snd (run p evs)) in
  backoff (fst (run p evs)) = Z.min (secs (2 ^ (Z.of_nat n + 1))) BACKOFF_MAX /\
  backoff (on_handshake (fst (run p evs)) now true) = BACKOFF_INITIAL.
Proof.
  cbv zeta. split; [|done]. induction evs as [|e evs IH] using rev_ind.
  - cbn -[Z.pow]. rewrite Hp. path_consts. reflexivity.
  - apply Forall_app in Hev as [Hev He]. apply Forall_cons_iff in He as [He _].
    specialize (IH Hev). rewrite run_snoc. unfold run1.
    pose proof (backoff_step (fst (run p evs)) e He) as Hb.
    destruct (step (fst (run p evs)) e) as [p' a]. cbn [fst snd] in *.
    rewrite Hb, punches_app, Nat2Z.inj_add, IH. destruct a as [a|].
    + destruct (decide (a = StartPunch)) as [-> | Hne].
      * rewrite decide_True by done.
        replace (punches [(etime e, StartPunch)]) with 1%nat by reflexivity.
        replace (Z.of_nat (punches (snd (run p evs))) + Z.of_nat 1 + 1) with
          (Z.succ (Z.of_nat (punches (snd (run p evs))) + 1)) by lia.
        rewrite Z.pow_succ_r by lia. path_consts. lia.
      * rewrite decide_False by congruence. unfold punches at 3.
        rewrite filter_cons_False by done. cbn. by rewrite Z.add_0_r.
    + rewrite decide_False by congruence. cbn. by rewrite Z.add_0_r.
Qed.

(** A path crosses the settled boundary, the edge the controller must hear
    of, exactly on a corroborated handshake of an unsettled path, on handing
    traffic to an available relay, on degrading from [Direct], and on the death
    of the relay leg. *)
Theorem settled_boundary_edges (p : Path) (e : Event) :
  transition_crosses_settled_boundary (state p) (state (fst (step p e))) = true <->
  (settled (state p) = false /\ exists now, e = EHandshake now true) \/
  (exists now, e = ETick now true /\ snd (step p e) = Some MarkRelayNeeded) \/
  (state p = Direct /\ snd (step p e) = Some Retry) \/
  snd (step p e) = Some RelayDied.
Proof.
  destruct e as [t []|t [] |t]; cbn; unfold transition_crosses_settled_boundary, tick, on_handshake,
    tick_connecting, tick_direct, tick_degraded, tick_relayed, tick_disconnected, escalate;
  destruct p as [[] [] [] ? ? ? ? []]; cbn; unfold last_evidence; path_guards; cbn; split;
    solve
      [ intros [=]
      | intros _; first
          [ left; split; [reflexivity | by eexists]
          | right; left; eexists; split; reflexivity
          | right; right; left; split; reflexivity
          | right; right; right; reflexivity ]
      | intros [[? [? ?]]|[[? [? ?]]|[[? ?]|?]]]; congruence
      | reflexivity ].
Qed.

(** ** Witnesses *)

Definition sample_ticks : list (Z * bool) := map (fun k => (secs (Z.of_nat k), false)) (seq 1 90).

Lemma path_actions_spaced_witness :
  snd (run (new 0) [ETick (secs 10) false; ETick (secs 12) false])
    = [(secs 10, MarkRelayNeeded); (secs 12, StartPunch)] /\
  spaced (snd (run (new 0) [ETick (secs 10) false; ETick (secs 12) false])).
Proof.
  split; [by vm_compute|]. apply (path_actions_spaced 0). cbn. path_consts. lia.
Defined.

Lemma direct_only_on_evidence_witness :
  exists pre th post e,
    direct_spell (new 0) ([EHandshake (secs 1) true; EInbound (secs 20)] ++ [ETick (secs 50) true])
      pre th post /\
    e ∈ EHandshake th true :: post /\ evidence e = true /\ secs 50 - etime e < DEGRADED_AFTER.
Proof. apply direct_only_on_evidence. by vm_compute. Defined.


Lemma path_timers_coherent_witness :
  wf (secs 10) (fst (run (new 0) [ETick (secs 10) false])).
Proof. apply (path_timers_coherent 0 [ETick (secs 10) false]). cbn. path_consts. lia. Defined.

Lemma path_backoff_doubles_witness :
  punches (snd (run (new 0) [ETick (secs 10) false; ETick (secs 12) false])) = 1%nat /\
  backoff (fst (run (new 0) [ETick (secs 10) false; ETick (secs 12) false])) = Z.min (secs (2 ^ 2)) BACKOFF_MAX.
Proof.
  split; [by vm_compute|].
  apply (path_backoff_doubles (new 0) [ETick (secs 10) false; ETick (secs 12) false]
           ltac:(by repeat constructor) 0 eq_refl).
Defined.
