(* ===== verification/GwBackoff.v ===== *)
(** * Gateway: punch and relay-connect back-off

    [crates/wiremesh-gateway/src/punch_backoff.rs] and
    [relay_connect_backoff.rs].  Both keep a failure counter, a seeded jitter
    generator and at most one open window; they differ in what resets them and
    in the threshold.  The 64-bit generator and the [f64] arithmetic of the
    window length are written out on integers. *)
From Stdlib Require Import ZArith Lia.
From S2P Require Import Prelude.
Open Scope Z_scope.

Definition BACKOFF_BASE : Z := secs 30.
Definition BACKOFF_CAP : Z := secs 300.
Definition FAILURE_THRESHOLD : Z := 3.
Definition PERMANENT_FAILURE_THRESHOLD : Z := 1.

(** ** Jitter: splitmix64 *)

Definition next_state (s : Z) : Z := wrap 64 (s + 0x9E3779B97F4A7C15).

Definition mix (s : Z) : Z :=
  let z := wrap 64 (Z.lxor s (Z.shiftr s 30) * 0xBF58476D1CE4E5B9) in
  let z := wrap 64 (Z.lxor z (Z.shiftr z 27) * 0x94D049BB133111EB) in
  Z.lxor z (Z.shiftr z 31).

(** [next_jitter]'s value is [next_jitter s / 2^54]: 53 random bits scaled to
    [0, 1) and halved, both exact in [f64]. *)
Definition next_jitter (s : Z) : Z := Z.shiftr (mix s) 11.

(** ** [f64] and [Duration] arithmetic *)

(** [n / 2^s] rounded to the nearest integer, ties to even. *)
Definition round_ne (n s : Z) : Z :=
  let q := n / 2 ^ s in
  let r := n mod 2 ^ s in
  if ((2 ^ s <? 2 * r) || ((2 * r =? 2 ^ s) && Z.odd q))%bool then q + 1 else q.

(** The significand of [1.0 + j]: the sum lies in [1, 2), where [f64] has 52
    fractional bits. *)
Definition one_plus (jitter : Z) : Z := 2 ^ 52 + round_ne jitter 2.

(** [Duration::from_secs(s).mul_f64(f / 2^52)] in nanoseconds: the product is
    rounded to 53 significant bits and [from_secs_f64] rounds to the nearest
    nanosecond. *)
Definition mul_f64 (s f : Z) : Z :=
  let p := f * s in
  let sh := Z.max 0 (Z.log2 p - 52) in
  round_ne (round_ne p sh * 2 ^ sh * NANOS_PER_SEC) 52.

(** [BACKOFF_BASE.saturating_mul(1u32 << exp)] in seconds; at most 30 * 2^31,
    far from saturating. *)
Definition raw_secs (count threshold : Z) : Z := 30 * 2 ^ Z.min (count - threshold) 31.

(** The window opened by the [count]-th failure, and the generator after it. *)
Definition open_window (rng count threshold now : Z) : Z * Z :=
  let rng := next_state rng in
  (rng, now + Z.min (mul_f64 (raw_secs count threshold) (one_plus (next_jitter rng))) BACKOFF_CAP).

(** ** [punch_backoff.rs] *)

Module Punch.

Inductive PunchDecision : Type := Allow | Skip (until : Z).

Record PunchBackoff : Type := {
  rng_state : Z;
  consecutive_failures : Z;
  last_candidates : option (gset string);
  window_until : option Z }.

Definition new (jitter_seed : Z) : PunchBackoff :=
  {| rng_state := jitter_seed; consecutive_failures := 0; last_candidates := None;
     window_until := None |}.

(** The window part of [decide]. *)
Definition decide_window (b : PunchBackoff) (now : Z) : PunchBackoff * PunchDecision :=
  match window_until b with
  | Some until =>
      if now <? until then (b, Skip until)
      else ({| rng_state := rng_state b; consecutive_failures := consecutive_failures b;
               last_candidates := last_candidates b; window_until := None |}, Allow)
  | None => (b, Allow)
  end.

Definition decide_punch (b : PunchBackoff) (now : Z) (candidates : list string) :
    PunchBackoff * PunchDecision :=
  let set : gset string := list_to_set candidates in
  match last_candidates b with
  | Some prev =>
      if bool_decide (prev = set) then decide_window b now
      else ({| rng_state := rng_state b; consecutive_failures := 0;
               last_candidates := Some set; window_until := None |}, Allow)
  | None =>
      decide_window {| rng_state := rng_state b; consecutive_failures := consecutive_failures b;
                       last_candidates := Some set; window_until := window_until b |} now
  end.

Definition record_failure (b : PunchBackoff) (now : Z) : PunchBackoff :=
  let count := sat_add 32 (consecutive_failures b) 1 in
  if FAILURE_THRESHOLD <=? count then
    let '(rng, until) := open_window (rng_state b) count FAILURE_THRESHOLD now in
    {| rng_state := rng; consecutive_failures := count;
       last_candidates := last_candidates b; window_until := Some until |}
  else
    {| rng_state := rng_state b; consecutive_failures := count;
       last_candidates := last_candidates b; window_until := window_until b |}.

Definition record_success (b : PunchBackoff) : PunchBackoff :=
  {| rng_state := rng_state b; consecutive_failures := 0; last_candidates := last_candidates b;
     window_until := None |}.

Definition backoff_until (b : PunchBackoff) : option Z := window_until b.

End Punch.

(** ** [relay_connect_backoff.rs] *)

(** [crates/wiremesh-relay/src/lib.rs]: why a relay connect failed. *)
Inductive RelayConnectFailure : Type :=
| AlpnMismatch
| PeerRejectedCredentials (alert : Z)
| Unreachable
| Other.

#[export] Instance RelayConnectFailure_eq_dec : EqDecision RelayConnectFailure.
Proof. solve_decision. Defined.

Module Relay.

Inductive RelayConnectDecision : Type := Allow | Skip (until : Z).
Inductive LogDecision : Type := Log | Suppress.

Record RelayConnectBackoff : Type := {
  rng_state : Z;
  consecutive_failures : Z;
  last_cause : option RelayConnectFailure;
  window_until : option Z }.

Definition new (jitter_seed : Z) : RelayConnectBackoff :=
  {| rng_state := jitter_seed; consecutive_failures := 0; last_cause := None; window_until := None |}.

Definition is_permanent (cause : RelayConnectFailure) : bool :=
  match cause with AlpnMismatch | PeerRejectedCredentials _ => true | _ => false end.

Definition threshold (cause : RelayConnectFailure) : Z :=
  if is_permanent cause then PERMANENT_FAILURE_THRESHOLD else FAILURE_THRESHOLD.

Definition decide_connect (b : RelayConnectBackoff) (now : Z) :
    RelayConnectBackoff * RelayConnectDecision :=
  match window_until b with
  | Some until =>
      if now <? until then (b, Skip until)
      else ({| rng_state := rng_state b; consecutive_failures := consecutive_failures b;
               last_cause := last_cause b; window_until := None |}, Allow)
  | None => (b, Allow)
  end.

Definition record_failure (b : RelayConnectBackoff) (now : Z) (cause : RelayConnectFailure) :
    RelayConnectBackoff * LogDecision :=
  let cause_changed := negb (bool_decide (last_cause b = Some cause)) in
  let first_failure := consecutive_failures b =? 0 in
  let count := sat_add 32 (consecutive_failures b) 1 in
  if threshold cause <=? count then
    let '(rng, until) := open_window (rng_state b) count (threshold cause) now in
    ({| rng_state := rng; consecutive_failures := count; last_cause := Some cause;
        window_until := Some until |}, Log)
  else
    ({| rng_state := rng_state b; consecutive_failures := count; last_cause := Some cause;
        window_until := window_until b |},
     if (first_failure || cause_changed)%bool then Log else Suppress).

Definition record_success (b : RelayConnectBackoff) : RelayConnectBackoff :=
  {| rng_state := rng_state b; consecutive_failures := 0; last_cause := None; window_until := None |}.

Definition backoff_until (b : RelayConnectBackoff) : option Z := window_until b.

End Relay.

(** ** The length of a window *)

Lemma round_ne_lower n s k : 0 <= s -> k * 2 ^ s <= n -> k <= round_ne n s.
Proof.
  intros Hs H. assert (0 < 2 ^ s) by lia. unfold round_ne.
  assert (k <= n / 2 ^ s) by (apply Z.div_le_lower_bound; lia).
  destruct (_ || _)%bool; lia.
Qed.

Lemma round_ne_upper n s k : 0 <= s -> n <= k * 2 ^ s -> round_ne n s <= k.
Proof.
  intros Hs H. assert (0 < 2 ^ s) as Hp by lia. unfold round_ne.
  pose proof (Z.div_mod n (2 ^ s) ltac:(lia)) as Hdm. pose proof (Z.mod_pos_bound n (2 ^ s) Hp) as Hr.
  assert (n / 2 ^ s <= k) by (apply Z.div_le_upper_bound; lia).
  destruct (decide (n / 2 ^ s = k)) as [Heq|Hne]; [|destruct (_ || _)%bool; lia].
  assert (n mod 2 ^ s = 0) as -> by nia.
  destruct (Z.ltb_spec (2 ^ s) (2 * 0)); [lia|]. destruct (Z.eqb_spec (2 * 0) (2 ^ s)); [lia|].
  cbn. lia.
Qed.

Lemma wrap_range w x : 0 <= w -> 0 <= wrap w x < 2 ^ w.
Proof. intros Hw. apply Z.mod_pos_bound. lia. Qed.

Lemma lxor_range w x y : 0 < w -> 0 <= x < 2 ^ w -> 0 <= y < 2 ^ w -> 0 <= Z.lxor x y < 2 ^ w.
Proof.
  intros Hw Hx Hy. assert (0 <= Z.lxor x y) as H0 by (apply Z.lxor_nonneg; lia).
  split; [done|]. destruct (decide (Z.lxor x y = 0)) as [->|Hne]; [lia|].
  apply Z.log2_lt_pow2; [lia|]. eapply Z.le_lt_trans; [apply Z.log2_lxor; lia|].
  apply Z.max_lub_lt; (destruct (decide (0 < x)), (decide (0 < y)));
    try (apply Z.log2_lt_pow2; lia); rewrite Z.log2_nonpos by lia; lia.
Qed.

Lemma shiftr_range w x k : 0 <= k -> 0 <= x < 2 ^ w -> 0 <= Z.shiftr x k < 2 ^ w.
Proof.
  intros Hk Hx. rewrite Z.shiftr_div_pow2 by done. assert (0 < 2 ^ k) by lia.
  split; [apply Z.div_pos; lia|]. apply Z.div_lt_upper_bound; nia.
Qed.

Lemma next_jitter_range s : 0 <= next_jitter s < 2 ^ 53.
Proof.
  unfold next_jitter, mix.
  set (z := wrap 64 (Z.lxor (wrap 64 _) _ * _)).
  assert (0 <= z < 2 ^ 64) as Hz by (apply wrap_range; lia).
  pose proof (lxor_range 64 z (Z.shiftr z 31) ltac:(lia) Hz (shiftr_range 64 z 31 ltac:(lia) Hz)) as H.
  rewrite Z.shiftr_div_pow2 by lia. split; [apply Z.div_pos; lia|].
  apply Z.div_lt_upper_bound; [lia|]. change (2 ^ 11 * 2 ^ 53) with (2 ^ 64). lia.
Qed.

Lemma one_plus_range j : 0 <= j < 2 ^ 53 -> 2 ^ 52 <= one_plus j <= 3 * 2 ^ 51.
Proof.
  intros Hj. unfold one_plus.
  pose proof (round_ne_lower j 2 0 ltac:(lia) ltac:(lia)).
  pose proof (round_ne_upper j 2 (2 ^ 51) ltac:(lia) ltac:(lia)). lia.
Qed.

(** The double rounding never leaves [1, 1.5] times the base. *)
Lemma mul_f64_range s f :
  1 <= s < 2 ^ 36 -> 2 ^ 52 <= f <= 3 * 2 ^ 51 -> secs s <= mul_f64 s f /\ 2 * mul_f64 s f <= 3 * secs s.
Proof.
  intros Hs Hf. unfold mul_f64. set (p := f * s). set (sh := Z.max 0 (Z.log2 p - 52)).
  assert (2 ^ 52 * s <= p <= 3 * 2 ^ 51 * s) as Hp by (unfold p; nia).
  assert (Z.log2 p < 89) as Hlog by (apply Z.log2_lt_pow2; lia).
  assert (0 <= sh <= 36) as Hsh by (unfold sh; lia).
  assert (2 ^ (52 - sh) * 2 ^ sh = 2 ^ 52) as E1 by (rewrite <- Z.pow_add_r by lia; f_equal; lia).
  assert (2 ^ (51 - sh) * 2 ^ sh = 2 ^ 51) as E2 by (rewrite <- Z.pow_add_r by lia; f_equal; lia).
  assert (0 < 2 ^ sh) as Hpos by lia.
  assert (2 ^ (52 - sh) * s * 2 ^ sh = 2 ^ 52 * s) as E3 by (rewrite <- E1; ring).
  assert (3 * 2 ^ (51 - sh) * s * 2 ^ sh = 3 * 2 ^ 51 * s) as E4 by (rewrite <- E2; ring).
  pose proof (round_ne_lower p sh (2 ^ (52 - sh) * s) ltac:(lia) ltac:(rewrite E3; lia)) as Hlo.
  pose proof (round_ne_upper p sh (3 * 2 ^ (51 - sh) * s) ltac:(lia) ltac:(rewrite E4; lia)) as Hhi.
  set (P := round_ne p sh) in *.
  assert (2 ^ 52 * s <= P * 2 ^ sh <= 3 * 2 ^ 51 * s) as HP.
  { rewrite <- E3, <- E4. split; apply Z.mul_le_mono_nonneg_r; lia. }
  set (Q := P * 2 ^ sh) in *. clearbody Q. unfold secs, NANOS_PER_SEC.
  pose proof (round_ne_lower (Q * 1000000000) 52 (s * 1000000000) ltac:(lia) ltac:(lia)).
  pose proof (round_ne_upper (Q * 1000000000) 52 (s * 1500000000) ltac:(lia) ltac:(lia)). lia.
Qed.

(** The window of the [count]-th failure. *)
Definition window_floor (count threshold : Z) : Z := Z.min (secs (raw_secs count threshold)) BACKOFF_CAP.

Lemma raw_secs_range count threshold : threshold <= count -> 30 <= raw_secs count threshold < 2 ^ 36.
Proof.
  intros H. unfold raw_secs.
  assert (1 <= 2 ^ Z.min (count - threshold) 31 <= 2 ^ 31) as Hr; [|lia].
  split; [|apply Z.pow_le_mono_r; lia].
  change 1 with (2 ^ 0). apply Z.pow_le_mono_r; lia.
Qed.

Lemma open_window_range rng count threshold now :
  threshold <= count ->
  now + window_floor count threshold <= snd (open_window rng count threshold now) <= now + BACKOFF_CAP /\
  2 * (snd (open_window rng count threshold now) - now) <= 3 * window_floor count threshold.
Proof.
  intros H. pose proof (raw_secs_range _ _ H).
  pose proof (mul_f64_range (raw_secs count threshold) (one_plus (next_jitter (next_state rng)))
    ltac:(lia) (one_plus_range _ (next_jitter_range _))) as [Hlo Hhi].
  unfold open_window, window_floor. cbn [snd]. unfold BACKOFF_CAP, secs, NANOS_PER_SEC in *. lia.
Qed.

Lemma window_floor_range count threshold :
  threshold <= count -> secs 30 <= window_floor count threshold <= BACKOFF_CAP.
Proof.
  intros H. pose proof (raw_secs_range _ _ H). unfold window_floor, BACKOFF_CAP, secs, NANOS_PER_SEC. lia.
Qed.

(** A back-off window opened at [now] by the [count]-th failure ends
    between one and one and a half times [30 s * 2^(count - threshold)] later,
    both capped at 300 s, whatever the seed: neither the jitter nor the two
    [f64] roundings can shorten or stretch it beyond. *)
Theorem window_length_bounds (rng count threshold now : Z) (H : threshold <= count) :
  let until := snd (open_window rng count threshold now) in
  now + window_floor count threshold <= until /\
  until <= now + BACKOFF_CAP /\
  2 * (until - now) <= 3 * window_floor count threshold.
Proof. pose proof (open_window_range rng count threshold now H). lia. Qed.

(** ** A pair that keeps failing decays *)

(** One attempt: consulted at [start]; if allowed it runs and fails at [stop]. *)
Record Attempt : Type := { start : Z; stop : Z; candidates : list string }.

Definition attempt (s : Punch.PunchBackoff * list Attempt) (a : Attempt) :
    Punch.PunchBackoff * list Attempt :=
  match Punch.decide_punch (fst s) (start a) (candidates a) with
  | (b, Punch.Allow) => (Punch.record_failure b (stop a), snd s ++ [a])
  | (b, Punch.Skip _) => (b, snd s)
  end.

Definition attempts (b : Punch.PunchBackoff) (l : list Attempt) : Punch.PunchBackoff * list Attempt :=
  foldl attempt (b, []) l.

(** One attempt at a time, each over before the next is considered. *)
Fixpoint one_at_a_time (now : Z) (l : list Attempt) : Prop :=
  match l with
  | [] => True
  | a :: l' => now <= start a /\ start a <= stop a /\ one_at_a_time (stop a) l'
  end.

Definition same_candidates (set : gset string) (l : list Attempt) : Prop :=
  Forall (fun a => list_to_set (candidates a) = set) l.

(** The allowed attempts so far: the counter counts them and the window follows
    the last one. *)
Record decaying (now : Z) (set : gset string) (s : Punch.PunchBackoff * list Attempt) : Prop := {
  dc_count : Punch.consecutive_failures (fst s) = Z.min (Z.of_nat (length (snd s))) (2 ^ 32 - 1);
  dc_set : Punch.last_candidates (fst s) = None \/ Punch.last_candidates (fst s) = Some set;
  dc_last : forall a, list.last (snd s) = Some a -> stop a <= now;
  dc_window : forall a, list.last (snd s) = Some a ->
    match Punch.window_until (fst s) with
    | Some u => stop a + window_floor (Z.min (Z.of_nat (length (snd s))) (2 ^ 32 - 1)) FAILURE_THRESHOLD <= u
                <= stop a + BACKOFF_CAP /\ (3 <= length (snd s))%nat
    | None => (length (snd s) < 3)%nat
    end;
  dc_start : snd s = [] -> Punch.window_until (fst s) = None;
  dc_spaced : forall i a a', snd s !! i = Some a -> snd s !! S i = Some a' ->
    stop a <= start a' /\
    ((2 <= i)%nat ->
     stop a + window_floor (Z.min (Z.of_nat (S i)) (2 ^ 32 - 1)) FAILURE_THRESHOLD <= start a') }.

Lemma window_floor_sat count t : t <= 3 -> 3 <= count -> window_floor (Z.min count (2 ^ 32 - 1)) t = window_floor count t.
Proof. intros Ht H. unfold window_floor, raw_secs. do 4 f_equal. lia. Qed.

Lemma decide_window_spec b now b' d :
  Punch.decide_window b now = (b', d) ->
  Punch.consecutive_failures b' = Punch.consecutive_failures b /\
  Punch.last_candidates b' = Punch.last_candidates b /\
  match d with
  | Punch.Skip u => b' = b /\ Punch.window_until b = Some u /\ now < u
  | Punch.Allow => Punch.window_until b' = None /\ forall u, Punch.window_until b = Some u -> u <= now
  end.
Proof.
  unfold Punch.decide_window. destruct (Punch.window_until b) as [u|] eqn:Hu.
  - destruct (Z.ltb_spec now u); intros [= <- <-]; cbn; split_and!; try done. by intros ? [= <-].
  - intros [= <- <-]. by split_and!.
Qed.

Lemma decide_same_set b now cands set b' d :
  Punch.last_candidates b = None \/ Punch.last_candidates b = Some set -> list_to_set cands = set ->
  Punch.decide_punch b now cands = (b', d) ->
  Punch.consecutive_failures b' = Punch.consecutive_failures b /\
  Punch.last_candidates b' = Some set /\
  match d with
  | Punch.Skip u => Punch.window_until b' = Punch.window_until b /\ Punch.window_until b = Some u /\ now < u
  | Punch.Allow => Punch.window_until b' = None /\ forall u, Punch.window_until b = Some u -> u <= now
  end.
Proof.
  intros Hl <-. unfold Punch.decide_punch. destruct Hl as [Hl|Hl]; rewrite Hl.
  - intros Hd. apply decide_window_spec in Hd as (Hc & Hs & Hd). split_and!; [done|done|].
    destruct d; [done|]. by destruct Hd as (-> & ? & ?).
  - rewrite bool_decide_eq_true_2 by done. intros Hd.
    apply decide_window_spec in Hd as (Hc & Hs & Hd). split_and!; [done|congruence|].
    destruct d; [done|]. by destruct Hd as (-> & ? & ?).
Qed.

Lemma record_failure_spec b now :
  let b' := Punch.record_failure b now in
  let count := sat_add 32 (Punch.consecutive_failures b) 1 in
  Punch.consecutive_failures b' = count /\ Punch.last_candidates b' = Punch.last_candidates b /\
  (count < 3 -> Punch.window_until b' = Punch.window_until b) /\
  (3 <= count -> exists u, Punch.window_until b' = Some u /\
     now + window_floor count FAILURE_THRESHOLD <= u <= now + BACKOFF_CAP).
Proof.
  unfold Punch.record_failure. set (count := sat_add 32 _ 1).
  pose proof (open_window_range (Punch.rng_state b) count FAILURE_THRESHOLD now) as Hw.
  destruct (open_window _ _ _ _) as [rng u]. cbn in Hw. unfold FAILURE_THRESHOLD in *.
  destruct (Z.leb_spec 3 count) as [Hge|Hlt]; cbn.
  - split_and!; [done|done|lia|]. intros _. exists u. split; [done|]. by apply Hw.
  - split_and!; [done|done|done|lia].
Qed.

Lemma attempt_decaying now set s a :
  decaying now set s -> now <= start a -> start a <= stop a -> list_to_set (candidates a) = set ->
  decaying (stop a) set (attempt s a).
Proof.
  intros [Hcount Hset Hlast Hwin Hstart Hsp] Hn Hle Hc. unfold attempt.
  destruct (Punch.decide_punch (fst s) (start a) (candidates a)) as [b d] eqn:Hd.
  destruct (decide_same_set _ _ _ _ _ _ Hset Hc Hd) as (Hbc & Hbs & Hbw).
  destruct d as [|u].
  - destruct Hbw as [Hbn Hold].
    destruct (record_failure_spec b (stop a)) as (Hrc & Hrs & Hr1 & Hr2). rewrite Hbc, Hcount in *.
    assert (sat_add 32 (Z.min (Z.of_nat (length (snd s))) (2 ^ 32 - 1)) 1 =
            Z.min (Z.of_nat (S (length (snd s)))) (2 ^ 32 - 1)) as Hsat by (unfold sat_add; lia).
    rewrite Hsat in *. constructor; cbn [fst snd]; rewrite ?length_app, ?Nat.add_1_r; cbn [length].
    + done.
    + right. congruence.
    + intros a'. rewrite last_snoc. intros [= <-]. lia.
    + intros a'. rewrite last_snoc. intros [= <-].
      destruct (decide (3 <= Z.of_nat (S (length (snd s))))) as [H3|H3].
      * destruct Hr2 as (u & -> & Hu); [lia|]. split; [done|lia].
      * rewrite Hr1, Hbn by lia. lia.
    + intros H. by apply app_nil in H as [_ [=]].
    + intros i x y Hx Hy. destruct (decide (S i < length (snd s))%nat) as [Hi|Hi].
      * rewrite lookup_app_l in Hx, Hy by lia. by apply Hsp.
      * pose proof (lookup_lt_Some _ _ _ Hy) as Hly. rewrite length_app in Hly. cbn in Hly.
        assert (S i = length (snd s)) as Heq by lia.
        rewrite lookup_app_r, Heq, Nat.sub_diag in Hy by lia. injection Hy as <-.
        rewrite lookup_app_l in Hx by lia.
        assert (list.last (snd s) = Some x) as Hl by (rewrite last_lookup, <- Heq; done).
        specialize (Hwin x Hl). specialize (Hlast x Hl). split; [lia|]. intros Hi2.
        destruct (Punch.window_until (fst s)) as [u|]; [|lia].
        specialize (Hold u eq_refl). rewrite Heq. lia.
  - destruct Hbw as (Hbu & Hu & Hlt). constructor; cbn [fst snd].
    + by rewrite Hbc.
    + by right.
    + intros a' Ha'. specialize (Hlast a' Ha'). lia.
    + rewrite Hbu. exact Hwin.
    + intros H. specialize (Hstart H). congruence.
    + exact Hsp.
Qed.

Definition attempts_end (now : Z) (l : list Attempt) : Z := foldl (fun _ a => stop a) now l.

Lemma attempts_decaying set l : forall now s,
  decaying now set s -> one_at_a_time now l -> same_candidates set l ->
  decaying (attempts_end now l) set (foldl attempt s l).
Proof.
  induction l as [|a l IH]; intros now s Hd Ho Hs; cbn; [done|].
  destruct Ho as (H1 & H2 & Ho). apply Forall_cons_iff in Hs as [Hc Hs].
  apply IH; [|done|done]. by eapply attempt_decaying.
Qed.

Lemma new_decaying seed now set : decaying now set (Punch.new seed, []).
Proof. constructor; cbn; try done. by left. Qed.

Lemma one_at_a_time_app now l1 l2 :
  one_at_a_time now (l1 ++ l2) <-> one_at_a_time now l1 /\ one_at_a_time (attempts_end now l1) l2.
Proof.
  revert now. induction l1 as [|a l1 IH]; intros now; cbn; [tauto|].
  rewrite IH. unfold attempts_end. cbn. tauto.
Qed.

Lemma attempts_snoc b l a : attempts b (l ++ [a]) = attempt (attempts b l) a.
Proof. unfold attempts. by rewrite foldl_app. Qed.

(** C33: A pair that keeps failing on the same candidates decays to slow
    retries: after its third failure the [i]-th allowed attempt is followed by
    at least [min(30 s * 2^(i-3), 300 s)] of silence, whatever the driver asks
    for. It is never starved either: an attempt 300 s after the last one runs. *)
Theorem failing_pair_decays (seed now : Z) (set : gset string) (l : list Attempt) (a : Attempt)
    (Ho : one_at_a_time now (l ++ [a])) (Hs : same_candidates set (l ++ [a])) :
  let allowed := snd (attempts (Punch.new seed) l) in
  (forall i x y, allowed !! i = Some x -> allowed !! S i = Some y -> (2 <= i)%nat ->
     stop x + window_floor (Z.min (Z.of_nat (S i)) (2 ^ 32 - 1)) FAILURE_THRESHOLD <= start y) /\
  ((forall x, x ∈ allowed -> stop x + BACKOFF_CAP <= start a) ->
   snd (attempts (Punch.new seed) (l ++ [a])) = allowed ++ [a]).
Proof.
  cbv zeta. apply one_at_a_time_app in Ho as [Ho [Hn _]]. apply Forall_app in Hs as [Hs Ha].
  apply Forall_cons_iff in Ha as [Ha _].
  pose proof (attempts_decaying set l now _ (new_decaying seed now set) Ho Hs) as Hd.
  change (foldl attempt _ l) with (attempts (Punch.new seed) l) in Hd. split.
  - intros i x y Hx Hy. by apply (dc_spaced _ _ _ Hd i x y Hx Hy).
  - intros Hlate. rewrite attempts_snoc. unfold attempt.
    destruct (Punch.decide_punch _ (start a) (candidates a)) as [b d] eqn:Hdec.
    destruct (decide_same_set _ _ _ _ _ _ (dc_set _ _ _ Hd) Ha Hdec) as (_ & _ & Hw).
    destruct d as [|u]; [done|]. destruct Hw as (_ & Hu & Hlt). exfalso.
    destruct (list.last (snd (attempts (Punch.new seed) l))) as [x|] eqn:Hx.
    + pose proof (dc_window _ _ _ Hd x Hx) as Hwin. rewrite Hu in Hwin.
      apply last_Some in Hx as [pre Hpre]. specialize (Hlate x). rewrite Hpre in Hlate.
      specialize (Hlate ltac:(apply elem_of_app; right; by left)). lia.
    + apply last_None in Hx. rewrite (dc_start _ _ _ Hd Hx) in Hu. done.
Qed.

(** Candidates count as a set: reordering or repeating them changes
    nothing, while a different set is fresh information - the attempt runs, the
    window is gone and the failure count starts over. *)
Theorem candidates_are_a_set (b : Punch.PunchBackoff) (now : Z) (c1 c2 : list string) :
  ((list_to_set c1 : gset string) = list_to_set c2 ->
   Punch.decide_punch b now c1 = Punch.decide_punch b now c2) /\
  (forall prev, Punch.last_candidates b = Some prev -> prev <> list_to_set c1 ->
   exists b', Punch.decide_punch b now c1 = (b', Punch.Allow) /\
     Punch.consecutive_failures b' = 0 /\ Punch.window_until b' = None /\
     Punch.last_candidates b' = Some (list_to_set c1)).
Proof.
  split.
  - intros Heq. unfold Punch.decide_punch. by rewrite Heq.
  - intros prev Hl Hne. unfold Punch.decide_punch. rewrite Hl, bool_decide_eq_false_2 by done. by eexists.
Qed.

(** ** Relay connects *)

(** One connect attempt that failed with [r_cause] at [r_stop]. *)
Record Connect : Type := { r_start : Z; r_stop : Z; r_cause : RelayConnectFailure }.

Definition connect (s : Relay.RelayConnectBackoff * list (Connect * Relay.LogDecision)) (c : Connect) :
    Relay.RelayConnectBackoff * list (Connect * Relay.LogDecision) :=
  match Relay.decide_connect (fst s) (r_start c) with
  | (b, Relay.Allow) =>
      let '(b', log) := Relay.record_failure b (r_stop c) (r_cause c) in (b', snd s ++ [(c, log)])
  | (b, Relay.Skip _) => (b, snd s)
  end.

Definition connects (b : Relay.RelayConnectBackoff) (l : list Connect) :
    Relay.RelayConnectBackoff * list (Connect * Relay.LogDecision) := foldl connect (b, []) l.

(** The [k]-th failure, counted from one as the code's [u32] does. *)
Definition failure_count (k : nat) : Z := Z.min (Z.of_nat k) (2 ^ 32 - 1).

(** The state after the failures so far. *)
Record relay_inv (s : Relay.RelayConnectBackoff * list (Connect * Relay.LogDecision)) : Prop := {
  ri_count : Relay.consecutive_failures (fst s) = failure_count (length (snd s));
  ri_cause : Relay.last_cause (fst s) = r_cause ∘ fst <$> list.last (snd s);
  ri_window : forall c log, list.last (snd s) = Some (c, log) ->
    match Relay.window_until (fst s) with
    | Some u => Relay.threshold (r_cause c) <= failure_count (length (snd s)) /\
                r_stop c + window_floor (failure_count (length (snd s))) (Relay.threshold (r_cause c)) <= u
    | None => failure_count (length (snd s)) < Relay.threshold (r_cause c)
    end;
  ri_spaced : forall i c log c' log', snd s !! i = Some (c, log) -> snd s !! S i = Some (c', log') ->
    Relay.threshold (r_cause c) <= failure_count (S i) ->
    r_stop c + window_floor (failure_count (S i)) (Relay.threshold (r_cause c)) <= r_start c';
  ri_log : forall i c, snd s !! i = Some (c, Relay.Suppress) ->
    failure_count (S i) < Relay.threshold (r_cause c) /\
    exists c0 log0, snd s !! pred i = Some (c0, log0) /\ r_cause c0 = r_cause c /\ (0 < i)%nat }.

Lemma decide_connect_spec b now b' d :
  Relay.decide_connect b now = (b', d) ->
  Relay.consecutive_failures b' = Relay.consecutive_failures b /\
  Relay.last_cause b' = Relay.last_cause b /\
  match d with
  | Relay.Skip u => b' = b
  | Relay.Allow => Relay.window_until b' = None /\ forall u, Relay.window_until b = Some u -> u <= now
  end.
Proof.
  unfold Relay.decide_connect. destruct (Relay.window_until b) as [u|] eqn:Hu.
  - destruct (Z.ltb_spec now u); intros [= <- <-]; cbn; split_and!; try done. by intros ? [= <-].
  - intros [= <- <-]. by split_and!.
Qed.

Lemma relay_failure_spec b now cause b' log :
  Relay.window_until b = None -> Relay.record_failure b now cause = (b', log) ->
  let count := sat_add 32 (Relay.consecutive_failures b) 1 in
  Relay.consecutive_failures b' = count /\ Relay.last_cause b' = Some cause /\
  match Relay.window_until b' with
  | Some u => Relay.threshold cause <= count /\
              now + window_floor count (Relay.threshold cause) <= u /\ log = Relay.Log
  | None => count < Relay.threshold cause
  end /\
  (log = Relay.Suppress -> count < Relay.threshold cause /\
     Relay.last_cause b = Some cause /\ Relay.consecutive_failures b <> 0).
Proof.
  intros Hw. unfold Relay.record_failure. set (count := sat_add 32 _ 1).
  pose proof (open_window_range (Relay.rng_state b) count (Relay.threshold cause) now) as Ho.
  destruct (open_window _ _ _ _) as [rng u]. cbn in Ho.
  destruct (Z.leb_spec (Relay.threshold cause) count) as [Hge|Hlt]; intros [= <- <-]; cbn.
  - split_and!; [done|done|done|by apply Ho|done|done].
  - rewrite Hw. split_and!; [done..|]. destruct (_ || _)%bool eqn:Hor; [done|].
    apply orb_false_iff in Hor as [H1%Z.eqb_neq H2%negb_false_iff%bool_decide_eq_true]. done.
Qed.

Lemma failure_count_succ k : sat_add 32 (failure_count k) 1 = failure_count (S k).
Proof. unfold sat_add, failure_count. lia. Qed.

Lemma failure_count_pos k : (0 < k)%nat -> failure_count k <> 0.
Proof. unfold failure_count. lia. Qed.

(** The last entry of an extended list is the old last or the new one. *)
Lemma lookup_snoc_cases {A : Type} (l : list A) x i y :
  (l ++ [x]) !! i = Some y -> l !! i = Some y \/ (i = length l /\ y = x).
Proof.
  intros H. apply lookup_app_Some in H as [H|[Hge H]]; [by left|]. right.
  apply list_lookup_singleton_Some in H as [H1 H2]. split; [lia|done].
Qed.

Lemma connect_inv s c : relay_inv s -> relay_inv (connect s c).
Proof.
  intros [Hcount Hcause Hwin Hsp Hlog]. unfold connect.
  destruct (Relay.decide_connect (fst s) (r_start c)) as [b d] eqn:Hd.
  apply decide_connect_spec in Hd as (Hbc & Hbl & Hbw).
  destruct d as [|u]; [|subst b; by constructor]. destruct Hbw as [Hbn Hold].
  destruct (Relay.record_failure b (r_stop c) (r_cause c)) as [b' log] eqn:Hr.
  apply relay_failure_spec in Hr as (Hrc & Hrl & Hrw & Hrs); [|done].
  rewrite Hbc, Hcount, failure_count_succ in *. constructor; cbn [fst snd].
  - rewrite length_app, Nat.add_1_r. done.
  - by rewrite last_snoc, Hrl.
  - intros c' log'. rewrite last_snoc, length_app, Nat.add_1_r. intros [= <- <-].
    destruct (Relay.window_until b'); [tauto|done].
  - intros i x lx y ly Hx Hy Hth.
    apply lookup_snoc_cases in Hy as [Hy|[Hi [= -> ->]]].
    + apply lookup_snoc_cases in Hx as [Hx|[Hi _]]; [by eapply Hsp|].
      apply lookup_lt_Some in Hy. lia.
    + apply lookup_snoc_cases in Hx as [Hx|[Hi' _]]; [|lia].
      assert (list.last (snd s) = Some (x, lx)) as Hl by (rewrite last_lookup, <- Hi; done).
      specialize (Hwin _ _ Hl). rewrite <- Hi in Hwin.
      destruct (Relay.window_until (fst s)) as [u|]; [|lia]. specialize (Hold u eq_refl). lia.
  - intros i x Hx. apply lookup_snoc_cases in Hx as [Hx|[-> [= -> <-]]].
    + destruct (Hlog i x Hx) as (H1 & c0 & log0 & H2 & H3). split; [done|]. exists c0, log0.
      split; [|done]. rewrite lookup_app_l; [done|]. by apply lookup_lt_Some in H2.
    + destruct (Hrs eq_refl) as (H1 & H2 & H3). split; [done|]. rewrite Hbl, Hcause in H2.
      destruct (list.last (snd s)) as [[c0 log0]|] eqn:Hl; [|done]. cbn in H2. injection H2 as H2.
      rewrite last_lookup in Hl. assert (0 < length (snd s))%nat as Hpos.
      { apply lookup_lt_Some in Hl. lia. }
      exists c0, log0. rewrite lookup_app_l by lia. done.
Qed.

Lemma connects_inv seed l : relay_inv (connects (Relay.new seed) l).
Proof.
  unfold connects. assert (relay_inv (Relay.new seed, [])) as H0 by by constructor.
  revert H0. generalize (Relay.new seed, ([] : list (Connect * Relay.LogDecision))) as s.
  induction l as [|c l IH]; intros s Hs; cbn; [done|]. apply IH. by apply connect_inv.
Qed.

(** A relay that can never work is not hammered. After the [i]-th failure
    with a permanent cause (or from the third on with any cause) the next
    connect starts at least the window later, 30 s doubling to 300 s; and the
    only failures not logged are repetitions of the previous cause below the
    threshold, so every failure that opens a window is logged. *)
Theorem relay_connects_spaced (seed : Z) (l : list Connect) :
  let tried := snd (connects (Relay.new seed) l) in
  (forall i c log c' log', tried !! i = Some (c, log) -> tried !! S i = Some (c', log') ->
     Relay.threshold (r_cause c) <= failure_count (S i) ->
     r_stop c + window_floor (failure_count (S i)) (Relay.threshold (r_cause c)) <= r_start c') /\
  (forall i c, tried !! i = Some (c, Relay.Suppress) ->
     failure_count (S i) < Relay.threshold (r_cause c) /\
     exists c0 log0, tried !! pred i = Some (c0, log0) /\ r_cause c0 = r_cause c /\ (0 < i)%nat).
Proof.
  cbv zeta. pose proof (connects_inv seed l) as Hi. split; [apply (ri_spaced _ Hi)|apply (ri_log _ Hi)].
Qed.

(** ** Witnesses *)

Lemma window_length_bounds_witness :
  let until := snd (open_window 7 4 FAILURE_THRESHOLD 0) in
  0 + window_floor 4 FAILURE_THRESHOLD <= until /\ until <= 0 + BACKOFF_CAP /\
  2 * (until - 0) <= 3 * window_floor 4 FAILURE_THRESHOLD.
Proof. apply window_length_bounds. unfold FAILURE_THRESHOLD. lia. Defined.

Definition try_at (t : Z) : Attempt := {| start := secs t; stop := secs t; candidates := ["a:1"] |}.

Lemma failing_pair_decays_witness :
  snd (attempts (Punch.new 7) (map try_at [1; 2; 3; 4; 5] ++ [try_at 400]))
  = map try_at [1; 2; 3] ++ [try_at 400].
Proof.
  assert (snd (attempts (Punch.new 7) (map try_at [1; 2; 3; 4; 5])) = map try_at [1; 2; 3]) as Ha
    by by vm_compute.
  rewrite <- Ha. apply (failing_pair_decays 7 0 {[ "a:1" ]} (map try_at [1; 2; 3; 4; 5]) (try_at 400)).
  - cbn. unfold secs, NANOS_PER_SEC. lia.
  - repeat constructor; cbn; set_solver.
  - rewrite Ha. intros x Hx. rewrite list_elem_of_In in Hx. cbn in Hx.
    destruct Hx as [<- | [<- | [<- | []]]]; cbn; unfold BACKOFF_CAP, secs, NANOS_PER_SEC; lia.
Defined.
