(* ===== verification/GwUapi.v ===== *)
(** * Gateway: the WireGuard UAPI text

    [crates/wiremesh-gateway/src/uapi.rs].  The encoders of the [set=1] request,
    the parser of the [get=1] response, base64 and hexadecimal keys, and the
    re-point of one peer as two requests.  A request is read back by the grammar
    the protocol documents ([read_request]): what the encoder writes is read as
    exactly the configuration it was given, whatever strings the configuration
    holds.  Sockets are the environment: [Wire] records what was written and
    supplies the replies.  X25519 is not modelled. *)
From Stdlib Require Import ZArith Lia Ascii.
From S2P Require Import Prelude StdNet.
Open Scope Z_scope.

Definition LF : ascii := ascii_of_nat 10.
Definition CR : ascii := ascii_of_nat 13.

Definition PERSISTENT_KEEPALIVE_SECS : Z := 25.

Record PeerConfig : Type := {
  public_key_b64 : string;
  endpoint : option string;
  allowed_ips : list string;
  keepalive_secs : Z }.

Record DeviceConfig : Type := {
  private_key_b64 : string;
  listen_port : Z;
  peers : list PeerConfig }.

(** One constructor per error message of the file; the IPv6 and the malformed
    endpoint share one. *)
Inductive UapiError : Type :=
| InvalidBase64Char
| KeyLength (n : nat)
| NotIpv4Endpoint (ep : string)
| NotCidr (cidr : string)
| NotIpv4Cidr (cidr : string)
| NonNumericPrefix (cidr : string)
| PrefixTooLong (cidr : string)
| SocketError
| MissingErrno
| Errno (e : string).

(** ** Bytes and characters *)

Definition byte_of (c : ascii) : Z := Z.of_nat (nat_of_ascii c).
Definition char_of (b : Z) : ascii := ascii_of_nat (Z.to_nat b).

Fixpoint bytes (s : string) : list Z :=
  match s with EmptyString => [] | String c s' => byte_of c :: bytes s' end.

Fixpoint of_bytes (l : list Z) : string :=
  match l with [] => EmptyString | b :: l' => String (char_of b) (of_bytes l') end.

(** [slice::chunks(k)]. *)
Fixpoint chunks_go {A : Type} (fuel k : nat) (l : list A) : list (list A) :=
  match fuel with
  | O => []
  | S f => match l with [] => [] | _ => take k l :: chunks_go f k (drop k l) end
  end.

Definition chunks {A : Type} (k : nat) (l : list A) : list (list A) := chunks_go (length l) k l.

(** ** base64 and hexadecimal *)

Definition B64 : list Z :=
  bytes "ABCDEFGHIJKLMNOPQRSTUVWXYZabcdefghijklmnopqrstuvwxyz0123456789+/".

Definition b64_char (i : Z) : Z := default 0 (B64 !! Z.to_nat i).

Definition EQ_SIGN : Z := 61.

Definition encode_chunk (chunk : list Z) : list Z :=
  let b0 := default 0 (chunk !! 0%nat) in
  let b1 := default 0 (chunk !! 1%nat) in
  let b2 := default 0 (chunk !! 2%nat) in
  let n := Z.lor (Z.lor (Z.shiftl b0 16) (Z.shiftl b1 8)) b2 in
  [ b64_char (Z.land (Z.shiftr n 18) 63);
    b64_char (Z.land (Z.shiftr n 12) 63);
    if (1 <? length chunk)%nat then b64_char (Z.land (Z.shiftr n 6) 63) else EQ_SIGN;
    if (2 <? length chunk)%nat then b64_char (Z.land n 63) else EQ_SIGN ].

Definition base64_encode (input : list Z) : string :=
  of_bytes (concat (map encode_chunk (chunks 3 input))).

Definition val (c : Z) : result UapiError Z :=
  if (65 <=? c) && (c <=? 90) then Ok (c - 65)
  else if (97 <=? c) && (c <=? 122) then Ok (c - 97 + 26)
  else if (48 <=? c) && (c <=? 57) then Ok (c - 48 + 52)
  else if c =? 43 then Ok 62
  else if c =? 47 then Ok 63
  else Err InvalidBase64Char.

Definition is_ascii_whitespace (c : Z) : bool :=
  (c =? 32) || (c =? 9) || (c =? 10) || (c =? 12) || (c =? 13).

Definition significant (c : Z) : bool := negb (c =? EQ_SIGN) && negb (is_ascii_whitespace c).

(** The inner loop: [n |= val(c)? << (18 - 6 * i)]. *)
Fixpoint chunk_word (i : Z) (n : Z) (chunk : list Z) : result UapiError Z :=
  match chunk with
  | [] => Ok n
  | c :: chunk' => v ← val c; chunk_word (i + 1) (Z.lor n (Z.shiftl v (18 - 6 * i))) chunk'
  end.

Definition decode_chunk (chunk : list Z) : result UapiError (list Z) :=
  n ← chunk_word 0 0 chunk;
  Ok ([wrap 8 (Z.shiftr n 16)] ++
      (if (2 <? length chunk)%nat then [wrap 8 (Z.shiftr n 8)] else []) ++
      (if (3 <? length chunk)%nat then [wrap 8 n] else [])).

Definition base64_decode (s : string) : result UapiError (list Z) :=
  parts ← traverse decode_chunk (chunks 4 (List.filter significant (bytes s)));
  Ok (concat parts).

Definition hex_digit (d : Z) : ascii :=
  char_of (if d <? 10 then 48 + d else 87 + d).

(** [format!("{b:02x}")], concatenated. *)
Fixpoint hex_bytes (l : list Z) : string :=
  match l with
  | [] => EmptyString
  | b :: l' => String (hex_digit (b / 16)) (String (hex_digit (b mod 16)) (hex_bytes l'))
  end.

Definition key_b64_to_hex (b64 : string) : result UapiError string :=
  raw ← base64_decode b64;
  if (length raw =? 32)%nat then Ok (hex_bytes raw) else Err (KeyLength (length raw)).

Definition pubkey_b64_to_hex (b64 : string) : option string :=
  match base64_decode b64 with
  | Ok raw => if (length raw =? 32)%nat then Some (hex_bytes raw) else None
  | Err _ => None
  end.

(** ** The encoders of the [set=1] request *)

Definition validate_ipv4_endpoint (ep : string) : result UapiError unit :=
  match parse_socket_v4 ep with Some _ => Ok tt | None => Err (NotIpv4Endpoint ep) end.

Definition is_dialable_endpoint (ep : string) : bool := is_ok (validate_ipv4_endpoint ep).

Definition validate_ipv4_cidr (cidr : string) : result UapiError unit :=
  match split_once "/" cidr with
  | None => Err (NotCidr cidr)
  | Some (ip, len) =>
      match parse_ipv4 ip with
      | None => Err (NotIpv4Cidr cidr)
      | Some _ =>
          match parse_unsigned 8 len with
          | None => Err (NonNumericPrefix cidr)
          | Some prefix => if 32 <? prefix then Err (PrefixTooLong cidr) else Ok tt
          end
      end
  end.

Definition is_valid_ipv4_cidr (cidr : string) : bool := is_ok (validate_ipv4_cidr cidr).

(** [push_str(&format!("key={v}\n"))]. *)
Definition line (key v : string) : string := key +:+ v +:+ String LF "".

Definition validate_peer (p : PeerConfig) : result UapiError unit :=
  match (match endpoint p with Some ep => validate_ipv4_endpoint ep | None => Ok tt end) with
  | Err e => Err e
  | Ok _ => _ ← traverse validate_ipv4_cidr (allowed_ips p); Ok tt
  end.

Definition push_peer_block (s : string) (p : PeerConfig) : result UapiError string :=
  _ ← validate_peer p;
  hex ← key_b64_to_hex (public_key_b64 p);
  let s := s +:+ line "public_key=" hex in
  let s := match endpoint p with Some ep => s +:+ line "endpoint=" ep | None => s end in
  let s := s +:+ line "replace_allowed_ips=true" "" in
  let s := foldl (fun s cidr => s +:+ line "allowed_ip=" cidr) s (allowed_ips p) in
  Ok (s +:+ line "persistent_keepalive_interval=" (show_uint (keepalive_secs p))).

Fixpoint push_peer_blocks (s : string) (ps : list PeerConfig) : result UapiError string :=
  match ps with
  | [] => Ok s
  | p :: ps' => s' ← push_peer_block s p; push_peer_blocks s' ps'
  end.

Definition encode_set (cfg : DeviceConfig) : result UapiError string :=
  hex ← key_b64_to_hex (private_key_b64 cfg);
  let s := line "private_key=" hex in
  let s := s +:+ line "listen_port=" (show_uint (listen_port cfg)) in
  let s := s +:+ line "replace_peers=true" "" in
  s ← push_peer_blocks s (peers cfg);
  Ok (s +:+ String LF "").

Definition encode_add_peers (ps : list PeerConfig) : result UapiError string :=
  s ← push_peer_blocks "" ps;
  Ok (s +:+ String LF "").

Definition encode_remove_peer (public_key_b64 : string) : result UapiError string :=
  hex ← key_b64_to_hex public_key_b64;
  Ok ("public_key=" +:+ hex +:+ String LF "remove=true" +:+ String LF (String LF "")).

(** ** Requests over the socket

    [replies] is what the socket answers, call by call: [None] is a failing
    connect, write or read. *)

Record Wire : Type := { sent : list (string * string); replies : list (option string) }.

(** [str::lines]: a line ends at LF or CR LF; nothing follows the last LF. *)
Fixpoint str_lines (s : string) : list string :=
  match s with
  | EmptyString => []
  | String c s' =>
      if Ascii.eqb c LF then EmptyString :: str_lines s'
      else
        match s' with
        | String d s'' =>
            if Ascii.eqb c CR && Ascii.eqb d LF then EmptyString :: str_lines s''
            else match str_lines s' with
                 | l :: ls => String c l :: ls
                 | [] => [String c ""]
                 end
        | EmptyString => [String c ""]
        end
  end.

Fixpoint find_map {A B : Type} (f : A -> option B) (l : list A) : option B :=
  match l with
  | [] => None
  | a :: l' => match f a with Some b => Some b | None => find_map f l' end
  end.

Definition check_response (resp : string) : result UapiError unit :=
  match find_map (str_strip_prefix "errno=") (str_lines resp) with
  | None => Err MissingErrno
  | Some e => if bool_decide (e = "0") then Ok tt else Err (Errno e)
  end.

Definition socket_path (ifname : string) : string := "/var/run/wireguard/" +:+ ifname +:+ ".sock".

Definition send_set (w : Wire) (ifname body : string) : result UapiError unit * Wire :=
  let req := "set=1" +:+ String LF body in
  let '(reply, rest) := match replies w with r :: rs => (r, rs) | [] => (None, []) end in
  let w' := {| sent := sent w ++ [(socket_path ifname, req)]; replies := rest |} in
  (match reply with Some resp => check_response resp | None => Err SocketError end, w').

(** Encode, then send; nothing is written when the encoding fails. *)
Definition send_encoded (w : Wire) (ifname : string) (b : result UapiError string) :
    result UapiError unit * Wire :=
  match b with Ok body => send_set w ifname body | Err e => (Err e, w) end.

Definition add_peers (w : Wire) (ifname : string) (ps : list PeerConfig) :=
  send_encoded w ifname (encode_add_peers ps).

Definition apply (w : Wire) (ifname : string) (cfg : DeviceConfig) :=
  send_encoded w ifname (encode_set cfg).

Definition set_listen_port (w : Wire) (ifname : string) (port : Z) :=
  send_set w ifname ("listen_port=" +:+ show_uint port +:+ String LF (String LF "")).

Definition set_one_peer (w : Wire) (ifname : string) (peer : PeerConfig) :
    result UapiError unit * Wire :=
  let '(r1, w1) := send_encoded w ifname (encode_remove_peer (public_key_b64 peer)) in
  match r1 with
  | Err e => (Err e, w1)
  | Ok _ =>
      match encode_add_peers [peer] with
      | Err e => (Err e, w1)
      | Ok add_body =>
          let '(r2, w2) := send_set w1 ifname add_body in
          match r2 with
          | Ok _ => (Ok tt, w2)
          | Err _ => send_set w2 ifname add_body
          end
      end
  end.

(** ** The parser of the [get=1] response *)

Record PeerGetInfo : Type := {
  last_handshake_sec : Z;
  last_handshake_nsec : Z;
  rx_bytes : Z;
  tx_bytes : Z;
  info_endpoint : option (Z * Z) }.

Definition default_info : PeerGetInfo :=
  {| last_handshake_sec := 0; last_handshake_nsec := 0; rx_bytes := 0; tx_bytes := 0;
     info_endpoint := None |}.

Definition u64_or_0 (v : string) : Z := default 0 (parse_unsigned 64 v).

(** The [if let ... else if let ...] chain on one field line. *)
Definition set_field (i : PeerGetInfo) (l : string) : PeerGetInfo :=
  match str_strip_prefix "last_handshake_time_sec=" l with
  | Some v => {| last_handshake_sec := u64_or_0 v; last_handshake_nsec := last_handshake_nsec i;
                 rx_bytes := rx_bytes i; tx_bytes := tx_bytes i; info_endpoint := info_endpoint i |}
  | None =>
  match str_strip_prefix "last_handshake_time_nsec=" l with
  | Some v => {| last_handshake_sec := last_handshake_sec i; last_handshake_nsec := u64_or_0 v;
                 rx_bytes := rx_bytes i; tx_bytes := tx_bytes i; info_endpoint := info_endpoint i |}
  | None =>
  match str_strip_prefix "rx_bytes=" l with
  | Some v => {| last_handshake_sec := last_handshake_sec i; last_handshake_nsec := last_handshake_nsec i;
                 rx_bytes := u64_or_0 v; tx_bytes := tx_bytes i; info_endpoint := info_endpoint i |}
  | None =>
  match str_strip_prefix "tx_bytes=" l with
  | Some v => {| last_handshake_sec := last_handshake_sec i; last_handshake_nsec := last_handshake_nsec i;
                 rx_bytes := rx_bytes i; tx_bytes := u64_or_0 v; info_endpoint := info_endpoint i |}
  | None =>
  match str_strip_prefix "endpoint=" l with
  | Some v => {| last_handshake_sec := last_handshake_sec i; last_handshake_nsec := last_handshake_nsec i;
                 rx_bytes := rx_bytes i; tx_bytes := tx_bytes i;
                 info_endpoint := parse_socket_v4 (trim v) |}
  | None => i
  end end end end end.

Abbreviation PeerMap := (gmap string PeerGetInfo).

Definition flush (out : PeerMap) (current : option (string * PeerGetInfo)) : PeerMap :=
  match current with Some (key, info) => <[key := info]> out | None => out end.

Definition parse_line (st : PeerMap * option (string * PeerGetInfo)) (l : string) :
    PeerMap * option (string * PeerGetInfo) :=
  let '(out, current) := st in
  match str_strip_prefix "public_key=" l with
  | Some hex => (flush out current, Some (hex, default_info))
  | None =>
      match current with
      | None => st
      | Some (key, info) => (out, Some (key, set_field info l))
      end
  end.

Definition parse_get_response (resp : string) : PeerMap :=
  let '(out, current) := foldl parse_line (∅, None) (str_lines resp) in
  flush out current.

Definition handshaked (i : PeerGetInfo) : bool :=
  negb (last_handshake_sec i =? 0) || negb (last_handshake_nsec i =? 0).

Definition handshake_nanos (i : PeerGetInfo) : Z :=
  secs (last_handshake_sec i) + last_handshake_nsec i.

(** [UNIX_EPOCH + d] panics past [i64::MAX] seconds. *)
Definition representable (i : PeerGetInfo) : bool := handshake_nanos i <? secs (2 ^ 63).

(** [None] is the panic. *)
Definition handshake_times_from (m : PeerMap) : option (gmap string Z) :=
  if bool_decide (map_Forall (fun _ i => handshaked i = true -> representable i = true) m) then
    Some (omap (fun i => if handshaked i then Some (handshake_nanos i) else None) m)
  else None.

Record PeerLiveness : Type := {
  latest_handshake : option Z; live_rx : Z; live_tx : Z; live_endpoint : option (Z * Z) }.

Definition peer_liveness_from (m : PeerMap) : option (gmap string PeerLiveness) :=
  times ← handshake_times_from m;
  Some $ map_imap (fun k i => Some {| latest_handshake := times !! k; live_rx := rx_bytes i;
                               live_tx := tx_bytes i; live_endpoint := info_endpoint i |}) m.

(** ** base64 and hexadecimal read back *)

Definition is_byte (b : Z) : Prop := 0 <= b < 256.

Lemma chunks_go_fuel {A : Type} f f' k (l : list A) :
  (length l <= f)%nat -> (length l <= f')%nat -> (0 < k)%nat ->
  chunks_go f k l = chunks_go f' k l.
Proof.
  revert f' l. induction f as [|f IH]; intros f' [|a l] Hf Hf' Hk; try done.
  - by destruct f'.
  - simpl in Hf. lia.
  - by destruct f'.
  - destruct f' as [|f']; [simpl in Hf'; lia|]. cbn [chunks_go]. f_equal.
    apply IH; [..|done]; rewrite length_drop; cbn [length] in *; lia.
Qed.

Lemma chunks_app {A : Type} k (a r : list A) :
  length a = k -> (0 < k)%nat -> chunks k (a ++ r) = a :: chunks k r.
Proof.
  intros Ha Hk. destruct a as [|x a]; [simpl in Ha; lia|].
  unfold chunks. cbn [chunks_go length app].
  change (x :: a ++ r) with ((x :: a) ++ r).
  rewrite take_app_length', drop_app_length' by done. f_equal.
  apply chunks_go_fuel; [rewrite length_app|..]; lia.
Qed.

Lemma chunks_last {A : Type} k (l : list A) :
  l <> [] -> (length l <= k)%nat -> chunks k l = [l].
Proof.
  intros Hl Hk. destruct l as [|x l]; [done|]. unfold chunks. cbn [chunks_go length].
  rewrite take_ge, drop_ge by done. by destruct (length l).
Qed.

Lemma b64_char_spec i : 0 <= i < 64 ->
  val (b64_char i) = Ok i /\ significant (b64_char i) = true /\ is_byte (b64_char i).
Proof.
  intros Hi.
  assert (forallb (fun n => match val (b64_char (Z.of_nat n)) with
                            | Ok v => v =? Z.of_nat n | Err _ => false end
                   && significant (b64_char (Z.of_nat n))
                   && (0 <=? b64_char (Z.of_nat n)) && (b64_char (Z.of_nat n) <? 256))
            (seq 0 64) = true) as H by (vm_compute; reflexivity).
  rewrite forallb_iff in H. specialize (H (Z.to_nat i)).
  rewrite elem_of_seq, Z2Nat.id in H by lia. specialize (H ltac:(lia)).
  rewrite !andb_true_iff, Z.leb_le, Z.ltb_lt in H. destruct H as [[[Hv Hs] H1] H2].
  destruct (val _) as [v|]; [|done]. apply Z.eqb_eq in Hv as ->. done.
Qed.

Lemma bytes_of_bytes l : Forall is_byte l -> bytes (of_bytes l) = l.
Proof.
  induction 1 as [|b l Hb _ IH]; [done|]. simpl. rewrite IH. f_equal.
  unfold byte_of, char_of. unfold is_byte in Hb.
  rewrite nat_ascii_embedding by lia. lia.
Qed.

(** One base64 digit of a word. *)
Definition digit (n k : Z) : Z := Z.land (Z.shiftr n k) 63.

Lemma digit_range n k : 0 <= digit n k < 64.
Proof. unfold digit. change 63 with (Z.ones 6). rewrite Z.land_ones by lia. by apply Z.mod_pos_bound. Qed.

Lemma lor_digit n k : 0 <= k ->
  Z.lor (Z.shiftl (Z.shiftr n (k + 6)) (k + 6)) (Z.shiftl (digit n k) k) = Z.shiftl (Z.shiftr n k) k.
Proof.
  intros Hk. unfold digit. change 63 with (Z.ones 6). apply Z.bits_inj'. intros i Hi.
  rewrite Z.lor_spec, !Z.shiftl_spec by lia.
  destruct (Z.lt_ge_cases i k).
  { rewrite !(Z.testbit_neg_r _ (i - k)), (Z.testbit_neg_r _ (i - (k + 6))) by lia. done. }
  rewrite Z.land_spec, !(Z.shiftr_spec _ _ (i - k)) by lia.
  destruct (Z.lt_ge_cases i (k + 6)).
  - rewrite (Z.testbit_neg_r _ (i - (k + 6))), Z.ones_spec_low by lia. by rewrite andb_true_r.
  - rewrite Z.shiftr_spec, Z.ones_spec_high by lia. rewrite andb_false_r, orb_false_r. f_equal. lia.
Qed.

Lemma shiftr_shiftl_floor n j k :
  0 <= j <= k -> Z.shiftr (Z.shiftl (Z.shiftr n j) j) k = Z.shiftr n k.
Proof.
  intros Hj. apply Z.bits_inj'. intros i Hi.
  rewrite !Z.shiftr_spec, Z.shiftl_spec, Z.shiftr_spec by lia. f_equal. lia.
Qed.

(** The word of a full or short chunk of digits is the word it encodes, with
    the bits below the last digit cleared. *)
Lemma chunk_word_digit n k i acc rest :
  0 <= k -> k = 18 - 6 * i -> acc = Z.shiftl (Z.shiftr n (k + 6)) (k + 6) ->
  chunk_word i acc (b64_char (digit n k) :: rest) =
  chunk_word (i + 1) (Z.shiftl (Z.shiftr n k) k) rest.
Proof.
  intros Hk -> ->. cbn [chunk_word].
  destruct (b64_char_spec (digit n (18 - 6 * i)) (digit_range _ _)) as [-> _].
  cbn [mbind result_bind]. by rewrite lor_digit.
Qed.

Lemma top_cleared n : 0 <= n < 2 ^ 24 -> 0 = Z.shiftl (Z.shiftr n 24) 24.
Proof. intros Hn. rewrite Z.shiftr_div_pow2, Z.div_small by lia. done. Qed.

Lemma word_bytes b0 b1 b2 :
  is_byte b0 -> is_byte b1 -> is_byte b2 ->
  let n := Z.lor (Z.lor (Z.shiftl b0 16) (Z.shiftl b1 8)) b2 in
  0 <= n < 2 ^ 24 /\ wrap 8 (Z.shiftr n 16) = b0 /\ wrap 8 (Z.shiftr n 8) = b1 /\ wrap 8 n = b2.
Proof.
  intros H0 H1 H2 n. unfold is_byte in *.
  assert (n = b0 * 2 ^ 16 + b1 * 2 ^ 8 + b2) as ->.
  { assert (forall a b k, 0 <= k -> 0 <= b < 2 ^ k -> Z.lor (Z.shiftl a k) b = a * 2 ^ k + b) as Hl.
    { intros a b k Hk Hb. rewrite <- Z.shiftl_mul_pow2, <- Z.add_lor_land by done.
      enough (Z.land (Z.shiftl a k) b = 0) as E by (rewrite E; lia).
      apply Z.bits_inj'. intros i Hi. rewrite Z.land_spec, Z.bits_0.
      destruct (Z.lt_ge_cases i k); [by rewrite Z.shiftl_spec_low|].
      rewrite <- (Z.mod_small b (2 ^ k)), Z.mod_pow2_bits_high by lia. apply andb_false_r. }
    assert (0 <= Z.shiftl b1 8 < 2 ^ 16) by (rewrite Z.shiftl_mul_pow2; lia).
    subst n. rewrite (Hl b0) by lia.
    replace (b0 * 2 ^ 16 + Z.shiftl b1 8) with (Z.shiftl (b0 * 2 ^ 8 + b1) 8)
      by (rewrite !Z.shiftl_mul_pow2 by lia; lia).
    rewrite Hl by lia. lia. }
  rewrite !Z.shiftr_div_pow2 by lia. unfold wrap. repeat split; Z.div_mod_to_equations; lia.
Qed.

Lemma chunk_word_top n rest :
  0 <= n < 2 ^ 24 ->
  chunk_word 0 0 (b64_char (digit n 18) :: rest) = chunk_word 1 (Z.shiftl (Z.shiftr n 18) 18) rest.
Proof. intros Hn. apply chunk_word_digit; [done..|]. by apply top_cleared. Qed.

Lemma chunk_word_12 n rest :
  chunk_word 1 (Z.shiftl (Z.shiftr n 18) 18) (b64_char (digit n 12) :: rest) =
  chunk_word 2 (Z.shiftl (Z.shiftr n 12) 12) rest.
Proof. by apply chunk_word_digit. Qed.

Lemma chunk_word_6 n rest :
  chunk_word 2 (Z.shiftl (Z.shiftr n 12) 12) (b64_char (digit n 6) :: rest) =
  chunk_word 3 (Z.shiftl (Z.shiftr n 6) 6) rest.
Proof. by apply chunk_word_digit. Qed.

Lemma chunk_word_0 n rest :
  chunk_word 3 (Z.shiftl (Z.shiftr n 6) 6) (b64_char (digit n 0) :: rest) = chunk_word 4 n rest.
Proof. rewrite (chunk_word_digit n 0) by done. by rewrite Z.shiftl_0_r, Z.shiftr_0_r. Qed.

Lemma encode_chunk_digits chunk b0 b1 b2 :
  b0 = default 0 (chunk !! 0%nat) -> b1 = default 0 (chunk !! 1%nat) -> b2 = default 0 (chunk !! 2%nat) ->
  let n := Z.lor (Z.lor (Z.shiftl b0 16) (Z.shiftl b1 8)) b2 in
  encode_chunk chunk =
  [ b64_char (digit n 18); b64_char (digit n 12);
    if (1 <? length chunk)%nat then b64_char (digit n 6) else EQ_SIGN;
    if (2 <? length chunk)%nat then b64_char (digit n 0) else EQ_SIGN ].
Proof.
  intros -> -> -> n. unfold encode_chunk, digit. subst n. by rewrite Z.shiftr_0_r.
Qed.

Lemma filter_digit n k l :
  List.filter significant (b64_char (digit n k) :: l) = b64_char (digit n k) :: List.filter significant l.
Proof. cbn [List.filter]. by destruct (b64_char_spec _ (digit_range n k)) as (_ & -> & _). Qed.

Lemma filter_pad l : List.filter significant (EQ_SIGN :: l) = List.filter significant l.
Proof. done. Qed.

Create Rewrite HintDb b64_rw.

#[export] Hint Rewrite filter_digit filter_pad chunk_word_12 chunk_word_6 chunk_word_0 : b64_rw.

Ltac solve_chunk n :=
  unfold decode_chunk; cbn [length Nat.ltb Nat.leb]; autorewrite with b64_rw;
  rewrite (chunk_word_top n) by done; autorewrite with b64_rw;
  cbn [List.filter chunk_word mbind result_bind length Nat.ltb Nat.leb app];
  rewrite ?shiftr_shiftl_floor by lia.

Lemma decode_encode_chunk chunk :
  Forall is_byte chunk -> (0 < length chunk <= 3)%nat ->
  decode_chunk (List.filter significant (encode_chunk chunk)) = Ok chunk.
Proof.
  intros Hc Hlen. assert (is_byte 0) as H0 by (unfold is_byte; lia).
  destruct chunk as [|b0 [|b1 [|b2 [|]]]]; simpl in Hlen; try lia;
    rewrite ?Forall_cons_iff in Hc; destruct_and! Hc.
  - destruct (word_bytes b0 0 0) as (Hn & E0 & _ & _); [done..|].
    rewrite (encode_chunk_digits _ b0 0 0) by done. set (n := Z.lor _ _) in *.
    solve_chunk n. by rewrite E0.
  - destruct (word_bytes b0 b1 0) as (Hn & E0 & E1 & _); [done..|].
    rewrite (encode_chunk_digits _ b0 b1 0) by done. set (n := Z.lor _ _) in *.
    solve_chunk n. by rewrite E0, E1.
  - destruct (word_bytes b0 b1 b2) as (Hn & E0 & E1 & E2); [done..|].
    rewrite (encode_chunk_digits _ b0 b1 b2) by done. set (n := Z.lor _ _) in *.
    solve_chunk n. by rewrite E0, E1, E2.
Qed.

Lemma concat_chunks {A : Type} k (l : list A) : (0 < k)%nat -> concat (chunks k l) = l.
Proof.
  intros Hk. unfold chunks.
  assert (forall f (l0 : list A), (length l0 <= f)%nat -> concat (chunks_go f k l0) = l0) as H; [|by apply H].
  induction f as [|f IH]; intros [|a l0] Hf; try done; [simpl in Hf; lia|].
  cbn [chunks_go]; rewrite concat_cons, IH; [apply take_drop|rewrite length_drop; cbn [length] in *; lia].
Qed.

Lemma encode_chunk_bytes chunk : Forall is_byte (encode_chunk chunk).
Proof.
  rewrite (encode_chunk_digits _ _ _ _ eq_refl eq_refl eq_refl).
  assert (forall n k, is_byte (b64_char (digit n k))) as H.
  { intros. by destruct (b64_char_spec _ (digit_range n k)) as (_ & _ & ?). }
  repeat constructor; try apply H; case_match; try apply H; unfold is_byte, EQ_SIGN; lia.
Qed.

Lemma encoded_length chunk :
  (0 < length chunk <= 3)%nat ->
  length (List.filter significant (encode_chunk chunk)) = S (length chunk).
Proof.
  intros Hlen. rewrite (encode_chunk_digits _ _ _ _ eq_refl eq_refl eq_refl).
  destruct chunk as [|b0 [|b1 [|b2 [|]]]]; simpl in Hlen; try lia;
    cbn [length Nat.ltb Nat.leb]; by autorewrite with b64_rw.
Qed.

Lemma decode_encoded_chunks l :
  Forall is_byte l ->
  traverse decode_chunk (chunks 4 (List.filter significant (concat (map encode_chunk (chunks 3 l))))) =
  Ok (chunks 3 l).
Proof.
  remember (length l) as n eqn:En. revert l En.
  induction n as [n IH] using lt_wf_ind. intros l -> Hl.
  destruct (decide (l = [])) as [-> | Hne]; [done|].
  assert (0 < length l)%nat by (destruct l; [done|simpl; lia]).
  destruct (Nat.le_gt_cases (length l) 3) as [Hle | Hgt].
  - rewrite (chunks_last 3 l) by done. cbn [map]; rewrite concat_cons, app_nil_r.
    pose proof (encoded_length l ltac:(lia)) as Hlen.
    rewrite chunks_last; [|by destruct (List.filter _ _)|lia].
    cbn [traverse]. by rewrite decode_encode_chunk by (done || lia).
  - rewrite <- (take_drop 3 l) in Hl |- *. apply Forall_app in Hl as [Ht Hd].
    assert (length (take 3 l) = 3%nat) as H3 by (rewrite length_take; lia).
    rewrite (chunks_app 3) by (done || lia). cbn [map]; rewrite concat_cons.
    rewrite List.filter_app, chunks_app by (rewrite ?encoded_length; lia).
    cbn [traverse]. rewrite decode_encode_chunk by (done || lia).
    rewrite (IH (length (drop 3 l))); [done|rewrite length_drop; lia|done|done].
Qed.

Lemma base64_decode_encode l : Forall is_byte l -> base64_decode (base64_encode l) = Ok l.
Proof.
  intros Hl. unfold base64_decode, base64_encode.
  rewrite bytes_of_bytes.
  - rewrite decode_encoded_chunks by done. cbn. by rewrite concat_chunks by lia.
  - apply Forall_concat, Forall_map, Forall_true. intros c. apply encode_chunk_bytes.
Qed.

(** ** Reading a request back

    The grammar of the UAPI: one [key=value] directive per line, a blank line
    ends the request. *)

Inductive Directive : Type :=
| DPrivateKey (k : list Z)
| DListenPort (p : Z)
| DReplacePeers
| DPublicKey (k : list Z)
| DRemove
| DEndpoint (ap : Z * Z)
| DReplaceAllowedIps
| DAllowedIp (net : Z * Z)
| DKeepalive (n : Z).

Definition unhex_digit (c : ascii) : option Z :=
  let n := byte_of c in
  if (48 <=? n) && (n <=? 57) then Some (n - 48)
  else if (97 <=? n) && (n <=? 102) then Some (n - 87)
  else None.

Fixpoint unhex (s : string) : option (list Z) :=
  match s with
  | EmptyString => Some []
  | String c1 (String c2 s') =>
      a ← unhex_digit c1; b ← unhex_digit c2; l ← unhex s'; Some (a * 16 + b :: l)
  | _ => None
  end.

Definition read_cidr (s : string) : option (Z * Z) :=
  '(ip, len) ← split_once "/" s;
  a ← parse_ipv4 ip;
  p ← parse_unsigned 8 len;
  if 32 <? p then None else Some (a, p).

Definition read_directive (l : string) : option Directive :=
  '(k, v) ← split_once "=" l;
  if bool_decide (k = "private_key") then DPrivateKey <$> unhex v
  else if bool_decide (k = "listen_port") then DListenPort <$> parse_unsigned 16 v
  else if bool_decide (k = "replace_peers") then (if bool_decide (v = "true") then Some DReplacePeers else None)
  else if bool_decide (k = "public_key") then DPublicKey <$> unhex v
  else if bool_decide (k = "remove") then (if bool_decide (v = "true") then Some DRemove else None)
  else if bool_decide (k = "endpoint") then DEndpoint <$> parse_socket_v4 v
  else if bool_decide (k = "replace_allowed_ips") then
    (if bool_decide (v = "true") then Some DReplaceAllowedIps else None)
  else if bool_decide (k = "allowed_ip") then DAllowedIp <$> read_cidr v
  else if bool_decide (k = "persistent_keepalive_interval") then DKeepalive <$> parse_unsigned 16 v
  else None.

Fixpoint read_lines (ls : list string) : option (list Directive) :=
  match ls with
  | [] => None
  | [EmptyString] => Some []
  | l :: ls' => d ← read_directive l; ds ← read_lines ls'; Some (d :: ds)
  end.

Definition read_request (s : string) : option (list Directive) := read_lines (str_lines s).

(** What a configuration asks of the device. *)

Definition key_of (b64 : string) : option (list Z) :=
  match base64_decode b64 with
  | Ok raw => if (length raw =? 32)%nat then Some raw else None
  | Err _ => None
  end.

Definition endpoint_directives (ep : option string) : option (list Directive) :=
  match ep with
  | None => Some []
  | Some e => ap ← parse_socket_v4 e; Some [DEndpoint ap]
  end.

Definition peer_directives (p : PeerConfig) : option (list Directive) :=
  k ← key_of (public_key_b64 p);
  ep ← endpoint_directives (endpoint p);
  ips ← mapM read_cidr (allowed_ips p);
  Some ([DPublicKey k] ++ ep ++ [DReplaceAllowedIps] ++ map DAllowedIp ips ++
        [DKeepalive (keepalive_secs p)]).

Definition add_directives (ps : list PeerConfig) : option (list Directive) :=
  dss ← mapM peer_directives ps; Some (concat dss).

Definition set_directives (cfg : DeviceConfig) : option (list Directive) :=
  k ← key_of (private_key_b64 cfg);
  ds ← add_directives (peers cfg);
  Some ([DPrivateKey k; DListenPort (listen_port cfg); DReplacePeers] ++ ds).

(** ** Hexadecimal *)

Lemma unhex_hex_digit d : 0 <= d < 16 -> unhex_digit (hex_digit d) = Some d.
Proof.
  intros Hd.
  assert (forallb (fun n => bool_decide (unhex_digit (hex_digit (Z.of_nat n)) = Some (Z.of_nat n)))
            (seq 0 16) = true) as H by (vm_compute; reflexivity).
  rewrite forallb_iff in H. specialize (H (Z.to_nat d)).
  rewrite elem_of_seq, Z2Nat.id in H by lia. eapply bool_decide_eq_true_1, H. lia.
Qed.

Lemma unhex_hex_bytes l : Forall is_byte l -> unhex (hex_bytes l) = Some l.
Proof.
  induction 1 as [|b l Hb _ IH]; [done|]. unfold is_byte in Hb. cbn [hex_bytes unhex].
  pose proof (Z.div_mod b 256 ltac:(lia)). pose proof (Z.mod_pos_bound b 16 ltac:(lia)).
  rewrite !unhex_hex_digit, IH by (try done; Z.div_mod_to_equations; lia). cbn. repeat f_equal.
  pose proof (Z.div_mod b 16 ltac:(lia)). lia.
Qed.

Definition printable (c : ascii) : bool := 32 <=? byte_of c.

Lemma printable_hex_bytes l : Forall is_byte l -> str_all printable (hex_bytes l) = true.
Proof.
  assert (forall d, 0 <= d < 16 -> printable (hex_digit d) = true) as H.
  { intros d Hd.
    assert (forallb (fun n => printable (hex_digit (Z.of_nat n))) (seq 0 16) = true) as H
      by (vm_compute; reflexivity).
    rewrite forallb_iff in H. specialize (H (Z.to_nat d)).
    rewrite elem_of_seq, Z2Nat.id in H by lia. apply H. lia. }
  induction 1 as [|b l Hb _ IH]; [done|]. unfold is_byte in Hb. cbn [hex_bytes str_all].
  rewrite !H, IH by (Z.div_mod_to_equations; lia). done.
Qed.

Lemma decode_chunk_bytes c l : decode_chunk c = Ok l -> Forall is_byte l.
Proof.
  assert (forall x, is_byte (wrap 8 x)) as H.
  { intros x. unfold is_byte, wrap. change 256 with (2 ^ 8). by apply Z.mod_pos_bound. }
  unfold decode_chunk. intros (n & _ & E)%bind_ok. injection E as <-.
  cbn [app]. apply Forall_cons_iff. split; [apply H|].
  apply Forall_app; split; case_match; try apply Forall_nil_2; by apply Forall_singleton.
Qed.

Lemma base64_decode_bytes s l : base64_decode s = Ok l -> Forall is_byte l.
Proof.
  unfold base64_decode. intros (parts & Ht & E)%bind_ok. injection E as <-.
  apply Forall_concat. apply traverse_ok in Ht. clear -Ht.
  induction Ht; constructor; eauto using decode_chunk_bytes.
Qed.

Lemma key_of_bytes b64 k : key_of b64 = Some k -> Forall is_byte k.
Proof.
  unfold key_of. destruct (base64_decode b64) eqn:E; [|done].
  case_match; [|done]. intros [= <-]. by eapply base64_decode_bytes.
Qed.

Lemma key_b64_to_hex_spec b64 :
  match key_b64_to_hex b64 with
  | Ok h => exists k, key_of b64 = Some k /\ h = hex_bytes k
  | Err _ => key_of b64 = None
  end.
Proof.
  unfold key_b64_to_hex, key_of. destruct (base64_decode b64) as [raw|]; [|done].
  cbn. destruct (length raw =? 32)%nat; eauto.
Qed.

Lemma pubkey_b64_to_hex_key b64 : pubkey_b64_to_hex b64 = hex_bytes <$> key_of b64.
Proof.
  unfold pubkey_b64_to_hex, key_of. destruct (base64_decode b64); [|done]. by case_match.
Qed.

(** ** Accepted strings are printable *)

Lemma digit_of_is_digit c d : digit_of c = Some d -> is_digit c = true.
Proof. unfold is_digit. by intros ->. Qed.

Lemma digits_acc_all acc s v : digits_acc acc s = Some v -> str_all is_digit s = true.
Proof.
  revert acc. induction s as [|c s IH]; intros acc; [done|]. simpl.
  destruct (digit_of c) eqn:E; [|done]. intros H%IH. by rewrite (digit_of_is_digit _ _ E), H.
Qed.

Lemma printable_digit c : is_digit c = true -> printable c = true.
Proof.
  unfold is_digit, digit_of, printable, byte_of. set (n := Z.of_nat _).
  destruct (Z.leb_spec 48 n) as [H|]; [|done]. intros _. apply Z.leb_le. lia.
Qed.

Lemma printable_digits s : str_all is_digit s = true -> str_all printable s = true.
Proof. apply str_all_impl. intros c. apply printable_digit. Qed.

Lemma parse_octet_printable s v : parse_octet s = Some v -> str_all printable s = true.
Proof.
  intros E. apply printable_digits. unfold parse_octet in E.
  destruct s as [|c s']; [done|]. destruct (Ascii.eqb_spec c "0") as [-> |].
  - by destruct s'.
  - destruct (Nat.leb _ _); [|done]. destruct (digits_acc 0 _) eqn:E'; [|done].
    by eapply digits_acc_all.
Qed.

Lemma split_once_printable c s a b :
  split_once c s = Some (a, b) -> printable c = true ->
  str_all printable a = true -> str_all printable b = true -> str_all printable s = true.
Proof.
  intros [E _]%split_once_some Hc Ha Hb. subst s.
  rewrite str_all_app, Ha. simpl. by rewrite Hc.
Qed.

Lemma parse_ipv4_printable s x : parse_ipv4 s = Some x -> str_all printable s = true.
Proof.
  unfold parse_ipv4. intros E.
  apply bind_Some in E as ([p1 r1] & E1 & E). apply bind_Some in E as ([p2 r2] & E2 & E).
  apply bind_Some in E as ([p3 p4] & E3 & E). simplify_option_eq.
  repeat (eapply split_once_printable; [eassumption|done|by eapply parse_octet_printable|]).
  by eapply parse_octet_printable.
Qed.

Lemma parse_digits_printable s v : parse_digits s = Some v -> str_all printable s = true.
Proof.
  intros E. apply printable_digits. unfold parse_digits in E. destruct s; [done|].
  by eapply digits_acc_all.
Qed.

Lemma parse_socket_v4_printable s ap : parse_socket_v4 s = Some ap -> str_all printable s = true.
Proof.
  unfold parse_socket_v4. intros E. apply bind_Some in E as ([h p] & E1 & E).
  apply bind_Some in E as (ip & Eip & E). apply bind_Some in E as (port & Eport & E).
  eapply split_once_printable; [exact E1|done|by eapply parse_ipv4_printable|].
  unfold parse_port in Eport. destruct (parse_digits p) eqn:Ep; [|done].
  by eapply parse_digits_printable.
Qed.

Lemma parse_unsigned_printable w s v : parse_unsigned w s = Some v -> str_all printable s = true.
Proof.
  unfold parse_unsigned. destruct (parse_digits (strip_plus s)) eqn:E; [|done]. intros _.
  apply parse_digits_printable in E. unfold strip_plus in E.
  destruct s as [|c s]; [done|]. by repeat case_match.
Qed.

Lemma read_cidr_printable s n : read_cidr s = Some n -> str_all printable s = true.
Proof.
  unfold read_cidr. intros E. apply bind_Some in E as ([h p] & E1 & E).
  apply bind_Some in E as (ip & Eip & E). apply bind_Some in E as (len & Elen & _).
  eapply split_once_printable; [exact E1|done|by eapply parse_ipv4_printable|].
  by eapply parse_unsigned_printable.
Qed.

(** The two validators are the readers' domains. *)
Lemma validate_endpoint_spec ep :
  validate_ipv4_endpoint ep = Ok tt /\ is_Some (parse_socket_v4 ep) \/
  is_ok (validate_ipv4_endpoint ep) = false /\ parse_socket_v4 ep = None.
Proof. unfold validate_ipv4_endpoint. destruct (parse_socket_v4 ep); [left|right]; eauto. Qed.

Lemma validate_cidr_spec c :
  validate_ipv4_cidr c = Ok tt /\ is_Some (read_cidr c) \/
  is_ok (validate_ipv4_cidr c) = false /\ read_cidr c = None.
Proof.
  unfold validate_ipv4_cidr, read_cidr. destruct (split_once "/" c) as [[ip len]|]; [|by right].
  cbn. destruct (parse_ipv4 ip); [|by right]. cbn.
  destruct (parse_unsigned 8 len) as [p|]; [|by right]. cbn.
  destruct (32 <? p); [by right|left]. eauto.
Qed.

Lemma dialable_spec ep : is_dialable_endpoint ep = true <-> is_Some (parse_socket_v4 ep).
Proof.
  unfold is_dialable_endpoint. destruct (validate_endpoint_spec ep) as [[-> ?] | [-> ->]]; [done|].
  split; [done|by intros []].
Qed.

Lemma valid_cidr_spec c : is_valid_ipv4_cidr c = true <-> is_Some (read_cidr c).
Proof.
  unfold is_valid_ipv4_cidr. destruct (validate_cidr_spec c) as [[-> ?] | [-> ->]]; [done|].
  split; [done|by intros []].
Qed.

(** ** Lines *)

Definition unterminated (l : string) : bool := negb (has_char LF l) && negb (has_char CR l).

Lemma unterminated_printable l : str_all printable l = true -> unterminated l = true.
Proof.
  intros H. unfold unterminated. apply andb_true_iff. rewrite !negb_true_iff.
  split; apply has_char_all; revert H; apply str_all_impl; intros c Hc;
    apply negb_true_iff, Ascii.eqb_neq; intros <-; done.
Qed.

Lemma str_lines_cons l s :
  unterminated l = true -> str_lines (l +:+ String LF s) = l :: str_lines s.
Proof.
  unfold unterminated. rewrite andb_true_iff, !negb_true_iff. intros [Hlf Hcr].
  induction l as [|c l IH].
  { by destruct s. }
  cbn [has_char] in Hlf, Hcr. apply orb_false_iff in Hlf as [Hlf1 Hlf], Hcr as [Hcr1 Hcr].
  specialize (IH Hlf Hcr). rewrite string_app_cons.
  rewrite Ascii.eqb_sym in Hlf1, Hcr1. cbn [str_lines]. rewrite Hlf1.
  destruct l as [|d l].
  - rewrite string_app_nil_l in *. rewrite Hcr1. cbn [andb]. by rewrite IH.
  - rewrite string_app_cons in *. rewrite Hcr1. cbn [andb]. by rewrite IH.
Qed.

(** The text of a list of lines. *)
Fixpoint text (ls : list string) : string :=
  match ls with [] => "" | l :: ls' => l +:+ String LF (text ls') end.

Lemma text_app ls1 ls2 : text (ls1 ++ ls2) = text ls1 +:+ text ls2.
Proof.
  induction ls1 as [|l ls1 IH]; [done|]. cbn [app text]. rewrite IH.
  by rewrite string_app_assoc, string_app_cons.
Qed.

Lemma str_lines_text ls :
  Forall (fun l => unterminated l = true) ls ->
  str_lines (text ls +:+ String LF "") = ls ++ [""].
Proof.
  induction 1 as [|l ls Hl _ IH]; [done|]. cbn [text app].
  rewrite string_app_assoc, string_app_cons, str_lines_cons, IH by done. done.
Qed.

Lemma line_text key v : line key v = text [key +:+ v].
Proof. unfold line. cbn [text]. by rewrite string_app_assoc. Qed.

Lemma read_lines_mapM ls ds :
  Forall2 (fun l d => read_directive l = Some d) ls ds -> read_lines (ls ++ [""]) = Some ds.
Proof.
  induction 1 as [|l d ls ds Hl _ IH]; [done|]. cbn [app read_lines].
  rewrite Hl, IH. cbn. by destruct l, ls.
Qed.

(** A line that reads as a directive. *)
Definition reads (l : string) (d : Directive) : Prop :=
  unterminated l = true /\ read_directive l = Some d.

Lemma reads_intro key v d :
  str_all printable key = true -> str_all printable v = true ->
  read_directive (key +:+ v) = Some d -> reads (key +:+ v) d.
Proof.
  intros Hk Hv Hd. split; [|done]. apply unterminated_printable. by rewrite str_all_app, Hk, Hv.
Qed.

Lemma reads_private_key k : Forall is_byte k -> reads ("private_key=" +:+ hex_bytes k) (DPrivateKey k).
Proof.
  intros Hk. apply reads_intro; [done|by apply printable_hex_bytes|].
  change (DPrivateKey <$> unhex (hex_bytes k) = Some (DPrivateKey k)). by rewrite unhex_hex_bytes.
Qed.

Lemma reads_public_key k : Forall is_byte k -> reads ("public_key=" +:+ hex_bytes k) (DPublicKey k).
Proof.
  intros Hk. apply reads_intro; [done|by apply printable_hex_bytes|].
  change (DPublicKey <$> unhex (hex_bytes k) = Some (DPublicKey k)). by rewrite unhex_hex_bytes.
Qed.

Lemma parse_show_u16 n : 0 <= n < 2 ^ 16 -> parse_unsigned 16 (show_uint n) = Some n.
Proof. intros. by apply parse_unsigned_show. Qed.

Lemma reads_listen_port n : 0 <= n < 2 ^ 16 -> reads ("listen_port=" +:+ show_uint n) (DListenPort n).
Proof.
  intros Hn. apply reads_intro; [done|apply printable_digits, str_all_show_uint; lia|].
  change (DListenPort <$> parse_unsigned 16 (show_uint n) = Some (DListenPort n)).
  by rewrite parse_show_u16.
Qed.

Lemma reads_keepalive n :
  0 <= n < 2 ^ 16 -> reads ("persistent_keepalive_interval=" +:+ show_uint n) (DKeepalive n).
Proof.
  intros Hn. apply reads_intro; [done|apply printable_digits, str_all_show_uint; lia|].
  change (DKeepalive <$> parse_unsigned 16 (show_uint n) = Some (DKeepalive n)).
  by rewrite parse_show_u16.
Qed.

Lemma reads_endpoint ep ap : parse_socket_v4 ep = Some ap -> reads ("endpoint=" +:+ ep) (DEndpoint ap).
Proof.
  intros E. apply reads_intro; [done|by eapply parse_socket_v4_printable|].
  change (DEndpoint <$> parse_socket_v4 ep = Some (DEndpoint ap)). by rewrite E.
Qed.

Lemma reads_allowed_ip c n : read_cidr c = Some n -> reads ("allowed_ip=" +:+ c) (DAllowedIp n).
Proof.
  intros E. apply reads_intro; [done|by eapply read_cidr_printable|].
  change (DAllowedIp <$> read_cidr c = Some (DAllowedIp n)). by rewrite E.
Qed.

(** ** What the encoder writes *)

Definition endpoint_lines (ep : option string) : list string :=
  match ep with Some e => ["endpoint=" +:+ e] | None => [] end.

Definition peer_lines (hex : string) (p : PeerConfig) : list string :=
  ["public_key=" +:+ hex] ++ endpoint_lines (endpoint p) ++ ["replace_allowed_ips=true"] ++
  map (fun c => "allowed_ip=" +:+ c) (allowed_ips p) ++
  ["persistent_keepalive_interval=" +:+ show_uint (keepalive_secs p)].

Lemma foldl_lines (f : string -> string) l s :
  foldl (fun s c => s +:+ line (f c) "") s l = s +:+ text (map f l).
Proof.
  revert s. induction l as [|c l IH]; intros s; cbn [foldl map text]; [by rewrite string_app_nil_r|].
  rewrite IH. unfold line. by rewrite string_app_nil_l, !string_app_assoc, string_app_cons, string_app_nil_l.
Qed.

Lemma push_peer_block_text s p hex :
  validate_peer p = Ok tt -> key_b64_to_hex (public_key_b64 p) = Ok hex ->
  push_peer_block s p = Ok (s +:+ text (peer_lines hex p)).
Proof.
  intros Hv Hk. unfold push_peer_block. rewrite Hv, Hk. cbn [mbind result_bind]. f_equal.
  assert (foldl (fun s cidr => s +:+ line "allowed_ip=" cidr) =
          foldl (fun s cidr => s +:+ line ("allowed_ip=" +:+ cidr) "")) as ->.
  { f_equal. }
  rewrite (foldl_lines (fun c => "allowed_ip=" +:+ c)), !line_text.
  unfold peer_lines, endpoint_lines. rewrite !text_app, !string_app_assoc.
  destruct (endpoint p); rewrite ?line_text, ?string_app_assoc, ?string_app_nil_l, ?string_app_nil_r; done.
Qed.

Lemma validate_cidrs_spec l :
  match traverse validate_ipv4_cidr l with
  | Ok _ => exists ns, mapM read_cidr l = Some ns
  | Err _ => mapM read_cidr l = None
  end.
Proof.
  induction l as [|c l IH]; [by eexists|]. cbn [traverse mapM].
  destruct (validate_cidr_spec c) as [[-> [n ->]] | [H ->]].
  - cbn. destruct (traverse _ l); [destruct IH as [ns ->]|rewrite IH]; cbn; eauto.
  - by destruct (validate_ipv4_cidr c).
Qed.

Lemma validate_peer_spec p :
  match validate_peer p with
  | Ok _ => exists ep ns, endpoint_directives (endpoint p) = Some ep /\ mapM read_cidr (allowed_ips p) = Some ns
  | Err _ => endpoint_directives (endpoint p) = None \/ mapM read_cidr (allowed_ips p) = None
  end.
Proof.
  unfold validate_peer, endpoint_directives. pose proof (validate_cidrs_spec (allowed_ips p)) as Hc.
  destruct (endpoint p) as [e|].
  - destruct (validate_endpoint_spec e) as [[-> [ap ->]] | [H ->]]; cbn.
    + destruct (traverse _ _); cbn; [destruct Hc as [ns ->]; eauto|by right].
    + destruct (validate_ipv4_endpoint e); [done|by left].
  - destruct (traverse _ _); cbn; [destruct Hc as [ns ->]; eauto|by right].
Qed.

Definition wf_peer (p : PeerConfig) : Prop := 0 <= keepalive_secs p < 2 ^ 16.

Lemma peer_lines_read hex k p ep ns :
  wf_peer p -> Forall is_byte k -> hex = hex_bytes k ->
  endpoint_directives (endpoint p) = Some ep -> mapM read_cidr (allowed_ips p) = Some ns ->
  Forall2 reads (peer_lines hex p)
    ([DPublicKey k] ++ ep ++ [DReplaceAllowedIps] ++ map DAllowedIp ns ++ [DKeepalive (keepalive_secs p)]).
Proof.
  intros Hwf Hk -> Hep Hns. unfold peer_lines.
  repeat apply Forall2_app.
  - constructor; [by apply reads_public_key|constructor].
  - unfold endpoint_directives in Hep. destruct (endpoint p) as [e|]; [|by simplify_eq; constructor].
    apply bind_Some in Hep as (ap & Hap & [= <-]).
    constructor; [by apply reads_endpoint|constructor].
  - constructor; [by split|constructor].
  - apply mapM_Some in Hns. apply Forall2_fmap. eapply Forall2_impl; [|exact Hns].
    intros c n. apply reads_allowed_ip.
  - constructor; [by apply reads_keepalive|constructor].
Qed.

Lemma push_peer_block_spec s p :
  wf_peer p ->
  match push_peer_block s p with
  | Ok s' => exists ls ds, s' = s +:+ text ls /\ peer_directives p = Some ds /\ Forall2 reads ls ds
  | Err _ => peer_directives p = None
  end.
Proof.
  intros Hwf. pose proof (validate_peer_spec p) as Hv. pose proof (key_b64_to_hex_spec (public_key_b64 p)) as Hk.
  unfold peer_directives.
  destruct (validate_peer p) as [[]|] eqn:Ev.
  - destruct Hv as (ep & ns & Hep & Hns). rewrite Hep, Hns.
    destruct (key_b64_to_hex _) as [hex|] eqn:Ek.
    + destruct Hk as (k & Hk & Hhex). rewrite Hk, (push_peer_block_text s p hex) by done.
      exists (peer_lines hex p). eexists. split; [reflexivity|]. split; [reflexivity|].
      eapply peer_lines_read; eauto using key_of_bytes.
    + unfold push_peer_block. rewrite Ev, Ek. cbn. by rewrite Hk.
  - unfold push_peer_block. rewrite Ev. cbn.
    destruct (key_of (public_key_b64 p)); [|done].
    destruct Hv as [-> | ->]; [done|]. by destruct (endpoint_directives (endpoint p)).
Qed.

Lemma push_peer_blocks_spec ps s :
  Forall wf_peer ps ->
  match push_peer_blocks s ps with
  | Ok s' => exists ls ds, s' = s +:+ text ls /\ add_directives ps = Some ds /\ Forall2 reads ls ds
  | Err _ => add_directives ps = None
  end.
Proof.
  intros Hwf. unfold add_directives. revert s. induction Hwf as [|p ps Hp _ IH]; intros s.
  - exists [], []. by rewrite string_app_nil_r.
  - cbn [push_peer_blocks mapM]. pose proof (push_peer_block_spec s p Hp) as H1.
    destruct (push_peer_block s p) as [s1|]; cbn [mbind result_bind]; [|by rewrite H1].
    destruct H1 as (ls1 & ds1 & -> & -> & Hr1). specialize (IH (s +:+ text ls1)). cbn.
    destruct (push_peer_blocks _ ps) as [s2|].
    + destruct IH as (ls2 & ds2 & -> & E2 & Hr2). apply bind_Some in E2 as (dss & -> & [= <-]).
      exists (ls1 ++ ls2), (ds1 ++ concat dss). rewrite text_app, string_app_assoc.
      split; [done|]. split; [done|]. by apply Forall2_app.
    + destruct (mapM _ ps); [done|done].
Qed.

Lemma read_text ls ds :
  Forall2 reads ls ds -> read_request (text ls +:+ String LF "") = Some ds.
Proof.
  intros H. unfold read_request. rewrite str_lines_text.
  - apply read_lines_mapM. eapply Forall2_impl; [|exact H]. by intros ? ? [].
  - clear -H. induction H as [|? ? ? ? [] _]; by constructor.
Qed.

Definition wf_device (cfg : DeviceConfig) : Prop :=
  0 <= listen_port cfg < 2 ^ 16 /\ Forall wf_peer (peers cfg).

Lemma encode_add_peers_spec ps :
  Forall wf_peer ps -> (s ← result_ok (encode_add_peers ps); read_request s) = add_directives ps.
Proof.
  intros Hwf. unfold encode_add_peers. pose proof (push_peer_blocks_spec ps "" Hwf) as H.
  destruct (push_peer_blocks "" ps) as [s|]; cbn; [|done].
  destruct H as (ls & ds & -> & -> & Hr). by rewrite string_app_nil_l, (read_text ls ds).
Qed.

Lemma encode_set_spec cfg :
  wf_device cfg -> (s ← result_ok (encode_set cfg); read_request s) = set_directives cfg.
Proof.
  intros [Hport Hwf]. unfold encode_set, set_directives.
  pose proof (key_b64_to_hex_spec (private_key_b64 cfg)) as Hk.
  destruct (key_b64_to_hex _) as [hex|]; cbn [mbind result_bind result_ok]; [|by rewrite Hk].
  destruct Hk as (k & Hk & ->). rewrite Hk. rewrite !line_text, <- !text_app.
  set (hd := _ ++ _) at 1.
  pose proof (push_peer_blocks_spec (peers cfg) (text hd) Hwf) as H.
  destruct (push_peer_blocks (text hd) (peers cfg)) as [s|]; cbn; [|by rewrite H].
  destruct H as (ls & ds & -> & -> & Hr). rewrite <- text_app.
  rewrite (read_text _ ([DPrivateKey k; DListenPort (listen_port cfg); DReplacePeers] ++ ds)); [done|].
  apply Forall2_app; [|done]. subst hd. cbn [app].
  constructor; [apply reads_private_key; by eapply key_of_bytes|].
  constructor; [by apply reads_listen_port|]. constructor; [by split|constructor].
Qed.

Lemma encode_remove_peer_spec b64 :
  (s ← result_ok (encode_remove_peer b64); read_request s) =
  (k ← key_of b64; Some [DPublicKey k; DRemove]).
Proof.
  unfold encode_remove_peer. pose proof (key_b64_to_hex_spec b64) as Hk.
  destruct (key_b64_to_hex b64) as [hex|]; cbn [mbind result_bind result_ok]; [|by rewrite Hk].
  destruct Hk as (k & Hk & ->). rewrite Hk. cbn [mbind option_bind].
  assert ("public_key=" +:+ hex_bytes k +:+ String LF "remove=true" +:+ String LF (String LF "") =
          text ["public_key=" +:+ hex_bytes k; "remove=true"] +:+ String LF "") as ->.
  { cbn [text]. by rewrite !string_app_assoc, !string_app_cons. }
  apply read_text. constructor; [apply reads_public_key; by eapply key_of_bytes|].
  constructor; [by split|constructor].
Qed.

(** ** Properties *)


Definition ex_key : list Z := map Z.of_nat (seq 1 32).
Definition ex_device : DeviceConfig :=
  {| private_key_b64 := base64_encode ex_key; listen_port := 51820;
     peers := [ {| public_key_b64 := base64_encode (map Z.of_nat (seq 200 32));
                   endpoint := Some "203.0.113.9:51820"; allowed_ips := ["10.1.0.0/16"; "10.2.3.4/32"];
                   keepalive_secs := PERSISTENT_KEEPALIVE_SECS |} ] |}.


(** A newline in an advertised endpoint is refused, not written. *)
Example injection_refused :
  encode_add_peers [ {| public_key_b64 := base64_encode ex_key;
                        endpoint := Some ("10.0.0.1:1" +:+ String LF "endpoint=6.6.6.6:6");
                        allowed_ips := []; keepalive_secs := 0 |} ] =
  Err (NotIpv4Endpoint ("10.0.0.1:1" +:+ String LF "endpoint=6.6.6.6:6")).
Proof. vm_compute. reflexivity. Qed.

(** Keys survive the gateway's own base64: every byte string is decoded to
    itself, and a 32-byte key has the hexadecimal form of its bytes. *)
Theorem base64_round_trip l :
  Forall is_byte l ->
  base64_decode (base64_encode l) = Ok l /\
  pubkey_b64_to_hex (base64_encode l) = (if (length l =? 32)%nat then Some (hex_bytes l) else None) /\
  unhex (hex_bytes l) = Some l.
Proof.
  intros Hl. pose proof (base64_decode_encode l Hl) as E.
  split; [done|]. split; [|by apply unhex_hex_bytes].
  unfold pubkey_b64_to_hex. by rewrite E.
Qed.

Lemma base64_round_trip_witness :
  base64_decode (base64_encode [255; 0; 16; 7]) = Ok [255; 0; 16; 7] /\
  pubkey_b64_to_hex (base64_encode [255; 0; 16; 7]) = None /\
  unhex (hex_bytes [255; 0; 16; 7]) = Some [255; 0; 16; 7].
Proof.
  apply (base64_round_trip [255; 0; 16; 7]). repeat apply Forall_cons_2; unfold is_byte; try lia.
  apply Forall_nil_2.
Defined.

(** Decoding is not injective: the last digit's spare bits are ignored. *)
Example base64_spare_bits : base64_decode "AA" = base64_decode "AB".
Proof. reflexivity. Qed.

Definition acked (reply : option string) : bool :=
  match reply with Some resp => is_ok (check_response resp) | None => false end.

Definition request (ifname body : string) : string * string :=
  (socket_path ifname, "set=1" +:+ String LF body).

Lemma send_set_step w ifname body r rest :
  replies w = r :: rest ->
  exists e, send_set w ifname body =
    (e, {| sent := sent w ++ [request ifname body]; replies := rest |}) /\ is_ok e = acked r.
Proof.
  intros E. unfold send_set. rewrite E. eexists. split; [done|].
  by destruct r.
Qed.

(** Re-pointing a peer sends the remove first and alone; only after the
    device acknowledged it is the add sent, and a failing add is sent once more.
    The call reports success exactly when the remove and one of the adds were
    acknowledged.  A peer whose block does not encode is reported, but its
    remove has been sent by then. *)
Theorem repoint_outcome w ifname peer rm r1 r2 r3 rest :
  encode_remove_peer (public_key_b64 peer) = Ok rm ->
  replies w = r1 :: r2 :: r3 :: rest ->
  let '(res, w') := set_one_peer w ifname peer in
  match encode_add_peers [peer] with
  | Err _ => is_ok res = false /\ sent w' = sent w ++ [request ifname rm]
  | Ok add =>
      is_ok res = acked r1 && (acked r2 || acked r3) /\
      sent w' = sent w ++ [request ifname rm] ++
        (if acked r1 then [request ifname add] ++ (if acked r2 then [] else [request ifname add]) else [])
  end.
Proof.
  intros Erm Er. unfold set_one_peer. rewrite Erm. cbn [send_encoded].
  destruct (send_set_step w ifname rm _ _ Er) as (e1 & -> & <-).
  destruct e1 as [[]|e1]; cbn [is_ok].
  2: { destruct (encode_add_peers [peer]); cbn [is_ok]; [by rewrite app_nil_r|done]. }
  destruct (encode_add_peers [peer]) as [add|e] eqn:Ea; [|done].
  set (w1 := {| sent := _; replies := _ |}).
  destruct (send_set_step w1 ifname add r2 (r3 :: rest) eq_refl) as (e2 & -> & <-).
  destruct e2 as [[]|e2]; cbn [is_ok andb orb sent w1]; [by rewrite app_nil_r, <- app_assoc|].
  set (w2 := {| sent := _; replies := _ |}).
  destruct (send_set_step w2 ifname add r3 rest eq_refl) as (e3 & -> & <-).
  cbn [sent w2]. by rewrite <- !app_assoc.
Qed.

Definition ex_peer : PeerConfig :=
  {| public_key_b64 := base64_encode ex_key; endpoint := Some "10.9.0.2:51820";
     allowed_ips := []; keepalive_secs := 25 |}.
Definition ex_reply (n : string) : option string := Some ("errno=" +:+ n +:+ String LF (String LF "")).
Definition ex_wire : Wire := {| sent := []; replies := [ex_reply "0"; None; ex_reply "0"] |}.
Definition ex_remove : string := ok_or "" (encode_remove_peer (public_key_b64 ex_peer)).

Lemma repoint_outcome_witness :
  let '(res, w') := set_one_peer ex_wire "wg0" ex_peer in
  match encode_add_peers [ex_peer] with
  | Err _ => is_ok res = false /\ sent w' = sent ex_wire ++ [request "wg0" ex_remove]
  | Ok add =>
      is_ok res = acked (ex_reply "0") && (acked None || acked (ex_reply "0")) /\
      sent w' = sent ex_wire ++ [request "wg0" ex_remove] ++
        (if acked (ex_reply "0")
         then [request "wg0" add] ++ (if acked None then [] else [request "wg0" add]) else [])
  end.
Proof. apply (repoint_outcome ex_wire "wg0" ex_peer ex_remove _ _ _ []); vm_compute; reflexivity. Defined.

(** What the device reports as a peer's endpoint can be written back to it. *)
Lemma show_parse_socket ap s :
  parse_socket_v4 s = Some ap -> is_dialable_endpoint (show_socket_v4 ap) = true.
Proof.
  destruct ap as [ip port]. intros E%parse_socket_v4_range. apply dialable_spec.
  rewrite parse_show_socket_v4 by lia. eauto.
Qed.
