(* ===== verification/CtlKeys.v ===== *)
(** * Controller: the [gateway_key] table and its compare-and-swap operations

    [crates/wiremesh-controller/src/db.rs].  The table's primary key is
    [(gateway_id, epoch)] and its CHECK constraint admits three states, so it is
    a map from gateways to maps from epochs to rows.  Each operation is the one
    transaction of the source: it commits the returned [Db] or leaves the old
    one.  A failing SQLite call is an [Err] of the caller's (see CtlRotation):
    the transaction rolls back and the [Db] is unchanged. *)
From Stdlib Require Import ZArith Lia Ascii.
From stdpp Require Import sorting.
From S2P Require Import Prelude.
Open Scope Z_scope.

Inductive KeyState : Type := Pending | Active | Retiring.

#[export] Instance KeyState_eq_dec : EqDecision KeyState.
Proof. solve_decision. Defined.

(** The text of the [state] column. *)
Definition state_text (s : KeyState) : string :=
  match s with Pending => "pending" | Active => "active" | Retiring => "retiring" end.

Record KeyRow : Type := { row_pubkey : string; row_state : KeyState }.

#[export] Instance KeyRow_eq_dec : EqDecision KeyRow.
Proof. solve_decision. Defined.

Definition AWAITING_SUBMISSION_SENTINEL : string := "awaiting-submission".

(** [(epoch, pubkey, state)]. *)
Definition GatewayKeyRow : Type := Z * string * KeyState.

(** The rows of one gateway, by epoch. *)
Abbreviation Rows := (gmap Z KeyRow).

Record AuditEntry : Type := {
  au_ts : string; au_actor : string; au_action : string; au_entity : string; au_diff : string }.

(** The tables the key operations read and write: [gateway.status],
    [gateway_key], [state_revision] and [audit_log]. *)
Record Db : Type := {
  gateway_status : gmap Z string;
  gateway_key : gmap Z Rows;
  revision : Z;
  audit_log : list AuditEntry }.

Definition rows_of (db : Db) (gateway_id : Z) : Rows := default ∅ (gateway_key db !! gateway_id).

Definition set_rows (db : Db) (gateway_id : Z) (rows : Rows) : Db :=
  {| gateway_status := gateway_status db; gateway_key := <[gateway_id := rows]> (gateway_key db);
     revision := revision db; audit_log := audit_log db |}.

Definition bump_revision_tx (db : Db) : Db :=
  {| gateway_status := gateway_status db; gateway_key := gateway_key db;
     revision := revision db + 1; audit_log := audit_log db |}.

Definition append_audit (db : Db) (e : AuditEntry) : Db :=
  {| gateway_status := gateway_status db; gateway_key := gateway_key db;
     revision := revision db; audit_log := audit_log db ++ [e] |}.

(** [ORDER BY epoch]. *)
Definition epoch_le (a b : Z * KeyRow) : Prop := fst a <= fst b.

#[export] Instance epoch_le_dec a b : Decision (epoch_le a b).
Proof. unfold epoch_le. apply _. Defined.

Definition ordered (rows : Rows) : list GatewayKeyRow :=
  map (fun '(e, r) => (e, row_pubkey r, row_state r)) (merge_sort epoch_le (map_to_list rows)).

Definition all_keys_for_gateway (db : Db) (gateway_id : Z) : list GatewayKeyRow :=
  ordered (rows_of db gateway_id).

Definition is_state (s : KeyState) (k : GatewayKeyRow) : bool := bool_decide (snd k = s).

Definition active_keys_for_gateway (db : Db) (gateway_id : Z) : list GatewayKeyRow :=
  List.filter (is_state Active) (all_keys_for_gateway db gateway_id).

Definition in_rotation (rows : Rows) : bool :=
  existsb (fun k => is_state Pending k || is_state Retiring k)%bool (ordered rows).

Definition gateways_with_rotation_state (db : Db) : list Z :=
  merge_sort Z.le (map fst (filter (fun '(_, rows) => in_rotation rows = true) (map_to_list (gateway_key db)))).

Definition active_gateway_ids (db : Db) : list Z :=
  merge_sort Z.le (map fst (filter (fun '(_, s) => s = "active") (map_to_list (gateway_status db)))).

Definition keys_snapshot (db : Db) (gateway_id : Z) : list GatewayKeyRow * Z :=
  (all_keys_for_gateway db gateway_id, revision db).

(** [SELECT MAX(epoch)]. *)
Definition max_epoch (rows : Rows) : option Z :=
  foldr (fun k m => Some (match m with None => k | Some m => Z.max k m end)) None
    (map fst (map_to_list rows)).

Record RotateKeyOutcome : Type := { rk_epoch : Z; rk_pubkey : string }.

Definition show_i64 (n : Z) : string :=
  if n <? 0 then String "-" (show_uint (- n)) else show_uint n.

Definition rotate_key (db : Db) (gateway_id : Z) (actor now : string) :
    result string RotateKeyOutcome * Db :=
  if bool_decide (gateway_status db !! gateway_id = Some "active") then
    let rows := rows_of db gateway_id in
    let new_epoch := match max_epoch rows with Some e => e + 1 | None => 0 end in
    let row := {| row_pubkey := AWAITING_SUBMISSION_SENTINEL; row_state := Pending |} in
    let entry := {| au_ts := now; au_actor := actor; au_action := "key-rotate";
                    au_entity := "gateway/" +:+ show_i64 gateway_id;
                    au_diff := "{" +:+ String (ascii_of_nat 34) "epoch" +:+
                               String (ascii_of_nat 34) ":" +:+ show_i64 new_epoch +:+ "}" |} in
    (Ok {| rk_epoch := new_epoch; rk_pubkey := AWAITING_SUBMISSION_SENTINEL |},
     bump_revision_tx (append_audit (set_rows db gateway_id (<[new_epoch := row]> rows)) entry))
  else
    (Err ("RotateKey: no ACTIVE gateway row with id " +:+ show_i64 gateway_id +:+
          " to rotate a key for"), db).

Inductive CasOutcome : Type := Applied | NoMatch.

Inductive DropPendingOutcome : Type :=
| Dropped
| RowAbsent
| RowSuperseded (state : KeyState).

Definition set_epoch_pubkey (db : Db) (gateway_id epoch : Z) (pubkey : string) : CasOutcome * Db :=
  let rows := rows_of db gateway_id in
  match rows !! epoch with
  | Some {| row_pubkey := p; row_state := Pending |} =>
      if bool_decide (p = AWAITING_SUBMISSION_SENTINEL) then
        (Applied, bump_revision_tx (set_rows db gateway_id
          (<[epoch := {| row_pubkey := pubkey; row_state := Pending |}]> rows)))
      else (NoMatch, db)
  | _ => (NoMatch, db)
  end.

Definition is_real_pending (rows : Rows) (epoch : Z) : bool :=
  match rows !! epoch with
  | Some {| row_pubkey := p; row_state := Pending |} =>
      negb (bool_decide (p = AWAITING_SUBMISSION_SENTINEL))
  | _ => false
  end.

(** [SET state = 'retiring' WHERE state = 'active'] on one row. *)
Definition demote (r : KeyRow) : KeyRow :=
  match row_state r with
  | Active => {| row_pubkey := row_pubkey r; row_state := Retiring |}
  | _ => r
  end.

Definition activate (r : KeyRow) : KeyRow := {| row_pubkey := row_pubkey r; row_state := Active |}.

Definition promote_rows (rows : Rows) (epoch : Z) : Rows := alter activate epoch (demote <$> rows).

Definition promote_epoch (db : Db) (gateway_id epoch : Z) : CasOutcome * Db :=
  let rows := rows_of db gateway_id in
  if is_real_pending rows epoch then
    (Applied, bump_revision_tx (set_rows db gateway_id (promote_rows rows epoch)))
  else (NoMatch, db).

Definition retire_epoch (db : Db) (gateway_id epoch : Z) : CasOutcome * Db :=
  let rows := rows_of db gateway_id in
  match rows !! epoch with
  | Some {| row_state := Retiring |} =>
      (Applied, bump_revision_tx (set_rows db gateway_id (delete epoch rows)))
  | _ => (NoMatch, db)
  end.

Definition drop_pending_epoch (db : Db) (gateway_id epoch : Z) : DropPendingOutcome * Db :=
  let rows := rows_of db gateway_id in
  match rows !! epoch with
  | Some {| row_state := Pending |} =>
      (Dropped, bump_revision_tx (set_rows db gateway_id (delete epoch rows)))
  | Some r => (RowSuperseded (row_state r), db)
  | None => (RowAbsent, db)
  end.

(** ** Lemmas on rows *)

Lemma rows_of_set db g rows g' :
  rows_of (set_rows db g rows) g' = if decide (g = g') then rows else rows_of db g'.
Proof.
  unfold rows_of, set_rows. cbn. destruct (decide (g = g')) as [-> | Hne].
  - by rewrite lookup_insert_eq.
  - by rewrite lookup_insert_ne.
Qed.

Lemma rows_of_bump db g : rows_of (bump_revision_tx db) g = rows_of db g.
Proof. done. Qed.

Lemma rows_of_audit db e g : rows_of (append_audit db e) g = rows_of db g.
Proof. done. Qed.

Create HintDb keys.

#[export] Hint Rewrite rows_of_set rows_of_bump rows_of_audit : keys.

Lemma elem_of_ordered rows e p s :
  (e, p, s) ∈ ordered rows <-> rows !! e = Some {| row_pubkey := p; row_state := s |}.
Proof.
  unfold ordered. rewrite list_elem_of_In, in_map_iff. split.
  - intros ([e' [p' s']] & [= -> -> ->] & Hin). apply list_elem_of_In in Hin.
    rewrite merge_sort_Permutation in Hin. by apply elem_of_map_to_list in Hin.
  - intros Hl. exists (e, {| row_pubkey := p; row_state := s |}). split; [done|].
    apply list_elem_of_In. rewrite merge_sort_Permutation. by apply elem_of_map_to_list.
Qed.

Lemma max_epoch_spec rows :
  match max_epoch rows with
  | Some m => (exists r, rows !! m = Some r) /\ forall e r, rows !! e = Some r -> e <= m
  | None => rows = ∅
  end.
Proof.
  unfold max_epoch.
  assert (forall l : list (Z * KeyRow),
    match foldr (fun k m => Some (match m with None => k | Some m => Z.max k m end)) None (map fst l) with
    | Some m => (exists r, (m, r) ∈ l) /\ forall e r, (e, r) ∈ l -> e <= m
    | None => l = []
    end) as H.
  { induction l as [|[e r] l IH]; [done|]. cbn.
    destruct (foldr _ _ _) as [m|].
    - destruct IH as [[r' Hr'] Hm]. split.
      + destruct (Z.max_spec e m) as [[_ ->] | [_ ->]]; [exists r'; by right|exists r; by left].
      + intros e' r'' [[= -> ->] | Hin]%elem_of_cons; [lia|]. specialize (Hm _ _ Hin). lia.
    - subst l. split; [exists r; by left|].
      intros e' r'' [[= -> ->] | Hin]%elem_of_cons; [lia|]. by apply elem_of_nil in Hin. }
  specialize (H (map_to_list rows)). destruct (foldr _ _ _) as [m|].
  - destruct H as [[r Hr] Hm]. split.
    + exists r. by apply elem_of_map_to_list.
    + intros e r' Hl. apply (Hm e r'). by apply elem_of_map_to_list.
  - by apply map_to_list_empty_iff in H.
Qed.

(** The lookup of a row after a promote. *)
Lemma lookup_promote rows epoch e :
  promote_rows rows epoch !! e =
  if decide (e = epoch) then activate <$> (demote <$> rows !! e) else demote <$> rows !! e.
Proof.
  unfold promote_rows. destruct (decide (e = epoch)) as [-> | Hne].
  - by rewrite lookup_alter_eq, lookup_fmap.
  - by rewrite lookup_alter_ne, lookup_fmap.
Qed.

Lemma is_real_pending_spec rows epoch :
  is_real_pending rows epoch = true <->
  exists p, rows !! epoch = Some {| row_pubkey := p; row_state := Pending |} /\
            p <> AWAITING_SUBMISSION_SENTINEL.
Proof.
  unfold is_real_pending. destruct (rows !! epoch) as [[p []]|].
  - rewrite negb_true_iff, bool_decide_eq_false. split; [eauto|intros (? & [= ->] & ?); done].
  - split; [done|by intros (? & [=] & ?)].
  - split; [done|by intros (? & [=] & ?)].
  - split; [done|by intros (? & [=] & ?)].
Qed.
