(* ===== verification/CtlRotation.v ===== *)
(** * Controller: driving a key rotation

    [crates/wiremesh-controller/src/rotation.rs] (the decision) and the rotation
    driver of [crates/wiremesh-controller/src/services/sync.rs]: the in-memory
    tracker map, [drive_rotation_for] with its two critical sections and the
    unlocked compare-and-swap between them, the sweep, the rotation timer and
    the recording of acks.  A call to SQLite may fail: the environment of a call
    says which ones do, and a failed call leaves the [Db] as it was. *)
From Stdlib Require Import ZArith Lia.
From S2P Require Import Prelude CtlKeys.
Open Scope Z_scope.

(** ** [rotation.rs] *)

Definition GRACE_PROMOTE : Z := secs 90.
Definition RETIRE_GRACE : Z := secs 30.
Definition ABORT_AFTER : Z := secs 300.

Inductive RotationDecision : Type :=
| Wait
| Promote (epoch : Z)
| Retire (epoch : Z)
| FinishedRotation
| Abort_ (epoch : Z) (reason : string).

Record RotationState : Type := {
  rs_pending_epoch : Z;
  pending_has_real_key : bool;
  rs_prior_active_epoch : option Z;
  rs_started_at : Z;
  rs_promoted_at : option Z;
  expected_peers : gset Z;
  rs_live_acks : gset Z }.

Definition rotation_decide (s : RotationState) (now : Z) : RotationDecision :=
  match rs_promoted_at s with
  | Some promoted_at =>
      match rs_prior_active_epoch s with
      | None => FinishedRotation
      | Some prior =>
          if RETIRE_GRACE <=? sat_sub now promoted_at then Retire prior else Wait
      end
  | None =>
      if negb (pending_has_real_key s) then
        if ABORT_AFTER <=? sat_sub now (rs_started_at s)
        then Abort_ (rs_pending_epoch s) "no epoch key submitted before abort deadline"
        else Wait
      else
        let all_acked := (negb (bool_decide (expected_peers s = ∅)) &&
                          bool_decide (expected_peers s ⊆ rs_live_acks s))%bool in
        if all_acked then Promote (rs_pending_epoch s)
        else if GRACE_PROMOTE <=? sat_sub now (rs_started_at s) then Promote (rs_pending_epoch s)
        else Wait
  end.

(** ** Trackers *)

Record RotationTracker : Type := {
  pending_epoch : Z;
  prior_active_epoch : option Z;
  started_at : Z;
  promoted_at : option Z;
  live_acks : gset Z;
  installed_at : Z }.

(** [*epoch as u32]. *)
Definition epoch_u32 (e : Z) : Z := wrap 32 e.

(** [iter().max()]. *)
Definition list_max_opt (l : list Z) : option Z :=
  foldr (fun k m => Some (match m with None => k | Some m => Z.max k m end)) None l.

Definition key_epoch (k : GatewayKeyRow) : Z := fst (fst k).

Definition select_live_pending (keys : list GatewayKeyRow) : option (Z * option Z) :=
  match list_max_opt (map (fun k => epoch_u32 (key_epoch k)) (List.filter (is_state Pending) keys)) with
  | None => None
  | Some pending => Some (pending, (fun k => epoch_u32 (key_epoch k)) <$> List.find (is_state Active) keys)
  end.

Definition evict_decision (tracker_pending tracker_installed_at : Z) (db_pending : option Z)
    (read_at : Z) : bool :=
  match db_pending with
  | None => false
  | Some db_pending =>
      if read_at <? tracker_installed_at then false
      else negb (tracker_pending =? db_pending)
  end.

Record TrackerToken : Type := { tok_pending_epoch : Z; tok_installed_at : Z }.

#[export] Instance TrackerToken_eq_dec : EqDecision TrackerToken.
Proof. solve_decision. Defined.

Definition token_of (t : RotationTracker) : TrackerToken :=
  {| tok_pending_epoch := pending_epoch t; tok_installed_at := installed_at t |}.

Inductive WriteBack : Type := Apply | Replaced | Vanished.

Definition tracker_write_back (taken : TrackerToken) (current : option TrackerToken) : WriteBack :=
  match current with
  | None => Vanished
  | Some cur => if bool_decide (cur = taken) then Apply else Replaced
  end.

Inductive TrackerEffect : Type := Promoted | Finished | FinishedIfUnpromoted.

(** The slot of one gateway before and after the effect. *)
Definition apply_tracker_effect (held : option RotationTracker) (taken : TrackerToken)
    (effect : TrackerEffect) (now : Z) : option RotationTracker :=
  match tracker_write_back taken (token_of <$> held) with
  | Apply =>
      match effect with
      | Promoted =>
          (fun t => {| pending_epoch := pending_epoch t; prior_active_epoch := prior_active_epoch t;
                       started_at := started_at t; promoted_at := Some now;
                       live_acks := live_acks t; installed_at := installed_at t |}) <$> held
      | Finished => None
      | FinishedIfUnpromoted =>
          match held with
          | Some t => if bool_decide (is_Some (promoted_at t)) then held else None
          | None => None
          end
      end
  | Replaced | Vanished => held
  end.

Definition fresh_tracker (pending : Z) (prior : option Z) (now : Z) : RotationTracker :=
  {| pending_epoch := pending; prior_active_epoch := prior; started_at := now;
     promoted_at := None; live_acks := ∅; installed_at := now |}.

(** Evict a tracker of another rotation, then rebuild one if none is held. *)
Definition settle_tracker (held : option RotationTracker) (live : option (Z * option Z))
    (read_at now : Z) : option RotationTracker :=
  let held := match held with
              | Some t => if evict_decision (pending_epoch t) (installed_at t) (fst <$> live) read_at
                          then None else Some t
              | None => None
              end in
  match held, live with
  | Some t, _ => Some t
  | None, Some (pending, prior) => Some (fresh_tracker pending prior now)
  | None, None => None
  end.

(** The decision input built under the guard. *)
Definition rotation_state (gateway_id : Z) (keys : list GatewayKeyRow) (connected : gset Z)
    (t : RotationTracker) : RotationState :=
  {| rs_pending_epoch := pending_epoch t;
     pending_has_real_key :=
       existsb (fun k => (epoch_u32 (key_epoch k) =? pending_epoch t) && is_state Pending k &&
                         negb (bool_decide (snd (fst k) = AWAITING_SUBMISSION_SENTINEL)))%bool keys;
     rs_prior_active_epoch := prior_active_epoch t;
     rs_started_at := started_at t;
     rs_promoted_at := promoted_at t;
     expected_peers := connected ∖ {[ gateway_id ]};
     rs_live_acks := live_acks t |}.

(** Critical section 1: the slot afterwards, and the decision with the token of
    the tracker it was computed from. *)
Definition plan (gateway_id : Z) (keys : list GatewayKeyRow) (connected : gset Z)
    (held : option RotationTracker) (read_at seed_now decide_now : Z) :
    option RotationTracker * option (RotationDecision * TrackerToken) :=
  let held := settle_tracker held (select_live_pending keys) read_at seed_now in
  (held, (fun t => (rotation_decide (rotation_state gateway_id keys connected t) decide_now,
                    token_of t)) <$> held).

(** The unlocked compare-and-swap: the new [Db], the in-memory effect it
    licenses, and whether a delta is published. *)
Definition execute (db : Db) (gateway_id : Z) (d : RotationDecision) (fault : bool) :
    Db * option TrackerEffect * bool :=
  match d with
  | Wait => (db, None, false)
  | FinishedRotation => (db, Some Finished, false)
  | Promote epoch =>
      if fault then (db, None, false) else
      match promote_epoch db gateway_id epoch with
      | (Applied, db') => (db', Some Promoted, true)
      | (NoMatch, db') => (db', None, false)
      end
  | Retire epoch =>
      if fault then (db, None, false) else
      match retire_epoch db gateway_id epoch with
      | (Applied, db') => (db', Some Finished, true)
      | (NoMatch, db') => (db', None, false)
      end
  | Abort_ epoch _ =>
      if fault then (db, None, false) else
      match drop_pending_epoch db gateway_id epoch with
      | (Dropped, db') => (db', Some Finished, true)
      | (RowAbsent, db') => (db', Some FinishedIfUnpromoted, false)
      | (RowSuperseded _, db') => (db', None, false)
      end
  end.

(** [ChangeEvent::KeyRotated]: the gateway with its keys and the revision they
    were read at. *)
Record KeyRotated : Type := {
  kr_gateway_id : Z; kr_keys : list GatewayKeyRow; kr_revision : Z }.

Definition emit_key_rotated (db : Db) (gateway_id : Z) (fault : bool) : list KeyRotated :=
  if fault then [] else
  let '(keys, rev) := keys_snapshot db gateway_id in
  [{| kr_gateway_id := gateway_id; kr_keys := keys; kr_revision := rev |}].

(** What the driver shares: the database, the tracker map and the deltas sent. *)
Record World : Type := {
  w_db : Db;
  rotations : gmap Z RotationTracker;
  w_events : list KeyRotated }.

Definition set_slot (m : gmap Z RotationTracker) (g : Z) (o : option RotationTracker) :
    gmap Z RotationTracker :=
  match o with Some t => <[g := t]> m | None => delete g m end.

(** The instants a call reads, the SQLite calls that fail and the peers the
    broker has connected. *)
Record DriveEnv : Type := {
  read_at : Z; seed_now : Z; decide_now : Z; write_now : Z;
  read_fault : bool; cas_fault : bool; emit_fault : bool;
  connected : gset Z }.

Definition drive_rotation_for (w : World) (gateway_id : Z) (env : DriveEnv) : World :=
  if read_fault env then w else
  let keys := all_keys_for_gateway (w_db w) gateway_id in
  let '(held, todo) := plan gateway_id keys (connected env) (rotations w !! gateway_id)
                         (read_at env) (seed_now env) (decide_now env) in
  let slots := set_slot (rotations w) gateway_id held in
  match todo with
  | None => {| w_db := w_db w; rotations := slots; w_events := w_events w |}
  | Some (d, taken) =>
      let '(db', eff, emits) := execute (w_db w) gateway_id d (cas_fault env) in
      let slots' := match eff with
                    | Some e => set_slot slots gateway_id
                                  (apply_tracker_effect (slots !! gateway_id) taken e (write_now env))
                    | None => slots
                    end in
      {| w_db := db'; rotations := slots';
         w_events := w_events w ++
           if emits : bool then emit_key_rotated db' gateway_id (emit_fault env) else [] |}
  end.

(** ** The sweep *)

Record SweepEnv : Type := {
  sw_read_at : Z; sw_seed_now : Z; sw_read_fault : bool;
  sw_drive : DriveEnv;
  sw_reread_fault : bool;
  sw_orphan_fault : Z -> bool; sw_emit_fault : Z -> bool }.

(** Step 2: a pending row has a tracker of its own rotation. *)
Definition sweep_seed (w : World) (gateway_id : Z) (env : SweepEnv) : World :=
  match select_live_pending (all_keys_for_gateway (w_db w) gateway_id) with
  | None => w
  | Some live =>
      {| w_db := w_db w;
         rotations := set_slot (rotations w) gateway_id
           (settle_tracker (rotations w !! gateway_id) (Some live) (sw_read_at env) (sw_seed_now env));
         w_events := w_events w |}
  end.

Definition retiring_epochs (keys : list GatewayKeyRow) : list Z :=
  map (fun k => epoch_u32 (key_epoch k)) (List.filter (is_state Retiring) keys).

Definition orphan_retire (gateway_id : Z) (env : SweepEnv) (w : World) (epoch : Z) : World :=
  if sw_orphan_fault env epoch then w else
  match retire_epoch (w_db w) gateway_id epoch with
  | (Applied, db') =>
      {| w_db := db'; rotations := rotations w;
         w_events := w_events w ++ emit_key_rotated db' gateway_id (sw_emit_fault env epoch) |}
  | (NoMatch, db') => {| w_db := db'; rotations := rotations w; w_events := w_events w |}
  end.

(** Step 3: retiring rows nobody tracks. *)
Definition sweep_orphans (w : World) (gateway_id : Z) (env : SweepEnv) : World :=
  if sw_reread_fault env then w else
  match rotations w !! gateway_id with
  | Some _ => w
  | None => foldl (orphan_retire gateway_id env) w
              (retiring_epochs (all_keys_for_gateway (w_db w) gateway_id))
  end.

Definition sweep_gateway (w : World) (gateway_id : Z) (env : SweepEnv) : World :=
  if sw_read_fault env then w else
  let w := sweep_seed w gateway_id env in
  let w := drive_rotation_for w gateway_id (sw_drive env) in
  sweep_orphans w gateway_id env.

Definition sweep_rotations (w : World) (ids_fault : bool) (env : Z -> SweepEnv) : World :=
  if ids_fault then w else
  foldl (fun w g => sweep_gateway w g (env g)) w (gateways_with_rotation_state (w_db w)).

(** ** Starting rotations and recording acks *)

Definition initiate_one (mid_rotation : list Z) (now : string) (faults : Z -> bool) (w : World)
    (gateway_id : Z) : World :=
  if bool_decide (gateway_id ∈ mid_rotation) then w
  else if faults gateway_id then w
  else match rotate_key (w_db w) gateway_id "rotation-timer" now with
       | (Ok _, db') =>
           {| w_db := db'; rotations := rotations w;
              w_events := w_events w ++ emit_key_rotated db' gateway_id false |}
       | (Err _, db') => {| w_db := db'; rotations := rotations w; w_events := w_events w |}
       end.

Definition initiate_due_rotations (w : World) (now : string) (faults : Z -> bool) : World :=
  foldl (initiate_one (gateways_with_rotation_state (w_db w)) now faults) w
    (active_gateway_ids (w_db w)).

Record EpochAck : Type := { peer_gateway_id : Z; ack_epoch : Z; live : bool }.

Definition touched_gateways (acks : list EpochAck) : list Z :=
  foldl (fun l a => if bool_decide (peer_gateway_id a ∈ l) then l else l ++ [peer_gateway_id a]) [] acks.

Definition record_ack (reporting : Z) (m : gmap Z RotationTracker) (a : EpochAck) :
    gmap Z RotationTracker :=
  match m !! peer_gateway_id a with
  | Some t =>
      if (ack_epoch a =? pending_epoch t) && live a then
        <[peer_gateway_id a :=
            {| pending_epoch := pending_epoch t; prior_active_epoch := prior_active_epoch t;
               started_at := started_at t; promoted_at := promoted_at t;
               live_acks := {[ reporting ]} ∪ live_acks t; installed_at := installed_at t |}]> m
      else m
  | None => m
  end.

Definition seed_slot (seed : Z -> option (Z * option Z)) (now : Z) (m : gmap Z RotationTracker)
    (g : Z) : gmap Z RotationTracker :=
  match m !! g, seed g with
  | None, Some (pending, prior) => <[g := fresh_tracker pending prior now]> m
  | _, _ => m
  end.

Definition seed_and_record_epoch_acks (w : World) (reporting : Z) (acks : list EpochAck)
    (read_faults : Z -> bool) (now : Z) : World * list Z :=
  let touched := touched_gateways acks in
  let seed g := if read_faults g then None
                else select_live_pending (all_keys_for_gateway (w_db w) g) in
  let m := foldl (seed_slot seed now) (rotations w) touched in
  ({| w_db := w_db w; rotations := foldl (record_ack reporting) m acks; w_events := w_events w |},
   touched).
