(* ===== verification/CtlLifecycle.v ===== *)
(** * Controller: the key lifecycle and its refinement by the driver

    The abstract life of one gateway's keys: its rows together with the tracker
    the controller holds for it.  [lstep] lists everything that may happen to
    them and when; every action of the controller (CtlRotation) refines it, one
    action at a time.  The promises to the data plane are proved on [lstep]. *)
From Stdlib Require Import ZArith Lia.
From S2P Require Import Prelude CtlKeys CtlRotation.
Open Scope Z_scope.

(** ** The abstract lifecycle *)

Abbreviation View := (gmap Z KeyRow * option RotationTracker)%type.

Definition view (w : World) (g : Z) : View := (rows_of (w_db w) g, rotations w !! g).

Definition stamp_promoted (t : RotationTracker) (now : Z) : RotationTracker :=
  {| pending_epoch := pending_epoch t; prior_active_epoch := prior_active_epoch t;
     started_at := started_at t; promoted_at := Some now; live_acks := live_acks t;
     installed_at := installed_at t |}.

Definition with_acks (t : RotationTracker) (acks : gset Z) : RotationTracker :=
  {| pending_epoch := pending_epoch t; prior_active_epoch := prior_active_epoch t;
     started_at := started_at t; promoted_at := promoted_at t; live_acks := acks;
     installed_at := installed_at t |}.

Definition sentinel_row : KeyRow :=
  {| row_pubkey := AWAITING_SUBMISSION_SENTINEL; row_state := Pending |}.

(** Why a promote may happen: every connected peer acked, or 90 s passed. *)
Definition promote_due (t : RotationTracker) (now : Z) : Prop :=
  (exists peers : gset Z, peers <> ∅ /\ peers ⊆ live_acks t) \/ started_at t + GRACE_PROMOTE <= now.

Inductive lstep : Z -> View -> Z -> View -> Prop :=
| L_idle now now' v : now <= now' -> lstep now v now' v
| L_rotate now rows s e :
    rows !! e = None -> lstep now (rows, s) now (<[e := sentinel_row]> rows, s)
| L_submit now rows s e p :
    rows !! e = Some sentinel_row ->
    lstep now (rows, s) now (<[e := {| row_pubkey := p; row_state := Pending |}]> rows, s)
| L_ack now rows t acks : lstep now (rows, Some t) now (rows, Some (with_acks t acks))
| L_seed now rows s e prior :
    select_live_pending (ordered rows) = Some (e, prior) ->
    (forall t, s = Some t -> pending_epoch t <> e) ->
    lstep now (rows, s) now (rows, Some (fresh_tracker e prior now))
| L_promote now rows t :
    promoted_at t = None -> is_real_pending rows (pending_epoch t) = true -> promote_due t now ->
    lstep now (rows, Some t) now (promote_rows rows (pending_epoch t), Some (stamp_promoted t now))
| L_retire now rows t s e p :
    promoted_at t = Some s -> prior_active_epoch t = Some e -> s + RETIRE_GRACE <= now ->
    rows !! e = Some {| row_pubkey := p; row_state := Retiring |} ->
    lstep now (rows, Some t) now (delete e rows, None)
| L_drop now rows t :
    promoted_at t = None -> started_at t + ABORT_AFTER <= now ->
    rows !! pending_epoch t = Some sentinel_row ->
    lstep now (rows, Some t) now (delete (pending_epoch t) rows, None)
| L_over now rows t :
    promoted_at t = None -> started_at t + ABORT_AFTER <= now -> rows !! pending_epoch t = None ->
    lstep now (rows, Some t) now (rows, None)
| L_finish now rows t s :
    promoted_at t = Some s -> prior_active_epoch t = None ->
    lstep now (rows, Some t) now (rows, None)
| L_orphan now rows e p :
    rows !! e = Some {| row_pubkey := p; row_state := Retiring |} ->
    lstep now (rows, None) now (delete e rows, None).

Inductive lsteps : Z -> View -> Z -> View -> Prop :=
| Ls_refl now v : lsteps now v now v
| Ls_step now v now1 v1 now2 v2 :
    lstep now v now1 v1 -> lsteps now1 v1 now2 v2 -> lsteps now v now2 v2.

Lemma lsteps_trans now v now1 v1 now2 v2 :
  lsteps now v now1 v1 -> lsteps now1 v1 now2 v2 -> lsteps now v now2 v2.
Proof. induction 1; [done|]. intros. eapply Ls_step; eauto. Qed.

Lemma lsteps_one now v now1 v1 : lstep now v now1 v1 -> lsteps now v now1 v1.
Proof. intros. eapply Ls_step; [done|]. constructor. Qed.

Lemma lsteps_idle now now' v : now <= now' -> lsteps now v now' v.
Proof. intros. by apply lsteps_one, L_idle. Qed.

Lemma lstep_time now v now' v' : lstep now v now' v' -> now <= now'.
Proof. by destruct 1; try lia. Qed.

Lemma lsteps_time now v now' v' : lsteps now v now' v' -> now <= now'.
Proof. induction 1; [lia|]. apply lstep_time in H. lia. Qed.

(** ** The controller's actions *)

Inductive Act : Type :=
| ADrive (gateway : Z) (env : DriveEnv)
| ASweep (gateway : Z) (env : SweepEnv)
| ARotate (now gateway : Z) (actor text : string)
| AInitiate (now : Z) (text : string) (faults : Z -> bool)
| ASubmit (now gateway epoch : Z) (pubkey : string)
| AAcks (now reporting : Z) (acks : list EpochAck) (faults : Z -> bool).

Definition set_db (w : World) (db : Db) : World :=
  {| w_db := db; rotations := rotations w; w_events := w_events w |}.

Definition act (w : World) (a : Act) : World :=
  match a with
  | ADrive g env => drive_rotation_for w g env
  | ASweep g env => sweep_gateway w g env
  | ARotate _ g actor text => set_db w (snd (rotate_key (w_db w) g actor text))
  | AInitiate _ text faults => initiate_due_rotations w text faults
  | ASubmit _ g e p => set_db w (snd (set_epoch_pubkey (w_db w) g e p))
  | AAcks now r acks faults => fst (seed_and_record_epoch_acks w r acks faults now)
  end.

Definition acts (w : World) (l : list Act) : World := foldl act w l.

Definition env_ok (now : Z) (env : DriveEnv) : Prop :=
  now <= read_at env <= seed_now env /\ seed_now env <= decide_now env <= write_now env.

Definition act_start (a : Act) : Z :=
  match a with
  | ADrive _ env => read_at env
  | ASweep _ env => sw_read_at env
  | ARotate now _ _ _ | AInitiate now _ _ | ASubmit now _ _ _ | AAcks now _ _ _ => now
  end.

Definition act_end (a : Act) : Z :=
  match a with
  | ADrive _ env => write_now env
  | ASweep _ env => write_now (sw_drive env)
  | ARotate now _ _ _ | AInitiate now _ _ | ASubmit now _ _ _ | AAcks now _ _ _ => now
  end.

Definition act_ok (a : Act) : Prop :=
  match a with
  | ADrive _ env => env_ok (read_at env) env
  | ASweep _ env => sw_read_at env <= sw_seed_now env /\ env_ok (sw_seed_now env) (sw_drive env)
  | _ => True
  end.

(** Instants never go back, inside an action and between actions. *)
Fixpoint timely (now : Z) (l : list Act) : Prop :=
  match l with
  | [] => True
  | a :: l' => now <= act_start a /\ act_ok a /\ timely (act_end a) l'
  end.

Definition clock_after (now : Z) (l : list Act) : Z := foldl (fun _ a => act_end a) now l.

(** Epochs are [u32] on the wire and in the driver. *)
Definition epochs_fit (rows : gmap Z KeyRow) : Prop :=
  forall e, is_Some (rows !! e) -> 0 <= e < 2 ^ 32.

Lemma epoch_u32_fit rows e : epochs_fit rows -> is_Some (rows !! e) -> epoch_u32 e = e.
Proof. intros Hf Hs. unfold epoch_u32, wrap. apply Z.mod_small. by apply Hf. Qed.

(** ** Refinement: the driver *)

Lemma settle_lsteps now rows s read :
  lsteps now (rows, s) now (rows, settle_tracker s (select_live_pending (ordered rows)) read now).
Proof.
  unfold settle_tracker. destruct (select_live_pending (ordered rows)) as [[e prior]|] eqn:Hl; cbn.
  - destruct s as [t|]; [destruct (Z.ltb_spec read (installed_at t)); [constructor|]|].
    + destruct (Z.eqb_spec (pending_epoch t) e); cbn; [constructor|].
      by apply lsteps_one, L_seed; [|intros ? [= <-]].
    + by apply lsteps_one, L_seed.
  - destruct s; constructor.
Qed.

Lemma existsb_ordered rows (p : GatewayKeyRow -> bool) :
  existsb p (ordered rows) = true <->
  exists e r, rows !! e = Some r /\ p (e, row_pubkey r, row_state r) = true.
Proof.
  rewrite existsb_exists. split.
  - intros ([[e k] s] & Hin & Hp). apply list_elem_of_In, elem_of_ordered in Hin. by eauto.
  - intros (e & [k s] & Hl & Hp). eexists. split; [|exact Hp].
    by apply list_elem_of_In, elem_of_ordered.
Qed.

Lemma real_key_iff g rows conn t :
  epochs_fit rows ->
  pending_has_real_key (rotation_state g (ordered rows) conn t) = is_real_pending rows (pending_epoch t).
Proof.
  intros Hf. apply eq_bool_prop_intro. rewrite !Is_true_true. cbn.
  rewrite existsb_ordered, is_real_pending_spec. split.
  - intros (e & [k s] & Hl & Hp). cbn in Hp. unfold is_state in Hp. cbn in Hp.
    unfold key_epoch in Hp. cbn in Hp. rewrite (epoch_u32_fit rows) in Hp by eauto.
    apply andb_true_iff in Hp as [[He Hs]%andb_true_iff Hk].
    apply Z.eqb_eq in He as <-. apply bool_decide_eq_true in Hs as ->.
    apply negb_true_iff, bool_decide_eq_false in Hk. eauto.
  - intros (k & Hl & Hk). exists (pending_epoch t), {| row_pubkey := k; row_state := Pending |}.
    split; [done|]. unfold is_state, key_epoch. cbn. rewrite (epoch_u32_fit rows) by eauto.
    rewrite Z.eqb_refl, (bool_decide_eq_true_2 (Pending = Pending)), bool_decide_eq_false_2 by done. done.
Qed.

Lemma write_back_same t : tracker_write_back (token_of t) (Some (token_of t)) = Apply.
Proof. unfold tracker_write_back. by rewrite bool_decide_eq_true_2. Qed.

Definition slot_after (t : RotationTracker) (eff : option TrackerEffect) (now : Z) : option RotationTracker :=
  match eff with
  | Some e => apply_tracker_effect (Some t) (token_of t) e now
  | None => Some t
  end.

Lemma apply_effect_same t eff now :
  apply_tracker_effect (Some t) (token_of t) eff now =
  match eff with
  | Promoted => Some (stamp_promoted t now)
  | Finished => None
  | FinishedIfUnpromoted => match promoted_at t with Some _ => Some t | None => None end
  end.
Proof.
  unfold apply_tracker_effect. cbn [fmap option_fmap option_map]. rewrite write_back_same.
  by destruct eff, (promoted_at t).
Qed.

Lemma sat_sub_ge k now s : 0 < k -> (k <=? sat_sub now s) = true -> s + k <= now.
Proof. unfold sat_sub. rewrite Z.leb_le. lia. Qed.

Ltac rot_consts := unfold ABORT_AFTER, GRACE_PROMOTE, RETIRE_GRACE, secs, NANOS_PER_SEC in *.

(** What the decision says about the tracker it was computed from. *)
Lemma decide_sound g rows conn t dn :
  epochs_fit rows ->
  match rotation_decide (rotation_state g (ordered rows) conn t) dn with
  | Wait => True
  | Promote e => e = pending_epoch t /\ promoted_at t = None /\
      is_real_pending rows e = true /\ promote_due t dn
  | Retire e => prior_active_epoch t = Some e /\
      exists s, promoted_at t = Some s /\ s + RETIRE_GRACE <= dn
  | FinishedRotation => prior_active_epoch t = None /\ exists s, promoted_at t = Some s
  | Abort_ e _ => e = pending_epoch t /\ promoted_at t = None /\
      is_real_pending rows e = false /\ started_at t + ABORT_AFTER <= dn
  end.
Proof.
  intros Hf. pose proof (real_key_iff g rows conn t Hf) as Hr. unfold rotation_decide.
  cbn [rotation_state rs_promoted_at rs_prior_active_epoch rs_pending_epoch rs_started_at expected_peers
       rs_live_acks].
  destruct (promoted_at t) as [s|].
  - destruct (prior_active_epoch t) as [e|]; [|eauto].
    destruct (_ <=? _) eqn:Hle; [|done]. split; [done|]. exists s. split; [done|].
    apply sat_sub_ge in Hle; [done|]. by rot_consts.
  - rewrite Hr. destruct (is_real_pending rows (pending_epoch t)) eqn:Hp; cbn [negb].
    + destruct (_ && _)%bool eqn:Ha; [|destruct (_ <=? _) eqn:Hle; [|done]]; split_and!; try done.
      * left. exists (conn ∖ {[g]}). apply andb_true_iff in Ha as [H1 H2].
        by apply negb_true_iff, bool_decide_eq_false in H1; apply bool_decide_eq_true in H2.
      * right. apply sat_sub_ge in Hle; [done|]. by rot_consts.
    + destruct (_ <=? _) eqn:Hle; [|done]. split_and!; try done.
      apply sat_sub_ge in Hle; [done|]. by rot_consts.
Qed.

Lemma promote_due_later t now now' : promote_due t now -> now <= now' -> promote_due t now'.
Proof. intros [H|H] Hle; [by left|right; lia]. Qed.

(** The row operations, seen from one gateway. *)
Lemma rows_of_commit db g rows g' :
  rows_of (bump_revision_tx (set_rows db g rows)) g' = if decide (g = g') then rows else rows_of db g'.
Proof. by rewrite rows_of_bump, rows_of_set. Qed.

Lemma rows_of_commit_eq db g rows : rows_of (bump_revision_tx (set_rows db g rows)) g = rows.
Proof. rewrite rows_of_commit. by rewrite decide_True. Qed.

Lemma execute_other db g d fault g' :
  g <> g' -> rows_of (fst (fst (execute db g d fault))) g' = rows_of db g'.
Proof.
  intros Hne. destruct d; cbn; try done; destruct fault; try done.
  - unfold promote_epoch. destruct (is_real_pending _ _); cbn; [|done].
    rewrite rows_of_commit. by rewrite decide_False.
  - unfold retire_epoch. destruct (_ !! _) as [[? []]|]; cbn; try done.
    rewrite rows_of_commit. by rewrite decide_False.
  - unfold drop_pending_epoch. destruct (_ !! _) as [[? []]|]; cbn; try done.
    rewrite rows_of_commit. by rewrite decide_False.
Qed.

Lemma execute_lsteps db g conn t dn wn fault :
  epochs_fit (rows_of db g) -> dn <= wn ->
  let d := rotation_decide (rotation_state g (all_keys_for_gateway db g) conn t) dn in
  let '(db', eff, _) := execute db g d fault in
  lsteps dn (rows_of db g, Some t) wn (rows_of db' g, slot_after t eff wn).
Proof.
  intros Hf Hle d. pose proof (decide_sound g (rows_of db g) conn t dn Hf) as Hd.
  change (rotation_decide _ dn) with d in Hd. clearbody d.
  assert (Hidle : forall v, lsteps dn v wn v) by (intros; by apply lsteps_idle).
  destruct d as [|e|e| |e why]; cbn [execute]; [apply Hidle| | | |].
  - destruct Hd as (-> & Hp & Hr & Hdue). destruct fault; [apply Hidle|].
    unfold promote_epoch. rewrite Hr. cbn [slot_after]. rewrite apply_effect_same, rows_of_commit_eq.
    eapply lsteps_trans; [by apply lsteps_idle|]. apply lsteps_one, L_promote; [done..|].
    by eapply promote_due_later.
  - destruct Hd as (Hprior & s & Hs & Hge). destruct fault; [apply Hidle|]. unfold retire_epoch.
    destruct (rows_of db g !! e) as [[p []]|] eqn:Hrow; try apply Hidle.
    cbn [slot_after]. rewrite apply_effect_same, rows_of_commit_eq.
    eapply lsteps_trans; [by eapply lsteps_one, L_retire|]. by apply lsteps_idle.
  - destruct Hd as (Hprior & s & Hs). cbn [slot_after]. rewrite apply_effect_same.
    eapply lsteps_trans; [by eapply lsteps_one, L_finish|]. by apply lsteps_idle.
  - destruct Hd as (-> & Hp & Hr & Hge). destruct fault; [apply Hidle|]. unfold drop_pending_epoch.
    unfold is_real_pending in Hr.
    destruct (rows_of db g !! pending_epoch t) as [[p []]|] eqn:Hrow; try apply Hidle.
    + apply negb_false_iff, bool_decide_eq_true in Hr as ->.
      cbn [slot_after]. rewrite apply_effect_same, rows_of_commit_eq.
      eapply lsteps_trans; [by apply lsteps_one, L_drop|]. by apply lsteps_idle.
    + cbn [slot_after]. rewrite apply_effect_same, Hp.
      eapply lsteps_trans; [by apply lsteps_one, L_over|]. by apply lsteps_idle.
Qed.

Lemma set_slot_lookup m g o g' : set_slot m g o !! g' = if decide (g = g') then o else m !! g'.
Proof.
  unfold set_slot. destruct (decide (g = g')) as [-> | Hne], o.
  - by rewrite lookup_insert_eq.
  - by rewrite lookup_delete_eq.
  - by rewrite lookup_insert_ne.
  - by rewrite lookup_delete_ne.
Qed.

Lemma drive_other w g env g' : g <> g' -> view (drive_rotation_for w g env) g' = view w g'.
Proof.
  intros Hne. unfold drive_rotation_for, plan. destruct (read_fault env); [done|].
  destruct (settle_tracker _ _ _ _) as [t|]; cbn [fmap option_fmap option_map].
  - pose proof (execute_other (w_db w) g
      (rotation_decide (rotation_state g (all_keys_for_gateway (w_db w) g) (connected env) t) (decide_now env))
      (cas_fault env) g' Hne) as He.
    destruct (execute _ _ _ _) as [[db' [eff|]] em]; cbn in He |- *; unfold view; cbn; rewrite He;
      rewrite ?set_slot_lookup, ?decide_False, ?lookup_insert_ne by done; done.
  - unfold view. cbn. by rewrite lookup_delete_ne.
Qed.

Lemma drive_lsteps w g env now :
  now <= read_at env -> env_ok (read_at env) env -> epochs_fit (rows_of (w_db w) g) ->
  lsteps now (view w g) (write_now env) (view (drive_rotation_for w g env) g).
Proof.
  intros Hn [Ho1 Ho2] Hf. unfold drive_rotation_for, plan.
  destruct (read_fault env); [apply lsteps_idle; lia|].
  pose proof (settle_lsteps (seed_now env) (rows_of (w_db w) g) (rotations w !! g) (read_at env)) as Hs.
  change (ordered (rows_of (w_db w) g)) with (all_keys_for_gateway (w_db w) g) in Hs.
  unfold view at 1. eapply lsteps_trans; [apply (lsteps_idle _ (seed_now env)); lia|].
  eapply lsteps_trans; [exact Hs|].
  destruct (settle_tracker _ _ _ _) as [t|]; cbn [fmap option_fmap option_map].
  - eapply lsteps_trans; [apply (lsteps_idle _ (decide_now env)); lia|].
    pose proof (execute_lsteps (w_db w) g (connected env) t (decide_now env) (write_now env)
                  (cas_fault env) Hf ltac:(lia)) as He. cbv zeta in He.
    destruct (execute _ _ _ _) as [[db' [eff|]] em]; unfold view; cbn in He |- *;
      rewrite ?set_slot_lookup, ?decide_True, ?lookup_insert_eq by done; exact He.
  - unfold view. cbn. rewrite lookup_delete_eq. apply lsteps_idle. lia.
Qed.

(** ** Refinement: sweep, timer, submissions and acks *)

Lemma foldl_lsteps {S A : Type} (v : S -> View) (f : S -> A -> S) now l : forall s,
  (forall s a, lsteps now (v s) now (v (f s a))) -> lsteps now (v s) now (v (foldl f s l)).
Proof.
  induction l as [|a l IH]; intros s Hf; cbn; [constructor|].
  eapply lsteps_trans; [apply Hf|]. by apply IH.
Qed.

Lemma sweep_seed_lsteps w g g' env now :
  now <= sw_read_at env <= sw_seed_now env ->
  lsteps now (view w g) (sw_seed_now env) (view (sweep_seed w g' env) g).
Proof.
  intros Hn. unfold sweep_seed.
  assert (lsteps now (view w g) (sw_seed_now env) (view w g)) as Hidle by (apply lsteps_idle; lia).
  destruct (select_live_pending (all_keys_for_gateway (w_db w) g')) as [l|] eqn:Hl; [|done].
  eapply lsteps_trans; [exact Hidle|]. unfold view. cbn. rewrite set_slot_lookup.
  destruct (decide (g' = g)) as [-> | Hne]; [|constructor]. rewrite <- Hl. apply settle_lsteps.
Qed.

Lemma retire_epoch_rows db g e :
  rows_of (snd (retire_epoch db g e)) g =
  match rows_of db g !! e with
  | Some {| row_state := Retiring |} => delete e (rows_of db g)
  | _ => rows_of db g
  end.
Proof.
  unfold retire_epoch. destruct (rows_of db g !! e) as [[p []]|]; try done.
  apply rows_of_commit_eq.
Qed.

Lemma retire_epoch_other db g e g' : g <> g' -> rows_of (snd (retire_epoch db g e)) g' = rows_of db g'.
Proof. intros Hne. apply (execute_other db g (Retire e) false g') in Hne. rewrite <- Hne. cbn.
  by destruct (retire_epoch db g e) as [[] db']. Qed.

Lemma orphan_view g env w e g' :
  view (orphan_retire g env w e) g' =
  (if sw_orphan_fault env e then rows_of (w_db w) g' else rows_of (snd (retire_epoch (w_db w) g e)) g',
   rotations w !! g').
Proof.
  unfold orphan_retire, view. destruct (sw_orphan_fault env e); [done|].
  by destruct (retire_epoch (w_db w) g e) as [[] db'].
Qed.

Lemma orphans_lsteps w g env now :
  lsteps now (view w g) now (view (sweep_orphans w g env) g).
Proof.
  unfold sweep_orphans. destruct (sw_reread_fault env); [constructor|].
  destruct (rotations w !! g) eqn:Hslot; [constructor|].
  generalize (retiring_epochs (all_keys_for_gateway (w_db w) g)) as l.
  intros l. revert w Hslot. induction l as [|e l IH]; intros w Hslot; cbn; [constructor|].
  pose proof (orphan_view g env w e g) as Hv.
  eapply lsteps_trans; [|apply IH; by injection Hv as _ ->].
  rewrite Hv. unfold view. rewrite Hslot. destruct (sw_orphan_fault env e); [constructor|].
  rewrite retire_epoch_rows. destruct (rows_of (w_db w) g !! e) as [[p []]|] eqn:Hr; try constructor.
  by eapply lsteps_one, L_orphan.
Qed.

Lemma sweep_orphans_other w g env g' : g <> g' -> view (sweep_orphans w g env) g' = view w g'.
Proof.
  intros Hne. unfold sweep_orphans. destruct (sw_reread_fault env); [done|].
  destruct (rotations w !! g); [done|].
  generalize (retiring_epochs (all_keys_for_gateway (w_db w) g)) as l.
  intros l. revert w. induction l as [|e l IH]; intros w; cbn; [done|].
  rewrite IH, orphan_view. destruct (sw_orphan_fault env e); [done|]. by rewrite retire_epoch_other.
Qed.

Lemma sweep_seed_rows w g env g' : rows_of (w_db (sweep_seed w g env)) g' = rows_of (w_db w) g'.
Proof. unfold sweep_seed. by destruct (select_live_pending _). Qed.

Lemma sweep_lsteps w g g' env now :
  now <= sw_read_at env -> act_ok (ASweep g' env) -> epochs_fit (rows_of (w_db w) g) ->
  lsteps now (view w g) (write_now (sw_drive env)) (view (sweep_gateway w g' env) g).
Proof.
  intros Hn [Ho1 [Ho2 Ho3]] Hf. cbn in Ho1. unfold sweep_gateway.
  destruct (sw_read_fault env); [apply lsteps_idle; lia|].
  eapply lsteps_trans; [apply (sweep_seed_lsteps w g g' env now); lia|].
  destruct (decide (g' = g)) as [-> | Hne].
  - eapply lsteps_trans; [apply (drive_lsteps (sweep_seed w g env) g (sw_drive env)); [lia|split; lia|by rewrite sweep_seed_rows]|].
    apply orphans_lsteps.
  - rewrite sweep_orphans_other, drive_other by done. apply lsteps_idle. lia.
Qed.

Lemma rotate_lsteps w db g g' actor text now :
  rows_of db g = rows_of (w_db w) g ->
  lsteps now (view w g) now (rows_of (snd (rotate_key db g' actor text)) g, rotations w !! g).
Proof.
  intros Hr. unfold rotate_key. destruct (bool_decide _); cbn; [|rewrite Hr; constructor].
  rewrite rows_of_bump, rows_of_audit, rows_of_set.
  destruct (decide (g' = g)) as [-> | Hne]; [|rewrite Hr; constructor].
  rewrite Hr. apply lsteps_one, L_rotate.
  pose proof (max_epoch_spec (rows_of (w_db w) g)) as Hm. destruct (max_epoch _) as [m|].
  - destruct Hm as [_ Hm]. destruct (_ !! (m + 1)) as [r|] eqn:Hl; [|done].
    specialize (Hm _ _ Hl). lia.
  - by rewrite Hm.
Qed.

Lemma initiate_lsteps w text faults g now :
  lsteps now (view w g) now (view (initiate_due_rotations w text faults) g).
Proof.
  unfold initiate_due_rotations.
  apply (foldl_lsteps (fun w => view w g)). intros w' g'. unfold initiate_one.
  destruct (bool_decide _); [constructor|]. destruct (faults g'); [constructor|].
  pose proof (rotate_lsteps w' (w_db w') g g' "rotation-timer" text now eq_refl) as Hl.
  by destruct (rotate_key _ _ _ _) as [[|] db'].
Qed.

Lemma submit_lsteps w g g' e p now :
  lsteps now (view w g) now (view (set_db w (snd (set_epoch_pubkey (w_db w) g' e p))) g).
Proof.
  unfold view, set_db, set_epoch_pubkey. cbn.
  destruct (rows_of (w_db w) g' !! e) as [[k []]|] eqn:Hr; try constructor.
  destruct (bool_decide (k = _)) eqn:Hk; [|constructor]. apply bool_decide_eq_true in Hk as ->.
  cbn [snd]. rewrite rows_of_commit. destruct (decide (g' = g)) as [-> | Hne]; [|constructor].
  by apply lsteps_one, L_submit.
Qed.

Lemma acks_lsteps w r acks faults g now :
  lsteps now (view w g) now (view (fst (seed_and_record_epoch_acks w r acks faults now)) g).
Proof.
  unfold seed_and_record_epoch_acks, view. cbn.
  set (seed := fun g : Z => _). set (rows := rows_of (w_db w) g).
  eapply lsteps_trans.
  - apply (foldl_lsteps (fun m : gmap Z RotationTracker => (rows, m !! g)) (seed_slot seed now)).
    intros m g'. unfold seed_slot. destruct (m !! g') eqn:Hm; [constructor|].
    destruct (seed g') as [[e prior]|] eqn:Hs; [|constructor].
    destruct (decide (g' = g)) as [-> | Hne]; [|rewrite lookup_insert_ne by done; constructor].
    rewrite lookup_insert_eq, Hm. apply lsteps_one, L_seed; [|done].
    unfold seed in Hs. by destruct (faults g).
  - apply (foldl_lsteps (fun m : gmap Z RotationTracker => (rows, m !! g)) (record_ack r)).
    intros m a. unfold record_ack. destruct (m !! peer_gateway_id a) as [t|] eqn:Hm; [|constructor].
    destruct (_ && _)%bool; [|constructor].
    destruct (decide (peer_gateway_id a = g)) as [<- | Hne].
    + rewrite lookup_insert_eq, Hm. apply lsteps_one, L_ack.
    + rewrite lookup_insert_ne by done. constructor.
Qed.

(** Every action of the controller is, for every gateway, a sequence of
    lifecycle steps within the action's time span. *)
Lemma act_lsteps w a g now :
  now <= act_start a -> act_ok a -> epochs_fit (rows_of (w_db w) g) ->
  lsteps now (view w g) (act_end a) (view (act w a) g).
Proof.
  intros Hn Hok Hf. destruct a as [g' env|g' env|t g' actor text|t text faults|t g' e p|t r acks faults];
    cbn [act act_end act_start] in *.
  - destruct (decide (g' = g)) as [-> | Hne]; [by apply drive_lsteps|].
    rewrite drive_other by done. apply lsteps_idle. destruct Hok. lia.
  - by apply sweep_lsteps.
  - eapply lsteps_trans; [by apply (lsteps_idle now t)|]. exact (rotate_lsteps w (w_db w) g g' actor text t eq_refl).
  - eapply lsteps_trans; [by apply (lsteps_idle now t)|]. apply initiate_lsteps.
  - eapply lsteps_trans; [by apply (lsteps_idle now t)|]. apply submit_lsteps.
  - eapply lsteps_trans; [by apply (lsteps_idle now t)|]. apply acks_lsteps.
Qed.
