(* ===== verification/CtlGrace.v ===== *)
(** * Controller: what a key rotation promises to the data plane

    Proved on the abstract lifecycle (CtlLifecycle) and transported to runs of
    the controller: one active key at all times, never a sentinel, and no key
    deleted before it has been retiring for [RETIRE_GRACE]. *)
From Stdlib Require Import ZArith Lia.
From S2P Require Import Prelude CtlKeys CtlRotation CtlLifecycle.
Open Scope Z_scope.

Definition in_state (s : KeyState) (rows : gmap Z KeyRow) (e : Z) : Prop :=
  exists p, rows !! e = Some {| row_pubkey := p; row_state := s |}.

(** An epoch that has carried traffic: active or retiring. *)
Definition serving (rows : gmap Z KeyRow) (e : Z) : Prop :=
  in_state Active rows e \/ in_state Retiring rows e.

(** ** How a row moves in one lifecycle step *)

Lemma promote_in_state rows pe e s :
  is_real_pending rows pe = true ->
  in_state s (promote_rows rows pe) e <->
  match s with
  | Active => e = pe
  | Retiring => in_state Retiring rows e \/ in_state Active rows e
  | Pending => e <> pe /\ in_state Pending rows e
  end.
Proof.
  intros Hr. apply is_real_pending_spec in Hr as (k & Hk & _). unfold in_state.
  rewrite lookup_promote. destruct (decide (e = pe)) as [-> | Hne].
  - rewrite Hk. cbn. destruct s; split; try (intros [? [=]]); eauto;
      try (by intros [? ?]); by intros [[? [=]]|[? [=]]].
  - destruct (rows !! e) as [[p []]|]; cbn; destruct s; split;
      try (intros [? [=]]; eauto); try done; try (by intros [_ [? [=]]]); try (by intros [[? [=]]|[? [=]]]);
      try (intros; subst; done); eauto.
    all: intros [[? [= ->]]|[? [= ->]]]; eauto.
Qed.

Lemma delete_in_state rows k e s : in_state s (delete k rows) e <-> e <> k /\ in_state s rows e.
Proof.
  unfold in_state. destruct (decide (e = k)) as [-> | Hne].
  - rewrite lookup_delete_eq. split; [by intros [? ?]|by intros [? _]].
  - rewrite lookup_delete_ne by done. split; [auto|by intros [_ ?]].
Qed.

Lemma insert_pending_in_state rows k p e s :
  (forall s', in_state s' rows k -> s' = Pending) -> s <> Pending ->
  in_state s (<[k := {| row_pubkey := p; row_state := Pending |}]> rows) e <-> in_state s rows e.
Proof.
  intros Hk Hs. unfold in_state. destruct (decide (k = e)) as [-> | Hne].
  - rewrite lookup_insert_eq. split; [intros [? [= _ ?]]; congruence|].
    intros H. by apply Hk in H.
  - by rewrite lookup_insert_ne by done.
Qed.

(** The two row changes that only touch pending rows. *)
Inductive pending_change (rows : gmap Z KeyRow) : gmap Z KeyRow -> Prop :=
| pc_same : pending_change rows rows
| pc_insert k p : (forall s', in_state s' rows k -> s' = Pending) ->
    pending_change rows (<[k := {| row_pubkey := p; row_state := Pending |}]> rows)
| pc_delete k : in_state Pending rows k -> pending_change rows (delete k rows).

Lemma pending_change_state rows rows' s e :
  pending_change rows rows' -> s <> Pending -> in_state s rows' e <-> in_state s rows e.
Proof.
  intros [|k p Hk|k [p Hk]] Hs; [done|by apply insert_pending_in_state|].
  rewrite delete_in_state. split; [tauto|]. intros [p' Hp']. split; [|by exists p'].
  intros ->. rewrite Hk in Hp'. by injection Hp'.
Qed.

(** One lifecycle step either touches pending rows only, promotes, or deletes a
    retiring row. *)
Lemma lstep_rows now v now' v' :
  lstep now v now' v' ->
  pending_change (fst v) (fst v') \/
  (exists e, is_real_pending (fst v) e = true /\ fst v' = promote_rows (fst v) e) \/
  (exists e, in_state Retiring (fst v) e /\ fst v' = delete e (fst v)).
Proof.
  destruct 1; cbn; try (by left; constructor).
  - left. constructor. intros s' [p Hp]. congruence.
  - left. constructor. intros s' [q Hq]. rewrite H in Hq. by injection Hq.
  - right. left. by eexists.
  - right. right. by eexists; split; [eexists|].
  - left. constructor. by eexists.
  - right. right. by eexists; split; [eexists|].
Qed.

(** ** One active key, never a sentinel *)

Record rows_ok (rows : gmap Z KeyRow) : Prop := {
  ro_unique : forall e1 e2, in_state Active rows e1 -> in_state Active rows e2 -> e1 = e2;
  ro_real : forall e p s, rows !! e = Some {| row_pubkey := p; row_state := s |} ->
    s <> Pending -> p <> AWAITING_SUBMISSION_SENTINEL }.

(** Rows are only relabelled: a serving row has the key it had before. *)
Lemma lstep_pubkey now v now' v' e p s :
  lstep now v now' v' -> fst v' !! e = Some {| row_pubkey := p; row_state := s |} -> s <> Pending ->
  exists s0, fst v !! e = Some {| row_pubkey := p; row_state := s0 |} /\
    (s0 = Pending -> p <> AWAITING_SUBMISSION_SENTINEL).
Proof.
  intros Hstep Hl Hs. apply lstep_rows in Hstep as [Hc|[(k & Hr & Heq)|(k & Hk & Heq)]].
  - exists s. split; [|done]. destruct Hc as [|k q Hk|k Hk]; [done| |].
    + destruct (decide (k = e)) as [-> | Hne]; [rewrite lookup_insert_eq in Hl; congruence|].
      by rewrite lookup_insert_ne in Hl.
    + destruct (decide (e = k)) as [-> | Hne]; [by rewrite lookup_delete_eq in Hl|].
      by rewrite lookup_delete_ne in Hl.
  - rewrite Heq, lookup_promote in Hl. apply is_real_pending_spec in Hr as (q & Hq & Hreal).
    destruct (decide (e = k)) as [-> | Hne].
    + rewrite Hq in Hl |- *. cbn in Hl. injection Hl as -> <-. by exists Pending.
    + destruct (fst v !! e) as [[q' []]|] eqn:He; cbn in Hl; simplify_eq; eauto.
  - rewrite Heq in Hl. exists s. split; [|done].
    destruct (decide (e = k)) as [-> | Hne]; [by rewrite lookup_delete_eq in Hl|].
    by rewrite lookup_delete_ne in Hl.
Qed.

Lemma lstep_rows_ok now v now' v' : lstep now v now' v' -> rows_ok (fst v) -> rows_ok (fst v').
Proof.
  intros Hstep [Hu Hr]. constructor.
  - intros e1 e2. apply lstep_rows in Hstep as [Hc|[(k & Hk & ->)|(k & Hk & ->)]].
    + rewrite !(pending_change_state _ _ _ _ Hc) by done. apply Hu.
    + rewrite !promote_in_state by done. congruence.
    + rewrite !delete_in_state. intros [_ H1] [_ H2]. by apply Hu.
  - intros e p s Hl Hs. destruct (lstep_pubkey _ _ _ _ _ _ _ Hstep Hl Hs) as (s0 & H0 & Hp).
    destruct (decide (s0 = Pending)) as [Heq|Hne]; [by apply Hp|]. by eapply Hr.
Qed.

Lemma lstep_has_active now v now' v' :
  lstep now v now' v' -> rows_ok (fst v) ->
  (exists e, in_state Active (fst v) e) -> exists e, in_state Active (fst v') e.
Proof.
  intros Hstep Hok [e He]. apply lstep_rows in Hstep as [Hc|[(k & Hk & ->)|(k & Hk & ->)]].
  - exists e. by rewrite (pending_change_state _ _ _ _ Hc).
  - exists k. by rewrite promote_in_state.
  - exists e. rewrite delete_in_state. split; [|done]. intros ->.
    destruct He as [p Hp], Hk as [q Hq]. congruence.
Qed.

(** Transport along the steps of an action and along a run. *)
Lemma lsteps_invariant (I : View -> Prop) now v now' v' :
  (forall now v now' v', lstep now v now' v' -> I v -> I v') -> lsteps now v now' v' -> I v -> I v'.
Proof. intros HI. induction 1; eauto. Qed.

Lemma acts_snoc w l a : acts w (l ++ [a]) = act (acts w l) a.
Proof. unfold acts. by rewrite foldl_app. Qed.

Lemma clock_after_snoc now l a : clock_after now (l ++ [a]) = act_end a.
Proof. unfold clock_after. by rewrite foldl_app. Qed.

Lemma timely_snoc now l a :
  timely now (l ++ [a]) <-> timely now l /\ clock_after now l <= act_start a /\ act_ok a.
Proof.
  revert now. induction l as [|b l IH]; intros now; cbn; [tauto|].
  rewrite IH. unfold clock_after. cbn. tauto.
Qed.

(** Every state the run goes through keeps its epochs in [u32]. *)
Definition fits_along (w : World) (g : Z) (l : list Act) : Prop :=
  forall k, epochs_fit (rows_of (w_db (acts w (take k l))) g).

Lemma fits_along_snoc w g l a :
  fits_along w g (l ++ [a]) -> fits_along w g l /\ epochs_fit (rows_of (w_db (acts w l)) g).
Proof.
  intros H. split.
  - intros k. specialize (H (k `min` length l)%nat). rewrite take_app_le in H by lia.
    destruct (decide (k <= length l)%nat).
    + by replace (k `min` length l)%nat with k in H by lia.
    + replace (k `min` length l)%nat with (length l) in H by lia.
      rewrite firstn_all in H. by rewrite take_ge by lia.
  - specialize (H (length l)). by rewrite take_app_length in H.
Qed.

Lemma run_lsteps w g now l :
  timely now l -> fits_along w g l ->
  lsteps now (view w g) (clock_after now l) (view (acts w l) g).
Proof.
  induction l as [|a l IH] using rev_ind; intros Ht Hf; [constructor|].
  apply timely_snoc in Ht as (Ht & Hle & Hok). apply fits_along_snoc in Hf as [Hf Hfit].
  rewrite acts_snoc, clock_after_snoc. eapply lsteps_trans; [by apply IH|].
  by apply act_lsteps.
Qed.

(** C32: Every run of the controller - drives, sweeps, rotations by operator or
    timer, key submissions and acks in any order, with any database failures -
    is, for each gateway, a run of the abstract key lifecycle over the same
    time span. *)
Theorem controller_refines_lifecycle (w : World) (g now : Z) (l : list Act)
    (Ht : timely now l) (Hf : fits_along w g l) :
  lsteps now (view w g) (clock_after now l) (view (acts w l) g).
Proof. by apply run_lsteps. Qed.

(** C31: An enrolled gateway has exactly one active key after any run, and that
    key is a real one: no failed call, abort, late submission or stacked
    rotation leaves it without a key or with the sentinel. *)
Theorem one_active_key (w : World) (g now : Z) (l : list Act)
    (Ht : timely now l) (Hf : fits_along w g l)
    (Hok : rows_ok (rows_of (w_db w) g)) (Ha : exists e, in_state Active (rows_of (w_db w) g) e) :
  exists e p,
    rows_of (w_db (acts w l)) g !! e = Some {| row_pubkey := p; row_state := Active |} /\
    p <> AWAITING_SUBMISSION_SENTINEL /\
    forall e', in_state Active (rows_of (w_db (acts w l)) g) e' -> e' = e.
Proof.
  pose proof (run_lsteps w g now l Ht Hf) as Hl.
  apply (lsteps_invariant (fun v => rows_ok (fst v) /\ exists e, in_state Active (fst v) e)) in Hl
    as [Hok' [e He]]; [| |done].
  - destruct He as [p Hp]. exists e, p. split_and!; [done|by eapply (ro_real _ Hok')|].
    intros e' He'. apply (ro_unique _ Hok'); [done|by exists p].
  - intros ? v ? v' Hs [H1 H2]. split; [by eapply lstep_rows_ok|by eapply lstep_has_active].
Qed.

(** ** The grace of retiring keys

    [D e] bounds from above the instant epoch [e] became retiring. *)

Definition anchor (t : RotationTracker) : Z := default (started_at t) (promoted_at t).

Record grace (now : Z) (v : View) (D : Z -> Z) : Prop := {
  g_past : forall e, in_state Retiring (fst v) e -> D e <= now;
  g_free : snd v = None -> forall e, in_state Retiring (fst v) e -> D e + RETIRE_GRACE <= now;
  g_held : forall t, snd v = Some t ->
    anchor t <= now /\ forall e, in_state Retiring (fst v) e -> D e <= anchor t;
  g_unprior : forall t, snd v = Some t -> prior_active_epoch t = None -> promoted_at t = None ->
    forall e, ~ in_state Active (fst v) e;
  g_prior : forall t, snd v = Some t -> prior_active_epoch t = None -> is_Some (promoted_at t) ->
    forall e, in_state Retiring (fst v) e -> D e + RETIRE_GRACE <= now;
  g_noactive : (forall e, ~ in_state Active (fst v) e) ->
    forall e, in_state Retiring (fst v) e -> D e + RETIRE_GRACE <= now }.

Lemma select_no_prior rows e :
  select_live_pending (ordered rows) = Some (e, None) -> forall e', ~ in_state Active rows e'.
Proof.
  unfold select_live_pending. destruct (list_max_opt _); [|done]. intros [= _ Hf] e' [p Hp].
  destruct (List.find _ _) eqn:Hfind; [done|].
  pose proof (List.find_none _ _ Hfind (e', p, Active)) as Hn.
  assert (In (e', p, Active) (ordered rows)) as Hin by by apply list_elem_of_In, elem_of_ordered.
  specialize (Hn Hin). unfold is_state in Hn. cbn in Hn. by apply bool_decide_eq_false in Hn.
Qed.

(** Steps that leave serving rows and the tracker's stamps alone. *)
Lemma grace_same now rows rows' s s' D :
  grace now (rows, s) D ->
  (forall st e, st <> Pending -> in_state st rows' e <-> in_state st rows e) ->
  match s, s' with
  | Some t, Some t' => prior_active_epoch t' = prior_active_epoch t /\ promoted_at t' = promoted_at t /\
                       started_at t' = started_at t
  | None, None => True
  | _, _ => False
  end ->
  grace now (rows', s') D.
Proof.
  intros [H1 H2 H3 H4 H5 H6] Hrows Hs. cbn in *.
  assert (forall t', s' = Some t' -> exists t, s = Some t /\ anchor t' = anchor t /\
    prior_active_epoch t' = prior_active_epoch t /\ promoted_at t' = promoted_at t) as Ht.
  { intros t' ->. destruct s as [t|]; [|done]. destruct Hs as (Ha & Hb & Hc). exists t.
    unfold anchor. by rewrite Ha, Hb, Hc. }
  constructor; cbn.
  - intros e He. apply H1. by apply Hrows.
  - intros -> e He. destruct s; [done|]. apply H2; [done|]. by apply Hrows.
  - intros t' Ht'. destruct (Ht _ Ht') as (t & -> & -> & _ & _). destruct (H3 t eq_refl) as [Ha Hb].
    split; [done|]. intros e He. apply Hb. by apply Hrows.
  - intros t' Ht' Hp Hq e He. destruct (Ht _ Ht') as (t & -> & _ & Heq1 & Heq2).
    apply (H4 t eq_refl) with e; [congruence..|]. by apply Hrows.
  - intros t' Ht' Hp Hq e He. destruct (Ht _ Ht') as (t & -> & _ & Heq1 & Heq2).
    apply (H5 t eq_refl); [congruence..|]. by apply Hrows.
  - intros Hna e He. apply H6; [|by apply Hrows]. intros e' He'. apply (Hna e'). by apply Hrows.
Qed.

(** Dropping the tracker, and possibly a row that is not serving or whose grace
    is over, when every retiring row has had its grace. *)
Lemma grace_release now rows s rows' D :
  grace now (rows, s) D ->
  (forall e, in_state Retiring rows e -> D e + RETIRE_GRACE <= now) ->
  (forall e, in_state Retiring rows' e -> in_state Retiring rows e) ->
  grace now (rows', None) D.
Proof.
  intros Hg Hall Hsub. constructor; cbn; try done.
  - intros e He. by apply (g_past _ _ _ Hg), Hsub.
  - intros _ e He. by apply Hall, Hsub.
  - intros _ e He. by apply Hall, Hsub.
Qed.

Lemma grace_orphan now rows k D :
  grace now (rows, None) D -> grace now (delete k rows, None) D.
Proof.
  intros Hg. eapply grace_release; [exact Hg|by apply (g_free _ _ _ Hg)|].
  intros e He. by apply delete_in_state in He as [_ He].
Qed.

Lemma grace_seed now rows s e prior D :
  grace now (rows, s) D -> select_live_pending (ordered rows) = Some (e, prior) ->
  grace now (rows, Some (fresh_tracker e prior now)) D.
Proof.
  intros [H1 H2 H3 H4 H5 H6] Hsel. constructor; cbn in *; try done; intros t [= <-]; cbn.
  - split; [unfold anchor; cbn; lia|]. exact H1.
  - intros -> _. by eapply select_no_prior.
  - by intros _ [? ?].
Qed.

(** After a promote at [now], the demoted rows start their grace. *)
Definition demoted_at (rows : gmap Z KeyRow) (now : Z) (D : Z -> Z) (e : Z) : Z :=
  match rows !! e with Some {| row_state := Active |} => now | _ => D e end.

Lemma demoted_at_retiring rows now D e : in_state Retiring rows e -> demoted_at rows now D e = D e.
Proof. intros [p Hp]. unfold demoted_at. by rewrite Hp. Qed.

Lemma demoted_at_active rows now D e : in_state Active rows e -> demoted_at rows now D e = now.
Proof. intros [p Hp]. unfold demoted_at. by rewrite Hp. Qed.

Lemma grace_promote now rows t D :
  grace now (rows, Some t) D -> promoted_at t = None ->
  is_real_pending rows (pending_epoch t) = true ->
  grace now (promote_rows rows (pending_epoch t), Some (stamp_promoted t now)) (demoted_at rows now D).
Proof.
  intros [H1 H2 H3 H4 H5 H6] Hp Hr. cbn in *.
  assert (forall e, in_state Retiring (promote_rows rows (pending_epoch t)) e ->
    demoted_at rows now D e <= now) as Hle.
  { intros e He. rewrite promote_in_state in He by done. destruct He as [He|He].
    - rewrite demoted_at_retiring by done. by apply H1.
    - by rewrite demoted_at_active. }
  constructor; cbn; try done.
  - intros t' [= <-]. unfold anchor. cbn. split; [lia|done].
  - intros t' [= <-]. done.
  - intros t' [= <-] Hpr _ e He. cbn in Hpr. pose proof (H4 t eq_refl Hpr Hp) as Hna.
    rewrite promote_in_state in He by done. destruct He as [He|He]; [|by apply Hna in He].
    rewrite demoted_at_retiring by done. by apply H6.
  - intros Hna. exfalso. apply (Hna (pending_epoch t)). by rewrite promote_in_state.
Qed.

Lemma grace_idle now now' v D : grace now v D -> now <= now' -> grace now' v D.
Proof.
  intros [H1 H2 H3 H4 H5 H6] Hle. constructor.
  - intros e He. specialize (H1 e He). lia.
  - intros Hs e He. specialize (H2 Hs e He). lia.
  - intros t Ht. destruct (H3 t Ht) as [Ha Hb]. split; [lia|done].
  - exact H4.
  - intros t Ht Hp Hq e He. specialize (H5 t Ht Hp Hq e He). lia.
  - intros Hna e He. specialize (H6 Hna e He). lia.
Qed.

(** The bounds only move for rows that start retiring. *)
Definition tracks (now : Z) (v v' : View) (D D' : Z -> Z) : Prop :=
  forall e, in_state Retiring (fst v') e ->
    (in_state Retiring (fst v) e /\ D' e = D e) \/ now <= D' e.

Lemma tracks_sub now v v' D :
  (forall e, in_state Retiring (fst v') e -> in_state Retiring (fst v) e) -> tracks now v v' D D.
Proof. intros H e He. left. auto. Qed.

Lemma grace_pending now rows rows' s D :
  grace now (rows, s) D -> pending_change rows rows' ->
  grace now (rows', s) D /\ tracks now (rows, s) (rows', s) D D.
Proof.
  intros Hg Hc. split.
  - eapply grace_same; [exact Hg|intros st e Hst; by apply pending_change_state|by destruct s].
  - apply tracks_sub. cbn. intros e He. by apply (pending_change_state _ _ Retiring e Hc).
Qed.

(** The tracker goes, with or without one row. *)
Lemma grace_released now rows s k D :
  grace now (rows, s) D -> (forall e, in_state Retiring rows e -> D e + RETIRE_GRACE <= now) ->
  (grace now (delete k rows, None) D /\ tracks now (rows, s) (delete k rows, None) D D) /\
  (grace now (rows, None) D /\ tracks now (rows, s) (rows, None) D D).
Proof.
  intros Hg Hall. split; (split; [eapply grace_release; [exact Hg|done|]|apply tracks_sub; cbn]);
    try done; intros e He; by apply delete_in_state in He as [_ ?].
Qed.

Lemma grace_anchored now rows t D b :
  grace now (rows, Some t) D -> anchor t + b <= now -> RETIRE_GRACE <= b ->
  forall e, in_state Retiring rows e -> D e + RETIRE_GRACE <= now.
Proof.
  intros Hg Ha Hb e He. destruct (g_held _ _ _ Hg t eq_refl) as [_ Hh]. specialize (Hh e He). lia.
Qed.

Lemma lstep_grace now v now' v' D :
  lstep now v now' v' -> grace now v D -> exists D', grace now' v' D' /\ tracks now v v' D D'.
Proof.
  intros Hstep Hg. destruct Hstep as
    [now now' v Hle|now rows s e Hr|now rows s e p Hr|now rows t acks|now rows s e prior Hsel _
    |now rows t Hp Hr _|now rows t s e p Hp Hq Hle Hr|now rows t Hp Hle Hr|now rows t Hp Hle Hr
    |now rows t s Hp Hq|now rows e p Hr].
  - exists D. split; [by eapply grace_idle|by apply tracks_sub].
  - exists D. apply grace_pending; [done|]. constructor. intros s' [p Hp]. congruence.
  - exists D. apply grace_pending; [done|]. constructor. intros s' [q Hq]. rewrite Hr in Hq. by injection Hq.
  - exists D. split; [by eapply grace_same; [exact Hg|done|]|by apply tracks_sub].
  - exists D. split; [by eapply grace_seed|by apply tracks_sub].
  - exists (demoted_at rows now D). split; [by apply grace_promote|].
    intros e He. cbn in *. rewrite promote_in_state in He by done. destruct He as [He|He].
    + left. by rewrite demoted_at_retiring.
    + right. by rewrite demoted_at_active.
  - exists D. eapply grace_released; [exact Hg|].
    apply (grace_anchored _ _ t _ RETIRE_GRACE Hg); [unfold anchor; by rewrite Hp|lia].
  - exists D. eapply grace_released; [exact Hg|].
    apply (grace_anchored _ _ t _ ABORT_AFTER Hg); [unfold anchor; by rewrite Hp|rot_consts; lia].
  - exists D. apply (grace_released _ _ _ 0); [exact Hg|].
    apply (grace_anchored _ _ t _ ABORT_AFTER Hg); [unfold anchor; by rewrite Hp|rot_consts; lia].
  - exists D. apply (grace_released _ _ _ 0); [exact Hg|].
    apply (g_prior _ _ _ Hg t eq_refl); [done|by eexists].
  - exists D. split; [by apply grace_orphan|].
    apply tracks_sub. cbn. intros e' He'. by apply delete_in_state in He' as [_ ?].
Qed.

(** A deleted serving row had had its grace. *)
Lemma lstep_removed now v now' v' D e :
  lstep now v now' v' -> grace now v D -> serving (fst v) e -> fst v' !! e = None ->
  in_state Retiring (fst v) e /\ D e + RETIRE_GRACE <= now.
Proof.
  intros Hstep Hg Hserve Hnone.
  assert (forall k, in_state Retiring (fst v) k -> fst v' = delete k (fst v) -> e = k) as Hdel.
  { intros k _ Heq. rewrite Heq in Hnone. destruct (decide (e = k)) as [->|Hne]; [done|].
    rewrite lookup_delete_ne in Hnone by done. destruct Hserve as [[p Hp]|[p Hp]]; congruence. }
  assert (forall rows', pending_change (fst v) rows' -> rows' !! e <> None) as Hpc.
  { intros rows' Hc. destruct Hserve as [He|He];
      apply (pending_change_state _ _ _ _ Hc) in He as [p Hp]; congruence. }
  destruct Hstep; cbn in *.
  - by destruct (Hpc (fst v)); [constructor|].
  - exfalso. eapply (Hpc _); [|exact Hnone]. constructor. intros s' [p Hp]. congruence.
  - exfalso. eapply (Hpc _); [|exact Hnone]. constructor. intros s' [q Hq]. rewrite H in Hq. by injection Hq.
  - by destruct (Hpc rows); [constructor|].
  - by destruct (Hpc rows); [constructor|].
  - exfalso. rewrite lookup_promote in Hnone. destruct (rows !! e) as [r|] eqn:He.
    + by destruct (decide _).
    + destruct Hserve as [[p Hp]|[p Hp]]; congruence.
  - assert (in_state Retiring rows e0) as Hr by by eexists.
    rewrite (Hdel e0 Hr eq_refl). split; [done|].
    destruct (g_held _ _ _ Hg t eq_refl) as [_ Hb]. specialize (Hb e0 Hr).
    unfold anchor in Hb. rewrite H in Hb. cbn in Hb. lia.
  - exfalso. eapply (Hpc _); [|exact Hnone]. constructor. by eexists.
  - by destruct (Hpc rows); [constructor|].
  - by destruct (Hpc rows); [constructor|].
  - assert (in_state Retiring rows e0) as Hr by by eexists.
    rewrite (Hdel e0 Hr eq_refl). split; [done|]. by apply (g_free _ _ _ Hg).
Qed.

Lemma lstep_serving now v now' v' e :
  lstep now v now' v' -> serving (fst v) e -> is_Some (fst v' !! e) -> serving (fst v') e.
Proof.
  intros Hstep Hs [r Hr]. apply lstep_rows in Hstep as [Hc|[(k & Hk & Heq)|(k & Hk & Heq)]].
  - destruct Hs as [Hs|Hs]; [left|right]; by apply (pending_change_state _ _ _ _ Hc).
  - rewrite Heq. unfold serving. rewrite !promote_in_state by done. destruct Hs; auto.
  - rewrite Heq in Hr |- *. unfold serving. rewrite !delete_in_state.
    destruct (decide (e = k)) as [-> | Hne]; [by rewrite lookup_delete_eq in Hr|].
    destruct Hs; auto.
Qed.

Lemma lsteps_grace now v now' v' :
  lsteps now v now' v' -> forall D, grace now v D ->
  exists D', grace now' v' D' /\ tracks now v v' D D' /\
    forall e, serving (fst v) e -> fst v' !! e = None ->
      exists tau, now <= tau <= now' /\
        (in_state Retiring (fst v) e /\ D e + RETIRE_GRACE <= tau \/ now + RETIRE_GRACE <= tau).
Proof.
  induction 1 as [now v|now v now1 v1 now2 v2 Hstep Hsteps IH]; intros D Hg.
  - exists D. split_and!; [done|by apply tracks_sub|].
    intros e [[p Hp]|[p Hp]] Hn; congruence.
  - destruct (lstep_grace _ _ _ _ _ Hstep Hg) as (D1 & Hg1 & Ht1).
    destruct (IH D1 Hg1) as (D2 & Hg2 & Ht2 & Hrem).
    pose proof (lstep_time _ _ _ _ Hstep) as Hle1. pose proof (lsteps_time _ _ _ _ Hsteps) as Hle2.
    exists D2. split_and!; [done| |].
    + intros e He. destruct (Ht2 e He) as [[He1 Heq]|Hge]; [|right; lia].
      destruct (Ht1 e He1) as [[He0 Heq0]|Hge]; [left; split; [done|lia]|right; lia].
    + intros e Hs Hn. destruct (fst v1 !! e) as [r|] eqn:He1.
      * destruct (Hrem e) as (tau & Hb & Hor); [by eapply lstep_serving|done|].
        exists tau. split; [lia|]. destruct Hor as [[Hr1 HD1]|Hge]; [|right; lia].
        destruct (Ht1 e Hr1) as [[Hr0 Heq]|Hge]; [left; split; [done|lia]|right; lia].
      * destruct (lstep_removed _ _ _ _ _ e Hstep Hg Hs He1) as [Hr HD].
        exists now. split; [lia|]. by left.
Qed.

(** [D e] is backed by the run: whenever the clock has passed it, the row was
    retiring. *)
Definition backed (w : World) (g now : Z) (l : list Act) (D : Z -> Z) : Prop :=
  forall e, in_state Retiring (rows_of (w_db (acts w l)) g) e ->
  forall pre post, l = pre ++ post -> D e < clock_after now pre ->
    in_state Retiring (rows_of (w_db (acts w pre)) g) e.

Lemma app_snoc_split {A : Type} (l pre post : list A) (a : A) :
  l ++ [a] = pre ++ post -> (post = [] /\ pre = l ++ [a]) \/ exists post', post = post' ++ [a] /\ l = pre ++ post'.
Proof.
  destruct post as [|b post _] using rev_ind; intros H.
  - left. by rewrite app_nil_r in H.
  - right. rewrite app_assoc in H. apply app_inj_tail in H as [-> ->]. by exists post.
Qed.

Lemma clock_prefix now l pre post :
  timely now l -> l = pre ++ post -> clock_after now pre <= clock_after now l.
Proof.
  revert pre post. induction l as [|a l IH] using rev_ind; intros pre post Ht Heq.
  - symmetry in Heq. apply app_eq_nil in Heq as [-> ->]. lia.
  - apply timely_snoc in Ht as (Ht & Hle & Hok).
    apply app_snoc_split in Heq as [[-> ->]|(post' & -> & ->)]; [lia|].
    specialize (IH pre post' Ht eq_refl). rewrite clock_after_snoc.
    assert (act_start a <= act_end a); [|lia].
    destruct a as [? env|? env| | | |]; cbn in *; unfold env_ok in Hok; lia.
Qed.

Lemma run_grace w g now l :
  timely now l -> fits_along w g l -> rotations w !! g = None ->
  exists D, grace (clock_after now l) (view (acts w l) g) D /\ backed w g now l D.
Proof.
  intros Ht Hf Hslot. induction l as [|a l IH] using rev_ind.
  - exists (fun _ => now - RETIRE_GRACE). split.
    + constructor; unfold view; cbn; try (intros; rot_consts; lia); rewrite Hslot; done.
    + intros e He pre post Heq _. symmetry in Heq. by apply app_eq_nil in Heq as [-> _].
  - pose proof Ht as Ht'. apply timely_snoc in Ht as (Ht & Hle & Hok).
    apply fits_along_snoc in Hf as [Hf Hfit]. destruct (IH Ht Hf) as (D & Hg & Hb).
    rewrite acts_snoc, clock_after_snoc.
    pose proof (act_lsteps (acts w l) a g (clock_after now l) Hle Hok Hfit) as Hsteps.
    destruct (lsteps_grace _ _ _ _ Hsteps D Hg) as (D' & Hg' & Htr & _).
    exists D'. split; [done|]. intros e He pre post Heq Hlt.
    apply app_snoc_split in Heq as [[-> ->]|(post' & -> & ->)]; [done|].
    rewrite acts_snoc in He. destruct (Htr e He) as [[He0 HD]|Hge].
    + apply (Hb e He0 pre post'); [done|lia].
    + pose proof (clock_prefix now (pre ++ post') pre post' Ht eq_refl). lia.
Qed.

(** C9: Make before break. Starting from an empty tracker map (a controller
    start), whatever the controller then does, a key that was active or retiring
    is deleted only after it has been retiring, and so still accepted by the
    gateway's peers, throughout the last [RETIRE_GRACE] of the run. *)
Theorem serving_keys_get_their_grace (w : World) (g now : Z) (l : list Act) (a : Act) (e : Z)
    (Ht : timely now (l ++ [a])) (Hf : fits_along w g (l ++ [a]))
    (Hslot : rotations w !! g = None)
    (Hserve : serving (rows_of (w_db (acts w l)) g) e)
    (Hgone : rows_of (w_db (acts w (l ++ [a]))) g !! e = None) :
  exists tau, clock_after now l <= tau <= act_end a /\
    forall pre post, l = pre ++ post -> tau - RETIRE_GRACE < clock_after now pre ->
      in_state Retiring (rows_of (w_db (acts w pre)) g) e.
Proof.
  apply timely_snoc in Ht as (Ht & Hle & Hok). apply fits_along_snoc in Hf as [Hf Hfit].
  destruct (run_grace w g now l Ht Hf Hslot) as (D & Hg & Hb).
  pose proof (act_lsteps (acts w l) a g (clock_after now l) Hle Hok Hfit) as Hsteps.
  destruct (lsteps_grace _ _ _ _ Hsteps D Hg) as (_ & _ & _ & Hrem).
  rewrite acts_snoc in Hgone. destruct (Hrem e Hserve Hgone) as (tau & Hr & Hor).
  exists tau. split; [done|]. intros pre post Heq Hlt. destruct Hor as [[He HD]|Hge].
  - apply (Hb e He pre post Heq). lia.
  - pose proof (clock_prefix now l pre post Ht Heq). lia.
Qed.
