(* ===== verification/CtlConverge.v ===== *)
(** * Controller: sweeps finish every rotation

    After a controller start (no tracker in memory) and with nothing but sweeps,
    whatever rows a gateway has, each pending epoch is promoted or aborted, each
    retiring one deleted, and only active rows remain within a bound linear in
    the number of pending rows. *)
From Stdlib Require Import ZArith Lia.
From S2P Require Import Prelude CtlKeys CtlRotation CtlLifecycle CtlGrace.
Open Scope Z_scope.

(** ** The pending epochs of a gateway *)

Definition pend (rows : gmap Z KeyRow) : gset Z :=
  dom (filter (fun kr : Z * KeyRow => row_state (snd kr) = Pending) rows).

Definition npend (rows : gmap Z KeyRow) : Z := Z.of_nat (size (pend rows)).

Lemma elem_of_pend rows e : e ∈ pend rows <-> in_state Pending rows e.
Proof.
  unfold pend, in_state. rewrite elem_of_dom. split.
  - intros [[p s] [Hl Hs]%map_lookup_filter_Some]. cbn in Hs. subst s. by exists p.
  - intros [p Hp]. exists {| row_pubkey := p; row_state := Pending |}.
    by apply map_lookup_filter_Some.
Qed.

Lemma npend_remove rows rows' e :
  in_state Pending rows e ->
  (forall e', in_state Pending rows' e' <-> e' <> e /\ in_state Pending rows e') ->
  npend rows' = npend rows - 1.
Proof.
  intros He H. unfold npend.
  assert (pend rows' = pend rows ∖ {[e]}) as ->.
  { apply set_eq. intros e'. rewrite elem_of_difference, elem_of_singleton, !elem_of_pend, H. tauto. }
  assert (size ({[e]} : gset Z) = 1%nat) as H1 by apply size_singleton.
  rewrite size_difference, H1.
  - assert (size (pend rows) <> 0%nat) as Hs; [|lia].
    intros Hz. apply size_empty_inv in Hz. apply elem_of_pend in He. set_solver.
  - intros e' ->%elem_of_singleton. by apply elem_of_pend.
Qed.

Lemma npend_zero rows : npend rows = 0 <-> forall e, ~ in_state Pending rows e.
Proof.
  unfold npend. split.
  - intros Hz e He%elem_of_pend. assert (size (pend rows) = 0%nat) as Hs by lia.
    apply size_empty_inv in Hs. set_solver.
  - intros H. assert (pend rows ≡ ∅) as Hp; [|by rewrite Hp, size_empty].
    intros e. rewrite elem_of_pend. split; [by intros ?%H|set_solver].
Qed.

Lemma npend_same rows rows' :
  (forall e, in_state Pending rows' e <-> in_state Pending rows e) -> npend rows' = npend rows.
Proof.
  intros H. unfold npend. f_equal. f_equal. apply set_eq. intros e. by rewrite !elem_of_pend.
Qed.

Lemma npend_nonneg rows : 0 <= npend rows.
Proof. unfold npend. lia. Qed.

(** ** What [select_live_pending] finds *)

Lemma list_max_opt_spec l :
  match list_max_opt l with
  | Some m => m ∈ l /\ forall x, x ∈ l -> x <= m
  | None => l = []
  end.
Proof.
  induction l as [|x l IH]; [done|].
  change (list_max_opt (x :: l)) with
    (Some (match list_max_opt l with None => x | Some m => Z.max x m end)).
  destruct (list_max_opt l) as [m|].
  - destruct IH as [Hm Hmax]. split.
    + destruct (Z.max_spec x m) as [[_ ->] | [_ ->]]; [by right|by left].
    + intros y [-> | Hy]%elem_of_cons; [lia|]. specialize (Hmax y Hy). lia.
  - subst l. split; [by left|]. intros y [-> | Hy]%elem_of_cons; [lia|by apply elem_of_nil in Hy].
Qed.

Lemma elem_of_filtered rows s e p st :
  (e, p, st) ∈ List.filter (is_state s) (ordered rows) <->
  st = s /\ rows !! e = Some {| row_pubkey := p; row_state := s |}.
Proof.
  rewrite list_elem_of_In, filter_In, <- list_elem_of_In, elem_of_ordered.
  unfold is_state. cbn. rewrite bool_decide_eq_true. split.
  - by intros [? ->].
  - by intros [-> ?].
Qed.

Lemma select_some rows e prior :
  epochs_fit rows -> select_live_pending (ordered rows) = Some (e, prior) ->
  in_state Pending rows e /\ forall p, prior = Some p -> in_state Active rows p.
Proof.
  intros Hf. unfold select_live_pending.
  pose proof (list_max_opt_spec
    (map (fun k => epoch_u32 (key_epoch k)) (List.filter (is_state Pending) (ordered rows)))) as Hm.
  destruct (list_max_opt _) as [m|]; [|done]. intros [= <- Hprior]. split.
  - destruct Hm as [Hin _]. apply list_elem_of_In, in_map_iff in Hin as ([[e' p] s] & Heq & Hin).
    apply list_elem_of_In, elem_of_filtered in Hin as [-> Hl]. unfold key_epoch in Heq. cbn in Heq.
    rewrite (epoch_u32_fit rows) in Heq by eauto. subst m. by exists p.
  - intros p ->. destruct (List.find _ _) as [[[e' k] s]|] eqn:Hfind; [|done].
    cbn in Hprior. injection Hprior as Hprior. apply List.find_some in Hfind as [Hin Hs].
    unfold is_state in Hs. cbn in Hs. apply bool_decide_eq_true in Hs as ->.
    apply list_elem_of_In, elem_of_ordered in Hin.
    unfold key_epoch in Hprior. cbn in Hprior. rewrite (epoch_u32_fit rows) in Hprior by eauto.
    subst p. by exists k.
Qed.

Lemma select_none rows :
  select_live_pending (ordered rows) = None -> forall e, ~ in_state Pending rows e.
Proof.
  unfold select_live_pending.
  pose proof (list_max_opt_spec
    (map (fun k => epoch_u32 (key_epoch k)) (List.filter (is_state Pending) (ordered rows)))) as Hm.
  destruct (list_max_opt _) as [m|]; [done|]. intros _ e [p Hp].
  assert ((e, p, Pending) ∈ List.filter (is_state Pending) (ordered rows)) as Hin
    by by apply elem_of_filtered.
  apply map_eq_nil in Hm. rewrite Hm in Hin. by apply elem_of_nil in Hin.
Qed.

(** ** One sweep without failures *)

Record sweep_clean (env : SweepEnv) : Prop := {
  sc_ok : sw_read_at env <= sw_seed_now env /\ env_ok (sw_seed_now env) (sw_drive env);
  sc_read : sw_read_fault env = false;
  sc_dread : read_fault (sw_drive env) = false;
  sc_cas : cas_fault (sw_drive env) = false;
  sc_reread : sw_reread_fault env = false;
  sc_orphan : forall e, sw_orphan_fault env e = false }.

Lemma in_state_unique rows e s s' : in_state s rows e -> in_state s' rows e -> s = s'.
Proof. intros [p Hp] [q Hq]. rewrite Hp in Hq. by injection Hq. Qed.

Lemma retire_in_state db g k s e :
  in_state s (rows_of (snd (retire_epoch db g k)) g) e <->
  in_state s (rows_of db g) e /\ (s = Retiring -> e <> k).
Proof.
  rewrite retire_epoch_rows.
  assert (forall st p, rows_of db g !! k = Some {| row_pubkey := p; row_state := st |} -> st <> Retiring ->
    in_state s (rows_of db g) e <-> in_state s (rows_of db g) e /\ (s = Retiring -> e <> k)) as Hkeep.
  { intros st p Hk Hst. split; [|by intros [? _]]. intros H. split; [done|].
    intros -> ->. destruct H as [q Hq]. rewrite Hk in Hq. injection Hq as _ Hq. congruence. }
  destruct (rows_of db g !! k) as [[p st]|] eqn:Hk.
  - destruct st; [by eapply Hkeep|by eapply Hkeep|].
    rewrite delete_in_state. split; [tauto|]. intros [H Hne]. split; [|done].
    intros ->. destruct H as [q Hq]. rewrite Hk in Hq. injection Hq as _ Hq. by apply Hne.
  - split; [|by intros [? _]]. intros H. split; [done|]. intros _ ->. destruct H as [q Hq]. congruence.
Qed.

Lemma orphans_fold g env l : (forall e, sw_orphan_fault env e = false) -> forall w,
  rotations w !! g = None ->
  rotations (foldl (orphan_retire g env) w l) !! g = None /\
  forall s e, in_state s (rows_of (w_db (foldl (orphan_retire g env) w l)) g) e <->
    in_state s (rows_of (w_db w) g) e /\ (s = Retiring -> e ∉ l).
Proof.
  intros Ho. induction l as [|k l IH]; intros w Hslot; cbn.
  - split; [done|]. intros s e. split; [|by intros [? _]]. intros H. split; [done|].
    intros _ Hn. by apply elem_of_nil in Hn.
  - pose proof (orphan_view g env w k g) as Hv. rewrite Ho in Hv. injection Hv as Hrows Hs.
    destruct (IH (orphan_retire g env w k)) as [IHs IHr]; [congruence|].
    split; [done|]. intros s e. rewrite IHr, Hrows, retire_in_state, not_elem_of_cons. tauto.
Qed.

Lemma orphans_clean w g env :
  sw_reread_fault env = false -> (forall e, sw_orphan_fault env e = false) ->
  epochs_fit (rows_of (w_db w) g) -> rotations w !! g = None ->
  rotations (sweep_orphans w g env) !! g = None /\
  forall s e, in_state s (rows_of (w_db (sweep_orphans w g env)) g) e <->
              s <> Retiring /\ in_state s (rows_of (w_db w) g) e.
Proof.
  intros Hr Ho Hf Hslot. unfold sweep_orphans. rewrite Hr, Hslot.
  destruct (orphans_fold g env (retiring_epochs (all_keys_for_gateway (w_db w) g)) Ho w Hslot)
    as [Hs Hrows].
  split; [done|]. intros s e. rewrite Hrows. split.
  - intros [H Hn]. split; [|done]. intros ->. apply Hn; [done|].
    destruct H as [p Hp]. apply list_elem_of_In, in_map_iff. exists (e, p, Retiring).
    unfold key_epoch. cbn. split; [by eapply epoch_u32_fit|].
    by apply list_elem_of_In, elem_of_filtered.
  - intros [Hs' H]. split; [done|]. by intros ->.
Qed.

(** The slot after the sweep's own settling and the driver's. *)
Definition settled_slot (w : World) (g : Z) (env : SweepEnv) : option RotationTracker :=
  settle_tracker (rotations (sweep_seed w g env) !! g)
    (select_live_pending (all_keys_for_gateway (w_db w) g))
    (read_at (sw_drive env)) (seed_now (sw_drive env)).

(** The decision of a sweep, once a tracker is held. *)
Definition sweep_decision (w : World) (g : Z) (env : SweepEnv) (t : RotationTracker) : RotationDecision :=
  rotation_decide (rotation_state g (all_keys_for_gateway (w_db w) g) (connected (sw_drive env)) t)
    (decide_now (sw_drive env)).

(** A sweep without failures: settle, decide and execute, then the orphans if
    nothing is tracked any more. *)
Lemma sweep_effect w g env :
  sweep_clean env ->
  let w1 := drive_rotation_for (sweep_seed w g env) g (sw_drive env) in
  sweep_gateway w g env = sweep_orphans w1 g env /\
  match settled_slot w g env with
  | None => view w1 g = (rows_of (w_db w) g, None)
  | Some t =>
      let '(db', eff, _) := execute (w_db w) g (sweep_decision w g env t) false in
      view w1 g = (rows_of db' g, slot_after t eff (write_now (sw_drive env)))
  end.
Proof.
  intros [Hok Hr Hd Hc Hre Ho] w1. split; [unfold sweep_gateway; by rewrite Hr|].
  assert (w_db (sweep_seed w g env) = w_db w) as Hdb.
  { unfold sweep_seed. by destruct (select_live_pending _). }
  subst w1. unfold drive_rotation_for, plan. rewrite Hd, Hc, Hdb.
  change (settle_tracker (rotations (sweep_seed w g env) !! g) _ _ _) with (settled_slot w g env).
  destruct (settled_slot w g env) as [t|]; cbn [fmap option_fmap option_map].
  - change (rotation_decide _ (decide_now (sw_drive env))) with (sweep_decision w g env t).
    destruct (execute _ _ _ _) as [[db' [eff|]] em]; unfold view; cbn;
      rewrite ?set_slot_lookup, ?decide_True, ?lookup_insert_eq by done; done.
  - unfold view. cbn. by rewrite lookup_delete_eq.
Qed.

Lemma settled_slot_spec w g env :
  (forall t, rotations w !! g = Some t -> installed_at t <= sw_read_at env) ->
  settled_slot w g env =
  match select_live_pending (all_keys_for_gateway (w_db w) g) with
  | None => rotations w !! g
  | Some (e, prior) =>
      match rotations w !! g with
      | Some t => if pending_epoch t =? e then Some t else Some (fresh_tracker e prior (sw_seed_now env))
      | None => Some (fresh_tracker e prior (sw_seed_now env))
      end
  end.
Proof.
  intros Hi. unfold settled_slot, sweep_seed.
  destruct (select_live_pending _) as [[e prior]|]; [|by destruct (rotations w !! g)].
  cbn [rotations]. rewrite set_slot_lookup, decide_True by done.
  unfold settle_tracker. cbn [fst fmap option_fmap option_map evict_decision].
  destruct (rotations w !! g) as [t|]; [specialize (Hi t eq_refl)|].
  - destruct (Z.ltb_spec (sw_read_at env) (installed_at t)); [lia|].
    destruct (Z.eqb_spec (pending_epoch t) e) as [Heq|Hne]; cbn.
    + rewrite Heq, Z.eqb_refl. by destruct (_ <? _).
    + rewrite Z.eqb_refl. by destruct (_ <? _).
  - cbn. rewrite Z.eqb_refl. by destruct (_ <? _).
Qed.

Lemma decide_wait g rows conn t dn :
  rotation_decide (rotation_state g (ordered rows) conn t) dn = Wait ->
  match promoted_at t with
  | Some s => is_Some (prior_active_epoch t) /\ dn < s + RETIRE_GRACE
  | None => dn < started_at t + ABORT_AFTER
  end.
Proof.
  unfold rotation_decide.
  cbn [rotation_state rs_promoted_at rs_prior_active_epoch rs_started_at].
  destruct (promoted_at t) as [s|].
  - destruct (prior_active_epoch t); [|done].
    destruct (Z.leb_spec RETIRE_GRACE (sat_sub dn s)) as [|Hlt]; [done|].
    intros _. split; [by eexists|]. revert Hlt. unfold sat_sub. lia.
  - destruct (negb _).
    + destruct (Z.leb_spec ABORT_AFTER (sat_sub dn (started_at t))) as [|Hlt]; [done|].
      intros _. revert Hlt. unfold sat_sub. lia.
    + destruct (_ && _)%bool; [done|].
      destruct (Z.leb_spec GRACE_PROMOTE (sat_sub dn (started_at t))) as [|Hlt]; [done|].
      intros _. revert Hlt. unfold sat_sub. rot_consts. lia.
Qed.

(** ** What holds between sweeps *)

Definition finished (v : View) : Prop :=
  snd v = None /\ forall s e, in_state s (fst v) e -> s = Active.

(** The state between two sweeps at most [d] apart. *)
Record swept (d now : Z) (v : View) : Prop := {
  sp_fit : epochs_fit (fst v);
  sp_installed : forall t, snd v = Some t -> installed_at t <= now;
  sp_unpromoted : forall t, snd v = Some t -> promoted_at t = None ->
    select_live_pending (ordered (fst v)) = Some (pending_epoch t, prior_active_epoch t) /\
    now <= started_at t + ABORT_AFTER + d;
  sp_promoted : forall t s, snd v = Some t -> promoted_at t = Some s ->
    in_state Active (fst v) (pending_epoch t) /\
    (forall q, prior_active_epoch t = Some q -> in_state Retiring (fst v) q) /\
    (npend (fst v) = 0 -> now <= s + RETIRE_GRACE + d) }.

Lemma swept_none d now rows : epochs_fit rows -> swept d now (rows, None).
Proof. by constructor. Qed.

Lemma epochs_fit_sub rows rows' :
  epochs_fit rows -> (forall s e, in_state s rows' e -> exists s', in_state s' rows e) -> epochs_fit rows'.
Proof.
  intros Hf Hsub e [[p s] Hr]. apply Hf. destruct (Hsub s e) as [s' [q Hq]]; [by exists p|eauto].
Qed.

(** The cost of one pending epoch. *)
Definition per_epoch (d : Z) : Z := ABORT_AFTER + 3 * d.

(** By when only active rows are left. *)
Definition finish_by (d now : Z) (v : View) : Z :=
  match snd v with
  | None => now + d + npend (fst v) * per_epoch d + RETIRE_GRACE + d
  | Some t =>
      match promoted_at t with
      | None => started_at t + npend (fst v) * per_epoch d + RETIRE_GRACE + d
      | Some s =>
          if npend (fst v) =? 0 then s + RETIRE_GRACE + 2 * d
          else now + d + npend (fst v) * per_epoch d + RETIRE_GRACE + d
      end
  end.

(** A sweep either finishes or keeps the deadline. *)
Definition progress (d now now' : Z) (v v' : View) (limit : Z) : Prop :=
  swept d now' v' /\
  (finished v' /\ now' <= limit \/ finish_by d now' v' <= limit /\ now' < finish_by d now' v').

Lemma promote_fit rows e : epochs_fit rows -> is_real_pending rows e = true -> epochs_fit (promote_rows rows e).
Proof.
  intros Hf Hr. eapply epochs_fit_sub; [exact Hf|]. intros s k Hk.
  rewrite promote_in_state in Hk by done. destruct s; [by exists Pending; tauto| |destruct Hk; eauto].
  subst k. apply is_real_pending_spec in Hr as (p & Hp & _). exists Pending. by exists p.
Qed.

Lemma sweep_orphans_held w g env : rotations w !! g <> None -> sweep_orphans w g env = w.
Proof. unfold sweep_orphans. destruct (sw_reread_fault env); [done|]. by destruct (rotations w !! g). Qed.

Lemma npend_pos rows e : in_state Pending rows e -> 1 <= npend rows.
Proof.
  intros He. pose proof (npend_nonneg rows).
  assert (npend rows <> 0); [|lia]. rewrite npend_zero. intros H0. by apply (H0 e).
Qed.

(** The tracker of the live epoch is kept waiting. *)
Lemma progress_wait d now now' v rows t limit :
  0 <= d -> epochs_fit rows -> installed_at t <= now' -> promoted_at t = None ->
  select_live_pending (ordered rows) = Some (pending_epoch t, prior_active_epoch t) ->
  now' <= started_at t + ABORT_AFTER + d -> 1 <= npend rows ->
  started_at t + npend rows * per_epoch d + RETIRE_GRACE + d <= limit ->
  progress d now now' v (rows, Some t) limit.
Proof.
  intros Hd Hf Hi Hp Hsel Hst HP Hlim. split.
  - constructor; cbn; [done|by intros ? [= <-]|by intros ? [= <-]|intros ? ? [= <-]; congruence].
  - right. unfold finish_by. cbn. rewrite Hp. split; [done|]. unfold per_epoch in *. rot_consts. nia.
Qed.

(** The live epoch is promoted. *)
Lemma progress_promote d now now' v rows t limit :
  0 <= d -> epochs_fit rows -> installed_at t <= now' ->
  is_real_pending rows (pending_epoch t) = true ->
  (forall q, prior_active_epoch t = Some q -> in_state Active rows q) ->
  now' <= started_at t + ABORT_AFTER + 2 * d ->
  started_at t + npend rows * per_epoch d + RETIRE_GRACE + d <= limit ->
  progress d now now' v (promote_rows rows (pending_epoch t), Some (stamp_promoted t now')) limit.
Proof.
  intros Hd Hf Hi Hreal Hprior Hst Hlim.
  assert (in_state Pending rows (pending_epoch t)) as Hpend.
  { apply is_real_pending_spec in Hreal as (p & Hp & _). by exists p. }
  pose proof (npend_pos _ _ Hpend) as HP1.
  assert (npend (promote_rows rows (pending_epoch t)) = npend rows - 1) as HP'.
  { apply (npend_remove _ _ (pending_epoch t)); [done|]. intros e'. by rewrite promote_in_state. }
  split.
  - constructor; cbn; [by apply promote_fit|by intros ? [= <-]|by intros ? [= <-]|].
    intros ? s [= <-] [= <-]. split_and!; [by rewrite promote_in_state| |rot_consts; lia].
    intros q Hq. rewrite promote_in_state by done. right. by apply Hprior.
  - right. unfold finish_by. cbn. rewrite HP'. unfold per_epoch in *.
    destruct (Z.eqb_spec (npend rows - 1) 0); rot_consts; nia.
Qed.

(** Nothing is tracked any more: the orphan pass cleans up. *)
Lemma progress_orphans d now now' v w g env limit :
  sweep_clean env -> 0 <= d -> rotations w !! g = None -> epochs_fit (rows_of (w_db w) g) ->
  now' + npend (rows_of (w_db w) g) * per_epoch d + RETIRE_GRACE + 2 * d <= limit \/
  npend (rows_of (w_db w) g) = 0 /\ now' <= limit ->
  progress d now now' v (view (sweep_orphans w g env) g) limit.
Proof.
  intros Hc Hd Hslot Hf Hlim.
  destruct (orphans_clean w g env (sc_reread _ Hc) (sc_orphan _ Hc) Hf Hslot) as [Hs Hr].
  unfold view. rewrite Hs.
  assert (epochs_fit (rows_of (w_db (sweep_orphans w g env)) g)) as Hf'.
  { eapply epochs_fit_sub; [exact Hf|]. intros s k Hk. apply Hr in Hk as [_ Hk]. by exists s. }
  assert (npend (rows_of (w_db (sweep_orphans w g env)) g) = npend (rows_of (w_db w) g)) as HP.
  { apply npend_same. intros e. rewrite Hr. split; [by intros [_ ?]|by split]. }
  split; [by apply swept_none|]. destruct Hlim as [Hlim|[HP0 Hle]].
  - right. unfold finish_by. cbn. rewrite HP. pose proof (npend_nonneg (rows_of (w_db w) g)).
    unfold per_epoch in *. rot_consts. nia.
  - left. split; [|done]. split; [done|]. cbn. intros s e He. apply Hr in He as [Hs' He].
    destruct s; [by apply (proj1 (npend_zero _) HP0) in He|done|done].
Qed.

(** Outcome of a sweep that holds an unpromoted tracker of the live epoch. *)
Lemma sweep_advance w g env t now d limit :
  sweep_clean env -> 0 <= d -> now <= sw_read_at env -> write_now (sw_drive env) <= now + d ->
  epochs_fit (rows_of (w_db w) g) -> settled_slot w g env = Some t ->
  promoted_at t = None -> installed_at t <= write_now (sw_drive env) ->
  select_live_pending (ordered (rows_of (w_db w) g)) = Some (pending_epoch t, prior_active_epoch t) ->
  now <= started_at t + ABORT_AFTER + d ->
  started_at t + npend (rows_of (w_db w) g) * per_epoch d + RETIRE_GRACE + d <= limit ->
  progress d now (write_now (sw_drive env)) (view w g) (view (sweep_gateway w g env) g) limit.
Proof.
  intros Hc Hd Hn Hend Hf Hset Hprom Hinst Hsel Hst Hlim.
  pose proof (sweep_effect w g env Hc) as Heff. cbv zeta in Heff. rewrite Hset in Heff.
  destruct Heff as [-> Hv]. pose proof (sc_ok _ Hc) as (Ho1 & Ho2 & Ho3).
  destruct (select_some _ _ _ Hf Hsel) as [Hpend Hprior]. pose proof (npend_pos _ _ Hpend) as HP1.
  pose proof (decide_sound g (rows_of (w_db w) g) (connected (sw_drive env)) t
                (decide_now (sw_drive env)) Hf) as Hs.
  pose proof (decide_wait g (rows_of (w_db w) g) (connected (sw_drive env)) t
                (decide_now (sw_drive env))) as Hw.
  change (rotation_decide _ _) with (sweep_decision w g env t) in Hs, Hw.
  destruct (sweep_decision w g env t) as [|e|e| |e why]; cbn [execute] in Hv.
  - specialize (Hw eq_refl). rewrite Hprom in Hw. injection Hv as Hr1 Hs1.
    rewrite sweep_orphans_held by (cbn in Hs1; congruence). unfold view. rewrite Hr1, Hs1.
    apply progress_wait; try done; lia.
  - destruct Hs as (-> & _ & Hreal & _). unfold promote_epoch in Hv. rewrite Hreal in Hv.
    cbn [slot_after] in Hv. rewrite apply_effect_same, rows_of_commit_eq in Hv. injection Hv as Hr1 Hs1.
    rewrite sweep_orphans_held by congruence. unfold view. rewrite Hr1, Hs1.
    apply progress_promote; try done; lia.
  - by destruct Hs as (_ & s & Hs & _); rewrite Hprom in Hs.
  - by destruct Hs as (_ & s & Hs); rewrite Hprom in Hs.
  - destruct Hs as (-> & _ & _ & Hdue). unfold drop_pending_epoch in Hv.
    destruct Hpend as [p Hp]. rewrite Hp in Hv. cbn [slot_after] in Hv.
    rewrite apply_effect_same, rows_of_commit_eq in Hv. injection Hv as Hr1 Hs1.
    apply progress_orphans; [done..| |]; rewrite Hr1.
    + eapply epochs_fit_sub; [exact Hf|]. intros s k Hk. apply delete_in_state in Hk as [_ Hk]. by exists s.
    + left. rewrite (npend_remove (rows_of (w_db w) g) _ (pending_epoch t)).
      * unfold per_epoch in *. rot_consts. nia.
      * by exists p.
      * intros e'. by rewrite delete_in_state.
Qed.

(** Outcome of a sweep once nothing is pending. *)
Lemma sweep_settles w g env now d :
  sweep_clean env -> 0 <= d -> now <= sw_read_at env -> write_now (sw_drive env) <= now + d ->
  swept d now (view w g) -> select_live_pending (ordered (rows_of (w_db w) g)) = None ->
  progress d now (write_now (sw_drive env)) (view w g) (view (sweep_gateway w g env) g)
    (finish_by d now (view w g)).
Proof.
  intros Hc Hd Hn Hend [Hf Hinst Hun Hpr] Hsel. cbn in *.
  pose proof (proj2 (npend_zero _) (select_none _ Hsel)) as HP0.
  pose proof (sweep_effect w g env Hc) as Heff. cbv zeta in Heff.
  rewrite settled_slot_spec in Heff by (intros t Ht; specialize (Hinst t Ht); lia).
  unfold all_keys_for_gateway in Heff. rewrite Hsel in Heff.
  destruct Heff as [-> Hv]. pose proof (sc_ok _ Hc) as (Ho1 & Ho2 & Ho3).
  unfold finish_by. cbn. rewrite HP0. destruct (rotations w !! g) as [t|] eqn:Hslot.
  - specialize (Hun t eq_refl). destruct (promoted_at t) as [s|] eqn:Hprom; [|by destruct (Hun eq_refl); congruence].
    destruct (Hpr t s eq_refl Hprom) as (Hact & Hprior & Htime). specialize (Htime HP0). cbn.
    pose proof (decide_sound g (rows_of (w_db w) g) (connected (sw_drive env)) t
                  (decide_now (sw_drive env)) Hf) as Hs.
    pose proof (decide_wait g (rows_of (w_db w) g) (connected (sw_drive env)) t
                  (decide_now (sw_drive env))) as Hw.
    change (rotation_decide _ _) with (sweep_decision w g env t) in Hs, Hw.
    destruct (sweep_decision w g env t) as [|e|e| |e why]; cbn [execute] in Hv;
      try (by destruct Hs as (_ & Hs & _); rewrite Hprom in Hs).
    + specialize (Hw eq_refl). rewrite Hprom in Hw. destruct Hw as [_ Hw]. injection Hv as Hr1 Hs1.
      rewrite sweep_orphans_held by (cbn in Hs1; congruence). unfold view at 2. rewrite Hr1, Hs1. split.
      * constructor; cbn; [done|intros ? [= <-]; specialize (Hinst t eq_refl); lia|intros ? [= <-]; congruence|].
        intros ? s' [= <-] Hs'. rewrite Hprom in Hs'. injection Hs' as <-. split_and!; [done..|]. intros _. lia.
      * right. unfold finish_by. cbn. rewrite Hprom, HP0. cbn. split; [done|]. rot_consts. lia.
    + destruct Hs as (Hq & _). unfold retire_epoch in Hv. destruct (Hprior e Hq) as [p Hp].
      rewrite Hp in Hv. cbn [slot_after] in Hv. rewrite apply_effect_same, rows_of_commit_eq in Hv.
      injection Hv as Hr1 Hs1. apply progress_orphans; [done..| |right]; rewrite Hr1.
      * eapply epochs_fit_sub; [exact Hf|]. intros st k Hk. apply delete_in_state in Hk as [_ Hk]. by exists st.
      * split; [|lia]. rewrite npend_zero. intros k [_ Hk]%delete_in_state.
        by apply (proj1 (npend_zero _) HP0) in Hk.
    + cbn [slot_after] in Hv. rewrite apply_effect_same in Hv. injection Hv as Hr1 Hs1.
      apply progress_orphans; [done..|by rewrite Hr1|right; rewrite Hr1; lia].
  - injection Hv as Hr1 Hs1. apply progress_orphans; [done..|by rewrite Hr1|right; rewrite Hr1].
    unfold RETIRE_GRACE, secs, NANOS_PER_SEC. lia.
Qed.

Lemma sweep_progress w g env now d :
  sweep_clean env -> 0 <= d -> now <= sw_read_at env -> write_now (sw_drive env) <= now + d ->
  swept d now (view w g) ->
  progress d now (write_now (sw_drive env)) (view w g) (view (sweep_gateway w g env) g)
    (finish_by d now (view w g)).
Proof.
  intros Hc Hd Hn Hend Hsw. pose proof Hsw as [Hf Hinst Hun Hpr]. cbn in *.
  destruct (select_live_pending (ordered (rows_of (w_db w) g))) as [[e prior]|] eqn:Hsel;
    [|by apply sweep_settles].
  destruct (select_some _ _ _ Hf Hsel) as [Hpend _].
  pose proof (sc_ok _ Hc) as (Ho1 & Ho2 & Ho3).
  pose proof (settled_slot_spec w g env ltac:(intros t Ht; specialize (Hinst t Ht); lia)) as Hset.
  unfold all_keys_for_gateway in Hset. rewrite Hsel in Hset.
  assert (1 <= npend (rows_of (w_db w) g)) as Hp1.
  { pose proof (npend_nonneg (rows_of (w_db w) g)).
    assert (npend (rows_of (w_db w) g) <> 0); [|lia]. rewrite npend_zero. intros H0. by apply (H0 _ Hpend). }
  (* A freshly seeded tracker. *)
  assert (settled_slot w g env = Some (fresh_tracker e prior (sw_seed_now env)) ->
    finish_by d now (view w g) = now + d + npend (rows_of (w_db w) g) * per_epoch d + RETIRE_GRACE + d ->
    progress d now (write_now (sw_drive env)) (view w g) (view (sweep_gateway w g env) g)
      (finish_by d now (view w g))) as Hfresh.
  { intros Hs ->. eapply sweep_advance; try done; cbn; try (rot_consts; lia). }
  destruct (rotations w !! g) as [t|] eqn:Hslot.
  - destruct (Z.eqb_spec (pending_epoch t) e) as [Heq|Hne].
    + destruct (promoted_at t) as [s|] eqn:Hprom.
      * destruct (Hpr t s eq_refl Hprom) as (Hact & _). rewrite Heq in Hact.
        by pose proof (in_state_unique _ _ _ _ Hact Hpend).
      * destruct (Hun t eq_refl Hprom) as [Hsel' Hst]. assert (Some (e, prior) = Some (pending_epoch t, prior_active_epoch t)) as [= -> ->] by congruence.
        unfold finish_by, view at 3. cbn. rewrite Hslot, Hprom.
        eapply sweep_advance; try done; cbn; specialize (Hinst t eq_refl); lia.
    + apply Hfresh; [done|]. unfold finish_by, view. cbn. rewrite Hslot.
      destruct (promoted_at t) as [s|] eqn:Hprom.
      * destruct (Z.eqb_spec (npend (rows_of (w_db w) g)) 0); [lia|done].
      * destruct (Hun t eq_refl Hprom) as [Hsel' _]. exfalso. apply Hne. congruence.
  - apply Hfresh; [done|]. unfold finish_by, view. cbn. by rewrite Hslot.
Qed.

Lemma finished_stays w g env now d :
  sweep_clean env -> 0 <= d -> now <= sw_read_at env -> write_now (sw_drive env) <= now + d ->
  swept d now (view w g) -> finished (view w g) -> finished (view (sweep_gateway w g env) g).
Proof.
  intros Hc Hd Hn Hend [Hf _ _ _] [Hslot Hact]. cbn in *.
  assert (select_live_pending (ordered (rows_of (w_db w) g)) = None) as Hsel.
  { destruct (select_live_pending _) as [[e prior]|] eqn:Hsel; [|done].
    destruct (select_some _ _ _ Hf Hsel) as [Hp _]. by apply Hact in Hp. }
  pose proof (sweep_effect w g env Hc) as Heff. cbv zeta in Heff.
  rewrite settled_slot_spec in Heff by (intros; congruence).
  unfold all_keys_for_gateway in Heff. rewrite Hsel, Hslot in Heff. destruct Heff as [-> Hv].
  injection Hv as Hr1 Hs1. rewrite <- Hr1 in Hf.
  destruct (orphans_clean _ g env (sc_reread _ Hc) (sc_orphan _ Hc) Hf Hs1) as [Hs2 Hr2].
  split; [done|]. cbn. intros s e He. apply Hr2 in He as [_ He]. rewrite Hr1 in He. by eapply Hact.
Qed.

(** ** Convergence *)

Definition sweeps (w : World) (g : Z) (envs : list SweepEnv) : World :=
  foldl (fun w env => sweep_gateway w g env) w envs.

(** Sweeps without failures, each over within [d] of the one before. *)
Fixpoint swept_every (d now : Z) (envs : list SweepEnv) : Prop :=
  match envs with
  | [] => True
  | env :: envs' =>
      sweep_clean env /\ now <= sw_read_at env /\ write_now (sw_drive env) <= now + d /\
      swept_every d (write_now (sw_drive env)) envs'
  end.

Definition sweeps_end (now : Z) (envs : list SweepEnv) : Z :=
  foldl (fun _ env => write_now (sw_drive env)) now envs.

Lemma sweeps_finish_aux g d limit envs : 0 <= d -> forall w now,
  swept d now (view w g) -> swept_every d now envs ->
  finished (view w g) \/ (finish_by d now (view w g) <= limit /\ now < finish_by d now (view w g)) ->
  limit <= sweeps_end now envs ->
  finished (view (sweeps w g envs) g).
Proof.
  intros Hd. induction envs as [|env envs IH]; intros w now Hsw He Hor Hend; cbn in *.
  - destruct Hor as [?|?]; [done|lia].
  - destruct He as (Hc & Hn & Hw & He).
    pose proof (sweep_progress w g env now d Hc Hd Hn Hw Hsw) as [Hsw' Hpr].
    apply (IH _ (write_now (sw_drive env))); [done|done| |done].
    destruct Hor as [Hfin|[Hle Hlt]].
    + left. by apply (finished_stays w g env now d).
    + destruct Hpr as [[Hfin _]|[Hle' Hlt']]; [by left|right; lia].
Qed.


(** ** Witnesses *)

Definition fits_check (w : World) (g : Z) (l : list Act) : bool :=
  forallb (fun k => bool_decide (map_Forall (fun e _ => 0 <= e < 2 ^ 32)
                                   (rows_of (w_db (acts w (take k l))) g))) (seq 0 (S (length l))).

Lemma fits_check_sound w g l : fits_check w g l = true -> fits_along w g l.
Proof.
  intros Hc k. unfold fits_check in Hc. rewrite forallb_forall in Hc.
  assert (In (k `min` length l)%nat (seq 0 (S (length l)))) as Hin by (apply in_seq; lia).
  specialize (Hc _ Hin). apply bool_decide_eq_true in Hc.
  assert (take (k `min` length l) l = take k l) as Heq.
  { destruct (decide (k <= length l)%nat).
    - by replace (k `min` length l)%nat with k by lia.
    - replace (k `min` length l)%nat with (length l) by lia. by rewrite firstn_all, take_ge by lia. }
  rewrite Heq in Hc. intros e [r Hr]. exact (Hc e r Hr).
Qed.

Definition sample_world : World :=
  {| w_db := {| gateway_status := {[ 1 := "active" ]};
                gateway_key := {[ 1 := {[ 0 := {| row_pubkey := "K0"; row_state := Active |} ]} ]};
                revision := 1; audit_log := [] |};
     rotations := ∅; w_events := [] |}.

Definition env_at (t : Z) (peers : gset Z) : DriveEnv :=
  {| read_at := t; seed_now := t; decide_now := t; write_now := t;
     read_fault := false; cas_fault := false; emit_fault := false; connected := peers |}.

Definition sweep_at (t : Z) (peers : gset Z) : SweepEnv :=
  {| sw_read_at := t; sw_seed_now := t; sw_read_fault := false; sw_drive := env_at t peers;
     sw_reread_fault := false; sw_orphan_fault := fun _ => false; sw_emit_fault := fun _ => false |}.

(** One rotation: directive, submission, ack by gateway 2, promote, retire. *)
Definition sample_rotation : list Act :=
  [ARotate (secs 1) 1 "operator" "ts"; ADrive 1 (env_at (secs 2) {[ 1; 2 ]});
   ASubmit (secs 3) 1 1 "K1";
   AAcks (secs 4) 2 [{| peer_gateway_id := 1; ack_epoch := 1; live := true |}] (fun _ => false);
   ADrive 1 (env_at (secs 5) {[ 1; 2 ]}); ASweep 1 (sweep_at (secs 10) {[ 1; 2 ]})].

Definition sample_retire : Act := ASweep 1 (sweep_at (secs 36) {[ 1; 2 ]}).

Lemma sample_timely : timely 0 (sample_rotation ++ [sample_retire]).
Proof. repeat split; cbn; unfold secs, NANOS_PER_SEC; lia. Qed.

Lemma sample_fits : fits_along sample_world 1 (sample_rotation ++ [sample_retire]).
Proof. apply fits_check_sound. by vm_compute. Qed.

Lemma controller_refines_lifecycle_witness :
  lsteps 0 (view sample_world 1) (secs 36)
    (view (acts sample_world (sample_rotation ++ [sample_retire])) 1).
Proof.
  apply (controller_refines_lifecycle sample_world 1 0 (sample_rotation ++ [sample_retire])).
  - apply sample_timely.
  - apply sample_fits.
Defined.

Lemma one_active_key_witness :
  exists e p,
    rows_of (w_db (acts sample_world (sample_rotation ++ [sample_retire]))) 1 !! e
      = Some {| row_pubkey := p; row_state := Active |} /\
    p <> AWAITING_SUBMISSION_SENTINEL /\
    forall e', in_state Active (rows_of (w_db (acts sample_world (sample_rotation ++ [sample_retire]))) 1) e'
      -> e' = e.
Proof.
  apply (one_active_key sample_world 1 0 _ sample_timely sample_fits).
  - assert (forall e p s, rows_of (w_db sample_world) 1 !! e = Some {| row_pubkey := p; row_state := s |} ->
      e = 0 /\ p = "K0") as H.
    { intros e p s Hl. change (rows_of (w_db sample_world) 1) with
        ({[ 0 := {| row_pubkey := "K0"; row_state := Active |} ]} : gmap Z KeyRow) in Hl.
      apply lookup_singleton_Some in Hl as [<- [= <- _]]. done. }
    constructor.
    + intros e1 e2 [p1 H1] [p2 H2]. apply H in H1 as [-> _], H2 as [-> _]. done.
    + intros e p s Hl _. apply H in Hl as [_ ->]. done.
  - exists 0, "K0". by vm_compute.
Defined.

Lemma serving_keys_get_their_grace_witness :
  exists tau, clock_after 0 sample_rotation <= tau <= act_end sample_retire /\
    forall pre post, sample_rotation = pre ++ post -> tau - RETIRE_GRACE < clock_after 0 pre ->
      in_state Retiring (rows_of (w_db (acts sample_world pre)) 1) 0.
Proof.
  apply (serving_keys_get_their_grace sample_world 1 0 sample_rotation sample_retire 0
           sample_timely sample_fits).
  - by vm_compute.
  - right. exists "K0". by vm_compute.
  - by vm_compute.
Defined.

(** Two stacked rotations: an orphaned sentinel and a submitted key. *)
Definition stacked_world : World :=
  {| w_db := {| gateway_status := {[ 1 := "active" ]};
                gateway_key := {[ 1 := {[ 0 := {| row_pubkey := "K0"; row_state := Active |};
                                          1 := sentinel_row;
                                          2 := {| row_pubkey := "K2"; row_state := Pending |} ]} ]};
                revision := 1; audit_log := [] |};
     rotations := ∅; w_events := [] |}.

Definition sample_sweeps : list SweepEnv :=
  map (fun k => sweep_at (secs (10 * Z.of_nat k)) {[ 1; 2 ]}) (seq 1 80).

Lemma sample_swept_every n : forall k,
  swept_every (secs 10) (secs (10 * Z.of_nat k))
    (map (fun k => sweep_at (secs (10 * Z.of_nat k)) {[ 1; 2 ]}) (seq (S k) n)).
Proof.
  induction n as [|n IH]; intros k; cbn [seq map swept_every]; [done|].
  split_and!; [constructor; try done; unfold env_ok; cbn; lia|cbn; unfold secs, NANOS_PER_SEC; lia..|].
  apply IH.
Qed.


(** Two rotations stacked, both keys submitted, epoch 2 acked and promoted. *)
Definition stacked_rotations : list Act :=
  [ARotate (secs 1) 1 "operator" "ts"; ASubmit (secs 2) 1 1 "K1";
   ARotate (secs 3) 1 "operator" "ts"; ASubmit (secs 4) 1 2 "K2";
   ADrive 1 (env_at (secs 5) {[ 1; 2 ]});
   AAcks (secs 6) 2 [{| peer_gateway_id := 1; ack_epoch := 2; live := true |}] (fun _ => false);
   ADrive 1 (env_at (secs 7) {[ 1; 2 ]})].

(** An older epoch can be promoted over a newer one. After
    [stacked_rotations] epoch 2 is active and epoch 1, its key submitted, is
    still pending; the driver takes epoch 1 for the live rotation, promotes it
    90 s later without a single ack for it, and deletes epoch 2. *)
Theorem superseded_epoch_promoted :
  all_keys_for_gateway (w_db (acts sample_world stacked_rotations)) 1
    = [(0, "K0", Retiring); (1, "K1", Pending); (2, "K2", Active)] /\
  all_keys_for_gateway
    (w_db (sweeps (acts sample_world stacked_rotations) 1
             (map (fun k => sweep_at (secs (10 * Z.of_nat k)) {[ 1; 2 ]}) (seq 1 15)))) 1
    = [(1, "K1", Active)].
Proof. split; by vm_compute. Qed.
