(* ===== verification/CtlStore.v ===== *)
(** * Controller: the tables and their transactions

    [crates/wiremesh-controller/src/db.rs].  Each table is a list of rows in
    rowid order (an [INTEGER PRIMARY KEY] takes the largest rowid plus one); the
    key rows are those of CtlKeys.  A transaction is a function on the store that
    returns a value and the new store or an error; [commit] keeps the old store
    on an error, as the rollback does.  UNIQUE and FOREIGN KEY constraints the
    statements can violate are checks that fail with [SqlError].  Text columns
    compare by bytes.  SQLite itself and [serde_json] (the audit texts) are
    parameters of the model. *)
From Stdlib Require Import ZArith Lia Ascii.
From stdpp Require Import sorting.
From S2P Require Import Prelude StdNet IpNet CtlKeys.
Open Scope Z_scope.

(** ** Rows *)

Record SegmentRow : Type := { sg_id : Z; sg_name : string }.

Record CidrRow : Type := { cd_segment : Z; cd_cidr : string }.

Record GatewayRec : Type := {
  gw_id : Z;
  gw_segment : Z;
  gw_name : string;
  gw_status : string;
  gw_applied_version : option Z;
  gw_observe_key : option string;
  gw_candidate_endpoint : option string;
  gw_version : option string;
  gw_max_ir_schema : option Z }.

Record CandidateRow : Type := { gc_gateway : Z; gc_endpoint : string }.

Record RelayRec : Type := {
  rl_id : Z; rl_name : string; rl_endpoint : string; rl_status : string; rl_version : option string }.

Record CertRec : Type := {
  ct_serial : string;
  ct_subject_kind : string;
  ct_subject_id : Z;
  ct_issuer_handle : string;
  ct_not_after : string;
  ct_revoked_at : option string }.

Record TokenRec : Type := {
  tk_id : string;
  tk_secret_hash : string;
  tk_kind : string;
  tk_bound_cidrs : string;
  tk_rebind_segment_id : option Z;
  tk_expires_at : string;
  tk_used_at : option string }.

Record ApiTokenRec : Type := {
  at_id : string; at_name : string; at_role : string; at_secret_hash : string;
  at_expires_at : option string; at_revoked_at : option string }.

Record PolicyVersionRow : Type := {
  pv_version : Z; pv_source_yaml : string; pv_compiled_ir : string; pv_fingerprint : string;
  pv_created_by : string; pv_created_at : string }.

Record PolicyRuleRow : Type := {
  pr_version : Z; pr_block_ord : nat; pr_rule_ord : nat; pr_action : string;
  pr_src : string; pr_dst : string; pr_proto : string; pr_ports : option string }.

Record Store : Type := {
  segment : list SegmentRow;
  cidr : list CidrRow;
  gateway : list GatewayRec;
  gateway_candidate : list CandidateRow;
  key_rows : gmap Z Rows;
  relay : list RelayRec;
  certificate : list CertRec;
  enrollment_token : list TokenRec;
  api_token : list ApiTokenRec;
  policy_versions : list PolicyVersionRow;
  policy_rule : list PolicyRuleRow;
  state_revision : Z;
  audit_rows : list AuditEntry }.

(** A fresh database after [run_migrations]. *)
Definition empty_store : Store :=
  {| segment := []; cidr := []; gateway := []; gateway_candidate := []; key_rows := ∅; relay := [];
     certificate := []; enrollment_token := []; api_token := []; policy_versions := [];
     policy_rule := []; state_revision := 0; audit_rows := [] |}.

(** ** Transactions *)

Inductive DbError : Type :=
| SqlError
| EmptyCidrs (segment : string)
| OverlapError (conflicting_segment : string)
| BadStoredCidr (text : string)
| PolicyRejected (errors : list string)
| Bail (msg : string)
| DbPanic.

Definition tx (E A : Type) : Type := Store -> result E (A * Store).

#[export] Instance tx_ret (E : Type) : MRet (tx E) := fun A a s => Ok (a, s).
#[export] Instance tx_bind (E : Type) : MBind (tx E) :=
  fun A B k m s => match m s with Ok (a, s') => k a s' | Err e => Err e end.

Definition fail {E A : Type} (e : E) : tx E A := fun s => Err e.
Definition get {E : Type} : tx E Store := fun s => Ok (s, s).
Definition modify {E : Type} (f : Store -> Store) : tx E unit := fun s => Ok (tt, f s).
Definition ensure {E : Type} (b : bool) (e : E) : tx E unit := if b then mret tt else fail e.

(** [tx.commit()], or the rollback that leaves the database as it was. *)
Definition commit {E A : Type} (m : tx E A) (s : Store) : result E A * Store :=
  match m s with Ok (a, s') => (Ok a, s') | Err e => (Err e, s) end.

Definition set_segments (l : list SegmentRow) (s : Store) : Store :=
  {| segment := l; cidr := cidr s; gateway := gateway s; gateway_candidate := gateway_candidate s;
     key_rows := key_rows s; relay := relay s; certificate := certificate s;
     enrollment_token := enrollment_token s; api_token := api_token s;
     policy_versions := policy_versions s; policy_rule := policy_rule s;
     state_revision := state_revision s; audit_rows := audit_rows s |}.
Definition set_cidrs (l : list CidrRow) (s : Store) : Store :=
  {| segment := segment s; cidr := l; gateway := gateway s; gateway_candidate := gateway_candidate s;
     key_rows := key_rows s; relay := relay s; certificate := certificate s;
     enrollment_token := enrollment_token s; api_token := api_token s;
     policy_versions := policy_versions s; policy_rule := policy_rule s;
     state_revision := state_revision s; audit_rows := audit_rows s |}.
Definition set_gateways (l : list GatewayRec) (s : Store) : Store :=
  {| segment := segment s; cidr := cidr s; gateway := l; gateway_candidate := gateway_candidate s;
     key_rows := key_rows s; relay := relay s; certificate := certificate s;
     enrollment_token := enrollment_token s; api_token := api_token s;
     policy_versions := policy_versions s; policy_rule := policy_rule s;
     state_revision := state_revision s; audit_rows := audit_rows s |}.
Definition set_candidates (l : list CandidateRow) (s : Store) : Store :=
  {| segment := segment s; cidr := cidr s; gateway := gateway s; gateway_candidate := l;
     key_rows := key_rows s; relay := relay s; certificate := certificate s;
     enrollment_token := enrollment_token s; api_token := api_token s;
     policy_versions := policy_versions s; policy_rule := policy_rule s;
     state_revision := state_revision s; audit_rows := audit_rows s |}.
Definition set_key_rows (m : gmap Z Rows) (s : Store) : Store :=
  {| segment := segment s; cidr := cidr s; gateway := gateway s; gateway_candidate := gateway_candidate s;
     key_rows := m; relay := relay s; certificate := certificate s;
     enrollment_token := enrollment_token s; api_token := api_token s;
     policy_versions := policy_versions s; policy_rule := policy_rule s;
     state_revision := state_revision s; audit_rows := audit_rows s |}.
Definition set_relays (l : list RelayRec) (s : Store) : Store :=
  {| segment := segment s; cidr := cidr s; gateway := gateway s; gateway_candidate := gateway_candidate s;
     key_rows := key_rows s; relay := l; certificate := certificate s;
     enrollment_token := enrollment_token s; api_token := api_token s;
     policy_versions := policy_versions s; policy_rule := policy_rule s;
     state_revision := state_revision s; audit_rows := audit_rows s |}.
Definition set_certificates (l : list CertRec) (s : Store) : Store :=
  {| segment := segment s; cidr := cidr s; gateway := gateway s; gateway_candidate := gateway_candidate s;
     key_rows := key_rows s; relay := relay s; certificate := l;
     enrollment_token := enrollment_token s; api_token := api_token s;
     policy_versions := policy_versions s; policy_rule := policy_rule s;
     state_revision := state_revision s; audit_rows := audit_rows s |}.
Definition set_enrollment_tokens (l : list TokenRec) (s : Store) : Store :=
  {| segment := segment s; cidr := cidr s; gateway := gateway s; gateway_candidate := gateway_candidate s;
     key_rows := key_rows s; relay := relay s; certificate := certificate s;
     enrollment_token := l; api_token := api_token s;
     policy_versions := policy_versions s; policy_rule := policy_rule s;
     state_revision := state_revision s; audit_rows := audit_rows s |}.
Definition set_api_tokens (l : list ApiTokenRec) (s : Store) : Store :=
  {| segment := segment s; cidr := cidr s; gateway := gateway s; gateway_candidate := gateway_candidate s;
     key_rows := key_rows s; relay := relay s; certificate := certificate s;
     enrollment_token := enrollment_token s; api_token := l;
     policy_versions := policy_versions s; policy_rule := policy_rule s;
     state_revision := state_revision s; audit_rows := audit_rows s |}.
Definition set_policy (vs : list PolicyVersionRow) (rs : list PolicyRuleRow) (s : Store) : Store :=
  {| segment := segment s; cidr := cidr s; gateway := gateway s; gateway_candidate := gateway_candidate s;
     key_rows := key_rows s; relay := relay s; certificate := certificate s;
     enrollment_token := enrollment_token s; api_token := api_token s;
     policy_versions := vs; policy_rule := rs;
     state_revision := state_revision s; audit_rows := audit_rows s |}.
Definition set_revision (r : Z) (s : Store) : Store :=
  {| segment := segment s; cidr := cidr s; gateway := gateway s; gateway_candidate := gateway_candidate s;
     key_rows := key_rows s; relay := relay s; certificate := certificate s;
     enrollment_token := enrollment_token s; api_token := api_token s;
     policy_versions := policy_versions s; policy_rule := policy_rule s;
     state_revision := r; audit_rows := audit_rows s |}.
Definition set_audit (l : list AuditEntry) (s : Store) : Store :=
  {| segment := segment s; cidr := cidr s; gateway := gateway s; gateway_candidate := gateway_candidate s;
     key_rows := key_rows s; relay := relay s; certificate := certificate s;
     enrollment_token := enrollment_token s; api_token := api_token s;
     policy_versions := policy_versions s; policy_rule := policy_rule s;
     state_revision := state_revision s; audit_rows := l |}.

(** [bump_revision_tx]: the new revision. *)
Definition bump {E : Type} : tx E Z := fun s =>
  let r := state_revision s + 1 in Ok (r, set_revision r s).

Definition record_audit {E : Type} (ts actor action entity diff : string) : tx E unit :=
  modify (fun s => set_audit (audit_rows s ++
    [{| au_ts := ts; au_actor := actor; au_action := action; au_entity := entity; au_diff := diff |}]) s).

(** The rowid SQLite gives a new row. *)
Definition next_id (ids : list Z) : Z := 1 + foldr Z.max 0 ids.

(** [a > b] on text columns. *)
Definition text_gt (a b : string) : bool := String.ltb b a.

Definition status_is (st : string) (g : GatewayRec) : bool := bool_decide (gw_status g = st).
Definition gw_active (g : GatewayRec) : bool := status_is "active" g.

(** The join with [segment]. *)
Definition segment_name (s : Store) (id : Z) : option string :=
  sg_name <$> List.find (fun r => sg_id r =? id) (segment s).

(** [serde_json::json!] objects of strings and string arrays, printed by the
    JSON library. *)
Inductive JsonVal : Type := JStr (s : string) | JArr (l : list string).
Class JsonText := json : list (string * JsonVal) -> string.

Section store.
Context {N : Ipv4NetApi} {J : JsonText}.

(** ** Segments *)

(** [Ipv4Net::contains(&Ipv4Addr)]. *)
Definition net_has_addr_b (n : ipv4net) (x : Z) : bool := bool_decide (net_has n x).

Definition overlaps (a b : ipv4net) : bool :=
  net_has_addr_b a (net_network b) || net_has_addr_b b (net_network a).

(** The scan of the other segments' stored CIDRs for one that overlaps. *)
Fixpoint find_conflict (c : ipv4net) (rows : list (string * string)) : result DbError (option string) :=
  match rows with
  | [] => Ok None
  | (text, seg) :: rows' =>
      match net_parse text with
      | None => Err (BadStoredCidr text)
      | Some existing => if overlaps c existing then Ok (Some seg) else find_conflict c rows'
      end
  end.

Definition other_cidrs (s : Store) (segment_id : Z) : list (string * string) :=
  omap (fun r => if cd_segment r =? segment_id then None
                 else (fun n => (cd_cidr r, n)) <$> segment_name s (cd_segment r)) (cidr s).

Fixpoint insert_cidrs_loop (segment_id : Z) (name : string) (accepted cidrs : list ipv4net) :
    tx DbError unit :=
  match cidrs with
  | [] => mret tt
  | c :: rest =>
      if existsb (overlaps c) accepted then fail (OverlapError name)
      else
        s ← get;
        match find_conflict c (other_cidrs s segment_id) with
        | Err e => fail e
        | Ok (Some seg) => fail (OverlapError seg)
        | Ok None =>
            _ ← ensure (negb (existsb (fun r => bool_decide (cd_cidr r = net_show c)) (cidr s))) SqlError;
            _ ← modify (fun s => set_cidrs (cidr s ++ [{| cd_segment := segment_id; cd_cidr := net_show c |}]) s);
            insert_cidrs_loop segment_id name (accepted ++ [c]) rest
        end
  end.

Definition insert_cidrs_tx (segment_id : Z) (name : string) (cidrs : list ipv4net) : tx DbError unit :=
  insert_cidrs_loop segment_id name [] cidrs.

Definition insert_segment_tx (name : string) (cidrs : list ipv4net) : tx DbError Z :=
  if bool_decide (cidrs = []) then fail (EmptyCidrs name)
  else
    s ← get;
    _ ← ensure (negb (existsb (fun r => bool_decide (sg_name r = name)) (segment s))) SqlError;
    let id := next_id (map sg_id (segment s)) in
    _ ← modify (fun s => set_segments (segment s ++ [{| sg_id := id; sg_name := name |}]) s);
    _ ← insert_cidrs_tx id name cidrs;
    mret id.

Definition insert_segment (name : string) (cidrs : list ipv4net) : Store -> result DbError Z * Store :=
  commit (id ← insert_segment_tx name cidrs; _ ← bump; mret id).

Definition create_segment_audited (name : string) (cidrs : list ipv4net) (actor now : string) :
    Store -> result DbError Z * Store :=
  commit (id ← insert_segment_tx name cidrs;
          _ ← record_audit now actor "create" ("segment/" +:+ name)
                (json [("name", JStr name); ("cidrs", JArr (map net_show cidrs))]);
          _ ← bump; mret id).

Definition cidrs_for_segment (s : Store) (segment_id : Z) : list string :=
  sort_text (map cd_cidr (List.filter (fun r => cd_segment r =? segment_id) (cidr s))).

Definition list_segments (s : Store) : list (Z * string * list string) :=
  map (fun r => (sg_id r, sg_name r, cidrs_for_segment s (sg_id r))) (segment s).

(** The rows of [gateway] and [enrollment_token] reference [segment]; the
    [cidr] rows are deleted first. *)
Definition delete_segment (segment_id : Z) (actor now : string) : Store -> result DbError unit * Store :=
  commit (
    s ← get;
    _ ← ensure (existsb (fun r => sg_id r =? segment_id) (segment s))
          (Bail ("DeleteSegment: no segment row with id " +:+ show_i64 segment_id));
    _ ← ensure (negb (existsb (fun g => gw_segment g =? segment_id) (gateway s)))
          (Bail ("DeleteSegment: segment " +:+ show_i64 segment_id +:+
                 " has associated gateway row(s); drain them before deleting the segment"));
    _ ← modify (fun s => set_cidrs (List.filter (fun r => negb (cd_segment r =? segment_id)) (cidr s)) s);
    _ ← ensure (negb (existsb (fun t => bool_decide (tk_rebind_segment_id t = Some segment_id))
                        (enrollment_token s))) SqlError;
    _ ← modify (fun s => set_segments (List.filter (fun r => negb (sg_id r =? segment_id)) (segment s)) s);
    _ ← record_audit now actor "delete" ("segment/" +:+ show_i64 segment_id) "{}";
    _ ← bump; mret tt).

(** ** Gateways *)

Record GatewayIdentity : Type := { gi_id : Z; gi_segment_id : Z; gi_segment_name : string }.

Definition identity_of (s : Store) (g : GatewayRec) : option GatewayIdentity :=
  (fun n => {| gi_id := gw_id g; gi_segment_id := gw_segment g; gi_segment_name := n |})
    <$> segment_name s (gw_segment g).

Definition find_gateway (s : Store) (gateway_id : Z) : option GatewayRec :=
  List.find (fun g => gw_id g =? gateway_id) (gateway s).

Definition gateway_identity_by_id (s : Store) (gateway_id : Z) : option GatewayIdentity :=
  g ← find_gateway s gateway_id; identity_of s g.

Definition find_gateway_by_name (s : Store) (name : string) : option GatewayIdentity :=
  g ← List.find (fun g => bool_decide (gw_name g = name) && gw_active g) (gateway s); identity_of s g.

Definition gateway_is_active (s : Store) (gateway_id : Z) : bool :=
  existsb (fun g => (gw_id g =? gateway_id) && gw_active g) (gateway s).

Definition active_gateway_for_segment (s : Store) (segment_id : Z) : option Z :=
  gw_id <$> List.find (fun g => (gw_segment g =? segment_id) && gw_active g) (gateway s).

(** The active row of a gateway. *)
Definition active_gateway (s : Store) (gateway_id : Z) : option GatewayRec :=
  List.find (fun g => (gw_id g =? gateway_id) && gw_active g) (gateway s).

Definition gateway_observe_key (s : Store) (gateway_id : Z) : option string :=
  g ← active_gateway s gateway_id; gw_observe_key g.

Definition candidate_endpoint_for_gateway (s : Store) (gateway_id : Z) : option string :=
  g ← active_gateway s gateway_id; gw_candidate_endpoint g.

(** [GatewayRow]; the join keeps the gateways whose segment exists. *)
Record GatewayRow : Type := {
  gr_id : Z; gr_segment_id : Z; gr_segment_name : string; gr_candidate_endpoint : option string }.

Definition list_other_gateways (s : Store) (exclude_gateway_id : Z) : list GatewayRow :=
  omap (fun g =>
    if negb (gw_id g =? exclude_gateway_id) && gw_active g then
      (fun n => {| gr_id := gw_id g; gr_segment_id := gw_segment g; gr_segment_name := n;
                   gr_candidate_endpoint := gw_candidate_endpoint g |}) <$> segment_name s (gw_segment g)
    else None) (gateway s).

Definition list_gateways (s : Store) :
    list (Z * string * string * string * option Z * option string * option Z) :=
  omap (fun g => (fun n => (gw_id g, gw_name g, n, gw_status g, gw_applied_version g, gw_version g,
                            gw_max_ir_schema g)) <$> segment_name s (gw_segment g)) (gateway s).

(** [UPDATE gateway SET ... WHERE id = ?]. *)
Definition update_gateway (f : GatewayRec -> GatewayRec) (id : Z) (l : list GatewayRec) : list GatewayRec :=
  map (fun g => if gw_id g =? id then f g else g) l.

Definition with_status (st : string) (g : GatewayRec) : GatewayRec :=
  {| gw_id := gw_id g; gw_segment := gw_segment g; gw_name := gw_name g; gw_status := st;
     gw_applied_version := gw_applied_version g; gw_observe_key := gw_observe_key g;
     gw_candidate_endpoint := gw_candidate_endpoint g; gw_version := gw_version g;
     gw_max_ir_schema := gw_max_ir_schema g |}.

Definition with_candidate (ep : string) (g : GatewayRec) : GatewayRec :=
  {| gw_id := gw_id g; gw_segment := gw_segment g; gw_name := gw_name g; gw_status := gw_status g;
     gw_applied_version := gw_applied_version g; gw_observe_key := gw_observe_key g;
     gw_candidate_endpoint := Some ep; gw_version := gw_version g;
     gw_max_ir_schema := gw_max_ir_schema g |}.

Definition with_applied (v : Z) (g : GatewayRec) : GatewayRec :=
  {| gw_id := gw_id g; gw_segment := gw_segment g; gw_name := gw_name g; gw_status := gw_status g;
     gw_applied_version := Some v; gw_observe_key := gw_observe_key g;
     gw_candidate_endpoint := gw_candidate_endpoint g; gw_version := gw_version g;
     gw_max_ir_schema := gw_max_ir_schema g |}.

Definition with_version (v : option string) (g : GatewayRec) : GatewayRec :=
  {| gw_id := gw_id g; gw_segment := gw_segment g; gw_name := gw_name g; gw_status := gw_status g;
     gw_applied_version := gw_applied_version g; gw_observe_key := gw_observe_key g;
     gw_candidate_endpoint := gw_candidate_endpoint g; gw_version := v;
     gw_max_ir_schema := gw_max_ir_schema g |}.

Definition with_schema (n : option Z) (g : GatewayRec) : GatewayRec :=
  {| gw_id := gw_id g; gw_segment := gw_segment g; gw_name := gw_name g; gw_status := gw_status g;
     gw_applied_version := gw_applied_version g; gw_observe_key := gw_observe_key g;
     gw_candidate_endpoint := gw_candidate_endpoint g; gw_version := gw_version g;
     gw_max_ir_schema := n |}.

Definition has_gateway (s : Store) (gateway_id : Z) : bool :=
  existsb (fun g => gw_id g =? gateway_id) (gateway s).

(** [UPDATE gateway SET ... WHERE id = ?] followed by the [updated != 1] check. *)
Definition set_on_gateway (f : GatewayRec -> GatewayRec) (gateway_id : Z) (msg : string) :
    Store -> result DbError unit * Store :=
  commit (
    s ← get;
    _ ← ensure (has_gateway s gateway_id) (Bail msg);
    modify (fun s => set_gateways (update_gateway f gateway_id (gateway s)) s)).

Definition store_version (reported : string) : option string :=
  if bool_decide (reported = "") then None else Some reported.

Definition store_schema (reported : Z) : option Z := if reported =? 0 then None else Some reported.

Definition set_applied_version (gateway_id applied_version : Z) (s : Store) :
    result DbError unit * Store :=
  if applied_version <? 2 ^ 63 then
    set_on_gateway (with_applied applied_version) gateway_id
      ("Report: no gateway row with id " +:+ show_i64 gateway_id +:+ " to record applied_version on") s
  else (Err (Bail ("applied_version " +:+ show_uint applied_version +:+ " exceeds SQLite INTEGER range")), s).

Definition set_gateway_reported_version (gateway_id : Z) (version : option string) (max_ir_schema : option Z) :=
  set_on_gateway (fun g => with_schema max_ir_schema (with_version version g)) gateway_id
    ("Watch: no gateway row with id " +:+ show_i64 gateway_id +:+ " to record version on").

Definition set_gateway_version (gateway_id : Z) (version : option string) :=
  set_on_gateway (with_version version) gateway_id
    ("Enroll: no gateway row with id " +:+ show_i64 gateway_id +:+ " to record version on").

(** ** Candidate endpoints *)

Definition is_usable_candidate_endpoint (ep : string) : bool :=
  match parse_socket_v4 ep with Some _ => true | None => false end.

Definition set_candidate_endpoint (gateway_id : Z) (addr : string) :
    Store -> result DbError (option Z) * Store :=
  commit (
    s ← get;
    match active_gateway s gateway_id with
    | None => fail (Bail ("set_candidate_endpoint: no active gateway row with id " +:+ show_i64 gateway_id))
    | Some g =>
        if bool_decide (gw_candidate_endpoint g = Some addr) then mret None
        else
          _ ← modify (fun s => set_gateways
                (map (fun g => if (gw_id g =? gateway_id) && gw_active g then with_candidate addr g else g)
                   (gateway s)) s);
          r ← bump; mret (Some r)
    end).

Definition local_candidates (s : Store) (gateway_id : Z) : list string :=
  sort_text (map gc_endpoint (List.filter (fun c => gc_gateway c =? gateway_id) (gateway_candidate s))).

Definition push_candidate (out : list string) (l : string) : list string :=
  if is_usable_candidate_endpoint l && negb (bool_decide (l ∈ out)) then out ++ [l] else out.

Definition candidates_for (s : Store) (gateway_id : Z) : list string :=
  let out :=
    match candidate_endpoint_for_gateway s gateway_id with
    | Some o => if is_usable_candidate_endpoint o then [o] else []
    | None => []
    end in
  foldl push_candidate out (local_candidates s gateway_id).

(** [Vec::dedup]: drops repeated neighbours. *)
Fixpoint dedup (l : list string) : list string :=
  match l with
  | a :: ((b :: _) as l') => if bool_decide (a = b) then dedup l' else a :: dedup l'
  | _ => l
  end.

Definition set_local_candidates (gateway_id : Z) (endpoints : list string) :
    Store -> result DbError (option Z) * Store :=
  commit (
    s ← get;
    match active_gateway s gateway_id with
    | None => fail (Bail ("set_local_candidates: no active gateway row with id " +:+ show_i64 gateway_id))
    | Some _ =>
        let incoming := dedup (sort_text endpoints) in
        if bool_decide (local_candidates s gateway_id = incoming) then mret None
        else
          _ ← modify (fun s => set_candidates
                (List.filter (fun c => negb (gc_gateway c =? gateway_id)) (gateway_candidate s) ++
                 map (fun e => {| gc_gateway := gateway_id; gc_endpoint := e |}) incoming) s);
          r ← bump; mret (Some r)
    end).

(** ** Certificates *)

Definition is_live_gateway_cert (gateway_id : Z) (c : CertRec) : bool :=
  bool_decide (ct_subject_kind c = "gateway") && (ct_subject_id c =? gateway_id) &&
  bool_decide (ct_revoked_at c = None).

Definition revoke_row (now : string) (c : CertRec) : CertRec :=
  {| ct_serial := ct_serial c; ct_subject_kind := ct_subject_kind c; ct_subject_id := ct_subject_id c;
     ct_issuer_handle := ct_issuer_handle c; ct_not_after := ct_not_after c; ct_revoked_at := Some now |}.

(** [UPDATE certificate SET revoked_at = ?1 WHERE serial = ?2]. *)
Definition revoke_serial (now serial : string) (l : list CertRec) : list CertRec :=
  map (fun c => if bool_decide (ct_serial c = serial) then revoke_row now c else c) l.

Definition live_certs (s : Store) (gateway_id : Z) : list CertRec :=
  List.filter (is_live_gateway_cert gateway_id) (certificate s).

(** Revoke every live certificate of a gateway, serial by serial. *)
Definition revoke_live_certs (gateway_id : Z) (now : string) : tx DbError (list CertRec) :=
  s ← get;
  let certs := live_certs s gateway_id in
  _ ← modify (fun s => set_certificates
        (foldl (fun l c => revoke_serial now (ct_serial c) l) (certificate s) certs) s);
  mret certs.

Definition drain_gateway (gateway_id : Z) (actor now : string) :
    Store -> result DbError (list string) * Store :=
  commit (
    s ← get;
    _ ← ensure (has_gateway s gateway_id)
          (Bail ("Drain: no gateway row with id " +:+ show_i64 gateway_id +:+ " to drain"));
    certs ← revoke_live_certs gateway_id now;
    let serials := map ct_serial certs in
    _ ← modify (fun s => set_gateways (update_gateway (with_status "removed") gateway_id (gateway s)) s);
    _ ← record_audit now actor "drain" ("gateway/" +:+ show_i64 gateway_id)
          ("{" +:+ debug_str "gateway_id" +:+ ":" +:+ show_i64 gateway_id +:+ "," +:+
           debug_str "revoked_serials" +:+ ":" +:+ debug_strs serials +:+ "}");
    _ ← bump; mret serials).

Definition revoke_cert (serial actor now : string) : Store -> result DbError bool * Store :=
  commit (
    s ← get;
    if existsb (fun c => bool_decide (ct_serial c = serial)) (certificate s) then
      _ ← modify (fun s => set_certificates
            (map (fun c => if bool_decide (ct_serial c = serial) && bool_decide (ct_revoked_at c = None)
                           then revoke_row now c else c) (certificate s)) s);
      _ ← record_audit now actor "revoke" ("certificate/" +:+ serial) "{}";
      _ ← bump; mret true
    else mret false).

Definition is_revoked (c : CertRec) : bool := match ct_revoked_at c with Some _ => true | None => false end.

Definition revoked_serials (s : Store) : list string :=
  sort_text (map ct_serial (List.filter is_revoked (certificate s))).

Definition revocation_snapshot (s : Store) : Z * list string := (state_revision s, revoked_serials s).

(** ** Relays *)

Definition with_relay_status (st : string) (r : RelayRec) : RelayRec :=
  {| rl_id := rl_id r; rl_name := rl_name r; rl_endpoint := rl_endpoint r; rl_status := st;
     rl_version := rl_version r |}.

Definition with_relay_version (v : option string) (r : RelayRec) : RelayRec :=
  {| rl_id := rl_id r; rl_name := rl_name r; rl_endpoint := rl_endpoint r; rl_status := rl_status r;
     rl_version := v |}.

Definition update_relay (f : RelayRec -> RelayRec) (id : Z) (l : list RelayRec) : list RelayRec :=
  map (fun r => if rl_id r =? id then f r else r) l.

(** [INSERT INTO relay]: the name is UNIQUE. *)
Definition insert_relay_tx (name endpoint : string) : tx DbError Z :=
  s ← get;
  _ ← ensure (negb (existsb (fun r => bool_decide (rl_name r = name)) (relay s))) SqlError;
  let id := next_id (map rl_id (relay s)) in
  _ ← modify (fun s => set_relays (relay s ++
        [{| rl_id := id; rl_name := name; rl_endpoint := endpoint; rl_status := "active"; rl_version := None |}]) s);
  mret id.

Definition insert_relay (name endpoint actor now : string) : Store -> result DbError Z * Store :=
  commit (
    id ← insert_relay_tx name endpoint;
    _ ← record_audit now actor "create" ("relay/" +:+ name)
          (json [("name", JStr name); ("endpoint", JStr endpoint)]);
    _ ← bump; mret id).

Definition list_relays (s : Store) : list (Z * string * string * string) :=
  map (fun r => (rl_id r, rl_name r, rl_endpoint r, rl_status r)) (relay s).

Definition active_relays (s : Store) : list (Z * string) :=
  map (fun r => (rl_id r, rl_endpoint r))
    (List.filter (fun r => bool_decide (rl_status r = "active")) (relay s)).

Definition relays_snapshot (s : Store) : list (Z * string) * Z := (active_relays s, state_revision s).

Definition relay_status (s : Store) (relay_id : Z) : option string :=
  rl_status <$> List.find (fun r => rl_id r =? relay_id) (relay s).

Definition find_relay_by_name (s : Store) (name : string) : option Z :=
  rl_id <$> List.find (fun r => bool_decide (rl_name r = name)) (relay s).

Definition set_relay_status (relay_id : Z) (st : string) : Store -> result DbError unit * Store :=
  commit (
    _ ← modify (fun s => set_relays (update_relay (with_relay_status st) relay_id (relay s)) s);
    _ ← bump; mret tt).

Definition set_relay_reported_version (relay_id : Z) (version : option string) :
    Store -> result DbError unit * Store :=
  commit (
    s ← get;
    _ ← ensure (existsb (fun r => rl_id r =? relay_id) (relay s))
          (Bail ("Watch: no relay row with id " +:+ show_i64 relay_id +:+ " to record version on"));
    modify (fun s => set_relays (update_relay (with_relay_version version) relay_id (relay s)) s)).

(** ** Operator tokens and the audit log *)

Definition insert_api_token (id name role secret_hash : string) (expires_at : option string)
    (actor now : string) : Store -> result DbError unit * Store :=
  commit (
    s ← get;
    _ ← ensure (negb (existsb (fun t => bool_decide (at_id t = id) || bool_decide (at_name t = name))
                        (api_token s))) SqlError;
    _ ← modify (fun s => set_api_tokens (api_token s ++
          [{| at_id := id; at_name := name; at_role := role; at_secret_hash := secret_hash;
              at_expires_at := expires_at; at_revoked_at := None |}]) s);
    record_audit now actor "mint" ("api_token/" +:+ name) (json [("role", JStr role)])).

Definition revoke_api_token (name actor now : string) : Store -> result DbError bool * Store :=
  commit (
    s ← get;
    if existsb (fun t => bool_decide (at_name t = name)) (api_token s) then
      _ ← modify (fun s => set_api_tokens
            (map (fun t => if bool_decide (at_name t = name) then
               {| at_id := at_id t; at_name := at_name t; at_role := at_role t;
                  at_secret_hash := at_secret_hash t; at_expires_at := at_expires_at t;
                  at_revoked_at := Some now |} else t) (api_token s)) s);
      _ ← record_audit now actor "revoke" ("api_token/" +:+ name) "{}";
      mret true
    else mret false).

Definition api_token_live (secret_hash now : string) (t : ApiTokenRec) : bool :=
  bool_decide (at_secret_hash t = secret_hash) && bool_decide (at_revoked_at t = None) &&
  match at_expires_at t with None => true | Some e => text_gt e now end.

Definition find_active_api_token (s : Store) (secret_hash now : string) : option (string * string) :=
  (fun t => (at_name t, at_role t)) <$> List.find (api_token_live secret_hash now) (api_token s).

Definition find_active_api_token_role (s : Store) (secret_hash now : string) : option string :=
  snd <$> find_active_api_token s secret_hash now.

Definition count_audit (s : Store) : Z := Z.of_nat (length (audit_rows s)).

Definition matches (filter : option string) (v : string) : bool :=
  match filter with None => true | Some f => bool_decide (v = f) end.

(** Newest first; the row id is the position. *)
Definition audit_query (s : Store) (limit : Z) (action actor entity : option string) :
    list (Z * AuditEntry) :=
  take (Z.to_nat (Z.max limit 1))
    (rev (List.filter (fun r => matches action (au_action r.2) && matches actor (au_actor r.2) &&
                                matches entity (au_entity r.2))
            (imap (fun i e => (Z.of_nat i + 1, e)) (audit_rows s)))).

(** ** Policy versions *)

Definition latest_row (l : list PolicyVersionRow) : option PolicyVersionRow :=
  foldl (fun best r => match best with
                       | Some b => if pv_version b <? pv_version r then Some r else best
                       | None => Some r end) None l.

Definition policy_version (s : Store) (version : option Z) : option PolicyVersionRow :=
  match version with
  | None => latest_row (policy_versions s)
  | Some v => List.find (fun r => pv_version r =? v) (policy_versions s)
  end.

Definition latest_policy (s : Store) : option (Z * string) :=
  (fun r => (pv_version r, pv_compiled_ir r)) <$> policy_version s None.

(** ** The key operations on the full store *)

(** The tables CtlKeys reads and writes. *)
Definition keys_db (s : Store) : Db :=
  {| gateway_status := list_to_map (map (fun g => (gw_id g, gw_status g)) (gateway s));
     gateway_key := key_rows s; revision := state_revision s; audit_log := audit_rows s |}.

Definition put_keys (db : Db) (s : Store) : Store :=
  set_audit (audit_log db) (set_revision (revision db) (set_key_rows (gateway_key db) s)).

(** A key operation of CtlKeys, run on the store. *)
Definition on_keys {A : Type} (f : Db -> A * Db) (s : Store) : A * Store :=
  let '(a, db) := f (keys_db s) in (a, put_keys db s).
End store.
