(* ===== verification/CtlEnroll.v ===== *)
(** * Controller: redeeming enrollment tokens

    [enroll_gateway], [enroll_relay] and [insert_enrollment_token] of
    [crates/wiremesh-controller/src/db.rs]: one transaction each.  The random
    observation key and the certificate's fields are arguments. *)
From Stdlib Require Import ZArith Lia Ascii.
From S2P Require Import Prelude StdNet IpNet CtlKeys CtlStore.
Open Scope Z_scope.

Inductive EnrollError : Type :=
| InvalidToken
| NoMatchingSegment
| BoundCidrMismatch
| SegmentAlreadyBound
| OtherError (e : DbError).

(** [?] on a statement: [From<rusqlite::Error>]. *)
Definition lift {A : Type} (m : tx DbError A) : tx EnrollError A := fun s =>
  match m s with Ok r => Ok r | Err e => Err (OtherError e) end.

Definition lift_result {A : Type} (r : result DbError A) : tx EnrollError A := fun s =>
  match r with Ok a => Ok (a, s) | Err e => Err (OtherError e) end.

Record EnrollOutcome : Type := {
  eo_segment_id : Z;
  eo_gateway_id : Z;
  eo_revoked_issuer_handles : list string;
  eo_revoked_serials : list string;
  eo_observe_key : string }.

Definition decode_bound_cidrs (stored : string) : list string :=
  if bool_decide (stored = "") then [] else str_split "," stored.

Definition same_set {A : Type} `{EqDecision A} (l1 l2 : list A) : bool :=
  forallb (fun x => bool_decide (x ∈ l2)) l1 && forallb (fun x => bool_decide (x ∈ l1)) l2.

Definition token_redeemable (secret_hash now : string) (kinds : list string) (t : TokenRec) : bool :=
  bool_decide (tk_secret_hash t = secret_hash) && bool_decide (tk_used_at t = None) &&
  text_gt (tk_expires_at t) now && bool_decide (tk_kind t ∈ kinds).

Definition find_token (s : Store) (secret_hash now : string) (kinds : list string) : option TokenRec :=
  List.find (token_redeemable secret_hash now kinds) (enrollment_token s).

Definition use_token (now : string) (t : TokenRec) : TokenRec :=
  {| tk_id := tk_id t; tk_secret_hash := tk_secret_hash t; tk_kind := tk_kind t;
     tk_bound_cidrs := tk_bound_cidrs t; tk_rebind_segment_id := tk_rebind_segment_id t;
     tk_expires_at := tk_expires_at t; tk_used_at := Some now |}.

Definition is_unused (id : string) (t : TokenRec) : bool :=
  bool_decide (tk_id t = id) && bool_decide (tk_used_at t = None).

(** [UPDATE enrollment_token SET used_at ... WHERE id = ? AND used_at IS NULL],
    with the [updated != 1] check. *)
Definition spend_token (token_id now : string) : tx EnrollError unit :=
  s ← get;
  _ ← ensure (length (List.filter (is_unused token_id) (enrollment_token s)) =? 1)%nat InvalidToken;
  modify (fun s => set_enrollment_tokens
    (map (fun t => if is_unused token_id t then use_token now t else t) (enrollment_token s)) s).

Section enroll.
Context {N : Ipv4NetApi} {J : JsonText}.

Definition insert_enrollment_token (id secret_hash kind bound_cidrs : string)
    (rebind_segment_id : option Z) (expires_at actor now : string) :
    Store -> result DbError unit * Store :=
  commit (
    s ← get;
    _ ← ensure (negb (existsb (fun t => bool_decide (tk_id t = id)) (enrollment_token s))) SqlError;
    _ ← ensure (bool_decide (kind ∈ ["gateway"; "relay"; "rebind"])) SqlError;
    _ ← ensure (match rebind_segment_id with
                | None => true
                | Some g => existsb (fun r => sg_id r =? g) (segment s)
                end) SqlError;
    _ ← modify (fun s => set_enrollment_tokens (enrollment_token s ++
          [{| tk_id := id; tk_secret_hash := secret_hash; tk_kind := kind; tk_bound_cidrs := bound_cidrs;
              tk_rebind_segment_id := rebind_segment_id; tk_expires_at := expires_at;
              tk_used_at := None |}]) s);
    record_audit now actor "mint" "enrollment_token" (json [("kind", JStr kind)])).

(** The bound set: every stored entry must parse. *)
Definition bound_set (stored : string) : result DbError (list ipv4net) :=
  traverse (fun c => match net_parse c with Some n => Ok n | None => Err (BadStoredCidr c) end)
    (decode_bound_cidrs stored).

(** The scope of an ordinary token: its minted CIDR set, exactly. *)
Definition check_bound (token : TokenRec) (cidrs : list ipv4net) : tx EnrollError unit :=
  bound ← lift_result (bound_set (tk_bound_cidrs token));
  _ ← ensure (negb (bool_decide (bound = []))) BoundCidrMismatch;
  ensure (same_set cidrs bound) BoundCidrMismatch.

Definition segment_of_cidr (s : Store) (c : ipv4net) : option Z :=
  cd_segment <$> List.find (fun r => bool_decide (cd_cidr r = net_show c)) (cidr s).

(** The segment that owns every declared CIDR. *)
Fixpoint resolve_segment (s : Store) (found : option Z) (cidrs : list ipv4net) : option (option Z) :=
  match cidrs with
  | [] => Some found
  | c :: rest =>
      match segment_of_cidr s c, found with
      | None, _ => None
      | Some sid, None => resolve_segment s (Some sid) rest
      | Some sid, Some existing =>
          if sid =? existing then resolve_segment s found rest else None
      end
  end.

(** Replace the active gateways of a segment, one by one. *)
Fixpoint replace_gateways (ids : list Z) (now : string) : tx EnrollError (list CertRec) :=
  match ids with
  | [] => mret []
  | id :: rest =>
      certs ← lift (revoke_live_certs id now);
      _ ← modify (fun s => set_gateways (update_gateway (with_status "replaced") id (gateway s)) s);
      more ← replace_gateways rest now;
      mret (certs ++ more)
  end.

Definition active_on_segment (s : Store) (segment_id : Z) : list Z :=
  map gw_id (List.filter (fun g => (gw_segment g =? segment_id) && gw_active g) (gateway s)).

(** The scope and occupancy check by kind; the certificates a rebind revokes. *)
Definition claim_segment (token : TokenRec) (segment_id : Z) (now : string) : tx EnrollError (list CertRec) :=
  s ← get;
  if bool_decide (tk_kind token = "rebind") then
    _ ← ensure (bool_decide (tk_rebind_segment_id token = Some segment_id)) BoundCidrMismatch;
    replace_gateways (active_on_segment s segment_id) now
  else
    _ ← ensure (bool_decide (active_on_segment s segment_id = [])) SegmentAlreadyBound;
    mret [].

Definition insert_gateway_tx (segment_id : Z) (name observe_key : string) : tx EnrollError Z :=
  s ← get;
  _ ← ensure (negb (existsb (fun g => bool_decide (gw_name g = name)) (gateway s))) (OtherError SqlError);
  let id := next_id (map gw_id (gateway s)) in
  _ ← modify (fun s => set_gateways (gateway s ++
        [{| gw_id := id; gw_segment := segment_id; gw_name := name; gw_status := "active";
            gw_applied_version := None; gw_observe_key := Some observe_key;
            gw_candidate_endpoint := None; gw_version := None; gw_max_ir_schema := None |}]) s);
  mret id.

Definition insert_certificate_tx (kind : string) (subject_id : Z) (serial handle not_after : string) :
    tx EnrollError unit :=
  s ← get;
  _ ← ensure (negb (existsb (fun c => bool_decide (ct_serial c = serial)) (certificate s)))
        (OtherError SqlError);
  modify (fun s => set_certificates (certificate s ++
    [{| ct_serial := serial; ct_subject_kind := kind; ct_subject_id := subject_id;
        ct_issuer_handle := handle; ct_not_after := not_after; ct_revoked_at := None |}]) s).

Definition baseline_pubkey (wg_pubkey : string) (gateway_id : Z) : string :=
  if bool_decide (wg_pubkey = "")
  then "placeholder-pubkey-gw" +:+ show_i64 gateway_id +:+ "-epoch0" else wg_pubkey.

Definition insert_baseline_key (gateway_id : Z) (wg_pubkey : string) : tx EnrollError unit :=
  s ← get;
  let rows := default ∅ (key_rows s !! gateway_id) in
  _ ← ensure (bool_decide (rows !! 0 = None)) (OtherError SqlError);
  modify (fun s => set_key_rows
    (<[gateway_id := <[0 := {| row_pubkey := baseline_pubkey wg_pubkey gateway_id; row_state := Active |}]>
       (default ∅ (key_rows s !! gateway_id))]> (key_rows s)) s).

Definition enroll_gateway (secret_hash : string) (cidrs : list ipv4net)
    (gateway_name wg_pubkey cert_serial issuer_handle cert_not_after now observe_key : string) :
    Store -> result EnrollError EnrollOutcome * Store :=
  commit (
    _ ← ensure (negb (bool_decide (cidrs = []))) NoMatchingSegment;
    s ← get;
    match find_token s secret_hash now ["gateway"; "rebind"] with
    | None => fail InvalidToken
    | Some token =>
        let is_rebind := bool_decide (tk_kind token = "rebind") in
        _ ← (if is_rebind then mret tt else check_bound token cidrs);
        match resolve_segment s None cidrs with
        | None => fail NoMatchingSegment
        | Some None => fail (OtherError DbPanic)
        | Some (Some segment_id) =>
            revoked ← claim_segment token segment_id now;
            gateway_id ← insert_gateway_tx segment_id gateway_name observe_key;
            _ ← insert_certificate_tx "gateway" gateway_id cert_serial issuer_handle cert_not_after;
            _ ← insert_baseline_key gateway_id wg_pubkey;
            _ ← spend_token (tk_id token) now;
            _ ← record_audit now "enrollment-token" (if is_rebind then "rebind" else "enroll")
                  ("gateway/" +:+ gateway_name)
                  ("{" +:+ debug_str "segment_id" +:+ ":" +:+ show_i64 segment_id +:+ "," +:+
                   debug_str "gateway_id" +:+ ":" +:+ show_i64 gateway_id +:+ "}");
            _ ← bump;
            mret {| eo_segment_id := segment_id; eo_gateway_id := gateway_id;
                    eo_revoked_issuer_handles := map ct_issuer_handle revoked;
                    eo_revoked_serials := map ct_serial revoked; eo_observe_key := observe_key |}
        end
    end).

Definition enroll_relay (secret_hash relay_name endpoint cert_serial issuer_handle cert_not_after now : string) :
    Store -> result EnrollError Z * Store :=
  commit (
    s ← get;
    match find_token s secret_hash now ["relay"] with
    | None => fail InvalidToken
    | Some token =>
        relay_id ← lift (insert_relay_tx relay_name endpoint);
        _ ← insert_certificate_tx "relay" relay_id cert_serial issuer_handle cert_not_after;
        _ ← spend_token (tk_id token) now;
        _ ← record_audit now "enrollment-token" "enroll" ("relay/" +:+ relay_name)
              ("{" +:+ debug_str "relay_id" +:+ ":" +:+ show_i64 relay_id +:+ "}");
        _ ← bump;
        mret relay_id
    end).
End enroll.
