(* ===== verification/CtlApply.v ===== *)
(** * Controller: applying a fabric document

    [apply_fabric] of [crates/wiremesh-controller/src/db.rs]: the segment diff,
    the recompilation of the policy against the segments of the same
    transaction, and the new-version rule.  The YAML reader, SHA-256 and the JSON
    printers are the parameters of PolicyDsl and PolicyCompile. *)
From Stdlib Require Import ZArith Lia Ascii.
From S2P Require Import Prelude StdNet IpNet CtlKeys CtlStore CtlEnroll.
From S2P Require Import PolicyDsl PolicyCompile.
Open Scope Z_scope.

Record ApplyOutcome : Type := {
  created_segments : Z;
  updated_segments : Z;
  deleted_segments : Z;
  policy_updated : bool;
  changed_segment_cidrs : list (Z * string * list string) }.

(** The accumulators of the segment loop; an audit row is (action, entity, diff). *)
Record ApplyAcc : Type := {
  acc_created : Z;
  acc_updated : Z;
  acc_audit : list (string * string * string);
  acc_changed : list (Z * string * list string) }.

Definition no_changes : ApplyAcc :=
  {| acc_created := 0; acc_updated := 0; acc_audit := []; acc_changed := [] |}.

Section apply.
Context {N : Ipv4NetApi} {J : JsonText}.
Context (from_str : string -> result string PolicyDoc) (sha256 : string -> string)
        (blocks_json : list IrBlock -> string) (canonical_json : PolicyIR -> string).

Definition parse_stored (texts : list string) : result DbError (list ipv4net) :=
  traverse (fun c => match net_parse c with Some n => Ok n | None => Err (BadStoredCidr c) end) texts.

Definition segment_id_of (s : Store) (name : string) : option Z :=
  sg_id <$> List.find (fun r => bool_decide (sg_name r = name)) (segment s).

Definition of_result {A : Type} (r : result DbError A) : tx DbError A := fun s =>
  match r with Ok a => Ok (a, s) | Err e => Err e end.

(** One declared segment that already exists: nothing, or its rows replaced. *)
Definition update_segment (name : string) (cidrs : list ipv4net) (acc : ApplyAcc) : tx DbError ApplyAcc :=
  s ← get;
  segment_id ← of_result (match segment_id_of s name with Some i => Ok i | None => Err SqlError end);
  let existing := cidrs_for_segment s segment_id in
  existing_set ← of_result (parse_stored existing);
  if same_set existing_set cidrs then mret acc
  else
    _ ← modify (fun s => set_cidrs (List.filter (fun r => negb (cd_segment r =? segment_id)) (cidr s)) s);
    _ ← insert_cidrs_tx segment_id name cidrs;
    let new_cidr_strs := map net_show cidrs in
    mret {| acc_created := acc_created acc; acc_updated := acc_updated acc + 1;
            acc_audit := acc_audit acc ++
              [("apply-update-segment-cidrs", "segment/" +:+ name,
                json [("name", JStr name); ("old_cidrs", JArr existing); ("new_cidrs", JArr new_cidr_strs)])];
            acc_changed := acc_changed acc ++ [(segment_id, name, new_cidr_strs)] |}.

Definition create_segment (name : string) (cidrs : list ipv4net) (acc : ApplyAcc) : tx DbError ApplyAcc :=
  _ ← insert_segment_tx name cidrs;
  mret {| acc_created := acc_created acc + 1; acc_updated := acc_updated acc;
          acc_audit := acc_audit acc ++
            [("apply-create-segment", "segment/" +:+ name,
              json [("name", JStr name); ("cidrs", JArr (map net_show cidrs))])];
          acc_changed := acc_changed acc |}.

Fixpoint apply_segments (existing_names : list string) (decls : list (string * list ipv4net))
    (acc : ApplyAcc) : tx DbError ApplyAcc :=
  match decls with
  | [] => mret acc
  | (name, cidrs) :: rest =>
      acc' ← (if bool_decide (name ∈ existing_names) then update_segment name cidrs acc
              else create_segment name cidrs acc);
      apply_segments existing_names rest acc'
  end.

Definition segment_def (s : Store) (r : SegmentRow) : result DbError SegmentDef :=
  nets ← parse_stored (cidrs_for_segment s (sg_id r));
  Ok {| seg_name := sg_name r; seg_cidrs := nets |}.

Definition read_all_segment_defs (s : Store) : result DbError (list SegmentDef) :=
  traverse (segment_def s) (segment s).

Definition effective_source (s : Store) (policy_yaml : option string) (acc : ApplyAcc) : option string :=
  match policy_yaml with
  | Some source => Some source
  | None => if bool_decide (acc_changed acc = []) then None
            else pv_source_yaml <$> policy_version s None
  end.

Definition policy_errors (errors : list CompileError) : DbError :=
  PolicyRejected (map show_compile_error errors).

(** Parse and compile against the segments as they stand. *)
Definition compile_candidate (s : Store) (source : string) (version : Z) : result DbError PolicyIR :=
  defs ← read_all_segment_defs s;
  match parse_policy from_str source defs with
  | Err es => Err (policy_errors es)
  | Ok doc =>
      match compile sha256 doc defs version with
      | Err Panicked => Err DbPanic
      | Ok (Err es) => Err (policy_errors es)
      | Ok (Ok ir) => Ok ir
      end
  end.

Definition ports_column (r : IrRule) : option string :=
  match ir_ports r with [] => None | ps => Some (str_join "," (map port_text ps)) end.

Definition rule_row (version : Z) (block_ord rule_ord : nat) (r : IrRule) : PolicyRuleRow :=
  {| pr_version := version; pr_block_ord := block_ord; pr_rule_ord := rule_ord;
     pr_action := action_text (ir_action r); pr_src := str_join "," (ir_src r);
     pr_dst := str_join "," (ir_dst r); pr_proto := proto_text (ir_proto r);
     pr_ports := ports_column r |}.

Definition rule_rows (version : Z) (ir : PolicyIR) : list PolicyRuleRow :=
  concat (imap (fun i b => imap (rule_row version i) (ib_rules b)) (pi_blocks ir)).

(** The policy step: [true] when a new version was stored. *)
Definition apply_policy (source : option string) (actor now : string) (acc : ApplyAcc) :
    tx DbError (bool * ApplyAcc) :=
  match source with
  | None => mret (false, acc)
  | Some source_yaml =>
      s ← get;
      let latest := policy_version s None in
      let candidate_version := match latest with Some r => pv_version r + 1 | None => 1 end in
      ir ← of_result (compile_candidate s source_yaml candidate_version);
      let fingerprint := blocks_fingerprint sha256 blocks_json ir in
      if match latest with Some r => negb (bool_decide (pv_fingerprint r = fingerprint)) | None => true end
      then
        _ ← modify (fun s => set_policy
              (policy_versions s ++
                [{| pv_version := candidate_version; pv_source_yaml := source_yaml;
                    pv_compiled_ir := canonical_json ir; pv_fingerprint := fingerprint;
                    pv_created_by := actor; pv_created_at := now |}])
              (policy_rule s ++ rule_rows candidate_version ir) s);
        mret (true,
          {| acc_created := acc_created acc; acc_updated := acc_updated acc;
             acc_audit := acc_audit acc ++
               [("apply-policy", "policy_version/" +:+ show_i64 candidate_version,
                 "{" +:+ debug_str "version" +:+ ":" +:+ show_i64 candidate_version +:+ "}")];
             acc_changed := acc_changed acc |})
      else mret (false, acc)
  end.

Fixpoint record_audits (actor now : string) (l : list (string * string * string)) : tx DbError unit :=
  match l with
  | [] => mret tt
  | (action, entity, diff) :: rest => _ ← record_audit now actor action entity diff; record_audits actor now rest
  end.

Definition nothing_applied : ApplyOutcome :=
  {| created_segments := 0; updated_segments := 0; deleted_segments := 0; policy_updated := false;
     changed_segment_cidrs := [] |}.

(** The transaction; [None] asks for the rollback of an empty apply. *)
Definition apply_tx (decls : list (string * list ipv4net)) (policy_yaml : option string)
    (actor now : string) : tx DbError (option ApplyOutcome) :=
  s ← get;
  acc ← apply_segments (map sg_name (segment s)) decls no_changes;
  s ← get;
  '(updated, acc) ← apply_policy (effective_source s policy_yaml acc) actor now acc;
  if (acc_created acc =? 0) && (acc_updated acc =? 0) && negb updated then mret None
  else
    _ ← record_audits actor now (acc_audit acc);
    _ ← bump;
    mret (Some {| created_segments := acc_created acc; updated_segments := acc_updated acc;
                  deleted_segments := 0; policy_updated := updated;
                  changed_segment_cidrs := acc_changed acc |}).

Definition apply_fabric (decls : list (string * list ipv4net)) (policy_yaml : option string)
    (actor now : string) (s : Store) : result DbError ApplyOutcome * Store :=
  match apply_tx decls policy_yaml actor now s with
  | Ok (Some out, s') => (Ok out, s')
  | Ok (None, _) => (Ok nothing_applied, s)
  | Err e => (Err e, s)
  end.
End apply.
