(* ===== verification/CtlStoreInv.v ===== *)
(** * Controller: well-formed stores

    What every transaction of CtlStore, CtlEnroll and CtlApply keeps true of the
    tables: keys are unique, references resolve, stored CIDRs parse and no two of
    them share an address, a segment has at most one active gateway, policy
    versions increase. *)
From Stdlib Require Import ZArith Lia Ascii.
From stdpp Require Import sorting.
From S2P Require Import Prelude StdNet IpNet CtlKeys CtlStore CtlEnroll CtlApply.
From S2P Require Import PolicyDsl PolicyCompile.
Open Scope Z_scope.

(** ** Decomposing transactions *)

Lemma tx_bind_ok {E A B : Type} (m : tx E A) (k : A -> tx E B) s b s2 :
  (m ≫= k) s = Ok (b, s2) -> exists a s1, m s = Ok (a, s1) /\ k a s1 = Ok (b, s2).
Proof. unfold mbind, tx_bind. destruct (m s) as [[a s1]|]; [eauto|done]. Qed.

Lemma ensure_ok {E : Type} b (e : E) s u s' : ensure b e s = Ok (u, s') -> b = true /\ s' = s.
Proof. unfold ensure. destruct b; [by intros [= _ <-]|done]. Qed.

Lemma get_ok {E : Type} s a s' : @get E s = Ok (a, s') -> a = s /\ s' = s.
Proof. by intros [= <- <-]. Qed.

Lemma modify_ok {E : Type} f s u s' : @modify E f s = Ok (u, s') -> s' = f s.
Proof. by intros [= _ <-]. Qed.

Lemma ret_ok {E A : Type} (a : A) s b s' : (mret a : tx E A) s = Ok (b, s') -> b = a /\ s' = s.
Proof. by intros [= <- <-]. Qed.

Lemma bump_ok {E : Type} s r s' :
  @bump E s = Ok (r, s') -> r = state_revision s + 1 /\ s' = set_revision (state_revision s + 1) s.
Proof. by intros [= <- <-]. Qed.

Lemma lift_ok {A : Type} (m : tx DbError A) s a s' : lift m s = Ok (a, s') -> m s = Ok (a, s').
Proof. unfold lift. by destruct (m s) as [[]|]; [intros [= <- <-]|]. Qed.

Lemma lift_result_ok {A : Type} (r : result DbError A) s a s' :
  lift_result r s = Ok (a, s') -> r = Ok a /\ s' = s.
Proof. unfold lift_result. by destruct r; [intros [= <- <-]|]. Qed.

Lemma of_result_ok {A : Type} (r : result DbError A) s a s' :
  of_result r s = Ok (a, s') -> r = Ok a /\ s' = s.
Proof. unfold of_result. by destruct r; [intros [= <- <-]|]. Qed.

Lemma commit_keeps {E A : Type} (m : tx E A) s (P : Store -> Prop) :
  P s -> (forall a s', m s = Ok (a, s') -> P s') -> P (snd (commit m s)).
Proof. unfold commit. intros Hs Hm. destruct (m s) as [[a s']|]; [by eapply Hm|done]. Qed.

Ltac tx_step :=
  match goal with
  | H : (_ ≫= _) _ = Ok _ |- _ => apply tx_bind_ok in H as (? & ? & ? & H)
  | H : ensure _ _ _ = Ok _ |- _ => apply ensure_ok in H as [? ->]
  | H : get _ = Ok _ |- _ => apply get_ok in H as [-> ->]
  | H : modify _ _ = Ok _ |- _ => apply modify_ok in H as ->
  | H : record_audit _ _ _ _ _ _ = Ok _ |- _ => apply modify_ok in H as ->
  | H : mret _ _ = Ok _ |- _ => apply ret_ok in H as [? ->]; simplify_eq
  | H : bump _ = Ok _ |- _ => apply bump_ok in H as [-> ->]
  | H : lift _ _ = Ok _ |- _ => apply lift_ok in H
  | H : lift_result _ _ = Ok _ |- _ => apply lift_result_ok in H as [? ->]
  | H : of_result _ _ = Ok _ |- _ => apply of_result_ok in H as [? ->]
  | H : fail _ _ = Ok _ |- _ => discriminate H
  | H : Ok _ = Ok _ |- _ => injection H as ? ?; subst
  | H : Err _ = Ok _ |- _ => discriminate H
  end.

Ltac tx_inv := repeat (tx_step; simpl in * ).

(** ** The invariant *)

Section ok.
Context {N : Ipv4NetApi} {NL : Ipv4NetLaws N} {J : JsonText}.

Definition rows_disjoint (r1 r2 : CidrRow) : Prop :=
  forall n1 n2 x, net_parse (cd_cidr r1) = Some n1 -> net_parse (cd_cidr r2) = Some n2 ->
  net_has n1 x -> net_has n2 x -> False.

Definition ok_segments (l : list SegmentRow) : Prop :=
  NoDup (map sg_id l) /\ NoDup (map sg_name l).

Definition ok_cidrs (segs : list SegmentRow) (l : list CidrRow) : Prop :=
  Forall (fun r => cd_segment r ∈ map sg_id segs) l /\
  Forall (fun r => exists n, cd_cidr r = net_show n) l /\
  ForallOrdPairs rows_disjoint l.

(** Two active gateways never share a segment. *)
Definition not_both_active (g1 g2 : GatewayRec) : Prop :=
  gw_active g1 = true -> gw_active g2 = true -> gw_segment g1 <> gw_segment g2.

Definition ok_gateways (segs : list SegmentRow) (l : list GatewayRec) : Prop :=
  NoDup (map gw_id l) /\ NoDup (map gw_name l) /\
  Forall (fun g => gw_segment g ∈ map sg_id segs) l /\
  ForallOrdPairs not_both_active l.

Definition ok_keys (gws : list GatewayRec) (m : gmap Z Rows) : Prop :=
  forall id rows, m !! id = Some rows -> rows <> ∅ -> id ∈ map gw_id gws.

Definition ok_relays (l : list RelayRec) : Prop := NoDup (map rl_id l) /\ NoDup (map rl_name l).

Definition ok_tokens (segs : list SegmentRow) (l : list TokenRec) : Prop :=
  NoDup (map tk_id l) /\
  Forall (fun t => match tk_rebind_segment_id t with Some g => g ∈ map sg_id segs | None => True end) l.

Definition ok_policies (l : list PolicyVersionRow) : Prop :=
  StronglySorted Z.lt (map pv_version l) /\ Forall (fun r => 0 < pv_version r) l.

Record store_ok (s : Store) : Prop := {
  so_segments : ok_segments (segment s);
  so_cidrs : ok_cidrs (segment s) (cidr s);
  so_gateways : ok_gateways (segment s) (gateway s);
  so_candidates : Forall (fun c => gc_gateway c ∈ map gw_id (gateway s)) (gateway_candidate s);
  so_keys : ok_keys (gateway s) (key_rows s);
  so_relays : ok_relays (relay s);
  so_certificates : NoDup (map ct_serial (certificate s));
  so_tokens : ok_tokens (segment s) (enrollment_token s);
  so_api_tokens : NoDup (map at_id (api_token s)) /\ NoDup (map at_name (api_token s));
  so_policies : ok_policies (policy_versions s) }.

Lemma store_ok_empty : store_ok empty_store.
Proof. split; cbn; repeat split; try constructor. by intros id rows ?%lookup_empty_Some. Qed.

(** *** Lists *)

Lemma next_id_fresh ids : next_id ids ∉ ids.
Proof.
  unfold next_id. assert (forall x, x ∈ ids -> x <= foldr Z.max 0 ids) as H.
  { induction ids as [|y ids IH]; intros x; [by rewrite elem_of_nil|].
    rewrite elem_of_cons. simpl. intros [-> | Hx]; [lia|]. specialize (IH _ Hx). lia. }
  intros Hin%H. lia.
Qed.

Lemma NoDup_snoc {A B : Type} (f : A -> B) l a :
  NoDup (map f l) -> f a ∉ map f l -> NoDup (map f (l ++ [a])).
Proof.
  intros Hl Ha. rewrite map_app. apply list.NoDup_app. split; [done|]. split.
  - intros x Hx. cbn. rewrite list_elem_of_singleton. by intros ->.
  - apply NoDup_singleton.
Qed.

Lemma FOP_app {A : Type} (R : A -> A -> Prop) l1 l2 :
  ForallOrdPairs R l1 -> ForallOrdPairs R l2 -> Forall (fun a => Forall (R a) l2) l1 ->
  ForallOrdPairs R (l1 ++ l2).
Proof.
  intros H1 H2 H12. induction H1 as [|a l Ha _ IH]; [done|].
  inversion H12; subst. cbn. constructor; [|by apply IH]. by apply Forall_app.
Qed.

Lemma FOP_filter {A : Type} (R : A -> A -> Prop) p l :
  ForallOrdPairs R l -> ForallOrdPairs R (List.filter p l).
Proof.
  induction 1 as [|a l Ha _ IH]; [constructor|]. cbn. destruct (p a); [|done].
  constructor; [|done]. apply List.Forall_forall. intros x [Hx _]%List.filter_In.
  by eapply List.Forall_forall in Ha.
Qed.

Lemma FOP_map {A : Type} (R : A -> A -> Prop) (f : A -> A) l :
  (forall a b, R a b -> R (f a) (f b)) -> ForallOrdPairs R l -> ForallOrdPairs R (map f l).
Proof.
  intros Hf. induction 1 as [|a l Ha _ IH]; [constructor|]. cbn. constructor; [|done].
  apply Forall_map. eapply Forall_impl; [|exact Ha]. by apply Hf.
Qed.

Lemma Forall_filter_b {A : Type} (P : A -> Prop) p l : Forall P l -> Forall P (List.filter p l).
Proof.
  intros H. apply List.Forall_forall. intros x [Hx _]%List.filter_In.
  by eapply List.Forall_forall in H.
Qed.

Lemma list_filter_nil {A : Type} (p : A -> bool) l :
  List.filter p l = [] <-> Forall (fun a => p a = false) l.
Proof.
  induction l as [|a l IH]; cbn; [by split; [constructor|]|]. rewrite Forall_cons_iff.
  destruct (p a) eqn:E; [split; [done|intros [? _]; congruence]|]. rewrite IH. tauto.
Qed.

Lemma existsb_false {A B : Type} `{EqDecision B} (f : A -> B) (b : B) l :
  negb (existsb (fun x => bool_decide (f x = b)) l) = true -> b ∉ map f l.
Proof.
  rewrite negb_true_iff. induction l as [|x l IH]; cbn; [intros _; apply not_elem_of_nil|].
  rewrite orb_false_iff, bool_decide_eq_false, elem_of_cons. naive_solver.
Qed.

(** *** Segments and CIDRs *)

Lemma not_overlaps_disjoint a b x :
  overlaps a b = false -> net_has a x -> net_has b x -> False.
Proof.
  unfold overlaps, net_has_addr_b. rewrite orb_false_iff, !bool_decide_eq_false.
  intros [Ha Hb] Hxa Hxb. rewrite !net_network_spec in Ha, Hb.
  destruct (Z.le_ge_cases (net_prefix a) (net_prefix b)) as [Hle | Hle].
  - apply Ha. pose proof (net_has_contains a b x Hxa Hxb Hle) as Hc.
    rewrite net_contains_incl in Hc. apply Hc, network_of_in.
  - apply Hb. pose proof (net_has_contains b a x Hxb Hxa ltac:(lia)) as Hc.
    rewrite net_contains_incl in Hc. apply Hc, network_of_in.
Qed.

Lemma find_some_exists {A : Type} (p : A -> bool) l : (exists a, a ∈ l /\ p a = true) -> exists b, List.find p l = Some b.
Proof.
  intros Ha. destruct (List.find p l) eqn:E; [by eexists|]. exfalso.
  apply find_none_iff in E. destruct Ha as (a & Hin & Hp).
  rewrite list.Forall_forall in E. specialize (E a Hin). congruence.
Qed.

Lemma segment_name_in s id : id ∈ map sg_id (segment s) -> exists n, segment_name s id = Some n.
Proof.
  unfold segment_name. intros (r & -> & Hr)%list_elem_of_fmap.
  destruct (find_some_exists (fun r' => sg_id r' =? sg_id r) (segment s)) as [b ->]; [|by eexists].
  exists r. split; [done|lia].
Qed.

Lemma find_conflict_none c rows :
  find_conflict c rows = Ok None ->
  Forall (fun r => exists e, net_parse r.1 = Some e /\ overlaps c e = false) rows.
Proof.
  induction rows as [|[text seg] rows IH]; [by constructor|]. cbn.
  destruct (net_parse text) as [e|] eqn:E; [|done]. destruct (overlaps c e) eqn:Eo; [done|].
  intros H%IH. constructor; [by exists e|done].
Qed.

(** The rows a new CIDR is compared with: its own segment's are the accepted ones. *)
Definition own_rows (segment_id : Z) (l : list CidrRow) : list CidrRow :=
  List.filter (fun r => cd_segment r =? segment_id) l.

Lemma new_row_disjoint s segment_id c accepted :
  ok_cidrs (segment s) (cidr s) ->
  map cd_cidr (own_rows segment_id (cidr s)) = map net_show accepted ->
  existsb (overlaps c) accepted = false ->
  find_conflict c (other_cidrs s segment_id) = Ok None ->
  Forall (fun r => rows_disjoint r {| cd_segment := segment_id; cd_cidr := net_show c |}) (cidr s).
Proof.
  intros (Hseg & _ & _) Hown Hacc Hcon. apply find_conflict_none in Hcon.
  apply list.Forall_forall. intros r Hr n1 n2 x E1 E2 H1 H2. cbn in E2.
  rewrite net_parse_show in E2. injection E2 as <-.
  destruct (Z.eqb_spec (cd_segment r) segment_id) as [E | Hne].
  - assert (cd_cidr r ∈ map net_show accepted) as (a & Ea & Ha)%list_elem_of_fmap.
    { rewrite <- Hown. apply list_elem_of_fmap. exists r. split; [done|].
      apply list_elem_of_In, List.filter_In. split; [by apply list_elem_of_In|lia]. }
    rewrite Ea, net_parse_show in E1. injection E1 as <-.
    apply (not_overlaps_disjoint c a x); [|done|done].
    rewrite <- not_true_iff_false in Hacc |- *. intros Ho. apply Hacc, existsb_iff. by exists a.
  - assert (exists m, (cd_cidr r, m) ∈ other_cidrs s segment_id) as [m Hm].
    { rewrite list.Forall_forall in Hseg.
      destruct (segment_name_in s (cd_segment r) (Hseg r Hr)) as [m Em]. exists m.
      apply list_elem_of_omap. exists r. split; [done|]. cbn.
      destruct (Z.eqb_spec (cd_segment r) segment_id); [done|]. by rewrite Em. }
    rewrite list.Forall_forall in Hcon. destruct (Hcon _ Hm) as (e & Ee & Ho). cbn in Ee.
    rewrite E1 in Ee. injection Ee as <-. by apply (not_overlaps_disjoint c n1 x).
Qed.

Lemma insert_cidrs_loop_ok segment_id name cidrs accepted s u s' :
  insert_cidrs_loop segment_id name accepted cidrs s = Ok (u, s') ->
  segment_id ∈ map sg_id (segment s) ->
  ok_cidrs (segment s) (cidr s) ->
  map cd_cidr (own_rows segment_id (cidr s)) = map net_show accepted ->
  s' = set_cidrs (cidr s ++ map (fun c => {| cd_segment := segment_id; cd_cidr := net_show c |}) cidrs) s /\
  ok_cidrs (segment s) (cidr s').
Proof.
  revert accepted s. induction cidrs as [|c cidrs IH]; intros accepted s Hrun Hid Hok Hown.
  { apply ret_ok in Hrun as [_ ->]. rewrite app_nil_r. split; [by destruct s|done]. }
  cbn [insert_cidrs_loop] in Hrun. destruct (existsb (overlaps c) accepted) eqn:Eacc; [done|].
  apply tx_bind_ok in Hrun as (s0 & s1 & Hg & Hrun). apply get_ok in Hg as [-> ->].
  destruct (find_conflict c (other_cidrs s segment_id)) as [[seg|]|] eqn:Ec; [done| |done].
  tx_inv. set (row := {| cd_segment := segment_id; cd_cidr := net_show c |}) in *.
  pose proof (new_row_disjoint s segment_id c accepted Hok Hown Eacc Ec) as Hdis.
  apply IH in Hrun as [-> Hok'].
  - cbn in *. rewrite <- app_assoc in *. by split.
  - done.
  - destruct Hok as (H1 & H2 & H3). cbn. split; [|split].
    + apply Forall_app. split; [done|]. by repeat constructor.
    + apply Forall_app. split; [done|]. constructor; [by exists c|constructor].
    + apply FOP_app; [done|repeat constructor|].
      eapply Forall_impl; [|exact Hdis]. intros r Hr. by repeat constructor.
  - cbn. unfold own_rows in *. rewrite List.filter_app, !map_app, Hown. cbn.
    by rewrite Z.eqb_refl.
Qed.

Lemma ok_cidrs_mono segs segs' l :
  map sg_id segs ⊆ map sg_id segs' -> ok_cidrs segs l -> ok_cidrs segs' l.
Proof.
  intros Hsub (H1 & H2 & H3). split; [|done]. eapply Forall_impl; [|exact H1]. intros r Hr. by apply Hsub.
Qed.

Lemma ok_gateways_mono segs segs' l :
  map sg_id segs ⊆ map sg_id segs' -> ok_gateways segs l -> ok_gateways segs' l.
Proof.
  intros Hsub (H1 & H2 & H3 & H4). split; [done|]. split; [done|]. split; [|done].
  eapply Forall_impl; [|exact H3]. intros r Hr. by apply Hsub.
Qed.

Lemma ok_tokens_mono segs segs' l :
  map sg_id segs ⊆ map sg_id segs' -> ok_tokens segs l -> ok_tokens segs' l.
Proof.
  intros Hsub [H1 H2]. split; [done|]. eapply Forall_impl; [|exact H2].
  intros t. cbn. destruct (tk_rebind_segment_id t); [apply Hsub|done].
Qed.

Lemma snoc_subseteq {A : Type} (l1 l2 : list A) : l1 ⊆ l1 ++ l2.
Proof. intros x Hx. apply elem_of_app. by left. Qed.

Lemma insert_segment_tx_ok name cidrs s id s' :
  insert_segment_tx name cidrs s = Ok (id, s') -> store_ok s -> store_ok s'.
Proof.
  unfold insert_segment_tx, insert_cidrs_tx. intros H Hok. case_bool_decide; [done|].
  tx_inv.
  match goal with H : negb (existsb _ _) = true |- _ => apply existsb_false in H; rename H into Hname end.
  match goal with H : insert_cidrs_loop _ _ _ _ _ = _ |- _ => rename H into Hrun end.
  set (id := next_id _) in *. set (row := {| sg_id := id; sg_name := name |}) in *.
  assert (map sg_id (segment s) ⊆ map sg_id (segment s ++ [row])) as Hsub.
  { rewrite map_app. apply snoc_subseteq. }
  destruct Hok as [[Hi Hn] Hc Hg Hcand Hk Hr Hcert Ht Ha Hp].
  apply insert_cidrs_loop_ok in Hrun as [-> Hc'].
  - split; cbn in *; try done.
    + split; [apply NoDup_snoc; [done|apply next_id_fresh]|by apply NoDup_snoc].
    + by eapply ok_gateways_mono.
    + by eapply ok_tokens_mono.
  - cbn. rewrite map_app. apply elem_of_app. right. by constructor.
  - cbn. by eapply ok_cidrs_mono.
  - cbn. destruct Hc as (Hseg & _ & _). unfold own_rows.
    rewrite (proj2 (list_filter_nil _ _)); [done|].
    eapply Forall_impl; [|exact Hseg]. cbn. intros r Hr'. apply Z.eqb_neq. intros E.
    rewrite E in Hr'. by apply next_id_fresh in Hr'.
Qed.

(** *** Updates of the gateway table *)

(** An update that keeps what the invariant reads and activates nothing. *)
Definition quiet (f : GatewayRec -> GatewayRec) : Prop :=
  forall g, gw_id (f g) = gw_id g /\ gw_name (f g) = gw_name g /\ gw_segment (f g) = gw_segment g /\
            (gw_active (f g) = true -> gw_active g = true).

Lemma quiet_if (b : GatewayRec -> bool) f : quiet f -> quiet (fun g => if b g then f g else g).
Proof. intros Hf g. destruct (b g); [apply Hf|done]. Qed.

Lemma quiet_status st : st <> "active" -> quiet (with_status st).
Proof.
  intros Hst g. repeat split. unfold gw_active, status_is. cbn. rewrite bool_decide_eq_true. done.
Qed.

Lemma quiet_candidate ep : quiet (with_candidate ep).
Proof. by intros []. Qed.

Lemma quiet_applied v : quiet (with_applied v).
Proof. by intros []. Qed.

Lemma quiet_version v : quiet (with_version v).
Proof. by intros []. Qed.

Lemma quiet_reported v n : quiet (fun g => with_schema n (with_version v g)).
Proof. by intros []. Qed.

Lemma map_quiet {B : Type} (p : GatewayRec -> B) f l :
  (forall g, p (f g) = p g) -> map p (map f l) = map p l.
Proof. intros Hf. rewrite map_map. by apply map_ext. Qed.

Lemma ok_gateways_map segs f l : quiet f -> ok_gateways segs l -> ok_gateways segs (map f l).
Proof.
  intros Hf (H1 & H2 & H3 & H4). split; [|split; [|split]].
  - rewrite map_quiet; [done|]. intros g. apply Hf.
  - rewrite map_quiet; [done|]. intros g. apply Hf.
  - apply Forall_map. eapply Forall_impl; [|exact H3]. intros g Hg. cbn.
    by rewrite (proj1 (proj2 (proj2 (Hf g)))).
  - apply FOP_map; [|done]. intros a b Hab Ha Hb.
    destruct (Hf a) as (_ & _ & Ea & Hfa), (Hf b) as (_ & _ & Eb & Hfb). rewrite Ea, Eb. auto.
Qed.

Lemma store_ok_gateways s f :
  quiet f -> store_ok s -> store_ok (set_gateways (map f (gateway s)) s).
Proof.
  intros Hf [Hs Hc Hg Hcand Hk Hr Hcert Ht Ha Hp].
  assert (map gw_id (map f (gateway s)) = map gw_id (gateway s)) as Hids.
  { apply map_quiet. intros g. apply Hf. }
  split; cbn; try done.
  - by apply ok_gateways_map.
  - by rewrite Hids.
  - intros id rows Hl Hne. rewrite Hids. by eapply Hk.
Qed.

(** Tables the invariant does not read together with others. *)
Lemma store_ok_revision s r : store_ok s -> store_ok (set_revision r s).
Proof. by intros []. Qed.

Lemma store_ok_audit s l : store_ok s -> store_ok (set_audit l s).
Proof. by intros []. Qed.

Lemma store_ok_certificates s l :
  store_ok s -> NoDup (map ct_serial l) -> store_ok (set_certificates l s).
Proof. by intros [] ?. Qed.

Lemma store_ok_relays s l : store_ok s -> ok_relays l -> store_ok (set_relays l s).
Proof. by intros [] ?. Qed.

Lemma store_ok_tokens s l : store_ok s -> ok_tokens (segment s) l -> store_ok (set_enrollment_tokens l s).
Proof. by intros [] ?. Qed.

Lemma store_ok_cidrs s l : store_ok s -> ok_cidrs (segment s) l -> store_ok (set_cidrs l s).
Proof. by intros [] ?. Qed.

Lemma store_ok_candidates s l :
  store_ok s -> Forall (fun c => gc_gateway c ∈ map gw_id (gateway s)) l -> store_ok (set_candidates l s).
Proof. by intros [] ?. Qed.

Lemma store_ok_keys s m : store_ok s -> ok_keys (gateway s) m -> store_ok (set_key_rows m s).
Proof. by intros [] ?. Qed.

Lemma store_ok_policy s vs rs : store_ok s -> ok_policies vs -> store_ok (set_policy vs rs s).
Proof. by intros [] ?. Qed.
End ok.

Create HintDb store_ok.
#[export] Hint Resolve store_ok_revision store_ok_audit store_ok_gateways quiet_if quiet_candidate
  quiet_applied quiet_version quiet_reported : store_ok.
#[export] Hint Extern 1 (quiet (with_status _)) => apply quiet_status; discriminate : store_ok.
