(* ===== verification/CtlStoreOk.v ===== *)
(** * Controller: every transaction keeps the store well formed

    One lemma per operation of CtlStore, CtlEnroll and CtlApply, then the
    operations as one type, and the invariant of every run from the empty
    database. *)
From Stdlib Require Import ZArith Lia Ascii.
From stdpp Require Import sorting.
From S2P Require Import Prelude StdNet IpNet CtlKeys CtlStore CtlEnroll CtlApply CtlStoreInv.
From S2P Require Import PolicyDsl PolicyCompile.
Open Scope Z_scope.

Ltac keep := apply commit_keeps; [done|]; intros ? ? Hrun; tx_inv; eauto with store_ok.

Section preserve.
Context {N : Ipv4NetApi} {NL : Ipv4NetLaws N} {J : JsonText}.

Lemma insert_segment_ok name cidrs s : store_ok s -> store_ok (snd (insert_segment name cidrs s)).
Proof.
  intros Hok. unfold insert_segment. apply commit_keeps; [done|]. intros a s' Hrun.
  apply tx_bind_ok in Hrun as (id & s1 & H1 & Hrun). apply insert_segment_tx_ok in H1; [|done].
  tx_inv. auto with store_ok.
Qed.

Lemma create_segment_audited_ok name cidrs actor now s :
  store_ok s -> store_ok (snd (create_segment_audited name cidrs actor now s)).
Proof.
  intros Hok. unfold create_segment_audited. apply commit_keeps; [done|]. intros a s' Hrun.
  apply tx_bind_ok in Hrun as (id & s1 & H1 & Hrun). apply insert_segment_tx_ok in H1; [|done].
  tx_inv. auto with store_ok.
Qed.

Lemma NoDup_map_filter {A B : Type} (f : A -> B) p l :
  NoDup (map f l) -> NoDup (map f (List.filter p l)).
Proof.
  intros Hl. eapply sublist_NoDup; [exact Hl|]. clear.
  induction l as [|a l IH]; cbn; [constructor|]. destruct (p a); by constructor.
Qed.

Lemma elem_of_map_filter {A B : Type} (f : A -> B) p l b :
  b ∈ map f l -> (forall a, a ∈ l -> f a = b -> p a = true) -> b ∈ map f (List.filter p l).
Proof.
  intros (a & -> & Ha)%list_elem_of_fmap Hp. apply list_elem_of_fmap. exists a. split; [done|].
  apply list_elem_of_In, List.filter_In. split; [by apply list_elem_of_In|by apply Hp].
Qed.

(** The three checks of a delete leave no reference to the segment. *)
Lemma delete_segment_ok segment_id actor now s :
  store_ok s -> store_ok (snd (delete_segment segment_id actor now s)).
Proof.
  intros Hok. unfold delete_segment. apply commit_keeps; [done|]. intros a s' Hrun. tx_inv.
  apply store_ok_revision, store_ok_audit.
  destruct Hok as [[Hi Hn] (Hc1 & Hc2 & Hc3) (Hg1 & Hg2 & Hg3 & Hg4) Hcand Hk Hr Hcert [Ht1 Ht2] Ha Hp].
  match goal with H : negb (existsb (fun g => gw_segment g =? _) _) = true |- _ => rename H into Hnog end.
  match goal with H : negb (existsb (fun t => bool_decide _) _) = true |- _ => rename H into Hnot end.
  assert (forall x, x ∈ map sg_id (segment s) -> x <> segment_id ->
    x ∈ map sg_id (List.filter (fun r => negb (sg_id r =? segment_id)) (segment s))) as Hkeep.
  { intros x Hx Hne. apply elem_of_map_filter; [done|]. intros r _ <-. lia. }
  split; cbn; try done.
  - split; by apply NoDup_map_filter.
  - split; [|split; [by apply Forall_filter_b|by apply FOP_filter]].
    rewrite list.Forall_forall in Hc1 |- *. intros r [Hin%list_elem_of_In Hb]%list_elem_of_In%List.filter_In.
    apply Hkeep; [by apply Hc1|]. lia.
  - split; [done|]. split; [done|]. split; [|done].
    rewrite list.Forall_forall in Hg3 |- *. intros g Hin. apply Hkeep; [by apply Hg3|].
    intros E. apply negb_true_iff, not_true_iff_false in Hnog. apply Hnog, existsb_iff. exists g. split; [done|lia].
  - split; [done|]. rewrite list.Forall_forall in Ht2 |- *. intros t Hin. specialize (Ht2 t Hin).
    destruct (tk_rebind_segment_id t) as [x|] eqn:Ex; [|done]. apply Hkeep; [done|]. intros ->.
    apply negb_true_iff, not_true_iff_false in Hnot. apply Hnot, existsb_iff. exists t.
    split; [done|]. by apply bool_decide_eq_true.
Qed.

Lemma set_on_gateway_ok f id msg s :
  quiet f -> store_ok s -> store_ok (snd (set_on_gateway f id msg s)).
Proof. intros Hf Hok. unfold set_on_gateway, update_gateway. keep. Qed.

Lemma set_applied_version_ok id v s : store_ok s -> store_ok (snd (set_applied_version id v s)).
Proof.
  intros Hok. unfold set_applied_version. destruct (v <? 2 ^ 63); [|done].
  apply set_on_gateway_ok; auto with store_ok.
Qed.

Lemma set_candidate_endpoint_ok id addr s : store_ok s -> store_ok (snd (set_candidate_endpoint id addr s)).
Proof.
  intros Hok. unfold set_candidate_endpoint. apply commit_keeps; [done|]. intros a s' Hrun. tx_inv.
  destruct (active_gateway s id) as [g|]; [|done]. case_bool_decide; tx_inv; [done|].
  apply store_ok_revision, (store_ok_gateways s (fun g => if (gw_id g =? id) && gw_active g then with_candidate addr g else g)); auto with store_ok.
Qed.

Lemma has_gateway_in s id : has_gateway s id = true <-> id ∈ map gw_id (gateway s).
Proof.
  unfold has_gateway. rewrite existsb_iff, list_elem_of_fmap. split.
  - intros (g & Hg & E%Z.eqb_eq). by exists g.
  - intros (g & -> & Hg). exists g. split; [done|lia].
Qed.

Lemma active_gateway_spec s id g :
  active_gateway s id = Some g -> g ∈ gateway s /\ gw_id g = id /\ gw_active g = true.
Proof.
  unfold active_gateway. intros [Hin Hb]%List.find_some. apply andb_true_iff in Hb as [Hb Ha].
  apply Z.eqb_eq in Hb. by rewrite list_elem_of_In.
Qed.

Lemma active_gateway_in s id g : active_gateway s id = Some g -> id ∈ map gw_id (gateway s).
Proof. intros (Hg & <- & _)%active_gateway_spec. apply list_elem_of_fmap. by exists g. Qed.

Lemma set_local_candidates_ok id eps s : store_ok s -> store_ok (snd (set_local_candidates id eps s)).
Proof.
  intros Hok. unfold set_local_candidates. apply commit_keeps; [done|]. intros a s' Hrun. tx_inv.
  destruct (active_gateway s id) as [g|] eqn:Eg; [|done]. case_bool_decide; tx_inv; [done|].
  apply store_ok_revision, store_ok_candidates; [done|].
  apply Forall_app. split; [apply Forall_filter_b, (so_candidates _ Hok)|].
  apply Forall_map, Forall_true. intros e. cbn. by eapply active_gateway_in.
Qed.

(** *** Certificates *)

Lemma serials_revoke now serial l : map ct_serial (revoke_serial now serial l) = map ct_serial l.
Proof. unfold revoke_serial. rewrite map_map. apply map_ext. intros c. by case_bool_decide. Qed.

Lemma serials_revoke_all now (certs l : list CertRec) :
  map ct_serial (foldl (fun l c => revoke_serial now (ct_serial c) l) l certs) = map ct_serial l.
Proof. revert l. induction certs as [|c certs IH]; intros l; [done|]. cbn. by rewrite IH, serials_revoke. Qed.

Lemma revoke_live_certs_spec id now s certs s' :
  revoke_live_certs id now s = Ok (certs, s') ->
  certs = live_certs s id /\
  s' = set_certificates (foldl (fun l c => revoke_serial now (ct_serial c) l) (certificate s) (live_certs s id)) s.
Proof. unfold revoke_live_certs. intros H. by tx_inv. Qed.

Lemma revoke_live_certs_ok id now s certs s' :
  revoke_live_certs id now s = Ok (certs, s') -> store_ok s -> store_ok s'.
Proof.
  intros [_ ->]%revoke_live_certs_spec Hok. apply store_ok_certificates; [done|].
  rewrite serials_revoke_all. apply (so_certificates _ Hok).
Qed.

Lemma drain_gateway_ok id actor now s : store_ok s -> store_ok (snd (drain_gateway id actor now s)).
Proof.
  intros Hok. unfold drain_gateway, update_gateway. apply commit_keeps; [done|]. intros a s' Hrun.
  apply tx_bind_ok in Hrun as (? & ? & [-> ->]%get_ok & Hrun).
  apply tx_bind_ok in Hrun as (? & ? & [_ ->]%ensure_ok & Hrun).
  apply tx_bind_ok in Hrun as (certs & s1 & H1 & Hrun). apply revoke_live_certs_ok in H1; [|done].
  tx_inv. auto with store_ok.
Qed.

Lemma revoke_cert_ok serial actor now s : store_ok s -> store_ok (snd (revoke_cert serial actor now s)).
Proof.
  intros Hok. unfold revoke_cert. apply commit_keeps; [done|]. intros a s' Hrun. tx_inv.
  destruct (existsb _ _); tx_inv; [|done].
  apply store_ok_revision, store_ok_audit, store_ok_certificates; [done|].
  rewrite map_map. erewrite map_ext; [apply (so_certificates _ Hok)|].
  intros c. cbn. by destruct (_ && _).
Qed.

(** *** Relays and tokens *)

Lemma insert_relay_tx_ok name ep s id s' : insert_relay_tx name ep s = Ok (id, s') -> store_ok s -> store_ok s'.
Proof.
  unfold insert_relay_tx. intros Hrun Hok. tx_inv.
  match goal with H : negb _ = true |- _ => apply existsb_false in H end.
  destruct (so_relays _ Hok) as [Hi Hn]. apply store_ok_relays; [done|]. split.
  - apply NoDup_snoc; [done|apply next_id_fresh].
  - by apply NoDup_snoc.
Qed.

Lemma insert_relay_ok name ep actor now s : store_ok s -> store_ok (snd (insert_relay name ep actor now s)).
Proof.
  intros Hok. unfold insert_relay. apply commit_keeps; [done|]. intros a s' Hrun.
  apply tx_bind_ok in Hrun as (id & s1 & H1 & Hrun). apply insert_relay_tx_ok in H1; [|done].
  tx_inv. auto with store_ok.
Qed.

Lemma ok_relays_map f l :
  (forall r, rl_id (f r) = rl_id r /\ rl_name (f r) = rl_name r) -> ok_relays l -> ok_relays (map f l).
Proof.
  intros Hf [H1 H2]. split; rewrite map_map.
  - erewrite map_ext; [exact H1|]. intros r. apply Hf.
  - erewrite map_ext; [exact H2|]. intros r. apply Hf.
Qed.

Lemma set_relay_status_ok id st s : store_ok s -> store_ok (snd (set_relay_status id st s)).
Proof.
  intros Hok. unfold set_relay_status. apply commit_keeps; [done|]. intros a s' Hrun. tx_inv.
  apply store_ok_revision, store_ok_relays; [done|].
  apply ok_relays_map; [|apply (so_relays _ Hok)]. intros r. by destruct (_ =? _).
Qed.

Lemma set_relay_reported_version_ok id v s :
  store_ok s -> store_ok (snd (set_relay_reported_version id v s)).
Proof.
  intros Hok. unfold set_relay_reported_version. apply commit_keeps; [done|]. intros a s' Hrun. tx_inv.
  apply store_ok_relays; [done|].
  apply ok_relays_map; [|apply (so_relays _ Hok)]. intros r. by destruct (_ =? _).
Qed.

Lemma insert_api_token_ok id name role h e actor now s :
  store_ok s -> store_ok (snd (insert_api_token id name role h e actor now s)).
Proof.
  intros Hok. unfold insert_api_token. apply commit_keeps; [done|]. intros a s' Hrun. tx_inv.
  apply store_ok_audit. destruct Hok as [? ? ? ? ? ? ? ? [Hi Hn] ?]. split; cbn; try done.
  assert (forall t, t ∈ api_token s -> at_id t <> id /\ at_name t <> name) as Hnew.
  { intros t Ht. match goal with H : negb _ = true |- _ => rename H into Hb end.
    apply negb_true_iff, not_true_iff_false in Hb. split; intros E; apply Hb, existsb_iff; exists t;
      (split; [done|]); rewrite orb_true_iff, !bool_decide_eq_true; auto. }
  split; apply NoDup_snoc; try done; cbn; intros (t & E & Ht)%list_elem_of_fmap;
    destruct (Hnew t Ht); congruence.
Qed.

Lemma revoke_api_token_ok name actor now s : store_ok s -> store_ok (snd (revoke_api_token name actor now s)).
Proof.
  intros Hok. unfold revoke_api_token. apply commit_keeps; [done|]. intros a s' Hrun. tx_inv.
  destruct (existsb _ _); tx_inv; [|done].
  apply store_ok_audit. destruct Hok as [? ? ? ? ? ? ? ? [Hi Hn] ?]. split; cbn; try done.
  split; rewrite map_map; erewrite map_ext; [exact Hi| |exact Hn|]; intros t; cbn; by case_bool_decide.
Qed.

Lemma insert_enrollment_token_ok id h kind b r e actor now s :
  store_ok s -> store_ok (snd (insert_enrollment_token id h kind b r e actor now s)).
Proof.
  intros Hok. unfold insert_enrollment_token. apply commit_keeps; [done|]. intros a s' Hrun. tx_inv.
  apply store_ok_audit, store_ok_tokens; [done|]. destruct (so_tokens _ Hok) as [Hi Hf].
  match goal with H : negb _ = true |- _ => apply existsb_false in H end.
  split; [by apply NoDup_snoc|]. apply Forall_app. split; [done|]. constructor; [|constructor]. cbn.
  destruct r as [g|]; [|done].
  match goal with H : existsb _ (segment _) = true |- _ => apply existsb_iff in H as (sg & Hsg & E%Z.eqb_eq) end.
  apply list_elem_of_fmap. by exists sg.
Qed.

(** *** Enrollment *)

Lemma spend_token_ok id now s u s' : spend_token id now s = Ok (u, s') -> store_ok s -> store_ok s'.
Proof.
  unfold spend_token. intros Hrun Hok. tx_inv. apply store_ok_tokens; [done|].
  destruct (so_tokens _ Hok) as [Hi Hf]. split.
  - rewrite map_map. erewrite map_ext; [exact Hi|]. intros t. by destruct (is_unused _ _).
  - apply Forall_map. eapply Forall_impl; [|exact Hf]. intros t. cbn. by destruct (is_unused _ _).
Qed.

Definition replace_row (ids : list Z) (g : GatewayRec) : GatewayRec :=
  if bool_decide (gw_id g ∈ ids) then with_status "replaced" g else g.

Lemma replace_gateways_ok ids now s certs s' :
  replace_gateways ids now s = Ok (certs, s') -> store_ok s ->
  store_ok s' /\ gateway s' = map (replace_row ids) (gateway s) /\ segment s' = segment s.
Proof.
  revert s certs. induction ids as [|id ids IH]; intros s certs Hrun Hok.
  { apply ret_ok in Hrun as [_ ->]. split; [done|]. split; [|done].
    rewrite <- (map_id (gateway s)) at 1. apply map_ext. intros g. unfold replace_row.
    by rewrite bool_decide_eq_false_2 by apply not_elem_of_nil. }
  cbn [replace_gateways] in Hrun.
  apply tx_bind_ok in Hrun as (cs & s1 & H1%lift_ok & Hrun).
  pose proof (revoke_live_certs_ok _ _ _ _ _ H1 Hok) as Hok1.
  apply revoke_live_certs_spec in H1 as [_ ->].
  apply tx_bind_ok in Hrun as (? & ? & ->%modify_ok & Hrun).
  apply tx_bind_ok in Hrun as (more & s2 & H2 & Hrun). tx_inv.
  apply (store_ok_gateways _ (fun g => if gw_id g =? id then with_status "replaced" g else g)) in Hok1;
    [|auto with store_ok].
  apply IH in H2 as (Hok2 & Hg & Hs); [|exact Hok1].
  split; [done|]. cbn in *. split; [|done]. rewrite Hg. unfold update_gateway. rewrite map_map.
  apply map_ext. intros g. unfold replace_row.
  destruct (Z.eqb_spec (gw_id g) id) as [-> | Hne]; cbn.
  - rewrite (bool_decide_eq_true_2 (id ∈ id :: ids)) by apply list_elem_of_here. by case_bool_decide.
  - assert (gw_id g ∈ id :: ids <-> gw_id g ∈ ids) as E by (rewrite elem_of_cons; naive_solver).
    by rewrite (bool_decide_ext _ _ E).
Qed.

Definition segment_free (s : Store) (segment_id : Z) : Prop :=
  forall g, g ∈ gateway s -> gw_active g = true -> gw_segment g <> segment_id.

Lemma claim_segment_ok token segment_id now s certs s' :
  claim_segment token segment_id now s = Ok (certs, s') -> store_ok s ->
  store_ok s' /\ segment s' = segment s /\ segment_free s' segment_id.
Proof.
  unfold claim_segment. intros Hrun Hok. apply tx_bind_ok in Hrun as (? & ? & [-> ->]%get_ok & Hrun).
  assert (forall g, g ∈ gateway s -> gw_active g = true -> gw_segment g = segment_id ->
          gw_id g ∈ active_on_segment s segment_id) as Hin.
  { intros g Hg Ha Hs. unfold active_on_segment. apply list_elem_of_fmap. exists g. split; [done|].
    apply list_elem_of_In, List.filter_In. split; [by apply list_elem_of_In|].
    rewrite Ha, andb_true_r. lia. }
  case_bool_decide.
  - apply tx_bind_ok in Hrun as (? & ? & [_ ->]%ensure_ok & Hrun).
    apply replace_gateways_ok in Hrun as (Hok' & Hg & Hs); [|done]. split; [done|]. split; [done|].
    intros g. rewrite Hg. intros (g0 & -> & Hg0)%list_elem_of_fmap. unfold replace_row.
    case_bool_decide as Hid; [done|]. intros Ha E. by apply Hid, Hin.
  - tx_inv. split; [done|]. split; [done|]. intros g Hg Ha E. specialize (Hin g Hg Ha E).
    match goal with H : bool_decide _ = true |- _ => apply bool_decide_eq_true in H; rewrite H in Hin end.
    by apply elem_of_nil in Hin.
Qed.

Lemma insert_gateway_tx_ok segment_id name key s id s' :
  insert_gateway_tx segment_id name key s = Ok (id, s') -> store_ok s ->
  segment_id ∈ map sg_id (segment s) -> segment_free s segment_id ->
  store_ok s' /\ id ∈ map gw_id (gateway s').
Proof.
  unfold insert_gateway_tx. intros Hrun [Hs Hc (Hi & Hn & Hseg & Hact) Hcand Hk Hr Hcert Ht Ha Hp] Hin Hfree.
  tx_inv. match goal with H : negb _ = true |- _ => apply existsb_false in H; rename H into Hname end.
  set (row := {| gw_id := _ |}).
  assert (map gw_id (gateway s) ⊆ map gw_id (gateway s ++ [row])) as Hsub
    by (rewrite map_app; apply snoc_subseteq).
  split; [split; cbn; try done|].
  - split; [apply NoDup_snoc; [done|apply next_id_fresh]|]. split; [by apply NoDup_snoc|].
    split; [apply Forall_app; split; [done|by constructor]|].
    apply FOP_app; [done|repeat constructor|]. apply list.Forall_forall. intros g Hg.
    constructor; [|constructor]. intros Hga _. by apply Hfree.
  - eapply Forall_impl; [|exact Hcand]. intros c Hcd. by apply Hsub.
  - intros id rows Hl Hne. apply Hsub. by eapply Hk.
  - cbn. rewrite map_app. apply elem_of_app. right. by constructor.
Qed.

Lemma insert_certificate_tx_ok kind id serial h n s u s' :
  insert_certificate_tx kind id serial h n s = Ok (u, s') -> store_ok s ->
  store_ok s' /\ gateway s' = gateway s.
Proof.
  unfold insert_certificate_tx. intros Hrun Hok. tx_inv. split; [|done].
  match goal with H : negb _ = true |- _ => apply existsb_false in H end.
  apply store_ok_certificates; [done|]. apply NoDup_snoc; [apply (so_certificates _ Hok)|done].
Qed.

Lemma insert_baseline_key_ok id wg s u s' :
  insert_baseline_key id wg s = Ok (u, s') -> store_ok s -> id ∈ map gw_id (gateway s) -> store_ok s'.
Proof.
  unfold insert_baseline_key. intros Hrun Hok Hid. tx_inv. apply store_ok_keys; [done|].
  intros id' rows Hl Hne. destruct (decide (id = id')) as [-> | Hd]; [done|].
  rewrite lookup_insert_ne in Hl by done. by eapply (so_keys _ Hok).
Qed.

Lemma segment_of_cidr_in s c sid :
  store_ok s -> segment_of_cidr s c = Some sid -> sid ∈ map sg_id (segment s).
Proof.
  intros Hok. unfold segment_of_cidr. destruct (List.find _ _) as [r|] eqn:E; [|done].
  intros [= <-]. apply List.find_some in E as [Hin _]. destruct (so_cidrs _ Hok) as (Hc & _).
  rewrite list.Forall_forall in Hc. by apply Hc, list_elem_of_In.
Qed.

Lemma resolve_segment_in s found cidrs sid :
  store_ok s -> resolve_segment s found cidrs = Some (Some sid) ->
  (forall f, found = Some f -> f ∈ map sg_id (segment s)) -> sid ∈ map sg_id (segment s).
Proof.
  intros Hok. revert found. induction cidrs as [|c cidrs IH]; intros found; cbn.
  - intros [= ->] H. by apply H.
  - destruct (segment_of_cidr s c) as [i|] eqn:E; [|done].
    apply segment_of_cidr_in in E; [|done].
    destruct found as [f|]; [destruct (i =? f); [|done]|]; intros Hr H; apply IH in Hr; auto.
    intros f' [= <-]. done.
Qed.

Lemma enroll_gateway_ok h cidrs name wg serial handle na now key s :
  store_ok s -> store_ok (snd (enroll_gateway h cidrs name wg serial handle na now key s)).
Proof.
  intros Hok. unfold enroll_gateway. apply commit_keeps; [done|]. intros out s' Hrun.
  apply tx_bind_ok in Hrun as (? & ? & [_ ->]%ensure_ok & Hrun).
  apply tx_bind_ok in Hrun as (? & ? & [-> ->]%get_ok & Hrun).
  destruct (find_token s h now _) as [token|]; [|done].
  apply tx_bind_ok in Hrun as (? & s0 & Hb & Hrun).
  assert (s0 = s) as ->.
  { destruct (bool_decide _); [by tx_inv|]. unfold check_bound in Hb. by tx_inv. }
  destruct (resolve_segment s None cidrs) as [[sid|]|] eqn:Er; [|done|done].
  apply resolve_segment_in in Er; [|done|done].
  apply tx_bind_ok in Hrun as (rev & s1 & H1 & Hrun).
  apply claim_segment_ok in H1 as (Hok1 & Hseg & Hfree); [|done].
  apply tx_bind_ok in Hrun as (id & s2 & H2 & Hrun).
  apply insert_gateway_tx_ok in H2 as [Hok2 Hid]; [|done|by rewrite Hseg|done].
  apply tx_bind_ok in Hrun as (? & s3 & H3 & Hrun).
  apply insert_certificate_tx_ok in H3 as [Hok3 Hg3]; [|done].
  apply tx_bind_ok in Hrun as (? & s4 & H4 & Hrun).
  apply insert_baseline_key_ok in H4; [|done|by rewrite Hg3].
  apply tx_bind_ok in Hrun as (? & s5 & H5 & Hrun). apply spend_token_ok in H5; [|done].
  tx_inv. auto with store_ok.
Qed.

Lemma enroll_relay_ok h name ep serial handle na now s :
  store_ok s -> store_ok (snd (enroll_relay h name ep serial handle na now s)).
Proof.
  intros Hok. unfold enroll_relay. apply commit_keeps; [done|]. intros out s' Hrun.
  apply tx_bind_ok in Hrun as (? & ? & [-> ->]%get_ok & Hrun).
  destruct (find_token s h now _) as [token|]; [|done].
  apply tx_bind_ok in Hrun as (id & s1 & H1%lift_ok & Hrun). apply insert_relay_tx_ok in H1; [|done].
  apply tx_bind_ok in Hrun as (? & s2 & H2 & Hrun). apply insert_certificate_tx_ok in H2 as [H2 _]; [|done].
  apply tx_bind_ok in Hrun as (? & s3 & H3 & Hrun). apply spend_token_ok in H3; [|done].
  tx_inv. auto with store_ok.
Qed.

(** *** Applying a fabric document *)

Context (from_str : string -> result string PolicyDoc) (sha256 : string -> string)
        (blocks_json : list IrBlock -> string) (canonical_json : PolicyIR -> string).

Lemma segment_id_of_in s name id : segment_id_of s name = Some id -> id ∈ map sg_id (segment s).
Proof.
  unfold segment_id_of. destruct (List.find _ _) as [r|] eqn:E; [|done]. intros [= <-].
  apply List.find_some in E as [Hin _]. apply list_elem_of_fmap. exists r.
  by rewrite list_elem_of_In.
Qed.

Lemma own_rows_deleted id l :
  own_rows id (List.filter (fun r => negb (cd_segment r =? id)) l) = [].
Proof.
  unfold own_rows. apply list_filter_nil, list.Forall_forall.
  intros r [_ Hb]%list_elem_of_In%List.filter_In. lia.
Qed.

Lemma update_segment_ok name cidrs acc s acc' s' :
  update_segment name cidrs acc s = Ok (acc', s') -> store_ok s -> store_ok s'.
Proof.
  unfold update_segment. intros Hrun Hok.
  apply tx_bind_ok in Hrun as (? & ? & [-> ->]%get_ok & Hrun).
  apply tx_bind_ok in Hrun as (id & ? & [Hid ->]%of_result_ok & Hrun).
  apply tx_bind_ok in Hrun as (ex & ? & [_ ->]%of_result_ok & Hrun).
  destruct (same_set ex cidrs); [by tx_inv|].
  apply tx_bind_ok in Hrun as (? & ? & ->%modify_ok & Hrun).
  apply tx_bind_ok in Hrun as (? & s1 & H1 & Hrun). tx_inv.
  assert (id ∈ map sg_id (segment s)) as Hin.
  { destruct (segment_id_of s name) eqn:E; [|done]. injection Hid as ->. by eapply segment_id_of_in. }
  unfold insert_cidrs_tx in H1. destruct (so_cidrs _ Hok) as (Hc1 & Hc2 & Hc3).
  apply insert_cidrs_loop_ok in H1 as [-> Hok'].
  - cbn in *. by apply (store_ok_cidrs s).
  - done.
  - split; [|split]; cbn; [by apply Forall_filter_b..|by apply FOP_filter].
  - replace (own_rows _ _) with (@nil CidrRow); [done|]. symmetry. apply own_rows_deleted.
Qed.

Lemma apply_segments_ok names decls acc s acc' s' :
  apply_segments names decls acc s = Ok (acc', s') -> store_ok s -> store_ok s'.
Proof.
  revert acc s. induction decls as [|[name cidrs] decls IH]; intros acc s Hrun Hok.
  { by apply ret_ok in Hrun as [_ ->]. }
  cbn [apply_segments] in Hrun. apply tx_bind_ok in Hrun as (acc1 & s1 & H1 & Hrun).
  apply IH in Hrun; [done|]. case_bool_decide; [by eapply update_segment_ok|].
  unfold create_segment in H1. apply tx_bind_ok in H1 as (? & s2 & H2 & H1).
  apply insert_segment_tx_ok in H2; [|done]. by tx_inv.
Qed.

Lemma latest_row_spec l :
  match latest_row l with
  | Some r => r ∈ l /\ Forall (fun x => pv_version x <= pv_version r) l
  | None => l = []
  end.
Proof.
  unfold latest_row. induction l as [|x l IH] using rev_ind; [done|]. rewrite foldl_snoc.
  destruct (foldl _ None l) as [b|]; [|by subst; repeat constructor].
  destruct IH as [Hb Hl]. destruct (Z.ltb_spec (pv_version b) (pv_version x)).
  - split; [apply elem_of_app; right; by constructor|]. apply Forall_app. split; [|repeat constructor; lia].
    eapply Forall_impl; [|exact Hl]. cbn. intros; lia.
  - split; [apply elem_of_app; by left|]. apply Forall_app. split; [done|]. repeat constructor. lia.
Qed.

Lemma ok_policies_snoc l v :
  ok_policies l -> Forall (fun x => pv_version x < pv_version v) l -> 0 < pv_version v ->
  ok_policies (l ++ [v]).
Proof.
  intros [Hs Hp] Hlt Hv. split; [|by apply Forall_app; split; [|constructor]].
  rewrite map_app. cbn. clear Hp. induction l as [|x l IH]; cbn in *; [by repeat constructor|].
  apply StronglySorted_inv in Hs as [Hs Hx]. apply Forall_cons_iff in Hlt as [Hxv Hlt].
  constructor; [by apply IH|]. apply Forall_app. split; [done|]. by constructor.
Qed.

Lemma apply_policy_ok source actor now acc s r s' :
  apply_policy from_str sha256 blocks_json canonical_json source actor now acc s = Ok (r, s') ->
  store_ok s -> store_ok s'.
Proof.
  unfold apply_policy. intros Hrun Hok. destruct source as [src|]; [|by tx_inv].
  apply tx_bind_ok in Hrun as (? & ? & [-> ->]%get_ok & Hrun).
  apply tx_bind_ok in Hrun as (ir & ? & [_ ->]%of_result_ok & Hrun).
  pose proof (latest_row_spec (policy_versions s)) as Hlast. cbn [policy_version] in *.
  assert (forall v, store_ok s -> Forall (fun x => pv_version x < pv_version v) (policy_versions s) ->
     0 < pv_version v -> forall rs, store_ok (set_policy (policy_versions s ++ [v]) rs s)) as Hadd.
  { intros. apply store_ok_policy; [done|]. apply ok_policies_snoc; [apply (so_policies _ Hok)|done|done]. }
  destruct (latest_row _) as [last|].
  - destruct (negb _); [|by tx_inv]. tx_inv. destruct Hlast as [Hin Hle]. apply Hadd; [done| |].
    + eapply Forall_impl; [|exact Hle]. cbn. intros; lia.
    + destruct (so_policies _ Hok) as [_ Hpos]. rewrite list.Forall_forall in Hpos.
      specialize (Hpos _ Hin). cbn. lia.
  - tx_inv. apply Hadd; [done|rewrite Hlast; constructor|done].
Qed.

Lemma record_audits_spec actor now l s u s' :
  record_audits actor now l s = Ok (u, s') -> exists a, s' = set_audit a s.
Proof.
  revert s. induction l as [|[[a e] d] l IH]; intros s Hrun; cbn [record_audits] in Hrun.
  - tx_inv. exists (audit_rows s). by destruct s.
  - apply tx_bind_ok in Hrun as (? & ? & ->%modify_ok & Hrun). apply IH in Hrun as [b ->]. by exists b.
Qed.

Lemma apply_fabric_ok decls yaml actor now s :
  store_ok s ->
  store_ok (snd (apply_fabric from_str sha256 blocks_json canonical_json decls yaml actor now s)).
Proof.
  intros Hok. unfold apply_fabric. destruct (apply_tx _ _ _ _ _ _ _ _ s) as [[[out|] s']|] eqn:E; try done.
  cbn. unfold apply_tx in E. apply tx_bind_ok in E as (? & ? & [-> ->]%get_ok & E).
  apply tx_bind_ok in E as (acc & s1 & H1 & E). apply apply_segments_ok in H1; [|done].
  apply tx_bind_ok in E as (? & ? & [-> ->]%get_ok & E).
  apply tx_bind_ok in E as ([upd acc'] & s2 & H2 & E). apply apply_policy_ok in H2; [|done].
  destruct (_ && _); [by tx_inv|].
  apply tx_bind_ok in E as (? & s3 & H3 & E). apply record_audits_spec in H3 as [a ->].
  tx_inv. auto with store_ok.
Qed.

(** *** Key operations *)

(** Rows appear only for a gateway that had rows or is in the gateway table. *)
Definition rows_grounded (f : Db -> Db) : Prop :=
  forall db id rows, gateway_key (f db) !! id = Some rows -> rows <> ∅ ->
  rows_of db id <> ∅ \/ is_Some (gateway_status db !! id).

Lemma grounded_set db g rows id rows' :
  gateway_key (set_rows db g rows) !! id = Some rows' -> rows' <> ∅ ->
  (rows_of db g <> ∅ \/ is_Some (gateway_status db !! g)) ->
  rows_of db id <> ∅ \/ is_Some (gateway_status db !! id).
Proof.
  cbn. intros Hl Hne Hg. destruct (decide (g = id)) as [-> | Hd]; [done|].
  rewrite lookup_insert_ne in Hl by done. left. unfold rows_of. by rewrite Hl.
Qed.

Lemma grounded_refl db id rows :
  gateway_key db !! id = Some rows -> rows <> ∅ ->
  rows_of db id <> ∅ \/ is_Some (gateway_status db !! id).
Proof. intros Hl Hne. left. unfold rows_of. by rewrite Hl. Qed.

Lemma rows_lookup_ne db g e r : rows_of db g !! e = Some r -> rows_of db g <> ∅.
Proof. intros Hl E. by rewrite E, lookup_empty in Hl. Qed.

Ltac grounded :=
  intros db id rows; cbn;
  repeat case_match; subst; cbn; eauto using grounded_refl;
  intros Hl Hne; eapply (grounded_set db _ _ id rows Hl Hne); left; eapply rows_lookup_ne; eassumption.

Lemma rotate_key_grounded g actor now : rows_grounded (fun db => snd (rotate_key db g actor now)).
Proof.
  intros db id rows. unfold rotate_key. case_bool_decide as Hs; cbn; [|apply grounded_refl].
  intros Hl Hne. eapply (grounded_set db g _ id rows Hl Hne). right. by rewrite Hs.
Qed.

Lemma set_epoch_pubkey_grounded g e k : rows_grounded (fun db => snd (set_epoch_pubkey db g e k)).
Proof. unfold set_epoch_pubkey. grounded. Qed.

Lemma promote_epoch_grounded g e : rows_grounded (fun db => snd (promote_epoch db g e)).
Proof.
  intros db id rows. unfold promote_epoch.
  destruct (is_real_pending (rows_of db g) e) eqn:E; [|apply grounded_refl].
  apply is_real_pending_spec in E as (p & E & _). intros Hl Hne.
  eapply (grounded_set db _ _ id rows Hl Hne). left. by eapply rows_lookup_ne.
Qed.

Lemma retire_epoch_grounded g e : rows_grounded (fun db => snd (retire_epoch db g e)).
Proof. unfold retire_epoch. grounded. Qed.

Lemma drop_pending_epoch_grounded g e : rows_grounded (fun db => snd (drop_pending_epoch db g e)).
Proof. unfold drop_pending_epoch. grounded. Qed.

Lemma on_keys_ok {A : Type} (f : Db -> A * Db) s :
  rows_grounded (fun db => snd (f db)) -> store_ok s -> store_ok (snd (on_keys f s)).
Proof.
  intros Hf Hok. unfold on_keys. destruct (f (keys_db s)) as [a db] eqn:E. cbn. unfold put_keys.
  apply store_ok_audit, store_ok_revision, store_ok_keys; [done|].
  intros id rows Hl Hne. specialize (Hf (keys_db s) id rows). cbn beta in Hf. rewrite E in Hf.
  destruct (Hf Hl Hne) as [Hr | [st Hst]].
  - unfold rows_of in Hr. cbn in Hr. destruct (key_rows s !! id) as [r0|] eqn:E0; [|done].
    by eapply (so_keys _ Hok).
  - cbn in Hst. apply elem_of_list_to_map_2 in Hst. apply list_elem_of_fmap in Hst as (x & [= -> ->] & Hx).
    apply list_elem_of_fmap. by exists x.
Qed.

(** ** The operations as one type *)

Inductive StoreOp : Type :=
| OpInsertSegment (name : string) (cidrs : list ipv4net)
| OpCreateSegment (name : string) (cidrs : list ipv4net) (actor now : string)
| OpDeleteSegment (segment_id : Z) (actor now : string)
| OpApply (decls : list (string * list ipv4net)) (yaml : option string) (actor now : string)
| OpMintToken (id hash kind bound : string) (rebind : option Z) (expires actor now : string)
| OpEnrollGateway (hash : string) (cidrs : list ipv4net) (name wg serial handle not_after now key : string)
| OpEnrollRelay (hash name endpoint serial handle not_after now : string)
| OpRotateKey (g : Z) (actor now : string)
| OpSubmitKey (g e : Z) (pubkey : string)
| OpPromote (g e : Z)
| OpRetire (g e : Z)
| OpDropPending (g e : Z)
| OpDrain (g : Z) (actor now : string)
| OpRevokeCert (serial actor now : string)
| OpAppliedVersion (g v : Z)
| OpReportedVersion (g : Z) (v : option string) (n : option Z)
| OpGatewayVersion (g : Z) (v : option string)
| OpRelayVersion (r : Z) (v : option string)
| OpInsertRelay (name endpoint actor now : string)
| OpRelayStatus (r : Z) (st : string)
| OpMintApiToken (id name role hash : string) (expires : option string) (actor now : string)
| OpRevokeApiToken (name actor now : string)
| OpCandidate (g : Z) (addr : string)
| OpLocals (g : Z) (endpoints : list string).

Definition exec (op : StoreOp) (s : Store) : Store :=
  match op with
  | OpInsertSegment n c => snd (insert_segment n c s)
  | OpCreateSegment n c a t => snd (create_segment_audited n c a t s)
  | OpDeleteSegment i a t => snd (delete_segment i a t s)
  | OpApply d y a t => snd (apply_fabric from_str sha256 blocks_json canonical_json d y a t s)
  | OpMintToken i h k b r e a t => snd (insert_enrollment_token i h k b r e a t s)
  | OpEnrollGateway h c n w sr hd na t k => snd (enroll_gateway h c n w sr hd na t k s)
  | OpEnrollRelay h n e sr hd na t => snd (enroll_relay h n e sr hd na t s)
  | OpRotateKey g a t => snd (on_keys (fun db => rotate_key db g a t) s)
  | OpSubmitKey g e k => snd (on_keys (fun db => set_epoch_pubkey db g e k) s)
  | OpPromote g e => snd (on_keys (fun db => promote_epoch db g e) s)
  | OpRetire g e => snd (on_keys (fun db => retire_epoch db g e) s)
  | OpDropPending g e => snd (on_keys (fun db => drop_pending_epoch db g e) s)
  | OpDrain g a t => snd (drain_gateway g a t s)
  | OpRevokeCert r a t => snd (revoke_cert r a t s)
  | OpAppliedVersion g v => snd (set_applied_version g v s)
  | OpReportedVersion g v n => snd (set_gateway_reported_version g v n s)
  | OpGatewayVersion g v => snd (set_gateway_version g v s)
  | OpRelayVersion r v => snd (set_relay_reported_version r v s)
  | OpInsertRelay n e a t => snd (insert_relay n e a t s)
  | OpRelayStatus r st => snd (set_relay_status r st s)
  | OpMintApiToken i n r h e a t => snd (insert_api_token i n r h e a t s)
  | OpRevokeApiToken n a t => snd (revoke_api_token n a t s)
  | OpCandidate g a => snd (set_candidate_endpoint g a s)
  | OpLocals g e => snd (set_local_candidates g e s)
  end.

Definition run_ops (s : Store) (ops : list StoreOp) : Store := foldl (fun s op => exec op s) s ops.

Lemma exec_ok op s : store_ok s -> store_ok (exec op s).
Proof.
  intros Hok. destruct op; cbn [exec];
    eauto using insert_segment_ok, create_segment_audited_ok, delete_segment_ok, apply_fabric_ok,
      insert_enrollment_token_ok, enroll_gateway_ok, enroll_relay_ok, drain_gateway_ok, revoke_cert_ok,
      set_applied_version_ok, set_relay_reported_version_ok, insert_relay_ok, set_relay_status_ok,
      insert_api_token_ok, revoke_api_token_ok, set_candidate_endpoint_ok, set_local_candidates_ok.
  - apply on_keys_ok; [apply rotate_key_grounded|done].
  - apply on_keys_ok; [apply set_epoch_pubkey_grounded|done].
  - apply on_keys_ok; [apply promote_epoch_grounded|done].
  - apply on_keys_ok; [apply retire_epoch_grounded|done].
  - apply on_keys_ok; [apply drop_pending_epoch_grounded|done].
  - unfold set_gateway_reported_version. apply set_on_gateway_ok; auto with store_ok.
  - unfold set_gateway_version. apply set_on_gateway_ok; auto with store_ok.
Qed.

Lemma run_ops_ok ops s : store_ok s -> store_ok (run_ops s ops).
Proof. revert s. induction ops as [|op ops IH]; intros s Hok; [done|]. by apply IH, exec_ok. Qed.

End preserve.

(** ** A concrete run *)

#[export] Instance NoJson : JsonText := fun _ => "{}".

Definition ex_net (a p : Z) (H : net_range_ok a p = true) : ipv4net (Ipv4NetApi := SimpleNet) :=
  Build_simple_net a p H.
Definition net_a : ipv4net (Ipv4NetApi := SimpleNet) := ex_net 167837696 16 eq_refl.  (* 10.1.0.0/16 *)
Definition net_b : ipv4net (Ipv4NetApi := SimpleNet) := ex_net 167903232 16 eq_refl.  (* 10.2.0.0/16 *)

(** Two segments, one gateway, a rebind that replaces it, a rejected overlap. *)
Definition ex_ops : list (StoreOp (N := SimpleNet)) :=
  [ OpCreateSegment "web" [net_a] "admin" "t0";
    OpCreateSegment "db" [net_b] "admin" "t0";
    OpCreateSegment "clash" [net_a] "admin" "t0";
    OpMintToken "k1" "h1" "gateway" "10.1.0.0/16" None "t9" "admin" "t1";
    OpEnrollGateway "h1" [net_a] "gw-a" "KEYA" "serial-a" "issuer" "t9" "t2" "obs";
    OpMintToken "k2" "h2" "rebind" "" (Some 1) "t9" "admin" "t3";
    OpEnrollGateway "h2" [net_a] "gw-a2" "KEYB" "serial-b" "issuer" "t9" "t4" "obs";
    OpEnrollGateway "h2" [net_a] "gw-a3" "KEYC" "serial-c" "issuer" "t9" "t5" "obs" ].

Definition ex_run : Store :=
  run_ops (N := SimpleNet) (J := NoJson) (fun _ => Err "") (fun s => s) (fun _ => "") (fun _ => "") empty_store ex_ops.

Example ex_run_gateways :
  map (fun g => (gw_name g, gw_status g)) (gateway ex_run) = [("gw-a", "replaced"); ("gw-a2", "active")] /\
  revoked_serials ex_run = ["serial-a"] /\ map sg_name (segment ex_run) = ["web"; "db"] /\
  state_revision ex_run = 4.
Proof. vm_compute. done. Qed.

