(* ===== verification/SyncProto.v ===== *)
(** * The messages of the Sync stream

    [proto/wiremesh/v1/sync.proto], as tonic generates them: the types both the
    controller's projection and the gateway's desired state speak.  The
    deprecated relay list (field 4), always empty, is left out. *)
From Stdlib Require Import ZArith Lia Ascii.
From S2P Require Import Prelude.
Open Scope Z_scope.

Record PeerKey : Type := { pk_epoch : Z; pk_pubkey : string; pk_state : string }.

Record Peer : Type := {
  peer_gateway_id : Z;
  peer_segment_name : string;
  peer_keys : list PeerKey;
  peer_candidate_endpoints : list string;
  peer_allowed_ips : list string }.

Record RelayInfo : Type := { relay_id : Z; relay_endpoint : string }.

Record StateSnapshot : Type := {
  ss_revision : Z;
  ss_self_cert_pem : string;
  ss_peers : list Peer;
  ss_relay_infos : list RelayInfo;
  ss_policy_ir : string;
  ss_policy_version : Z;
  ss_revoked_serials : list string;
  ss_controller_version : string;
  ss_min_supported_version : string }.

Record Delta : Type := {
  d_revision : Z;
  d_upserted_peers : list Peer;
  d_removed_peer_ids : list Z;
  d_relay_infos : list RelayInfo;
  d_relays_updated : bool;
  d_policy_ir : string;
  d_policy_version : Z;
  d_revoked_serials : list string }.

#[export] Instance PeerKey_eq_dec : EqDecision PeerKey.
Proof. solve_decision. Defined.
#[export] Instance Peer_eq_dec : EqDecision Peer.
Proof. solve_decision. Defined.
#[export] Instance RelayInfo_eq_dec : EqDecision RelayInfo.
Proof. solve_decision. Defined.
#[export] Instance Delta_eq_dec : EqDecision Delta.
Proof. solve_decision. Defined.
