(* ===== verification/CtlProjection.v ===== *)
(** * Controller: what the Sync stream says

    [crates/wiremesh-controller/src/projection.rs], [routes.rs] and [version.rs]:
    the snapshot a connecting gateway or relay gets, the change events, the delta
    each event becomes, and what [Sync.Watch] of services/sync.rs forwards to
    whom.  The last section is the publishing half of the mutation handlers
    (services/admin.rs, services/enrollment.rs, services/sync.rs, observe.rs): a
    handler is a transaction of CtlStore followed by the events it broadcasts.
    Database reads after the commit are taken to succeed; where one fails the
    event is not published. *)
From Stdlib Require Import ZArith Lia Ascii.
From S2P Require Import Prelude StdNet IpNet CtlKeys CtlStore CtlEnroll CtlApply SyncProto.
From S2P Require Import PolicyDsl PolicyCompile.
Open Scope Z_scope.

(** ** [version.rs] *)

(** The text before the first of [cs]: [split([..]).next()]. *)
Fixpoint until_any (cs : list ascii) (s : string) : string :=
  match s with
  | EmptyString => EmptyString
  | String c s' => if existsb (Ascii.eqb c) cs then EmptyString else String c (until_any cs s')
  end.

Definition min_supported_version (controller_version : string) : string :=
  let core := until_any ["-"%char; "+"%char] controller_version in
  match str_split "." core with
  | [major; minor; patch] =>
      match parse_unsigned 64 major, parse_unsigned 64 minor, parse_unsigned 64 patch with
      | Some major, Some minor, Some _ =>
          if (1 <=? major) && (0 <? minor)
          then show_uint major +:+ "." +:+ show_uint (minor - 1) +:+ ".0"
          else show_uint major +:+ "." +:+ show_uint minor +:+ ".0"
      | _, _, _ => controller_version
      end
  | _ => controller_version
  end.

Example min_supported_ladder :
  map min_supported_version ["0.10.3"; "1.0.0"; "1.1.4-rc1"; "1.2.99"; "2.0.0"; "1.2"; "1.2.3.4"] =
  ["0.10.0"; "1.0.0"; "1.0.0"; "1.1.0"; "2.0.0"; "1.2"; "1.2.3.4"].
Proof. reflexivity. Qed.

(** ** Events *)

Definition is_awaiting (k : GatewayKeyRow) : bool :=
  let '(_, pubkey, state) := k in
  bool_decide (state = Pending) && bool_decide (pubkey = AWAITING_SUBMISSION_SENTINEL).

Definition peer_key (k : GatewayKeyRow) : PeerKey :=
  let '(epoch, pubkey, state) := k in
  {| pk_epoch := wrap 32 epoch; pk_pubkey := pubkey; pk_state := state_text state |}.

Definition advertisable_peer_keys (keys : list GatewayKeyRow) : list PeerKey :=
  map peer_key (List.filter (fun k => negb (is_awaiting k)) keys).

Inductive ChangeEvent : Type :=
| GatewayEnrolled (new_gateway_id : Z) (segment_name : string) (allowed_ips : list string)
    (revoked_serials : list string) (revision : Z)
| KeyRotated (gateway_id : Z) (segment_name : string) (allowed_ips : list string)
    (keys : list GatewayKeyRow) (candidate_endpoints : list string) (revision : Z)
| GatewayDrained (gateway_id : Z) (revoked_serials : list string) (revision : Z)
| EndpointObserved (gateway_id : Z) (segment_name : string) (allowed_ips : list string)
    (keys : list GatewayKeyRow) (candidate_endpoints : list string) (revision : Z)
| CertRevoked (serial : string) (revision : Z)
| PolicyUpdated (version : Z) (ir : string) (revision : Z)
| SegmentCidrsChanged (gateway_id : Z) (segment_name : string) (allowed_ips : list string)
    (keys : list GatewayKeyRow) (candidate_endpoints : list string) (revision : Z)
| RelaysChanged (relay_infos : list RelayInfo) (revision : Z).

Definition subject_gateway_id (e : ChangeEvent) : Z :=
  match e with
  | GatewayEnrolled g _ _ _ _ => g
  | KeyRotated g _ _ _ _ _ => g
  | GatewayDrained g _ _ => g
  | EndpointObserved g _ _ _ _ _ => g
  | CertRevoked _ _ => 0
  | PolicyUpdated _ _ _ => 0
  | SegmentCidrsChanged g _ _ _ _ _ => g
  | RelaysChanged _ _ => 0
  end.

Definition as_u64 (id : Z) : Z := wrap 64 id.

Definition empty_delta (revision : Z) : Delta :=
  {| d_revision := revision; d_upserted_peers := []; d_removed_peer_ids := []; d_relay_infos := [];
     d_relays_updated := false; d_policy_ir := ""; d_policy_version := 0; d_revoked_serials := [] |}.

(** The full-peer refresh of [KeyRotated], [EndpointObserved] and [SegmentCidrsChanged]. *)
Definition refresh_delta (gateway_id : Z) (name : string) (allowed_ips : list string)
    (keys : list GatewayKeyRow) (candidates : list string) (revision : Z) : Delta :=
  {| d_revision := revision;
     d_upserted_peers :=
       [{| peer_gateway_id := as_u64 gateway_id; peer_segment_name := name;
           peer_keys := advertisable_peer_keys keys; peer_candidate_endpoints := candidates;
           peer_allowed_ips := allowed_ips |}];
     d_removed_peer_ids := []; d_relay_infos := []; d_relays_updated := false;
     d_policy_ir := ""; d_policy_version := 0; d_revoked_serials := [] |}.

Definition delta_for_change (e : ChangeEvent) : Delta :=
  match e with
  | GatewayEnrolled g name allowed_ips serials revision =>
      {| d_revision := revision;
         d_upserted_peers :=
           [{| peer_gateway_id := as_u64 g; peer_segment_name := name; peer_keys := [];
               peer_candidate_endpoints := []; peer_allowed_ips := allowed_ips |}];
         d_removed_peer_ids := []; d_relay_infos := []; d_relays_updated := false;
         d_policy_ir := ""; d_policy_version := 0; d_revoked_serials := serials |}
  | KeyRotated g name ips keys cands revision => refresh_delta g name ips keys cands revision
  | GatewayDrained g serials revision =>
      {| d_revision := revision; d_upserted_peers := []; d_removed_peer_ids := [as_u64 g];
         d_relay_infos := []; d_relays_updated := false; d_policy_ir := ""; d_policy_version := 0;
         d_revoked_serials := serials |}
  | EndpointObserved g name ips keys cands revision => refresh_delta g name ips keys cands revision
  | CertRevoked serial revision =>
      {| d_revision := revision; d_upserted_peers := []; d_removed_peer_ids := [];
         d_relay_infos := []; d_relays_updated := false; d_policy_ir := ""; d_policy_version := 0;
         d_revoked_serials := [serial] |}
  | PolicyUpdated version ir revision =>
      {| d_revision := revision; d_upserted_peers := []; d_removed_peer_ids := [];
         d_relay_infos := []; d_relays_updated := false; d_policy_ir := ir; d_policy_version := version;
         d_revoked_serials := [] |}
  | SegmentCidrsChanged g name ips keys cands revision => refresh_delta g name ips keys cands revision
  | RelaysChanged infos revision =>
      {| d_revision := revision; d_upserted_peers := []; d_removed_peer_ids := [];
         d_relay_infos := infos; d_relays_updated := true; d_policy_ir := ""; d_policy_version := 0;
         d_revoked_serials := [] |}
  end.

(** What a relay's stream carries: revocations, or nothing. *)
Definition relay_revocation_delta (e : ChangeEvent) : option Delta :=
  let delta serials revision :=
    {| d_revision := revision; d_upserted_peers := []; d_removed_peer_ids := []; d_relay_infos := [];
       d_relays_updated := false; d_policy_ir := ""; d_policy_version := 0;
       d_revoked_serials := serials |} in
  match e with
  | CertRevoked serial revision => Some (delta [serial] revision)
  | GatewayDrained _ serials revision | GatewayEnrolled _ _ _ serials revision =>
      match serials with [] => None | _ => Some (delta serials revision) end
  | _ => None
  end.

(** ** Snapshots *)

Section projection.
Context {N : Ipv4NetApi} {J : JsonText}.

(** [routes.rs] *)
Record PeerRoute : Type := {
  pr_gateway_id : Z;
  pr_segment_name : string;
  pr_keys : list GatewayKeyRow;
  pr_allowed_ips : list string;
  pr_candidate_endpoints : list string }.

Definition peer_route (s : Store) (gw : GatewayRow) : PeerRoute :=
  {| pr_gateway_id := gr_id gw; pr_segment_name := gr_segment_name gw;
     pr_keys := all_keys_for_gateway (keys_db s) (gr_id gw);
     pr_allowed_ips := cidrs_for_segment s (gr_segment_id gw);
     pr_candidate_endpoints := candidates_for s (gr_id gw) |}.

Definition peers_of (s : Store) (self_gateway_id : Z) : list PeerRoute :=
  map (peer_route s) (list_other_gateways s self_gateway_id).

Definition peer_of_route (p : PeerRoute) : Peer :=
  {| peer_gateway_id := as_u64 (pr_gateway_id p); peer_segment_name := pr_segment_name p;
     peer_keys := advertisable_peer_keys (pr_keys p);
     peer_candidate_endpoints := pr_candidate_endpoints p; peer_allowed_ips := pr_allowed_ips p |}.

Definition relay_infos_of (l : list (Z * string)) : list RelayInfo :=
  map (fun '(id, endpoint) => {| relay_id := as_u64 id; relay_endpoint := endpoint |}) l.

Definition policy_pair (s : Store) : Z * string := default (0, "") (latest_policy s).

Definition build_snapshot (pkg_version : string) (s : Store) (gateway_id : Z) (self_cert_pem : string) :
    StateSnapshot :=
  {| ss_revision := state_revision s; ss_self_cert_pem := self_cert_pem;
     ss_peers := map peer_of_route (peers_of s gateway_id);
     ss_relay_infos := relay_infos_of (active_relays s);
     ss_policy_ir := snd (policy_pair s); ss_policy_version := fst (policy_pair s);
     ss_revoked_serials := revoked_serials s;
     ss_controller_version := pkg_version;
     ss_min_supported_version := min_supported_version pkg_version |}.

Definition build_relay_revocation_snapshot (pkg_version : string) (s : Store) (self_cert_pem : string) :
    StateSnapshot :=
  let '(revision, serials) := revocation_snapshot s in
  {| ss_revision := revision; ss_self_cert_pem := self_cert_pem; ss_peers := [];
     ss_relay_infos := []; ss_policy_ir := ""; ss_policy_version := 0;
     ss_revoked_serials := serials;
     ss_controller_version := pkg_version;
     ss_min_supported_version := min_supported_version pkg_version |}.

(** ** Forwarding *)

(** [watch_gateway]: an event about the connection's own gateway is skipped. *)
Definition gateway_delta (self_gateway_id : Z) (e : ChangeEvent) : option Delta :=
  if subject_gateway_id e =? self_gateway_id then None else Some (delta_for_change e).

Definition forward_gateway (self_gateway_id : Z) (events : list ChangeEvent) : list Delta :=
  omap (gateway_delta self_gateway_id) events.

(** [watch_relay]. *)
Definition forward_relay (events : list ChangeEvent) : list Delta := omap relay_revocation_delta events.

(** The stream over the broadcast channel: a receiver that lagged gets one error
    and then the end of the stream. *)
Inductive StreamItem : Type := Change (e : ChangeEvent) | Lagged (skipped : Z).
Inductive StreamOut : Type := SendDelta (d : Delta) | Unavailable (skipped : Z).

Fixpoint watch (forward : ChangeEvent -> option Delta) (items : list StreamItem) : list StreamOut :=
  match items with
  | [] => []
  | Change e :: rest =>
      match forward e with Some d => SendDelta d :: watch forward rest | None => watch forward rest end
  | Lagged skipped :: _ => [Unavailable skipped]
  end.

(** ** Handlers: a transaction and its events *)

Definition Handler : Type := Store -> Store * list ChangeEvent.

(** [emit_key_rotated]. *)
Definition key_rotated_events (s : Store) (gateway_id : Z) : list ChangeEvent :=
  match gateway_identity_by_id s gateway_id with
  | None => []
  | Some i =>
      let '(keys, revision) := keys_snapshot (keys_db s) gateway_id in
      [KeyRotated gateway_id (gi_segment_name i) (cidrs_for_segment s (gi_segment_id i)) keys
         (candidates_for s gateway_id) revision]
  end.

(** [Admin.RotateKey], [Sync.SubmitEpochKey] and the driver's promote, retire and
    drop arms: a key operation, and the event when it applied. *)
Definition key_change {A : Type} (applied : A -> bool) (f : Db -> A * Db) (gateway_id : Z) : Handler :=
  fun s => let '(a, s') := on_keys f s in
           (s', if applied a then key_rotated_events s' gateway_id else []).

Definition handle_rotate_key (gateway_id : Z) (actor now : string) : Handler :=
  key_change is_ok (fun db => rotate_key db gateway_id actor now) gateway_id.

Definition cas_applied (o : CasOutcome) : bool := match o with Applied => true | NoMatch => false end.
Definition drop_applied (o : DropPendingOutcome) : bool := match o with Dropped => true | _ => false end.

Definition handle_submit_key (gateway_id epoch : Z) (pubkey : string) : Handler :=
  key_change cas_applied (fun db => set_epoch_pubkey db gateway_id epoch pubkey) gateway_id.
Definition handle_promote (gateway_id epoch : Z) : Handler :=
  key_change cas_applied (fun db => promote_epoch db gateway_id epoch) gateway_id.
Definition handle_retire (gateway_id epoch : Z) : Handler :=
  key_change cas_applied (fun db => retire_epoch db gateway_id epoch) gateway_id.
Definition handle_drop (gateway_id epoch : Z) : Handler :=
  key_change drop_applied (fun db => drop_pending_epoch db gateway_id epoch) gateway_id.

(** [Admin.Drain]. *)
Definition handle_drain (gateway_id : Z) (actor now : string) : Handler := fun s =>
  match drain_gateway gateway_id actor now s with
  | (Ok serials, s') => (s', [GatewayDrained gateway_id serials (state_revision s')])
  | (Err _, s') => (s', [])
  end.

(** [Admin.RevokeCert]. *)
Definition handle_revoke_cert (serial actor now : string) : Handler := fun s =>
  if bool_decide (serial = "") then (s, [])
  else
    match revoke_cert serial actor now s with
    | (Ok true, s') => (s', [CertRevoked serial (state_revision s')])
    | (_, s') => (s', [])
    end.

Definition relays_changed (s : Store) : list ChangeEvent :=
  let '(active, revision) := relays_snapshot s in [RelaysChanged (relay_infos_of active) revision].

(** [Admin.RegisterRelay]. *)
Definition handle_register_relay (name endpoint actor now : string) : Handler := fun s =>
  match insert_relay name endpoint actor now s with
  | (Ok _, s') => (s', relays_changed s')
  | (Err _, s') => (s', [])
  end.

(** The relay health transition of [Sync.Report]. *)
Definition handle_relay_status (relay_id : Z) (st : string) : Handler := fun s =>
  let '(_, s') := set_relay_status relay_id st s in (s', relays_changed s').

(** [Enrollment.Enroll], the relay path. *)
Definition handle_enroll_relay (hash name endpoint serial handle not_after now : string) : Handler := fun s =>
  match enroll_relay hash name endpoint serial handle not_after now s with
  | (Ok _, s') => (s', relays_changed s')
  | (Err _, s') => (s', [])
  end.

(** [Enrollment.Enroll], the gateway path. *)
Definition handle_enroll_gateway (hash : string) (cidrs : list ipv4net)
    (name wg serial handle not_after now key : string) : Handler := fun s =>
  match enroll_gateway hash cidrs name wg serial handle not_after now key s with
  | (Ok out, s') =>
      (s', match find_gateway_by_name s' name with
           | Some i => [GatewayEnrolled (gi_id i) (gi_segment_name i) (cidrs_for_segment s' (gi_segment_id i))
                          (eo_revoked_serials out) (state_revision s')]
           | None => []
           end)
  | (Err _, s') => (s', [])
  end.

Definition endpoint_observed (s : Store) (gateway_id revision : Z) : list ChangeEvent :=
  match gateway_identity_by_id s gateway_id with
  | None => []
  | Some i => [EndpointObserved gateway_id (gi_segment_name i) (cidrs_for_segment s (gi_segment_id i))
                 (all_keys_for_gateway (keys_db s) gateway_id) (candidates_for s gateway_id) revision]
  end.

(** [handle_probe] of observe.rs past its MAC check. *)
Definition handle_observed (gateway_id : Z) (addr : string) : Handler := fun s =>
  match set_candidate_endpoint gateway_id addr s with
  | (Ok (Some revision), s') => (s', endpoint_observed s' gateway_id revision)
  | (_, s') => (s', [])
  end.

(** The local candidates of [Sync.Report]. *)
Definition handle_local_candidates (gateway_id : Z) (endpoints : list string) : Handler := fun s =>
  match set_local_candidates gateway_id endpoints s with
  | (Ok (Some revision), s') => (s', endpoint_observed s' gateway_id revision)
  | (_, s') => (s', [])
  end.

Context (from_str : string -> result string PolicyDoc) (sha256 : string -> string)
        (blocks_json : list IrBlock -> string) (canonical_json : PolicyIR -> string).

Definition cidrs_changed (s : Store) (c : Z * string * list string) : list ChangeEvent :=
  let '(segment_id, name, allowed_ips) := c in
  match active_gateway_for_segment s segment_id with
  | None => []
  | Some g => [SegmentCidrsChanged g name allowed_ips (all_keys_for_gateway (keys_db s) g)
                 (candidates_for s g) (state_revision s)]
  end.

(** [Admin.Apply] past its parsing. *)
Definition handle_apply (decls : list (string * list ipv4net)) (yaml : option string)
    (actor now : string) : Handler := fun s =>
  match apply_fabric from_str sha256 blocks_json canonical_json decls yaml actor now s with
  | (Ok out, s') =>
      (s', concat (map (cidrs_changed s') (changed_segment_cidrs out)) ++
           (if policy_updated out then
              match latest_policy s' with
              | Some (version, ir) => [PolicyUpdated version ir (state_revision s')]
              | None => []
              end
            else []))
  | (Err _, s') => (s', [])
  end.
End projection.
