(* ===== verification/GwState.v ===== *)
(** * Gateway: the desired state and its fail-static file

    [crates/wiremesh-gateway/src/state.rs].  The state a snapshot gives and a
    delta updates; the filters both doors into it (the stream and [state.json])
    apply; the writer that never persists a policy this build cannot decode.
    [serde_json] is the environment: [load] takes what the file parses to, and a
    write is the value handed to the serialiser.  Files are not modelled; a
    [save] may fail. *)
From Stdlib Require Import ZArith Lia Ascii.
From S2P Require Import Prelude StdNet SyncProto GwUapi.
From S2P Require PolicyCompile.
Open Scope Z_scope.

Record PeerKeyInfo : Type := { ki_epoch : Z; ki_pubkey_b64 : string; ki_state : string }.

Record PeerState : Type := {
  ps_gateway_id : Z;
  ps_segment_name : string;
  ps_active_pubkey_b64 : option string;
  ps_keys : list PeerKeyInfo;
  ps_candidates : list string;
  ps_allowed_ips : list string }.

#[export] Instance PeerKeyInfo_eq_dec : EqDecision PeerKeyInfo.
Proof. solve_decision. Defined.
#[export] Instance PeerState_eq_dec : EqDecision PeerState.
Proof. solve_decision. Defined.

(** ** The filters *)

Definition MAX_PEER_CANDIDATES : nat := 64.
Definition DROPPED_SAMPLE_COUNT : nat := 3.
Definition DROPPED_SAMPLE_BYTES : nat := 64.

(** [str::is_char_boundary]: not in the middle of a UTF-8 sequence. *)
Definition is_char_boundary (s : string) (i : nat) : bool :=
  match String.get i s with
  | Some c => negb ((128 <=? byte_of c) && (byte_of c <? 192))
  | None => (i =? String.length s)%nat
  end.

(** [while end > 0 && !c.is_char_boundary(end) { end -= 1; }]. *)
Fixpoint back_off (s : string) (end_ : nat) : nat :=
  match end_ with
  | O => O
  | S e => if is_char_boundary s end_ then end_ else back_off s e
  end.

Definition sample (c : string) : string :=
  debug_str (String.substring 0 (back_off c (Nat.min DROPPED_SAMPLE_BYTES (String.length c))) c).

Definition push_sample (samples : list string) (c : string) : list string :=
  if (length samples <? DROPPED_SAMPLE_COUNT)%nat then samples ++ [sample c] else samples.

Record CandidateFilter : Type := {
  cf_kept : list string; cf_dropped : nat; cf_over_cap : nat; cf_samples : list string }.

Definition filter_candidate (f : CandidateFilter) (c : string) : CandidateFilter :=
  if negb (is_dialable_endpoint c) then
    {| cf_kept := cf_kept f; cf_dropped := S (cf_dropped f); cf_over_cap := cf_over_cap f;
       cf_samples := push_sample (cf_samples f) c |}
  else if (length (cf_kept f) =? MAX_PEER_CANDIDATES)%nat then
    {| cf_kept := cf_kept f; cf_dropped := cf_dropped f; cf_over_cap := S (cf_over_cap f);
       cf_samples := cf_samples f |}
  else
    {| cf_kept := cf_kept f ++ [c]; cf_dropped := cf_dropped f; cf_over_cap := cf_over_cap f;
       cf_samples := cf_samples f |}.

Definition partition_dialable (candidates : list string) : CandidateFilter :=
  foldl filter_candidate {| cf_kept := []; cf_dropped := 0; cf_over_cap := 0; cf_samples := [] |} candidates.

Definition show_usize (n : nat) : string := show_uint (Z.of_nat n).

Definition format_drop_warning (f : CandidateFilter) (source : string) : option string :=
  if ((cf_dropped f =? 0) && (cf_over_cap f =? 0))%nat then None
  else Some (
    "wiremesh-gateway: filtering peer candidate endpoints from " +:+ source +:+ " — kept " +:+
    show_usize (length (cf_kept f)) +:+
    (if (0 <? cf_dropped f)%nat then
       ", DROPPED " +:+ show_usize (cf_dropped f) +:+
       " that are not an IPv4 ip:port (writing one to the WireGuard UAPI would fail the whole device apply and terminate this process); first " +:+
       show_usize (length (cf_samples f)) +:+ ": " +:+ str_join ", " (cf_samples f)
     else "") +:+
    (if (0 <? cf_over_cap f)%nat then
       ", DROPPED " +:+ show_usize (cf_over_cap f) +:+ " valid endpoint(s) beyond the 64 per-peer cap"
     else "")).

(** The value; the warning goes to stderr. *)
Definition retain_dialable (candidates : list string) : list string := cf_kept (partition_dialable candidates).

Record CidrFilter : Type := { xf_kept : list string; xf_dropped : nat; xf_samples : list string }.

Definition filter_cidr (f : CidrFilter) (c : string) : CidrFilter :=
  if negb (is_valid_ipv4_cidr c) then
    {| xf_kept := xf_kept f; xf_dropped := S (xf_dropped f); xf_samples := push_sample (xf_samples f) c |}
  else {| xf_kept := xf_kept f ++ [c]; xf_dropped := xf_dropped f; xf_samples := xf_samples f |}.

Definition partition_valid_cidrs (cidrs : list string) : CidrFilter :=
  foldl filter_cidr {| xf_kept := []; xf_dropped := 0; xf_samples := [] |} cidrs.

Definition format_cidr_drop_warning (f : CidrFilter) (source : string) : option string :=
  if (xf_dropped f =? 0)%nat then None
  else Some (
    "wiremesh-gateway: filtering peer allowed_ips from " +:+ source +:+ " — kept " +:+
    show_usize (length (xf_kept f)) +:+ ", DROPPED " +:+ show_usize (xf_dropped f) +:+
    " that are not an IPv4 CIDR (writing one to the WireGuard UAPI would fail the whole device apply and terminate this process); first " +:+
    show_usize (length (xf_samples f)) +:+ ": " +:+ str_join ", " (xf_samples f)).

Definition retain_valid_cidrs (cidrs : list string) : list string := xf_kept (partition_valid_cidrs cidrs).

(** [Option::filter] with the decoder. *)
Definition decodable_key (k : option string) : option string :=
  b ← k; match pubkey_b64_to_hex b with Some _ => Some b | None => None end.

(** ** Peers *)

Definition key_info (k : PeerKey) : PeerKeyInfo :=
  {| ki_epoch := pk_epoch k; ki_pubkey_b64 := pk_pubkey k; ki_state := pk_state k |}.

Definition from_proto (p : Peer) : PeerState :=
  {| ps_gateway_id := peer_gateway_id p; ps_segment_name := peer_segment_name p;
     ps_active_pubkey_b64 :=
       decodable_key (pk_pubkey <$> List.find (fun k => bool_decide (pk_state k = "active")) (peer_keys p));
     ps_keys := map key_info (peer_keys p);
     ps_candidates := retain_dialable (peer_candidate_endpoints p);
     ps_allowed_ips := retain_valid_cidrs (peer_allowed_ips p) |}.

(** What [deserialize_with] makes of a persisted peer. *)
Definition deserialize_peer (p : PeerState) : PeerState :=
  {| ps_gateway_id := ps_gateway_id p; ps_segment_name := ps_segment_name p;
     ps_active_pubkey_b64 := decodable_key (ps_active_pubkey_b64 p); ps_keys := ps_keys p;
     ps_candidates := retain_dialable (ps_candidates p);
     ps_allowed_ips := retain_valid_cidrs (ps_allowed_ips p) |}.

Definition primary_endpoint (p : PeerState) : option string := head (ps_candidates p).

Definition active_key (p : PeerState) : option PeerKeyInfo :=
  List.find (fun k => bool_decide (ki_state k = "active")) (ps_keys p).

Definition pending_key (p : PeerState) : option PeerKeyInfo :=
  List.find (fun k => bool_decide (ki_state k = "pending") &&
                      negb (bool_decide (ki_pubkey_b64 k = "awaiting-submission"))) (ps_keys p).

(** ** The desired state *)

Record DesiredState : Type := {
  ds_revision : Z;
  ds_peers : list PeerState;
  ds_policy_ir : string;
  ds_policy_version : Z;
  ds_relays : list RelayInfo;
  ds_revoked_serials : list string }.

#[export] Instance DesiredState_eq_dec : EqDecision DesiredState.
Proof. solve_decision. Defined.

Definition from_snapshot (s : StateSnapshot) : DesiredState :=
  {| ds_revision := ss_revision s; ds_peers := map from_proto (ss_peers s);
     ds_policy_ir := ss_policy_ir s; ds_policy_version := ss_policy_version s;
     ds_relays := ss_relay_infos s; ds_revoked_serials := ss_revoked_serials s |}.

(** Replace the first peer with this id, or push. *)
Fixpoint upsert (ps : PeerState) (peers : list PeerState) : list PeerState :=
  match peers with
  | [] => [ps]
  | x :: rest => if ps_gateway_id x =? ps_gateway_id ps then ps :: rest else x :: upsert ps rest
  end.

Definition push_new (l : list string) (s : string) : list string :=
  if bool_decide (s ∈ l) then l else l ++ [s].

Definition apply_delta (ds : DesiredState) (d : Delta) : DesiredState :=
  let peers := foldl (fun peers p => upsert (from_proto p) peers) (ds_peers ds) (d_upserted_peers d) in
  let peers := List.filter (fun p => negb (bool_decide (ps_gateway_id p ∈ d_removed_peer_ids d))) peers in
  {| ds_revision := d_revision d; ds_peers := peers;
     ds_policy_ir := if d_policy_version d =? 0 then ds_policy_ir ds else d_policy_ir d;
     ds_policy_version := if d_policy_version d =? 0 then ds_policy_version ds else d_policy_version d;
     ds_relays := if d_relays_updated d then d_relay_infos d else ds_relays ds;
     ds_revoked_serials := foldl push_new (ds_revoked_serials ds) (d_revoked_serials d) |}.

(** [DesiredState::load] on what the file parses to. *)
Definition load (raw : DesiredState) : DesiredState :=
  {| ds_revision := ds_revision raw; ds_peers := map deserialize_peer (ds_peers raw);
     ds_policy_ir := ds_policy_ir raw; ds_policy_version := ds_policy_version raw;
     ds_relays := ds_relays raw; ds_revoked_serials := ds_revoked_serials raw |}.

(** ** Fail-static persistence *)

Section fail_static.
Context (from_slice : string -> option PolicyCompile.PolicyIR).

Definition policy_ir_is_decodable (ir : string) : bool :=
  bool_decide (ir = "") ||
  match PolicyCompile.from_json from_slice ir with Some _ => true | None => false end.

Record FailStaticWriter : Type := { last_good : option (Z * string); warned : option Z }.

Definition seeded_from (persisted : option DesiredState) : FailStaticWriter :=
  {| last_good :=
       match persisted with
       | Some ds => if policy_ir_is_decodable (ds_policy_ir ds)
                    then Some (ds_policy_version ds, ds_policy_ir ds) else None
       | None => None
       end;
     warned := None |}.

Definition with_policy (ds : DesiredState) (version : Z) (ir : string) : DesiredState :=
  {| ds_revision := ds_revision ds; ds_peers := ds_peers ds; ds_policy_ir := ir;
     ds_policy_version := version; ds_relays := ds_relays ds;
     ds_revoked_serials := ds_revoked_serials ds |}.

(** [FailStaticWriter::save]: the new writer, the state written to disk and
    whether a warning was printed. *)
Definition save (w : FailStaticWriter) (ds : DesiredState) : FailStaticWriter * DesiredState * bool :=
  if match last_good w with Some (_, ir) => bool_decide (ir = ds_policy_ir ds) | None => false end then
    ({| last_good := last_good w; warned := None |}, ds, false)
  else if policy_ir_is_decodable (ds_policy_ir ds) then
    ({| last_good := Some (ds_policy_version ds, ds_policy_ir ds); warned := None |}, ds, false)
  else
    let '(kept_version, kept_ir) := default (0, "") (last_good w) in
    let warn := negb (bool_decide (warned w = Some (ds_policy_version ds))) in
    ({| last_good := last_good w; warned := if warn then Some (ds_policy_version ds) else warned w |},
     with_policy ds kept_version kept_ir, warn).

(** A run of saves: what each of them wrote. *)
Fixpoint save_all (w : FailStaticWriter) (l : list DesiredState) :
    FailStaticWriter * list (DesiredState * bool) :=
  match l with
  | [] => (w, [])
  | ds :: l' =>
      let '(w1, written, warn) := save w ds in
      let '(w2, out) := save_all w1 l' in
      (w2, (written, warn) :: out)
  end.

(** ** What a run of saves leaves on disk *)

Definition good (ds : DesiredState) : bool := policy_ir_is_decodable (ds_policy_ir ds).
Definition pair_of (ds : DesiredState) : Z * string := (ds_policy_version ds, ds_policy_ir ds).

(** The last decodable state of a history. *)
Definition newest_good (h : list DesiredState) : option DesiredState := list.last (List.filter good h).

(** A pair a history justifies: the newest decodable IR under a version it came
    with; nothing when there is none. *)
Definition kept (h : list DesiredState) (p : option (Z * string)) : Prop :=
  match newest_good h, p with
  | None, None => True
  | Some d, Some q => snd q = ds_policy_ir d /\ (exists e, e ∈ h /\ good e = true /\ pair_of e = q)
  | _, _ => False
  end.

Definition bad_version (ds : DesiredState) : option Z :=
  if good ds then None else Some (ds_policy_version ds).

(** The writer after [h]: [h] starts with what was loaded at boot, and [prev]
    is the last state saved since. *)
Definition writer_inv (h : list DesiredState) (prev : option DesiredState) (w : FailStaticWriter) : Prop :=
  kept h (last_good w) /\ warned w = (prev ≫= bad_version).

Lemma newest_good_snoc h ds :
  newest_good (h ++ [ds]) = if good ds then Some ds else newest_good h.
Proof.
  unfold newest_good. rewrite List.filter_app. cbn. destruct (good ds); [by rewrite last_snoc|].
  by rewrite app_nil_r.
Qed.

Lemma kept_snoc_bad h ds p : good ds = false -> kept h p -> kept (h ++ [ds]) p.
Proof.
  intros Hb. unfold kept. rewrite newest_good_snoc, Hb. destruct (newest_good h), p; try done.
  intros (? & e & He & ?). split; [done|]. exists e. rewrite elem_of_app. auto.
Qed.

Lemma kept_snoc_good h ds : good ds = true -> kept (h ++ [ds]) (Some (pair_of ds)).
Proof.
  intros Hg. unfold kept. rewrite newest_good_snoc, Hg. split; [done|]. exists ds.
  split; [|done]. apply elem_of_app. right. by apply list_elem_of_singleton.
Qed.

Lemma kept_good h v ir : kept h (Some (v, ir)) -> policy_ir_is_decodable ir = true.
Proof.
  unfold kept. destruct (newest_good h); [|done]. by intros (_ & e & _ & Hg & [= _ <-]).
Qed.

Lemma kept_same_ir h v ds :
  kept h (Some (v, ds_policy_ir ds)) -> kept (h ++ [ds]) (Some (v, ds_policy_ir ds)).
Proof.
  intros Hk. assert (good ds = true) as Hg by (by eapply kept_good).
  unfold kept in *. rewrite newest_good_snoc, Hg. destruct (newest_good h); [|done].
  destruct Hk as (_ & e & He & ?). split; [done|]. exists e. rewrite elem_of_app. auto.
Qed.

Lemma seeded_inv persisted : writer_inv (option_list persisted) None (seeded_from persisted).
Proof.
  split; [|done]. unfold seeded_from, kept, newest_good. destruct persisted as [ds|]; [|done].
  cbn. change (policy_ir_is_decodable (ds_policy_ir ds)) with (good ds).
  destruct (good ds) eqn:E; cbn; [|done]. split; [done|]. exists ds. split; [apply list_elem_of_here|done].
Qed.

(** What one save writes, given the history before it. *)
Definition written_spec (h : list DesiredState) (prev : option DesiredState) (ds written : DesiredState)
    (warn : bool) : Prop :=
  if good ds then written = ds /\ warn = false
  else
    (exists p, kept h p /\
       written = with_policy ds (fst (default (0, "") p)) (snd (default (0, "") p))) /\
    warn = negb (bool_decide ((prev ≫= bad_version) = Some (ds_policy_version ds))).

Lemma save_spec h prev w ds :
  writer_inv h prev w ->
  let '(w', written, warn) := save w ds in
  written_spec h prev ds written warn /\ writer_inv (h ++ [ds]) (Some ds) w'.
Proof.
  intros [Hk Hw]. unfold save, written_spec, writer_inv. destruct (last_good w) as [[v ir]|] eqn:El.
  - destruct (bool_decide_reflect (ir = ds_policy_ir ds)) as [->|Hne].
    { assert (good ds = true) as Hg by (by eapply kept_good). cbn. unfold bad_version. rewrite Hg.
      split; [done|]. split; [|done]. by apply kept_same_ir. }
    fold (good ds). cbn. unfold bad_version. destruct (good ds) eqn:Hg; cbn.
    { split; [done|]. split; [|done]. by apply kept_snoc_good. }
    rewrite Hw. split; [split; [|done]; by exists (Some (v, ir))|].
    split; [by apply kept_snoc_bad|]. by destruct (bool_decide_reflect ((prev ≫= bad_version) = Some (ds_policy_version ds))).
  - fold (good ds). cbn. unfold bad_version. destruct (good ds) eqn:Hg; cbn.
    { split; [done|]. split; [|done]. by apply kept_snoc_good. }
    rewrite Hw. split; [split; [|done]; by exists None|].
    split; [by apply kept_snoc_bad|]. by destruct (bool_decide_reflect ((prev ≫= bad_version) = Some (ds_policy_version ds))).
Qed.

Lemma save_all_spec l : forall h prev w i ds written warn,
  writer_inv h prev w -> l !! i = Some ds -> snd (save_all w l) !! i = Some (written, warn) ->
  written_spec (h ++ take i l) (match i with O => prev | S j => l !! j end) ds written warn.
Proof.
  induction l as [|d l IH]; intros h prev w i ds written warn Hw Hi Ho; [done|].
  cbn [save_all] in Ho. pose proof (save_spec h prev w d Hw) as Hs.
  destruct (save w d) as [[w1 wr1] warn1] eqn:Es. destruct Hs as [Hs Hw1].
  destruct (save_all w1 l) as [w2 out] eqn:Ea. cbn [snd] in Ho.
  destruct i as [|i].
  - cbn in *. injection Hi as <-. injection Ho as <- <-. by rewrite app_nil_r.
  - cbn [lookup list_lookup take] in *. replace (h ++ d :: take i l) with ((h ++ [d]) ++ take i l)
      by by rewrite <- app_assoc.
    specialize (IH (h ++ [d]) (Some d) w1 i ds written warn Hw1 Hi). rewrite Ea in IH.
    specialize (IH Ho). by destruct i.
Qed.

Lemma kept_decodable h p : kept h p -> policy_ir_is_decodable (snd (default (0, "") p)) = true.
Proof. destruct p as [[v ir]|]; [|done]. apply kept_good. Qed.

(** C36: from the state loaded at boot and any run of saves, what the writer puts
    on disk is decodable, differs from the live state at most in the policy
    pair, is the live state itself when its policy decodes, and otherwise holds
    the newest decodable policy of the boot state and the earlier saves, or no
    policy when there is none.  A warning is printed for exactly the first of a
    streak of saves with one undecodable version. *)
Theorem fail_static_keeps_last_good persisted l i ds written warn :
  l !! i = Some ds -> snd (save_all (seeded_from persisted) l) !! i = Some (written, warn) ->
  policy_ir_is_decodable (ds_policy_ir written) = true /\
  written = with_policy ds (ds_policy_version written) (ds_policy_ir written) /\
  (good ds = true -> written = ds) /\
  (good ds = false ->
     match newest_good (option_list persisted ++ take i l) with
     | None => pair_of written = (0, "")
     | Some d => ds_policy_ir written = ds_policy_ir d /\
         exists e, e ∈ option_list persisted ++ take i l /\ pair_of e = pair_of written
     end) /\
  (warn = true <-> good ds = false /\
     forall j prev, i = S j -> l !! j = Some prev -> good prev = false ->
       ds_policy_version prev <> ds_policy_version ds).
Proof.
  intros Hi Ho. pose proof (save_all_spec l _ None _ i ds written warn (seeded_inv persisted) Hi Ho) as H.
  unfold written_spec in H. destruct (good ds) eqn:Hg.
  { destruct H as [-> ->]. split; [done|]. split; [by destruct ds|]. naive_solver. }
  destruct H as [(p & Hk & ->) ->].
  split; [by eapply kept_decodable|]. split; [by destruct p|]. split; [done|]. split.
  - intros _. unfold kept in Hk. destruct (newest_good _) as [d|], p as [[v ir]|]; try done.
    destruct Hk as (Hir & e & He & _ & Hp). split; [done|]. by exists e.
  - rewrite negb_true_iff, bool_decide_eq_false. split.
    + intros Hne. split; [done|]. intros j prev -> Hj Hb. rewrite Hj in Hne. cbn in Hne.
      unfold bad_version in Hne. rewrite Hb in Hne. congruence.
    + intros [_ Hall] Heq. destruct i as [|j]; [done|].
      destruct (l !! j) as [prev|] eqn:Ej; [|done]. cbn in Heq. unfold bad_version in Heq.
      destruct (good prev) eqn:Hb; [done|]. injection Heq as Hv. by eapply Hall.
Qed.
End fail_static.

(** A reader that knows schema 1 with no blocks. *)
Definition ex_reader (s : string) : option PolicyCompile.PolicyIR :=
  if bool_decide (s = "{1}") then
    Some {| PolicyCompile.pi_schema := 1; PolicyCompile.pi_version := 1; PolicyCompile.pi_blocks := [] |}
  else None.

Definition ex_live (version : Z) (ir : string) : DesiredState :=
  {| ds_revision := version; ds_peers := []; ds_policy_ir := ir; ds_policy_version := version;
     ds_relays := []; ds_revoked_serials := [] |}.

Definition ex_saves : list DesiredState := [ex_live 1 "{1}"; ex_live 2 "{2}"; ex_live 2 "{2}"].

Lemma fail_static_keeps_last_good_witness :
  snd (save_all ex_reader (seeded_from ex_reader None) ex_saves) =
    [(ex_live 1 "{1}", false); (with_policy (ex_live 2 "{2}") 1 "{1}", true);
     (with_policy (ex_live 2 "{2}") 1 "{1}", false)] /\
  policy_ir_is_decodable ex_reader "{1}" = true.
Proof.
  split; [vm_compute; reflexivity|].
  refine (proj1 (fail_static_keeps_last_good ex_reader None ex_saves 2 (ex_live 2 "{2}")
    (with_policy (ex_live 2 "{2}") 1 "{1}") false _ _)); vm_compute; reflexivity.
Defined.
