(* ===== verification/GwReconcile.v ===== *)
(** * Gateway: from the desired state to a device and its routes

    [crates/wiremesh-gateway/src/reconcile.rs]: the builders of the steady-state
    device, of the two rotation devices, and the route diff.  The theorems say
    that the filters of [GwState] are enough: whatever the controller streams or
    the state file holds, every device built from the state is encoded, and the
    request read back by the protocol's grammar is the one intended. *)
From Stdlib Require Import ZArith Lia Ascii.
From S2P Require Import Prelude StdNet SyncProto GwUapi GwState.
Open Scope Z_scope.

Definition OWN_TUN_PORT_OFFSET : Z := 1.

Definition peer_configs (ds : DesiredState) : list PeerConfig :=
  omap (fun p =>
    key ← ps_active_pubkey_b64 p;
    Some {| public_key_b64 := key; endpoint := primary_endpoint p; allowed_ips := ps_allowed_ips p;
            keepalive_secs := PERSISTENT_KEEPALIVE_SECS |}) (ds_peers ds).

Definition own_tun_endpoint (candidate : string) : option string :=
  if negb (is_dialable_endpoint candidate) then None
  else
    '(ip, port) ← parse_socket_v4 candidate;
    own_tun_port ← checked_add 16 port OWN_TUN_PORT_OFFSET;
    Some (show_ipv4 ip +:+ ":" +:+ show_uint own_tun_port).

Definition pending_peer_configs (ds : DesiredState) (keepalive : Z) : list PeerConfig :=
  omap (fun p =>
    _ ← active_key p;
    pending ← pending_key p;
    _ ← pubkey_b64_to_hex (ki_pubkey_b64 pending);
    candidate ← primary_endpoint p;
    pending_endpoint ← own_tun_endpoint candidate;
    Some {| public_key_b64 := ki_pubkey_b64 pending; endpoint := Some pending_endpoint;
            allowed_ips := ps_allowed_ips p; keepalive_secs := keepalive |}) (ds_peers ds).

Definition device_config (ds : DesiredState) (private_key : string) (port : Z) : DeviceConfig :=
  {| private_key_b64 := private_key; listen_port := port; peers := peer_configs ds |}.

Definition device_config_pinned (ds : DesiredState) (private_key : string) (port : Z)
    (pinned_pubkeys live_endpoints : gmap Z string) : DeviceConfig :=
  {| private_key_b64 := private_key; listen_port := port;
     peers := omap (fun p =>
       key ← match pinned_pubkeys !! ps_gateway_id p with
             | Some pinned => Some pinned
             | None => ps_active_pubkey_b64 p
             end;
       Some {| public_key_b64 := key;
               endpoint := match live_endpoints !! ps_gateway_id p with
                           | Some live => Some live
                           | None => primary_endpoint p
                           end;
               allowed_ips := ps_allowed_ips p;
               keepalive_secs := PERSISTENT_KEEPALIVE_SECS |}) (ds_peers ds) |}.

Definition device_config_at_port (ds : DesiredState) (private_key : string) (port keepalive : Z) : DeviceConfig :=
  {| private_key_b64 := private_key; listen_port := port;
     peers := omap (fun p =>
       key ← ps_active_pubkey_b64 p;
       Some {| public_key_b64 := key; endpoint := None; allowed_ips := ps_allowed_ips p;
               keepalive_secs := keepalive |}) (ds_peers ds) |}.

Record RouteDiff : Type := { to_add : list string; to_del : list string }.

(** A [BTreeSet] is its elements in order. *)
Definition all_cidrs (ds : DesiredState) : list string :=
  sort_text (remove_dups (concat (map ps_allowed_ips (ds_peers ds)))).

Definition difference (a b : list string) : list string :=
  List.filter (fun c => negb (bool_decide (c ∈ b))) a.

Definition route_diff (old new : DesiredState) : RouteDiff :=
  let o := all_cidrs old in
  let n := all_cidrs new in
  {| to_add := difference n o; to_del := difference o n |}.

Definition policy_changed (old new : DesiredState) : bool :=
  negb (ds_policy_version old =? ds_policy_version new).

(** ** Well-formed peers *)

Definition valid_key (b64 : string) : Prop := is_Some (key_of b64).
Definition dialable (ep : string) : Prop := is_dialable_endpoint ep = true.
Definition valid_cidr (c : string) : Prop := is_valid_ipv4_cidr c = true.

(** What the device builders rely on. *)
Definition peer_ok (p : PeerState) : Prop :=
  (forall k, ps_active_pubkey_b64 p = Some k -> valid_key k) /\
  Forall dialable (ps_candidates p) /\ (length (ps_candidates p) <= MAX_PEER_CANDIDATES)%nat /\
  Forall valid_cidr (ps_allowed_ips p).

Definition state_ok (ds : DesiredState) : Prop := Forall peer_ok (ds_peers ds).

Lemma partition_dialable_ok l f :
  Forall dialable (cf_kept f) -> (length (cf_kept f) <= MAX_PEER_CANDIDATES)%nat ->
  Forall dialable (cf_kept (foldl filter_candidate f l)) /\
  (length (cf_kept (foldl filter_candidate f l)) <= MAX_PEER_CANDIDATES)%nat.
Proof.
  revert f. induction l as [|c l IH]; intros f Hf Hn; [done|]. cbn [foldl].
  apply IH; unfold filter_candidate; destruct (is_dialable_endpoint c) eqn:E; cbn [negb]; try done;
    destruct (Nat.eqb_spec (length (cf_kept f)) MAX_PEER_CANDIDATES); cbn; try done.
  - apply Forall_app. split; [done|]. by constructor.
  - rewrite length_app. cbn. lia.
Qed.

Lemma retain_dialable_ok l :
  Forall dialable (retain_dialable l) /\ (length (retain_dialable l) <= MAX_PEER_CANDIDATES)%nat.
Proof. apply partition_dialable_ok; cbn; [constructor|unfold MAX_PEER_CANDIDATES; lia]. Qed.

Lemma retain_valid_cidrs_filter l : retain_valid_cidrs l = List.filter is_valid_ipv4_cidr l.
Proof.
  unfold retain_valid_cidrs, partition_valid_cidrs.
  enough (forall f, xf_kept (foldl filter_cidr f l) = xf_kept f ++ List.filter is_valid_ipv4_cidr l) as H
    by apply H.
  induction l as [|c l IH]; intros f; cbn [foldl List.filter]; [by rewrite app_nil_r|].
  rewrite IH. unfold filter_cidr. destruct (is_valid_ipv4_cidr c); cbn; [|done].
  by rewrite <- app_assoc.
Qed.

Lemma retain_valid_cidrs_ok l : Forall valid_cidr (retain_valid_cidrs l).
Proof.
  rewrite retain_valid_cidrs_filter. apply List.Forall_forall. intros c Hc%filter_In. apply Hc.
Qed.

Lemma valid_key_hex b : valid_key b <-> is_Some (pubkey_b64_to_hex b).
Proof. unfold valid_key. rewrite pubkey_b64_to_hex_key. by rewrite fmap_is_Some. Qed.

Lemma decodable_key_ok o k : decodable_key o = Some k -> valid_key k.
Proof.
  destruct o as [b|]; [|done]. cbn. destruct (pubkey_b64_to_hex b) eqn:E; [|done].
  intros [= <-]. apply valid_key_hex. eauto.
Qed.

Lemma from_proto_ok p : peer_ok (from_proto p).
Proof.
  destruct (retain_dialable_ok (peer_candidate_endpoints p)).
  repeat split; cbn; try done; [|apply retain_valid_cidrs_ok]. intros k. apply decodable_key_ok.
Qed.

Lemma deserialize_peer_ok p : peer_ok (deserialize_peer p).
Proof.
  destruct (retain_dialable_ok (ps_candidates p)).
  repeat split; cbn; try done; [|apply retain_valid_cidrs_ok]. intros k. apply decodable_key_ok.
Qed.

Lemma Forall_map_all {A B : Type} (f : A -> B) (P : B -> Prop) l : (forall a, P (f a)) -> Forall P (map f l).
Proof. intros H. induction l; constructor; auto. Qed.

Lemma upsert_ok p l : peer_ok p -> Forall peer_ok l -> Forall peer_ok (upsert p l).
Proof.
  intros Hp. induction 1 as [|x l Hx Hl IH]; cbn; [by constructor|].
  destruct (_ =? _); by constructor.
Qed.

Lemma from_snapshot_ok s : state_ok (from_snapshot s).
Proof. apply Forall_map_all, from_proto_ok. Qed.

Lemma load_ok raw : state_ok (load raw).
Proof. apply Forall_map_all, deserialize_peer_ok. Qed.

Lemma apply_delta_ok ds d : state_ok ds -> state_ok (apply_delta ds d).
Proof.
  unfold state_ok, apply_delta. cbn [ds_peers]. intros H.
  assert (Forall peer_ok (foldl (fun l p => upsert (from_proto p) l) (ds_peers ds) (d_upserted_peers d))) as H'.
  { revert H. generalize (ds_peers ds). induction (d_upserted_peers d) as [|p l IH]; intros l0 H0; [done|].
    cbn [foldl]. apply IH, upsert_ok; [apply from_proto_ok|done]. }
  rewrite List.Forall_forall in *. intros x [Hx _]%filter_In. by apply H'.
Qed.

Lemma apply_deltas_ok ds l : state_ok ds -> state_ok (foldl apply_delta ds l).
Proof. revert ds. induction l; intros ds H; [done|]. cbn [foldl]. by apply IHl, apply_delta_ok. Qed.

(** ** Every device is encoded *)

(** A configuration the encoder accepts, as a checkable condition. *)
Definition peer_config_ok (p : PeerConfig) : Prop :=
  valid_key (public_key_b64 p) /\ (forall ep, endpoint p = Some ep -> dialable ep) /\
  Forall valid_cidr (allowed_ips p) /\ wf_peer p.

Lemma endpoint_directives_total ep :
  (forall e, ep = Some e -> dialable e) -> is_Some (endpoint_directives ep).
Proof.
  intros H. destruct ep as [e|]; [|by eexists]. destruct (proj1 (dialable_spec e)) as [x Hx]; [by apply H|].
  cbn. rewrite Hx. by eexists.
Qed.

Lemma read_cidrs_total l : Forall valid_cidr l -> is_Some (mapM read_cidr l).
Proof.
  intros H. apply mapM_is_Some_2. eapply list.Forall_impl; [exact H|]. intros c. apply valid_cidr_spec.
Qed.

Lemma peer_directives_total p : peer_config_ok p -> is_Some (peer_directives p).
Proof.
  intros ([k Hk] & Hep & Hc & _). unfold peer_directives.
  destruct (endpoint_directives_total _ Hep) as [e He]. destruct (read_cidrs_total _ Hc) as [c Hc'].
  rewrite Hk, He. cbn. rewrite Hc'. by eexists.
Qed.

Lemma add_directives_total ps : Forall peer_config_ok ps -> is_Some (add_directives ps).
Proof.
  intros H. unfold add_directives. apply fmap_is_Some, mapM_is_Some_2.
  eapply list.Forall_impl; [exact H|]. apply peer_directives_total.
Qed.

(** The encoder accepts the device, and its text reads back as the device. *)
Definition encodes (cfg : DeviceConfig) : Prop :=
  exists text ds, encode_set cfg = Ok text /\ set_directives cfg = Some ds /\ read_request text = Some ds.

Lemma encodes_intro cfg :
  valid_key (private_key_b64 cfg) -> 0 <= listen_port cfg < 2 ^ 16 ->
  Forall peer_config_ok (peers cfg) -> encodes cfg.
Proof.
  intros [k Hk] Hport Hps.
  assert (wf_device cfg) as Hwf by (split; [done|]; eapply list.Forall_impl; [exact Hps|]; by intros p (_ & _ & _ & ?)).
  assert (is_Some (set_directives cfg)) as [ds Hds].
  { destruct (add_directives_total _ Hps) as [a Ha]. unfold set_directives. rewrite Hk.
    cbn. rewrite Ha. by eexists. }
  pose proof (encode_set_spec cfg Hwf) as E. rewrite Hds in E.
  destruct (encode_set cfg) as [text|e] eqn:Et; [|done]. exists text, ds. by rewrite Et.
Qed.

Lemma Forall_omap {A B : Type} (P : A -> Prop) (Q : B -> Prop) (f : A -> option B) l :
  (forall a b, P a -> f a = Some b -> Q b) -> Forall P l -> Forall Q (omap f l).
Proof.
  intros H. induction 1 as [|a l Ha Hl IH]; cbn; [constructor|].
  destruct (f a) eqn:E; cbn; [|done]. constructor; [by eapply H|done].
Qed.

Lemma primary_endpoint_ok p ep : peer_ok p -> primary_endpoint p = Some ep -> dialable ep.
Proof.
  intros (_ & H & _). unfold primary_endpoint. destruct H; [done|]. by intros [= <-].
Qed.

Lemma own_tun_endpoint_ok c ep : own_tun_endpoint c = Some ep -> dialable ep.
Proof.
  unfold own_tun_endpoint. destruct (is_dialable_endpoint c); [|done]. cbn [negb].
  destruct (parse_socket_v4 c) as [[ip port]|] eqn:E; [|done]. cbn.
  apply parse_socket_v4_range in E. unfold checked_add.
  destruct (Z.ltb_spec (port + OWN_TUN_PORT_OFFSET) (2 ^ 16)); [|done]. cbn. intros [= <-].
  apply (dialable_spec (show_socket_v4 (ip, port + OWN_TUN_PORT_OFFSET))).
  rewrite parse_show_socket_v4; unfold OWN_TUN_PORT_OFFSET in *; [by eexists|lia..].
Qed.

Lemma peer_entry_ok p key ep k :
  peer_ok p -> valid_key key -> (forall e, ep = Some e -> dialable e) -> 0 <= k < 2 ^ 16 ->
  peer_config_ok {| public_key_b64 := key; endpoint := ep; allowed_ips := ps_allowed_ips p; keepalive_secs := k |}.
Proof. intros (_ & _ & _ & Hc) Hkey Hep Hk. exact (conj Hkey (conj Hep (conj Hc Hk))). Qed.

Lemma keepalive_u16 : 0 <= PERSISTENT_KEEPALIVE_SECS < 2 ^ 16.
Proof. unfold PERSISTENT_KEEPALIVE_SECS. lia. Qed.

Create HintDb device.
#[export] Hint Resolve peer_entry_ok keepalive_u16 primary_endpoint_ok own_tun_endpoint_ok : device.

Section devices.
Context (ds : DesiredState) (Hds : state_ok ds).

Lemma pinned_peers_ok sk port pins live :
  map_Forall (fun _ => valid_key) pins -> map_Forall (fun _ => dialable) live ->
  Forall peer_config_ok (peers (device_config_pinned ds sk port pins live)).
Proof.
  intros Hpins Hlive. eapply Forall_omap; [|exact Hds]. intros p c Hp Hc.
  apply bind_Some in Hc as (key & Hkey & [= <-]). apply peer_entry_ok; [done|..|done].
  - destruct (pins !! ps_gateway_id p) eqn:E; [by injection Hkey as <-; apply Hpins in E|].
    by apply (proj1 Hp).
  - destruct (live !! ps_gateway_id p) eqn:E; [|eauto with device].
    intros ? [= <-]. by apply Hlive in E.
Qed.

Lemma peer_configs_ok : Forall peer_config_ok (peer_configs ds).
Proof.
  eapply Forall_omap; [|exact Hds]. intros p c Hp Hc.
  apply bind_Some in Hc as (key & Hkey & [= <-]).
  apply peer_entry_ok; [done|by apply (proj1 Hp)|eauto with device|done].
Qed.

Lemma own_epoch_peers_ok sk port keepalive :
  0 <= keepalive < 2 ^ 16 -> Forall peer_config_ok (peers (device_config_at_port ds sk port keepalive)).
Proof.
  intros Hk. eapply Forall_omap; [|exact Hds]. intros p c Hp Hc.
  apply bind_Some in Hc as (key & Hkey & [= <-]). apply peer_entry_ok; [done|by apply (proj1 Hp)|done|done].
Qed.

Lemma pending_peers_ok keepalive :
  0 <= keepalive < 2 ^ 16 -> Forall peer_config_ok (pending_peer_configs ds keepalive).
Proof.
  intros Hk. eapply Forall_omap; [|exact Hds]. intros p c Hp Hc.
  apply bind_Some in Hc as (? & _ & Hc). apply bind_Some in Hc as (pending & _ & Hc).
  apply bind_Some in Hc as (hex & Hhex & Hc). apply bind_Some in Hc as (cand & _ & Hc).
  apply bind_Some in Hc as (ep & Hep & [= <-]). apply peer_entry_ok; [done|..|done].
  - apply valid_key_hex. eauto.
  - intros ? [= <-]. eauto with device.
Qed.
End devices.

(** The states the gateway can hold: what a state file gives, what a snapshot
    gives, and what a delta makes of either. *)
Inductive held : DesiredState -> Prop :=
| held_load raw : held (load raw)
| held_snapshot s : held (from_snapshot s)
| held_delta ds d : held ds -> held (apply_delta ds d).

Lemma held_ok ds : held ds -> state_ok ds.
Proof. induction 1; auto using load_ok, from_snapshot_ok, apply_delta_ok. Qed.

(** The Role-B overlap device of [main.rs]: this gateway's key and port, the
    rotating peer's entry. *)
Definition overlap_device (sk : string) (port : Z) (ps : list PeerConfig) : DeviceConfig :=
  {| private_key_b64 := sk; listen_port := port; peers := ps |}.


Definition ex_peer : Peer :=
  {| peer_gateway_id := 7; peer_segment_name := "home";
     peer_keys := [ {| pk_epoch := 0; pk_pubkey := base64_encode (map Z.of_nat (seq 1 32)); pk_state := "active" |};
                    {| pk_epoch := 1; pk_pubkey := base64_encode (map Z.of_nat (seq 40 32)); pk_state := "pending" |} ];
     peer_candidate_endpoints := ["203.0.113.9:51820"; "0.0.0.0"; "10.0.0.1:1" +:+ String LF "remove=true"];
     peer_allowed_ips := ["10.1.0.0/16"; "10.1.0.0/33"] |}.

Definition ex_delta : Delta :=
  {| d_revision := 4; d_upserted_peers := [ex_peer]; d_removed_peer_ids := [3]; d_relay_infos := [];
     d_relays_updated := false; d_policy_ir := ""; d_policy_version := 0; d_revoked_serials := ["aa"] |}.

Definition ex_raw : DesiredState :=
  {| ds_revision := 3;
     ds_peers := [ {| ps_gateway_id := 3; ps_segment_name := "office"; ps_active_pubkey_b64 := Some "AAAA";
                      ps_keys := []; ps_candidates := ["[::1]:51820"]; ps_allowed_ips := ["10.3.0.0/16"] |} ];
     ds_policy_ir := ""; ds_policy_version := 0; ds_relays := []; ds_revoked_serials := [] |}.

Definition ex_state : DesiredState := apply_delta (load ex_raw) ex_delta.
Definition ex_private : string := base64_encode (map Z.of_nat (seq 90 32)).

