(* ===== verification/CtlView.v ===== *)
(** * Controller and gateway: what an open stream shows

    A gateway reads a snapshot once and then applies deltas.  This file relates
    the state it holds to the snapshot the controller would build now: the
    entries of a store ([peer_ent]), what a list of change events does to an
    entry of the stream ([entry_after]), and the effect a handler must have for
    its events to keep a stream up to date ([effect], [stream_step]).  Order of
    peers, order of a peer's prefixes and repetitions of revoked serials do not
    matter to a gateway, so states are compared up to them ([same_mesh]). *)
From Stdlib Require Import ZArith Lia Ascii.
From S2P Require Import Prelude StdNet IpNet CtlKeys CtlStore SyncProto CtlProjection GwState GwReconcile.
Open Scope Z_scope.

(** ** Peers up to the order of their prefixes *)

Record peer_sim (p q : Peer) : Prop := {
  sim_id : peer_gateway_id p = peer_gateway_id q;
  sim_name : peer_segment_name p = peer_segment_name q;
  sim_keys : peer_keys p = peer_keys q;
  sim_candidates : peer_candidate_endpoints p = peer_candidate_endpoints q;
  sim_ips : peer_allowed_ips p ≡ₚ peer_allowed_ips q }.

#[export] Instance peer_sim_equiv : Equivalence peer_sim.
Proof.
  split.
  - by split.
  - intros p q []. by split.
  - intros p q r [] []. split; by etrans.
Qed.

Record entry_sim (p q : PeerState) : Prop := {
  es_id : ps_gateway_id p = ps_gateway_id q;
  es_name : ps_segment_name p = ps_segment_name q;
  es_active : ps_active_pubkey_b64 p = ps_active_pubkey_b64 q;
  es_keys : ps_keys p = ps_keys q;
  es_candidates : ps_candidates p = ps_candidates q;
  es_ips : ps_allowed_ips p ≡ₚ ps_allowed_ips q }.

#[export] Instance entry_sim_equiv : Equivalence entry_sim.
Proof.
  split.
  - by split.
  - intros p q []. by split.
  - intros p q r [] []. split; by etrans.
Qed.

Lemma filter_b_perm {A : Type} (p : A -> bool) l1 l2 : l1 ≡ₚ l2 -> List.filter p l1 ≡ₚ List.filter p l2.
Proof.
  induction 1; cbn; [done| | |by etrans].
  - destruct (p x); [by constructor|done].
  - destruct (p x), (p y); try done. constructor.
Qed.

#[export] Instance from_proto_proper : Proper (peer_sim ==> entry_sim) from_proto.
Proof.
  intros p q [Hi Hn Hk Hc Hips]. split; cbn; try congruence.
  rewrite !retain_valid_cidrs_filter. by apply filter_b_perm.
Qed.

(** ** Desired states *)

Definition find_peer (ds : DesiredState) (x : Z) : option PeerState :=
  List.find (fun p => ps_gateway_id p =? x) (ds_peers ds).

(** Two states a gateway treats alike, but for the peers in [D]. *)
Record same_mesh (D : Z -> Prop) (a b : DesiredState) : Prop := {
  sm_peers : forall x, ~ D x -> option_Forall2 entry_sim (find_peer a x) (find_peer b x);
  sm_policy : ds_policy_version a = ds_policy_version b /\ ds_policy_ir a = ds_policy_ir b;
  sm_relays : ds_relays a = ds_relays b;
  sm_revoked : forall r, r ∈ ds_revoked_serials a <-> r ∈ ds_revoked_serials b }.

Lemma same_mesh_refl D a : same_mesh D a a.
Proof. by split. Qed.

Lemma find_upsert p l x :
  List.find (fun q => ps_gateway_id q =? x) (upsert p l) =
  if ps_gateway_id p =? x then Some p else List.find (fun q => ps_gateway_id q =? x) l.
Proof.
  induction l as [|q l IH]; cbn; [done|].
  destruct (Z.eqb_spec (ps_gateway_id q) (ps_gateway_id p)) as [E | Hne]; cbn.
  - rewrite E. by destruct (_ =? x).
  - rewrite IH. destruct (Z.eqb_spec (ps_gateway_id q) x) as [<- |]; [|done].
    by destruct (Z.eqb_spec (ps_gateway_id p) (ps_gateway_id q)).
Qed.

Lemma find_filter_id (ids : list Z) l x :
  List.find (fun q => ps_gateway_id q =? x)
    (List.filter (fun p => negb (bool_decide (ps_gateway_id p ∈ ids))) l) =
  if bool_decide (x ∈ ids) then None else List.find (fun q => ps_gateway_id q =? x) l.
Proof.
  induction l as [|q l IH]; cbn; [by case_bool_decide|].
  destruct (bool_decide_reflect (ps_gateway_id q ∈ ids)) as [Hq | Hq]; cbn; rewrite IH;
    destruct (Z.eqb_spec (ps_gateway_id q) x) as [<- |]; try done.
  - by rewrite bool_decide_eq_true_2.
  - by rewrite bool_decide_eq_false_2.
Qed.

Lemma elem_of_push_new l s r : r ∈ push_new l s <-> r ∈ l \/ r = s.
Proof.
  unfold push_new. case_bool_decide; [naive_solver|]. rewrite elem_of_app, list_elem_of_singleton. done.
Qed.

Lemma elem_of_push_all l ss r : r ∈ foldl push_new l ss <-> r ∈ l \/ r ∈ ss.
Proof.
  revert l. induction ss as [|s ss IH]; intros l; cbn; [rewrite elem_of_nil; tauto|].
  rewrite IH, elem_of_push_new, elem_of_cons. tauto.
Qed.

(** ** What an event says about a gateway *)

Inductive Entry : Type := Refreshed (p : Peer) | Introduced (p : Peer) | Removed.

(** The peer a full refresh carries. *)
Definition refreshed_peer (g : Z) (name : string) (ips : list string) (keys : list GatewayKeyRow)
    (cands : list string) : Peer :=
  {| peer_gateway_id := as_u64 g; peer_segment_name := name; peer_keys := advertisable_peer_keys keys;
     peer_candidate_endpoints := cands; peer_allowed_ips := ips |}.

Definition entry_of (e : ChangeEvent) : option (Z * Entry) :=
  match e with
  | GatewayEnrolled g name ips _ _ => Some (g, Introduced (refreshed_peer g name ips [] []))
  | KeyRotated g name ips keys cands _ | EndpointObserved g name ips keys cands _
  | SegmentCidrsChanged g name ips keys cands _ => Some (g, Refreshed (refreshed_peer g name ips keys cands))
  | GatewayDrained g _ _ => Some (g, Removed)
  | CertRevoked _ _ | PolicyUpdated _ _ _ | RelaysChanged _ _ => None
  end.

Definition serials_of (e : ChangeEvent) : list string := d_revoked_serials (delta_for_change e).

(** The last word of a list of events on a gateway, on the policy, on the relays. *)
Definition entry_after (evs : list ChangeEvent) (x : Z) : option Entry :=
  foldl (fun acc e => match entry_of e with
                      | Some (g, n) => if g =? x then Some n else acc
                      | None => acc
                      end) None evs.

Definition policy_after (evs : list ChangeEvent) : option (Z * string) :=
  foldl (fun acc e => match e with PolicyUpdated v ir _ => Some (v, ir) | _ => acc end) None evs.

Definition relays_after (evs : list ChangeEvent) : option (list RelayInfo) :=
  foldl (fun acc e => match e with RelaysChanged infos _ => Some infos | _ => acc end) None evs.

Definition peer_of_entry (n : Entry) : option Peer :=
  match n with Refreshed p | Introduced p => Some p | Removed => None end.

(** Ids that fit the stream's [u64] and are not the subject of global events. *)
Definition id_ok (x : Z) : Prop := 0 < x < 2 ^ 63.

Lemma as_u64_id x : id_ok x -> as_u64 x = x.
Proof. intros H. unfold as_u64, wrap. apply Z.mod_small. unfold id_ok in H. lia. Qed.

(** Events name ids that fit, and no policy version is the "unchanged" marker. *)
Definition event_ok (e : ChangeEvent) : Prop :=
  (forall g n, entry_of e = Some (g, n) -> id_ok g) /\
  (forall v ir r, e = PolicyUpdated v ir r -> v <> 0).

Section fold.
Context (self : Z).

(** The deltas of one event on one entry. *)
Lemma delta_entry ds e x :
  event_ok e ->
  find_peer (apply_delta ds (delta_for_change e)) x =
  match entry_of e with
  | Some (g, n) => if g =? x then from_proto <$> peer_of_entry n else find_peer ds x
  | None => find_peer ds x
  end.
Proof.
  intros [Hid _]. unfold find_peer, apply_delta. cbn [ds_peers]. rewrite find_filter_id.
  assert (bool_decide (x ∈ @nil Z) = false) as Hnil by (apply bool_decide_eq_false_2, not_elem_of_nil).
  destruct e as [g| g | g | g | | | g |];
    cbn [d_removed_peer_ids d_upserted_peers delta_for_change refresh_delta empty_delta foldl entry_of] in *;
    try (specialize (Hid _ _ eq_refl); rewrite as_u64_id by done);
    rewrite ?Hnil, ?find_upsert; try done;
    try (cbn [ps_gateway_id from_proto peer_gateway_id]; destruct (g =? x); [|done];
         cbn; unfold refreshed_peer; by rewrite as_u64_id by done).
  destruct (Z.eqb_spec g x) as [-> | Hne].
  - rewrite bool_decide_eq_true_2; [done|]. by apply list_elem_of_singleton.
  - rewrite bool_decide_eq_false_2; [done|]. intros E%list_elem_of_singleton. congruence.
Qed.

Lemma entry_after_snoc evs e x :
  entry_after (evs ++ [e]) x =
  match entry_of e with
  | Some (g, n) => if g =? x then Some n else entry_after evs x
  | None => entry_after evs x
  end.
Proof. unfold entry_after. by rewrite foldl_snoc. Qed.

Lemma forward_snoc evs e :
  forward_gateway self (evs ++ [e]) =
  forward_gateway self evs ++ (if subject_gateway_id e =? self then [] else [delta_for_change e]).
Proof.
  unfold forward_gateway. rewrite omap_app. f_equal. cbn. unfold gateway_delta. by destruct (_ =? self).
Qed.

Lemma entry_subject e g n : entry_of e = Some (g, n) -> subject_gateway_id e = g.
Proof. by destruct e; cbn; intros [= <- _]. Qed.

(** A stream's entry for another gateway after the deltas. *)
Lemma find_after ds evs x :
  Forall event_ok evs -> x <> self ->
  find_peer (foldl apply_delta ds (forward_gateway self evs)) x =
  match entry_after evs x with
  | Some n => from_proto <$> peer_of_entry n
  | None => find_peer ds x
  end.
Proof.
  intros Hok Hx. induction evs as [|e evs IH] using rev_ind; [done|].
  apply Forall_app in Hok as [Hok He]. apply Forall_cons_iff in He as [He _]. specialize (IH Hok).
  rewrite forward_snoc, foldl_app, entry_after_snoc.
  destruct (entry_of e) as [[g n]|] eqn:Een.
  - rewrite (entry_subject _ _ _ Een). destruct (Z.eqb_spec g self) as [-> | Hg]; cbn [foldl].
    + destruct (Z.eqb_spec self x); [congruence|done].
    + rewrite delta_entry, Een by done. by destruct (g =? x).
  - destruct (_ =? self); cbn [foldl]; [done|]. by rewrite delta_entry, Een.
Qed.

(** The gateway itself is never in its stream. *)
Lemma find_self ds evs :
  Forall event_ok evs -> find_peer ds self = None ->
  find_peer (foldl apply_delta ds (forward_gateway self evs)) self = None.
Proof.
  intros Hok Hn. induction evs as [|e evs IH] using rev_ind; [done|].
  apply Forall_app in Hok as [Hok He]. apply Forall_cons_iff in He as [He _]. specialize (IH Hok).
  rewrite forward_snoc, foldl_app. destruct (Z.eqb_spec (subject_gateway_id e) self) as [|Hne]; [done|].
  cbn [foldl]. rewrite delta_entry by done. destruct (entry_of e) as [[g n]|] eqn:Een; [|done].
  apply entry_subject in Een. destruct (Z.eqb_spec g self); [congruence|done].
Qed.

Hypothesis Hself : self <> 0.

Lemma policy_fold ds evs :
  Forall event_ok evs ->
  let ds' := foldl apply_delta ds (forward_gateway self evs) in
  (ds_policy_version ds', ds_policy_ir ds') =
    default (ds_policy_version ds, ds_policy_ir ds) (policy_after evs).
Proof.
  intros Hok ds'. subst ds'. induction evs as [|e evs IH] using rev_ind; [done|].
  apply Forall_app in Hok as [Hok He]. apply Forall_cons_iff in He as [[_ He] _]. specialize (IH Hok).
  rewrite forward_snoc, foldl_app. unfold policy_after. rewrite foldl_snoc. fold (policy_after evs).
  destruct e; cbn [subject_gateway_id]; try (destruct (_ =? self); [done|]; exact IH).
  specialize (He _ _ _ eq_refl). destruct (Z.eqb_spec 0 self) as [<- |]; [done|]. cbn.
  by destruct (Z.eqb_spec version 0).
Qed.

Lemma relays_fold ds evs :
  ds_relays (foldl apply_delta ds (forward_gateway self evs)) = default (ds_relays ds) (relays_after evs).
Proof.
  induction evs as [|e evs IH] using rev_ind; [done|].
  rewrite forward_snoc, foldl_app. unfold relays_after. rewrite foldl_snoc. fold (relays_after evs).
  destruct e; cbn [subject_gateway_id]; try (destruct (_ =? self); [done|]; exact IH).
  destruct (Z.eqb_spec 0 self) as [<- |]; done.
Qed.

Lemma revoked_fold ds evs r :
  r ∈ ds_revoked_serials (foldl apply_delta ds (forward_gateway self evs)) <->
  r ∈ ds_revoked_serials ds \/
  exists e, e ∈ evs /\ subject_gateway_id e <> self /\ r ∈ serials_of e.
Proof.
  induction evs as [|e evs IH] using rev_ind.
  { cbn. split; [auto|]. intros [H | (e & He & _)]; [done|by apply elem_of_nil in He]. }
  rewrite forward_snoc, foldl_app. setoid_rewrite elem_of_app. setoid_rewrite list_elem_of_singleton.
  destruct (Z.eqb_spec (subject_gateway_id e) self) as [E | Hne]; cbn [foldl].
  - rewrite IH. naive_solver.
  - unfold apply_delta at 1. cbn [ds_revoked_serials]. rewrite elem_of_push_all, IH.
    fold (serials_of e). naive_solver.
Qed.
End fold.

(** ** What a store says about a gateway *)

Section store_view.
Context {N : Ipv4NetApi} {J : JsonText}.

(** The entry of an active gateway, for the others. *)
Definition peer_ent (s : Store) (x : Z) : option Peer :=
  g ← active_gateway s x;
  name ← segment_name s (gw_segment g);
  Some (refreshed_peer x name (cidrs_for_segment s (gw_segment g))
          (all_keys_for_gateway (keys_db s) x) (candidates_for s x)).

Definition ids (s : Store) : list Z := map gw_id (gateway s).

Lemma find_other s self x l :
  NoDup (map gw_id l) -> Forall (fun g => id_ok (gw_id g)) l ->
  List.find (fun r => as_u64 (gr_id r) =? x)
    (omap (fun g =>
       if negb (gw_id g =? self) && gw_active g then
         (fun n => {| gr_id := gw_id g; gr_segment_id := gw_segment g; gr_segment_name := n;
                      gr_candidate_endpoint := gw_candidate_endpoint g |}) <$> segment_name s (gw_segment g)
       else None) l) =
  if x =? self then None else
    g ← List.find (fun g => (gw_id g =? x) && gw_active g) l;
    n ← segment_name s (gw_segment g);
    Some {| gr_id := gw_id g; gr_segment_id := gw_segment g; gr_segment_name := n;
            gr_candidate_endpoint := gw_candidate_endpoint g |}.
Proof.
  induction l as [|g l IH]; cbn [map omap list_omap List.find]; intros Hnd Hok; [by destruct (x =? self)|].
  apply list.NoDup_cons in Hnd as [Hnew Hnd]. apply Forall_cons_iff in Hok as [Hg Hok]. specialize (IH Hnd Hok).
  assert (gw_id g = x -> List.find (fun g => (gw_id g =? x) && gw_active g) l = None) as Hrest.
  { intros <-. apply find_none_iff, list.Forall_forall. intros g' Hg'.
    destruct (Z.eqb_spec (gw_id g') (gw_id g)) as [E|]; [|done]. destruct Hnew. rewrite <- E.
    apply list_elem_of_fmap. by exists g'. }
  destruct (Z.eqb_spec (gw_id g) x) as [Ex | Hne].
  - specialize (Hrest Ex). rewrite Hrest in IH. subst x. cbn [andb].
    destruct (Z.eqb_spec (gw_id g) self) as [Es | Hs]; cbn [negb andb].
    + rewrite IH. done.
    + destruct (gw_active g); cbn [andb]; [|rewrite Hrest; exact IH].
      cbn [mbind option_bind]. destruct (segment_name s (gw_segment g)) as [n|]; cbn; [|exact IH].
      by rewrite as_u64_id, Z.eqb_refl.
  - cbn [andb]. destruct (negb (gw_id g =? self) && gw_active g); [|exact IH].
    destruct (segment_name s (gw_segment g)) as [n|]; cbn; [|exact IH].
    rewrite as_u64_id by done. destruct (Z.eqb_spec (gw_id g) x); [done|]. exact IH.
Qed.

Lemma snapshot_peer v s self cert x :
  NoDup (ids s) -> Forall (fun g => id_ok (gw_id g)) (gateway s) ->
  find_peer (from_snapshot (build_snapshot v s self cert)) x =
  if x =? self then None else from_proto <$> peer_ent s x.
Proof.
  intros Hnd Hok. unfold find_peer. cbn [ds_peers from_snapshot build_snapshot ss_peers].
  rewrite !find_map_inj. unfold peers_of. rewrite find_map_inj. unfold list_other_gateways.
  cbn [ps_gateway_id from_proto peer_gateway_id peer_of_route pr_gateway_id peer_route].
  rewrite find_other by done. destruct (x =? self); [done|]. unfold peer_ent, active_gateway.
  destruct (List.find _ (gateway s)) as [g|] eqn:E; [|done]. cbn.
  destruct (segment_name s (gw_segment g)) as [n|]; [|done]. cbn. do 2 f_equal.
  apply List.find_some in E as [_ Hb]. apply andb_true_iff in Hb as [->%Z.eqb_eq _].
  unfold peer_of_route, peer_route, refreshed_peer. done.
Qed.

Lemma peer_ent_inactive s x : gateway_is_active s x = false -> peer_ent s x = None.
Proof.
  unfold gateway_is_active, peer_ent, active_gateway. intros H.
  destruct (List.find _ (gateway s)) as [g|] eqn:E; [|done]. apply List.find_some in E as [Hin Hb].
  rewrite <- not_true_iff_false in H. destruct H. apply existsb_exists. by exists g.
Qed.

(** ** The effect of a handler *)

(** What a handler's transaction and events must be to each other. *)
Record effect (s s' : Store) (evs : list ChangeEvent) : Prop := {
  ef_ids : ids s ⊆ ids s';
  ef_active : forall x, x ∈ ids s -> gateway_is_active s' x = true -> gateway_is_active s x = true;
  ef_subjects : forall e g n, e ∈ evs -> entry_of e = Some (g, n) -> g ∈ ids s';
  ef_entry : forall x,
    match entry_after evs x with
    | Some (Refreshed p) => gateway_is_active s' x = true -> option_Forall2 peer_sim (Some p) (peer_ent s' x)
    | Some (Introduced _) => True
    | Some Removed => gateway_is_active s' x = false
    | None => gateway_is_active s x = gateway_is_active s' x ->
              option_Forall2 peer_sim (peer_ent s x) (peer_ent s' x)
    end;
  ef_policy : policy_pair s' = default (policy_pair s) (policy_after evs);
  ef_versions : forall v ir r, PolicyUpdated v ir r ∈ evs -> v <> 0;
  ef_relays : relay_infos_of (active_relays s') = default (relay_infos_of (active_relays s)) (relays_after evs);
  ef_revoked : forall r, r ∈ revoked_serials s' <->
    r ∈ revoked_serials s \/ exists e, e ∈ evs /\ r ∈ serials_of e;
  ef_own : forall e x, e ∈ evs -> serials_of e <> [] -> subject_gateway_id e = x -> x <> 0 -> x ∈ ids s ->
    gateway_is_active s' x = false }.

(** The gateways an open stream may show wrongly after a handler: one whose last
    event is a refresh although it is not active, or its first introduction; one
    that came or went without an event. *)
Definition stale_after (stale : Z -> Prop) (s s' : Store) (evs : list ChangeEvent) (x : Z) : Prop :=
  match entry_after evs x with
  | Some (Refreshed _) => gateway_is_active s' x = false
  | Some (Introduced _) => True
  | Some Removed => False
  | None => stale x \/ gateway_is_active s x <> gateway_is_active s' x
  end.

Lemma option_sim_fmap o1 o2 :
  option_Forall2 peer_sim o1 o2 -> option_Forall2 entry_sim (from_proto <$> o1) (from_proto <$> o2).
Proof. destruct 1; constructor. by apply from_proto_proper. Qed.

#[export] Instance option_entry_equiv : Equivalence (option_Forall2 entry_sim).
Proof. apply _. Qed.

Context (version cert : string) (self : Z).

Definition snapshot_state (s : Store) : DesiredState := from_snapshot (build_snapshot version s self cert).

Definition ids_fit (s : Store) : Prop := NoDup (ids s) /\ Forall (fun g => id_ok (gw_id g)) (gateway s).

Lemma ids_fit_in s x : ids_fit s -> x ∈ ids s -> id_ok x.
Proof.
  intros [_ H] (g & -> & Hg)%list_elem_of_fmap. rewrite list.Forall_forall in H. by apply H.
Qed.

Lemma effect_events_ok s s' evs : effect s s' evs -> ids_fit s' -> Forall event_ok evs.
Proof.
  intros Hef Hfit. apply list.Forall_forall. intros e He. split.
  - intros g n Hn. eapply ids_fit_in; [done|]. by eapply ef_subjects.
  - intros v ir r ->. by eapply ef_versions.
Qed.

Lemma stream_peers stale s s' evs ds x :
  effect s s' evs -> ids_fit s -> ids_fit s' -> find_peer ds self = None ->
  same_mesh stale ds (snapshot_state s) -> ~ stale_after stale s s' evs x ->
  option_Forall2 entry_sim
    (find_peer (foldl apply_delta ds (forward_gateway self evs)) x) (find_peer (snapshot_state s') x).
Proof.
  intros Hef Hfit Hfit' Hnone Hm Hx. pose proof (effect_events_ok _ _ _ Hef Hfit') as Hok.
  unfold snapshot_state. rewrite snapshot_peer by apply Hfit'.
  destruct (Z.eqb_spec x self) as [-> | Hne].
  { by rewrite find_self by done. }
  rewrite find_after by done. pose proof (ef_entry _ _ _ Hef x) as He. unfold stale_after in Hx.
  destruct (entry_after evs x) as [[p|p|]|].
  - apply not_false_iff_true in Hx. by apply (option_sim_fmap (Some p)), He.
  - done.
  - by rewrite peer_ent_inactive.
  - apply Decidable.not_or in Hx as [Hs Ha]. etrans; [by apply (sm_peers _ _ _ Hm)|].
    unfold snapshot_state. rewrite snapshot_peer by apply Hfit.
    destruct (Z.eqb_spec x self); [done|]. apply option_sim_fmap, He.
    destruct (gateway_is_active s x), (gateway_is_active s' x); done || by destruct Ha.
Qed.

(** A stream that shows a store shows the next one once the events are applied,
    but for the stale gateways. *)
Lemma stream_step stale s s' evs ds :
  effect s s' evs -> ids_fit s -> ids_fit s' -> self ∈ ids s -> gateway_is_active s' self = true ->
  find_peer ds self = None -> same_mesh stale ds (snapshot_state s) ->
  let ds' := foldl apply_delta ds (forward_gateway self evs) in
  find_peer ds' self = None /\ same_mesh (stale_after stale s s' evs) ds' (snapshot_state s').
Proof.
  intros Hef Hfit Hfit' Hin Hact Hnone Hm ds'. pose proof (effect_events_ok _ _ _ Hef Hfit') as Hok.
  assert (self <> 0) as Hself by (pose proof (ids_fit_in _ _ Hfit Hin); unfold id_ok in *; lia).
  split; [by apply find_self|]. split.
  - intros x Hx. by eapply stream_peers.
  - pose proof (policy_fold self Hself ds evs Hok) as E. cbn zeta in E. fold ds' in E.
    destruct (sm_policy _ _ _ Hm) as [E1 E2]. rewrite E1, E2 in E.
    change (ds_policy_version (snapshot_state s), ds_policy_ir (snapshot_state s))
      with (fst (policy_pair s), snd (policy_pair s)) in E.
    rewrite <- surjective_pairing, <- (ef_policy _ _ _ Hef) in E.
    change (ds_policy_version (snapshot_state s')) with (fst (policy_pair s')).
    change (ds_policy_ir (snapshot_state s')) with (snd (policy_pair s')). by rewrite <- E.
  - unfold ds'. rewrite relays_fold by done. rewrite (sm_relays _ _ _ Hm).
    change (ds_relays (snapshot_state s')) with (relay_infos_of (active_relays s')).
    by rewrite (ef_relays _ _ _ Hef).
  - intros r. unfold ds'. rewrite revoked_fold by done. rewrite (sm_revoked _ _ _ Hm).
    change (ds_revoked_serials (snapshot_state s')) with (revoked_serials s').
    rewrite (ef_revoked _ _ _ Hef). split; [naive_solver|].
    intros [Hr | (e & He & Hr)]; [by left|]. right. exists e. split; [done|]. split; [|done].
    intros Es. assert (serials_of e <> []) as Hne by (intros E; rewrite E in Hr; by apply elem_of_nil in Hr).
    pose proof (ef_own _ _ _ Hef e self He Hne Es Hself Hin). congruence.
Qed.
End store_view.
