(* ===== verification/CtlEffects.v ===== *)
(** * Controller: every handler's events match its transaction

    One lemma per operation: the change events a handler publishes are an
    [effect] of its transaction on what other gateways must see.  The
    enrollment and the fabric apply have their own sections. *)
From Stdlib Require Import ZArith Lia Ascii.
From stdpp Require Import sorting.
From S2P Require Import Prelude StdNet IpNet CtlKeys CtlStore CtlEnroll CtlApply CtlStoreInv CtlStoreOk.
From S2P Require Import PolicyDsl PolicyCompile.
From S2P Require Import SyncProto CtlProjection CtlView.
Open Scope Z_scope.

Lemma peer_opt_refl (o : option Peer) : option_Forall2 peer_sim o o.
Proof. by destruct o; constructor. Qed.
#[export] Hint Resolve peer_opt_refl : core.

Section effects.
Context {N : Ipv4NetApi} {NL : Ipv4NetLaws N} {J : JsonText}.

(** A transaction that commits, or one that changes nothing. *)
Lemma commit_inv {E A : Type} (m : tx E A) s r s' :
  commit m s = (r, s') -> (exists a, r = Ok a /\ m s = Ok (a, s')) \/ (exists e, r = Err e /\ s' = s).
Proof.
  unfold commit. destruct (m s) as [[a s1]|e].
  - intros [= <- <-]. left. eauto.
  - intros [= <- <-]. right. eauto.
Qed.

(** ** Handlers that refresh entries only *)

Definition refresh_of (s : Store) (e : ChangeEvent) : Prop :=
  exists g p, entry_of e = Some (g, Refreshed p) /\ g ∈ ids s.

Lemma refresh_no_globals s evs :
  Forall (refresh_of s) evs ->
  policy_after evs = None /\ relays_after evs = None /\
  (forall e, e ∈ evs -> serials_of e = [] /\ (forall v ir r, e <> PolicyUpdated v ir r)).
Proof.
  intros H. induction evs as [|e evs IH] using rev_ind.
  { split; [done|]. split; [done|]. by intros e ?%elem_of_nil. }
  apply Forall_app in H as [H He]. apply Forall_cons_iff in He as [(g & p & He & _) _].
  destruct (IH H) as (H1 & H2 & H3). unfold policy_after, relays_after in *. rewrite !foldl_snoc, H1, H2.
  split; [by destruct e|]. split; [by destruct e|].
  intros e' [Hin | Hin%list_elem_of_singleton]%elem_of_app; [auto|]. subst. by destruct e.
Qed.

Lemma refreshes_only_refresh s evs x n :
  Forall (refresh_of s) evs -> entry_after evs x = Some n -> (forall p, n <> Refreshed p) -> False.
Proof.
  intros Hevs E Hn. revert E. unfold entry_after. induction evs as [|e evs IH] using rev_ind; [done|].
  apply Forall_app in Hevs as [Hevs He]. apply Forall_cons_iff in He as [(g & p & He & _) _].
  rewrite foldl_snoc, He. destruct (g =? x); [|by apply IH]. intros [= <-]. by apply (Hn p).
Qed.

(** An effect that keeps the set of gateways, the policy, the relays and the
    revocations. *)
Lemma effect_local s s' evs :
  ids s' = ids s -> (forall x, gateway_is_active s' x = gateway_is_active s x) ->
  policy_pair s' = policy_pair s -> active_relays s' = active_relays s ->
  (forall r, r ∈ revoked_serials s' <-> r ∈ revoked_serials s) ->
  Forall (refresh_of s') evs ->
  (forall x, match entry_after evs x with
             | Some (Refreshed p) => gateway_is_active s' x = true -> option_Forall2 peer_sim (Some p) (peer_ent s' x)
             | None => option_Forall2 peer_sim (peer_ent s x) (peer_ent s' x)
             | _ => True
             end) ->
  effect s s' evs.
Proof.
  intros Hids Hact Hpol Hrel Hrev Hevs Hent.
  destruct (refresh_no_globals _ _ Hevs) as (Hp & Hr & Hs).
  rewrite list.Forall_forall in Hevs. split.
  - by rewrite Hids.
  - intros x _. by rewrite Hact.
  - intros e g n He Hn. destruct (Hevs e He) as (g' & p & E & Hg). congruence.
  - intros x. specialize (Hent x). destruct (entry_after evs x) as [[p|p|]|] eqn:E; auto.
    by destruct (refreshes_only_refresh s' evs x Removed) as []; [apply list.Forall_forall| |].
  - by rewrite Hpol, Hp.
  - intros v ir r He. by destruct (proj2 (Hs _ He) v ir r).
  - by rewrite Hrel, Hr.
  - intros r. rewrite Hrev. split; [auto|]. intros [?|(e & He & Hin)]; [done|].
    rewrite (proj1 (Hs e He)) in Hin. by apply elem_of_nil in Hin.
  - intros e x He Hne. by destruct (Hs e He).
Qed.

Lemma effect_silent s s' :
  ids s' = ids s -> (forall x, gateway_is_active s' x = gateway_is_active s x) ->
  policy_pair s' = policy_pair s -> active_relays s' = active_relays s ->
  (forall r, r ∈ revoked_serials s' <-> r ∈ revoked_serials s) ->
  (forall x, option_Forall2 peer_sim (peer_ent s x) (peer_ent s' x)) -> effect s s' [].
Proof. intros. by apply effect_local. Qed.

Lemma effect_same s : effect s s [].
Proof. apply effect_silent; auto. Qed.

Lemma entry_after_one e g n x :
  entry_of e = Some (g, n) -> entry_after [e] x = if g =? x then Some n else None.
Proof. intros H. unfold entry_after. cbn. by rewrite H. Qed.

(** One refresh of one gateway: the others keep their entries. *)
Lemma effect_refresh s s' g evs :
  ids s' = ids s -> (forall x, gateway_is_active s' x = gateway_is_active s x) ->
  policy_pair s' = policy_pair s -> active_relays s' = active_relays s ->
  (forall r, r ∈ revoked_serials s' <-> r ∈ revoked_serials s) ->
  (forall x, x <> g -> peer_ent s' x = peer_ent s x) ->
  (evs = [] /\ peer_ent s' g = peer_ent s g \/
   exists e p, evs = [e] /\ entry_of e = Some (g, Refreshed p) /\ g ∈ ids s' /\
     (gateway_is_active s' g = true -> peer_ent s' g = Some p)) ->
  effect s s' evs.
Proof.
  intros Hids Hact Hpol Hrel Hrev Hother Hg. apply effect_local; try done.
  - destruct Hg as [[-> _] | (e & p & -> & He & Hin & _)]; [constructor|]. repeat constructor. by exists g, p.
  - intros x. destruct Hg as [[-> Hsame] | (e & p & -> & He & _ & Hp)].
    + cbn. destruct (decide (x = g)) as [-> |]; [by rewrite Hsame|by rewrite Hother].
    + rewrite (entry_after_one _ _ _ _ He). destruct (Z.eqb_spec g x) as [-> | Hne].
      * intros Ha. by rewrite Hp.
      * by rewrite Hother.
Qed.

(** *** The row of a gateway *)

Lemma find_gateway_active s x g :
  NoDup (ids s) -> find_gateway s x = Some g -> gateway_is_active s x = true -> active_gateway s x = Some g.
Proof.
  unfold find_gateway, gateway_is_active, active_gateway, ids. intros Hnd Hf Ha.
  induction (gateway s) as [|g0 l IH]; [done|]. cbn in *. apply list.NoDup_cons in Hnd as [Hnew Hnd].
  destruct (Z.eqb_spec (gw_id g0) x) as [<- | Hne]; cbn in *; [|by apply IH].
  injection Hf as <-. destruct (gw_active g0) eqn:Eg; [done|]. exfalso. cbn in Ha.
  apply existsb_iff in Ha as (g' & Hg' & Hb). apply andb_true_iff in Hb as [E%Z.eqb_eq _].
  apply Hnew. rewrite <- E. apply list_elem_of_fmap. by exists g'.
Qed.

Lemma find_gateway_in s x : x ∈ ids s -> is_Some (find_gateway s x).
Proof.
  intros (g & -> & Hg)%list_elem_of_fmap. unfold find_gateway.
  apply find_some_exists. exists g. split; [done|]. lia.
Qed.

Lemma find_gateway_spec s x g : find_gateway s x = Some g -> g ∈ gateway s /\ gw_id g = x.
Proof.
  unfold find_gateway. intros [Hin E%Z.eqb_eq]%List.find_some. by rewrite list_elem_of_In.
Qed.

Lemma active_in_ids s x : gateway_is_active s x = true -> x ∈ ids s.
Proof.
  unfold gateway_is_active. rewrite existsb_iff. intros (g & Hg & Hb).
  apply andb_true_iff in Hb as [<-%Z.eqb_eq _]. apply list_elem_of_fmap. by exists g.
Qed.

Lemma active_gateway_active s x g : active_gateway s x = Some g -> gateway_is_active s x = true.
Proof.
  intros (Hg & E & Ha)%active_gateway_spec. apply existsb_iff. exists g. split; [done|].
  rewrite E, Ha, Z.eqb_refl. done.
Qed.

Lemma segment_of_gateway s g :
  store_ok s -> g ∈ gateway s -> exists n, segment_name s (gw_segment g) = Some n.
Proof.
  intros Hok Hg. apply segment_name_in. destruct (so_gateways _ Hok) as (_ & _ & H & _).
  rewrite list.Forall_forall in H. by apply H.
Qed.

(** The content of a full refresh is the entry, when the gateway is active. *)
Lemma refresh_content s x i :
  store_ok s -> gateway_identity_by_id s x = Some i ->
  x ∈ ids s /\
  (gateway_is_active s x = true ->
   peer_ent s x = Some (refreshed_peer x (gi_segment_name i) (cidrs_for_segment s (gi_segment_id i))
                          (all_keys_for_gateway (keys_db s) x) (candidates_for s x))).
Proof.
  intros Hok. unfold gateway_identity_by_id. intros (g & Hf & Hi)%bind_Some.
  destruct (find_gateway_spec _ _ _ Hf) as [Hin <-]. split; [apply list_elem_of_fmap; by exists g|].
  intros Ha. destruct (so_gateways _ Hok) as (Hnd & _).
  apply find_gateway_active in Hf; [|done|done]. unfold peer_ent. rewrite Hf. cbn.
  unfold identity_of in Hi. destruct (segment_name s (gw_segment g)); [|done]. cbn in *. by injection Hi as <-.
Qed.

(** No identity: nothing to refresh. *)
Lemma no_identity s x : store_ok s -> gateway_identity_by_id s x = None -> gateway_is_active s x = false.
Proof.
  intros Hok H. apply not_true_iff_false. intros Ha%active_in_ids.
  destruct (find_gateway_in _ _ Ha) as [g Hg]. destruct (find_gateway_spec _ _ _ Hg) as [Hin _].
  destruct (segment_of_gateway _ _ Hok Hin) as [n Hn].
  unfold gateway_identity_by_id, identity_of in H. rewrite Hg in H. cbn in H. by rewrite Hn in H.
Qed.

(** *** Keys *)

Lemma put_keys_same s : put_keys (keys_db s) s = s.
Proof. by destruct s. Qed.

(** A key operation that touches the rows of one gateway. *)
Definition touches_only (g : Z) (db db' : Db) : Prop :=
  gateway_status db' = gateway_status db /\ forall x, x <> g -> rows_of db' x = rows_of db x.

Lemma key_effect s db' g :
  store_ok s -> store_ok (put_keys db' s) -> touches_only g (keys_db s) db' ->
  effect s (put_keys db' s) (key_rotated_events (put_keys db' s) g).
Proof.
  intros Hok Hok' [_ Hrows]. apply (effect_refresh _ _ g); try done.
  - intros x Hx. change (peer_ent (put_keys db' s) x) with
      (g ← active_gateway s x; name ← segment_name s (gw_segment g);
       Some (refreshed_peer x name (cidrs_for_segment s (gw_segment g)) (ordered (rows_of db' x)) (candidates_for s x))).
    by rewrite (Hrows x Hx).
  - unfold key_rotated_events. destruct (gateway_identity_by_id (put_keys db' s) g) as [i|] eqn:E.
    + right. destruct (refresh_content _ _ _ Hok' E) as [Hin Hp]. eexists _, _.
      split; [reflexivity|]. split; [reflexivity|]. split; [exact Hin|exact Hp].
    + left. split; [done|]. apply no_identity in E; [|done].
      rewrite !peer_ent_inactive; [done|exact E|exact E].
Qed.

Lemma key_change_effect {A : Type} (applied : A -> bool) (f : Db -> A * Db) g s :
  store_ok s -> store_ok (snd (on_keys f s)) ->
  (if applied (fst (f (keys_db s))) then touches_only g (keys_db s) (snd (f (keys_db s)))
   else snd (f (keys_db s)) = keys_db s) ->
  let '(s', evs) := key_change applied f g s in effect s s' evs.
Proof.
  intros Hok Hok' Hf. unfold key_change. unfold on_keys in *.
  destruct (f (keys_db s)) as [a db'] eqn:E. cbn in *. destruct (applied a).
  - by apply key_effect.
  - subst db'. rewrite put_keys_same. apply effect_same.
Qed.

Lemma touches_set db g rows (F : Db -> Db) :
  (forall d, gateway_status (F d) = gateway_status d) -> (forall d x, rows_of (F d) x = rows_of d x) ->
  touches_only g db (F (set_rows db g rows)).
Proof.
  intros H1 H2. split; [by rewrite H1|]. intros x Hx. rewrite H2, rows_of_set.
  by destruct (decide (g = x)).
Qed.

Lemma bump_rows d x : rows_of (bump_revision_tx d) x = rows_of d x.
Proof. done. Qed.

Ltac touches :=
  cbn; repeat case_match; subst; cbn in *; try done;
  first [ apply (touches_set _ _ _ bump_revision_tx); done
        | apply (touches_set _ _ _ (fun d => bump_revision_tx (append_audit d _))); done ].

Lemma rotate_key_effect g actor now s :
  store_ok s -> let '(s', evs) := handle_rotate_key g actor now s in effect s s' evs.
Proof.
  intros Hok. apply key_change_effect; [done|apply on_keys_ok; [apply rotate_key_grounded|done]|].
  unfold rotate_key. touches.
Qed.

Lemma submit_key_effect g e k s :
  store_ok s -> let '(s', evs) := handle_submit_key g e k s in effect s s' evs.
Proof.
  intros Hok. apply key_change_effect; [done|apply on_keys_ok; [apply set_epoch_pubkey_grounded|done]|].
  unfold set_epoch_pubkey. touches.
Qed.

Lemma promote_effect g e s :
  store_ok s -> let '(s', evs) := handle_promote g e s in effect s s' evs.
Proof.
  intros Hok. apply key_change_effect; [done|apply on_keys_ok; [apply promote_epoch_grounded|done]|].
  unfold promote_epoch. touches.
Qed.

Lemma retire_effect g e s :
  store_ok s -> let '(s', evs) := handle_retire g e s in effect s s' evs.
Proof.
  intros Hok. apply key_change_effect; [done|apply on_keys_ok; [apply retire_epoch_grounded|done]|].
  unfold retire_epoch. touches.
Qed.

Lemma drop_effect g e s :
  store_ok s -> let '(s', evs) := handle_drop g e s in effect s s' evs.
Proof.
  intros Hok. apply key_change_effect; [done|apply on_keys_ok; [apply drop_pending_epoch_grounded|done]|].
  unfold drop_pending_epoch. touches.
Qed.

(** *** Updates of gateway rows *)

(** An update of rows that keeps identity, segment and status. *)
Definition keeps_core (f : GatewayRec -> GatewayRec) : Prop :=
  forall g, gw_id (f g) = gw_id g /\ gw_segment (f g) = gw_segment g /\ gw_status (f g) = gw_status g.

Lemma keeps_active f g : keeps_core f -> gw_active (f g) = gw_active g.
Proof. intros Hf. unfold gw_active, status_is. by rewrite (proj2 (proj2 (Hf g))). Qed.

Section gateway_map.
Context (f : GatewayRec -> GatewayRec) (Hf : keeps_core f) (s : Store).
Let s' : Store := set_gateways (map f (gateway s)) s.

Lemma map_ids : ids s' = ids s.
Proof. unfold ids. cbn. rewrite map_map. apply map_ext. intros g. apply Hf. Qed.

Lemma map_active x : gateway_is_active s' x = gateway_is_active s x.
Proof.
  unfold gateway_is_active. cbn. induction (gateway s) as [|g l IH]; [done|]. cbn.
  rewrite IH, (proj1 (Hf g)). by rewrite keeps_active.
Qed.

Lemma map_active_gateway x : active_gateway s' x = f <$> active_gateway s x.
Proof.
  unfold active_gateway. cbn. rewrite find_map_inj. f_equal. apply find_ext, list.Forall_forall.
  intros g _. by rewrite (proj1 (Hf g)), keeps_active.
Qed.

(** Rows the update leaves alone keep their entry. *)
Lemma map_peer_ent x : (forall g, g ∈ gateway s -> gw_id g = x -> gw_candidate_endpoint (f g) = gw_candidate_endpoint g) ->
  peer_ent s' x = peer_ent s x.
Proof.
  intros Hx. change (peer_ent s' x) with
    (g ← active_gateway s' x; name ← segment_name s (gw_segment g);
     Some (refreshed_peer x name (cidrs_for_segment s (gw_segment g)) (all_keys_for_gateway (keys_db s) x)
       (foldl push_candidate
          match active_gateway s' x ≫= gw_candidate_endpoint with
          | Some o => if is_usable_candidate_endpoint o then [o] else []
          | None => []
          end (local_candidates s x)))).
  unfold peer_ent, candidates_for, candidate_endpoint_for_gateway. rewrite map_active_gateway.
  destruct (active_gateway s x) as [g|] eqn:E; [|done]. cbn.
  destruct (active_gateway_spec _ _ _ E) as (Hin & Hid & _).
  by rewrite (proj1 (proj2 (Hf g))), (Hx g Hin Hid).
Qed.
End gateway_map.

Lemma keeps_if (b : GatewayRec -> bool) f : keeps_core f -> keeps_core (fun g => if b g then f g else g).
Proof. intros Hf g. destruct (b g); [apply Hf|done]. Qed.

(** Entries do not depend on the revision or the audit log. *)
Lemma set_on_gateway_effect f g msg s :
  keeps_core f -> (forall r, gw_candidate_endpoint (f r) = gw_candidate_endpoint r) ->
  effect s (snd (set_on_gateway f g msg s)) [].
Proof.
  intros Hf Hc. unfold set_on_gateway, update_gateway. apply commit_keeps; [apply effect_same|].
  intros a s' Hrun. tx_inv. set (F := fun r => if gw_id r =? g then f r else r).
  assert (keeps_core F) as HF by (by apply keeps_if).
  apply effect_silent; try done.
  - by apply map_ids.
  - intros x. by apply map_active.
  - intros x. rewrite map_peer_ent; [done|done|]. intros r _ _. unfold F. by destruct (_ =? g).
Qed.

Lemma applied_version_effect g v s : effect s (snd (set_applied_version g v s)) [].
Proof.
  unfold set_applied_version. destruct (v <? 2 ^ 63); [|apply effect_same]. by apply set_on_gateway_effect.
Qed.

(** *** Candidates *)

Lemma observed_event_effect s s' g revision :
  store_ok s' -> ids s' = ids s -> (forall x, gateway_is_active s' x = gateway_is_active s x) ->
  policy_pair s' = policy_pair s -> active_relays s' = active_relays s ->
  (forall r, r ∈ revoked_serials s' <-> r ∈ revoked_serials s) ->
  (forall x, x <> g -> peer_ent s' x = peer_ent s x) ->
  effect s s' (endpoint_observed s' g revision).
Proof.
  intros Hok Hids Hact Hpol Hrel Hrev Hother. apply (effect_refresh _ _ g); try done.
  unfold endpoint_observed. destruct (gateway_identity_by_id s' g) as [i|] eqn:E.
  - right. destruct (refresh_content _ _ _ Hok E) as [Hin Hp]. eexists _, _.
    split; [reflexivity|]. split; [reflexivity|]. split; [exact Hin|exact Hp].
  - left. split; [done|]. apply no_identity in E; [|done].
    rewrite !peer_ent_inactive; [done| |done]. by rewrite <- Hact.
Qed.

Lemma observed_effect g addr s :
  store_ok s -> let '(s', evs) := handle_observed g addr s in effect s s' evs.
Proof.
  intros Hok. pose proof (set_candidate_endpoint_ok g addr s Hok) as Hok'. unfold handle_observed.
  destruct (set_candidate_endpoint g addr s) as [r s'] eqn:E.
  apply commit_inv in E as [(o & -> & E) | (e & -> & ->)]; [|apply effect_same].
  cbn in Hok'. tx_inv. destruct (active_gateway s g) as [r|]; [|done].
  case_bool_decide; tx_inv; [apply effect_same|].
  set (F := fun r => if (gw_id r =? g) && gw_active r then with_candidate addr r else r).
  assert (keeps_core F) as HF by (by apply keeps_if).
  apply observed_event_effect; try done.
  - by apply map_ids.
  - intros y. by apply map_active.
  - intros y Hy. change (peer_ent (set_revision (state_revision s + 1) (set_gateways (map F (gateway s)) s)) y)
      with (peer_ent (set_gateways (map F (gateway s)) s) y). apply map_peer_ent; [done|].
    intros r' _ <-. unfold F. destruct (Z.eqb_spec (gw_id r') g); done.
Qed.

Lemma local_candidates_other s g x l :
  x <> g ->
  local_candidates (set_candidates (List.filter (fun c => negb (gc_gateway c =? g)) (gateway_candidate s) ++
                                    map (fun e => {| gc_gateway := g; gc_endpoint := e |}) l) s) x =
  local_candidates s x.
Proof.
  intros Hx. unfold local_candidates. cbn. do 2 f_equal. rewrite List.filter_app.
  replace (List.filter _ (map _ l)) with (@nil CandidateRow).
  - rewrite app_nil_r. induction (gateway_candidate s) as [|c cs IH]; [done|]. cbn.
    destruct (Z.eqb_spec (gc_gateway c) g) as [E | Hne]; cbn; rewrite IH; [|done].
    destruct (Z.eqb_spec (gc_gateway c) x); [congruence|done].
  - symmetry. apply list_filter_nil, Forall_map, Forall_true. intros e. cbn. lia.
Qed.

Lemma locals_effect g eps s :
  store_ok s -> let '(s', evs) := handle_local_candidates g eps s in effect s s' evs.
Proof.
  intros Hok. pose proof (set_local_candidates_ok g eps s Hok) as Hok'. unfold handle_local_candidates.
  destruct (set_local_candidates g eps s) as [r s'] eqn:E.
  apply commit_inv in E as [(o & -> & E) | (e & -> & ->)]; [|apply effect_same].
  cbn in Hok'. tx_inv. destruct (active_gateway s g) as [r|]; [|done].
  case_bool_decide; tx_inv; [apply effect_same|].
  apply observed_event_effect; try done.
  intros y Hy. set (s' := set_candidates _ s).
  change (peer_ent (set_revision (state_revision s + 1) s') y) with
    (g ← active_gateway s y; name ← segment_name s (gw_segment g);
     Some (refreshed_peer y name (cidrs_for_segment s (gw_segment g)) (all_keys_for_gateway (keys_db s) y)
       (foldl push_candidate
          match candidate_endpoint_for_gateway s y with
          | Some o => if is_usable_candidate_endpoint o then [o] else []
          | None => []
          end (local_candidates s' y)))).
  unfold s'. by rewrite local_candidates_other.
Qed.

(** *** Relays *)

(** An effect that replaces the relay list and is told by its event. *)
Lemma relays_effect s s' :
  ids s' = ids s -> (forall x, gateway_is_active s' x = gateway_is_active s x) ->
  policy_pair s' = policy_pair s -> (forall r, r ∈ revoked_serials s' <-> r ∈ revoked_serials s) ->
  (forall x, peer_ent s' x = peer_ent s x) -> effect s s' (relays_changed s').
Proof.
  intros Hids Hact Hpol Hrev Hent. split.
  - by rewrite Hids.
  - intros x _. by rewrite Hact.
  - by intros e g n ->%list_elem_of_singleton.
  - intros x. cbn. by rewrite Hent.
  - by rewrite Hpol.
  - by intros v ir r E%list_elem_of_singleton.
  - done.
  - intros r. rewrite Hrev. split; [auto|]. intros [?|(e & ->%list_elem_of_singleton & Hr)]; [done|].
    by apply elem_of_nil in Hr.
  - by intros e x ->%list_elem_of_singleton.
Qed.

Lemma register_relay_effect name ep actor now s :
  let '(s', evs) := handle_register_relay name ep actor now s in effect s s' evs.
Proof.
  unfold handle_register_relay. destruct (insert_relay name ep actor now s) as [r s'] eqn:E.
  apply commit_inv in E as [(o & -> & E) | (e & -> & ->)]; [|apply effect_same].
  unfold insert_relay_tx in E. tx_inv. by apply relays_effect.
Qed.

Lemma relay_status_effect id st s :
  let '(s', evs) := handle_relay_status id st s in effect s s' evs.
Proof.
  unfold handle_relay_status. destruct (set_relay_status id st s) as [r s'] eqn:E.
  apply commit_inv in E as [(o & -> & E) | (e & -> & ->)]; [tx_inv|]; by apply relays_effect.
Qed.

Lemma relay_version_effect id v s : effect s (snd (set_relay_reported_version id v s)) [].
Proof.
  unfold set_relay_reported_version. apply commit_keeps; [apply effect_same|]. intros a s' Hrun. tx_inv.
  apply effect_silent; try done. unfold active_relays. cbn. unfold update_relay.
  match goal with H : existsb _ _ = true |- _ => clear H end.
  induction (relay s) as [|r l IH]; [done|]. cbn.
  destruct (rl_id r =? id); cbn; (destruct (bool_decide _); cbn; [f_equal; exact IH|exact IH]).
Qed.

(** *** Certificates *)

Lemma elem_of_revoked s r :
  r ∈ revoked_serials s <-> exists c, c ∈ certificate s /\ ct_serial c = r /\ is_revoked c = true.
Proof.
  unfold revoked_serials, sort_text. rewrite sorting.merge_sort_Permutation, list_elem_of_fmap.
  setoid_rewrite list_elem_of_In. setoid_rewrite List.filter_In. setoid_rewrite <- list_elem_of_In. naive_solver.
Qed.

Lemma insert_certificate_revoked s c r :
  ct_revoked_at c = None ->
  r ∈ revoked_serials (set_certificates (certificate s ++ [c]) s) <-> r ∈ revoked_serials s.
Proof.
  intros Hc. rewrite !elem_of_revoked. cbn. setoid_rewrite elem_of_app. setoid_rewrite list_elem_of_singleton.
  split; [|naive_solver]. intros (c' & [Hin | ->] & Hs & Hr); [eauto|]. unfold is_revoked in Hr. by rewrite Hc in Hr.
Qed.

Lemma enroll_relay_effect hash name ep serial handle na now s :
  let '(s', evs) := handle_enroll_relay hash name ep serial handle na now s in effect s s' evs.
Proof.
  unfold handle_enroll_relay. destruct (enroll_relay hash name ep serial handle na now s) as [r s'] eqn:E.
  apply commit_inv in E as [(o & -> & E) | (e & -> & ->)]; [|apply effect_same].
  apply tx_bind_ok in E as (? & ? & [-> ->]%get_ok & E).
  destruct (find_token s hash now ["relay"]) as [token|]; [|done].
  unfold insert_relay_tx, insert_certificate_tx, spend_token in E. tx_inv.
  apply relays_effect; try done. intros r.
  set (s1 := set_relays _ s). refine (insert_certificate_revoked s1 _ r _). done.
Qed.

Lemma revoke_cert_effect serial actor now s :
  let '(s', evs) := handle_revoke_cert serial actor now s in effect s s' evs.
Proof.
  unfold handle_revoke_cert. case_bool_decide; [apply effect_same|].
  destruct (revoke_cert serial actor now s) as [r s'] eqn:E.
  apply commit_inv in E as [(o & -> & E) | (e & -> & ->)]; [|apply effect_same].
  tx_inv. destruct (existsb _ _) eqn:Ex; tx_inv; [|apply effect_same].
  apply existsb_iff in Ex as (c0 & Hc0 & Hs0%bool_decide_eq_true). split.
  - done.
  - done.
  - by intros e g n ->%list_elem_of_singleton.
  - intros y _. apply peer_opt_refl.
  - done.
  - by intros v ir r E%list_elem_of_singleton.
  - done.
  - intros r. rewrite !elem_of_revoked. cbn. setoid_rewrite list_elem_of_fmap. split.
    + intros (c & (c1 & -> & Hin) & Hr & Hrev). destruct (decide (ct_serial c1 = serial)) as [Hs | Hs].
      * right. exists (CertRevoked serial (state_revision s + 1)). split; [by constructor|].
        apply list_elem_of_singleton. subst. by destruct (_ && _).
      * left. exists c1. rewrite bool_decide_eq_false_2 in Hr, Hrev by done. done.
    + intros [(c & Hin & Hr & Hrev) | (e & ->%list_elem_of_singleton & Hr%list_elem_of_singleton)].
      * eexists. split; [by exists c|]. unfold is_revoked in Hrev. destruct (ct_revoked_at c) eqn:Ec; [|done].
        rewrite andb_false_r. unfold is_revoked. by rewrite Ec.
      * subst r. eexists. split; [by exists c0|]. rewrite bool_decide_eq_true_2 by done.
        unfold is_revoked. destruct (ct_revoked_at c0) eqn:Ec; cbn; by rewrite ?Ec.
  - by intros e y ->%list_elem_of_singleton _ <-.
Qed.

Lemma elem_of_revoke_all now (certs l : list CertRec) r :
  (exists c, c ∈ foldl (fun l c => revoke_serial now (ct_serial c) l) l certs /\ ct_serial c = r /\ is_revoked c = true) <->
  exists c, c ∈ l /\ ct_serial c = r /\ (is_revoked c = true \/ r ∈ map ct_serial certs).
Proof.
  revert l. induction certs as [|c0 certs IH]; intros l; cbn [foldl map].
  { setoid_rewrite elem_of_nil. naive_solver. }
  rewrite IH. setoid_rewrite elem_of_cons. unfold revoke_serial. setoid_rewrite list_elem_of_fmap. split.
  - intros (c & (c1 & -> & Hin) & Hr & Hc). exists c1. split; [done|]. subst r.
    case_bool_decide as Hs; cbn in *; naive_solver.
  - intros (c & Hin & Hr & Hc). eexists. split; [by exists c|]. subst r.
    case_bool_decide as Hs; cbn; naive_solver.
Qed.

(** The certificates of a gateway are told revoked with it. *)
Lemma revoke_live_revoked s g now r :
  r ∈ revoked_serials
    (set_certificates (foldl (fun l c => revoke_serial now (ct_serial c) l) (certificate s) (live_certs s g)) s) <->
  r ∈ revoked_serials s \/ r ∈ map ct_serial (live_certs s g).
Proof.
  rewrite !elem_of_revoked. cbn [certificate set_certificates]. rewrite elem_of_revoke_all. split.
  - naive_solver.
  - intros [?|Hr]; [naive_solver|]. pose proof Hr as (c & -> & Hc)%list_elem_of_fmap.
    exists c. split; [|auto]. unfold live_certs in Hc. apply list_elem_of_In, List.filter_In in Hc as [Hc _].
    by apply list_elem_of_In.
Qed.

(** Rows of one gateway change: the others keep theirs. *)
Section gateway_other.
Context (F : GatewayRec -> GatewayRec) (HF : forall g, gw_id (F g) = gw_id g) (s : Store) (x : Z).
Context (Hx : forall g, gw_id g = x -> F g = g).
Let s' : Store := set_gateways (map F (gateway s)) s.

Lemma other_active : gateway_is_active s' x = gateway_is_active s x.
Proof.
  unfold gateway_is_active. cbn. induction (gateway s) as [|g l IH]; [done|]. cbn. rewrite IH, HF.
  destruct (Z.eqb_spec (gw_id g) x); [by rewrite Hx|done].
Qed.

Lemma other_row : active_gateway s' x = active_gateway s x.
Proof.
  unfold active_gateway. cbn. induction (gateway s) as [|g l IH]; [done|]. cbn. rewrite HF.
  destruct (Z.eqb_spec (gw_id g) x); cbn; [|exact IH]. rewrite Hx by done. by rewrite IH.
Qed.

Lemma other_peer_ent : peer_ent s' x = peer_ent s x.
Proof.
  change (peer_ent s' x) with
    (g ← active_gateway s' x; name ← segment_name s (gw_segment g);
     Some (refreshed_peer x name (cidrs_for_segment s (gw_segment g)) (all_keys_for_gateway (keys_db s) x)
       (foldl push_candidate
          match active_gateway s' x ≫= gw_candidate_endpoint with
          | Some o => if is_usable_candidate_endpoint o then [o] else []
          | None => []
          end (local_candidates s x)))).
  by rewrite other_row.
Qed.
End gateway_other.

Lemma status_inactive st g s :
  st <> "active" -> gateway_is_active (set_gateways (update_gateway (with_status st) g (gateway s)) s) g = false.
Proof.
  intros Hst. unfold gateway_is_active, update_gateway. cbn. apply not_true_iff_false. rewrite existsb_iff.
  intros (r & (r0 & -> & Hr)%list_elem_of_fmap & Hb). apply andb_true_iff in Hb as [Hid Ha].
  destruct (Z.eqb_spec (gw_id r0) g) as [E | Hne]; cbn in *; [|lia].
  unfold gw_active, status_is in Ha. cbn in Ha. by apply bool_decide_eq_true in Ha.
Qed.

Lemma drain_effect g actor now s :
  let '(s', evs) := handle_drain g actor now s in effect s s' evs.
Proof.
  unfold handle_drain. destruct (drain_gateway g actor now s) as [r s'] eqn:E.
  apply commit_inv in E as [(o & -> & E) | (e & -> & ->)]; [|apply effect_same].
  apply tx_bind_ok in E as (? & ? & [-> ->]%get_ok & E).
  apply tx_bind_ok in E as (? & ? & [Hg%has_gateway_in ->]%ensure_ok & E).
  apply tx_bind_ok in E as (certs & s1 & [-> ->]%revoke_live_certs_spec & E).
  set (s1 := set_certificates (foldl _ (certificate s) _) s) in E. cbn zeta in E. tx_inv.
  set (F := fun r => if gw_id r =? g then with_status "removed" r else r).
  assert (forall r, gw_id (F r) = gw_id r) as HF by (intros r; unfold F; by destruct (_ =? g)).
  assert (forall y, y <> g -> forall r, gw_id r = y -> F r = r) as Hother.
  { intros y Hy r <-. unfold F. by destruct (Z.eqb_spec (gw_id r) g). }
  assert (gateway_is_active (set_gateways (map F (gateway s1)) s1) g = false) as Hgone
    by by apply (status_inactive "removed" g s1).
  assert (forall s2, ids s2 = map gw_id (map F (gateway s)) -> ids s2 = ids s) as Hids.
  { intros s2 ->. rewrite map_map. apply map_ext. intros r. apply HF. }
  split.
  - match goal with |- _ ⊆ ids ?s2 => by rewrite (Hids s2 eq_refl) end.
  - intros y _ Hy. destruct (decide (y = g)) as [-> | Hne]; [by pose proof (eq_trans (eq_sym Hy) Hgone)|].
    etrans; [|exact Hy]. symmetry. exact (other_active F HF s1 y (Hother y Hne)).
  - intros e i n ->%list_elem_of_singleton [= <- <-].
    match goal with |- _ ∈ ids ?s2 => by rewrite (Hids s2 eq_refl) end.
  - intros y. rewrite (entry_after_one _ g Removed) by done.
    destruct (Z.eqb_spec g y) as [<- | Hne]; [exact Hgone|]. intros _.
    match goal with |- option_Forall2 _ _ (peer_ent ?s2 y) =>
      replace (peer_ent s2 y) with (peer_ent s y); [done|] end.
    symmetry. exact (other_peer_ent F HF s1 y (Hother y (not_eq_sym Hne))).
  - done.
  - by intros v ir r E%list_elem_of_singleton.
  - done.
  - intros r. etrans; [apply (revoke_live_revoked s g now r)|]. split.
    + intros [?|?]; [by left|]. right. eexists. split; [by constructor|done].
    + intros [?|(e & ->%list_elem_of_singleton & ?)]; [by left|by right].
  - intros e y ->%list_elem_of_singleton _ <- _ _. exact Hgone.
Qed.

(** *** Segments *)

(** Two stores with the same gateways, keys and candidates. *)
Record same_gateways (s s' : Store) : Prop := {
  sg_rows : gateway s' = gateway s;
  sg_keys : key_rows s' = key_rows s;
  sg_cands : gateway_candidate s' = gateway_candidate s }.

Lemma same_active_gateway s s' x : same_gateways s s' -> active_gateway s' x = active_gateway s x.
Proof. intros []. unfold active_gateway. congruence. Qed.

Lemma same_is_active s s' x : same_gateways s s' -> gateway_is_active s' x = gateway_is_active s x.
Proof. intros []. unfold gateway_is_active. congruence. Qed.

Lemma same_candidates s s' x : same_gateways s s' -> candidates_for s' x = candidates_for s x.
Proof.
  intros H. unfold candidates_for, candidate_endpoint_for_gateway, local_candidates.
  rewrite (same_active_gateway _ _ x H). by rewrite (sg_cands _ _ H).
Qed.

Lemma same_gateway_keys s s' x :
  same_gateways s s' -> all_keys_for_gateway (keys_db s') x = all_keys_for_gateway (keys_db s) x.
Proof. intros []. unfold all_keys_for_gateway, rows_of. cbn. congruence. Qed.

Definition cidr_texts (s : Store) (id : Z) : list string := map cd_cidr (own_rows id (cidr s)).

Lemma cidrs_perm s id : cidrs_for_segment s id ≡ₚ cidr_texts s id.
Proof. unfold cidrs_for_segment, sort_text. by rewrite sorting.merge_sort_Permutation. Qed.

Lemma ent_segments s s' x :
  same_gateways s s' ->
  (forall g, active_gateway s x = Some g ->
     segment_name s' (gw_segment g) = segment_name s (gw_segment g) /\
     cidr_texts s (gw_segment g) ≡ₚ cidr_texts s' (gw_segment g)) ->
  option_Forall2 peer_sim (peer_ent s x) (peer_ent s' x).
Proof.
  intros Hs Hseg. unfold peer_ent. rewrite (same_active_gateway _ _ x Hs).
  destruct (active_gateway s x) as [g|]; [|constructor]. cbn. destruct (Hseg g eq_refl) as [-> Hperm].
  destruct (segment_name s (gw_segment g)); [|constructor]. cbn. constructor.
  rewrite (same_gateway_keys _ _ x Hs), (same_candidates _ _ x Hs). split; try done. cbn.
  by rewrite !cidrs_perm.
Qed.

Lemma insert_segment_tx_spec name cidrs s id s' :
  insert_segment_tx name cidrs s = Ok (id, s') -> store_ok s ->
  id ∉ map sg_id (segment s) /\
  s' = set_cidrs (cidr s ++ map (fun c => {| cd_segment := id; cd_cidr := net_show c |}) cidrs)
         (set_segments (segment s ++ [{| sg_id := id; sg_name := name |}]) s).
Proof.
  unfold insert_segment_tx, insert_cidrs_tx. intros H Hok. case_bool_decide; [done|]. tx_inv.
  match goal with H : insert_cidrs_loop _ _ _ _ _ = _ |- _ => rename H into Hrun end.
  set (id := next_id _) in *. split; [apply next_id_fresh|].
  apply insert_cidrs_loop_ok in Hrun as [-> _]; [done|..].
  - cbn. rewrite map_app. apply elem_of_app. right. by constructor.
  - cbn. eapply ok_cidrs_mono; [|apply (so_cidrs _ Hok)]. rewrite map_app. apply snoc_subseteq.
  - cbn. destruct (so_cidrs _ Hok) as (Hseg & _). unfold own_rows.
    rewrite (proj2 (list_filter_nil _ _)); [done|].
    eapply Forall_impl; [|exact Hseg]. cbn. intros r Hr'. apply Z.eqb_neq. intros E.
    rewrite E in Hr'. by apply next_id_fresh in Hr'.
Qed.

Lemma own_rows_tagged id id' (l : list ipv4net) :
  map cd_cidr (own_rows id (map (fun c => {| cd_segment := id'; cd_cidr := net_show c |}) l)) =
  if id' =? id then map net_show l else [].
Proof.
  unfold own_rows. induction l as [|c l IH]; cbn; [by destruct (_ =? id)|].
  destruct (id' =? id); cbn; by rewrite IH.
Qed.

Lemma find_snoc_other {A : Type} (p : A -> bool) l a : p a = false -> List.find p (l ++ [a]) = List.find p l.
Proof. intros Ha. rewrite find_app. destruct (List.find p l); [done|]. cbn. by rewrite Ha. Qed.

(** A new segment leaves the segments of the gateways alone. *)
Lemma insert_segment_frame name cidrs s id s' sid :
  insert_segment_tx name cidrs s = Ok (id, s') -> store_ok s -> sid ∈ map sg_id (segment s) ->
  segment_name s' sid = segment_name s sid /\ cidr_texts s' sid = cidr_texts s sid.
Proof.
  intros H Hok Hsid. apply insert_segment_tx_spec in H as [Hid ->]; [|done].
  assert (id <> sid) as Hne by congruence. split.
  - unfold segment_name. cbn. rewrite find_snoc_other; [done|]. cbn. lia.
  - unfold cidr_texts. cbn. unfold own_rows at 1. rewrite List.filter_app, map_app.
    fold (own_rows sid (cidr s)).
    fold (own_rows sid (map (fun c => {| cd_segment := id; cd_cidr := net_show c |}) cidrs)).
    rewrite own_rows_tagged. destruct (Z.eqb_spec id sid); [done|]. by rewrite app_nil_r.
Qed.

Lemma active_segment s x g : store_ok s -> active_gateway s x = Some g -> gw_segment g ∈ map sg_id (segment s).
Proof.
  intros Hok (Hg & _)%active_gateway_spec. destruct (so_gateways _ Hok) as (_ & _ & H & _).
  rewrite list.Forall_forall in H. by apply H.
Qed.

Lemma insert_segment_effect name cidrs s s1 s' id :
  store_ok s -> insert_segment_tx name cidrs s = Ok (id, s1) ->
  s' = set_revision (state_revision s') (set_audit (audit_rows s') s1) -> effect s s' [].
Proof.
  intros Hok H1 ->. pose proof (insert_segment_tx_spec _ _ _ _ _ H1 Hok) as [_ ->].
  apply effect_silent; try done. intros x.
  eapply (ent_segments s (set_revision _ (set_audit _ _))); [done|].
  intros g Hg. destruct (insert_segment_frame _ _ _ _ _ _ H1 Hok (active_segment _ _ _ Hok Hg)) as [En Ec].
  split; [exact En|]. by rewrite <- Ec.
Qed.

Lemma delete_segment_effect sid actor now s :
  store_ok s -> effect s (snd (delete_segment sid actor now s)) [].
Proof.
  intros Hok. unfold delete_segment. apply commit_keeps; [apply effect_same|]. intros a s' Hrun. tx_inv.
  apply effect_silent; try done. intros y. apply ent_segments; [done|]. intros g Hg.
  match goal with H : negb (existsb (fun g => gw_segment g =? _) _) = true |- _ => rename H into Hnog end.
  assert (gw_segment g <> sid) as Hne.
  { intros E. apply negb_true_iff, not_true_iff_false in Hnog. apply Hnog, existsb_iff.
    apply active_gateway_spec in Hg as (Hg & _). exists g. split; [done|lia]. }
  split.
  - unfold segment_name. cbn. clear -Hne. induction (segment s) as [|r l IH]; [done|]. cbn.
    destruct (Z.eqb_spec (sg_id r) sid) as [E|]; cbn; [|by destruct (_ =? gw_segment g)].
    destruct (Z.eqb_spec (sg_id r) (gw_segment g)); [congruence|done].
  - unfold cidr_texts, own_rows. cbn. clear -Hne. induction (cidr s) as [|r l IH]; [done|]. cbn.
    destruct (Z.eqb_spec (cd_segment r) sid) as [E|]; cbn; destruct (Z.eqb_spec (cd_segment r) (gw_segment g));
      cbn; try congruence; by f_equiv.
Qed.

End effects.
