(* ===== verification/CtlApplyEffect.v ===== *)
(** * Controller: the events of a fabric apply

    [Admin.Apply] publishes one refresh per segment whose CIDRs changed and, when
    a policy version was stored, the policy.  The invariant of the segment loop
    relates the accumulated changes to the stored rows; the last change of a
    segment is what its rows hold. *)
From Stdlib Require Import ZArith Lia Ascii.
From stdpp Require Import sorting.
From S2P Require Import Prelude StdNet IpNet CtlKeys CtlStore CtlEnroll CtlApply CtlStoreInv CtlStoreOk.
From S2P Require Import PolicyDsl PolicyCompile.
From S2P Require Import SyncProto CtlProjection CtlView CtlEffects.
Open Scope Z_scope.

Section apply_effect.
Context {N : Ipv4NetApi} {NL : Ipv4NetLaws N} {J : JsonText}.
Context (from_str : string -> result string PolicyDoc) (sha256 : string -> string)
        (blocks_json : list IrBlock -> string) (canonical_json : PolicyIR -> string).

(** The last change of a segment. *)
Definition last_change (l : list (Z * string * list string)) (sid : Z) : option (string * list string) :=
  foldl (fun a '(i, name, ips) => if i =? sid then Some (name, ips) else a) None l.

Lemma last_change_snoc l i name ips sid :
  last_change (l ++ [(i, name, ips)]) sid = if i =? sid then Some (name, ips) else last_change l sid.
Proof. unfold last_change. by rewrite foldl_snoc. Qed.

(** Everything but segments, CIDRs, policies, the revision and the audit log. *)
Record same_rest (s s' : Store) : Prop := {
  sr_gateways : same_gateways s s';
  sr_relays : relay s' = relay s;
  sr_certificates : certificate s' = certificate s }.

Lemma same_rest_trans s1 s2 s3 : same_rest s1 s2 -> same_rest s2 s3 -> same_rest s1 s3.
Proof. intros [[] ? ?] [[] ? ?]. split; [split|..]; congruence. Qed.

Record apply_inv (s0 : Store) (acc : ApplyAcc) (s : Store) : Prop := {
  ai_ok : store_ok s;
  ai_rest : same_rest s0 s;
  ai_policy : policy_versions s = policy_versions s0;
  ai_segment : forall sid, sid ∈ map sg_id (segment s0) ->
    sid ∈ map sg_id (segment s) /\ segment_name s sid = segment_name s0 sid;
  ai_texts : forall sid, sid ∈ map sg_id (segment s0) ->
    cidr_texts s sid ≡ₚ match last_change (acc_changed acc) sid with
                        | Some (_, ips) => ips
                        | None => cidr_texts s0 sid
                        end;
  ai_names : forall sid name ips, last_change (acc_changed acc) sid = Some (name, ips) ->
    segment_name s0 sid = Some name }.

Lemma segment_name_spec s id n :
  NoDup (map sg_id (segment s)) ->
  segment_name s id = Some n <-> {| sg_id := id; sg_name := n |} ∈ segment s.
Proof.
  unfold segment_name. induction (segment s) as [|[i m] l IH]; cbn; intros Hnd.
  { split; [done|by intros ?%elem_of_nil]. }
  apply list.NoDup_cons in Hnd as [Hnew Hnd]. rewrite elem_of_cons. destruct (Z.eqb_spec i id) as [-> | Hne]; cbn.
  - split; [intros [= ->]; by left|]. intros [[= <-] | Hin]; [done|]. destruct Hnew.
    apply list_elem_of_fmap. by exists {| sg_id := id; sg_name := n |}.
  - rewrite IH by done. split; [auto|]. by intros [[= <- <-] | ?].
Qed.

Lemma segment_id_of_spec s name id :
  store_ok s -> segment_id_of s name = Some id -> segment_name s id = Some name.
Proof.
  intros Hok. unfold segment_id_of. destruct (List.find _ _) as [[i m]|] eqn:E; [|done]. intros [= <-].
  apply List.find_some in E as [Hin Hm%bool_decide_eq_true]. cbn in *. subst m.
  apply segment_name_spec; [apply (so_segments _ Hok)|]. by apply list_elem_of_In.
Qed.

Lemma segment_unique_name s id1 id2 n :
  store_ok s -> segment_name s id1 = Some n -> segment_name s id2 = Some n -> id1 = id2.
Proof.
  intros Hok. destruct (so_segments _ Hok) as [Hi Hn].
  rewrite !segment_name_spec by done. intros H1 H2. clear Hi.
  induction (segment s) as [|r l IH]; [by apply elem_of_nil in H1|]. cbn in Hn.
  apply list.NoDup_cons in Hn as [Hnew Hn].
  apply elem_of_cons in H1 as [<- | H1], H2 as [E | H2]; [by injection E|..|by apply IH].
  - destruct Hnew. apply list_elem_of_fmap. by exists {| sg_id := id2; sg_name := n |}.
  - subst r. destruct Hnew. apply list_elem_of_fmap. by exists {| sg_id := id1; sg_name := n |}.
Qed.

Lemma name_in_segment s name :
  store_ok s -> name ∈ map sg_name (segment s) ->
  exists id, id ∈ map sg_id (segment s) /\ segment_name s id = Some name.
Proof.
  intros Hok ([i m] & -> & Hin)%list_elem_of_fmap. exists i. split.
  - apply list_elem_of_fmap. by exists {| sg_id := i; sg_name := m |}.
  - apply segment_name_spec; [apply (so_segments _ Hok)|done].
Qed.

(** What replacing the rows of one segment does. *)
Lemma update_segment_spec name cidrs acc s acc' s' :
  update_segment name cidrs acc s = Ok (acc', s') -> store_ok s ->
  (acc' = acc /\ s' = s) \/
  (exists id rows, segment_id_of s name = Some id /\ s' = set_cidrs rows s /\
     acc_changed acc' = acc_changed acc ++ [(id, name, map net_show cidrs)] /\
     cidr_texts s' id = map net_show cidrs /\
     forall sid, sid <> id -> cidr_texts s' sid = cidr_texts s sid).
Proof.
  unfold update_segment. intros Hrun Hok.
  apply tx_bind_ok in Hrun as (? & ? & [-> ->]%get_ok & Hrun).
  apply tx_bind_ok in Hrun as (id & ? & [Hid ->]%of_result_ok & Hrun).
  apply tx_bind_ok in Hrun as (ex & ? & [_ ->]%of_result_ok & Hrun).
  destruct (same_set ex cidrs); [left; by tx_inv|right].
  apply tx_bind_ok in Hrun as (? & ? & ->%modify_ok & Hrun).
  apply tx_bind_ok in Hrun as (? & s1 & H1 & Hrun). tx_inv.
  destruct (segment_id_of s name) as [i|] eqn:Ei; [|done]. injection Hid as ->.
  pose proof (segment_id_of_in _ _ _ Ei) as Hin.
  unfold insert_cidrs_tx in H1. destruct (so_cidrs _ Hok) as (Hc1 & Hc2 & Hc3).
  apply insert_cidrs_loop_ok in H1 as [-> _]; [|done| |].
  2: { split; [|split]; cbn; [by apply Forall_filter_b..|by apply FOP_filter]. }
  2: { replace (own_rows _ _) with (@nil CidrRow); [done|]. symmetry. apply own_rows_deleted. }
  eexists id, _. split; [done|]. split; [reflexivity|]. split; [done|].
  assert (forall sid, cidr_texts (set_cidrs
      (List.filter (fun r => negb (cd_segment r =? id)) (cidr s) ++
       map (fun c => {| cd_segment := id; cd_cidr := net_show c |}) cidrs) s) sid =
    map cd_cidr (own_rows sid (List.filter (fun r => negb (cd_segment r =? id)) (cidr s))) ++
    (if id =? sid then map net_show cidrs else [])) as Ht.
  { intros sid. unfold cidr_texts. cbn. unfold own_rows at 1. rewrite List.filter_app, map_app.
    by rewrite <- own_rows_tagged. }
  split.
  - etrans; [exact (Ht id)|]. by rewrite own_rows_deleted, Z.eqb_refl.
  - intros sid Hne. etrans; [exact (Ht sid)|]. destruct (Z.eqb_spec id sid); [congruence|]. rewrite app_nil_r.
    unfold cidr_texts, own_rows. clear -Hne. induction (cidr s) as [|r l IH]; [done|]. cbn.
    destruct (Z.eqb_spec (cd_segment r) id) as [E|]; cbn; destruct (Z.eqb_spec (cd_segment r) sid);
      cbn; try congruence; by f_equal.
Qed.

Lemma update_segment_inv s0 name cidrs acc s acc' s' :
  store_ok s0 -> name ∈ map sg_name (segment s0) ->
  update_segment name cidrs acc s = Ok (acc', s') -> apply_inv s0 acc s -> apply_inv s0 acc' s'.
Proof.
  intros Hok0 Hname Hrun [Hok Hrest Hpol Hseg Htexts Hnames].
  pose proof (update_segment_ok _ _ _ _ _ _ Hrun Hok) as Hok'.
  destruct (update_segment_spec _ _ _ _ _ _ Hrun Hok) as [[-> ->] | (id & rows & Hid & -> & Hch & Hown & Hother)];
    [by split|].
  destruct (name_in_segment _ _ Hok0 Hname) as (id0 & Hid0 & Hn0).
  assert (id = id0) as ->.
  { apply (segment_unique_name s _ _ name Hok); [by apply segment_id_of_spec|]. by rewrite (proj2 (Hseg _ Hid0)). }
  split; try done.
  - destruct Hrest as [[] ? ?]. by split.
  - intros sid Hsid. rewrite Hch, last_change_snoc. destruct (Z.eqb_spec id0 sid) as [<- | Hne].
    + by rewrite Hown.
    + rewrite Hother by done. by apply Htexts.
  - intros sid n ips. rewrite Hch, last_change_snoc. destruct (Z.eqb_spec id0 sid) as [<- | Hne]; [|apply Hnames].
    by intros [= <- _].
Qed.

Lemma create_segment_inv s0 name cidrs acc s acc' s' :
  create_segment name cidrs acc s = Ok (acc', s') -> apply_inv s0 acc s -> apply_inv s0 acc' s'.
Proof.
  unfold create_segment. intros Hrun [Hok Hrest Hpol Hseg Htexts Hnames].
  apply tx_bind_ok in Hrun as (id & s1 & H1 & Hrun). tx_inv.
  pose proof (insert_segment_tx_ok _ _ _ _ _ H1 Hok) as Hok'.
  destruct (insert_segment_tx_spec _ _ _ _ _ H1 Hok) as [_ E].
  assert (same_rest s s1) as Hr by (by subst s1).
  split; cbn; try done.
  - by eapply same_rest_trans.
  - by subst s1.
  - intros sid Hsid. destruct (Hseg sid Hsid) as [Hin Hn].
    destruct (insert_segment_frame _ _ _ _ _ _ H1 Hok Hin) as [-> _]. split; [|done].
    subst s1. cbn. rewrite map_app. apply elem_of_app. by left.
  - intros sid Hsid. destruct (Hseg sid Hsid) as [Hin _].
    destruct (insert_segment_frame _ _ _ _ _ _ H1 Hok Hin) as [_ ->]. by apply Htexts.
Qed.

Lemma apply_segments_inv s0 decls acc s acc' s' :
  store_ok s0 -> apply_segments (map sg_name (segment s0)) decls acc s = Ok (acc', s') ->
  apply_inv s0 acc s -> apply_inv s0 acc' s'.
Proof.
  intros Hok0. revert acc s. induction decls as [|[name cidrs] decls IH]; intros acc s Hrun Hinv.
  { by apply ret_ok in Hrun as [-> ->]. }
  cbn [apply_segments] in Hrun. apply tx_bind_ok in Hrun as (acc1 & s1 & H1 & Hrun).
  apply IH in Hrun; [done|]. case_bool_decide; [by eapply update_segment_inv|by eapply create_segment_inv].
Qed.

Lemma apply_inv_start s : store_ok s -> apply_inv s no_changes s.
Proof. by split. Qed.

Lemma apply_policy_spec source actor now acc s upd acc' s' :
  apply_policy from_str sha256 blocks_json canonical_json source actor now acc s = Ok ((upd, acc'), s') ->
  acc_changed acc' = acc_changed acc /\
  ((upd = false /\ s' = s) \/ (upd = true /\ exists vs rs, vs <> [] /\ s' = set_policy vs rs s)).
Proof.
  unfold apply_policy. intros Hrun. destruct source as [src|]; [|tx_inv; by auto].
  apply tx_bind_ok in Hrun as (? & ? & [-> ->]%get_ok & Hrun).
  apply tx_bind_ok in Hrun as (ir & ? & [_ ->]%of_result_ok & Hrun).
  destruct (match policy_version s None with Some _ => _ | None => _ end); tx_inv; [|by auto].
  split; [done|]. right. split; [done|]. eexists _, _. split; [|reflexivity].
  by intros [_ ?]%app_nil.
Qed.
(** *** The events *)

Lemma active_for_segment s sid y :
  active_gateway_for_segment s sid = Some y ->
  exists g, g ∈ gateway s /\ gw_segment g = sid /\ gw_active g = true /\ gw_id g = y.
Proof.
  unfold active_gateway_for_segment. destruct (List.find _ _) as [g|] eqn:E; [|done]. intros [= <-].
  apply List.find_some in E as [Hin Hb]. apply andb_true_iff in Hb as [Hs%Z.eqb_eq Ha].
  exists g. by rewrite list_elem_of_In.
Qed.

Lemma gateway_unique s g1 g2 :
  store_ok s -> g1 ∈ gateway s -> g2 ∈ gateway s -> gw_id g1 = gw_id g2 -> g1 = g2.
Proof.
  intros Hok. eapply NoDup_map_inv, (so_gateways _ Hok).
Qed.

Lemma active_unique s g1 g2 :
  store_ok s -> g1 ∈ gateway s -> g2 ∈ gateway s -> gw_active g1 = true -> gw_active g2 = true ->
  gw_segment g1 = gw_segment g2 -> g1 = g2.
Proof.
  intros Hok H1 H2 A1 A2 E. destruct (so_gateways _ Hok) as (_ & _ & _ & Hact). clear Hok.
  induction Hact as [|g l Hg _ IH]; [by apply elem_of_nil in H1|]. rewrite list.Forall_forall in Hg.
  apply elem_of_cons in H1 as [-> | H1], H2 as [-> | H2]; [done| | |by apply IH].
  - by destruct (Hg _ H2).
  - destruct (Hg _ H1); [done..|]. by symmetry.
Qed.

(** The refresh of the gateway of a segment. *)
Definition changed_entry (s : Store) (x : Z) (c : string * list string) : Entry :=
  Refreshed (refreshed_peer x c.1 c.2 (all_keys_for_gateway (keys_db s) x) (candidates_for s x)).

Lemma entry_after_changes s l x g :
  store_ok s -> active_gateway s x = Some g ->
  entry_after (concat (map (cidrs_changed s) l)) x = changed_entry s x <$> last_change l (gw_segment g).
Proof.
  intros Hok Hg. destruct (active_gateway_spec _ _ _ Hg) as (Hin & Hid & Ha).
  induction l as [|[[sid name] ips] l IH] using rev_ind; [done|].
  rewrite map_app, concat_app, last_change_snoc. unfold entry_after in *. rewrite foldl_app, IH. cbn [map concat].
  rewrite app_nil_r. unfold cidrs_changed.
  destruct (active_gateway_for_segment s sid) as [y|] eqn:E.
  - apply active_for_segment in E as (r & Hr & Hs & Har & Hy). cbn.
    destruct (Z.eqb_spec y x) as [Eyx | Hne], (Z.eqb_spec sid (gw_segment g)) as [Es | Hns]; try done.
    + unfold changed_entry. cbn. by rewrite Eyx.
    + assert (r = g) as -> by (apply (gateway_unique s); [done..|congruence]). done.
    + assert (r = g) as -> by (apply (active_unique s); [done..|congruence]). congruence.
  - cbn. destruct (Z.eqb_spec sid (gw_segment g)) as [-> |]; [|done]. exfalso.
    unfold active_gateway_for_segment in E. destruct (List.find _ _) eqn:F; [done|].
    apply find_none_iff in F. rewrite list.Forall_forall in F. specialize (F g Hin).
    by rewrite Z.eqb_refl, Ha in F.
Qed.

Lemma changes_refresh s l : Forall (refresh_of s) (concat (map (cidrs_changed s) l)).
Proof.
  induction l as [|[[sid name] ips] l IH]; [constructor|]. cbn [map concat]. apply Forall_app. split; [|done].
  unfold cidrs_changed. destruct (active_gateway_for_segment s sid) as [y|] eqn:E; [|constructor].
  apply active_for_segment in E as (r & Hr & _ & _ & <-). constructor; [|constructor].
  eexists _, _. split; [reflexivity|]. apply list_elem_of_fmap. by exists r.
Qed.

Definition policy_events (s : Store) (updated : bool) : list ChangeEvent :=
  if updated then
    match latest_policy s with Some (v, ir) => [PolicyUpdated v ir (state_revision s)] | None => [] end
  else [].

Lemma policy_events_spec s upd :
  policy_after (policy_events s upd) = (if upd then latest_policy s else None) /\
  relays_after (policy_events s upd) = None /\
  (forall e, e ∈ policy_events s upd -> entry_of e = None /\ serials_of e = [] /\
     forall v ir r, e = PolicyUpdated v ir r -> latest_policy s = Some (v, ir)).
Proof.
  unfold policy_events. destruct upd; [|split_and!; try done; by intros e ?%elem_of_nil].
  destruct (latest_policy s) as [[v ir]|]; [|split_and!; try done; by intros e ?%elem_of_nil].
  split; [done|]. split; [done|]. intros e ->%list_elem_of_singleton. split; [done|]. split; [done|].
  by intros ? ? ? [= -> -> _].
Qed.

Lemma latest_policy_positive s v ir : store_ok s -> latest_policy s = Some (v, ir) -> 0 < v.
Proof.
  intros Hok. unfold latest_policy, policy_version. pose proof (latest_row_spec (policy_versions s)) as H.
  destruct (latest_row _) as [r|]; [|done]. cbn. intros [= <- _]. destruct H as [Hr _].
  destruct (so_policies _ Hok) as [_ Hp]. rewrite list.Forall_forall in Hp. by apply Hp.
Qed.

(** What the transaction of an apply leaves, for the events that follow it. *)
Lemma apply_tx_inv decls yaml actor now s out s' :
  store_ok s ->
  apply_tx from_str sha256 blocks_json canonical_json decls yaml actor now s = Ok (Some out, s') ->
  exists acc s1, apply_inv s acc s1 /\ changed_segment_cidrs out = acc_changed acc /\
    same_rest s1 s' /\ segment s' = segment s1 /\ cidr s' = cidr s1 /\
    (policy_updated out = false -> policy_versions s' = policy_versions s1) /\
    (policy_updated out = true -> policy_versions s' <> []).
Proof.
  intros Hok E. unfold apply_tx in E. apply tx_bind_ok in E as (? & ? & [-> ->]%get_ok & E).
  apply tx_bind_ok in E as (acc & s1 & H1 & E).
  apply (apply_segments_inv s) in H1; [|done|by apply apply_inv_start].
  apply tx_bind_ok in E as (? & ? & [-> ->]%get_ok & E).
  apply tx_bind_ok in E as ([upd acc'] & s2 & H2 & E). apply apply_policy_spec in H2 as [Hch H2].
  destruct (_ && _); [by tx_inv|].
  apply tx_bind_ok in E as (? & s3 & H3 & E). apply record_audits_spec in H3 as [a ->].
  tx_inv. exists acc, s1. rewrite Hch.
  destruct H2 as [[-> ->] | (-> & vs & rs & Hne & ->)]; by split_and!.
Qed.

Lemma apply_entry s acc s1 s' x :
  store_ok s -> store_ok s' -> apply_inv s acc s1 -> same_rest s1 s' -> segment s' = segment s1 -> cidr s' = cidr s1 ->
  match entry_after (concat (map (cidrs_changed s') (acc_changed acc))) x with
  | Some (Refreshed p) => gateway_is_active s' x = true -> option_Forall2 peer_sim (Some p) (peer_ent s' x)
  | Some _ => False
  | None => option_Forall2 peer_sim (peer_ent s x) (peer_ent s' x)
  end.
Proof.
  intros Hok Hok' [Hok1 Hrest Hpol Hseg Htexts Hnames] Hr Es Ec.
  pose proof (same_rest_trans _ _ _ Hrest Hr) as [Hgw _ _].
  assert (forall sid, segment_name s' sid = segment_name s1 sid) as En by (intros; unfold segment_name; by rewrite Es).
  assert (forall sid, cidr_texts s' sid = cidr_texts s1 sid) as Et by (intros; unfold cidr_texts; by rewrite Ec).
  destruct (active_gateway s' x) as [g|] eqn:Eg.
  - rewrite (entry_after_changes _ _ _ _ Hok' Eg). rewrite (same_active_gateway _ _ x Hgw) in Eg.
    pose proof (active_segment _ _ _ Hok Eg) as Hsid. destruct (Hseg _ Hsid) as [_ Hn].
    specialize (Htexts _ Hsid). destruct (last_change _ _) as [[name ips]|] eqn:El; cbn.
    + intros _. unfold peer_ent. rewrite (same_active_gateway _ _ x Hgw), Eg. cbn.
      rewrite En, Hn, (Hnames _ _ _ El). cbn. constructor. split; try done. cbn. by rewrite cidrs_perm, Et.
    + apply ent_segments; [done|]. intros g' E'. rewrite E' in Eg. injection Eg as ->.
      by rewrite En, Hn, Et, Htexts.
  - assert (gateway_is_active s' x = false) as Hna.
    { apply not_true_iff_false. intros (r & Hr' & Hb)%existsb_iff. unfold active_gateway in Eg.
      apply find_none_iff in Eg. rewrite list.Forall_forall in Eg. specialize (Eg r Hr'). congruence. }
    destruct (entry_after _ x) as [[p|p|]|] eqn:Ee; [by rewrite Hna|..].
    + exfalso. by eapply refreshes_only_refresh; [apply changes_refresh| |].
    + exfalso. by eapply refreshes_only_refresh; [apply changes_refresh| |].
    + rewrite !peer_ent_inactive; [constructor|done|]. by rewrite <- (same_is_active _ _ x Hgw).
Qed.

Lemma entry_after_app_none l1 l2 x :
  (forall e, e ∈ l2 -> entry_of e = None) -> entry_after (l1 ++ l2) x = entry_after l1 x.
Proof.
  intros H. unfold entry_after. rewrite foldl_app. induction l2 as [|e l2 IH] using rev_ind; [done|].
  rewrite foldl_snoc, H by (apply elem_of_app; right; by constructor). apply IH. intros e' He'.
  apply H, elem_of_app. by left.
Qed.

Lemma policy_after_app l1 l2 : policy_after l1 = None -> policy_after (l1 ++ l2) = policy_after l2.
Proof. intros H. unfold policy_after in *. by rewrite foldl_app, H. Qed.

Lemma relays_after_app l1 l2 : relays_after l1 = None -> relays_after (l1 ++ l2) = relays_after l2.
Proof. intros H. unfold relays_after in *. by rewrite foldl_app, H. Qed.

Lemma apply_effect decls yaml actor now s :
  store_ok s ->
  let '(s', evs) := handle_apply from_str sha256 blocks_json canonical_json decls yaml actor now s in
  effect s s' evs.
Proof.
  intros Hok. pose proof (apply_fabric_ok from_str sha256 blocks_json canonical_json decls yaml actor now s Hok) as Hok'.
  unfold handle_apply, apply_fabric in *.
  destruct (apply_tx _ _ _ _ _ _ _ _ s) as [[[out|] s']|e] eqn:E; cbn in Hok';
    [|apply effect_same|apply effect_same].
  apply apply_tx_inv in E as (acc & s1 & Hinv & Hch & Hr & Es & Ec & Hp & Hp'); [|done].
  pose proof (same_rest_trans _ _ _ (ai_rest _ _ _ Hinv) Hr) as [Hgw Hrel Hcert]. rewrite Hch.
  fold (policy_events s' (policy_updated out)). set (pol := policy_events s' (policy_updated out)).
  set (refr := concat (map (cidrs_changed s') (acc_changed acc))).
  pose proof (changes_refresh s' (acc_changed acc)) as Href. fold refr in Href.
  destruct (refresh_no_globals _ _ Href) as (R1 & R2 & R3).
  destruct (policy_events_spec s' (policy_updated out)) as (P1 & P2 & P3). fold pol in P1, P2, P3.
  assert (ids s' = ids s) as Hids by (unfold ids; by rewrite (sg_rows _ _ Hgw)).
  split.
  - by rewrite Hids.
  - intros x _. by rewrite (same_is_active _ _ x Hgw).
  - intros e g n [He | He]%elem_of_app Hn; [|by rewrite (proj1 (P3 e He)) in Hn].
    rewrite list.Forall_forall in Href. destruct (Href e He) as (g' & p & E & Hg). congruence.
  - intros x. rewrite entry_after_app_none by (intros e He; apply (P3 e He)).
    pose proof (apply_entry s acc s1 s' x Hok Hok' Hinv Hr Es Ec) as H. fold refr in H.
    destruct (entry_after refr x) as [[p|p|]|]; done.
  - rewrite policy_after_app, P1 by done. unfold policy_pair. destruct (policy_updated out) eqn:Eu.
    + destruct (latest_policy s') as [q|] eqn:El; [done|]. destruct (Hp' eq_refl).
      unfold latest_policy, policy_version in El. pose proof (latest_row_spec (policy_versions s')) as Hl.
      by destruct (latest_row _).
    + cbn. unfold latest_policy, policy_version. by rewrite (Hp eq_refl), (ai_policy _ _ _ Hinv).
  - intros v ir r [He | He]%elem_of_app; [by destruct (proj2 (R3 _ He) v ir r)|].
    pose proof (proj2 (proj2 (P3 _ He)) v ir r eq_refl) as Hl. apply (latest_policy_positive _ _ _ Hok') in Hl. lia.
  - rewrite relays_after_app, P2 by done. cbn. unfold active_relays. by rewrite Hrel.
  - intros r. rewrite !elem_of_revoked, Hcert. split; [auto|]. intros [?|(e & [He | He]%elem_of_app & Hin)]; [done|..].
    + rewrite (proj1 (R3 e He)) in Hin. by apply elem_of_nil in Hin.
    + rewrite (proj1 (proj2 (P3 e He))) in Hin. by apply elem_of_nil in Hin.
  - intros e x [He | He]%elem_of_app Hne; [by destruct (R3 e He)|by destruct (P3 e He) as (_ & ? & _)].
Qed.

End apply_effect.
