(* ===== verification/CtlStream.v ===== *)
(** * Controller: streams follow the store

    The effect of an enrollment, all handlers as one type, and the theorem that
    ties the two halves of the protocol together: the state a gateway gets by
    applying the forwarded deltas to the snapshot it connected with is the
    snapshot the controller would send it now, but for the stale peers. *)
From Stdlib Require Import ZArith Lia Ascii.
From stdpp Require Import sorting.
From S2P Require Import Prelude StdNet IpNet CtlKeys CtlStore CtlEnroll CtlApply CtlStoreInv CtlStoreOk.
From S2P Require Import PolicyDsl PolicyCompile.
From S2P Require Import SyncProto CtlProjection GwState CtlView CtlEffects CtlApplyEffect.
Open Scope Z_scope.

Section enroll_effect.
Context {N : Ipv4NetApi} {NL : Ipv4NetLaws N} {J : JsonText}.

Lemma set_gateways_certificates l c s : set_gateways l (set_certificates c s) = set_certificates c (set_gateways l s).
Proof. done. Qed.

Lemma replace_gateways_spec gws now s certs s' :
  replace_gateways gws now s = Ok (certs, s') ->
  exists c, s' = set_certificates c (set_gateways (map (replace_row gws) (gateway s)) s) /\
    forall r, r ∈ revoked_serials s' <-> r ∈ revoked_serials s \/ r ∈ map ct_serial certs.
Proof.
  revert s certs. induction gws as [|id gws IH]; intros s certs Hrun.
  { apply ret_ok in Hrun as [-> ->]. exists (certificate s). split.
    - assert (map (replace_row []) (gateway s) = gateway s) as ->; [|by destruct s].
      rewrite <- (map_id (gateway s)) at 2. apply map_ext. intros g. unfold replace_row.
      by rewrite bool_decide_eq_false_2 by apply not_elem_of_nil.
    - intros r. cbn. rewrite elem_of_nil. tauto. }
  cbn [replace_gateways] in Hrun.
  apply tx_bind_ok in Hrun as (cs & s1 & H1%lift_ok & Hrun).
  apply revoke_live_certs_spec in H1 as [-> ->].
  apply tx_bind_ok in Hrun as (? & ? & ->%modify_ok & Hrun).
  apply tx_bind_ok in Hrun as (more & s2 & H2 & Hrun). apply ret_ok in Hrun as [-> ->].
  apply IH in H2 as (c & E & Hrev). exists c. split.
  - rewrite E. cbn. rewrite set_gateways_certificates. unfold set_certificates. cbn. f_equal.
    unfold update_gateway. rewrite map_map. apply map_ext. intros g. unfold replace_row.
    destruct (Z.eqb_spec (gw_id g) id) as [-> | Hne]; cbn.
    + rewrite (bool_decide_eq_true_2 (id ∈ id :: gws)) by apply list_elem_of_here. by case_bool_decide.
    + assert (gw_id g ∈ id :: gws <-> gw_id g ∈ gws) as Ei by (rewrite elem_of_cons; naive_solver).
      by rewrite (bool_decide_ext _ _ Ei).
  - intros r. rewrite Hrev, map_app, elem_of_app. pose proof (revoke_live_revoked s id now r) as Hr.
    match goal with |- (?X \/ _) <-> _ =>
      change (X <-> r ∈ revoked_serials s \/ r ∈ map ct_serial (live_certs s id)) in Hr end. tauto.
Qed.

(** The store after an enrollment. *)
Record enrolled (s s' : Store) (sid id : Z) (name : string) (serials : list string) : Prop := {
  en_rows : exists gws row, gateway s' = map (replace_row gws) (gateway s) ++ [row] /\
    gw_id row = id /\ gw_name row = name /\ gw_active row = true /\ gw_segment row = sid;
  en_fresh : id ∉ ids s;
  en_segments : segment s' = segment s /\ cidr s' = cidr s /\ gateway_candidate s' = gateway_candidate s;
  en_keys : forall x, x <> id -> default ∅ (key_rows s' !! x) = default ∅ (key_rows s !! x);
  en_rest : relay s' = relay s /\ policy_versions s' = policy_versions s;
  en_revoked : forall r, r ∈ revoked_serials s' <-> r ∈ revoked_serials s \/ r ∈ serials }.

Lemma claim_segment_spec token sid now s certs s' :
  claim_segment token sid now s = Ok (certs, s') ->
  exists gws c, s' = set_certificates c (set_gateways (map (replace_row gws) (gateway s)) s) /\
    forall r, r ∈ revoked_serials s' <-> r ∈ revoked_serials s \/ r ∈ map ct_serial certs.
Proof.
  unfold claim_segment. intros Hrun. apply tx_bind_ok in Hrun as (? & ? & [-> ->]%get_ok & Hrun).
  case_bool_decide.
  - apply tx_bind_ok in Hrun as (? & ? & [_ ->]%ensure_ok & Hrun).
    apply replace_gateways_spec in Hrun as (c & -> & Hr). eauto.
  - apply tx_bind_ok in Hrun as (? & ? & [_ ->]%ensure_ok & Hrun).
    apply (replace_gateways_spec [] now) in Hrun as (c & -> & Hr). eauto.
Qed.

Lemma enroll_spec h cidrs name wg serial handle na now key s out s' :
  enroll_gateway h cidrs name wg serial handle na now key s = (Ok out, s') ->
  enrolled s s' (eo_segment_id out) (eo_gateway_id out) name (eo_revoked_serials out).
Proof.
  intros E. apply commit_inv in E as [(o & [= <-] & Hrun) | (e & [=] & _)].
  apply tx_bind_ok in Hrun as (? & ? & [_ ->]%ensure_ok & Hrun).
  apply tx_bind_ok in Hrun as (? & ? & [-> ->]%get_ok & Hrun).
  destruct (find_token s h now _) as [token|]; [|done].
  apply tx_bind_ok in Hrun as (? & s0 & Hb & Hrun).
  assert (s0 = s) as ->.
  { destruct (bool_decide _); [by tx_inv|]. unfold check_bound in Hb. by tx_inv. }
  destruct (resolve_segment s None cidrs) as [[sid|]|] eqn:Er; [|done|done]. clear Er Hb.
  apply tx_bind_ok in Hrun as (rev & s1 & H1 & Hrun).
  apply claim_segment_spec in H1 as (gws & c & Es1 & Hrev).
  assert (gateway s1 = map (replace_row gws) (gateway s) /\ segment s1 = segment s /\ cidr s1 = cidr s /\
    gateway_candidate s1 = gateway_candidate s /\ key_rows s1 = key_rows s /\ relay s1 = relay s /\
    policy_versions s1 = policy_versions s) as (Eg & E1 & E2 & E3 & E4 & E5 & E6) by by subst s1.
  clear Es1.
  assert (map gw_id (gateway s1) = ids s) as Hids.
  { rewrite Eg, map_map. apply map_ext. intros g. unfold replace_row. cbn beta. by destruct (bool_decide (gw_id g ∈ gws)). }
  unfold insert_gateway_tx, insert_certificate_tx, insert_baseline_key, spend_token in Hrun. tx_inv.
  split; cbn.
  - eexists gws, _. rewrite Eg. split; [reflexivity|]. by split_and!.
  - rewrite <- Hids. apply next_id_fresh.
  - done.
  - intros y Hy. rewrite lookup_insert_ne by done. by rewrite E4.
  - done.
  - intros r. rewrite <- Hrev.
    exact (insert_certificate_revoked s1 {| ct_serial := serial; ct_subject_kind := "gateway";
      ct_subject_id := next_id (map gw_id (gateway s1)); ct_issuer_handle := handle; ct_not_after := na;
      ct_revoked_at := None |} r eq_refl).
Qed.

Lemma active_row s g : store_ok s -> g ∈ gateway s -> gw_active g = true -> active_gateway s (gw_id g) = Some g.
Proof.
  intros Hok Hg Ha. destruct (active_gateway s (gw_id g)) as [g'|] eqn:E.
  - apply active_gateway_spec in E as (Hg' & Hid & _). by rewrite (gateway_unique s g' g).
  - unfold active_gateway in E. rewrite find_none_iff, list.Forall_forall in E. specialize (E g Hg).
    cbn in E. by rewrite Z.eqb_refl, Ha in E.
Qed.

Lemma is_active_row s x :
  gateway_is_active s x = true <-> exists g, g ∈ gateway s /\ gw_id g = x /\ gw_active g = true.
Proof.
  unfold gateway_is_active. rewrite existsb_iff. setoid_rewrite andb_true_iff. by setoid_rewrite Z.eqb_eq.
Qed.

Section enrolled.
Context {s s' : Store} {sid id : Z} {name : string} {serials : list string}.
Context (Hok : store_ok s) (Hok' : store_ok s') (He : enrolled s s' sid id name serials).

(** Active gateways other than the new one were active with the same row. *)
Lemma enrolled_row x g :
  x <> id -> active_gateway s' x = Some g -> active_gateway s x = Some g.
Proof.
  intros Hx Hg. destruct (en_rows _ _ _ _ _ _ He) as (gws & row & Hrows & Hid & _).
  apply active_gateway_spec in Hg as (Hin & <- & Ha). rewrite Hrows in Hin.
  apply elem_of_app in Hin as [(g0 & -> & Hg0)%list_elem_of_fmap | ->%list_elem_of_singleton]; [|done].
  unfold replace_row in *. case_bool_decide; [done|]. by apply active_row.
Qed.

Lemma enrolled_ids : ids s ⊆ ids s'.
Proof.
  destruct (en_rows _ _ _ _ _ _ He) as (gws & row & Hrows & _). unfold ids. rewrite Hrows, map_app.
  intros x (g & -> & Hg)%list_elem_of_fmap. apply elem_of_app. left.
  rewrite map_map. apply list_elem_of_fmap. exists g. split; [|done]. unfold replace_row. by case_bool_decide.
Qed.

Lemma enrolled_new : exists row, row ∈ gateway s' /\ gw_id row = id /\ gw_name row = name /\ gw_active row = true.
Proof.
  destruct (en_rows _ _ _ _ _ _ He) as (gws & row & Hrows & Hid & Hn & Ha & _). exists row. split; [|done].
  rewrite Hrows. apply elem_of_app. right. by apply list_elem_of_singleton.
Qed.

Lemma enrolled_ent x :
  x <> id -> gateway_is_active s x = gateway_is_active s' x -> peer_ent s' x = peer_ent s x.
Proof.
  intros Hx Ha. destruct (gateway_is_active s' x) eqn:E'; [|by rewrite !peer_ent_inactive].
  apply is_active_row in E' as (g & Hg & <- & Hg').
  pose proof (active_row _ _ Hok' Hg Hg') as E'. pose proof (enrolled_row _ _ Hx E') as E.
  destruct (en_segments _ _ _ _ _ _ He) as (Hs & Hc & Hcd). pose proof (en_keys _ _ _ _ _ _ He _ Hx) as Hk.
  unfold peer_ent. rewrite E, E'. cbn. unfold segment_name. rewrite Hs.
  destruct (List.find _ (segment s)); [|done]. cbn. do 2 f_equal.
  - unfold cidrs_for_segment, own_rows. by rewrite Hc.
  - unfold all_keys_for_gateway, rows_of. cbn. by rewrite Hk.
  - unfold candidates_for, candidate_endpoint_for_gateway, local_candidates. by rewrite E, E', Hcd.
Qed.

(** The identity the event is built from is the new gateway. *)
Lemma enrolled_identity : exists i, find_gateway_by_name s' name = Some i /\ gi_id i = id.
Proof.
  destruct enrolled_new as (row & Hrow & <- & Hn & Ha). destruct (so_gateways _ Hok') as (_ & Hnd & _).
  unfold find_gateway_by_name. destruct (List.find _ (gateway s')) as [g|] eqn:E.
  - apply List.find_some in E as [Hg Hb]. apply andb_true_iff in Hb as [Hb%bool_decide_eq_true _].
    apply list_elem_of_In in Hg. assert (g = row) as ->.
    { eapply (NoDup_map_inv gw_name); [exact Hnd|done|done|congruence]. }
    destruct (segment_of_gateway _ _ Hok' Hrow) as [n Hseg]. cbn. unfold identity_of. rewrite Hseg. cbn.
    eexists. split; [reflexivity|done].
  - rewrite find_none_iff, list.Forall_forall in E. specialize (E row Hrow). cbn in E.
    by rewrite bool_decide_eq_true_2, Ha in E.
Qed.
End enrolled.

Lemma enrolled_effect s s' sid id name serials seg ips r :
  store_ok s -> store_ok s' -> enrolled s s' sid id name serials ->
  effect s s' [GatewayEnrolled id seg ips serials r].
Proof.
  intros Hok Hok' He. destruct (en_rest _ _ _ _ _ _ He) as [Hrl Hpol]. split.
  - by eapply enrolled_ids.
  - intros x Hx (g & Hg & Hid & Ha)%is_active_row. apply is_active_row.
    assert (x <> id) as Hne by (intros ->; by apply (en_fresh _ _ _ _ _ _ He)).
    pose proof (active_row _ _ Hok' Hg Ha) as Hrow. rewrite Hid in Hrow.
    apply (enrolled_row Hok He) in Hrow; [|done].
    apply active_gateway_spec in Hrow. eauto.
  - intros e g n ->%list_elem_of_singleton [= <- <-]. destruct (enrolled_new He) as (row & Hr & <- & _).
    apply list_elem_of_fmap. by exists row.
  - intros x. rewrite (entry_after_one _ id (Introduced (refreshed_peer id seg ips [] []))) by done.
    destruct (Z.eqb_spec id x); [done|]. intros Ha. by rewrite (enrolled_ent Hok Hok' He).
  - cbn. unfold policy_pair, latest_policy, policy_version. by rewrite Hpol.
  - by intros v ir r' E%list_elem_of_singleton.
  - cbn. unfold active_relays. by rewrite Hrl.
  - intros x. rewrite (en_revoked _ _ _ _ _ _ He). setoid_rewrite list_elem_of_singleton. split; [|naive_solver].
    intros [?|?]; [by left|right]. eauto.
  - intros e x ->%list_elem_of_singleton _ <- _ Hin. by destruct (en_fresh _ _ _ _ _ _ He).
Qed.

Lemma enroll_gateway_effect h cidrs name wg serial handle na now key s :
  store_ok s -> let '(s', evs) := handle_enroll_gateway h cidrs name wg serial handle na now key s in effect s s' evs.
Proof.
  intros Hok. pose proof (enroll_gateway_ok h cidrs name wg serial handle na now key s Hok) as Hok'.
  unfold handle_enroll_gateway. destruct (enroll_gateway h cidrs name wg serial handle na now key s) as [[out|e] s'] eqn:E.
  - cbn in Hok'. apply enroll_spec in E. destruct (enrolled_identity Hok' E) as (i & -> & ->). by eapply enrolled_effect.
  - apply commit_inv in E as [(o & [=] & _) | (e' & _ & ->)]. apply effect_same.
Qed.

(** What an enrollment says about whom. *)
Lemma enroll_entries h cidrs name wg serial handle na now key s x :
  store_ok s ->
  let '(s', evs) := handle_enroll_gateway h cidrs name wg serial handle na now key s in
  match entry_after evs x with
  | Some (Introduced _) => x ∉ ids s
  | Some _ => False
  | None => x ∈ ids s \/ gateway_is_active s' x = gateway_is_active s x
  end.
Proof.
  intros Hok. pose proof (enroll_gateway_ok h cidrs name wg serial handle na now key s Hok) as Hok'.
  unfold handle_enroll_gateway. destruct (enroll_gateway h cidrs name wg serial handle na now key s) as [[out|e] s'] eqn:E.
  - cbn in Hok'. apply enroll_spec in E. destruct (enrolled_identity Hok' E) as (i & -> & ->).
    rewrite (entry_after_one _ (eo_gateway_id out)
      (Introduced (refreshed_peer (eo_gateway_id out) (gi_segment_name i) (cidrs_for_segment s' (gi_segment_id i)) [] [])))
      by done.
    destruct (Z.eqb_spec (eo_gateway_id out) x) as [<- | Hne]; [apply (en_fresh _ _ _ _ _ _ E)|].
    destruct (gateway_is_active s' x) eqn:Ha; [left|destruct (gateway_is_active s x) eqn:Ha'; [left|by right]].
    + pose proof Ha as (g & Hg & Hid & Hact)%is_active_row. pose proof (active_row _ _ Hok' Hg Hact) as Hrow.
      rewrite Hid in Hrow. apply (enrolled_row Hok E) in Hrow; [|done].
      apply active_gateway_active in Hrow. by apply active_in_ids.
    + by apply active_in_ids.
  - apply commit_inv in E as [(o & [=] & _) | (e' & _ & ->)]. cbn. by right.
Qed.
End enroll_effect.

(** ** All operations with their events *)

Section streams.
Context {N : Ipv4NetApi} {NL : Ipv4NetLaws N} {J : JsonText}.
Context (from_str : string -> result string PolicyDoc) (sha256 : string -> string)
        (blocks_json : list IrBlock -> string) (canonical_json : PolicyIR -> string).

(** An operation of the store with what it broadcasts. *)
Definition handle (op : StoreOp) : Handler :=
  match op with
  | OpApply decls yaml actor now => handle_apply from_str sha256 blocks_json canonical_json decls yaml actor now
  | OpEnrollGateway hash cidrs name wg serial issuer not_after now key =>
      handle_enroll_gateway hash cidrs name wg serial issuer not_after now key
  | OpEnrollRelay hash name endpoint serial issuer not_after now =>
      handle_enroll_relay hash name endpoint serial issuer not_after now
  | OpRotateKey g actor now => handle_rotate_key g actor now
  | OpSubmitKey g e pubkey => handle_submit_key g e pubkey
  | OpPromote g e => handle_promote g e
  | OpRetire g e => handle_retire g e
  | OpDropPending g e => handle_drop g e
  | OpDrain g actor now => handle_drain g actor now
  | OpRevokeCert serial actor now => handle_revoke_cert serial actor now
  | OpInsertRelay name endpoint actor now => handle_register_relay name endpoint actor now
  | OpRelayStatus r st => handle_relay_status r st
  | OpCandidate g addr => handle_observed g addr
  | OpLocals g endpoints => handle_local_candidates g endpoints
  | _ => fun s => (exec from_str sha256 blocks_json canonical_json op s, [])
  end.

Local Abbreviation exec := (exec from_str sha256 blocks_json canonical_json).

(** A handler's store is its transaction's. *)
Lemma handle_exec op s : fst (handle op s) = exec op s \/ fst (handle op s) = s.
Proof.
  destruct op; cbn [handle CtlStoreOk.exec]; try (by left);
    unfold handle_apply, handle_enroll_gateway, handle_enroll_relay, handle_rotate_key, handle_submit_key,
      handle_promote, handle_retire, handle_drop, handle_drain, handle_revoke_cert, handle_register_relay,
      handle_relay_status, handle_observed, handle_local_candidates, key_change;
    repeat case_match; subst; cbn; auto.
Qed.

Lemma handle_ok op s : store_ok s -> store_ok (fst (handle op s)).
Proof. intros Hok. destruct (handle_exec op s) as [-> | ->]; [by apply exec_ok|done]. Qed.

(** What tokens and the audit log hold is not on the stream. *)
Lemma commit_silent {E A : Type} (m : tx E A) s :
  (forall a s', m s = Ok (a, s') ->
     same_gateways s s' /\ segment s' = segment s /\ cidr s' = cidr s /\ certificate s' = certificate s /\
     relay s' = relay s /\ policy_versions s' = policy_versions s) ->
  effect s (snd (commit m s)) [].
Proof.
  intros H. apply commit_keeps; [apply effect_same|]. intros a s' Hrun.
  destruct (H a s' Hrun) as (Hg & Hs & Hc & Hct & Hr & Hp). apply effect_silent.
  - unfold ids. by rewrite (sg_rows _ _ Hg).
  - intros x. by apply same_is_active.
  - unfold policy_pair, latest_policy, policy_version. by rewrite Hp.
  - unfold active_relays. by rewrite Hr.
  - unfold revoked_serials. by rewrite Hct.
  - intros x. apply ent_segments; [done|]. intros g _. unfold segment_name, cidr_texts. by rewrite Hs, Hc.
Qed.

Lemma handle_effect op s : store_ok s -> effect s (fst (handle op s)) (snd (handle op s)).
Proof.
  intros Hok.
  assert (forall p, (let '(s', evs) := p in effect s s' evs) -> effect s (fst p) (snd p)) as Hp by (by intros []).
  destruct op; cbn [handle]; apply Hp; clear Hp; first
    [ apply (apply_effect from_str sha256 blocks_json canonical_json) | apply enroll_gateway_effect
    | apply enroll_relay_effect | apply rotate_key_effect | apply submit_key_effect | apply promote_effect
    | apply retire_effect | apply drop_effect | apply drain_effect | apply revoke_cert_effect
    | apply register_relay_effect | apply relay_status_effect | apply observed_effect | apply locals_effect
    | cbn [CtlStoreOk.exec] ]; try exact Hok;
    try first [ apply delete_segment_effect; exact Hok | apply applied_version_effect | apply relay_version_effect ].
  - unfold insert_segment. apply commit_keeps; [apply effect_same|]. intros a s' Hrun.
    apply tx_bind_ok in Hrun as (id & s1 & H1 & Hrun). tx_inv. by eapply insert_segment_effect.
  - unfold create_segment_audited. apply commit_keeps; [apply effect_same|]. intros a s' Hrun.
    apply tx_bind_ok in Hrun as (id & s1 & H1 & Hrun). tx_inv. by eapply insert_segment_effect.
  - apply commit_silent. intros a s' Hrun. by tx_inv.
  - by apply set_on_gateway_effect.
  - by apply set_on_gateway_effect.
  - apply commit_silent. intros a s' Hrun. by tx_inv.
  - apply commit_silent. intros a s' Hrun. tx_inv. destruct (existsb _ _); by tx_inv.
Qed.

(** ** Which peers go stale *)

Definition statuses (s : Store) : list (Z * string) := map (fun g => (gw_id g, gw_status g)) (gateway s).

Definition is_enroll (op : StoreOp) : bool := match op with OpEnrollGateway _ _ _ _ _ _ _ _ _ => true | _ => false end.
Definition is_drain (op : StoreOp) : bool := match op with OpDrain _ _ _ => true | _ => false end.

(** The gateway whose keys an operation changes. *)
Definition key_subject (op : StoreOp) : option Z :=
  match op with
  | OpRotateKey g _ _ | OpSubmitKey g _ _ | OpPromote g _ | OpRetire g _ | OpDropPending g _ => Some g
  | _ => None
  end.

Lemma statuses_active s s' x : statuses s' = statuses s -> gateway_is_active s' x = gateway_is_active s x.
Proof.
  intros E. assert (forall s, gateway_is_active s x =
    existsb (fun '(i, st) => (i =? x) && bool_decide (st = "active"%string)) (statuses s)) as H.
  { intros s0. unfold gateway_is_active, statuses. induction (gateway s0) as [|g l IH]; [done|]. cbn.
    rewrite IH. done. }
  by rewrite !H, E.
Qed.

Lemma statuses_map f s s' :
  keeps_core f -> gateway s' = map f (gateway s) -> statuses s' = statuses s.
Proof.
  intros Hf E. unfold statuses. rewrite E, map_map. apply map_ext. intros g. destruct (Hf g) as (-> & _ & ->). done.
Qed.

Lemma set_on_gateway_statuses f g msg s : keeps_core f -> statuses (snd (set_on_gateway f g msg s)) = statuses s.
Proof.
  intros Hf. unfold set_on_gateway, update_gateway. apply commit_keeps; [done|].
  intros a s' Hrun. tx_inv. by eapply statuses_map, eq_refl; apply keeps_if.
Qed.

Lemma on_keys_statuses {A : Type} (f : Db -> A * Db) s : statuses (snd (on_keys f s)) = statuses s.
Proof. unfold on_keys. by destruct (f (keys_db s)). Qed.

Lemma apply_statuses decls yaml actor now s :
  store_ok s -> statuses (exec (OpApply decls yaml actor now) s) = statuses s.
Proof.
  intros Hok. cbn [CtlStoreOk.exec]. unfold apply_fabric.
  destruct (apply_tx _ _ _ _ _ _ _ _ s) as [[[out|] s']|e] eqn:E; [|done..].
  apply apply_tx_inv in E as (acc & s1 & Hinv & _ & Hr & _); [|done].
  pose proof (same_rest_trans _ _ _ (ai_rest _ _ _ Hinv) Hr) as [Hgw _ _].
  unfold statuses. cbn. by rewrite (sg_rows _ _ Hgw).
Qed.

Lemma candidate_statuses g addr s : statuses (snd (set_candidate_endpoint g addr s)) = statuses s.
Proof.
  unfold set_candidate_endpoint. apply commit_keeps; [done|]. intros a s' Hrun. tx_inv.
  destruct (active_gateway s g); [|done]. case_bool_decide; tx_inv; [done|].
  eapply statuses_map, eq_refl. by apply (keeps_if (fun r => (gw_id r =? g) && gw_active r)).
Qed.

Ltac no_gateways := apply commit_keeps; [done|]; intros ? ? Hrun; by tx_inv.

Lemma insert_segment_statuses name cidrs s id s' :
  store_ok s -> insert_segment_tx name cidrs s = Ok (id, s') -> statuses s' = statuses s.
Proof. intros Hok H. by apply insert_segment_tx_spec in H as [_ ->]. Qed.

(** Only enrollments and drains change who is active. *)
Lemma exec_statuses op s :
  store_ok s -> is_enroll op = false -> is_drain op = false -> statuses (exec op s) = statuses s.
Proof.
  intros Hok He Hd. destruct op; try done; cbn [CtlStoreOk.exec];
    try apply on_keys_statuses; try (by apply set_on_gateway_statuses);
    try apply candidate_statuses; try (by apply apply_statuses);
    try (unfold insert_enrollment_token, insert_api_token, delete_segment, insert_relay, insert_relay_tx,
           set_relay_status, set_relay_reported_version; no_gateways).
  - unfold insert_segment. apply commit_keeps; [done|]. intros a s' Hrun.
    apply tx_bind_ok in Hrun as (id & s1 & H1 & Hrun). apply insert_segment_statuses in H1; [|done]. by tx_inv.
  - unfold create_segment_audited. apply commit_keeps; [done|]. intros a s' Hrun.
    apply tx_bind_ok in Hrun as (id & s1 & H1 & Hrun). apply insert_segment_statuses in H1; [|done]. by tx_inv.
  - unfold enroll_relay. apply commit_keeps; [done|]. intros a s' Hrun.
    apply tx_bind_ok in Hrun as (? & ? & [-> ->]%get_ok & Hrun).
    destruct (find_token s hash now ["relay"%string]) as [token|]; [|done].
    unfold insert_relay_tx, insert_certificate_tx, spend_token in Hrun. by tx_inv.
  - unfold revoke_cert. apply commit_keeps; [done|]. intros a s' Hrun. tx_inv. destruct (existsb _ _); by tx_inv.
  - unfold set_applied_version. destruct (v <? 2 ^ 63); [|done]. by apply set_on_gateway_statuses.
  - unfold revoke_api_token. apply commit_keeps; [done|]. intros a s' Hrun. tx_inv. destruct (existsb _ _); by tx_inv.
  - unfold set_local_candidates. apply commit_keeps; [done|]. intros a s' Hrun. tx_inv.
    destruct (active_gateway s g); [|done]. case_bool_decide; by tx_inv.
Qed.

Lemma handle_statuses op s :
  store_ok s -> is_enroll op = false -> is_drain op = false -> statuses (fst (handle op s)) = statuses s.
Proof. intros Hok He Hd. destruct (handle_exec op s) as [-> | ->]; [by apply exec_statuses|done]. Qed.

Lemma entry_after_some evs x n :
  entry_after evs x = Some n -> exists e, e ∈ evs /\ entry_of e = Some (x, n).
Proof.
  induction evs as [|e evs IH] using rev_ind; [done|]. rewrite entry_after_snoc. setoid_rewrite elem_of_app.
  setoid_rewrite list_elem_of_singleton. destruct (entry_of e) as [[g n']|] eqn:E; [|naive_solver].
  destruct (Z.eqb_spec g x) as [-> |]; naive_solver.
Qed.

Lemma key_change_events {A : Type} (applied : A -> bool) f g s e x n :
  e ∈ snd (key_change applied f g s) -> entry_of e = Some (x, n) -> x = g /\ exists p, n = Refreshed p.
Proof.
  unfold key_change. destruct (on_keys f s) as [a s']. cbn. destruct (applied a); [|by rewrite elem_of_nil].
  unfold key_rotated_events. destruct (gateway_identity_by_id s' g); [|by rewrite elem_of_nil].
  destruct (keys_snapshot _ _). rewrite list_elem_of_singleton. intros -> [= <- <-]. eauto.
Qed.

Lemma observed_entries s g r e x n :
  e ∈ endpoint_observed s g r -> entry_of e = Some (x, n) -> x = g /\ exists p, n = Refreshed p.
Proof.
  unfold endpoint_observed. destruct (gateway_identity_by_id s g); [|by rewrite elem_of_nil].
  rewrite list_elem_of_singleton. intros -> [= <- <-]. eauto.
Qed.

Lemma apply_entries decls yaml actor now s e x n :
  let '(s', evs) := handle_apply from_str sha256 blocks_json canonical_json decls yaml actor now s in
  e ∈ evs -> entry_of e = Some (x, n) -> (exists p, n = Refreshed p) /\ gateway_is_active s' x = true.
Proof.
  unfold handle_apply. destruct (apply_fabric _ _ _ _ _ _ _ _ _) as [[out|err] s']; [|by rewrite elem_of_nil].
  fold (policy_events s' (policy_updated out)). rewrite elem_of_app. intros [He | He] Hn.
  - apply list_elem_of_In, List.in_concat in He as (l & Hl & He).
    apply List.in_map_iff in Hl as ([[sid name] ips] & <- & _). unfold cidrs_changed in He.
    destruct (active_gateway_for_segment s' sid) as [y|] eqn:E; [|done].
    apply active_for_segment in E as (r & Hr & _ & Ha & <-). destruct He as [<- | []]. injection Hn as <- <-.
    split; [eauto|]. apply is_active_row. eauto.
  - apply policy_events_spec in He as [He _]. congruence.
Qed.

(** The events of an operation refresh active gateways, or the one whose keys it changed. *)
Lemma handle_entries op s e x n :
  store_ok s -> is_enroll op = false -> is_drain op = false ->
  e ∈ snd (handle op s) -> entry_of e = Some (x, n) ->
  (exists p, n = Refreshed p) /\ (key_subject op = Some x \/ gateway_is_active (fst (handle op s)) x = true).
Proof.
  intros Hok Hen Hd He Hn. pose proof (handle_statuses op s Hok Hen Hd) as Hst.
  assert (forall g, active_gateway s g <> None -> gateway_is_active (fst (handle op s)) g = true) as Hact.
  { intros g Hg. rewrite (statuses_active _ _ _ Hst). destruct (active_gateway s g) eqn:E; [|done].
    by eapply active_gateway_active. }
  destruct op; try done; cbn [handle key_subject] in *; try (by apply elem_of_nil in He);
    try (destruct (key_change_events _ _ _ _ _ _ _ He Hn) as [-> ?]; by auto).
  - pose proof (apply_entries decls yaml actor now s e x n) as H. destruct (handle_apply _ _ _ _ _ _ _ _ s).
    destruct (H He Hn). auto.
  - unfold handle_enroll_relay in He. destruct (enroll_relay _ _ _ _ _ _ _ _) as [[] ?];
      [by apply list_elem_of_singleton in He as ->|by apply elem_of_nil in He].
  - unfold handle_revoke_cert in He. case_bool_decide; [by apply elem_of_nil in He|].
    destruct (revoke_cert _ _ _ _) as [[[]|] ?]; cbn in He;
      [by apply list_elem_of_singleton in He as ->|by apply elem_of_nil in He..].
  - unfold handle_register_relay in He. destruct (insert_relay _ _ _ _ _) as [[] ?];
      [by apply list_elem_of_singleton in He as ->|by apply elem_of_nil in He].
  - unfold handle_relay_status in He. destruct (set_relay_status _ _ _). by apply list_elem_of_singleton in He as ->.
  - unfold handle_observed in He at 1. destruct (set_candidate_endpoint g addr s) as [[[r|]|] s'] eqn:E;
      cbn in He; [|by apply elem_of_nil in He..].
    destruct (observed_entries _ _ _ _ _ _ He Hn) as [-> Hp]. split; [done|]. right. apply Hact. intros Hg.
    apply commit_inv in E as [(o & _ & E) | (? & [=] & _)]. tx_inv. by rewrite Hg in E.
  - unfold handle_local_candidates in He at 1. destruct (set_local_candidates g endpoints s) as [[[r|]|] s'] eqn:E;
      cbn in He; [|by apply elem_of_nil in He..].
    destruct (observed_entries _ _ _ _ _ _ He Hn) as [-> Hp]. split; [done|]. right. apply Hact. intros Hg.
    apply commit_inv in E as [(o & _ & E) | (? & [=] & _)]. tx_inv. by rewrite Hg in E.
Qed.

(** A drain takes one gateway away, and says so. *)
Lemma drain_others g actor now s x :
  entry_after (snd (handle_drain g actor now s)) x = None ->
  gateway_is_active (fst (handle_drain g actor now s)) x = gateway_is_active s x.
Proof.
  unfold handle_drain. destruct (drain_gateway g actor now s) as [r s'] eqn:E.
  apply commit_inv in E as [(o & -> & E) | (e & -> & ->)]; [|done]. cbn [fst snd].
  rewrite (entry_after_one _ g Removed) by done. destruct (Z.eqb_spec g x) as [|Hne]; [done|]. intros _.
  apply tx_bind_ok in E as (? & ? & [-> ->]%get_ok & E).
  apply tx_bind_ok in E as (? & ? & [_ ->]%ensure_ok & E).
  apply tx_bind_ok in E as (certs & s1 & [-> ->]%revoke_live_certs_spec & E).
  set (s1 := set_certificates _ s) in E. cbn zeta in E. tx_inv.
  set (F := fun r => if gw_id r =? g then with_status "removed"%string r else r).
  refine (other_active F _ s1 x _).
  - intros r. unfold F. by destruct (_ =? g).
  - intros r <-. unfold F. by destruct (Z.eqb_spec (gw_id r) g).
Qed.

(** One step makes a peer stale only by an enrollment or a key change of an
    inactive gateway. *)
Lemma stale_step stale op s x :
  let '(s1, evs) := handle op s in
  store_ok s -> stale_after stale s s1 evs x ->
  ((x ∉ ids s) /\ (exists p, entry_after evs x = Some (Introduced p))) \/
  (gateway_is_active s1 x = false /\ x ∈ ids s1 /\ (is_enroll op = true \/ key_subject op = Some x)) \/
  (entry_after evs x = None /\ stale x).
Proof.
  destruct (handle op s) as [s1 evs] eqn:Eop. intros Hok Hst.
  pose proof (handle_effect op s Hok) as Hef. rewrite Eop in Hef. cbn in Hef. unfold stale_after in Hst.
  destruct (is_enroll op) eqn:Hen.
  { destruct op; try done. cbn [handle] in Eop.
    pose proof (enroll_entries hash cidrs name wg serial handle0 not_after now key s x Hok) as Hx. rewrite Eop in Hx.
    destruct (entry_after evs x) as [[p|p|]|]; [done|by eauto|done|]. destruct Hst as [Hst | Hst]; [auto|].
    destruct Hx as [Hx | Hx]; [|by destruct Hst]. right. left. split_and!; [|by apply (ef_ids _ _ _ Hef)|auto].
    apply not_true_iff_false. intros Ha. destruct Hst. rewrite Ha. by apply (ef_active _ _ _ Hef). }
  destruct (is_drain op) eqn:Hd.
  { destruct op; try done. cbn [handle] in Eop. pose proof (drain_others g actor now s x) as Hx.
    rewrite Eop in Hx. cbn in Hx. destruct (entry_after evs x) as [n|] eqn:E.
    - apply entry_after_some in E as (e & He & Hn). unfold handle_drain in Eop.
      destruct (drain_gateway _ _ _ _) as [[] ?]; injection Eop as <- <-; [|by apply elem_of_nil in He].
      apply list_elem_of_singleton in He as ->. by injection Hn as _ <-.
    - destruct Hst as [|Hst]; [auto|]. by rewrite Hx in Hst. }
  pose proof (handle_entries op s) as Hent. pose proof (handle_statuses op s Hok Hen Hd) as Hstat.
  rewrite Eop in Hent, Hstat. cbn in Hent, Hstat. destruct (entry_after evs x) as [n|] eqn:E.
  - apply entry_after_some in E as (e & He & Hn).
    destruct (Hent e x n Hok Hen Hd He Hn) as [[p ->] [Hk | Ha]]; [|congruence].
    right. left. split_and!; [done|by eapply (ef_subjects _ _ _ Hef)|auto].
  - destruct Hst as [|Hst]; [auto|]. by rewrite (statuses_active _ _ x Hstat) in Hst.
Qed.

(** ** Runs *)

Fixpoint run (s : Store) (ops : list StoreOp) : Store * list ChangeEvent :=
  match ops with
  | [] => (s, [])
  | op :: rest =>
      let '(s1, evs) := handle op s in
      let '(s2, more) := run s1 rest in (s2, evs ++ more)
  end.

Fixpoint stale_run (stale : Z -> Prop) (s : Store) (ops : list StoreOp) : Z -> Prop :=
  match ops with
  | [] => stale
  | op :: rest => let '(s1, evs) := handle op s in stale_run (stale_after stale s s1 evs) s1 rest
  end.

Section view.
Context (version cert : string) (self : Z).

Lemma run_grows ops s :
  store_ok s -> ids s ⊆ ids (fst (run s ops)) /\
  forall x, x ∈ ids s -> gateway_is_active (fst (run s ops)) x = true -> gateway_is_active s x = true.
Proof.
  revert s. induction ops as [|op ops IH]; intros s Hok; [done|]. cbn.
  pose proof (handle_ok op s Hok) as Hok1. pose proof (handle_effect op s Hok) as Hef.
  destruct (handle op s) as [s1 evs]. destruct (IH s1 Hok1) as [H1 H2]. destruct (run s1 ops) as [s2 more].
  pose proof (ef_ids _ _ _ Hef) as Hids. split; [by etrans; [apply Hids|]|].
  intros x Hx Ha. apply (ef_active _ _ _ Hef); [done|]. apply H2; [by apply Hids|done].
Qed.

Lemma ids_fit_mono s s' : store_ok s -> ids s ⊆ ids s' -> Forall id_ok (ids s') -> ids_fit s.
Proof.
  intros Hok Hsub Hfit. split; [apply (so_gateways _ Hok)|]. apply list.Forall_forall. intros g Hg.
  rewrite list.Forall_forall in Hfit. apply Hfit, Hsub, list_elem_of_fmap. by exists g.
Qed.

(** Who may be shown wrongly after [ops] took the store from [s0] to [s] with the
    events [evs]: a gateway enrolled since [s0] whose last event is not a refresh,
    and one that is gone, if there was an enrollment (a rebind replaces gateways
    silently) or an operation on its keys (which refreshes it). *)
Definition may_be_stale (s0 : Store) (ops : list StoreOp) (s : Store) (evs : list ChangeEvent) (x : Z) : Prop :=
  ((x ∉ ids s0) /\ (forall p, entry_after evs x <> Some (Refreshed p))) \/
  (gateway_is_active s x = false /\ x ∈ ids s /\
   existsb (fun op => is_enroll op || bool_decide (key_subject op = Some x)) ops = true).

Lemma entry_after_app l1 l2 x :
  entry_after (l1 ++ l2) x = match entry_after l2 x with Some n => Some n | None => entry_after l1 x end.
Proof.
  induction l2 as [|e l2 IH] using rev_ind; [by rewrite app_nil_r|]. rewrite app_assoc, !entry_after_snoc, IH.
  destruct (entry_of e) as [[g n]|]; [|done]. by destruct (g =? x).
Qed.

Lemma stale_inv_step s0 pre op s evs0 stale x :
  let '(s1, evs) := handle op s in
  store_ok s -> ids s0 ⊆ ids s -> (stale x -> may_be_stale s0 pre s evs0 x) ->
  stale_after stale s s1 evs x -> may_be_stale s0 (pre ++ [op]) s1 (evs0 ++ evs) x.
Proof.
  pose proof (stale_step stale op s x) as Hstep. pose proof (handle_effect op s) as Hef.
  destruct (handle op s) as [s1 evs]. intros Hok Hids Hpre Hst. specialize (Hef Hok). cbn in Hef.
  unfold may_be_stale. rewrite entry_after_app, existsb_app. cbn [existsb]. rewrite orb_false_r.
  destruct (Hstep Hok Hst) as [(Hx & p & ->) | [(Ha & Hx & Hop) | (-> & Hs)]].
  - left. split; [|done]. intros H. by apply Hx, Hids.
  - right. split_and!; [done..|]. apply orb_true_iff. right. apply orb_true_iff.
    destruct Hop as [Hop | ->]; [by left|right]. by apply bool_decide_eq_true.
  - destruct (Hpre Hs) as [?|(Ha & Hx & Hop)]; [by left|right]. split_and!.
    + apply not_true_iff_false. intros H%(ef_active _ _ _ Hef); [congruence|done].
    + by apply (ef_ids _ _ _ Hef).
    + by rewrite Hop.
Qed.

Lemma run_stale ops s0 pre s evs0 stale :
  let '(s', evs) := run s ops in
  store_ok s -> ids s0 ⊆ ids s -> (forall x, stale x -> may_be_stale s0 pre s evs0 x) ->
  forall x, stale_run stale s ops x -> may_be_stale s0 (pre ++ ops) s' (evs0 ++ evs) x.
Proof.
  revert pre s evs0 stale. induction ops as [|op ops IH]; intros pre s evs0 stale.
  { cbn. intros _ _ H. by rewrite !app_nil_r. }
  cbn. pose proof (fun x => stale_inv_step s0 pre op s evs0 stale x) as Hstep. pose proof (handle_ok op s) as Hok1.
  pose proof (handle_effect op s) as Hef. destruct (handle op s) as [s1 evs].
  specialize (IH (pre ++ [op]) s1 (evs0 ++ evs) (stale_after stale s s1 evs)).
  destruct (run s1 ops) as [s2 more]. rewrite <- !app_assoc in IH. cbn in Hok1, Hef.
  intros Hok Hids Hpre. specialize (Hef Hok). apply IH; [by apply Hok1| |].
  { etrans; [exact Hids|apply (ef_ids _ _ _ Hef)]. }
  intros x. apply Hstep; [done|done|apply Hpre].
Qed.

Lemma run_stream ops s ds stale :
  let '(s', evs) := run s ops in
  store_ok s -> Forall id_ok (ids s') -> self ∈ ids s -> gateway_is_active s' self = true ->
  find_peer ds self = None -> same_mesh stale ds (snapshot_state version cert self s) ->
  same_mesh (stale_run stale s ops) (foldl apply_delta ds (forward_gateway self evs))
    (snapshot_state version cert self s').
Proof.
  revert s ds stale. induction ops as [|op ops IH]; intros s ds stale; [by cbn|]. cbn.
  pose proof (handle_ok op s) as Hok1. pose proof (handle_effect op s) as Hef.
  destruct (handle op s) as [s1 evs]. pose proof (run_grows ops s1) as Hgrow.
  specialize (IH s1 (foldl apply_delta ds (forward_gateway self evs)) (stale_after stale s s1 evs)).
  destruct (run s1 ops) as [s2 more]. intros Hok Hfit Hin Ha Hn Hm. cbn in Hok1, Hef, Hgrow.
  specialize (Hok1 Hok). specialize (Hef Hok). destruct (Hgrow Hok1) as [Hsub Hact].
  pose proof (ef_ids _ _ _ Hef) as Hids.
  destruct (stream_step version cert self stale s s1 evs ds Hef) as [Hn1 Hm1]; try done.
  - apply (ids_fit_mono s s2); [done|by etrans|done].
  - by apply (ids_fit_mono s1 s2).
  - apply Hact; [by apply Hids|done].
  - unfold forward_gateway in *. rewrite omap_app, foldl_app. apply IH; try done. by apply Hids.
Qed.

Lemma same_mesh_mono (D D' : Z -> Prop) a b : (forall x, D x -> D' x) -> same_mesh D a b -> same_mesh D' a b.
Proof. intros HD [H1 H2 H3 H4]. split; auto. Qed.

(** C11: A gateway that stays enrolled and applies the deltas its stream forwards
    to the snapshot it connected with holds, after any operations of the
    controller on any reachable store, failed ones included, the state a new
    snapshot would give: the same policy, relays and revoked serials, and the same
    peers up to the order of their prefixes.  Every active gateway that was
    enrolled at the start is shown exactly; the exceptions are gateways enrolled
    since and not yet refreshed, and, after an enrollment or an operation on their
    keys, gateways that are no longer active. *)
Theorem streams_follow_store setup ops :
  let s := run_ops from_str sha256 blocks_json canonical_json empty_store setup in
  let '(s', evs) := run s ops in
  Forall id_ok (ids s') -> gateway_is_active s self = true -> gateway_is_active s' self = true ->
  same_mesh (may_be_stale s ops s' evs)
    (foldl apply_delta (snapshot_state version cert self s) (forward_gateway self evs))
    (snapshot_state version cert self s').
Proof.
  intros s. pose proof (run_ops_ok from_str sha256 blocks_json canonical_json setup _ store_ok_empty) as Hok.
  fold s in Hok. pose proof (run_stream ops s (snapshot_state version cert self s) (fun _ => False)) as Hrun.
  pose proof (run_stale ops s [] s [] (fun _ => False)) as Hst. pose proof (run_grows ops s Hok) as [Hsub _].
  destruct (run s ops) as [s' evs]. cbn in Hst, Hsub. intros Hfit Ha Ha'.
  eapply same_mesh_mono; [by apply Hst|]. apply Hrun; try done.
  - by apply active_in_ids.
  - unfold snapshot_state. rewrite snapshot_peer; [|by eapply (ids_fit_mono s s')..]. by rewrite Z.eqb_refl.
Qed.
End view.
End streams.

(** ** Concrete runs *)

Section example.
Local Abbreviation no_yaml := (fun _ : string => @Err string PolicyDoc "").
Local Abbreviation ex_run_ops := (run_ops (N := SimpleNet) (J := NoJson) no_yaml (fun s => s) (fun _ => "") (fun _ => "")).
Local Abbreviation ex_stream_run := (run (N := SimpleNet) (J := NoJson) no_yaml (fun s => s) (fun _ => "") (fun _ => "")).

Definition key_a : string := "AAAAAAAAAAAAAAAAAAAAAAAAAAAAAAAAAAAAAAAAAAA=".
Definition key_b : string := "BAAAAAAAAAAAAAAAAAAAAAAAAAAAAAAAAAAAAAAAAAA=".
Definition key_b1 : string := "BCAAAAAAAAAAAAAAAAAAAAAAAAAAAAAAAAAAAAAAAAA=".
Definition key_b2 : string := "BDAAAAAAAAAAAAAAAAAAAAAAAAAAAAAAAAAAAAAAAAA=".

(** Two segments with a gateway each: 1 and 2. *)
Definition ex_setup : list (StoreOp (N := SimpleNet)) :=
  [ OpCreateSegment "web" [net_a] "admin" "t0";
    OpCreateSegment "db" [net_b] "admin" "t0";
    OpMintToken "k1" "h1" "gateway" "10.1.0.0/16" None "t9" "admin" "t1";
    OpEnrollGateway "h1" [net_a] "gw-a" key_a "serial-a" "issuer" "t9" "t2" "obs";
    OpMintToken "k2" "h2" "gateway" "10.2.0.0/16" None "t9" "admin" "t3";
    OpEnrollGateway "h2" [net_b] "gw-b" key_b "serial-b" "issuer" "t9" "t4" "obs" ].

(** Gateway 2 rotates, submits, is promoted and observed; a relay comes up. *)
Definition ex_life : list (StoreOp (N := SimpleNet)) :=
  [ OpRotateKey 2 "admin" "t5"; OpSubmitKey 2 1 key_b1; OpPromote 2 1;
    OpCandidate 2 "203.0.113.7:51820"; OpInsertRelay "r" "198.51.100.1:3478" "admin" "t6";
    OpRevokeCert "serial-b" "admin" "t7" ].

Definition ex_store : Store := ex_run_ops empty_store ex_setup.
Definition ex_view (s : Store) : DesiredState := snapshot_state "1.2.0" "PEM" 1 s.
Definition ex_streamed (ops : list (StoreOp (N := SimpleNet))) : DesiredState :=
  foldl apply_delta (ex_view ex_store) (forward_gateway 1 (snd (ex_stream_run ex_store ops))).

Definition peer_summary (ds : DesiredState) : list (Z * option string * list string) :=
  map (fun p => (ps_gateway_id p, ps_active_pubkey_b64 p, ps_candidates p)) (ds_peers ds).

Example ex_life_streamed :
  peer_summary (ex_view ex_store) = [(2, Some key_b, [])] /\
  peer_summary (ex_streamed ex_life) = [(2, Some key_b1, ["203.0.113.7:51820"])] /\
  ds_revoked_serials (ex_streamed ex_life) = ["serial-b"] /\
  ds_relays (ex_streamed ex_life) = ds_relays (ex_view (fst (ex_stream_run ex_store ex_life))).
Proof. vm_compute. done. Qed.

(** A gateway drained while its rotation is under way is put back into the open
    streams when the rotation goes on, though no snapshot shows it. *)
Example drained_gateway_returns :
  let drained := [OpRotateKey 2 "admin" "t5"; OpSubmitKey 2 1 key_b1; OpDrain 2 "admin" "t6"] in
  let ops := drained ++ [OpPromote 2 1] in
  peer_summary (ex_streamed drained) = [] /\
  peer_summary (ex_streamed ops) = [(2, Some key_b1, [])] /\
  peer_summary (ex_view (fst (ex_stream_run ex_store ops))) = [].
Proof. vm_compute. done. Qed.

(** A rebind replaces gateway 2, which stays in the open streams beside 3. *)
Example replaced_gateway_stays :
  let ops := [ OpMintToken "k3" "h3" "rebind" "" (Some 2) "t9" "admin" "t5";
               OpEnrollGateway "h3" [net_b] "gw-b2" key_b2 "serial-b2" "issuer" "t9" "t6" "obs" ] in
  map ps_gateway_id (ds_peers (ex_streamed ops)) = [2; 3] /\
  map ps_gateway_id (ds_peers (ex_view (fst (ex_stream_run ex_store ops)))) = [3].
Proof. vm_compute. done. Qed.

Lemma streams_follow_store_witness :
  same_mesh (may_be_stale (N := SimpleNet) ex_store ex_life (fst (ex_stream_run ex_store ex_life))
               (snd (ex_stream_run ex_store ex_life)))
    (ex_streamed ex_life) (ex_view (fst (ex_stream_run ex_store ex_life))).
Proof.
  pose proof (streams_follow_store (N := SimpleNet) (J := NoJson) no_yaml (fun s => s) (fun _ => "") (fun _ => "")
                "1.2.0" "PEM" 1 ex_setup ex_life) as H.
  unfold ex_streamed, ex_view, ex_store. cbv zeta in H.
  rewrite (surjective_pairing (ex_stream_run (ex_run_ops empty_store ex_setup) ex_life)) in H. apply H.
  - assert (ids (fst (ex_stream_run (ex_run_ops empty_store ex_setup) ex_life)) = [1; 2]) as -> by (vm_compute; done).
    repeat constructor; lia.
  - vm_compute. done.
  - vm_compute. done.
Defined.
End example.
