(* ===== verification/CtlBroker.v ===== *)
(** * Controller: the punch broker

    [crates/wiremesh-controller/src/broker.rs].  The broker keeps the open
    [Sync.Watch] streams of the gateways and tells both members of a pair to
    punch at one instant.  A stream is a bounded channel with its own identity;
    a sender in the registry stands for the channel it feeds.  An operation is
    one function on the broker's three maps and the channels, and returns the
    pairs for which both directives were delivered.  What an operation reads
    between its awaits - the clock, the peer list, the candidates - is its
    environment [Env], a store or a failure per read, so the database may change
    while an operation runs.  Locks are never poisoned. *)
From Stdlib Require Import ZArith Lia Ascii.
From stdpp Require Import sorting.
From S2P Require Import Prelude StdNet CtlKeys CtlStore SyncProto CtlProjection.
Open Scope Z_scope.

(** ** Messages and channels *)

Record PunchDirective : Type := { pd_peer_gateway_id : Z; pd_candidates : list string; pd_go_unix_ms : Z }.

(** The bodies of [SyncMessage] the broker sends. *)
Inductive Directive : Type :=
| Punch (d : PunchDirective)
| Rotate (epoch : Z).

Record PeerPath : Type := { pp_peer_gateway_id : Z; pp_state : string }.

Definition PUNCH_LEAD_MS : Z := 300.
Definition PUNCH_CHANNEL_CAPACITY : nat := 16.
Definition MAX_PERIODIC_ATTEMPTS : Z := 5.
Definition MAX_PEER_PATHS_PER_REPORTER : nat := 4096.

(** A tokio mpsc channel: what is queued, and whether the receiver is gone. *)
Record Channel : Type := { ch_closed : bool; ch_queue : list Directive }.

Record Broker : Type := {
  registry : gmap Z Z;
  channels : gmap Z Channel;
  periodic_attempts : gmap (Z * Z) Z;
  peer_path_states : gmap Z (gmap Z string) }.

Definition new_broker : Broker :=
  {| registry := ∅; channels := ∅; periodic_attempts := ∅; peer_path_states := ∅ |}.

Definition set_registry (r : gmap Z Z) (b : Broker) : Broker :=
  {| registry := r; channels := channels b; periodic_attempts := periodic_attempts b;
     peer_path_states := peer_path_states b |}.
Definition set_channels (c : gmap Z Channel) (b : Broker) : Broker :=
  {| registry := registry b; channels := c; periodic_attempts := periodic_attempts b;
     peer_path_states := peer_path_states b |}.
Definition set_attempts (m : gmap (Z * Z) Z) (b : Broker) : Broker :=
  {| registry := registry b; channels := channels b; periodic_attempts := m;
     peer_path_states := peer_path_states b |}.
Definition set_path_states (m : gmap Z (gmap Z string)) (b : Broker) : Broker :=
  {| registry := registry b; channels := channels b; periodic_attempts := periodic_attempts b;
     peer_path_states := m |}.

(** [Sender::try_send]. *)
Definition try_send (chan : Z) (m : Directive) (b : Broker) : bool * Broker :=
  match channels b !! chan with
  | Some ch =>
      if ch_closed ch || (PUNCH_CHANNEL_CAPACITY <=? length (ch_queue ch))%nat then (false, b)
      else (true, set_channels (<[chan := {| ch_closed := false; ch_queue := ch_queue ch ++ [m] |}]> (channels b)) b)
  | None => (false, b)
  end.

(** ** Settled pairs *)

Definition settled_dir (states : gmap Z (gmap Z string)) (reporter peer : Z) : bool :=
  match states !! reporter ≫= (!!) peer with
  | Some s => bool_decide (s = "direct") || bool_decide (s = "relayed")
  | None => false
  end.

Definition settled_in (states : gmap Z (gmap Z string)) (a b : Z) : bool :=
  settled_dir states a b && settled_dir states b a.

Definition pair_settled (br : Broker) (a b : Z) : bool := settled_in (peer_path_states br) a b.

Definition clear_reported_states (gateway_id : Z) (br : Broker) : Broker :=
  set_path_states (delete gateway_id (peer_path_states br)) br.

Definition pair_key (a b : Z) : Z * Z := if a <=? b then (a, b) else (b, a).

Definition attempts_of (br : Broker) (key : Z * Z) : Z := default 0 (periodic_attempts br !! key).

Definition reset_pair (a b : Z) (br : Broker) : Broker :=
  set_attempts (delete (pair_key a b) (periodic_attempts br)) br.

(** ** The reads of an operation *)

Record Env : Type := {
  clock : Z * Z -> Z;                (* [now_unix_ms] when this pair is emitted *)
  peers_db : Z -> option Store;      (* the store when this gateway's peers are read *)
  cands_db : Z -> Z -> option Store  (* the store when the first's candidates are read for the second *) }.

Definition read_candidates (env : Env) (a b : Z) : option (list string) :=
  (fun s => candidates_for s a) <$> cands_db env a b.

Definition peer_ids (s : Store) (gateway_id : Z) : list Z :=
  match gateway_identity_by_id s gateway_id with
  | None => []
  | Some i => map gr_id (List.filter (fun g => negb (gr_segment_id g =? gi_segment_id i))
                           (list_other_gateways s gateway_id))
  end.

(** A failed lookup ends the caller's loop over the peers: no peer is visited. *)
Definition peer_ids_of (env : Env) (gateway_id : Z) : list Z :=
  match peers_db env gateway_id with Some s => peer_ids s gateway_id | None => [] end.

(** ** Emission *)

Definition punch_toward (peer : Z) (candidates : list string) (go : Z) : Directive :=
  Punch {| pd_peer_gateway_id := as_u64 peer; pd_candidates := candidates; pd_go_unix_ms := go |}.

Definition emit_pair (env : Env) (a b : Z) (br : Broker) : bool * Broker :=
  match registry br !! a, registry br !! b with
  | Some tx_a, Some tx_b =>
      if pair_settled br a b then (false, br)
      else
        match read_candidates env a b, read_candidates env b a with
        | Some ((_ :: _) as a_candidates), Some ((_ :: _) as b_candidates) =>
            let go_unix_ms := clock env (pair_key a b) + PUNCH_LEAD_MS in
            let '(a_sent, br1) := try_send tx_a (punch_toward b b_candidates go_unix_ms) br in
            let '(b_sent, br2) := try_send tx_b (punch_toward a a_candidates go_unix_ms) br1 in
            (a_sent && b_sent, br2)
        | _, _ => (false, br)
        end
  | _, _ => (false, br)
  end.

Definition emit_pair_periodic (env : Env) (a b : Z) (br : Broker) : bool * Broker :=
  let key := pair_key a b in
  if MAX_PERIODIC_ATTEMPTS <=? attempts_of br key then (false, br)
  else
    let '(sent, br1) := emit_pair env a b br in
    if sent then (true, set_attempts (<[key := attempts_of br1 key + 1]> (periodic_attempts br1)) br1)
    else (false, br1).

(** Runs [f] on each pair in turn, and lists the pairs it delivered. *)
Fixpoint emit_each (f : Z -> Z -> Broker -> bool * Broker) (pairs : list (Z * Z)) (br : Broker) :
    Broker * list (Z * Z) :=
  match pairs with
  | [] => (br, [])
  | (a, b) :: rest =>
      let '(sent, br1) := f a b br in
      let '(br2, out) := emit_each f rest br1 in
      (br2, (if sent then [pair_key a b] else []) ++ out)
  end.

(** The body of the loops over an event's pairs: the budget is reset first. *)
Definition reset_and_emit (env : Env) (a b : Z) (br : Broker) : bool * Broker :=
  emit_pair env a b (reset_pair a b br).

Definition pairs_with (gateway_id : Z) (peers : list Z) : list (Z * Z) := map (pair gateway_id) peers.

Definition punch_peers_of (env : Env) (gateway_id : Z) (reset : bool) (br : Broker) : Broker * list (Z * Z) :=
  emit_each (if reset then reset_and_emit env else emit_pair env)
    (pairs_with gateway_id (peer_ids_of env gateway_id)) br.

Definition on_gateway_connected (env : Env) (gateway_id : Z) (br : Broker) : Broker * list (Z * Z) :=
  punch_peers_of env gateway_id true (clear_reported_states gateway_id br).

(** The registry is a [HashMap]: its order is that of the model's map. *)
Definition connected_gateway_ids (br : Broker) : list Z := map fst (map_to_list (registry br)).

Definition sweep_pairs (env : Env) (connected : list Z) : list (Z * Z) :=
  flat_map (fun gw => pairs_with gw
    (List.filter (fun peer => (gw <? peer) && bool_decide (peer ∈ connected)) (peer_ids_of env gw))) connected.

Definition periodic_sweep (env : Env) (br : Broker) : Broker * list (Z * Z) :=
  emit_each (emit_pair_periodic env) (sweep_pairs env (connected_gateway_ids br)) br.

(** ** Reports *)

Definition as_i64 (x : Z) : Z := if x <? 2 ^ 63 then x else x - 2 ^ 64.

Fixpoint dedup_z (l : list Z) : list Z :=
  match l with
  | a :: ((b :: _) as l') => if a =? b then dedup_z l' else a :: dedup_z l'
  | _ => l
  end.

Definition affected_peers (states : gmap Z (gmap Z string)) (reporter : Z) (paths : list PeerPath) (snapshot : bool) :
    list Z :=
  dedup_z (merge_sort Z.le
    (map (fun pp => as_i64 (pp_peer_gateway_id pp)) paths ++
     (if snapshot then map fst (map_to_list (default ∅ (states !! reporter))) else []))).

(** One reported path; at the cap only tracked peers are updated. *)
Definition store_path (entry : gmap Z string) (pp : PeerPath) : gmap Z string :=
  let peer := as_i64 (pp_peer_gateway_id pp) in
  if (MAX_PEER_PATHS_PER_REPORTER <=? size entry)%nat && negb (bool_decide (is_Some (entry !! peer))) then entry
  else <[peer := pp_state pp]> entry.

Definition store_report (states : gmap Z (gmap Z string)) (reporter : Z) (paths : list PeerPath) (snapshot : bool) :
    gmap Z (gmap Z string) :=
  match snapshot, paths with
  | true, [] => delete reporter states
  | _, _ => <[reporter := foldl store_path (if snapshot then ∅ else default ∅ (states !! reporter)) paths]> states
  end.

Definition ignored_report (paths : list PeerPath) (snapshot : bool) : bool :=
  negb snapshot && bool_decide (paths = []).

Definition unsettled_edges (states : gmap Z (gmap Z string)) (reporter : Z) (paths : list PeerPath) (snapshot : bool) :
    list Z :=
  List.filter (fun peer => settled_in states reporter peer &&
                 negb (settled_in (store_report states reporter paths snapshot) reporter peer))
    (affected_peers states reporter paths snapshot).

Definition on_report (env : Env) (reporter_gateway_id : Z) (peer_paths : list PeerPath) (snapshot : bool) (br : Broker) :
    Broker * list (Z * Z) :=
  if ignored_report peer_paths snapshot then (br, [])
  else
    let states := peer_path_states br in
    emit_each (reset_and_emit env)
      (pairs_with reporter_gateway_id (unsettled_edges states reporter_gateway_id peer_paths snapshot))
      (set_path_states (store_report states reporter_gateway_id peer_paths snapshot) br).

(** ** Registration *)

(** [mpsc::channel] and [register] of [Sync.Watch]; the guard remembers the channel. *)
Definition register (gateway_id : Z) (br : Broker) : Broker * Z :=
  let chan := fresh (dom (channels br)) in
  (set_registry (<[gateway_id := chan]> (registry br))
     (set_channels (<[chan := {| ch_closed := false; ch_queue := [] |}]> (channels br)) br), chan).

(** The stream ends: its receiver is dropped, and its guard removes the entry if it is still its own. *)
Definition drop_watch (gateway_id chan : Z) (br : Broker) : Broker :=
  let br1 := set_channels (alter (fun ch => {| ch_closed := true; ch_queue := ch_queue ch |}) chan (channels br)) br in
  if bool_decide (registry br1 !! gateway_id = Some chan) then set_registry (delete gateway_id (registry br1)) br1
  else br1.

(** The client takes [n] messages off its stream. *)
Definition drain_channel (chan : Z) (n : nat) (br : Broker) : Broker :=
  set_channels (alter (fun ch => {| ch_closed := ch_closed ch; ch_queue := drop n (ch_queue ch) |}) chan (channels br)) br.

(** ** Rotation directives *)

(** [max_by_key] on the epoch: of equal keys, the last. *)
Definition newest_key (keys : list GatewayKeyRow) : option GatewayKeyRow :=
  foldl (fun (best : option GatewayKeyRow) k =>
           match best with
           | Some b => if fst (fst k) <? fst (fst b) then best else Some k
           | None => Some k
           end) None keys.

Definition send_rotate_if_pending (gateway_id : Z) (keys : list GatewayKeyRow) (br : Broker) : Broker :=
  match newest_key keys with
  | Some k =>
      if is_awaiting k then
        match registry br !! gateway_id with
        | Some tx => snd (try_send tx (Rotate (wrap 32 (fst (fst k)))) br)
        | None => br
        end
      else br
  | None => br
  end.

(** ** The trigger loop and its callers *)

Definition on_change (env : Env) (ev : ChangeEvent) (br : Broker) : Broker * list (Z * Z) :=
  match ev with
  | EndpointObserved gateway_id _ _ _ _ _ => punch_peers_of env gateway_id true br
  | KeyRotated gateway_id _ _ keys _ _ => (send_rotate_if_pending gateway_id keys br, [])
  | _ => (br, [])
  end.

Inductive BrokerEvent : Type :=
| WatchOpened (gateway_id : Z)
| GatewayConnected (env : Env) (gateway_id : Z)
| WatchDropped (gateway_id chan : Z)
| StreamRead (chan : Z) (n : nat)
| Reported (env : Env) (gateway_id : Z) (peer_paths : list PeerPath) (snapshot : bool)
| Changed (env : Env) (ev : ChangeEvent)
| Lagged
| SweepTick (env : Env).

Definition broker_step (br : Broker) (e : BrokerEvent) : Broker * list (Z * Z) :=
  match e with
  | WatchOpened g => (fst (register g br), [])
  | GatewayConnected env g => on_gateway_connected env g br
  | WatchDropped g chan => (drop_watch g chan br, [])
  | StreamRead chan n => (drain_channel chan n br, [])
  | Reported env g paths snapshot => on_report env g paths snapshot br
  | Changed env ev => on_change env ev br
  | Lagged => (br, [])
  | SweepTick env => periodic_sweep env br
  end.

(** ** What an operation adds to the channels *)

Definition queue (br : Broker) (chan : Z) : list Directive :=
  match channels br !! chan with Some ch => ch_queue ch | None => [] end.

(** The channel takes no more: full, closed, or gone. *)
Definition stuck (br : Broker) (chan : Z) : Prop :=
  match channels br !! chan with
  | Some ch => ch_closed ch = true \/ (PUNCH_CHANNEL_CAPACITY <= length (ch_queue ch))%nat
  | None => True
  end.

(** [br'] differs from [br] in its budgets and in messages appended to channels. *)
Record only_sends (br br' : Broker) : Prop := {
  os_registry : registry br' = registry br;
  os_states : peer_path_states br' = peer_path_states br;
  os_stuck : forall c, stuck br c -> stuck br' c;
  os_queue : forall c, exists new, queue br' c = queue br c ++ new;
  os_bound : forall c, (length (queue br c) <= PUNCH_CHANNEL_CAPACITY)%nat -> (length (queue br' c) <= PUNCH_CHANNEL_CAPACITY)%nat;
  os_open : forall c, is_Some (channels br !! c) -> is_Some (channels br' !! c) }.

Lemma only_sends_refl br : only_sends br br.
Proof. split; try done. intros c. exists []. by rewrite app_nil_r. Qed.

Lemma only_sends_trans br br' br'' : only_sends br br' -> only_sends br' br'' -> only_sends br br''.
Proof.
  intros [R1 S1 K1 Q1 B1 O1] [R2 S2 K2 Q2 B2 O2]. split; [congruence|congruence|auto| |auto|auto].
  intros c. destruct (Q1 c) as [n1 H1], (Q2 c) as [n2 H2]. exists (n1 ++ n2). by rewrite H2, H1, app_assoc.
Qed.

Lemma only_sends_attempts m br : only_sends br (set_attempts m br).
Proof. split; try done. intros c. exists []. by rewrite app_nil_r. Qed.

(** The messages an operation appended. *)
Definition added (br br' : Broker) (chan : Z) : list Directive := drop (length (queue br chan)) (queue br' chan).

Lemma added_spec br br' c new : queue br' c = queue br c ++ new -> added br br' c = new.
Proof. intros H. unfold added. by rewrite H, drop_app_length. Qed.

Lemma added_trans br br' br'' c :
  only_sends br br' -> only_sends br' br'' -> added br br'' c = added br br' c ++ added br' br'' c.
Proof.
  intros [_ _ _ Q1 _ _] [_ _ _ Q2 _ _]. destruct (Q1 c) as [n1 H1], (Q2 c) as [n2 H2].
  rewrite (added_spec br br' c n1), (added_spec br' br'' c n2) by done.
  apply added_spec. by rewrite H2, H1, app_assoc.
Qed.

Lemma added_same br br' c : queue br' c = queue br c -> added br br' c = [].
Proof. intros H. apply added_spec. by rewrite H, app_nil_r. Qed.

(** A send either appends its message to its channel alone, or meets a stuck one. *)
Lemma try_send_spec chan m br :
  let '(ok, br') := try_send chan m br in
  only_sends br br' /\ periodic_attempts br' = periodic_attempts br /\
  (forall c, added br br' c = if bool_decide (ok = true /\ c = chan) then [m] else []) /\
  (ok = false -> stuck br chan).
Proof.
  unfold try_send. destruct (channels br !! chan) as [ch|] eqn:E; cbv beta iota.
  - destruct (ch_closed ch || (PUNCH_CHANNEL_CAPACITY <=? length (ch_queue ch))%nat) eqn:K.
    + split_and!; [apply only_sends_refl|done| |].
      * intros c. rewrite bool_decide_false by (by intros []). by apply added_same.
      * intros _. unfold stuck. rewrite E. bool_to_prop. destruct K; bool_to_prop; auto.
    + apply orb_false_iff in K as [Kc Kf]. apply Nat.leb_gt in Kf.
      set (br' := set_channels _ br).
      assert (Hq : forall c, queue br' c = queue br c ++ (if bool_decide (c = chan) then [m] else [])).
      { intros c. unfold queue. subst br'. cbn. case_bool_decide as Hc.
        - subst c. by rewrite lookup_insert_eq, E.
        - by rewrite lookup_insert_ne, app_nil_r by done. }
      split_and!; [split; try done| done | | done].
      * intros c. unfold stuck. subst br'. cbn. destruct (decide (c = chan)) as [->|Hc].
        -- rewrite lookup_insert_eq, E, Kc. intros [?|?]; [done|]. cbn. rewrite length_app. right. lia.
        -- by rewrite lookup_insert_ne by done.
      * eauto.
      * intros c Hb. rewrite Hq, length_app. case_bool_decide as Hc; [|cbn; lia].
        subst c. unfold queue. rewrite E. cbn [length]. lia.
      * intros c Hc. subst br'. cbn. destruct (decide (c = chan)) as [->|]; [by rewrite lookup_insert_eq|by rewrite lookup_insert_ne].
      * intros c. rewrite (added_spec _ _ _ _ (Hq c)).
        by rewrite (bool_decide_ext (c = chan) (true = true /\ c = chan)) by naive_solver.
  - split_and!; [apply only_sends_refl|done| |].
    + intros c. rewrite bool_decide_false by (by intros []). by apply added_same.
    + intros _. unfold stuck. by rewrite E.
Qed.

(** ** Why a directive was sent *)

(** [peer]'s directive goes to [gw]: both are registered, the pair is not settled,
    the candidates are the peer's own, both members have some, and the mate got the
    same instant unless its channel takes nothing. *)
Definition pair_punched (env : Env) (br br' : Broker) (gw peer chan : Z) (m : Directive) : Prop :=
  exists chan' gw_cands peer_cands,
    registry br' !! gw = Some chan /\ registry br' !! peer = Some chan' /\
    pair_settled br' gw peer = false /\
    read_candidates env gw peer = Some gw_cands /\ gw_cands <> [] /\
    read_candidates env peer gw = Some peer_cands /\ peer_cands <> [] /\
    m = punch_toward peer peer_cands (clock env (pair_key gw peer) + PUNCH_LEAD_MS) /\
    (punch_toward gw gw_cands (clock env (pair_key gw peer) + PUNCH_LEAD_MS) ∈ added br br' chan' \/ stuck br' chan').

Definition justified (env : Env) (pairs : list (Z * Z)) (br br' : Broker) : Prop :=
  forall chan m, m ∈ added br br' chan -> exists gw peer,
    ((gw, peer) ∈ pairs \/ (peer, gw) ∈ pairs) /\ pair_punched env br br' gw peer chan m.

Lemma pair_punched_later env br br1 br2 gw peer chan m :
  only_sends br br1 -> only_sends br1 br2 -> pair_punched env br br1 gw peer chan m -> pair_punched env br br2 gw peer chan m.
Proof.
  intros H1 H2 (chan' & gc & pc & Rg & Rp & Hs & Hg & Ng & Hp & Np & -> & Hm).
  exists chan', gc, pc. rewrite (os_registry _ _ H2). unfold pair_settled in *. rewrite (os_states _ _ H2).
  split_and!; try done. destruct Hm as [Hm|Hm]; [left|right; by apply H2].
  rewrite (added_trans br br1 br2) by done. apply elem_of_app. by left.
Qed.

Lemma pair_punched_earlier env br br1 br2 gw peer chan m :
  only_sends br br1 -> only_sends br1 br2 -> pair_punched env br1 br2 gw peer chan m -> pair_punched env br br2 gw peer chan m.
Proof.
  intros H1 H2 (chan' & gc & pc & Rg & Rp & Hs & Hg & Ng & Hp & Np & -> & Hm).
  exists chan', gc, pc. split_and!; try done. destruct Hm as [Hm|Hm]; [left|by right].
  rewrite (added_trans br br1 br2) by done. apply elem_of_app. by right.
Qed.

Lemma pair_key_comm a b : pair_key a b = pair_key b a.
Proof. unfold pair_key. destruct (Z.leb_spec a b), (Z.leb_spec b a); try done; [|lia]. f_equal; lia. Qed.

Lemma settled_in_comm st a b : settled_in st a b = settled_in st b a.
Proof. apply andb_comm. Qed.

(** One emission: what it appends, and the result it reports. *)
Lemma emit_pair_spec env a b br :
  let '(ok, br') := emit_pair env a b br in
  only_sends br br' /\ periodic_attempts br' = periodic_attempts br /\ justified env [(a, b)] br br'.
Proof.
  assert (Hnone : forall br, only_sends br br /\ periodic_attempts br = periodic_attempts br /\ justified env [(a, b)] br br).
  { intros br0. split_and!; [apply only_sends_refl|done|]. intros c m. rewrite (added_same br0 br0) by done.
    by intros ?%elem_of_nil. }
  unfold emit_pair. destruct (registry br !! a) as [ca|] eqn:Ra; [|done].
  destruct (registry br !! b) as [cb|] eqn:Rb; [|done].
  destruct (pair_settled br a b) eqn:Hs; [done|].
  destruct (read_candidates env a b) as [[|xa la]|] eqn:Ca; [done| |done].
  destruct (read_candidates env b a) as [[|xb lb]|] eqn:Cb; [done| |done].
  cbv zeta. set (go := clock env (pair_key a b) + PUNCH_LEAD_MS).
  pose proof (try_send_spec ca (punch_toward b (xb :: lb) go) br) as H1.
  destruct (try_send ca _ br) as [oka br1]. destruct H1 as (S1 & A1 & Q1 & K1).
  pose proof (try_send_spec cb (punch_toward a (xa :: la) go) br1) as H2.
  destruct (try_send cb _ br1) as [okb br2]. destruct H2 as (S2 & A2 & Q2 & K2).
  pose proof (only_sends_trans _ _ _ S1 S2) as S. cbv beta iota.
  split_and!; [done|congruence|].
  assert (Hadd : forall c, added br br2 c =
    (if bool_decide (oka = true /\ c = ca) then [punch_toward b (xb :: lb) go] else []) ++
    (if bool_decide (okb = true /\ c = cb) then [punch_toward a (xa :: la) go] else [])).
  { intros c. by rewrite (added_trans br br1 br2), Q1, Q2. }
  assert (Hset : pair_settled br2 a b = false) by (unfold pair_settled in *; by rewrite (os_states _ _ S)).
  intros c m. rewrite Hadd. intros [Hm|Hm]%elem_of_app.
  - case_bool_decide as E1; [|by apply elem_of_nil in Hm]. destruct E1 as [-> ->].
    apply list_elem_of_singleton in Hm as ->. exists a, b. split; [left; apply list_elem_of_here|].
    exists cb, (xa :: la), (xb :: lb). rewrite !(os_registry _ _ S). split_and!; try done.
    destruct okb; [left|right; by apply S2, K2]. rewrite Hadd. apply elem_of_app. right.
    rewrite bool_decide_true by done. apply list_elem_of_here.
  - case_bool_decide as E1; [|by apply elem_of_nil in Hm]. destruct E1 as [-> ->].
    apply list_elem_of_singleton in Hm as ->. exists b, a. split; [right; apply list_elem_of_here|].
    exists ca, (xb :: lb), (xa :: la). rewrite !(os_registry _ _ S), (pair_key_comm b a).
    split_and!; try done; [unfold pair_settled; by rewrite settled_in_comm|].
    destruct oka; [left|right; by apply S2, S1, K1]. rewrite Hadd. apply elem_of_app. left.
    rewrite bool_decide_true by done. apply list_elem_of_here.
Qed.

Lemma justified_trans env ps qs br br1 br2 :
  only_sends br br1 -> only_sends br1 br2 -> justified env ps br br1 -> justified env qs br1 br2 ->
  justified env (ps ++ qs) br br2.
Proof.
  intros S1 S2 J1 J2 c m. rewrite (added_trans br br1 br2) by done. intros [Hm|Hm]%elem_of_app.
  - destruct (J1 c m Hm) as (g & p & Hin & Hp). exists g, p.
    split; [rewrite !elem_of_app; tauto|by apply (pair_punched_later env br br1 br2)].
  - destruct (J2 c m Hm) as (g & p & Hin & Hp). exists g, p.
    split; [rewrite !elem_of_app; tauto|by apply (pair_punched_earlier env br br1 br2)].
Qed.

(** What every emission does to the broker: it sends, and what it sends is justified. *)
Definition sends_for (env : Env) (pairs : list (Z * Z)) (br br' : Broker) : Prop :=
  only_sends br br' /\ justified env pairs br br'.

Lemma sends_for_attempts env m br : sends_for env [] br (set_attempts m br).
Proof.
  split; [apply only_sends_attempts|]. intros c d. rewrite (added_same br) by done. by intros ?%elem_of_nil.
Qed.

Lemma sends_for_refl env br : sends_for env [] br br.
Proof. split; [apply only_sends_refl|]. intros c d. rewrite (added_same br) by done. by intros ?%elem_of_nil. Qed.

Lemma sends_for_trans env ps qs br br1 br2 :
  sends_for env ps br br1 -> sends_for env qs br1 br2 -> sends_for env (ps ++ qs) br br2.
Proof. intros [S1 J1] [S2 J2]. split; [by eapply only_sends_trans|by apply (justified_trans env ps qs br br1 br2)]. Qed.

Lemma emit_pair_sends env a b br : sends_for env [(a, b)] br (snd (emit_pair env a b br)).
Proof. pose proof (emit_pair_spec env a b br) as H. destruct (emit_pair env a b br). by destruct H as (? & _ & ?). Qed.

Lemma reset_and_emit_sends env a b br : sends_for env [(a, b)] br (snd (reset_and_emit env a b br)).
Proof. apply (sends_for_trans env [] _ _ (reset_pair a b br)); [apply sends_for_attempts|apply emit_pair_sends]. Qed.

Lemma emit_pair_periodic_sends env a b br : sends_for env [(a, b)] br (snd (emit_pair_periodic env a b br)).
Proof.
  unfold emit_pair_periodic. destruct (_ <=? _).
  - split; [apply only_sends_refl|]. intros c d. rewrite (added_same br) by done. by intros ?%elem_of_nil.
  - pose proof (emit_pair_sends env a b br) as H. destruct (emit_pair env a b br) as [[] br1]; [|done].
    apply (sends_for_trans env [(a, b)] [] _ br1); [done|apply sends_for_attempts].
Qed.

Lemma emit_each_sends env f pairs br :
  (forall a b br, sends_for env [(a, b)] br (snd (f a b br))) -> sends_for env pairs br (fst (emit_each f pairs br)).
Proof.
  intros Hf. revert br. induction pairs as [|[a b] ps IH]; intros br; cbn.
  - split; [apply only_sends_refl|]. intros c d. rewrite (added_same br) by done. by intros ?%elem_of_nil.
  - pose proof (Hf a b br) as H1. destruct (f a b br) as [ok br1]. specialize (IH br1).
    destruct (emit_each f ps br1) as [br2 out]. by apply (sends_for_trans env [(a, b)] ps _ br1).
Qed.

Lemma newest_key_app l x :
  newest_key (l ++ [x]) =
  match newest_key l with Some b => if fst (fst x) <? fst (fst b) then Some b else Some x | None => Some x end.
Proof. unfold newest_key at 1. rewrite foldl_app. fold (newest_key l). cbn [foldl]. by destruct (newest_key l). Qed.

(** The newest row: it is in the list, and no row has a higher epoch. *)
Lemma newest_key_spec keys k :
  newest_key keys = Some k -> k ∈ keys /\ Forall (fun k' => fst (fst k') <= fst (fst k)) keys.
Proof.
  revert k. induction keys as [|x l IH] using rev_ind; intros k; [done|]. rewrite newest_key_app.
  destruct (newest_key l) as [b|] eqn:E.
  - destruct (IH b eq_refl) as [Hb Hmax]. destruct (Z.ltb_spec (fst (fst x)) (fst (fst b))); intros [= <-].
    + split; [apply elem_of_app; by left|]. apply Forall_app. split; [done|]. constructor; [lia|done].
    + split; [apply elem_of_app; right; apply list_elem_of_here|].
      apply Forall_app. split; [|constructor; [lia|done]]. eapply list.Forall_impl; [done|]. cbn. intros; lia.
  - intros [= <-]. destruct l as [|y l _] using rev_ind.
    + split; [apply list_elem_of_here|]. constructor; [lia|constructor].
    + rewrite newest_key_app in E. destruct (newest_key l); [destruct (_ <? _)|]; done.
Qed.

Lemma send_rotate_sends g keys br : only_sends br (send_rotate_if_pending g keys br).
Proof.
  unfold send_rotate_if_pending. destruct (newest_key keys) as [k|]; [|apply only_sends_refl].
  destruct (is_awaiting k); [|apply only_sends_refl]. destruct (registry br !! g) as [tx|]; [|apply only_sends_refl].
  pose proof (try_send_spec tx (Rotate (wrap 32 (fst (fst k)))) br) as H. destruct (try_send _ _ br). apply H.
Qed.

(** ** Every directive has its reason *)

Definition event_env (e : BrokerEvent) : option Env :=
  match e with
  | GatewayConnected env _ | Reported env _ _ _ | Changed env _ | SweepTick env => Some env
  | _ => None
  end.

(** The directive answers the newest key row of a [KeyRotated] event, a row that awaits its key. *)
Definition rotation_told (br : Broker) (e : BrokerEvent) (chan : Z) (m : Directive) : Prop :=
  exists env g name ips keys cands revision epoch,
    e = Changed env (KeyRotated g name ips keys cands revision) /\ registry br !! g = Some chan /\
    (epoch, AWAITING_SUBMISSION_SENTINEL, Pending) ∈ keys /\ Forall (fun k => fst (fst k) <= epoch) keys /\
    m = Rotate (wrap 32 epoch).

Lemma send_rotate_told env g name ips keys cands revision br chan m :
  m ∈ added br (send_rotate_if_pending g keys br) chan ->
  rotation_told br (Changed env (KeyRotated g name ips keys cands revision)) chan m.
Proof.
  unfold send_rotate_if_pending.
  assert (Hno : m ∈ added br br chan -> rotation_told br (Changed env (KeyRotated g name ips keys cands revision)) chan m).
  { rewrite (added_same br) by done. by intros ?%elem_of_nil. }
  destruct (newest_key keys) as [[[epoch pubkey] state]|] eqn:E; [|done].
  destruct (is_awaiting _) eqn:Ha; [|done]. destruct (registry br !! g) as [tx|] eqn:Hg; [|done].
  pose proof (try_send_spec tx (Rotate (wrap 32 epoch)) br) as H. cbn [fst]. destruct (try_send _ _ br) as [ok br'].
  destruct H as (_ & _ & Hadd & _). cbn [snd]. rewrite Hadd. case_bool_decide as Hc; [|by intros ?%elem_of_nil].
  destruct Hc as [_ ->]. intros ->%list_elem_of_singleton. unfold is_awaiting in Ha. bool_to_prop.
  apply bool_decide_eq_true in H, H0. subst.
  destruct (newest_key_spec _ _ E) as [Hin Hmax]. exists env, g, name, ips, keys, cands, revision, epoch.
  by split_and!.
Qed.

Lemma punch_peers_sends env g br : exists ps, sends_for env ps br (fst (punch_peers_of env g true br)).
Proof. eexists. apply emit_each_sends, reset_and_emit_sends. Qed.

(** The part of a step before its emissions. *)
Definition step_base (br : Broker) (e : BrokerEvent) : Broker :=
  match e with
  | WatchOpened g => fst (register g br)
  | GatewayConnected _ g => clear_reported_states g br
  | WatchDropped g chan => drop_watch g chan br
  | StreamRead chan n => drain_channel chan n br
  | Reported _ g paths snapshot =>
      if ignored_report paths snapshot then br
      else set_path_states (store_report (peer_path_states br) g paths snapshot) br
  | Changed _ _ | Lagged | SweepTick _ => br
  end.

Lemma queue_alter f chan br c :
  (forall ch, length (ch_queue (f ch)) <= length (ch_queue ch))%nat ->
  (length (queue (set_channels (alter f chan (channels br)) br) c) <= length (queue br c))%nat.
Proof.
  intros Hf. unfold queue. cbn. destruct (decide (c = chan)) as [->|Hc].
  - rewrite lookup_alter_eq. destruct (channels br !! chan); cbn; [apply Hf|lia].
  - by rewrite lookup_alter_ne.
Qed.

Lemma step_base_quiet br e c : (length (queue (step_base br e) c) <= length (queue br c))%nat.
Proof.
  destruct e as [g|env g|g chan|chan n|env g paths snapshot|env ev| |env]; cbn [step_base]; try done.
  - unfold queue. cbn [register fst channels set_registry set_channels].
    destruct (decide (c = fresh (dom (channels br)))) as [->|Hc]; [rewrite lookup_insert_eq; cbn; lia|].
    by rewrite lookup_insert_ne.
  - unfold drop_watch. pose proof (queue_alter (fun ch => {| ch_closed := true; ch_queue := ch_queue ch |}) chan br c) as H.
    destruct (bool_decide (registry _ !! g = Some chan)); by apply H.
  - apply queue_alter. intros ch. cbn. rewrite length_drop. lia.
  - by destruct (ignored_report paths snapshot).
Qed.

Lemma added_quiet br br' c : (length (queue br' c) <= length (queue br c))%nat -> added br br' c = [].
Proof. intros H. by apply drop_ge. Qed.

Lemma added_after br br1 br2 c :
  (length (queue br1 c) <= length (queue br c))%nat -> only_sends br1 br2 -> forall m, m ∈ added br br2 c -> m ∈ added br1 br2 c.
Proof.
  intros Hq [_ _ _ Q _ _] m. destruct (Q c) as [new H]. rewrite (added_spec _ _ _ _ H). unfold added. rewrite H, drop_app.
  rewrite (drop_ge (queue br1 c)) by lia. cbn. intros Hm. rewrite list_elem_of_lookup in Hm. destruct Hm as [i Hi].
  rewrite lookup_drop in Hi. by eapply list_elem_of_lookup_2.
Qed.

(** After its base, a step only sends; its punches are those of its pairs. *)
Lemma step_sends br e :
  only_sends (step_base br e) (fst (broker_step br e)) /\
  match event_env e with
  | Some env => (exists ps, justified env ps (step_base br e) (fst (broker_step br e))) \/
                (exists g name ips keys cands r, e = Changed env (KeyRotated g name ips keys cands r))
  | None => fst (broker_step br e) = step_base br e
  end.
Proof.
  destruct e as [g|env g|g chan|chan n|env g paths snapshot|env ev| |env]; cbn [broker_step step_base event_env];
    try (split; [apply only_sends_refl|done]).
  - destruct (punch_peers_sends env g (clear_reported_states g br)) as [ps [S J]]. eauto.
  - unfold on_report. destruct (ignored_report paths snapshot).
    + destruct (sends_for_refl env br) as [S J]. eauto.
    + edestruct (emit_each_sends env (reset_and_emit env)) as [S J]; [apply reset_and_emit_sends|]. eauto.
  - destruct ev; cbn [on_change fst]; try (destruct (sends_for_refl env br) as [S J]; by eauto).
    + split; [apply send_rotate_sends|]. eauto 10.
    + destruct (punch_peers_sends env gateway_id br) as [ps [S J]]. eauto.
  - edestruct (emit_each_sends env (emit_pair_periodic env)) as [S J]; [apply emit_pair_periodic_sends|]. eauto.
Qed.

(** C17: In every step of the broker, from any state, each message put on a stream
    is a punch directive whose pair is connected and not settled, carries the
    peer's current candidates and the instant 300 ms after the clock, and whose
    mate directive went out with the same instant unless the mate's stream takes
    nothing; or it is the rotation directive for the newest key row, which awaits
    its key. *)
Theorem directives_justified br e chan m :
  m ∈ added br (fst (broker_step br e)) chan ->
  (exists env gw peer, event_env e = Some env /\
     pair_punched env (step_base br e) (fst (broker_step br e)) gw peer chan m) \/
  rotation_told br e chan m.
Proof.
  intros Hm. destruct (step_sends br e) as [S J].
  pose proof (added_after br _ _ chan (step_base_quiet br e chan) S m Hm) as Hm'.
  destruct (event_env e) as [env|] eqn:Ee.
  - destruct J as [[ps J]|(g & name & ips & keys & cands & r & ->)].
    + left. destruct (J chan m Hm') as (gw & peer & _ & Hp). eauto.
    + right. by apply send_rotate_told.
  - rewrite J, (added_same (step_base br e)) in Hm' by done. by apply elem_of_nil in Hm'.
Qed.

(** ** The periodic budget *)

(** The pairs whose budget an event clears. *)
Definition resets (br : Broker) (e : BrokerEvent) : list (Z * Z) :=
  match e with
  | GatewayConnected env g => map (pair_key g) (peer_ids_of env g)
  | Reported env g paths snapshot =>
      if ignored_report paths snapshot then []
      else map (pair_key g) (unsettled_edges (peer_path_states br) g paths snapshot)
  | Changed env (EndpointObserved g _ _ _ _ _) => map (pair_key g) (peer_ids_of env g)
  | _ => []
  end.

Definition deliveries (key : Z * Z) (out : list (Z * Z)) : Z := Z.of_nat (length (filter (eq key) out)).

Lemma deliveries_app key l1 l2 : deliveries key (l1 ++ l2) = deliveries key l1 + deliveries key l2.
Proof. unfold deliveries. rewrite list.filter_app, length_app. lia. Qed.

Lemma deliveries_nil key : deliveries key [] = 0.
Proof. done. Qed.

(** A run whose events clear [key]'s budget nowhere. *)
Fixpoint keeps_budget (key : Z * Z) (br : Broker) (evs : list BrokerEvent) : Prop :=
  match evs with
  | [] => True
  | e :: evs' => (key ∉ resets br e) /\ keeps_budget key (fst (broker_step br e)) evs'
  end.

(** [br'] counts for [key] the deliveries of [out], and never beyond the ceiling. *)
Definition counted (key : Z * Z) (br br' : Broker) (out : list (Z * Z)) : Prop :=
  attempts_of br' key = attempts_of br key + deliveries key out /\
  (attempts_of br key <= MAX_PERIODIC_ATTEMPTS -> attempts_of br' key <= MAX_PERIODIC_ATTEMPTS).

Lemma counted_same key br br' : periodic_attempts br' = periodic_attempts br -> counted key br br' [].
Proof. intros H. unfold counted, attempts_of. rewrite H, deliveries_nil. split; [lia|done]. Qed.

Lemma counted_trans key br br1 br2 o1 o2 :
  counted key br br1 o1 -> counted key br1 br2 o2 -> counted key br br2 (o1 ++ o2).
Proof. intros [H1 B1] [H2 B2]. split; [rewrite deliveries_app; lia|auto]. Qed.

Definition delivered (ok : bool) (a b : Z) : list (Z * Z) := if ok then [pair_key a b] else [].

Lemma emit_each_counted key f pairs br :
  (forall a b br, (a, b) ∈ pairs -> counted key br (snd (f a b br)) (delivered (fst (f a b br)) a b)) ->
  counted key br (fst (emit_each f pairs br)) (snd (emit_each f pairs br)).
Proof.
  revert br. induction pairs as [|[a b] ps IH]; intros br Hf; cbn; [by apply counted_same|].
  pose proof (Hf a b br (list_elem_of_here _ _)) as H1. destruct (f a b br) as [ok br1].
  specialize (IH br1 (fun x y b Hin => Hf x y b (list_elem_of_further _ _ _ Hin))).
  destruct (emit_each f ps br1) as [br2 out]. by apply (counted_trans key br br1 br2 (delivered ok a b) out).
Qed.

Lemma attempts_other key k v br : k <> key -> attempts_of (set_attempts (<[k := v]> (periodic_attempts br)) br) key = attempts_of br key.
Proof. intros H. unfold attempts_of. cbn. by rewrite lookup_insert_ne. Qed.

Lemma attempts_own key v br : attempts_of (set_attempts (<[key := v]> (periodic_attempts br)) br) key = v.
Proof. unfold attempts_of. cbn. by rewrite lookup_insert_eq. Qed.

Lemma deliveries_other key k : k <> key -> deliveries key [k] = 0.
Proof. intros H. unfold deliveries. by rewrite filter_cons_False. Qed.

Lemma deliveries_own key : deliveries key [key] = 1.
Proof. unfold deliveries. by rewrite filter_cons_True. Qed.

Lemma emit_pair_attempts env a b br : periodic_attempts (snd (emit_pair env a b br)) = periodic_attempts br.
Proof. pose proof (emit_pair_spec env a b br) as H. destruct (emit_pair env a b br). apply H. Qed.

Lemma reset_and_emit_counted key env a b br :
  pair_key a b <> key -> counted key br (snd (reset_and_emit env a b br)) (delivered (fst (reset_and_emit env a b br)) a b).
Proof.
  intros Hk. assert (Ha : attempts_of (snd (reset_and_emit env a b br)) key = attempts_of br key).
  { unfold reset_and_emit, attempts_of. rewrite emit_pair_attempts. cbn. by rewrite lookup_delete_ne. }
  unfold counted. rewrite Ha. unfold delivered.
  destruct (fst (reset_and_emit env a b br)); [rewrite deliveries_other by done|rewrite deliveries_nil]; split; auto; lia.
Qed.

Lemma emit_pair_periodic_counted key env a b br :
  counted key br (snd (emit_pair_periodic env a b br)) (delivered (fst (emit_pair_periodic env a b br)) a b).
Proof.
  unfold emit_pair_periodic. destruct (Z.leb_spec MAX_PERIODIC_ATTEMPTS (attempts_of br (pair_key a b))) as [Hb|Hb];
    [by apply counted_same|].
  pose proof (emit_pair_attempts env a b br) as Ha. destruct (emit_pair env a b br) as [[] br1]; cbn in Ha |- *;
    [|by apply counted_same].
  assert (Hsame : forall k, attempts_of br1 k = attempts_of br k) by (intros k; unfold attempts_of; by rewrite Ha).
  unfold counted, delivered. destruct (decide (pair_key a b = key)) as [<-|Hk].
  - rewrite deliveries_own, attempts_own, Hsame. split; lia.
  - rewrite deliveries_other, attempts_other, Hsame by done. split; auto; lia.
Qed.

Lemma not_in_pairs (key : Z * Z) g peers a b :
  key ∉ map (pair_key g) peers -> (a, b) ∈ pairs_with g peers -> pair_key a b <> key.
Proof.
  intros Hk Hin <-. apply Hk. apply list_elem_of_fmap in Hin as (p & [= -> ->] & Hp). by apply list_elem_of_fmap_2.
Qed.

Lemma step_counted key br e : key ∉ resets br e -> counted key br (fst (broker_step br e)) (snd (broker_step br e)).
Proof.
  destruct e as [g|env g|g chan|chan n|env g paths snapshot|env ev| |env]; cbn [broker_step resets]; intros Hk;
    try (by apply counted_same).
  - refine (emit_each_counted key _ _ (clear_reported_states g br) _).
    intros a b br1 Hin. eapply reset_and_emit_counted, not_in_pairs; done.
  - apply counted_same. cbn. unfold drop_watch. by case_bool_decide.
  - unfold on_report. destruct (ignored_report paths snapshot); [by apply counted_same|].
    refine (emit_each_counted key _ _ (set_path_states _ br) _). intros a b br1 Hin. eapply reset_and_emit_counted, not_in_pairs; done.
  - destruct ev; try (by apply counted_same).
    + apply counted_same. cbn. unfold send_rotate_if_pending. destruct (newest_key keys) as [k|]; [|done].
      destruct (is_awaiting k); [|done]. destruct (registry br !! gateway_id) as [tx|]; [|done].
      pose proof (try_send_spec tx (Rotate (wrap 32 (fst (fst k)))) br) as H. destruct (try_send _ _ br). apply H.
    + apply emit_each_counted. intros a b br1 Hin. eapply reset_and_emit_counted, not_in_pairs; done.
  - apply emit_each_counted. intros a b br1 _. apply emit_pair_periodic_counted.
Qed.

(** A loop that clears a pair's budget leaves it at zero. *)
Lemma stays_zero env pairs k br :
  attempts_of br k = 0 -> attempts_of (fst (emit_each (reset_and_emit env) pairs br)) k = 0.
Proof.
  revert br. induction pairs as [|[a b] ps IH]; intros br Hz; [done|]. cbn. unfold reset_and_emit at 1.
  pose proof (emit_pair_attempts env a b (reset_pair a b br)) as Ha.
  destruct (emit_pair env a b (reset_pair a b br)) as [ok br1]. cbn in Ha.
  specialize (IH br1). destruct (emit_each _ ps br1) as [br2 out]. apply IH. unfold attempts_of in *. rewrite Ha.
  destruct (decide (pair_key a b = k)) as [->|Hk]; [by rewrite lookup_delete_eq|by rewrite lookup_delete_ne].
Qed.

Lemma reset_zero env pairs a b br :
  (a, b) ∈ pairs -> attempts_of (fst (emit_each (reset_and_emit env) pairs br)) (pair_key a b) = 0.
Proof.
  revert br. induction pairs as [|[a' b'] ps IH]; intros br; [by intros ?%elem_of_nil|]. cbn. unfold reset_and_emit at 1.
  pose proof (emit_pair_attempts env a' b' (reset_pair a' b' br)) as Ha.
  destruct (emit_pair env a' b' (reset_pair a' b' br)) as [ok br1]. cbn in Ha.
  pose proof (stays_zero env ps (pair_key a b) br1) as Hz. specialize (IH br1).
  destruct (emit_each _ ps br1) as [br2 out]. intros [[= <- <-]|Hin]%elem_of_cons; [|by apply IH].
  apply Hz. unfold attempts_of. by rewrite Ha, lookup_delete_eq.
Qed.

Definition broker_run : Broker -> list BrokerEvent -> Broker * list (list (Z * Z)) := run broker_step.

Lemma run_counted key evs br :
  keeps_budget key br evs -> counted key br (fst (broker_run br evs)) (concat (snd (broker_run br evs))).
Proof.
  unfold broker_run. revert br. induction evs as [|e evs IH]; intros br; cbn; [intros _; by apply counted_same|].
  intros [Hk Hq]. pose proof (step_counted key br e Hk) as H1. destruct (broker_step br e) as [br1 o].
  specialize (IH br1 Hq). destruct (run broker_step br1 evs) as [br2 os]. by apply (counted_trans key br br1 br2).
Qed.

Lemma step_ceiling key br e :
  attempts_of br key <= MAX_PERIODIC_ATTEMPTS -> attempts_of (fst (broker_step br e)) key <= MAX_PERIODIC_ATTEMPTS.
Proof.
  intros Hb. destruct (decide (key ∈ resets br e)) as [Hr|Hr]; [|by apply (step_counted key br e Hr)].
  assert (attempts_of (fst (broker_step br e)) key = 0) as -> by (
    destruct e as [g|env g|g chan|chan n|env g paths snapshot|env ev| |env]; cbn [broker_step resets] in *;
    try (by apply elem_of_nil in Hr);
    [|unfold on_report; destruct (ignored_report paths snapshot); [by apply elem_of_nil in Hr|]
     |destruct ev; try (by apply elem_of_nil in Hr)];
    apply list_elem_of_fmap in Hr as (p & -> & Hp); apply reset_zero; by apply list_elem_of_fmap_2).
  done.
Qed.

(** C38: Whatever happened since the controller started, along any further events that
    do not clear a pair's budget the broker delivers at most five directive pairs for
    it, and the budget counts exactly those it delivered. *)
Theorem periodic_budget_bounds history evs a b :
  let br := fst (broker_run new_broker history) in
  keeps_budget (pair_key a b) br evs ->
  let '(br', out) := broker_run br evs in
  deliveries (pair_key a b) (concat out) <= MAX_PERIODIC_ATTEMPTS - attempts_of br (pair_key a b) /\
  attempts_of br' (pair_key a b) = attempts_of br (pair_key a b) + deliveries (pair_key a b) (concat out).
Proof.
  intros br Hq. pose proof (run_counted _ _ _ Hq) as [H1 H2].
  destruct (broker_run br evs) as [br' out]. cbn [fst snd] in *.
  assert (attempts_of br (pair_key a b) <= MAX_PERIODIC_ATTEMPTS); [|split; [|done]; specialize (H2 H); lia].
  subst br. apply (run_invariant broker_step (fun br => attempts_of br (pair_key a b) <= MAX_PERIODIC_ATTEMPTS)).
  - intros b0 e. apply step_ceiling.
  - vm_compute. done.
Qed.

(** ** A fallen pair is punched again *)

(** An open channel with room for [n] more messages. *)
Definition room (br : Broker) (chan : Z) (n : nat) : Prop :=
  exists ch, channels br !! chan = Some ch /\ ch_closed ch = false /\ (length (ch_queue ch) + n <= PUNCH_CHANNEL_CAPACITY)%nat.

Lemma room_le br c n m : (m <= n)%nat -> room br c n -> room br c m.
Proof. intros Hle (ch & E & C & L). exists ch. split_and!; [done..|lia]. Qed.

Lemma try_send_room chan m br c n : room br c (if bool_decide (c = chan) then S n else n) -> room (snd (try_send chan m br)) c n.
Proof.
  intros (ch & E & C & L). unfold try_send. case_bool_decide as Hc.
  - subst c. rewrite E, C. destruct (orb _ _) eqn:K; [exists ch; split_and!; [done..|lia]|]. eexists. cbn.
    rewrite lookup_insert_eq. split_and!; [done..|]. cbn. rewrite length_app. cbn. lia.
  - destruct (channels br !! chan) as [ch'|]; [|by exists ch].
    destruct (orb _ _); [by exists ch|]. exists ch. cbn. by rewrite lookup_insert_ne.
Qed.

Lemma try_send_delivers chan m br : room br chan 1 -> fst (try_send chan m br) = true.
Proof.
  intros (ch & E & C & L). unfold try_send. rewrite E, C. cbn [orb].
  destruct (Nat.leb_spec PUNCH_CHANNEL_CAPACITY (length (ch_queue ch))); [lia|done].
Qed.

(** An emission takes one place on the first member's channel and none on a third's. *)
Lemma emit_pair_room env a b br c n :
  (registry br !! b = Some c -> registry br !! a = Some c -> False) ->
  room br c (if bool_decide (registry br !! a = Some c \/ registry br !! b = Some c) then S n else n) ->
  room (snd (emit_pair env a b br)) c n.
Proof.
  intros Hne Hr. assert (Hr0 : room br c n) by (revert Hr; case_bool_decide; apply room_le; lia).
  unfold emit_pair. destruct (registry br !! a) as [ca|] eqn:Ra; [|done].
  destruct (registry br !! b) as [cb|] eqn:Rb; [|done].
  destruct (pair_settled br a b); [done|]. destruct (read_candidates env a b) as [[|xa la]|]; [done| |done].
  destruct (read_candidates env b a) as [[|xb lb]|]; [done| |done]. cbv zeta.
  pose proof (fun k => try_send_room ca (punch_toward b (xb :: lb) (clock env (pair_key a b) + PUNCH_LEAD_MS)) br c k) as H1.
  destruct (try_send ca _ br) as [oka br1]. cbn [snd] in H1.
  pose proof (try_send_room cb (punch_toward a (xa :: la) (clock env (pair_key a b) + PUNCH_LEAD_MS)) br1 c n) as H2.
  destruct (try_send cb _ br1) as [okb br2]. cbn [snd] in H2 |- *. apply H2, H1.
  revert Hr. repeat case_bool_decide; subst; try (apply room_le; lia); naive_solver.
Qed.

(** When both streams have room, an unsettled pair with candidates is punched. *)
Lemma emit_pair_delivers env a b br ca cb xs ys :
  registry br !! a = Some ca -> registry br !! b = Some cb -> ca <> cb -> room br ca 1 -> room br cb 1 ->
  pair_settled br a b = false ->
  read_candidates env a b = Some xs -> xs <> [] -> read_candidates env b a = Some ys -> ys <> [] ->
  let go := clock env (pair_key a b) + PUNCH_LEAD_MS in
  let '(ok, br') := emit_pair env a b br in
  ok = true /\ added br br' ca = [punch_toward b ys go] /\ added br br' cb = [punch_toward a xs go].
Proof.
  intros Ra Rb Hne Ka Kb Hs Hx Nx Hy Ny go. unfold emit_pair. rewrite Ra, Rb, Hs, Hx, Hy.
  destruct xs as [|x xs]; [done|]. destruct ys as [|y ys]; [done|]. cbv zeta. fold go.
  pose proof (try_send_spec ca (punch_toward b (y :: ys) go) br) as H1.
  pose proof (try_send_delivers ca (punch_toward b (y :: ys) go) br Ka) as D1.
  pose proof (try_send_room ca (punch_toward b (y :: ys) go) br cb 1) as R1.
  destruct (try_send ca _ br) as [oka br1]. cbn [fst snd] in D1, R1. destruct H1 as (S1 & _ & Q1 & _).
  rewrite bool_decide_false in R1 by done. specialize (R1 Kb).
  pose proof (try_send_spec cb (punch_toward a (x :: xs) go) br1) as H2.
  pose proof (try_send_delivers cb (punch_toward a (x :: xs) go) br1 R1) as D2.
  destruct (try_send cb _ br1) as [okb br2]. cbn [fst] in D2. destruct H2 as (S2 & _ & Q2 & _).
  subst oka okb. cbv beta iota. split; [done|]. rewrite !(added_trans br br1 br2), !Q1, !Q2 by done.
  split.
  - by rewrite bool_decide_true, bool_decide_false by naive_solver.
  - by rewrite bool_decide_false, bool_decide_true by naive_solver.
Qed.

Lemma reset_and_emit_others env g q p br cg cp n :
  registry br !! g = Some cg -> registry br !! p = Some cp -> g <> p -> q <> p -> q <> g ->
  (forall x c, registry br !! x = Some c -> forall y, registry br !! y = Some c -> x = y) ->
  room br cg (S n) -> room br cp 1 ->
  let br' := snd (reset_and_emit env g q br) in
  sends_for env [(g, q)] br br' /\ room br' cg n /\ room br' cp 1.
Proof.
  intros Rg Rp Hgp Hqp Hqg Hinj Kg Kp br'. split_and!; [apply reset_and_emit_sends|apply emit_pair_room; cbn..].
  - intros Rq _. apply Hqg. by eapply Hinj.
  - rewrite bool_decide_true by auto. done.
  - intros _ Rg'. apply Hgp. by eapply Hinj.
  - rewrite bool_decide_false; [done|]. intros [R|R]; [by apply Hgp; eapply Hinj|by apply Hqp; eapply Hinj].
Qed.

(** The loop of a trigger reaches a peer with room on its stream. *)
Lemma loop_reaches env g p peers br cg cp xs ys :
  p ∈ peers -> g ∉ peers -> registry br !! g = Some cg -> registry br !! p = Some cp ->
  (forall x c, registry br !! x = Some c -> forall y, registry br !! y = Some c -> x = y) ->
  room br cg (length peers) -> room br cp 1 -> pair_settled br g p = false ->
  read_candidates env g p = Some xs -> xs <> [] -> read_candidates env p g = Some ys -> ys <> [] ->
  let go := clock env (pair_key g p) + PUNCH_LEAD_MS in
  let br' := fst (emit_each (reset_and_emit env) (pairs_with g peers) br) in
  punch_toward p ys go ∈ added br br' cg /\ punch_toward g xs go ∈ added br br' cp.
Proof.
  intros Hp Hg Rg Rp Hinj Kg Kp Hs Hx Nx Hy Ny go.
  assert (Hgp : g <> p) by (by intros ->). revert br Hp Hg Rg Rp Hinj Kg Kp Hs.
  induction peers as [|q peers IH]; intros br Hp Hg Rg Rp Hinj Kg Kp Hs; [by apply elem_of_nil in Hp|].
  apply not_elem_of_cons in Hg as [Hgq Hg]. cbn [pairs_with map emit_each].
  destruct (decide (q = p)) as [->|Hqp].
  - pose proof (emit_pair_delivers env g p (reset_pair g p br) cg cp xs ys Rg Rp) as H.
    pose proof (reset_and_emit_sends env g p br) as [S1 _]. unfold reset_and_emit in *.
    destruct (emit_pair env g p (reset_pair g p br)) as [ok br1].
    destruct H as (_ & Ag & Ap); try done.
    { intros ->. apply Hgp. by eapply Hinj. } { apply (room_le br cg (S (length peers))); [lia|done]. }
    pose proof (emit_each_sends env (reset_and_emit env) (pairs_with g peers) br1 (reset_and_emit_sends env)) as [S2 _].
    unfold pairs_with in S2. destruct (emit_each _ (map _ peers) br1) as [br2 out]. cbn [fst snd] in *.
    rewrite !(added_trans br br1 br2) by done.
    change (added br br1) with (added (reset_pair g p br) br1). rewrite Ag, Ap.
    split; apply elem_of_app; left; apply list_elem_of_here.
  - destruct (reset_and_emit_others env g q p br cg cp (length peers)) as ([S1 _] & Kg1 & Kp1); try done.
    destruct (reset_and_emit env g q br) as [ok br1]. cbn [snd] in S1, Kg1, Kp1.
    apply elem_of_cons in Hp as [->|Hp]; [done|].
    specialize (IH br1 Hp Hg). rewrite (os_registry _ _ S1) in IH. unfold pair_settled in *. rewrite (os_states _ _ S1) in IH.
    specialize (IH Rg Rp Hinj Kg1 Kp1 Hs) as [Ig Ip].
    pose proof (emit_each_sends env (reset_and_emit env) (pairs_with g peers) br1 (reset_and_emit_sends env)) as [S2 _].
    unfold pairs_with in *. destruct (emit_each _ (map _ peers) br1) as [br2 out]. cbn [fst] in *.
    rewrite !(added_trans br br1 br2) by done. split; apply elem_of_app; by right.
Qed.

(** Every registered stream has its own channel. *)
Definition streams_distinct (br : Broker) : Prop :=
  (forall g c, registry br !! g = Some c -> is_Some (channels br !! c)) /\
  (forall g c, registry br !! g = Some c -> forall g', registry br !! g' = Some c -> g = g').

Lemma streams_distinct_sends br br' : only_sends br br' -> streams_distinct br -> streams_distinct br'.
Proof. intros S [H1 H2]. split; rewrite (os_registry _ _ S); [|done]. intros g c Hg. apply S. by eapply H1. Qed.

Lemma streams_distinct_base br e : streams_distinct br -> streams_distinct (step_base br e).
Proof.
  intros [H1 H2].
  destruct e as [g|env g|g chan|chan n|env g paths snapshot|env ev| |env]; cbn [step_base]; try (by split).
  - assert (Hnew : forall x, registry br !! x <> Some (fresh (dom (channels br)))).
    { intros x Hx. apply H1 in Hx. apply elem_of_dom in Hx. by apply (is_fresh (dom (channels br))). }
    split; cbn [register fst registry set_registry channels set_channels].
    + intros x c. rewrite lookup_insert_Some. intros [[<- <-]|[Hgx Hx]]; [by rewrite lookup_insert_eq|].
      rewrite lookup_insert_ne by (intros <-; by apply Hnew in Hx). by eapply H1.
    + intros x c Hx y Hy. rewrite lookup_insert_Some in Hx, Hy. naive_solver.
  - assert (Hch : forall c, is_Some (channels br !! c) -> is_Some
        (alter (fun ch => {| ch_closed := true; ch_queue := ch_queue ch |}) chan (channels br) !! c)).
    { intros c [ch Hc]. destruct (decide (c = chan)) as [->|]; [rewrite lookup_alter_eq, Hc|rewrite lookup_alter_ne by done]; eauto. }
    unfold drop_watch. cbn [registry set_channels].
    case_bool_decide as Hg; split; cbn [registry channels set_registry set_channels].
    + intros x c [_ Hx]%lookup_delete_Some. by eapply Hch, H1.
    + intros x c [_ Hx]%lookup_delete_Some y [_ Hy]%lookup_delete_Some. by eapply H2.
    + intros x c Hx. by eapply Hch, H1.
    + done.
  - split; [|done]. intros x c Hx. cbn. destruct (H1 x c Hx) as [ch Hc].
    destruct (decide (c = chan)) as [->|]; [rewrite lookup_alter_eq, Hc|rewrite lookup_alter_ne by done]; eauto.
  - by destruct (ignored_report paths snapshot).
Qed.

Lemma run_streams_distinct history : streams_distinct (fst (broker_run new_broker history)).
Proof.
  apply (run_invariant broker_step streams_distinct).
  - intros br e H. eapply streams_distinct_sends; [apply step_sends|by apply streams_distinct_base].
  - split; intros g c H; cbn in H; by rewrite lookup_empty in H.
Qed.

Lemma elem_of_dedup_z x l : x ∈ dedup_z l <-> x ∈ l.
Proof.
  induction l as [|a l IH]; [done|]. destruct l as [|b l]; [done|]. cbn [dedup_z].
  destruct (Z.eqb_spec a b) as [->|]; rewrite ?elem_of_cons in *; rewrite ?IH; [|done]. tauto.
Qed.

Lemma store_paths_other paths entry peer :
  peer ∉ map (fun pp => as_i64 (pp_peer_gateway_id pp)) paths -> foldl store_path entry paths !! peer = entry !! peer.
Proof.
  revert entry. induction paths as [|pp paths IH]; intros entry; [done|]. cbn [map foldl].
  intros [Hn Hl]%not_elem_of_cons. rewrite IH by done. unfold store_path. case_match; [done|].
  rewrite lookup_insert_ne; [done|congruence].
Qed.

(** A pair that falls off settled is among the pairs the report looks at. *)
Lemma fallen_is_edge states g p paths snapshot :
  ignored_report paths snapshot = false -> g <> p -> settled_in states g p = true ->
  settled_in (store_report states g paths snapshot) g p = false -> p ∈ unsettled_edges states g paths snapshot.
Proof.
  intros Hi Hgp Hb Ha. unfold unsettled_edges. apply list_elem_of_In, filter_In. split; [|by rewrite Hb, Ha].
  apply list_elem_of_In. unfold affected_peers. rewrite elem_of_dedup_z, merge_sort_Permutation, elem_of_app.
  destruct snapshot.
  - right. unfold settled_in, settled_dir in Hb. apply andb_true_iff in Hb as [Hb _].
    destruct (states !! g) as [m|]; cbn in Hb |- *; [|done]. destruct (m !! p) as [st|] eqn:E; [|done].
    apply list_elem_of_fmap. exists (p, st). split; [done|]. by apply elem_of_map_to_list.
  - left. destruct (decide (p ∈ map (fun pp => as_i64 (pp_peer_gateway_id pp)) paths)) as [|Hn]; [done|]. exfalso.
    enough (settled_in (store_report states g paths false) g p = settled_in states g p) by congruence.
    assert (store_report states g paths false = <[g := foldl store_path (default ∅ (states !! g)) paths]> states) as ->
      by (by destruct paths).
    unfold settled_in, settled_dir. rewrite lookup_insert_eq, lookup_insert_ne by done. cbn.
    rewrite store_paths_other by done. by destruct (states !! g).
Qed.

Lemma no_edges states g paths snapshot :
  (forall p, settled_in states g p = true -> settled_in (store_report states g paths snapshot) g p = true) ->
  unsettled_edges states g paths snapshot = [].
Proof.
  intros H. unfold unsettled_edges. induction (affected_peers _ _ _ _) as [|p l IH]; [done|]. cbn.
  destruct (settled_in states g p) eqn:E; [by rewrite (H p E)|done].
Qed.


(** ** Bounded memory *)

Lemma store_paths_size paths entry :
  (size entry <= MAX_PEER_PATHS_PER_REPORTER)%nat -> (size (foldl store_path entry paths) <= MAX_PEER_PATHS_PER_REPORTER)%nat.
Proof.
  revert entry. induction paths as [|pp paths IH]; intros entry Hs; [done|]. cbn [foldl]. apply IH.
  unfold store_path. destruct (Nat.leb_spec MAX_PEER_PATHS_PER_REPORTER (size entry)) as [Hf|Hf].
  - case_bool_decide as Hin; [|done]. cbn [andb negb]. by rewrite map_size_insert_Some.
  - cbn [andb]. rewrite map_size_insert. unfold id; case_match; lia.
Qed.

(** Every reporter's map is bounded. *)
Definition paths_bounded (br : Broker) : Prop :=
  map_Forall (fun _ m => (size m <= MAX_PEER_PATHS_PER_REPORTER)%nat) (peer_path_states br).

(** Every queue is bounded. *)
Definition queues_bounded (br : Broker) : Prop :=
  forall c, (length (queue br c) <= PUNCH_CHANNEL_CAPACITY)%nat.

Lemma step_bounded br e : paths_bounded br /\ queues_bounded br ->
  paths_bounded (fst (broker_step br e)) /\ queues_bounded (fst (broker_step br e)).
Proof.
  intros [Hp Hq]. destruct (step_sends br e) as [S _]. split.
  - unfold paths_bounded. rewrite (os_states _ _ S).
    destruct e as [g|env g|g chan|chan n|env g paths snapshot|env ev| |env]; cbn [step_base]; try done.
    + by apply map_Forall_delete.
    + unfold drop_watch. by case_bool_decide.
    + destruct (ignored_report paths snapshot); [done|]. cbn. unfold store_report.
      assert (Hone : forall m, (size m <= MAX_PEER_PATHS_PER_REPORTER)%nat -> map_Forall
        (fun _ m => (size m <= MAX_PEER_PATHS_PER_REPORTER)%nat) (<[g := foldl store_path m paths]> (peer_path_states br))).
      { intros m Hm. apply map_Forall_insert_2; [by apply store_paths_size|done]. }
      assert (Hzero : (size (∅ : gmap Z string) <= MAX_PEER_PATHS_PER_REPORTER)%nat) by (rewrite map_size_empty; lia).
      destruct snapshot; [destruct paths; [by apply map_Forall_delete|by apply Hone]|]. apply Hone.
      destruct (peer_path_states br !! g) as [m|] eqn:E; [by apply (Hp g)|done].
  - intros c. apply S. etransitivity; [apply step_base_quiet|apply Hq].
Qed.

(** However many events arrive, and whatever peer ids the reports carry, no reporter
    has more than 4096 stored paths and no stream more than 16 queued directives. *)
Theorem broker_memory_bounded history :
  let br := fst (broker_run new_broker history) in paths_bounded br /\ queues_bounded br.
Proof.
  apply (run_invariant broker_step (fun br => paths_bounded br /\ queues_bounded br)).
  - intros br e. apply step_bounded.
  - split; [apply map_Forall_empty|]. intros c. unfold queue. cbn. rewrite lookup_empty. cbn. lia.
Qed.

(** ** An example *)

Module example.
(** Two gateways of two segments, each with a candidate; 3 is in the segment of 2. *)
Definition gw (id seg : Z) (ep : string) : GatewayRec :=
  {| gw_id := id; gw_segment := seg; gw_name := "gw"; gw_status := "active"; gw_applied_version := None;
     gw_observe_key := None; gw_candidate_endpoint := Some ep; gw_version := None; gw_max_ir_schema := None |}.
Definition ex_store : Store :=
  set_gateways [gw 1 1 "192.0.2.1:51820"; gw 2 2 "192.0.2.2:51820"; gw 3 2 "192.0.2.3:51820"]
    (set_segments [{| sg_id := 1; sg_name := "hq" |}; {| sg_id := 2; sg_name := "dc" |}] empty_store).
Definition ex_env (now : Z) : Env :=
  {| clock := fun _ => now; peers_db := fun _ => Some ex_store; cands_db := fun _ _ => Some ex_store |}.
Definition pp (p : Z) (st : string) : PeerPath := {| pp_peer_gateway_id := p; pp_state := st |}.

(** The channels of 1 and 2 are the first two fresh names. *)
Definition both_open : Broker := fst (broker_run new_broker [WatchOpened 1; WatchOpened 2]).
Definition chan_of (br : Broker) (g : Z) : Z := default (-1) (registry br !! g).
Definition settled_pair : list BrokerEvent :=
  [ WatchOpened 1; GatewayConnected (ex_env 1000) 1; WatchOpened 2; GatewayConnected (ex_env 2000) 2;
    Reported (ex_env 3000) 1 [pp 2 "direct"] true; Reported (ex_env 3000) 2 [pp 1 "relayed"] true ].
Definition br0 : Broker := fst (broker_run new_broker settled_pair).

Example ex_peers : map (peer_ids ex_store) [1; 2; 3; 4] = [[2; 3]; [1]; [1]; []].
Proof. vm_compute. done. Qed.

(** The punch went out when the second gateway connected, and sweeps leave the settled pair alone. *)
Example ex_settled_quiet :
  snd (broker_run new_broker settled_pair) = [[]; []; []; [(1, 2)]; []; []] /\
  queue br0 (chan_of br0 1) = [punch_toward 2 ["192.0.2.2:51820"] 2300] /\
  queue br0 (chan_of br0 2) = [punch_toward 1 ["192.0.2.1:51820"] 2300] /\
  snd (broker_step br0 (SweepTick (ex_env 5000))) = [] /\
  snd (broker_step br0 (Reported (ex_env 6000) 1 [pp 2 "disconnected"] false)) = [(1, 2)].
Proof. vm_compute. done. Qed.

(** A stream nobody reads fills up; from then on sweeps reach the other member
    only, and those one-sided directives are not counted. *)
Example one_sided_punches_uncounted :
  let br := fst (broker_run new_broker [WatchOpened 1; WatchOpened 2]) in
  let fill := repeat (Changed (ex_env 0) (EndpointObserved 1 "hq" [] [] [] 1)) 16 in
  let round := [StreamRead (chan_of br 1) 16; SweepTick (ex_env 9000)] in
  let br1 := fst (broker_run br fill) in
  let br2 := fst (broker_run br1 (concat (repeat round 7))) in
  map (fun b => length (queue b (chan_of b 1))) [br1; br2] = [16; 1]%nat /\
  attempts_of br2 (1, 2) = 0 /\
  Forall (fun b => queue b (chan_of b 1) = [punch_toward 2 ["192.0.2.2:51820"] 9300])
    (map (fun n => fst (broker_run br1 (concat (repeat round n)))) (seq 1 7)).
Proof. vm_compute. repeat constructor. Qed.

(** A gateway that reports itself as settled and then not is told to punch itself. *)
Example self_report_punches_itself :
  let br := fst (broker_run new_broker
    [WatchOpened 1; Reported (ex_env 0) 1 [pp 1 "direct"] true; Reported (ex_env 0) 1 [] true]) in
  queue br (chan_of br 1) = [punch_toward 1 ["192.0.2.1:51820"] 300; punch_toward 1 ["192.0.2.1:51820"] 300].
Proof. vm_compute. done. Qed.

Lemma directives_justified_witness :
  let e := Changed (ex_env 7) (EndpointObserved 1 "hq" [] [] [] 1) in
  (exists env gw peer, event_env e = Some env /\
     pair_punched env (step_base both_open e) (fst (broker_step both_open e)) gw peer (chan_of both_open 1)
       (punch_toward 2 ["192.0.2.2:51820"] 307)) \/
  rotation_told both_open e (chan_of both_open 1) (punch_toward 2 ["192.0.2.2:51820"] 307).
Proof.
  intros e. apply (directives_justified both_open e).
  assert (added both_open (fst (broker_step both_open e)) (chan_of both_open 1) = [punch_toward 2 ["192.0.2.2:51820"] 307])
    as -> by (vm_compute; done).
  apply list_elem_of_here.
Defined.

(** Seven sweeps deliver five pairs. *)
Lemma periodic_budget_bounds_witness :
  let evs := concat (repeat [StreamRead (chan_of both_open 1) 16; StreamRead (chan_of both_open 2) 16;
                             SweepTick (ex_env 0)] 7) in
  deliveries (1, 2) (concat (snd (broker_run both_open evs))) = 5 /\
  let '(br', out) := broker_run both_open evs in
  deliveries (1, 2) (concat out) <= MAX_PERIODIC_ATTEMPTS - attempts_of both_open (1, 2) /\
  attempts_of br' (1, 2) = attempts_of both_open (1, 2) + deliveries (1, 2) (concat out).
Proof.
  intros evs. split; [vm_compute; done|].
  apply (periodic_budget_bounds [WatchOpened 1; WatchOpened 2] evs 1 2).
  subst evs. cbn [concat repeat app keeps_budget resets]. repeat (split; [apply not_elem_of_nil|]). done.
Defined.

End example.
