(* ===== verification/CtlReport.v ===== *)
(** * Controller: the calls a gateway makes

    [Watch], [Report] and [SubmitEpochKey] of
    [crates/wiremesh-controller/src/services/sync.rs] for a gateway, over the
    state of [SyncSvc]: the database, the broker, the rotation trackers, the
    relay votes and the session generations.  Each call is one step.  Every
    database call may fail ([ce_fault]); the events of the broadcast channel are
    appended to [published], and the broker's reaction to one is a step of its
    own ([Delivered]).  The caller's identity is the common name of its client
    certificate. *)
From Stdlib Require Import ZArith Lia Ascii.
From stdpp Require Import sorting.
From S2P Require Import Prelude StdNet CtlKeys CtlRotation CtlStore SyncProto CtlProjection CtlBroker.
Open Scope Z_scope.

(** ** Local candidates *)

Definition MAX_LOCAL_CANDIDATES : nat := 32.

(** The loop's state: what is kept, what was seen, and what the log line counts. *)
Record LocalFilter : Type := {
  lf_kept : list string; lf_seen : gset string; lf_rejected : nat; lf_over_cap : nat }.

Definition filter_local (f : LocalFilter) (ep : string) : LocalFilter :=
  if negb (is_usable_candidate_endpoint ep) then
    {| lf_kept := lf_kept f; lf_seen := lf_seen f; lf_rejected := S (lf_rejected f); lf_over_cap := lf_over_cap f |}
  else if bool_decide (ep ∈ lf_seen f) then f
  else if (length (lf_kept f) =? MAX_LOCAL_CANDIDATES)%nat then
    {| lf_kept := lf_kept f; lf_seen := {[ep]} ∪ lf_seen f; lf_rejected := lf_rejected f;
       lf_over_cap := S (lf_over_cap f) |}
  else
    {| lf_kept := lf_kept f ++ [ep]; lf_seen := {[ep]} ∪ lf_seen f; lf_rejected := lf_rejected f;
       lf_over_cap := lf_over_cap f |}.

Definition filter_locals (reported : list string) : LocalFilter :=
  foldl filter_local {| lf_kept := []; lf_seen := ∅; lf_rejected := 0; lf_over_cap := 0 |} reported.

Definition usable_local_candidates (reported : list string) : list string := lf_kept (filter_locals reported).

(** ** The service *)

Inductive Status : Type := PermissionDenied | FailedPrecondition | Internal.

Record SyncSvc : Type := {
  db : Store;
  broker : Broker;
  relay_health : gmap Z (gmap Z bool);
  trackers : gmap Z RotationTracker;
  sessions : gmap Z Z;
  published : list ChangeEvent }.

Definition set_db (s : Store) (st : SyncSvc) : SyncSvc :=
  {| db := s; broker := broker st; relay_health := relay_health st; trackers := trackers st;
     sessions := sessions st; published := published st |}.
Definition set_broker (b : Broker) (st : SyncSvc) : SyncSvc :=
  {| db := db st; broker := b; relay_health := relay_health st; trackers := trackers st;
     sessions := sessions st; published := published st |}.
Definition set_health (h : gmap Z (gmap Z bool)) (st : SyncSvc) : SyncSvc :=
  {| db := db st; broker := broker st; relay_health := h; trackers := trackers st;
     sessions := sessions st; published := published st |}.
Definition set_trackers (m : gmap Z RotationTracker) (st : SyncSvc) : SyncSvc :=
  {| db := db st; broker := broker st; relay_health := relay_health st; trackers := m;
     sessions := sessions st; published := published st |}.
Definition set_sessions (m : gmap Z Z) (st : SyncSvc) : SyncSvc :=
  {| db := db st; broker := broker st; relay_health := relay_health st; trackers := trackers st;
     sessions := m; published := published st |}.
Definition publish (evs : list ChangeEvent) (st : SyncSvc) : SyncSvc :=
  {| db := db st; broker := broker st; relay_health := relay_health st; trackers := trackers st;
     sessions := sessions st; published := published st ++ evs |}.

Definition new_svc (s : Store) : SyncSvc :=
  {| db := s; broker := new_broker; relay_health := ∅; trackers := ∅; sessions := ∅; published := [] |}.

(** ** Session generations *)

Definition record_session_generation (gateway_id generation : Z) (st : SyncSvc) : SyncSvc :=
  set_sessions (<[gateway_id := generation]> (sessions st)) st.

Definition recorded_session_generation (st : SyncSvc) (gateway_id : Z) : Z := default 0 (sessions st !! gateway_id).

Definition check_session_generation (st : SyncSvc) (gateway_id req_generation : Z) : result Status unit :=
  let stored := recorded_session_generation st gateway_id in
  if negb (stored =? 0) && negb (req_generation =? 0) && negb (stored =? req_generation)
  then Err FailedPrecondition else Ok tt.

(** ** The environment of a call *)

Inductive Call : Type :=
| LookUpGateway | RecordVersion | BuildSnapshot | RecordApplied | RecordCandidates | ReadCandidateEvent
| ReadRelay (relay_id : Z) | WriteRelay (relay_id : Z) | ReadRelays | CasKey | EmitKey.

Record CallEnv : Type := {
  ce_fault : Call -> bool;
  ce_broker : Env;
  ce_ack_faults : Z -> bool;
  ce_ack_now : Z;
  ce_drive : Z -> DriveEnv (* of each driven gateway; [connected] is the broker's *) }.

(** A database call that the environment may fail. *)
Definition try_db {A : Type} (env : CallEnv) (c : Call) (f : Store -> result DbError A * Store) (s : Store) :
    result Status A * Store :=
  if ce_fault env c then (Err Internal, s)
  else match f s with (Ok a, s') => (Ok a, s') | (Err _, s') => (Err Internal, s') end.

Definition emit_relays_changed (env : CallEnv) (st : SyncSvc) : SyncSvc :=
  if ce_fault env ReadRelays then st else publish (relays_changed (db st)) st.

(** ** Relay votes *)

Record RelayVote : Type := { rv_relay_id : Z; rv_healthy : bool }.

Definition record_vote (gateway_id : Z) (h : gmap Z (gmap Z bool)) (v : RelayVote) : gmap Z (gmap Z bool) :=
  let relay_id := as_i64 (rv_relay_id v) in
  <[relay_id := <[gateway_id := rv_healthy v]> (default ∅ (h !! relay_id))]> h.

Definition touched_relays (votes : list RelayVote) : list Z :=
  foldl (fun l v => let r := as_i64 (rv_relay_id v) in if bool_decide (r ∈ l) then l else l ++ [r]) [] votes.

(** [votes.values().any(|&h| h)]. *)
Definition healthy_agg (h : gmap Z (gmap Z bool)) (relay_id : Z) : bool :=
  existsb snd (map_to_list (default ∅ (h !! relay_id))).

Definition desired_status (h : gmap Z (gmap Z bool)) (relay_id : Z) : string :=
  if healthy_agg h relay_id then "active" else "inactive".

(** The loop over the touched relays; [any_changed] and the store so far. *)
Fixpoint flip_relays (env : CallEnv) (h : gmap Z (gmap Z bool)) (touched : list Z) (any_changed : bool) (s : Store) :
    result Status bool * Store :=
  match touched with
  | [] => (Ok any_changed, s)
  | relay_id :: rest =>
      if ce_fault env (ReadRelay relay_id) then (Err Internal, s)
      else
        match relay_status s relay_id with
        | None => flip_relays env h rest any_changed s
        | Some current =>
            if bool_decide (current = desired_status h relay_id) then flip_relays env h rest any_changed s
            else
              match try_db env (WriteRelay relay_id) (set_relay_status relay_id (desired_status h relay_id)) s with
              | (Ok _, s') => flip_relays env h rest true s'
              | (Err e, s') => (Err e, s')
              end
        end
  end.

Definition report_relays (env : CallEnv) (gateway_id : Z) (votes : list RelayVote) (st : SyncSvc) :
    result Status unit * SyncSvc :=
  match votes with
  | [] => (Ok tt, st)
  | _ =>
      let h := foldl (record_vote gateway_id) (relay_health st) votes in
      let '(r, s') := flip_relays env h (touched_relays votes) false (db st) in
      let st1 := set_db s' (set_health h st) in
      match r with
      | Ok true => (Ok tt, emit_relays_changed env st1)
      | Ok false => (Ok tt, st1)
      | Err e => (Err e, st1)
      end
  end.

(** ** Rotation *)

(** The event the driver sends, in full. *)
Definition full_key_event (s : Store) (e : CtlRotation.KeyRotated) : list ChangeEvent :=
  match gateway_identity_by_id s (kr_gateway_id e) with
  | None => []
  | Some i => [KeyRotated (kr_gateway_id e) (gi_segment_name i) (cidrs_for_segment s (gi_segment_id i))
                 (kr_keys e) (candidates_for s (kr_gateway_id e)) (kr_revision e)]
  end.

(** Runs an operation of CtlRotation on the service. *)
Definition on_world (f : World -> World) (st : SyncSvc) : SyncSvc :=
  let w := f {| w_db := keys_db (db st); rotations := trackers st; w_events := [] |} in
  let s' := put_keys (w_db w) (db st) in
  publish (flat_map (full_key_event s') (w_events w)) (set_trackers (rotations w) (set_db s' st)).

Definition connect_env (env : DriveEnv) (st : SyncSvc) : DriveEnv :=
  {| read_at := read_at env; seed_now := seed_now env; decide_now := decide_now env; write_now := write_now env;
     read_fault := read_fault env; cas_fault := cas_fault env; emit_fault := emit_fault env;
     connected := list_to_set (connected_gateway_ids (broker st)) |}.

Definition drive_rotation (env : CallEnv) (gateway_id : Z) (st : SyncSvc) : SyncSvc :=
  on_world (fun w => drive_rotation_for w gateway_id (connect_env (ce_drive env gateway_id) st)) st.

Definition report_acks (env : CallEnv) (gateway_id : Z) (acks : list EpochAck) (st : SyncSvc) : SyncSvc :=
  match acks with
  | [] => st
  | _ =>
      let record w := fst (seed_and_record_epoch_acks w gateway_id acks (ce_ack_faults env) (ce_ack_now env)) in
      foldl (fun st g => drive_rotation env g st) (on_world record st) (touched_gateways acks)
  end.

(** ** [Watch] *)

Definition watch_gateway (env : CallEnv) (gateway_id session_generation : Z)
    (reported_version : option string) (reported_schema : option Z) (st : SyncSvc) : result Status Z * SyncSvc :=
  let st1 := record_session_generation gateway_id session_generation st in
  let '(_, s') := try_db env RecordVersion (set_gateway_reported_version gateway_id reported_version reported_schema)
                    (db st1) in
  let '(br, chan) := register gateway_id (broker st1) in
  let st2 := set_broker br (set_db s' st1) in
  if ce_fault env BuildSnapshot then (Err Internal, set_broker (drop_watch gateway_id chan br) st2)
  else (Ok chan, st2).

(** [watch] for a gateway's certificate: the id of its stream. *)
Definition watch_call (env : CallEnv) (cn : string) (session_generation : Z) (version : string) (max_ir_schema : Z)
    (st : SyncSvc) : result Status Z * SyncSvc :=
  if ce_fault env LookUpGateway then (Err Internal, st)
  else
    match find_gateway_by_name (db st) cn with
    | Some i => watch_gateway env (gi_id i) session_generation (store_version version) (store_schema max_ir_schema) st
    | None => (Err PermissionDenied, st)
    end.

(** ** [Report] *)

Record ReportRequest : Type := {
  rq_applied_version : Z;
  rq_local_endpoints : list string;
  rq_relay_health : list RelayVote;
  rq_epoch_acks : list EpochAck;
  rq_peer_paths : list PeerPath;
  rq_peer_paths_snapshot : bool;
  rq_session_generation : Z }.

(** The event of a changed candidate set; a failing read drops it. *)
Definition candidates_changed (env : CallEnv) (gateway_id : Z) (revision : option Z) (st : SyncSvc) : SyncSvc :=
  match revision with
  | Some r => if ce_fault env ReadCandidateEvent then st else publish (endpoint_observed (db st) gateway_id r) st
  | None => st
  end.

(** The handler past the gate. *)
Definition accept_report (env : CallEnv) (gateway_id : Z) (req : ReportRequest) (st : SyncSvc) :
    result Status unit * SyncSvc :=
  let st1 := set_broker (fst (on_report (ce_broker env) gateway_id (rq_peer_paths req) (rq_peer_paths_snapshot req)
                                (broker st))) st in
  match try_db env RecordApplied (set_applied_version gateway_id (rq_applied_version req)) (db st1) with
  | (Err e, s2) => (Err e, set_db s2 st1)
  | (Ok _, s2) =>
      match try_db env RecordCandidates
              (set_local_candidates gateway_id (usable_local_candidates (rq_local_endpoints req))) s2 with
      | (Err e, s3) => (Err e, set_db s3 st1)
      | (Ok revision, s3) =>
          let st3 := candidates_changed env gateway_id revision (set_db s3 st1) in
          match report_relays env gateway_id (rq_relay_health req) st3 with
          | (Err e, st4) => (Err e, st4)
          | (Ok _, st4) => (Ok tt, report_acks env gateway_id (rq_epoch_acks req) st4)
          end
      end
  end.

Definition report (env : CallEnv) (cn : string) (req : ReportRequest) (st : SyncSvc) : result Status unit * SyncSvc :=
  if ce_fault env LookUpGateway then (Err Internal, st)
  else
    match find_gateway_by_name (db st) cn with
    | None => (Err PermissionDenied, st)
    | Some i =>
        match check_session_generation st (gi_id i) (rq_session_generation req) with
        | Err e => (Err e, st)
        | Ok _ => accept_report env (gi_id i) req st
        end
    end.

(** ** [SubmitEpochKey] *)

Definition submit_epoch_key (env : CallEnv) (cn : string) (epoch : Z) (pubkey : string) (session_generation : Z)
    (st : SyncSvc) : result Status unit * SyncSvc :=
  if ce_fault env LookUpGateway then (Err Internal, st)
  else
    match find_gateway_by_name (db st) cn with
    | None => (Err PermissionDenied, st)
    | Some i =>
        let g := gi_id i in
        match check_session_generation st g session_generation with
        | Err e => (Err e, st)
        | Ok _ =>
            if ce_fault env CasKey then (Err Internal, st)
            else
              match on_keys (fun d => CtlKeys.set_epoch_pubkey d g epoch pubkey) (db st) with
              | (NoMatch, _) => (Err FailedPrecondition, st)
              | (Applied, s1) =>
                  let st1 := set_db s1 st in
                  if ce_fault env EmitKey then (Err Internal, st1)
                  else
                    match key_rotated_events s1 g with
                    | [] => (Err Internal, st1)
                    | evs => (Ok tt, drive_rotation env g (publish evs st1))
                    end
              end
        end
    end.

(** ** The service as a step function *)

Inductive SvcEvent : Type :=
| WatchCall (env : CallEnv) (cn : string) (generation : Z) (version : string) (max_ir_schema : Z)
| ReportCall (env : CallEnv) (cn : string) (req : ReportRequest)
| SubmitCall (env : CallEnv) (cn : string) (epoch : Z) (pubkey : string) (generation : Z)
| BrokerDoes (e : BrokerEvent)          (* a trigger other than a registration or a report *)
| StoreBecomes (s : Store)              (* the rest of the controller *)
| TrackersBecome (m : gmap Z RotationTracker).

Definition svc_step (st : SyncSvc) (e : SvcEvent) : SyncSvc * result Status unit :=
  match e with
  | WatchCall env cn generation version schema =>
      let '(r, st') := watch_call env cn generation version schema st in
      (st', match r with Ok _ => Ok tt | Err e => Err e end)
  | ReportCall env cn req => let '(r, st') := report env cn req st in (st', r)
  | SubmitCall env cn epoch pubkey generation =>
      let '(r, st') := submit_epoch_key env cn epoch pubkey generation st in (st', r)
  | BrokerDoes e => (set_broker (fst (broker_step (broker st) e)) st, Ok tt)
  | StoreBecomes s => (set_db s st, Ok tt)
  | TrackersBecome m => (set_trackers m st, Ok tt)
  end.

(** ** What a report leaves as candidates *)

(** First occurrences, in order. *)
Fixpoint firsts (seen : list string) (l : list string) : list string :=
  match l with
  | [] => []
  | x :: l' => if bool_decide (x ∈ seen) then firsts seen l' else x :: firsts (x :: seen) l'
  end.

Lemma firsts_ext seen seen' l : (forall x, x ∈ seen <-> x ∈ seen') -> firsts seen l = firsts seen' l.
Proof.
  revert seen seen'. induction l as [|x l IH]; intros s s' H; [done|]. cbn.
  rewrite (bool_decide_ext _ _ (H x)). case_bool_decide; [by apply IH|]. f_equal. apply IH.
  intros y. rewrite !elem_of_cons, H. done.
Qed.

Lemma take_step {A : Type} (kept : list A) n x rest :
  (length kept <= n)%nat ->
  kept ++ take (n - length kept) (x :: rest) =
  if (length kept =? n)%nat then kept else (kept ++ [x]) ++ take (n - length (kept ++ [x])) rest.
Proof.
  intros Hl. destruct (Nat.eqb_spec (length kept) n) as [<-|Hn].
  - by rewrite Nat.sub_diag, app_nil_r.
  - rewrite length_app. cbn [length]. replace (n - length kept)%nat with (S (n - (length kept + 1)))%nat by lia.
    cbn. by rewrite <- app_assoc.
Qed.

Lemma filter_locals_from l f :
  (length (lf_kept f) <= MAX_LOCAL_CANDIDATES)%nat ->
  lf_kept (foldl filter_local f l) =
  lf_kept f ++ take (MAX_LOCAL_CANDIDATES - length (lf_kept f))
                 (firsts (elements (lf_seen f)) (List.filter is_usable_candidate_endpoint l)).
Proof.
  revert f. induction l as [|ep l IH]; intros f Hl; cbn [foldl List.filter firsts].
  - by rewrite take_nil, app_nil_r.
  - unfold filter_local at 2. destruct (is_usable_candidate_endpoint ep); cbn [negb]; [|by rewrite IH].
    cbn [firsts]. rewrite (bool_decide_ext (ep ∈ elements (lf_seen f)) (ep ∈ lf_seen f)) by apply elem_of_elements.
    case_bool_decide; [by rewrite IH|]. rewrite take_step by done.
    assert (Hs : forall x, x ∈ elements ({[ep]} ∪ lf_seen f) <-> x ∈ ep :: elements (lf_seen f)) by (intros x; set_solver).
    destruct (Nat.eqb_spec (length (lf_kept f)) MAX_LOCAL_CANDIDATES) as [E|E]; rewrite IH; cbn [lf_kept lf_seen].
    + by rewrite E, Nat.sub_diag, app_nil_r.
    + done.
    + by rewrite (firsts_ext _ _ _ Hs).
    + rewrite length_app. cbn. lia.
Qed.

(** The first 32 distinct usable endpoints, in the order of the report. *)
Lemma usable_local_candidates_spec l :
  usable_local_candidates l = take MAX_LOCAL_CANDIDATES (firsts [] (List.filter is_usable_candidate_endpoint l)).
Proof.
  unfold usable_local_candidates, filter_locals. rewrite filter_locals_from by (cbn; lia). cbn [lf_kept lf_seen app length].
  by rewrite elements_empty, Nat.sub_0_r.
Qed.

Lemma firsts_spec seen l x : x ∈ firsts seen l <-> x ∈ l /\ x ∉ seen.
Proof.
  revert seen. induction l as [|y l IH]; intros seen; cbn; [split; [by intros ?%elem_of_nil|by intros [?%elem_of_nil _]]|].
  case_bool_decide as Hy; rewrite ?elem_of_cons, IH, ?not_elem_of_cons.
  - split; [tauto|]. intros [[->|?] ?]; [done|tauto].
  - destruct (decide (x = y)) as [->|]; tauto.
Qed.

Lemma firsts_nodup seen l : NoDup (firsts seen l).
Proof.
  revert seen. induction l as [|y l IH]; intros seen; cbn; [constructor|]. case_bool_decide; [done|].
  constructor; [|done]. rewrite firsts_spec. intros [_ H']. apply H'. apply list_elem_of_here.
Qed.

(** ** Stale sessions *)

Definition caller (st : SyncSvc) (cn : string) (g : Z) : Prop :=
  exists i, find_gateway_by_name (db st) cn = Some i /\ gi_id i = g.

Lemma caller_refused st cn g n gen :
  caller st cn g -> sessions st !! g = Some n -> n <> 0 -> gen <> 0 -> gen <> n ->
  exists i, find_gateway_by_name (db st) cn = Some i /\ check_session_generation st (gi_id i) gen = Err FailedPrecondition.
Proof.
  intros (i & E & <-) Hs Hn Hg Hne. exists i. split; [done|].
  unfold check_session_generation, recorded_session_generation. rewrite Hs. cbn.
  by rewrite !(proj2 (Z.eqb_neq _ _)) by congruence.
Qed.

(** A call of a previous process of the gateway changes nothing. *)
Lemma stale_call_refused env cn g n gen st :
  caller st cn g -> sessions st !! g = Some n -> n <> 0 -> gen <> 0 -> gen <> n ->
  (forall req, rq_session_generation req = gen -> snd (report env cn req st) = st /\ is_ok (fst (report env cn req st)) = false) /\
  (forall epoch key, snd (submit_epoch_key env cn epoch key gen st) = st /\
     is_ok (fst (submit_epoch_key env cn epoch key gen st)) = false).
Proof.
  intros Hc Hs Hn Hg Hne. destruct (caller_refused st cn g n gen Hc Hs Hn Hg Hne) as (i & E & Hr).
  split; [intros req <-|intros epoch key]; [unfold report|unfold submit_epoch_key];
    (destruct (ce_fault env LookUpGateway); [done|]); rewrite E; cbv zeta; by rewrite Hr.
Qed.

(** ** What each part of a call may change *)

(** [st'] keeps the sessions and the broker of [st]. *)
Definition same_front (st st' : SyncSvc) : Prop := sessions st' = sessions st /\ broker st' = broker st.

#[export] Instance same_front_preorder : PreOrder same_front.
Proof. split; [by intros st|]. intros a b c [H1 H2] [H3 H4]. split; congruence. Qed.

Lemma report_relays_front env g votes st : same_front st (snd (report_relays env g votes st)).
Proof.
  unfold report_relays. destruct votes as [|v votes]; [done|]. destruct (flip_relays _ _ _ _ _) as [[[]|] s']; try done.
  unfold emit_relays_changed. by destruct (ce_fault env ReadRelays).
Qed.

Lemma report_acks_front env g acks st : same_front st (report_acks env g acks st).
Proof.
  unfold report_acks. destruct acks as [|a acks]; [done|]. generalize (touched_gateways (a :: acks)) as l.
  set (st1 := on_world _ st). assert (H : same_front st st1) by done. clearbody st1. intros l.
  revert st1 H. induction l as [|x l IH]; intros st1 H; [done|]. cbn. apply IH. by etransitivity.
Qed.

Lemma accept_report_front env g req st :
  sessions (snd (accept_report env g req st)) = sessions st /\
  broker (snd (accept_report env g req st)) =
    fst (on_report (ce_broker env) g (rq_peer_paths req) (rq_peer_paths_snapshot req) (broker st)).
Proof.
  unfold accept_report. destruct (try_db env RecordApplied _ _) as [[a|e] s2]; [|done].
  destruct (try_db env RecordCandidates _ _) as [[r|e] s3]; [|done].
  set (st3 := candidates_changed env g r _).
  assert (H3 : sessions st3 = sessions st /\
    broker st3 = fst (on_report (ce_broker env) g (rq_peer_paths req) (rq_peer_paths_snapshot req) (broker st))).
  { subst st3. unfold candidates_changed. destruct r; [|done]. by destruct (ce_fault env ReadCandidateEvent). }
  clearbody st3. pose proof (report_relays_front env g (rq_relay_health req) st3) as [S4 B4].
  destruct (report_relays env g (rq_relay_health req) st3) as [[u|e] st4]; cbn [snd] in *; [|split; by etransitivity; [|apply H3]].
  destruct (report_acks_front env g (rq_epoch_acks req) st4) as [S5 B5].
  rewrite S5, B5, S4, B4. done.
Qed.

Lemma submit_front env cn epoch key gen st : same_front st (snd (submit_epoch_key env cn epoch key gen st)).
Proof.
  unfold submit_epoch_key. destruct (ce_fault env LookUpGateway); [done|].
  destruct (find_gateway_by_name (db st) cn) as [i|]; [|done]. destruct (check_session_generation _ _ _); [|done].
  destruct (ce_fault env CasKey); [done|]. destruct (on_keys _ (db st)) as [[] s1]; [|done].
  destruct (ce_fault env EmitKey); [done|]. by destruct (key_rotated_events s1 (gi_id i)).
Qed.

(** ** After a restart *)

Definition svc_run (st : SyncSvc) (evs : list SvcEvent) : SyncSvc := fst (run svc_step st evs).

Lemma svc_run_cons st e evs : svc_run st (e :: evs) = svc_run (fst (svc_step st e)) evs.
Proof. unfold svc_run. cbn. destruct (svc_step st e) as [st1 o]. cbn. by destruct (run svc_step st1 evs). Qed.

Lemma svc_run_app st evs1 evs2 : svc_run st (evs1 ++ evs2) = svc_run (svc_run st evs1) evs2.
Proof.
  unfold svc_run. rewrite run_app. destruct (run svc_step st evs1) as [st1 o1]. cbn.
  by destruct (run svc_step st1 evs2).
Qed.

(** [P] of every event of a run, in the state it meets. *)
Fixpoint along (P : SyncSvc -> SvcEvent -> Prop) (st : SyncSvc) (evs : list SvcEvent) : Prop :=
  match evs with
  | [] => True
  | e :: evs' => P st e /\ along P (fst (svc_step st e)) evs'
  end.

Lemma along_app P st evs1 evs2 : along P st (evs1 ++ evs2) <-> along P st evs1 /\ along P (svc_run st evs1) evs2.
Proof.
  revert st. induction evs1 as [|e evs1 IH]; intros st; cbn [app along]; [unfold svc_run; cbn; tauto|].
  rewrite IH, svc_run_cons. tauto.
Qed.

Lemma along_invariant P (I : SyncSvc -> Prop) st evs :
  (forall st e, I st -> P st e -> I (fst (svc_step st e))) -> I st -> along P st evs -> I (svc_run st evs).
Proof.
  intros Hstep. revert st. induction evs as [|e evs IH]; intros st Hi; [done|]. intros [Hp Ha].
  rewrite svc_run_cons. apply IH; [by apply Hstep|done].
Qed.

(** Nothing from [g]'s process [n] or from a client without generations: its
    reports, if any, carry the generation of another process. *)
Definition no_report_of (g n : Z) (st : SyncSvc) (e : SvcEvent) : Prop :=
  match e with
  | WatchCall _ cn generation _ _ => caller st cn g -> generation = n
  | ReportCall _ cn req => caller st cn g -> rq_session_generation req <> 0 /\ rq_session_generation req <> n
  | BrokerDoes (Reported _ _ _ _) | BrokerDoes (WatchOpened _) => False
  | _ => True
  end.

Definition session_is (g n : Z) (st : SyncSvc) : Prop := sessions st !! g = Some n.
Definition states_clear (g : Z) (st : SyncSvc) : Prop := peer_path_states (broker st) !! g = None.

Lemma watch_gateway_spec env g n v sc st :
  sessions (snd (watch_gateway env g n v sc st)) = <[g := n]> (sessions st) /\
  peer_path_states (broker (snd (watch_gateway env g n v sc st))) = peer_path_states (broker st).
Proof.
  unfold watch_gateway. destruct (try_db env RecordVersion _ _) as [r s']. cbn [register].
  destruct (ce_fault env BuildSnapshot); [|done]. cbn [snd]. unfold drop_watch. by case_bool_decide.
Qed.

Lemma on_report_other env h paths snapshot br g :
  h <> g -> peer_path_states (fst (on_report env h paths snapshot br)) !! g = peer_path_states br !! g.
Proof.
  intros Hne. change (on_report env h paths snapshot br) with (broker_step br (Reported env h paths snapshot)).
  destruct (step_sends br (Reported env h paths snapshot)) as [S _]. rewrite (os_states _ _ S). cbn [step_base].
  destruct (ignored_report paths snapshot); [done|]. cbn. unfold store_report.
  destruct snapshot; [destruct paths|]; by rewrite ?lookup_insert_ne, ?lookup_delete_ne by done.
Qed.

Lemma broker_step_states br e g :
  match e with Reported _ _ _ _ => False | _ => True end ->
  peer_path_states br !! g = None -> peer_path_states (fst (broker_step br e)) !! g = None.
Proof.
  intros He Hn. destruct (step_sends br e) as [S _]. rewrite (os_states _ _ S).
  destruct e as [x|env x|x chan|chan n|env x paths snapshot|env ev| |env]; try done; cbn [step_base].
  - cbn. apply lookup_delete_None. by right.
  - unfold drop_watch. by case_bool_decide.
Qed.

(** A call that names another gateway, or is refused, keeps [g]'s session and states. *)
Lemma session_step g n st e :
  n <> 0 -> no_report_of g n st e -> session_is g n st ->
  session_is g n (fst (svc_step st e)) /\ (states_clear g st -> states_clear g (fst (svc_step st e))).
Proof.
  intros Hn He Hs. unfold session_is, states_clear in *.
  destruct e as [env cn gen v sc|env cn req|env cn epoch key gen|be|s|m]; cbn [svc_step no_report_of] in *; try done.
  - unfold watch_call. destruct (ce_fault env LookUpGateway); [done|].
    destruct (find_gateway_by_name (db st) cn) as [i|] eqn:E; [|done].
    destruct (watch_gateway_spec env (gi_id i) gen (store_version v) (store_schema sc) st) as [W1 W2].
    destruct (watch_gateway _ _ _ _ _ _) as [r st']. cbn [snd fst] in *. rewrite W1, W2. split; [|done].
    destruct (decide (gi_id i = g)) as [Hg|Hg]; [|by rewrite lookup_insert_ne].
    rewrite Hg, lookup_insert_eq, He; [done|]. by exists i.
  - pose proof (stale_call_refused env cn g n (rq_session_generation req) st) as Hst. unfold report in *.
    destruct (ce_fault env LookUpGateway); [done|].
    destruct (find_gateway_by_name (db st) cn) as [i|] eqn:E; [|done].
    destruct (decide (gi_id i = g)) as [Hg|Hg].
    + assert (Hc : caller st cn g) by (by exists i). specialize (He Hc) as [H0 H1].
      destruct (Hst Hc Hs Hn H0 H1) as [Hr _]. specialize (Hr req eq_refl) as [Hr _].
      destruct (match check_session_generation _ _ _ with Ok _ => _ | Err _ => _ end) as [r st']. cbn in *. by subst st'.
    + destruct (check_session_generation _ _ _); [|done].
      destruct (accept_report_front env (gi_id i) req st) as [F1 F2].
      destruct (accept_report env (gi_id i) req st) as [r st']. cbn [snd fst] in *. rewrite F1, F2.
      by rewrite on_report_other.
  - destruct (submit_front env cn epoch key gen st) as [F1 F2].
    destruct (submit_epoch_key env cn epoch key gen st) as [r st']. cbn [snd fst] in *. by rewrite F1, F2.
  - split; [done|]. apply broker_step_states. by destruct be.
Qed.


(** ** Relay status *)

(** Of a voted relay that exists, the status is what its votes say. *)
Definition votes_rule (st : SyncSvc) : Prop :=
  forall r v status, relay_health st !! r = Some v -> relay_status (db st) r = Some status ->
    status = desired_status (relay_health st) r.

Lemma set_relay_status_spec r status s :
  is_ok (fst (set_relay_status r status s)) = true /\
  relay (snd (set_relay_status r status s)) = update_relay (with_relay_status status) r (relay s).
Proof. done. Qed.

Lemma relay_status_other r r' status s :
  r <> r' -> relay_status (snd (set_relay_status r status s)) r' = relay_status s r'.
Proof.
  intros Hne. unfold relay_status. rewrite (proj2 (set_relay_status_spec r status s)). unfold update_relay.
  induction (relay s) as [|x l IH]; [done|]. cbn.
  destruct (Z.eqb_spec (rl_id x) r) as [E|E]; cbn; [|by case_match].
  rewrite E, (proj2 (Z.eqb_neq r r')) by done. apply IH.
Qed.

Lemma relay_status_own r status s x :
  relay_status s r = Some x -> relay_status (snd (set_relay_status r status s)) r = Some status.
Proof.
  unfold relay_status. rewrite (proj2 (set_relay_status_spec r status s)). unfold update_relay.
  induction (relay s) as [|y l IH]; [done|]. cbn.
  destruct (Z.eqb_spec (rl_id y) r) as [E|E]; cbn.
  - intros _. by rewrite E, Z.eqb_refl.
  - rewrite (proj2 (Z.eqb_neq _ _) E). apply IH.
Qed.

(** No database call about a relay fails. *)
Definition relay_calls_succeed (env : CallEnv) : Prop :=
  forall r, ce_fault env (ReadRelay r) = false /\ ce_fault env (WriteRelay r) = false.

(** The loop settles every touched relay and leaves the others alone. *)
Lemma flip_relays_spec env h touched b s :
  relay_calls_succeed env ->
  let '(r, s') := flip_relays env h touched b s in
  (exists b', r = Ok b' /\ (b' = false -> b = false /\ s' = s)) /\
  (forall x, x ∉ touched -> relay_status s' x = relay_status s x) /\
  (forall x status, x ∈ touched -> relay_status s' x = Some status -> status = desired_status h x).
Proof.
  intros Hf. revert b s. induction touched as [|y l IH]; intros b s; cbn [flip_relays].
  { split_and!; [by exists b|done|by intros x st ?%elem_of_nil]. }
  assert (Hskip : (forall st, relay_status s y = Some st -> st = desired_status h y) ->
    let '(r, s') := flip_relays env h l b s in
    (exists b', r = Ok b' /\ (b' = false -> b = false /\ s' = s)) /\
    (forall x, x ∉ y :: l -> relay_status s' x = relay_status s x) /\
    (forall x st, x ∈ y :: l -> relay_status s' x = Some st -> st = desired_status h x)).
  { intros Hy. specialize (IH b s). destruct (flip_relays env h l b s) as [r s']. destruct IH as (I1 & I2 & I3).
    split_and!; [done|intros x [_ Hx]%not_elem_of_cons; by apply I2|].
    intros x st Hx Hst. destruct (decide (x ∈ l)) as [Hl|Hl]; [by apply I3|].
    apply elem_of_cons in Hx as [->|Hx]; [|done]. apply Hy. by rewrite <- I2. }
  rewrite (proj1 (Hf y)). destruct (relay_status s y) as [cur|] eqn:Ec; [|by apply Hskip].
  case_bool_decide as Hcur; [apply Hskip; by intros st [= <-]|].
  unfold try_db. rewrite (proj2 (Hf y)).
  pose proof (relay_status_own y (desired_status h y) s cur Ec) as Hown.
  pose proof (fun x (Hx : y <> x) => relay_status_other y x (desired_status h y) s Hx) as Hoth.
  pose proof (proj1 (set_relay_status_spec y (desired_status h y) s)) as Hok.
  destruct (set_relay_status y (desired_status h y) s) as [[u|e] s1]; [|done]. cbn [snd] in Hown, Hoth.
  specialize (IH true s1). destruct (flip_relays env h l true s1) as [r s']. destruct IH as ((b' & -> & Hb) & I2 & I3).
  split_and!.
  - exists b'. split; [done|]. intros Hb'. by destruct (Hb Hb').
  - intros x [Hxy Hx]%not_elem_of_cons. rewrite I2 by done. by apply Hoth.
  - intros x st Hx Hst. destruct (decide (x ∈ l)) as [Hl|Hl]; [by apply I3|].
    apply elem_of_cons in Hx as [->|Hx]; [|done]. rewrite I2 in Hst by done. congruence.
Qed.

Lemma touched_relays_spec votes r :
  r ∈ touched_relays votes <-> r ∈ map (fun v => as_i64 (rv_relay_id v)) votes.
Proof.
  unfold touched_relays. set (f := fun (l : list Z) v => _).
  enough (H : forall l, r ∈ foldl f l votes <-> r ∈ l \/ r ∈ map (fun v => as_i64 (rv_relay_id v)) votes)
    by (rewrite (H []); split; [by intros [?%elem_of_nil|?]|auto]).
  induction votes as [|v votes IH]; intros l; cbn [foldl map]; [split; [auto|by intros [?|?%elem_of_nil]]|].
  rewrite IH. subst f. cbv beta zeta. case_bool_decide as Hin; rewrite ?elem_of_app, !elem_of_cons; [|rewrite elem_of_nil; tauto].
  split; [tauto|]. intros [?|[->|?]]; auto.
Qed.

Lemma record_votes_other g votes h r :
  r ∉ map (fun v => as_i64 (rv_relay_id v)) votes -> foldl (record_vote g) h votes !! r = h !! r.
Proof.
  revert h. induction votes as [|v votes IH]; intros h; [done|]. cbn [map foldl].
  intros [H1 H2]%not_elem_of_cons. rewrite IH by done. unfold record_vote. by rewrite lookup_insert_ne.
Qed.

Lemma desired_status_ext h h' r : h !! r = h' !! r -> desired_status h r = desired_status h' r.
Proof. intros H. unfold desired_status, healthy_agg. by rewrite H. Qed.

Lemma report_relays_rule env g votes st :
  relay_calls_succeed env -> votes_rule st ->
  votes_rule (snd (report_relays env g votes st)) /\ is_ok (fst (report_relays env g votes st)) = true.
Proof.
  intros Hf Hv. unfold report_relays. destruct votes as [|v votes]; [done|].
  pose proof (touched_relays_spec (v :: votes)) as Ht.
  pose proof (fun r => record_votes_other g (v :: votes) (relay_health st) r) as Ho.
  set (h := foldl _ _ _) in *. set (t := touched_relays _) in *. clearbody h t.
  pose proof (flip_relays_spec env h t false (db st) Hf) as Hspec.
  destruct (flip_relays env h t false (db st)) as [r s']. destruct Hspec as ((b' & -> & _) & I2 & I3).
  assert (Hrule : forall x w status, h !! x = Some w -> relay_status s' x = Some status -> status = desired_status h x).
  { intros x w status Hx Hst. destruct (decide (x ∈ t)) as [Hin|Hin]; [by apply I3|].
    assert (E : h !! x = relay_health st !! x) by (apply Ho; by rewrite <- Ht).
    rewrite I2 in Hst by done. rewrite (desired_status_ext h (relay_health st)) by done.
    apply (Hv x w); [by rewrite <- E|done]. }
  destruct b'; [|done]. unfold emit_relays_changed. by destruct (ce_fault env ReadRelays).
Qed.

(** What touches neither relays nor votes. *)
Definition same_relays (st st' : SyncSvc) : Prop := relay (db st') = relay (db st) /\ relay_health st' = relay_health st.

#[export] Instance same_relays_preorder : PreOrder same_relays.
Proof. split; [by intros st|]. intros a b c [H1 H2] [H3 H4]. split; congruence. Qed.

Lemma same_relays_rule st st' : same_relays st st' -> votes_rule st -> votes_rule st'.
Proof. intros [H1 H2] Hv r v status. rewrite H2. unfold relay_status. rewrite H1. apply Hv. Qed.

Lemma set_on_gateway_relay f g msg s : relay (snd (set_on_gateway f g msg s)) = relay s.
Proof. unfold set_on_gateway, commit. cbn. unfold mbind, tx_bind. cbn. unfold ensure. by destruct (has_gateway s g). Qed.

Lemma set_applied_relay g v s : relay (snd (set_applied_version g v s)) = relay s.
Proof. unfold set_applied_version. destruct (v <? 2 ^ 63); [apply set_on_gateway_relay|done]. Qed.

Lemma set_local_relay g l s : relay (snd (set_local_candidates g l s)) = relay s.
Proof.
  unfold set_local_candidates, commit, mbind, tx_bind, get. destruct (active_gateway s g); [|done].
  cbv zeta. by case_bool_decide.
Qed.

Lemma try_db_relay {A : Type} env c (f : Store -> result DbError A * Store) s :
  relay (snd (f s)) = relay s -> relay (snd (try_db env c f s)) = relay s.
Proof. unfold try_db. destruct (ce_fault env c); [done|]. by destruct (f s) as [[] s']. Qed.

Lemma on_world_relays f st : same_relays st (on_world f st).
Proof. done. Qed.

Lemma report_acks_relays env g acks st : same_relays st (report_acks env g acks st).
Proof.
  unfold report_acks. destruct acks as [|a acks]; [done|]. generalize (touched_gateways (a :: acks)) as l.
  set (st1 := on_world _ st). assert (H : same_relays st st1) by apply on_world_relays. clearbody st1. intros l.
  revert st1 H. induction l as [|x l IH]; intros st1 H; [done|]. cbn. apply IH.
  etransitivity; [done|apply on_world_relays].
Qed.

Lemma watch_gateway_relays env g n v sc st : same_relays st (snd (watch_gateway env g n v sc st)).
Proof.
  unfold watch_gateway. set (f := set_gateway_reported_version g v sc).
  assert (Hf : relay (snd (try_db env RecordVersion f (db (record_session_generation g n st)))) = relay (db st))
    by (apply try_db_relay, set_on_gateway_relay).
  destruct (try_db env RecordVersion f _) as [r s']. cbn [register]. by destruct (ce_fault env BuildSnapshot).
Qed.

Lemma submit_relays env cn epoch key gen st : same_relays st (snd (submit_epoch_key env cn epoch key gen st)).
Proof.
  unfold submit_epoch_key. destruct (ce_fault env LookUpGateway); [done|].
  destruct (find_gateway_by_name (db st) cn) as [i|]; [|done]. destruct (check_session_generation _ _ _); [|done].
  destruct (ce_fault env CasKey); [done|].
  assert (H : relay (snd (on_keys (fun d => set_epoch_pubkey d (gi_id i) epoch key) (db st))) = relay (db st)).
  { unfold on_keys. by destruct (set_epoch_pubkey _ _ _ _). }
  destruct (on_keys _ (db st)) as [[] s1]; [|done]. cbn [snd] in H.
  destruct (ce_fault env EmitKey); [done|]. by destruct (key_rotated_events s1 (gi_id i)).
Qed.

Lemma accept_report_rule env g req st :
  relay_calls_succeed env -> votes_rule st -> votes_rule (snd (accept_report env g req st)).
Proof.
  intros Hf Hv. unfold accept_report. set (st1 := set_broker _ st). change (db st1) with (db st).
  pose proof (try_db_relay env RecordApplied _ _ (set_applied_relay g (rq_applied_version req) (db st))) as H2.
  destruct (try_db env RecordApplied _ _) as [[u|e] s2]; cbn [snd] in *; [|by apply (same_relays_rule st)].
  pose proof (try_db_relay env RecordCandidates _ _
                (set_local_relay g (usable_local_candidates (rq_local_endpoints req)) s2)) as H3.
  destruct (try_db env RecordCandidates _ _) as [[r|e] s3]; cbn [snd] in *;
    [|apply (same_relays_rule st); [split; [cbn; congruence|done]|done]].
  assert (Hv3 : votes_rule (candidates_changed env g r (set_db s3 st1))).
  { apply (same_relays_rule st); [|done]. unfold candidates_changed.
    destruct r; [destruct (ce_fault env ReadCandidateEvent)|]; (split; [cbn; congruence|done]). }
  destruct (report_relays_rule env g (rq_relay_health req) _ Hf Hv3) as [Hv4 _].
  destruct (report_relays env g (rq_relay_health req) _) as [[u'|e] st4]; [|done].
  apply (same_relays_rule st4); [apply report_acks_relays|exact Hv4].
Qed.

(** The relay calls of the reports succeed, and the rest of the controller neither
    flips nor adds a relay that has votes. *)
Definition relays_left_to_votes (st : SyncSvc) (e : SvcEvent) : Prop :=
  match e with
  | ReportCall env _ _ => relay_calls_succeed env
  | StoreBecomes s => forall r v status, relay_health st !! r = Some v -> relay_status s r = Some status ->
                        relay_status (db st) r = Some status
  | _ => True
  end.

Lemma votes_rule_step st e : votes_rule st -> relays_left_to_votes st e -> votes_rule (fst (svc_step st e)).
Proof.
  intros Hv He. destruct e as [env cn gen v sc|env cn req|env cn epoch key gen|be|s|m]; cbn [svc_step relays_left_to_votes] in *; try done.
  - unfold watch_call. destruct (ce_fault env LookUpGateway); [done|]. destruct (find_gateway_by_name _ _) as [i|]; [|done].
    pose proof (watch_gateway_relays env (gi_id i) gen (store_version v) (store_schema sc) st) as H.
    destruct (watch_gateway _ _ _ _ _ _). by apply (same_relays_rule st).
  - unfold report. destruct (ce_fault env LookUpGateway); [done|]. destruct (find_gateway_by_name _ _) as [i|]; [|done].
    destruct (check_session_generation _ _ _); [|done]. pose proof (accept_report_rule env (gi_id i) req st He Hv) as H.
    by destruct (accept_report _ _ _ _).
  - pose proof (submit_relays env cn epoch key gen st) as H. destruct (submit_epoch_key _ _ _ _ _ _).
    by apply (same_relays_rule st).
  - intros r v status Hr Hs. apply (Hv r v status Hr). by apply (He r v status).
Qed.


(** ** What an accepted report records *)

Lemma dedup_nodup l : NoDup l -> dedup l = l.
Proof.
  induction l as [|a l IH]; [done|]. intros [Ha Hl]%list.NoDup_cons. destruct l as [|b l]; [done|].
  cbn. rewrite bool_decide_false by (intros ->; apply Ha, list_elem_of_here). f_equal. by apply IH.
Qed.

Lemma sort_text_perm l1 l2 : l1 ≡ₚ l2 -> sort_text l1 = sort_text l2.
Proof.
  intros H. unfold sort_text.
  apply (Sorted_unique str_le); [apply Sorted_merge_sort, _..|].
  by rewrite !merge_sort_Permutation.
Qed.

Lemma sort_text_idemp l : sort_text (sort_text l) = sort_text l.
Proof. apply sort_text_perm, merge_sort_Permutation. Qed.

Lemma local_after g eps s r s' :
  NoDup eps -> set_local_candidates g eps s = (Ok r, s') -> local_candidates s' g = sort_text eps.
Proof.
  intros Hnd. unfold set_local_candidates, commit, mbind, tx_bind, get. cbn.
  destruct (active_gateway s g); [|done]. cbv zeta.
  assert (Hd : dedup (sort_text eps) = sort_text eps).
  { apply dedup_nodup. unfold sort_text. by rewrite merge_sort_Permutation. }
  rewrite Hd. case_bool_decide as Heq; [by intros [= _ <-]|]. cbn. intros [= _ <-].
  unfold local_candidates. cbn. rewrite List.filter_app, map_app.
  assert (H1 : List.filter (fun c => gc_gateway c =? g) (List.filter (fun c => negb (gc_gateway c =? g)) (gateway_candidate s)) = []).
  { induction (gateway_candidate s) as [|c l IH]; [done|]. cbn. destruct (Z.eqb_spec (gc_gateway c) g) as [E|E]; cbn; [done|].
    by rewrite (proj2 (Z.eqb_neq _ _) E). }
  assert (H2 : forall l, map gc_endpoint (List.filter (fun c => gc_gateway c =? g)
                 (map (fun e => {| gc_gateway := g; gc_endpoint := e |}) l)) = l).
  { intros l. induction l as [|e l IH]; [done|]. cbn. rewrite Z.eqb_refl. cbn. by rewrite IH. }
  rewrite H1, H2. cbn. apply sort_text_idemp.
Qed.

(** [s'] has the gateways and candidates of [s]. *)
Definition same_gateway_rows (s s' : Store) : Prop := gateway s' = gateway s /\ gateway_candidate s' = gateway_candidate s.

#[export] Instance same_gateway_rows_preorder : PreOrder same_gateway_rows.
Proof. split; [by intros s|]. intros a b c [H1 H2] [H3 H4]. split; congruence. Qed.

Lemma flip_relays_rows env h touched b s : same_gateway_rows s (snd (flip_relays env h touched b s)).
Proof.
  revert b s. induction touched as [|y l IH]; intros b s; [done|]. cbn [flip_relays].
  destruct (ce_fault env (ReadRelay y)); [done|]. destruct (relay_status s y) as [cur|]; [|apply IH].
  case_bool_decide; [apply IH|]. unfold try_db. destruct (ce_fault env (WriteRelay y)); [done|].
  assert (H1 : same_gateway_rows s (snd (set_relay_status y (desired_status h y) s))) by done.
  destruct (set_relay_status y (desired_status h y) s) as [[u|e] s1]; cbn [snd] in H1; [|done].
  etransitivity; [done|apply IH].
Qed.

Lemma report_relays_rows env g votes st : same_gateway_rows (db st) (db (snd (report_relays env g votes st))).
Proof.
  unfold report_relays. destruct votes as [|v votes]; [done|].
  pose proof (flip_relays_rows env (foldl (record_vote g) (relay_health st) (v :: votes)) (touched_relays (v :: votes)) false (db st)) as H.
  destruct (flip_relays _ _ _ _ _) as [[[]|] s']; try done.
  unfold emit_relays_changed. by destruct (ce_fault env ReadRelays).
Qed.

Lemma report_acks_rows env g acks st : same_gateway_rows (db st) (db (report_acks env g acks st)).
Proof.
  unfold report_acks. destruct acks as [|a acks]; [done|]. generalize (touched_gateways (a :: acks)) as l.
  set (st1 := on_world _ st). assert (H : same_gateway_rows (db st) (db st1)) by done. clearbody st1. intros l.
  revert st1 H. induction l as [|x l IH]; intros st1 H; [done|]. cbn. apply IH. by etransitivity.
Qed.

Lemma find_updated f g l :
  (forall r, gw_id (f r) = gw_id r) ->
  List.find (fun r => gw_id r =? g) (update_gateway f g l) = f <$> List.find (fun r => gw_id r =? g) l.
Proof.
  intros Hf. unfold update_gateway. induction l as [|r l IH]; [done|]. cbn.
  destruct (Z.eqb_spec (gw_id r) g) as [E|E]; cbn.
  - by rewrite Hf, E, Z.eqb_refl.
  - by rewrite (proj2 (Z.eqb_neq _ _) E).
Qed.

Lemma applied_after g v s s' :
  set_applied_version g v s = (Ok tt, s') -> (gw_applied_version <$> find_gateway s' g) = Some (Some v).
Proof.
  unfold set_applied_version. destruct (v <? 2 ^ 63); [|done].
  unfold set_on_gateway, commit, mbind, tx_bind, get, ensure. cbn.
  destruct (has_gateway s g) eqn:Hg; [|done]. cbn. intros [= <-]. unfold find_gateway. cbn.
  rewrite find_updated by done. unfold has_gateway in Hg. apply existsb_exists in Hg as (r & Hin & Hr).
  destruct (List.find _ (gateway s)) as [x|] eqn:E; [done|]. pose proof (List.find_none _ _ E r Hin). cbn in *. congruence.
Qed.

Lemma try_db_ok {A : Type} env c (f : Store -> result DbError A * Store) s a s' :
  try_db env c f s = (Ok a, s') -> f s = (Ok a, s').
Proof. unfold try_db. destruct (ce_fault env c); [done|]. destruct (f s) as [[x|e] s1]; by intros [= <- <-]. Qed.

Lemma set_local_gateways g l s : gateway (snd (set_local_candidates g l s)) = gateway s.
Proof.
  unfold set_local_candidates, commit, mbind, tx_bind, get. destruct (active_gateway s g); [|done].
  cbv zeta. by case_bool_decide.
Qed.

Lemma usable_nodup l : NoDup (usable_local_candidates l).
Proof.
  rewrite usable_local_candidates_spec. eapply sublist_NoDup; [apply (firsts_nodup [])|apply sublist_take].
Qed.

(** A report that succeeds came from an active gateway's certificate and from its
    current process; it leaves as that gateway's local candidates exactly the first 32
    distinct IPv4 [ip:port] texts it carried, sorted, whatever else it carried, and
    records the applied version. *)
Theorem report_recorded env cn req st :
  fst (report env cn req st) = Ok tt ->
  let st' := snd (report env cn req st) in
  exists g, caller st cn g /\
    (forall stored, sessions st !! g = Some stored -> stored <> 0 -> rq_session_generation req <> 0 ->
       rq_session_generation req = stored) /\
    local_candidates (db st') g = sort_text (take MAX_LOCAL_CANDIDATES
      (firsts [] (List.filter is_usable_candidate_endpoint (rq_local_endpoints req)))) /\
    (gw_applied_version <$> find_gateway (db st') g) = Some (Some (rq_applied_version req)).
Proof.
  unfold report. destruct (ce_fault env LookUpGateway); [done|].
  destruct (find_gateway_by_name (db st) cn) as [i|] eqn:E; [|done].
  destruct (check_session_generation st (gi_id i) (rq_session_generation req)) eqn:Ec; [|done].
  unfold accept_report. destruct (try_db env RecordApplied _ _) as [[[]|e] s2] eqn:E2; [|done].
  destruct (try_db env RecordCandidates _ s2) as [[r|e] s3] eqn:E3; [|done]. cbn [db set_broker] in E2.
  apply try_db_ok in E2, E3. apply applied_after in E2.
  pose proof (local_after _ _ _ _ _ (usable_nodup _) E3) as L3. rewrite usable_local_candidates_spec in L3.
  pose proof (set_local_gateways (gi_id i) (usable_local_candidates (rq_local_endpoints req)) s2) as G3.
  rewrite E3 in G3. cbn [snd] in G3. set (st3 := candidates_changed env (gi_id i) r _).
  assert (D3 : db st3 = s3).
  { subst st3. unfold candidates_changed. destruct r; [|done]. by destruct (ce_fault env ReadCandidateEvent). }
  clearbody st3. pose proof (report_relays_rows env (gi_id i) (rq_relay_health req) st3) as R4.
  destruct (report_relays env (gi_id i) (rq_relay_health req) st3) as [[u|e] st4]; [|done]. intros _.
  cbn [snd] in *. set (st' := report_acks _ _ _ _). pose proof (report_acks_rows env (gi_id i) (rq_epoch_acks req) st4) as R5.
  fold st' in R5. assert (R : same_gateway_rows s3 (db st')) by (rewrite <- D3; by etransitivity). destruct R as [Rg Rc].
  exists (gi_id i). split_and!; [by exists i| | |].
  - intros stored Hs Hn Hg. unfold check_session_generation, recorded_session_generation in Ec. rewrite Hs in Ec.
    change (default 0 (Some stored)) with stored in Ec.
    by destruct (Z.eqb_spec stored 0), (Z.eqb_spec (rq_session_generation req) 0), (Z.eqb_spec stored (rq_session_generation req)).
  - unfold local_candidates in *. by rewrite Rc.
  - unfold find_gateway in *. by rewrite Rg, G3.
Qed.

(** ** An example *)

Module example.
Definition gwn (id seg : Z) (name : string) : GatewayRec :=
  {| gw_id := id; gw_segment := seg; gw_name := name; gw_status := "active"; gw_applied_version := None;
     gw_observe_key := None; gw_candidate_endpoint := None; gw_version := None; gw_max_ir_schema := None |}.
Definition relay_row (id : Z) : RelayRec :=
  {| rl_id := id; rl_name := "relay"; rl_endpoint := "198.51.100.9:443"; rl_status := "active"; rl_version := None |}.
Definition ex_store : Store :=
  set_relays [relay_row 1; relay_row 2]
    (set_gateways [gwn 1 1 "gw-1"; gwn 2 2 "gw-2"]
      (set_segments [{| sg_id := 1; sg_name := "hq" |}; {| sg_id := 2; sg_name := "dc" |}] empty_store)).
Definition ex_drive : DriveEnv :=
  {| read_at := 0; seed_now := 0; decide_now := 0; write_now := 0; read_fault := false; cas_fault := false;
     emit_fault := false; connected := ∅ |}.
Definition ex_broker : Env := {| clock := fun _ => 0; peers_db := fun _ => None; cands_db := fun _ _ => None |}.
Definition env_with (fault : Call -> bool) : CallEnv :=
  {| ce_fault := fault; ce_broker := ex_broker; ce_ack_faults := fun _ => false; ce_ack_now := 0;
     ce_drive := fun _ => ex_drive |}.
Definition fine : CallEnv := env_with (fun _ => false).
Definition req (gen : Z) (paths : list PeerPath) (votes : list RelayVote) (eps : list string) : ReportRequest :=
  {| rq_applied_version := 3; rq_local_endpoints := eps; rq_relay_health := votes; rq_epoch_acks := [];
     rq_peer_paths := paths; rq_peer_paths_snapshot := true; rq_session_generation := gen |}.
Definition vote (r : Z) (h : bool) : RelayVote := {| rv_relay_id := r; rv_healthy := h |}.
Definition direct (p : Z) : list PeerPath := [{| pp_peer_gateway_id := p; pp_state := "direct" |}].
Definition statuses (st : SyncSvc) : list (option string) := map (relay_status (db st)) [1; 2].

(** The gateway of process 7 restarts as process 8; a report of 7 arrives late. *)
Definition st7 : SyncSvc :=
  svc_run (new_svc ex_store)
    [ WatchCall fine "gw-1" 7 "1.0.0" 1; WatchCall fine "gw-2" 5 "1.0.0" 1;
      ReportCall fine "gw-2" (req 5 (direct 1) [] []); ReportCall fine "gw-1" (req 7 (direct 2) [] []) ].
Definition late : list SvcEvent :=
  [ ReportCall fine "gw-1" (req 7 (direct 2) [] ["10.0.0.1:51820"]); SubmitCall fine "gw-1" 1 "stale-key" 7;
    ReportCall fine "gw-2" (req 5 (direct 1) [] []) ].

Example late_report_ignored :
  let st := svc_run (snd (watch_call fine "gw-1" 8 "1.0.1" 1 st7))
              (BrokerDoes (GatewayConnected ex_broker 1) :: late) in
  pair_settled (broker st7) 1 2 = true /\ pair_settled (broker st) 1 2 = false /\
  local_candidates (db st) 1 = [] /\
  snd (run svc_step (snd (watch_call fine "gw-1" 8 "1.0.1" 1 st7)) late) = [Err FailedPrecondition; Err FailedPrecondition; Ok tt].
Proof. vm_compute. done. Qed.

(** The vote of a drained gateway stays: nobody can evict the relay it called healthy. *)
Example drained_vote_stays :
  let st := svc_run (new_svc ex_store) [ReportCall fine "gw-1" (req 0 [] [vote 1 true] [])] in
  let drained := set_db (set_gateways [with_status "drained" (gwn 1 1 "gw-1"); gwn 2 2 "gw-2"] (db st)) st in
  statuses (svc_run drained [ReportCall fine "gw-2" (req 0 [] [vote 1 false; vote 2 false] [])]) =
    [Some "active"; Some "inactive"].
Proof. vm_compute. done. Qed.

(** The second relay's write fails: the first relay is out, no event says so, and
    the next report finds nothing to announce for it. *)
Example flip_unannounced :
  let bad := env_with (fun c => match c with WriteRelay 2 => true | _ => false end) in
  let st := svc_run (new_svc ex_store) [ReportCall bad "gw-1" (req 0 [] [vote 1 false; vote 2 false] [])] in
  statuses st = [Some "inactive"; Some "active"] /\ published st = [] /\
  published (svc_run st [ReportCall fine "gw-1" (req 0 [] [vote 1 false] [])]) = [].
Proof. vm_compute. done. Qed.



Lemma report_recorded_witness :
  let r := req 0 [] [] ["10.0.0.2:51820"; "fe80::1"; "10.0.0.1:51820"; "10.0.0.2:51820"] in
  let st' := snd (report fine "gw-1" r (new_svc ex_store)) in
  local_candidates (db st') 1 = ["10.0.0.1:51820"; "10.0.0.2:51820"] /\
  exists g, caller (new_svc ex_store) "gw-1" g /\
    (forall stored, sessions (new_svc ex_store) !! g = Some stored -> stored <> 0 -> rq_session_generation r <> 0 ->
       rq_session_generation r = stored) /\
    local_candidates (db st') g = sort_text (take MAX_LOCAL_CANDIDATES
      (firsts [] (List.filter is_usable_candidate_endpoint (rq_local_endpoints r)))) /\
    (gw_applied_version <$> find_gateway (db st') g) = Some (Some (rq_applied_version r)).
Proof.
  intros r st'. split; [by vm_compute|]. apply (report_recorded fine "gw-1" r (new_svc ex_store)). by vm_compute.
Defined.
End example.
