(* ===== verification/GwEpochKeys.v ===== *)
(** * Gateway: the epoch key store

    [crates/wiremesh-gateway/src/epochkeys.rs]: the gateway's own keypairs, one
    per rotation epoch, their way from pending through active to retiring and
    out, and the file they are kept in.  Randomness is an argument (the 32 bytes
    drawn), and so is the outcome of the file system calls of a write.  X25519
    is a parameter.  States are strings, as in the file: a store read from disk
    may hold any. *)
From Stdlib Require Import ZArith Lia Ascii.
From S2P Require Import Prelude StdNet GwUapi.
Open Scope Z_scope.

Record EpochKey : Type := {
  ek_epoch : Z;
  ek_private_key_b64 : string;
  ek_pubkey_b64 : string;
  ek_state : string }.

(** The field [epochs]. *)
Abbreviation EpochKeys := (list EpochKey).

Inductive EpochError : Type :=
| Deriving (e : UapiError)
| CannotMint (epoch : Z) (state : string)
| CannotPromote (epoch : Z)
| CannotRetire (epoch : Z)
| CannotDiscard (epoch : Z)
| PersistFailed.

Definition has_state (st : string) (k : EpochKey) : bool := bool_decide (ek_state k = st).
Definition has_epoch (epoch : Z) (k : EpochKey) : bool := ek_epoch k =? epoch.
Definition other_epoch (epoch : Z) (k : EpochKey) : bool := negb (has_epoch epoch k).
Definition at_state (st : string) (k : EpochKey) : EpochKey :=
  {| ek_epoch := ek_epoch k; ek_private_key_b64 := ek_private_key_b64 k;
     ek_pubkey_b64 := ek_pubkey_b64 k; ek_state := st |}.

Section keys.
(** The public key of 32 private bytes. *)
Context (x25519 : list Z -> list Z).

(** uapi.rs. *)
Definition base64_pub_from_priv (priv_b64 : string) : result UapiError string :=
  raw ← base64_decode priv_b64;
  if (length raw =? 32)%nat then Ok (base64_encode (x25519 raw)) else Err (KeyLength (length raw)).

Definition derive (priv_b64 : string) : result EpochError string :=
  match base64_pub_from_priv priv_b64 with Ok p => Ok p | Err e => Err (Deriving e) end.

Definition epoch_zero (private_key_b64 pubkey_b64 : string) : EpochKey :=
  {| ek_epoch := 0; ek_private_key_b64 := private_key_b64; ek_pubkey_b64 := pubkey_b64; ek_state := "active" |}.

Definition from_legacy (private_key_b64 : string) : result EpochError EpochKeys :=
  pubkey_b64 ← derive private_key_b64;
  Ok [epoch_zero private_key_b64 pubkey_b64].

(** [self.epochs.iter().find(..)] *)
Definition active (ks : EpochKeys) : option EpochKey := List.find (has_state "active") ks.
Definition by_epoch (ks : EpochKeys) (epoch : Z) : option EpochKey := List.find (has_epoch epoch) ks.

(** [raw] is what [OsRng] fills in. *)
Definition generate_next_at (ks : EpochKeys) (epoch : Z) (raw : list Z) :
    result EpochError (EpochKey * EpochKeys) :=
  let refused := match by_epoch ks epoch with
                 | Some occupant => if has_state "pending" occupant then None else Some (ek_state occupant)
                 | None => None
                 end in
  match refused with
  | Some st => Err (CannotMint epoch st)
  | None =>
      let private_key_b64 := base64_encode raw in
      pubkey_b64 ← derive private_key_b64;
      let key := {| ek_epoch := epoch; ek_private_key_b64 := private_key_b64; ek_pubkey_b64 := pubkey_b64;
                    ek_state := "pending" |} in
      Ok (key, List.filter (other_epoch epoch) ks ++ [key])
  end.

(** The guard of the three transitions. *)
Definition is_at (ks : EpochKeys) (epoch : Z) (st : string) : bool :=
  existsb (fun k => has_epoch epoch k && has_state st k) ks.

Definition demote (k : EpochKey) : EpochKey := if has_state "active" k then at_state "retiring" k else k.

(** [iter_mut().find(..)]: the first entry of the epoch. *)
Fixpoint set_first (p : EpochKey -> bool) (f : EpochKey -> EpochKey) (ks : EpochKeys) : EpochKeys :=
  match ks with
  | [] => []
  | k :: ks' => if p k then f k :: ks' else k :: set_first p f ks'
  end.

Definition promote (ks : EpochKeys) (epoch : Z) : result EpochError EpochKeys :=
  if negb (is_at ks epoch "pending") then Err (CannotPromote epoch)
  else Ok (set_first (has_epoch epoch) (at_state "active") (map demote ks)).

Definition retire (ks : EpochKeys) (epoch : Z) : result EpochError EpochKeys :=
  if negb (is_at ks epoch "retiring") then Err (CannotRetire epoch)
  else Ok (List.filter (other_epoch epoch) ks).

Definition discard_pending (ks : EpochKeys) (epoch : Z) : result EpochError EpochKeys :=
  if negb (is_at ks epoch "pending") then Err (CannotDiscard epoch)
  else Ok (List.filter (other_epoch epoch) ks).

Definition select_boot_key (store : option EpochKeys) (legacy_priv_b64 : string) : result EpochError EpochKey :=
  match store ≫= active with
  | Some k => Ok k
  | None =>
      pubkey_b64 ← derive legacy_priv_b64;
      Ok (epoch_zero legacy_priv_b64 pubkey_b64)
  end.

(** ** The file

    [persist] writes a temporary file, renames it over [epoch_keys.json] and
    syncs the directory: it can fail before the rename, and after it. *)
Inductive WriteOutcome : Type := Written | FailedBefore | FailedAfter.

Definition persist (o : WriteOutcome) (ks : EpochKeys) (disk : option EpochKeys) :
    result EpochError unit * option EpochKeys :=
  match o with
  | Written => (Ok tt, Some ks)
  | FailedBefore => (Err PersistFailed, disk)
  | FailedAfter => (Err PersistFailed, Some ks)
  end.
End keys.

(** ** The invariant

    One entry per epoch and one active entry. *)

Definition epochs_of (ks : EpochKeys) : list Z := map ek_epoch ks.

Record keys_ok (ks : EpochKeys) : Prop := {
  ko_epochs : NoDup (epochs_of ks);
  ko_active : forall k1 k2, k1 ∈ ks -> k2 ∈ ks -> ek_state k1 = "active" -> ek_state k2 = "active" -> k1 = k2 }.

Lemma is_at_spec ks epoch st :
  is_at ks epoch st = true <-> exists k, k ∈ ks /\ ek_epoch k = epoch /\ ek_state k = st.
Proof.
  unfold is_at. rewrite existsb_iff. unfold has_epoch, has_state.
  setoid_rewrite andb_true_iff. setoid_rewrite Z.eqb_eq. by setoid_rewrite bool_decide_eq_true.
Qed.

Lemma elem_of_filter_b {A : Type} (p : A -> bool) l x : x ∈ List.filter p l <-> x ∈ l /\ p x = true.
Proof. rewrite !list_elem_of_In. apply List.filter_In. Qed.

Lemma elem_of_other_epoch ks epoch k : k ∈ List.filter (other_epoch epoch) ks <-> k ∈ ks /\ ek_epoch k <> epoch.
Proof. rewrite elem_of_filter_b. unfold other_epoch, has_epoch. by rewrite negb_true_iff, Z.eqb_neq. Qed.

Lemma by_epoch_spec ks epoch k :
  NoDup (epochs_of ks) -> by_epoch ks epoch = Some k <-> k ∈ ks /\ ek_epoch k = epoch.
Proof.
  intros Hnd. unfold by_epoch. split.
  - intros [Hin E%Z.eqb_eq]%List.find_some. by rewrite list_elem_of_In.
  - intros [Hin E]. destruct (List.find (has_epoch epoch) ks) as [k'|] eqn:Ef.
    + apply List.find_some in Ef as [Hin' E'%Z.eqb_eq]. rewrite <- list_elem_of_In in Hin'. f_equal.
      eapply (NoDup_map_inv ek_epoch); [exact Hnd|done..|congruence].
    + rewrite find_none_iff, list.Forall_forall in Ef. specialize (Ef k Hin). unfold has_epoch in Ef. lia.
Qed.

Lemma active_spec ks k : keys_ok ks -> active ks = Some k <-> k ∈ ks /\ ek_state k = "active".
Proof.
  intros Hok. unfold active. split.
  - intros [Hin E%bool_decide_eq_true]%List.find_some. by rewrite list_elem_of_In.
  - intros [Hin E]. destruct (List.find (has_state "active") ks) as [k'|] eqn:Ef.
    + apply List.find_some in Ef as [Hin' E'%bool_decide_eq_true]. rewrite <- list_elem_of_In in Hin'. f_equal.
      by eapply ko_active.
    + rewrite find_none_iff, list.Forall_forall in Ef. specialize (Ef k Hin). unfold has_state in Ef.
      by rewrite bool_decide_eq_true_2 in Ef.
Qed.

Lemma epochs_filter ks epoch : NoDup (epochs_of ks) -> NoDup (epochs_of (List.filter (other_epoch epoch) ks)).
Proof.
  unfold epochs_of. induction ks as [|k ks IH]; cbn; [done|]. intros [Hk Hnd]%list.NoDup_cons.
  destruct (other_epoch epoch k); cbn; [|by apply IH]. apply list.NoDup_cons. split; [|by apply IH].
  intros (k' & E & Hk')%list_elem_of_fmap. apply Hk. apply list_elem_of_fmap.
  apply elem_of_filter_b in Hk' as [Hk' _]. by exists k'.
Qed.

Lemma remove_epoch_ok ks epoch : keys_ok ks -> keys_ok (List.filter (other_epoch epoch) ks).
Proof.
  intros Hok. split; [by apply epochs_filter, ko_epochs|]. intros k1 k2 [H1 _]%elem_of_other_epoch [H2 _]%elem_of_other_epoch.
  by eapply ko_active.
Qed.

Lemma generate_spec x25519 ks epoch raw key ks' :
  generate_next_at x25519 ks epoch raw = Ok (key, ks') ->
  ek_epoch key = epoch /\ ek_state key = "pending" /\ ek_private_key_b64 key = base64_encode raw /\
  ks' = List.filter (other_epoch epoch) ks ++ [key] /\
  (forall k, by_epoch ks epoch = Some k -> ek_state k = "pending").
Proof.
  unfold generate_next_at. destruct (by_epoch ks epoch) as [occ|] eqn:E.
  - unfold has_state at 1. case_bool_decide; [|done]. destruct (derive _ _); [|done]. cbn.
    intros [= <- <-]. split_and!; try done. by intros k [= <-].
  - destruct (derive _ _); [|done]. cbn. intros [= <- <-]. by split_and!.
Qed.

Lemma generate_ok x25519 ks epoch raw key ks' :
  keys_ok ks -> generate_next_at x25519 ks epoch raw = Ok (key, ks') -> keys_ok ks'.
Proof.
  intros Hok (He & Hs & _ & -> & _)%generate_spec. split.
  - unfold epochs_of. rewrite map_app. apply list.NoDup_app. split; [by apply epochs_filter, ko_epochs|]. split.
    + intros x (k & -> & [_ Hk]%elem_of_other_epoch)%list_elem_of_fmap. cbn.
      intros E%list_elem_of_singleton. congruence.
    + apply NoDup_singleton.
  - intros k1 k2. rewrite !elem_of_app, !list_elem_of_singleton, !elem_of_other_epoch.
    intros [[H1 _] | ->] [[H2 _] | ->] S1 S2; try congruence. by eapply ko_active.
Qed.

Lemma promote_spec ks epoch ks' :
  keys_ok ks -> promote ks epoch = Ok ks' ->
  is_at ks epoch "pending" = true /\
  forall k, k ∈ ks' <-> exists k0, k0 ∈ ks /\
    k = (if has_epoch epoch k0 then at_state "active" k0 else demote k0).
Proof.
  intros Hok. unfold promote. destruct (is_at ks epoch "pending") eqn:E; [|done]. cbn. intros [= <-].
  split; [done|]. apply is_at_spec in E as (p & Hp & Hpe & Hps).
  destruct Hok as [Hnd _]. clear -Hnd. intros k.
  assert (forall k, has_epoch epoch (demote k) = has_epoch epoch k) as Hd.
  { intros k0. unfold demote. by destruct (has_state _ k0). }
  assert (forall k, at_state "active" (demote k) = at_state "active" k) as Ha.
  { intros k0. unfold demote. by destruct (has_state _ k0). }
  induction ks as [|k0 ks IH]; cbn.
  { split; [by intros ?%elem_of_nil|]. by intros (? & ?%elem_of_nil & _). }
  cbn in Hnd. apply list.NoDup_cons in Hnd as [Hk0 Hnd]. specialize (IH Hnd).
  rewrite Hd. destruct (has_epoch epoch k0) eqn:E0.
  - rewrite Ha, elem_of_cons. setoid_rewrite elem_of_cons. unfold has_epoch in E0. apply Z.eqb_eq in E0. split.
    + intros [-> | (k1 & -> & Hk1)%list_elem_of_fmap].
      * exists k0. split; [by left|]. unfold has_epoch. by rewrite E0, Z.eqb_refl.
      * exists k1. split; [by right|]. destruct (has_epoch epoch k1) eqn:E1; [|done].
        destruct Hk0. apply Z.eqb_eq in E1. rewrite E0, <- E1. apply list_elem_of_fmap. by exists k1.
    + intros (k1 & [-> | Hk1] & ->).
      * left. unfold has_epoch. by rewrite E0, Z.eqb_refl.
      * right. destruct (has_epoch epoch k1) eqn:E1.
        -- destruct Hk0. apply Z.eqb_eq in E1. rewrite E0, <- E1. apply list_elem_of_fmap. by exists k1.
        -- apply list_elem_of_fmap. by exists k1.
  - rewrite elem_of_cons, IH. setoid_rewrite elem_of_cons. split.
    + intros [-> | (k1 & Hk1 & ->)]; [exists k0; rewrite E0; auto|exists k1; auto].
    + intros (k1 & [-> | Hk1] & ->); [rewrite E0; by left|right; eauto].
Qed.

Lemma epochs_map f ks : (forall k, ek_epoch (f k) = ek_epoch k) -> epochs_of (map f ks) = epochs_of ks.
Proof. intros Hf. unfold epochs_of. rewrite map_map. by apply map_ext. Qed.

Lemma epochs_set_first p f ks : (forall k, ek_epoch (f k) = ek_epoch k) -> epochs_of (set_first p f ks) = epochs_of ks.
Proof.
  intros Hf. unfold epochs_of. induction ks as [|k ks IH]; cbn; [done|]. destruct (p k); cbn; [by rewrite Hf|by rewrite IH].
Qed.

Lemma demote_epoch k : ek_epoch (demote k) = ek_epoch k.
Proof. unfold demote. by destruct (has_state _ k). Qed.

Lemma demote_not_active k : ek_state (demote k) <> "active".
Proof. unfold demote, has_state. by case_bool_decide. Qed.

Lemma promote_epochs ks epoch ks' : promote ks epoch = Ok ks' -> epochs_of ks' = epochs_of ks.
Proof.
  unfold promote. destruct (is_at ks epoch "pending"); [|done]. intros [= <-].
  rewrite epochs_set_first by done. apply epochs_map, demote_epoch.
Qed.

Lemma promote_ok ks epoch ks' : keys_ok ks -> promote ks epoch = Ok ks' -> keys_ok ks'.
Proof.
  intros Hok Hp. split; [rewrite (promote_epochs _ _ _ Hp); by apply ko_epochs|].
  pose proof Hok as [Hnd _]. apply promote_spec in Hp as [_ Hin]; [|done].
  intros k1 k2 (a & Ha & E1)%Hin (b & Hb & E2)%Hin S1 S2.
  assert (forall a k, k = (if has_epoch epoch a then at_state "active" a else demote a) -> ek_state k = "active" ->
    has_epoch epoch a = true) as Hwho.
  { intros c k -> Hs. destruct (has_epoch epoch c); [done|]. by apply demote_not_active in Hs. }
  pose proof (Hwho _ _ E1 S1) as Ha1. pose proof (Hwho _ _ E2 S2) as Hb1.
  rewrite Ha1 in E1. rewrite Hb1 in E2. apply Z.eqb_eq in Ha1, Hb1.
  assert (a = b) as -> by (eapply (NoDup_map_inv ek_epoch); [exact Hnd|done..|congruence]). congruence.
Qed.

(** After a promotion the promoted entry is the active one. *)
Lemma promote_active ks epoch ks' k :
  keys_ok ks -> promote ks epoch = Ok ks' -> by_epoch ks epoch = Some k ->
  active ks' = Some (at_state "active" k).
Proof.
  intros Hok Hp Hk. pose proof (promote_ok _ _ _ Hok Hp) as Hok'. apply active_spec; [done|]. split; [|done].
  apply promote_spec in Hp as [_ Hin]; [|done]. apply Hin. apply by_epoch_spec in Hk as [Hk He]; [|apply Hok].
  exists k. split; [done|]. unfold has_epoch. by rewrite He, Z.eqb_refl.
Qed.

Lemma active_remove ks epoch k :
  keys_ok ks -> active ks = Some k -> ek_epoch k <> epoch -> active (List.filter (other_epoch epoch) ks) = Some k.
Proof.
  intros Hok Hk Hne. apply active_spec; [by apply remove_epoch_ok|]. apply active_spec in Hk as [Hk Hs]; [|done].
  split; [|done]. by apply elem_of_other_epoch.
Qed.

Lemma by_epoch_remove ks epoch : by_epoch (List.filter (other_epoch epoch) ks) epoch = None.
Proof.
  apply find_none_iff, list.Forall_forall. intros k [_ Hk]%elem_of_other_epoch. unfold has_epoch. lia.
Qed.

Lemma by_epoch_remove_other ks epoch e : e <> epoch ->
  by_epoch (List.filter (other_epoch epoch) ks) e = by_epoch ks e.
Proof.
  intros Hne. unfold by_epoch. induction ks as [|k ks IH]; cbn; [done|].
  destruct (other_epoch epoch k) eqn:E; cbn; rewrite IH; [done|].
  unfold other_epoch, has_epoch in *. destruct (Z.eqb_spec (ek_epoch k) e); [|done]. subst. lia.
Qed.
