(* ===== verification/GwTunnelset.v ===== *)
(** * Gateway: the set of live devices

    [crates/wiremesh-gateway/src/tunnelset.rs]: the identities of the devices a
    gateway runs during rotations, the planner that derives interface name and
    port for a new one, and the set itself with its quarantine of recently
    released names and ports.  Creating a device, its first configuration and a
    rebind are the environment: they succeed or fail.  [std::process] runs of
    [ip link del] are best effort and only logged. *)
From Stdlib Require Import ZArith Lia Ascii.
From S2P Require Import EnfGenerations.
From S2P Require Import Prelude StdNet GwUapi GwReconcile.
Open Scope Z_scope.

Inductive TunnelId : Type :=
| Own (epoch : Z)
| Overlap (gateway_id epoch : Z).

#[export] Instance TunnelId_eq_dec : EqDecision TunnelId.
Proof. solve_decision. Defined.

#[export] Instance TunnelId_countable : Countable TunnelId.
Proof.
  refine (inj_countable' (fun i => match i with Own e => inl e | Overlap g e => inr (g, e) end)
            (fun x => match x with inl e => Own e | inr (g, e) => Overlap g e end) _).
  by intros [].
Defined.

Record TunnelPlan : Type := { tp_id : TunnelId; tp_ifname : string; tp_listen_port : Z }.

Definition OWN_MARK : string := "e".
Definition OVERLAP_MARK : string := "o".
Definition MAX_ROTATION_TUNS : Z := 64.
Definition QUARANTINE : Z := secs 5.
Definition MAX_QUARANTINE : nat := 32.

Inductive TunnelError : Type :=
| InvalidIface (ifname : string)
| NameReserved (ifname : string)
| NoSlot
| OwnPortTaken
| NoPort
| AlreadyUp (id : TunnelId)
| Collides (id : TunnelId)
| DeviceFailed
| NoTunnel (id : TunnelId).

(** ** The planner *)

Definition name_taken (live : list TunnelPlan) (name : string) : bool :=
  existsb (fun p => bool_decide (tp_ifname p = name)) live.
Definition port_taken (live : list TunnelPlan) (port : Z) : bool :=
  existsb (fun p => tp_listen_port p =? port) live.

Definition slot_name (base_tun : string) (slot : Z) : string := base_tun +:+ OVERLAP_MARK +:+ show_uint slot.

Fixpoint plan_slot (base_tun : string) (live : list TunnelPlan) (slots : list Z) : result TunnelError string :=
  match slots with
  | [] => Err NoSlot
  | slot :: rest =>
      let ifname := slot_name base_tun slot in
      if negb (validate_iface ifname) then Err (InvalidIface ifname)
      else if negb (name_taken live ifname) then Ok ifname
      else plan_slot base_tun live rest
  end.

Definition slots : list Z := seqZ 0 MAX_ROTATION_TUNS.

Definition plan_ifname (id : TunnelId) (base_tun : string) (live : list TunnelPlan) : result TunnelError string :=
  match id with
  | Own epoch =>
      let ifname := base_tun +:+ OWN_MARK +:+ show_uint epoch in
      if negb (validate_iface ifname) then Err (InvalidIface ifname)
      else if name_taken live ifname then Err (NameReserved ifname)
      else Ok ifname
  | Overlap _ _ => plan_slot base_tun live slots
  end.

(** [OWN_TUN_PORT_OFFSET + 1 ..= MAX_ROTATION_TUNS] *)
Definition overlap_offsets : list Z := seqZ (OWN_TUN_PORT_OFFSET + 1) (MAX_ROTATION_TUNS - OWN_TUN_PORT_OFFSET).

Definition plan_port (id : TunnelId) (base_port : Z) (live : list TunnelPlan) : option Z :=
  match id with
  | Own _ =>
      port ← checked_add 16 base_port OWN_TUN_PORT_OFFSET;
      if port_taken live port then None else Some port
  | Overlap _ _ =>
      List.find (fun port => negb (port_taken live port)) (omap (checked_add 16 base_port) overlap_offsets)
  end.

Definition plan_tunnel (id : TunnelId) (base_tun : string) (base_port : Z) (live : list TunnelPlan) :
    result TunnelError TunnelPlan :=
  ifname ← plan_ifname id base_tun live;
  match plan_port id base_port live with
  | None => Err (match id with Own _ => OwnPortTaken | Overlap _ _ => NoPort end)
  | Some listen_port => Ok {| tp_id := id; tp_ifname := ifname; tp_listen_port := listen_port |}
  end.

(** ** The set *)

Record Tunnel : Type := { t_ifname : string; t_private_key_b64 : string; t_listen_port : Z }.

Record TunnelSet : Type := {
  ts_tunnels : gmap TunnelId Tunnel;
  ts_quarantine : list (TunnelPlan * Z) }.

Definition no_tunnels : TunnelSet := {| ts_tunnels := ∅; ts_quarantine := [] |}.

Definition collision (ts : TunnelSet) (ifname : string) (listen_port : Z) : bool :=
  existsb (fun '(_, t) => bool_decide (t_ifname t = ifname) || (t_listen_port t =? listen_port))
    (map_to_list (ts_tunnels ts)).

(** [up] and [applied]: what [Tunnel::up] and the first UAPI write return. *)
Definition bring_up (up applied : bool) (id : TunnelId) (ifname private_key_b64 : string) (listen_port : Z)
    (ts : TunnelSet) : result TunnelError TunnelSet :=
  match ts_tunnels ts !! id with
  | Some _ => Err (AlreadyUp id)
  | None =>
      if collision ts ifname listen_port then Err (Collides id)
      else if negb (up && applied) then Err DeviceFailed
      else Ok {| ts_tunnels := <[id := {| t_ifname := ifname; t_private_key_b64 := private_key_b64;
                                         t_listen_port := listen_port |}]> (ts_tunnels ts);
                 ts_quarantine := List.filter (fun '(p, _) =>
                     negb (bool_decide (tp_id p = id)) && negb (bool_decide (tp_ifname p = ifname)) &&
                     negb (tp_listen_port p =? listen_port)) (ts_quarantine ts) |}
  end.

Definition in_quarantine (now : Z) (q : TunnelPlan * Z) : bool := sat_sub now (snd q) <? QUARANTINE.

Definition prune_quarantine (now : Z) (q : list (TunnelPlan * Z)) : list (TunnelPlan * Z) :=
  let live := List.filter (in_quarantine now) q in drop (length live - MAX_QUARANTINE) live.

Definition tear_down (now : Z) (id : TunnelId) (ts : TunnelSet) : TunnelSet :=
  match ts_tunnels ts !! id with
  | None => ts
  | Some t =>
      {| ts_tunnels := delete id (ts_tunnels ts);
         ts_quarantine := prune_quarantine now (ts_quarantine ts ++
           [({| tp_id := id; tp_ifname := t_ifname t; tp_listen_port := t_listen_port t |}, now)]) |}
  end.

Definition with_port (port : Z) (t : Tunnel) : Tunnel :=
  {| t_ifname := t_ifname t; t_private_key_b64 := t_private_key_b64 t; t_listen_port := port |}.

(** [moved]: what the UAPI rebind returns. *)
Definition set_listen_port (moved : bool) (id : TunnelId) (port : Z) (ts : TunnelSet) : result TunnelError TunnelSet :=
  match ts_tunnels ts !! id with
  | None => Err (NoTunnel id)
  | Some t =>
      if t_listen_port t =? port then Ok ts
      else if existsb (fun '(k, t) => negb (bool_decide (k = id)) && (t_listen_port t =? port))
                (map_to_list (ts_tunnels ts)) then Err (Collides id)
      else if negb moved then Err DeviceFailed
      else Ok {| ts_tunnels := <[id := with_port port t]> (ts_tunnels ts);
                 ts_quarantine := List.filter (fun '(p, _) => negb (tp_listen_port p =? port)) (ts_quarantine ts) |}
  end.

(** The derived order of ids: [Own] before [Overlap], then by the fields. *)
Definition id_fields (id : TunnelId) : Z * Z * Z :=
  match id with Own e => (0, e, 0) | Overlap g e => (1, g, e) end.

Definition id_lt (a b : TunnelId) : bool :=
  let '(a1, a2, a3) := id_fields a in
  let '(b1, b2, b3) := id_fields b in
  (a1 <? b1) || ((a1 =? b1) && ((a2 <? b2) || ((a2 =? b2) && (a3 <? b3)))).

Definition plan_le (p q : TunnelPlan) : Prop :=
  id_lt (tp_id p) (tp_id q) = true \/
  tp_id p = tp_id q /\
  (String.ltb (tp_ifname p) (tp_ifname q) = true \/
   tp_ifname p = tp_ifname q /\ tp_listen_port p <= tp_listen_port q).

#[export] Instance plan_le_dec : RelDecision plan_le.
Proof. intros p q. unfold plan_le. apply _. Defined.

Definition plan_of (kt : TunnelId * Tunnel) : TunnelPlan :=
  {| tp_id := kt.1; tp_ifname := t_ifname kt.2; tp_listen_port := t_listen_port kt.2 |}.

Definition plans (now : Z) (ts : TunnelSet) : list TunnelPlan :=
  sorting.merge_sort plan_le
    (map plan_of (map_to_list (ts_tunnels ts)) ++ map fst (List.filter (in_quarantine now) (ts_quarantine ts))).

(** ** Distinct names and ports *)

Definition live_tun (ts : TunnelSet) (id : TunnelId) (t : Tunnel) : Prop := ts_tunnels ts !! id = Some t.

Record tunnels_ok (ts : TunnelSet) : Prop := {
  to_names : forall i j t u, live_tun ts i t -> live_tun ts j u -> t_ifname t = t_ifname u -> i = j;
  to_ports : forall i j t u, live_tun ts i t -> live_tun ts j u -> t_listen_port t = t_listen_port u -> i = j;
  to_quarantine : (length (ts_quarantine ts) <= MAX_QUARANTINE)%nat }.

Lemma collision_false ts ifname port :
  collision ts ifname port = false <->
  forall i t, live_tun ts i t -> t_ifname t <> ifname /\ t_listen_port t <> port.
Proof.
  unfold collision, live_tun. rewrite <- not_true_iff_false, existsb_iff. split.
  - intros H i t Ht. split; intros E; apply H; exists (i, t); split; try by apply elem_of_map_to_list.
    + by rewrite bool_decide_eq_true_2.
    + rewrite E, Z.eqb_refl. apply orb_true_r.
  - intros H ((i & t) & Ht%elem_of_map_to_list & Hb). destruct (H i t Ht) as [Hn Hp].
    apply orb_true_iff in Hb as [Hb%bool_decide_eq_true | Hb%Z.eqb_eq]; done.
Qed.

Lemma length_filter_le_b {A : Type} (p : A -> bool) l : (length (List.filter p l) <= length l)%nat.
Proof. induction l as [|x l IH]; cbn; [done|]. destruct (p x); cbn; lia. Qed.

Lemma bring_up_spec up applied id ifname priv port ts ts' :
  bring_up up applied id ifname priv port ts = Ok ts' ->
  ts_tunnels ts !! id = None /\
  ts_tunnels ts' = <[id := {| t_ifname := ifname; t_private_key_b64 := priv; t_listen_port := port |}]> (ts_tunnels ts) /\
  (forall i t, live_tun ts i t -> t_ifname t <> ifname /\ t_listen_port t <> port) /\
  (length (ts_quarantine ts') <= length (ts_quarantine ts))%nat.
Proof.
  unfold bring_up. destruct (ts_tunnels ts !! id) eqn:E; [done|].
  destruct (collision ts ifname port) eqn:Ec; [done|]. destruct (negb (up && applied)); [done|].
  intros [= <-]. split_and!; [done|done|by apply collision_false|apply length_filter_le_b].
Qed.

Lemma bring_up_ok up applied id ifname priv port ts ts' :
  tunnels_ok ts -> bring_up up applied id ifname priv port ts = Ok ts' -> tunnels_ok ts'.
Proof.
  intros [Hn Hp Hq] (Hid & E & Hfree & Hlen)%bring_up_spec.
  assert (forall i t, live_tun ts' i t -> (i = id /\ t_ifname t = ifname /\ t_listen_port t = port) \/
    (i <> id /\ live_tun ts i t)) as Hlive.
  { intros i t. unfold live_tun. rewrite E, lookup_insert_Some. intros [[<- <-] | [? ?]]; auto. }
  split; [| |lia].
  - intros i j t u [(-> & E1 & _) | [_ Hi]]%Hlive [(-> & E2 & _) | [_ Hj]]%Hlive Heq; [done|..].
    + by destruct (proj1 (Hfree _ _ Hj)); congruence.
    + by destruct (proj1 (Hfree _ _ Hi)); congruence.
    + by eapply Hn.
  - intros i j t u [(-> & _ & E1) | [_ Hi]]%Hlive [(-> & _ & E2) | [_ Hj]]%Hlive Heq; [done|..].
    + by destruct (proj2 (Hfree _ _ Hj)); congruence.
    + by destruct (proj2 (Hfree _ _ Hi)); congruence.
    + by eapply Hp.
Qed.

Lemma prune_length now q : (length (prune_quarantine now q) <= MAX_QUARANTINE)%nat.
Proof. unfold prune_quarantine. rewrite length_drop. lia. Qed.

Lemma tear_down_tunnels now id ts : ts_tunnels (tear_down now id ts) = delete id (ts_tunnels ts).
Proof.
  unfold tear_down. destruct (ts_tunnels ts !! id) eqn:E; [done|]. by rewrite delete_id.
Qed.

Lemma tear_down_ok now id ts : tunnels_ok ts -> tunnels_ok (tear_down now id ts).
Proof.
  intros [Hn Hp Hq].
  assert (forall i t, live_tun (tear_down now id ts) i t -> live_tun ts i t) as Hlive.
  { intros i t. unfold live_tun. rewrite tear_down_tunnels, lookup_delete_Some. tauto. }
  split.
  - intros i j t u Hi Hj. eapply Hn; by apply Hlive.
  - intros i j t u Hi Hj. eapply Hp; by apply Hlive.
  - unfold tear_down. destruct (ts_tunnels ts !! id); [apply prune_length|done].
Qed.

Lemma set_listen_port_spec moved id port ts ts' :
  set_listen_port moved id port ts = Ok ts' ->
  exists t, ts_tunnels ts !! id = Some t /\ ts_tunnels ts' = <[id := with_port port t]> (ts_tunnels ts) /\
    (forall i u, i <> id -> live_tun ts i u -> tunnels_ok ts -> t_listen_port u <> port) /\
    (length (ts_quarantine ts') <= length (ts_quarantine ts))%nat.
Proof.
  unfold set_listen_port. destruct (ts_tunnels ts !! id) as [t|] eqn:E; [|done].
  destruct (Z.eqb_spec (t_listen_port t) port) as [Ep|Ep].
  { intros [= <-]. exists t. split_and!; [done| | |done].
    - rewrite insert_id; [done|]. rewrite E. by destruct t; subst.
    - intros i u Hi Hu Hok Eu. apply Hi. eapply (to_ports ts Hok); [exact Hu|exact E|congruence]. }
  destruct (existsb _ _) eqn:Ex; [done|]. destruct moved; [|done]. intros [= <-]. exists t.
  split_and!; [done|done| |apply length_filter_le_b].
  intros i u Hi Hu _ Eu. rewrite <- not_true_iff_false, existsb_iff in Ex. apply Ex. exists (i, u).
  split; [by apply elem_of_map_to_list|]. by rewrite bool_decide_eq_false_2, Eu, Z.eqb_refl.
Qed.

Lemma set_listen_port_ok moved id port ts ts' :
  tunnels_ok ts -> set_listen_port moved id port ts = Ok ts' -> tunnels_ok ts'.
Proof.
  intros Hok (t & Ht & E & Hfree & Hlen)%set_listen_port_spec. pose proof Hok as [Hn Hp Hq].
  assert (forall i u, live_tun ts' i u -> exists u0, live_tun ts i u0 /\ t_ifname u = t_ifname u0 /\
    t_listen_port u = if bool_decide (i = id) then port else t_listen_port u0) as Hlive.
  { intros i u. unfold live_tun. rewrite E, lookup_insert_Some. intros [[<- <-] | [Hne Hu]].
    - exists t. by rewrite bool_decide_eq_true_2.
    - exists u. by rewrite bool_decide_eq_false_2. }
  split; [| |lia].
  - intros i j u v (u0 & Hu & Eu & _)%Hlive (v0 & Hv & Ev & _)%Hlive Heq. eapply Hn; [exact Hu|exact Hv|congruence].
  - intros i j u v (u0 & Hu & _ & Eu)%Hlive (v0 & Hv & _ & Ev)%Hlive Heq.
    destruct (bool_decide_reflect (i = id)) as [-> | Hi], (bool_decide_reflect (j = id)) as [-> | Hj].
    + done.
    + by destruct (Hfree _ _ Hj Hv Hok); congruence.
    + by destruct (Hfree _ _ Hi Hu Hok); congruence.
    + eapply Hp; [exact Hu|exact Hv|congruence].
Qed.

(** ** What the planner promises *)

Lemma ok_inj {E A : Type} (a b : A) : @Ok E A a = Ok b -> a = b.
Proof. congruence. Qed.

Lemma name_taken_false live name : name_taken live name = false <-> name ∉ map tp_ifname live.
Proof.
  unfold name_taken. rewrite <- not_true_iff_false, existsb_iff, list_elem_of_fmap.
  setoid_rewrite bool_decide_eq_true. naive_solver.
Qed.

Lemma port_taken_false live port : port_taken live port = false <-> port ∉ map tp_listen_port live.
Proof.
  unfold port_taken. rewrite <- not_true_iff_false, existsb_iff, list_elem_of_fmap.
  setoid_rewrite Z.eqb_eq. naive_solver.
Qed.

Lemma plan_slot_spec base live ss name :
  plan_slot base live ss = Ok name ->
  validate_iface name = true /\ name ∉ map tp_ifname live /\ exists slot, slot ∈ ss /\ name = slot_name base slot.
Proof.
  induction ss as [|slot ss IH]; cbn; [done|]. destruct (validate_iface (slot_name base slot)) eqn:Ev; cbn; [|done].
  destruct (name_taken live (slot_name base slot)) eqn:Et; cbn.
  - intros (H1 & H2 & s & H3 & H4)%IH. split_and!; [done..|]. exists s. split; [by right|done].
  - intros [= <-]. split_and!; [done|by apply name_taken_false|]. exists slot. split; [by left|done].
Qed.

(** The names the planner can hand out. *)
Definition name_of_kind (id : TunnelId) (base name : string) : Prop :=
  match id with
  | Own epoch => name = base +:+ OWN_MARK +:+ show_uint epoch
  | Overlap _ _ => exists slot, 0 <= slot < MAX_ROTATION_TUNS /\ name = slot_name base slot
  end.

(** Its ports: the reserved one, or the window above it. *)
Definition port_of_kind (id : TunnelId) (base_port port : Z) : Prop :=
  match id with
  | Own _ => port = base_port + OWN_TUN_PORT_OFFSET
  | Overlap _ _ => base_port + OWN_TUN_PORT_OFFSET < port <= base_port + MAX_ROTATION_TUNS
  end.

Lemma checked_add_spec w x y z : checked_add w x y = Some z -> z = x + y /\ z < 2 ^ w.
Proof. unfold checked_add. case_match; [|done]. intros [= <-]. bool_to_prop. lia. Qed.

Lemma plan_spec id base base_port live p :
  plan_tunnel id base base_port live = Ok p ->
  tp_id p = id /\ validate_iface (tp_ifname p) = true /\
  tp_ifname p ∉ map tp_ifname live /\ tp_listen_port p ∉ map tp_listen_port live /\
  name_of_kind id base (tp_ifname p) /\ port_of_kind id base_port (tp_listen_port p) /\ tp_listen_port p < 2 ^ 16.
Proof.
  unfold plan_tunnel. intros H. apply bind_ok in H as (name & Hname & H).
  destruct (plan_port id base_port live) as [port|] eqn:Ep; [|done]. injection H as <-. cbn.
  assert (validate_iface name = true /\ name ∉ map tp_ifname live /\ name_of_kind id base name) as (H1 & H2 & H3).
  { destruct id as [e | g e]; cbn in Hname.
    - destruct (validate_iface _) eqn:Ev; [|done]. cbn in Hname. destruct (name_taken _ _) eqn:Et; [done|].
      apply ok_inj in Hname as <-. by apply name_taken_false in Et.
    - apply plan_slot_spec in Hname as (? & ? & s & Hs & ->). split_and!; [done..|]. exists s. split; [|done].
      apply elem_of_seqZ in Hs. unfold MAX_ROTATION_TUNS in *. lia. }
  assert (port ∉ map tp_listen_port live /\ port_of_kind id base_port port /\ port < 2 ^ 16) as (H4 & H5 & H6).
  { destruct id as [e | g e]; cbn in Ep.
    - destruct (checked_add _ _ _) as [q|] eqn:Ec; [|done]. cbn in Ep. destruct (port_taken live q) eqn:Et; [done|].
      injection Ep as <-. apply checked_add_spec in Ec. apply port_taken_false in Et. done.
    - apply List.find_some in Ep as [Hin Hb%negb_true_iff%port_taken_false]. split; [done|].
      apply list_elem_of_In, list_elem_of_omap in Hin as (off & Hoff & Hc%checked_add_spec).
      apply elem_of_seqZ in Hoff. cbn. unfold MAX_ROTATION_TUNS, OWN_TUN_PORT_OFFSET in *. lia. }
  by split_and!.
Qed.

(** A planned device never meets the set's collision check. *)
Lemma elem_of_plans now ts p :
  p ∈ plans now ts <-> (exists id t, live_tun ts id t /\ p = plan_of (id, t)) \/
    (exists freed, (p, freed) ∈ ts_quarantine ts /\ in_quarantine now (p, freed) = true).
Proof.
  unfold plans. rewrite sorting.merge_sort_Permutation, elem_of_app, !list_elem_of_fmap. split.
  - intros [((id & t) & -> & Ht%elem_of_map_to_list) | ((q & freed) & -> & Hq)]; [left; eauto|].
    right. exists freed. by apply list_elem_of_In, List.filter_In in Hq as [Hq%list_elem_of_In Hb].
  - intros [(id & t & Ht & ->) | (freed & Hq & Hb)].
    + left. exists (id, t). split; [done|]. by apply elem_of_map_to_list.
    + right. exists (p, freed). split; [done|]. apply list_elem_of_In, List.filter_In. by rewrite <- list_elem_of_In.
Qed.

Lemma planned_no_collision now ts id base base_port p :
  plan_tunnel id base base_port (plans now ts) = Ok p -> collision ts (tp_ifname p) (tp_listen_port p) = false.
Proof.
  intros (_ & _ & Hn & Hp & _)%plan_spec. apply collision_false. intros i t Ht.
  assert (plan_of (i, t) ∈ plans now ts) as Hin by (apply elem_of_plans; left; eauto).
  split; intros E; [destruct Hn; rewrite <- E|destruct Hp; rewrite <- E];
    apply list_elem_of_fmap; by exists (plan_of (i, t)).
Qed.
