(* ===== verification/GwPolicyWorker.v ===== *)
(** * Gateway: the policy-apply worker

    [crates/wiremesh-gateway/src/enforce.rs] (one enforcer and the version it
    applied), the [EnforcerApplyTarget] of [main.rs] (the install over the map of
    live enforcers) and [policy_apply.rs] (the mailbox and the worker).  The
    backend is the class [EnforcerApi], whose instances are the eBPF loader and
    the nftables backend.  The worker runs in steps between which other tasks
    publish, change the enforcer map and let time pass; the order in which a
    [HashMap] is walked and a panic of a blocking task are choices of the step.
    An install reads the clock once.  Log lines are left out, but for the
    blackhole line, which is a field of the error. *)
From Stdlib Require Import ZArith Lia.
From S2P Require Import PolicyCompile EnfApply EnfNft.
From S2P Require Import Prelude SyncProto GwState GwTunnelset.
Local Open Scope Z_scope.

(** ** The backend *)

Class EnforcerApi := {
  enforcer : Type;
  enf_apply : PolicyIR -> Z -> enforcer -> bool * enforcer;
  enf_ready_at : enforcer -> option Z }.

(** [t] may still be ahead of [b]: a deadline, when there is one, is at most [b]. *)
Definition due_by (b : Z) (t : option Z) : Prop := forall r, t = Some r -> r <= b.

(** Only a flip arms a grace, and it starts at the apply. *)
Class EnforcerLaws (E : EnforcerApi) := {
  apply_grace : forall ir now e b,
    due_by b (enf_ready_at e) -> now + REAP_GRACE <= b -> due_by b (enf_ready_at (enf_apply ir now e).2) }.

Section ebpf.
Context {N : Ipv4NetApi} {T : LpmTrieApi} {L : LruApi}.

#[export] Instance ebpf_enforcer : EnforcerApi := {|
  enforcer := Maps * GenerationState;
  enf_apply := fun ir now '(s, gen) =>
    match EnfGenerations.apply s gen ir now with
    | Some (ws, gen') => (true, (exec_writes s ws, gen'))
    | None => (false, (s, gen))
    end;
  enf_ready_at := fun e => EnfGenerations.apply_ready_at default_config e.2 |}.

#[export] Instance ebpf_laws : EnforcerLaws ebpf_enforcer.
Proof.
  constructor. intros ir now [s gen] b Hb Hnow. cbn.
  destruct (EnfGenerations.apply s gen ir now) as [[ws gen']|] eqn:E; [|exact Hb].
  unfold EnfGenerations.apply in E. destruct (flatten ir) as [flat|]; [|done].
  destruct (check_lpm_capacity flat); [|done]. unfold apply_generation in E.
  destruct (build_rules flat) as [rules ids].
  destruct (install_generation _ _ _ _) as [w|]; [|done]. cbn [mbind option_bind] in E.
  destruct (fold_and_reset_counters _ _ _) as [z g]. simplify_eq.
  intros r Hr. cbn in Hr. simplify_eq. unfold REAP_GRACE in *. lia.
Qed.
End ebpf.

Section nft.
Context {N : Ipv4NetApi} {W : Type}.
Context (nft_f : string -> W -> Output * W) (nft_list : string -> W -> Output).
Context (json : string -> result string Value).

(** The interface's table and the kernel state it lives in. *)
Definition nft_enforcer : EnforcerApi := {|
  enforcer := string * W;
  enf_apply := fun ir _ '(iface, w) =>
    let '(r, w') := nft_apply nft_f nft_list json iface ir w in (is_ok r, (iface, w'));
  enf_ready_at := fun _ => nft_apply_ready_at |}.

#[export] Instance nft_laws : EnforcerLaws nft_enforcer.
Proof.
  constructor. by intros ir now [iface w] b _ _ r Hr.
Qed.
End nft.

(** ** One enforcer ([enforce.rs]) *)

Inductive ApplyError : Type := BadPolicyIr | BackendRejected.

Section gateway_enforcer.
Context {E : EnforcerApi} (from_slice : string -> option PolicyIR).

Record GatewayEnforcer : Type := { inner : enforcer; applied_version : option Z }.

Definition attach (e : enforcer) : GatewayEnforcer := {| inner := e; applied_version := None |}.

Definition apply_ready_at (g : GatewayEnforcer) : option Z := enf_ready_at (inner g).

Definition ir_of (ds : DesiredState) : option PolicyIR :=
  if bool_decide (ds_policy_ir ds = "") then
    Some {| pi_schema := 1; pi_version := ds_policy_version ds; pi_blocks := [] |}
  else from_json from_slice (ds_policy_ir ds).

Definition apply_if_changed (ds : DesiredState) (now : Z) (g : GatewayEnforcer)
    : result ApplyError bool * GatewayEnforcer :=
  if bool_decide (applied_version g = Some (ds_policy_version ds)) then (Ok false, g)
  else
    match ir_of ds with
    | None => (Err BadPolicyIr, g)
    | Some ir =>
        let '(ok, e) := enf_apply ir now (inner g) in
        if ok then (Ok true, {| inner := e; applied_version := Some (ds_policy_version ds) |})
        else (Err BackendRejected, {| inner := e; applied_version := applied_version g |})
    end.
End gateway_enforcer.

Definition needs_policy_write (applied : option Z) (target : Z) (ds_is_newest : bool) : bool :=
  match applied with
  | None => true
  | Some av => if av <? target then true else if target <? av then ds_is_newest else false
  end.

(** ** The install over the live enforcers ([EnforcerApplyTarget] of [main.rs]) *)

Definition opt_max (a b : option Z) : option Z :=
  match a, b with Some x, Some y => Some (Z.max x y) | Some x, None => Some x | None, y => y end.

(** [Iterator::max] of what the entries have. *)
Definition max_of {A : Type} (f : A -> option Z) (l : list A) : option Z := foldr (fun x m => opt_max (f x) m) None l.

Inductive InstallError : Type :=
| ApplyFailed (id : TunnelId) (e : ApplyError) (landed : list TunnelId) (blackhole : bool)
| Deferred (landed : list TunnelId) (deferred : list (TunnelId * Z)).

Section target.
Context {E : EnforcerApi} (from_slice : string -> option PolicyIR).

Record EnforcerApplyTarget : Type := {
  enforcers : gmap TunnelId GatewayEnforcer;
  version_gauge : Z;
  report_notify : bool }.

Definition entries (t : EnforcerApplyTarget) : list GatewayEnforcer := map snd (map_to_list (enforcers t)).

Definition will_write (ds : DesiredState) (newest : bool) (g : GatewayEnforcer) : bool :=
  needs_policy_write (applied_version g) (ds_policy_version ds) newest.

Definition ready_at (t : EnforcerApplyTarget) (ds : DesiredState) (newest : bool) : option Z :=
  max_of apply_ready_at (List.filter (will_write ds newest) (entries t)).

(** What an install's loop has done so far. *)
Record Sweep : Type := {
  sw_map : gmap TunnelId GatewayEnforcer;
  sw_deferred : list (TunnelId * Z);
  sw_installed : list TunnelId }.

(** The loop over the entries in the order the map yields them; the result's
    second part is the failure it stopped at. *)
Fixpoint install_loop (ds : DesiredState) (newest : bool) (now : Z) (order : list TunnelId) (s : Sweep)
    : Sweep * option (TunnelId * ApplyError) :=
  match order with
  | [] => (s, None)
  | id :: rest =>
      match sw_map s !! id with
      | None => install_loop ds newest now rest s
      | Some g =>
          if negb (will_write ds newest g) then install_loop ds newest now rest s
          else
            let left := match apply_ready_at g with Some t => sat_sub t now | None => 0 end in
            if negb (left =? 0) then
              install_loop ds newest now rest
                {| sw_map := sw_map s; sw_deferred := sw_deferred s ++ [(id, left)];
                   sw_installed := sw_installed s |}
            else
              let '(r, g') := apply_if_changed from_slice ds now g in
              let m := <[id := g']> (sw_map s) in
              match r with
              | Err e => ({| sw_map := m; sw_deferred := sw_deferred s; sw_installed := sw_installed s |}, Some (id, e))
              | Ok _ =>
                  install_loop ds newest now rest
                    {| sw_map := m; sw_deferred := sw_deferred s; sw_installed := sw_installed s ++ [id] |}
              end
      end
  end.

Definition install (order : list TunnelId) (t : EnforcerApplyTarget) (ds : DesiredState) (newest : bool) (now : Z)
    : result InstallError unit * EnforcerApplyTarget :=
  let '(s, failure) :=
    install_loop ds newest now order {| sw_map := enforcers t; sw_deferred := []; sw_installed := [] |} in
  let t1 := {| enforcers := sw_map s; version_gauge := version_gauge t; report_notify := report_notify t |} in
  let any_policy_live := existsb (fun g => bool_decide (is_Some (applied_version g))) (entries t1) in
  match failure with
  | Some (id, e) => (Err (ApplyFailed id e (sw_installed s) (negb any_policy_live)), t1)
  | None =>
      match sw_deferred s with
      | _ :: _ => (Err (Deferred (sw_installed s) (sw_deferred s)), t1)
      | [] =>
          (Ok tt, {| enforcers := sw_map s;
                     version_gauge := default (version_gauge t) (max_of applied_version (entries t1));
                     report_notify := true |})
      end
  end.
End target.

(** ** The mailbox ([tokio::sync::watch]) *)

Record Mailbox : Type := { mb_value : option DesiredState; mb_changed : bool; mb_closed : bool }.

Definition channel : Mailbox := {| mb_value := None; mb_changed := false; mb_closed := false |}.

(** [PolicyApplyHandle::publish]. *)
Definition publish (ds : DesiredState) (mb : Mailbox) : Mailbox :=
  if bool_decide (mb_value mb = Some ds) then mb
  else {| mb_value := Some ds; mb_changed := true; mb_closed := mb_closed mb |}.

(** The last handle is dropped. *)
Definition close (mb : Mailbox) : Mailbox :=
  {| mb_value := mb_value mb; mb_changed := mb_changed mb; mb_closed := true |}.

(** [Receiver::changed]: pending, a value that was not seen, or every sender gone. *)
Definition changed (mb : Mailbox) : option (result unit unit) :=
  if mb_changed mb then Some (Ok tt) else if mb_closed mb then Some (Err tt) else None.

Definition has_changed (mb : Mailbox) : result unit bool := if mb_closed mb then Err tt else Ok (mb_changed mb).

Definition borrow_and_update (mb : Mailbox) : option DesiredState * Mailbox :=
  (mb_value mb, {| mb_value := mb_value mb; mb_changed := false; mb_closed := mb_closed mb |}).

Definition is_newest (mb : Mailbox) : bool := negb (ok_or false (has_changed mb)).

(** ** The worker *)

Definition RETRY_BACKOFF_MAX : Z := secs 60.
Definition POLICY_APPLY_RETRY : Z := secs 5.

Definition next_backoff (b : Z) : Z := Z.min (b * 2) RETRY_BACKOFF_MAX.

(** Where the worker's task stands: the awaits of its loop.  A blocking task
    first samples [is_newest] and then runs. *)
Inductive Phase : Type :=
| Idle
| DeadlineTask (ds : DesiredState) (backoff : Z)
| DeadlineRun (ds : DesiredState) (backoff : Z) (newest : bool)
| Waiting (ds : DesiredState) (backoff : Z) (deadline : option Z)
| InstallTask (ds : DesiredState) (backoff : Z)
| InstallRun (ds : DesiredState) (backoff : Z) (newest : bool)
| Pausing (ds : DesiredState) (backoff : Z) (until : Z)
| Exited.

Section worker.
Context {E : EnforcerApi} (from_slice : string -> option PolicyIR) (retry_after : Z).

Record World : Type := {
  w_phase : Phase;
  w_box : Mailbox;
  w_failures : Z;
  w_target : EnforcerApplyTarget;
  w_now : Z }.

(** How a blocking task ends: it completes, walking the map in some order, or it
    panics and leaves the target in some state. *)
Inductive TaskEnd : Type := Completes (order : list TunnelId) | Panics (t : EnforcerApplyTarget).

Definition set_phase (p : Phase) (w : World) : World :=
  {| w_phase := p; w_box := w_box w; w_failures := w_failures w; w_target := w_target w; w_now := w_now w |}.
Definition set_now (t : Z) (w : World) : World :=
  {| w_phase := w_phase w; w_box := w_box w; w_failures := w_failures w; w_target := w_target w; w_now := t |}.
Definition set_box (b : Mailbox) (w : World) : World :=
  {| w_phase := w_phase w; w_box := b; w_failures := w_failures w; w_target := w_target w; w_now := w_now w |}.
Definition set_target (t : EnforcerApplyTarget) (w : World) : World :=
  {| w_phase := w_phase w; w_box := w_box w; w_failures := w_failures w; w_target := t; w_now := w_now w |}.

(** [failures.fetch_add] and the pause that follows. *)
Definition fail (ds : DesiredState) (b : Z) (w : World) : World :=
  {| w_phase := Pausing ds b (w_now w + b); w_box := w_box w; w_failures := wrap 64 (w_failures w + 1);
     w_target := w_target w; w_now := w_now w |}.

(** Take the published value: a fresh episode, or back to waiting for one. *)
Definition adopt (w : World) : World :=
  let '(v, box) := borrow_and_update (w_box w) in
  set_box box (set_phase (match v with Some ds => DeadlineTask ds retry_after | None => Idle end) w).

(** One step of the worker's task, [None] while it is waiting. *)
Definition worker_step (e : TaskEnd) (w : World) : option World :=
  match w_phase w with
  | Idle =>
      match changed (w_box w) with
      | None => None
      | Some (Err _) => Some (set_phase Exited w)
      | Some (Ok _) => Some (adopt w)
      end
  | DeadlineTask ds b => Some (set_phase (DeadlineRun ds b (is_newest (w_box w))) w)
  | DeadlineRun ds b newest =>
      match e with
      | Panics t => Some (fail ds b (set_target t w))
      | Completes _ => Some (set_phase (Waiting ds b (ready_at (w_target w) ds newest)) w)
      end
  | Waiting ds b deadline =>
      if match deadline with Some t => t <=? w_now w | None => true end then
        match has_changed (w_box w) with
        | Ok true => Some (adopt w)
        | Ok false => Some (set_phase (InstallTask ds b) w)
        | Err _ => Some (set_phase Exited w)
        end
      else None
  | InstallTask ds b => Some (set_phase (InstallRun ds b (is_newest (w_box w))) w)
  | InstallRun ds b newest =>
      match e with
      | Panics t => Some (fail ds b (set_target t w))
      | Completes order =>
          let '(r, t) := install from_slice order (w_target w) ds newest (w_now w) in
          let w1 := set_target t w in
          match r with
          | Ok _ => Some (set_phase Idle w1)
          | Err _ => Some (fail ds b w1)
          end
      end
  | Pausing ds b until =>
      match changed (w_box w) with
      | Some (Ok _) => Some (adopt w)
      | Some (Err _) => Some (set_phase Exited w)
      | None => if until <=? w_now w then Some (set_phase (DeadlineTask ds (next_backoff b)) w) else None
      end
  | Exited => None
  end.

(** [spawn_policy_apply_worker]. *)
Definition spawn (t : EnforcerApplyTarget) (now : Z) : World :=
  {| w_phase := Idle; w_box := channel; w_failures := 0; w_target := t; w_now := now |}.

(** A map is walked in an order that lists its keys. *)
Definition walks (e : TaskEnd) (t : EnforcerApplyTarget) : Prop :=
  match e with Completes order => order ≡ₚ map fst (map_to_list (enforcers t)) | Panics _ => True end.

(** The worker among the other tasks of the gateway. *)
Inductive step : World -> World -> Prop :=
| step_worker e w w' : walks e (w_target w) -> worker_step e w = Some w' -> step w w'
| step_publish ds w : mb_closed (w_box w) = false -> step w (set_box (publish ds (w_box w)) w)
| step_close w : step w (set_box (close (w_box w)) w)
| step_elapse d w : 0 <= d -> step w (set_now (w_now w + d) w)
| step_enforcers t w : step w (set_target t w).
End worker.

(** ** What an install does to the map *)

Section install.
Context {E : EnforcerApi} (from_slice : string -> option PolicyIR).
Implicit Types (g : GatewayEnforcer) (t : EnforcerApplyTarget).

Definition out_of_grace (now : Z) g : Prop := due_by now (apply_ready_at g).

Lemma grace_left now g :
  negb (match apply_ready_at g with Some t => sat_sub t now | None => 0 end =? 0) = false <-> out_of_grace now g.
Proof.
  unfold out_of_grace, due_by, sat_sub. rewrite negb_false_iff, Z.eqb_eq.
  destruct (apply_ready_at g) as [t|]; [|naive_solver].
  split; [intros H r [= <-]; lia|intros H; specialize (H t eq_refl); lia].
Qed.

(** An entry that an install with [ds] rewrote, and into what. *)
Definition rewritten (ds : DesiredState) (newest : bool) (now : Z) g g' : Prop :=
  will_write ds newest g = true /\ out_of_grace now g /\ g' = (apply_if_changed from_slice ds now g).2.

Lemma apply_changes_to ds now g b :
  (apply_if_changed from_slice ds now g).1 = Ok b ->
  applied_version (apply_if_changed from_slice ds now g).2 = Some (ds_policy_version ds).
Proof.
  unfold apply_if_changed. case_bool_decide; [done|]. destruct (ir_of _ _); [|done].
  destruct (enf_apply _ _ _) as [[] e]; done.
Qed.

Lemma apply_keeps_version ds now g e :
  (apply_if_changed from_slice ds now g).1 = Err e ->
  applied_version (apply_if_changed from_slice ds now g).2 = applied_version g.
Proof.
  unfold apply_if_changed. case_bool_decide; [done|]. destruct (ir_of _ _); [|done].
  destruct (enf_apply _ _ _) as [[] x]; done.
Qed.

Lemma no_write_needed ds newest g :
  applied_version g = Some (ds_policy_version ds) -> will_write ds newest g = false.
Proof. unfold will_write, needs_policy_write. intros ->. by rewrite Z.ltb_irrefl. Qed.

(** What is true of a loop over [order] that started at [s]. *)
Definition loop_outcome (ds : DesiredState) (newest : bool) (now : Z) (order : list TunnelId) (s : Sweep)
    (r : Sweep * option (TunnelId * ApplyError)) : Prop :=
  (forall id, sw_map r.1 !! id = sw_map s !! id \/
     id ∈ order /\ exists g g', sw_map s !! id = Some g /\ sw_map r.1 !! id = Some g' /\ rewritten ds newest now g g') /\
  (exists l, sw_deferred r.1 = sw_deferred s ++ l /\ forall d, d ∈ l ->
     d.1 ∈ order /\ exists g, sw_map s !! d.1 = Some g /\ will_write ds newest g = true /\ ~ out_of_grace now g) /\
  match r.2 with
  | Some (id, e) => id ∈ order /\ exists g, sw_map s !! id = Some g /\ will_write ds newest g = true /\
      out_of_grace now g /\ (apply_if_changed from_slice ds now g).1 = Err e
  | None => forall id g, id ∈ order -> sw_map s !! id = Some g -> will_write ds newest g = true ->
      (out_of_grace now g /\ exists g', sw_map r.1 !! id = Some g' /\ applied_version g' = Some (ds_policy_version ds)) \/
      (~ out_of_grace now g /\ exists n, (id, n) ∈ sw_deferred r.1)
  end.

(** A first entry that is left as it is. *)
Lemma loop_skip ds newest now id order s s1 r :
  id ∉ order -> sw_map s1 = sw_map s ->
  (exists l, sw_deferred s1 = sw_deferred s ++ l /\ forall d, d ∈ l -> d.1 = id /\
     exists g, sw_map s !! id = Some g /\ will_write ds newest g = true /\ ~ out_of_grace now g) ->
  (forall g, sw_map s !! id = Some g -> will_write ds newest g = true ->
     ~ out_of_grace now g /\ exists n, (id, n) ∈ sw_deferred s1) ->
  loop_outcome ds newest now order s1 r -> loop_outcome ds newest now (id :: order) s r.
Proof.
  intros Hid Em (l0 & El0 & Hl0) Hhead (Hm & (l & El & Hl) & Hf). unfold loop_outcome. rewrite Em in *.
  split; [intros i; destruct (Hm i) as [|[? ?]]; [by left|right; split; [by right|done]]|]. split.
  - exists (l0 ++ l). split; [by rewrite El, El0, app_assoc|]. intros d [Hd|Hd]%elem_of_app.
    + destruct (Hl0 d Hd) as [-> Hg]. split; [left|done].
    + destruct (Hl d Hd) as [? ?]. split; [by right|done].
  - destruct r.2 as [[i e]|].
    + destruct Hf as [? ?]. split; [by right|done].
    + intros i g [->|Hi]%elem_of_cons Hg Hw; [|by apply Hf]. right.
      destruct (Hhead g Hg Hw) as [? [n Hn]]. split; [done|]. exists n. rewrite El. set_solver.
Qed.

Lemma loop_pass ds newest now id order s r :
  id ∉ order -> (forall g, sw_map s !! id = Some g -> will_write ds newest g <> true) ->
  loop_outcome ds newest now order s r -> loop_outcome ds newest now (id :: order) s r.
Proof.
  intros Hid Hg. apply loop_skip; [done..| |naive_solver].
  exists []. rewrite app_nil_r. split; [done|]. set_solver.
Qed.

(** A first entry that is written. *)
Lemma loop_write ds newest now id order s s1 r g :
  id ∉ order -> sw_map s !! id = Some g -> will_write ds newest g = true -> out_of_grace now g ->
  sw_map s1 = <[id := (apply_if_changed from_slice ds now g).2]> (sw_map s) -> sw_deferred s1 = sw_deferred s ->
  is_ok (apply_if_changed from_slice ds now g).1 = true ->
  loop_outcome ds newest now order s1 r -> loop_outcome ds newest now (id :: order) s r.
Proof.
  intros Hid Hg Hw Hgr Em Ed Hok (Hm & (l & El & Hl) & Hf). unfold loop_outcome. rewrite Em in *.
  assert (forall i, i ∈ order -> id <> i) as Hne by (by intros i Hi ->).
  assert (Hnew : sw_map r.1 !! id = Some (apply_if_changed from_slice ds now g).2).
  { destruct (Hm id) as [->|[? _]]; [apply lookup_insert_eq|done]. }
  split; [|split].
  - intros i. destruct (decide (i = id)) as [->|Hi].
    + right. split; [left|]. exists g. eexists. split; [done|]. by split.
    + destruct (Hm i) as [->|(Hin & g0 & g' & Hg0 & H)]; [left; by rewrite lookup_insert_ne|].
      rewrite lookup_insert_ne in Hg0 by done. right. split; [by right|]. eauto.
  - exists l. rewrite El, Ed. split; [done|]. intros d Hd. destruct (Hl d Hd) as [Hin (g0 & Hg0 & H)].
    rewrite lookup_insert_ne in Hg0 by auto. split; [by right|]. eauto.
  - destruct r.2 as [[i e]|].
    + destruct Hf as (Hin & g0 & Hg0 & H). rewrite lookup_insert_ne in Hg0 by auto. split; [by right|]. eauto.
    + intros i g0 [->|Hi]%elem_of_cons Hg0 Hw0; [|apply Hf; [done|by rewrite lookup_insert_ne by auto|done]].
      simplify_eq. left. split; [done|]. eexists. split; [done|].
      destruct (apply_if_changed from_slice ds now g).1 eqn:Er; [|done]. by apply (apply_changes_to _ _ _ a).
Qed.

Lemma install_loop_spec ds newest now order s :
  NoDup order -> loop_outcome ds newest now order s (install_loop from_slice ds newest now order s).
Proof.
  revert s. induction order as [|id order IH]; intros s Hnd.
  { split; [by left|]. split; [|set_solver]. exists []. rewrite app_nil_r. split; [done|set_solver]. }
  apply list.NoDup_cons in Hnd as [Hid Hnd]. cbn [install_loop].
  destruct (sw_map s !! id) as [g|] eqn:Hg.
  2:{ apply loop_pass; [done| |by apply IH]. intros; congruence. }
  destruct (will_write ds newest g) eqn:Hw; cbn [negb].
  2:{ apply loop_pass; [done| |by apply IH]. intros; congruence. }
  destruct (negb _) eqn:Hgr.
  - assert (~ out_of_grace now g) as Hng by (rewrite <- grace_left; congruence).
    eapply loop_skip; [done| | | |apply IH; done]; cbn; [done|eexists; split; [done|]|].
    + intros d ->%list_elem_of_singleton. split; [done|]. eauto.
    + intros g0 ?. simplify_eq. intros _. split; [done|]. eexists. apply elem_of_app. right. by left.
  - apply grace_left in Hgr. destruct (apply_if_changed from_slice ds now g) as [[b|e] g'] eqn:Ea.
    + eapply (loop_write _ _ _ _ _ _ _ _ g); [done..| | | |apply IH; done]; rewrite ?Ea; done.
    + split; [|split]; cbn [fst snd sw_map sw_deferred].
      * intros i. destruct (decide (i = id)) as [->|Hi]; [|left; by rewrite lookup_insert_ne].
        right. split; [left|]. exists g, g'. rewrite lookup_insert_eq. split; [done|]. split; [done|].
        split; [done|]. split; [done|]. by rewrite Ea.
      * exists []. rewrite app_nil_r. split; [done|]. set_solver.
      * split; [left|]. exists g. by rewrite Ea.
Qed.

Lemma entries_spec t g : g ∈ entries t <-> exists id, enforcers t !! id = Some g.
Proof.
  unfold entries. rewrite list_elem_of_fmap. split.
  - intros ([id x] & -> & H). exists id. by apply elem_of_map_to_list in H.
  - intros [id H]. exists (id, g). split; [done|]. by apply elem_of_map_to_list.
Qed.

Lemma walk_keys order t : order ≡ₚ map fst (map_to_list (enforcers t)) ->
  NoDup order /\ forall id g, enforcers t !! id = Some g -> id ∈ order.
Proof.
  intros H. split; [rewrite H; apply NoDup_fst_map_to_list|]. intros id g Hg. rewrite H.
  apply list_elem_of_fmap. exists (id, g). split; [done|]. by apply elem_of_map_to_list.
Qed.

Lemma max_of_spec {A : Type} (f : A -> option Z) l :
  match max_of f l with
  | None => forall x, x ∈ l -> f x = None
  | Some m => (exists x, x ∈ l /\ f x = Some m) /\ forall x v, x ∈ l -> f x = Some v -> v <= m
  end.
Proof.
  induction l as [|x l IH]; [set_solver|]. cbn. fold (max_of f l).
  destruct (f x) as [v|] eqn:Ex, (max_of f l) as [m|]; cbn.
  - destruct IH as [(y & Hy & Ey) IH]. split.
    + destruct (Z.max_spec v m) as [[? ->]|[? ->]]; [exists y|exists x]; (split; [set_solver|done]).
    + intros z w [->|Hz]%elem_of_cons Ez; [simplify_eq; lia|]. specialize (IH z w Hz Ez). lia.
  - split; [exists x; split; [left|done]|]. intros z w [->|Hz]%elem_of_cons Ez; [simplify_eq; lia|].
    by rewrite IH in Ez.
  - destruct IH as [(y & Hy & Ey) IH]. split; [exists y; split; [by right|done]|].
    intros z w [->|Hz]%elem_of_cons Ez; [congruence|eauto].
  - intros z [->|Hz]%elem_of_cons; [done|auto].
Qed.

Lemma existsb_none {A : Type} (p : A -> bool) l : existsb p l = false <-> forall a, a ∈ l -> p a = false.
Proof. rewrite <- not_true_iff_false, existsb_iff. setoid_rewrite <- not_true_iff_false. naive_solver. Qed.

Lemma will_write_false ds newest g :
  will_write ds newest g = false <->
  applied_version g = Some (ds_policy_version ds) \/
  newest = false /\ exists v, applied_version g = Some v /\ ds_policy_version ds < v.
Proof.
  unfold will_write, needs_policy_write. destruct (applied_version g) as [v|]; [|naive_solver].
  destruct (Z.ltb_spec v (ds_policy_version ds)); [naive_solver lia|].
  destruct (Z.ltb_spec (ds_policy_version ds) v).
  - destruct newest; [|naive_solver]. split; [done|]. intros [[= ->]|[? _]]; [lia|done].
  - assert (v = ds_policy_version ds) as -> by lia. naive_solver.
Qed.

(** Whether an entry still has to be written, and whether its grace forbids it. *)
Definition must_wait (ds : DesiredState) (newest : bool) (now : Z) g : Prop :=
  will_write ds newest g = true /\ ~ out_of_grace now g.

(** The highest version the map holds, in the gauge. *)
Definition gauge_is_live (before : Z) t : Prop :=
  (forall g, g ∈ entries t -> applied_version g = None) /\ version_gauge t = before \/
  (exists g, g ∈ entries t /\ applied_version g = Some (version_gauge t)) /\
  (forall g v, g ∈ entries t -> applied_version g = Some v -> v <= version_gauge t).

Lemma live_gauge before t1 notify :
  gauge_is_live before {| enforcers := enforcers t1;
    version_gauge := default before (max_of applied_version (entries t1)); report_notify := notify |}.
Proof.
  unfold gauge_is_live. cbn [version_gauge]. pose proof (max_of_spec applied_version (entries t1)) as Hmax.
  destruct (max_of applied_version (entries t1)); [right|left]; (split; [apply Hmax|]); [apply Hmax|done].
Qed.

(** C21: An install writes an enforcer only when its version calls for it and its grace is
    over, so it can never lower a version unless the state is the newest.  It succeeds
    only when no enforcer is left to write, and then the gauge is the highest version
    that is live; when it fails the gauge stands still, and the failure is either the
    list of exactly the enforcers still in their grace, all others being done, or an
    enforcer that refused the policy, reported as a blackhole exactly when no enforcer
    holds any. *)
Theorem install_contract order t ds newest now :
  order ≡ₚ map fst (map_to_list (enforcers t)) ->
  let '(r, t') := install from_slice order t ds newest now in
  (forall id, enforcers t' !! id = enforcers t !! id \/
     exists g g', enforcers t !! id = Some g /\ enforcers t' !! id = Some g' /\ rewritten ds newest now g g') /\
  match r with
  | Ok _ => (forall g, g ∈ entries t' -> will_write ds newest g = false) /\
      gauge_is_live (version_gauge t) t' /\ report_notify t' = true
  | Err e =>
      version_gauge t' = version_gauge t /\ report_notify t' = report_notify t /\
      match e with
      | Deferred _ l => l <> [] /\
          (forall id, id ∈ map fst l <-> exists g, enforcers t !! id = Some g /\ must_wait ds newest now g) /\
          (forall id g, id ∉ map fst l -> enforcers t' !! id = Some g -> will_write ds newest g = false)
      | ApplyFailed id e _ blackhole =>
          (exists g, enforcers t !! id = Some g /\ will_write ds newest g = true /\ out_of_grace now g /\
             (apply_if_changed from_slice ds now g).1 = Err e) /\
          (blackhole = true <-> forall g, g ∈ entries t' -> applied_version g = None)
      end
  end.
Proof.
  intros [Hnd Hkeys]%walk_keys. unfold install.
  pose proof (install_loop_spec ds newest now order
    {| sw_map := enforcers t; sw_deferred := []; sw_installed := [] |} Hnd) as (Hm & (l & El & Hl) & Hf).
  destruct (install_loop _ _ _ _ _ _) as [s f]. cbn [fst snd sw_map sw_deferred app] in *.
  assert (Hm' : forall id, sw_map s !! id = enforcers t !! id \/ exists g g',
    enforcers t !! id = Some g /\ sw_map s !! id = Some g' /\ rewritten ds newest now g g')
    by (intros id; destruct (Hm id) as [?|[_ ?]]; auto).
  assert (Hdone : f = None -> forall id g, id ∉ map fst (sw_deferred s) -> sw_map s !! id = Some g ->
    will_write ds newest g = false).
  { intros -> id g Hid Hg. apply not_true_iff_false. intros Hw.
    assert (exists g0, enforcers t !! id = Some g0 /\ will_write ds newest g0 = true) as (g0 & Hg0 & Hw0).
    { destruct (Hm' id) as [Eid|(g0 & ? & Hg0 & _ & Hw0 & _)]; [rewrite Eid in Hg|]; eauto. }
    destruct (Hf id g0 (Hkeys _ _ Hg0) Hg0 Hw0) as [(_ & g' & Hg' & Hv)|(_ & n & Hn)].
    - simplify_eq. by rewrite (no_write_needed _ _ _ Hv) in Hw.
    - apply Hid. apply list_elem_of_fmap. by exists (id, n). }
  destruct f as [[id e]|].
  - split; [done|]. split; [done|]. split; [done|]. destruct Hf as (_ & Hg). split; [done|].
    rewrite negb_true_iff, existsb_none. setoid_rewrite bool_decide_eq_false.
    setoid_rewrite <- eq_None_not_Some. done.
  - specialize (Hdone eq_refl). destruct (sw_deferred s) as [|d rest] eqn:Ed.
    + split; [done|]. split; [|split; [|done]].
      * intros g [id Hg]%entries_spec. apply (Hdone id); [set_solver|done].
      * apply (live_gauge (version_gauge t) {| enforcers := sw_map s; version_gauge := _; report_notify := _ |}).
    + split; [done|]. split; [done|]. split; [done|]. split; [done|]. rewrite El in *. split; [|done].
      intros id. rewrite list_elem_of_fmap. split.
      * intros (d0 & -> & Hd). by destruct (Hl d0 Hd) as [_ Hg].
      * intros (g & Hg & Hw & Hn). destruct (Hf id g (Hkeys _ _ Hg) Hg Hw) as [[? _]|(_ & n & Hin)]; [done|].
        by exists (id, n).
Qed.
End install.

(** ** Every fair run of the worker installs the newest state *)

Section runs.
Context {E : EnforcerApi} {EL : EnforcerLaws E} (from_slice : string -> option PolicyIR) (retry_after : Z).
Abbreviation world := (World (E := E)).
Implicit Types (g : GatewayEnforcer) (w : world).

(** When the worker's task can run next, if nothing else happens. *)
Definition wake_at (mb : Mailbox) (p : Phase) (now : Z) : option Z :=
  let awake := mb_changed mb || mb_closed mb in
  match p with
  | Idle => if awake then Some now else None
  | Waiting _ _ (Some t) => Some (Z.max now t)
  | Pausing _ _ until => if awake then Some now else Some (Z.max now until)
  | Exited => None
  | _ => Some now
  end.

(** The worker runs at [t] exactly when [t] is not before its wake-up. *)
Lemma worker_enabled e w t :
  w_now w <= t ->
  (is_Some (worker_step from_slice retry_after e (set_now t w)) <->
   exists u, wake_at (w_box w) (w_phase w) (w_now w) = Some u /\ u <= t).
Proof.
  destruct w as [p [v c cl] f tg now]. cbn [w_now w_box w_phase]. intros Ht.
  assert (forall x : world, is_Some (Some x) <-> exists u, Some now = Some u /\ u <= t) as Hnow
    by (intros x; split; [eauto|by eexists]).
  assert (forall o : option world, o = None -> is_Some o <-> exists u, @None Z = Some u /\ u <= t) as Hnone
    by (intros o ->; split; [intros []; done|intros (? & ? & _); done]).
  destruct p; unfold worker_step; cbn; [|try done..].
  - destruct c, cl; cbn; auto.
  - destruct e; cbn; auto.
  - destruct deadline as [d|]; [|destruct cl, c; cbn; auto].
    destruct (Z.leb_spec d t).
    + split; [eexists; split; [done|lia]|]. intros _. destruct cl, c; cbn; by eexists.
    + split; [intros []; done|]. intros (u & [= <-] & ?). lia.
  - destruct e; cbn; [|auto]. destruct (install _ _ _ _ _ _) as [[] ?]; auto.
  - destruct c, cl; cbn; auto.
    destruct (Z.leb_spec until t).
    + split; [eexists; split; [done|lia]|]. intros _. by eexists.
    + split; [intros []; done|]. intros (u & [= <-] & ?). lia.
  - auto.
Qed.

(** Runs in which only the worker acts: each of its steps happens at most [lag]
    after it became possible, and no blocking task panics. *)
Definition scheduled (lag : Z) (w w' : world) : Prop :=
  exists u t order, wake_at (w_box w) (w_phase w) (w_now w) = Some u /\ u <= t <= u + lag /\
    order ≡ₚ map fst (map_to_list (enforcers (w_target w))) /\
    worker_step from_slice retry_after (Completes order) (set_now t w) = Some w'.

(** ** Installs of the worker *)

Definition graces_end (R : Z) (t : EnforcerApplyTarget) : Prop :=
  forall g, g ∈ entries t -> due_by R (apply_ready_at g).

(** Everything an install of the newest [ds] would write is out of its grace. *)
Definition clear (ds : DesiredState) (now : Z) (t : EnforcerApplyTarget) : Prop :=
  forall g, g ∈ entries t -> will_write ds true g = true -> out_of_grace now g.

Definition accepts_from (T : Z) (ds : DesiredState) : Prop :=
  forall g now, T <= now -> is_ok (apply_if_changed from_slice ds now g).1 = true.

Lemma install_map order t ds newest now id :
  order ≡ₚ map fst (map_to_list (enforcers t)) ->
  let t' := (install from_slice order t ds newest now).2 in
  enforcers t' !! id = enforcers t !! id \/
  exists g g', enforcers t !! id = Some g /\ enforcers t' !! id = Some g' /\ rewritten from_slice ds newest now g g'.
Proof.
  intros [Hnd _]%walk_keys. unfold install.
  pose proof (install_loop_spec from_slice ds newest now order
    {| sw_map := enforcers t; sw_deferred := []; sw_installed := [] |} Hnd) as (Hm & _ & _).
  destruct (install_loop _ _ _ _ _ _) as [s [[i e]|]]; cbn [fst snd sw_map] in *; [|destruct (sw_deferred s)];
    (destruct (Hm id) as [|[_ ?]]; auto).
Qed.

Lemma install_graces order t ds newest now R :
  order ≡ₚ map fst (map_to_list (enforcers t)) -> now + REAP_GRACE <= R ->
  graces_end R t -> graces_end R (install from_slice order t ds newest now).2.
Proof.
  intros Hord HR Hg g' [id Hid]%entries_spec.
  destruct (install_map order t ds newest now id Hord) as [H|(g & g0 & H & H' & _ & _ & ->)].
  - apply Hg, entries_spec. exists id. congruence.
  - assert (due_by R (apply_ready_at g)) as Hb by (apply Hg, entries_spec; eauto).
    rewrite Hid in H'. simplify_eq. unfold apply_if_changed. case_bool_decide; [done|].
    destruct (ir_of _ _) as [ir|]; [|done].
    pose proof (apply_grace ir now (inner g) R Hb HR) as Ha.
    by destruct (enf_apply ir now (inner g)) as [[] e].
Qed.

(** A successful install leaves nothing to write. *)
Lemma install_ok order t ds newest now t' :
  order ≡ₚ map fst (map_to_list (enforcers t)) ->
  install from_slice order t ds newest now = (Ok tt, t') ->
  (forall g, g ∈ entries t' -> will_write ds newest g = false) /\ gauge_is_live (version_gauge t) t'.
Proof.
  intros [Hnd Hkeys]%walk_keys. unfold install.
  pose proof (install_loop_spec from_slice ds newest now order
    {| sw_map := enforcers t; sw_deferred := []; sw_installed := [] |} Hnd) as (Hm & _ & Hf).
  destruct (install_loop _ _ _ _ _ _) as [s [[i e]|]]; [done|]. cbn [fst snd sw_map sw_deferred] in *.
  destruct (sw_deferred s) as [|d rest] eqn:Ed; [|done]. intros [= <-].
  split; [|apply (live_gauge (version_gauge t) {| enforcers := sw_map s; version_gauge := _; report_notify := _ |})].
  intros g' [id Hid]%entries_spec. cbn in Hid. apply not_true_iff_false. intros Hw.
  assert (exists g, enforcers t !! id = Some g /\ will_write ds newest g = true) as (g & Hg & Hwg).
  { destruct (Hm id) as [Eid|(_ & g & ? & Hg & _ & Hwg & _)]; [rewrite Eid in Hid|]; eauto. }
  destruct (Hf id g (Hkeys _ _ Hg) Hg Hwg) as [(_ & g1 & H1 & Hv)|(_ & n & Hn)]; [|set_solver].
  simplify_eq. by rewrite (no_write_needed _ _ _ Hv) in Hw.
Qed.

(** An install that finds every grace over and a willing backend succeeds. *)
Lemma install_lands order t ds now T :
  order ≡ₚ map fst (map_to_list (enforcers t)) -> accepts_from T ds -> T <= now -> clear ds now t ->
  (install from_slice order t ds true now).1 = Ok tt.
Proof.
  intros [Hnd _]%walk_keys Hacc HT Hclear. unfold install.
  pose proof (install_loop_spec from_slice ds true now order
    {| sw_map := enforcers t; sw_deferred := []; sw_installed := [] |} Hnd) as (_ & (l & El & Hl) & Hf).
  destruct (install_loop _ _ _ _ _ _) as [s [[id e]|]]; cbn [fst snd sw_map sw_deferred app] in *.
  { destruct Hf as (_ & g & _ & _ & _ & He). specialize (Hacc g now HT). by rewrite He in Hacc. }
  destruct (sw_deferred s) as [|d rest] eqn:Ed; [done|].
  destruct (Hl d) as [_ (g & Hg & Hw & Hn)]; [rewrite <- El; left|]. destruct Hn.
  apply Hclear; [|done]. apply entries_spec. eauto.
Qed.

(** The deadline the worker waits for clears everything it was read for. *)
Lemma ready_at_spec t ds newest R :
  graces_end R t ->
  due_by R (ready_at t ds newest) /\
  forall now, due_by now (ready_at t ds newest) -> forall g, g ∈ entries t -> will_write ds newest g = true ->
    out_of_grace now g.
Proof.
  intros HR. unfold ready_at. set (l := List.filter _ (entries t)).
  assert (forall g, g ∈ l <-> g ∈ entries t /\ will_write ds newest g = true) as Hl.
  { intros g. unfold l. rewrite !list_elem_of_In. apply List.filter_In. }
  pose proof (max_of_spec apply_ready_at l) as Hmax. destruct (max_of apply_ready_at l) as [m|].
  - destruct Hmax as [(g & Hg & Eg) Hle]. split.
    + intros r [= <-]. apply (HR g); [by apply Hl|done].
    + intros now Hnow g' Hin Hw r Hr. specialize (Hnow m eq_refl).
      assert (r <= m) by (apply (Hle g'); [by apply Hl|done]). lia.
  - split; [done|]. intros now _ g' Hin Hw r Hr. rewrite (Hmax g') in Hr; [done|by apply Hl].
Qed.

(** *** After a publish

    [ds] is the published state, [T] the instant from which the backend takes it,
    [R] a bound on every grace there can be. *)
Section settle.
Context (lag T R : Z) (ds : DesiredState).
Hypothesis Hlag : 0 <= lag.
Hypothesis Hretry : 0 < retry_after <= RETRY_BACKOFF_MAX.
Hypothesis HT : T + REAP_GRACE <= R.
Hypothesis Hacc : accepts_from T ds.

(** The worker in a world where [ds] is published, seen or not. *)
Definition mk (p : Phase) (c : bool) (f : Z) (t : EnforcerApplyTarget) (now : Z) : world :=
  {| w_phase := p; w_box := {| mb_value := Some ds; mb_changed := c; mb_closed := false |};
     w_failures := f; w_target := t; w_now := now |}.

(** Steps left, when nothing fails. *)
Definition rank (c : bool) (p : Phase) : Z :=
  match p with
  | Idle => if c then 6 else 0
  | DeadlineTask _ _ => if c then 8 else 5
  | DeadlineRun _ _ _ => if c then 7 else 4
  | Waiting _ _ _ => if c then 6 else 3
  | InstallTask _ _ => if c then 8 else 2
  | InstallRun _ _ _ => if c then 7 else 1
  | Pausing _ _ _ => 6
  | Exited => 0
  end.

Definition due (c : bool) (p : Phase) (now : Z) : Z :=
  match wake_at {| mb_value := Some ds; mb_changed := c; mb_closed := false |} p now with Some u => u | None => now end.

Definition retrying (d : DesiredState) (b : Z) : Prop := d = ds /\ 0 < b <= RETRY_BACKOFF_MAX.

Definition installed_by (t : EnforcerApplyTarget) : Prop :=
  (forall g, g ∈ entries t -> applied_version g = Some (ds_policy_version ds)) /\
  (entries t <> [] -> version_gauge t = ds_policy_version ds).

(** What is known in each phase: before [ds] is seen, that an install of something
    older ends in time; afterwards, that it is [ds] that is installed and that its
    deadline was read. *)
Definition stage (c : bool) (p : Phase) (t : EnforcerApplyTarget) (now : Z) : Prop :=
  if c then
    match p with
    | Waiting _ _ dl => due_by R dl
    | InstallTask _ _ => now + 2 * lag + REAP_GRACE <= R
    | InstallRun _ _ _ => now + lag + REAP_GRACE <= R
    | Exited => False
    | _ => True
    end
  else
    match p with
    | Idle => installed_by t
    | DeadlineTask d b => retrying d b
    | DeadlineRun d b newest => retrying d b /\ newest = true
    | Waiting d b dl => retrying d b /\ dl = ready_at t ds true
    | InstallTask d b => retrying d b /\ clear ds now t
    | InstallRun d b newest => retrying d b /\ newest = true /\ clear ds now t
    | Pausing d b until => retrying d b /\ until <= T + RETRY_BACKOFF_MAX
    | Exited => False
    end.

Definition limit : Z := Z.max (T + RETRY_BACKOFF_MAX) R + 8 * lag.

Definition on_course (w : world) : Prop :=
  exists p c f t now, w = mk p c f t now /\ stage c p t now /\
    (c = false /\ p = Idle \/ graces_end R t) /\ due c p now + lag * rank c p <= limit.

Definition variant (w : world) : Z :=
  let c := mb_changed (w_box w) in
  9 * Z.max 0 (T - due c (w_phase w) (w_now w)) + rank c (w_phase w).

Lemma clear_later t now now' : now <= now' -> clear ds now t -> clear ds now' t.
Proof. intros Hle H g Hg Hw r Hr. specialize (H g Hg Hw r Hr). lia. Qed.

(** A step into a phase that is due at once, or at the end of a grace. *)
Lemma on_course_step c c' p p' f f' t t' now now' :
  due c p now <= now' <= due c p now + lag -> due c p now + lag * rank c p <= limit ->
  now' <= due c' p' now' -> due c' p' now' <= now' \/ due c' p' now' <= R ->
  0 <= rank c' p' < rank c p -> rank c p <= 8 ->
  stage c' p' t' now' -> (c' = false /\ p' = Idle \/ graces_end R t') ->
  on_course (mk p' c' f' t' now') /\ 0 <= variant (mk p' c' f' t' now') < variant (mk p c f t now).
Proof.
  intros Hnow Hlim Hge Hdue Hrank H8 Hst Hg. split.
  - exists p', c', f', t', now'. split; [done|]. split; [done|]. split; [done|]. unfold limit in *.
    destruct Hdue; nia.
  - unfold variant. cbn [mk w_box w_phase w_now mb_changed]. lia.
Qed.

(** A refused install: the next attempt is at least the back-off away. *)
Lemma on_course_failed p f f' t t' now now' d b :
  due false p now <= now' -> now' < T -> 0 <= rank false p -> retrying d b -> graces_end R t' ->
  on_course (mk (Pausing d b (now' + b)) false f' t' now') /\
  0 <= variant (mk (Pausing d b (now' + b)) false f' t' now') < variant (mk p false f t now).
Proof.
  intros Hnow Hlt Hrank [-> Hb] Hg. split.
  - exists (Pausing ds b (now' + b)), false, f', t', now'. split; [done|].
    split; [split; [by split|lia]|]. split; [by right|]. unfold limit, due. cbn. lia.
  - unfold variant, due. cbn. unfold due in *. lia.
Qed.

Lemma ok_installs order t now t' :
  order ≡ₚ map fst (map_to_list (enforcers t)) ->
  install from_slice order t ds true now = (Ok tt, t') -> installed_by t'.
Proof.
  intros Hord Hi. destruct (install_ok order t ds true now t' Hord Hi) as [Hall Hg].
  assert (forall g, g ∈ entries t' -> applied_version g = Some (ds_policy_version ds)) as Hv.
  { intros g Hin. by destruct (proj1 (will_write_false ds true g) (Hall g Hin)) as [?|[? _]]. }
  split; [done|]. intros Hne.
  assert (exists g, g ∈ entries t') as [g Hin] by (destruct (entries t') as [|g l]; [done|exists g; left]).
  destruct Hg as [[Hnone _]|[(g' & Hg' & Hv') _]].
  - specialize (Hv g Hin). specialize (Hnone g Hin). congruence.
  - specialize (Hv g' Hg'). congruence.
Qed.

(** The worker's last move, once it has seen [ds]. *)
Lemma install_step f t now now' b order (w' : world) :
  now <= now' <= now + lag -> retrying ds b -> clear ds now' t -> graces_end R t ->
  now + lag * rank false (InstallRun ds b true) <= limit -> order ≡ₚ map fst (map_to_list (enforcers t)) ->
  worker_step from_slice retry_after (Completes order) (mk (InstallRun ds b true) false f t now') = Some w' ->
  on_course w' /\ 0 <= variant w' < variant (mk (InstallRun ds b true) false f t now).
Proof.
  intros Hnow Hb Hclear Hg Hlim Hord Hw. unfold worker_step in Hw. cbn [mk w_phase w_target w_now] in Hw. cbn in Hlim.
  destruct (install from_slice order t ds true now') as [[[]|e] t'] eqn:Ei; simplify_eq.
  - apply (on_course_step false false (InstallRun ds b true) Idle f f t t' now now'); unfold due; cbn; try lia.
    + by eapply ok_installs.
    + by left.
  - assert (now' < T) as Hlt.
    { apply Z.nle_gt. intros Hge. pose proof (install_lands order t ds now' T Hord Hacc Hge Hclear) as H.
      by rewrite Ei in H. }
    pose proof (install_graces order t ds true now' R Hord ltac:(lia) Hg) as Hg'. rewrite Ei in Hg'.
    apply (on_course_failed (InstallRun ds b true) f _ t t' now now' ds b); unfold due; cbn; try done; lia.
Qed.

Lemma scheduled_progress w u :
  wake_at (w_box w) (w_phase w) (w_now w) = Some u -> w_now w <= u -> exists w', scheduled lag w w'.
Proof.
  intros Hu Hle. set (order := map fst (map_to_list (enforcers (w_target w)))).
  destruct (proj2 (worker_enabled (Completes order) w u Hle) (ex_intro _ u (conj Hu (Z.le_refl u)))) as [w' Hw'].
  exists w', u, u, order. split; [done|]. split; [lia|]. by split.
Qed.

(** Adopting the published state. *)
Lemma adopt_step p f t now now' :
  p = Idle \/ (exists d b dl, p = Waiting d b dl /\ due_by R dl) \/ (exists d b u, p = Pausing d b u) ->
  due true p now <= now' <= due true p now + lag -> graces_end R t -> due true p now + lag * rank true p <= limit ->
  on_course (mk (DeadlineTask ds retry_after) false f t now') /\
  0 <= variant (mk (DeadlineTask ds retry_after) false f t now') < variant (mk p true f t now).
Proof.
  intros Hp Hnow Hg Hlim.
  assert (rank true p = 6) as Hr by (destruct Hp as [->|[(? & ? & ? & -> & _)|(? & ? & ? & ->)]]; done).
  apply (on_course_step true false p (DeadlineTask ds retry_after) f f t t now now'); rewrite ?Hr in *; try done;
    unfold due in *; cbn [wake_at rank]; try lia. by right.
Qed.

(** A stale install: it lands or is refused, and either way [ds] is next. *)
Lemma stale_install_step f t now now' d b newest order (w' : world) :
  now <= now' <= now + lag -> now + lag + REAP_GRACE <= R -> graces_end R t -> now + lag * 7 <= limit ->
  order ≡ₚ map fst (map_to_list (enforcers t)) ->
  worker_step from_slice retry_after (Completes order) (mk (InstallRun d b newest) true f t now') = Some w' ->
  on_course w' /\ 0 <= variant w' < variant (mk (InstallRun d b newest) true f t now).
Proof.
  intros Hnow HR Hg Hlim Hord Hw. unfold worker_step in Hw. cbn [mk w_phase w_target w_now] in Hw.
  pose proof (install_graces order t d newest now' R Hord ltac:(lia) Hg) as Hg'.
  destruct (install from_slice order t d newest now') as [[[]|e] t'] eqn:Ei; simplify_eq.
  - apply (on_course_step true true (InstallRun d b newest) Idle f f t t' now now'); unfold due; cbn; try lia; try done.
    by right.
  - apply (on_course_step true true (InstallRun d b newest) (Pausing d b (now' + b)) f _ t t' now now');
      unfold due; cbn; try lia; try done. by right.
Qed.

(** One step before [ds] is seen. *)
Lemma unseen_step p f t now now' order (w' : world) :
  stage true p t now -> graces_end R t -> due true p now + lag * rank true p <= limit ->
  due true p now <= now' <= due true p now + lag -> order ≡ₚ map fst (map_to_list (enforcers t)) ->
  worker_step from_slice retry_after (Completes order) (mk p true f t now') = Some w' ->
  on_course w' /\ 0 <= variant w' < variant (mk p true f t now).
Proof.
  intros Hst Hg Hlim Hnow Hord Hw. destruct p as [|d b|d b n|d b dl|d b|d b n|d b u|]; [..|by destruct Hst].
  - injection Hw as <-. apply adopt_step; auto.
  - injection Hw as <-. apply (on_course_step true true (DeadlineTask d b) _ f f t t now now');
      unfold due in *; cbn in *; try lia; auto.
  - injection Hw as <-. pose proof (proj1 (ready_at_spec t d n R Hg)) as Hr.
    apply (on_course_step true true (DeadlineRun d b n) (Waiting d b _) f f t t now now');
      unfold due in *; cbn in *; try lia; auto; destruct (ready_at t d n) as [r|]; try lia.
    specialize (Hr r eq_refl). lia.
  - unfold worker_step in Hw. cbn in Hw. destruct (match dl with Some _ => _ | None => _ end); [|done]. injection Hw as <-.
    apply adopt_step; eauto 10.
  - injection Hw as <-. apply (on_course_step true true (InstallTask d b) (InstallRun d b _) f f t t now now');
      unfold due in *; cbn in *; try lia; auto.
  - apply (stale_install_step f t now now' d b n order); unfold due in *; cbn in *; try done; lia.
  - injection Hw as <-. apply adopt_step; eauto 10.
Qed.

(** One step after [ds] was seen. *)
Lemma seen_step p f t now now' order (w' : world) :
  p <> Idle -> stage false p t now -> graces_end R t -> due false p now + lag * rank false p <= limit ->
  due false p now <= now' <= due false p now + lag -> order ≡ₚ map fst (map_to_list (enforcers t)) ->
  worker_step from_slice retry_after (Completes order) (mk p false f t now') = Some w' ->
  on_course w' /\ 0 <= variant w' < variant (mk p false f t now).
Proof.
  intros Hp Hst Hg Hlim Hnow Hord Hw. destruct p as [|d b|d b n|d b dl|d b|d b n|d b u|]; [done|..|by destruct Hst].
  - injection Hw as <-. apply (on_course_step false false (DeadlineTask d b) (DeadlineRun d b true) f f t t now now');
      unfold due in *; cbn in *; try lia; auto.
  - injection Hw as <-. destruct Hst as [Hb ->]. pose proof Hb as [-> _].
    pose proof (proj1 (ready_at_spec t ds true R Hg)) as Hr.
    apply (on_course_step false false (DeadlineRun ds b true) (Waiting ds b _) f f t t now now');
      unfold due in *; cbn in *; try lia; auto; destruct (ready_at t ds true) as [r|]; try lia.
    specialize (Hr r eq_refl). lia.
  - destruct Hst as [Hb Edl]. pose proof Hb as [-> _]. unfold worker_step in Hw. cbn in Hw.
    destruct (match dl with Some _ => _ | None => _ end) eqn:Et; [|done]. injection Hw as <-.
    apply (on_course_step false false (Waiting ds b _) (InstallTask ds b) f f t t now now');
      try done; unfold due; cbn; try lia; [|by right].
    split; [done|]. intros g. apply (proj2 (ready_at_spec t ds true R Hg)). intros r Hr. rewrite Edl, Hr in Et. lia.
  - injection Hw as <-. destruct Hst as [Hb Hc]. unfold due in *. cbn in Hnow, Hlim.
    apply (on_course_step false false (InstallTask d b) (InstallRun d b true) f f t t now now');
      unfold due; cbn; try lia; [|by right].
    split; [done|]. split; [done|]. destruct Hb as [-> _]. apply (clear_later t now); [lia|done].
  - destruct Hst as (Hb & -> & Hc). pose proof Hb as [-> _]. unfold due in Hnow, Hlim. cbn [wake_at] in Hnow, Hlim.
    apply (install_step f t now now' b order); try done. apply (clear_later t now); [lia|done].
  - destruct Hst as [[-> Hb] Hu]. unfold worker_step in Hw. cbn in Hw.
    destruct (Z.leb_spec u now'); [|done]. injection Hw as <-.
    apply (on_course_step false false (Pausing ds b u) (DeadlineTask ds (next_backoff b)) f f t t now now');
      try done; unfold due; cbn; try lia; [|by right].
    split; [done|]. unfold next_backoff, RETRY_BACKOFF_MAX, secs, NANOS_PER_SEC in *. lia.
Qed.

Lemma settle_step w :
  on_course w -> ~ (w_phase w = Idle /\ mb_changed (w_box w) = false) ->
  (exists w', scheduled lag w w') /\ forall w', scheduled lag w w' -> on_course w' /\ 0 <= variant w' < variant w.
Proof.
  intros (p & c & f & t & now & -> & Hst & Hg & Hlim) Hrun. cbn [mk w_phase w_box mb_changed] in Hrun.
  assert (graces_end R t) as Hgr by (destruct Hg as [[-> ->]|?]; [by destruct Hrun|done]).
  assert (exists u, wake_at (w_box (mk p c f t now)) p now = Some u /\ now <= u) as (u & Hu & Hle).
  { destruct c, p as [| | |? ? [dl|]| | | |]; cbn in *; try done; try (by destruct Hrun); eexists; (split; [done|lia]). }
  assert (due c p now = u) as Hdue by (unfold due; cbn in Hu; by rewrite Hu).
  split; [by apply (scheduled_progress _ u)|].
  intros w' (u' & now' & order & Hu' & Hnow & Hord & Hw). cbn [mk w_box w_phase w_now] in Hu'. cbn in Hu.
  rewrite Hu in Hu'. injection Hu' as <-. rewrite <- Hdue in Hnow.
  change (set_now now' (mk p c f t now)) with (mk p c f t now') in Hw. cbn [mk w_target] in Hord.
  destruct c; [by apply (unseen_step p f t now now' order)|].
  apply (seen_step p f t now now' order); try done. intros ->. by destruct Hrun.
Qed.
End settle.

Lemma seen_idle w :
  (w_phase w = Idle /\ mb_changed (w_box w) = false) \/ ~ (w_phase w = Idle /\ mb_changed (w_box w) = false).
Proof. destruct (w_phase w), (mb_changed (w_box w)); naive_solver. Qed.

(** The latest instant by which the worker is done. *)
Definition settle_by (lag T D : Z) (w : world) : Z :=
  Z.max (T + RETRY_BACKOFF_MAX) (Z.max D (Z.max T (w_now w + 2 * lag) + REAP_GRACE)) + 8 * lag.

(** C14: The newest policy is installed.  Take any moment at which a policy is published and
    the worker lives, in whatever phase, with all graces over by [D] and a backend that
    takes the policy from [T] on, and let nothing else be published and the worker's
    steps be delayed by at most [lag]: however those steps are timed and whatever order
    the enforcers are walked in, the worker gets back to its idle wait with every
    enforcer on that policy's version and the gauge at it, no later than a retry pause
    after [T], or the graces, plus eight lags. *)
Theorem worker_settles lag T D ds w :
  0 <= lag -> 0 < retry_after <= RETRY_BACKOFF_MAX -> accepts_from T ds ->
  w_box w = {| mb_value := Some ds; mb_changed := true; mb_closed := false |} -> w_phase w <> Exited ->
  graces_end D (w_target w) ->
  match w_phase w with Waiting _ _ deadline => due_by D deadline | _ => True end ->
  eventually (scheduled lag)
    (fun w' => w_phase w' = Idle /\ w_box w' = {| mb_value := Some ds; mb_changed := false; mb_closed := false |} /\
       installed_by ds (w_target w') /\ w_now w' <= settle_by lag T D w) w.
Proof.
  intros Hlag Hretry Hacc Hbox Hrun Hg Hwait.
  set (R := Z.max D (Z.max T (w_now w + 2 * lag) + REAP_GRACE)).
  assert (forall d, due_by D d -> due_by R d) as HDR by (intros d Hd r Hr; specialize (Hd r Hr); lia).
  apply (eventually_variant _ _ (on_course lag T R ds) (variant T ds)).
  - intros x Hx. destruct (seen_idle x) as [Hdone|Hmore].
    + left. destruct Hx as (p & c & f & t & now & -> & Hst & _ & Hlim). cbn in Hdone. destruct Hdone as [-> ->].
      split; [done|]. split; [done|]. split; [done|]. unfold due in Hlim. cbn in Hlim |- *. unfold settle_by, limit in *. lia.
    + right. apply settle_step; try done. lia.
  - destruct w as [p box f t now]. cbn in *. subst box.
    exists p, true, f, t, now. split; [done|]. split.
    { destruct p; cbn; auto; unfold R; lia. }
    split; [right; intros g Hin; by apply HDR, Hg|].
    assert (due ds true p now <= Z.max now R /\ rank true p <= 8) as [Hdue Hrank].
    { destruct p as [| | |? ? [dl|]| | | |]; unfold due; cbn; try lia. pose proof (HDR _ Hwait dl eq_refl). lia. }
    unfold limit, REAP_GRACE, secs, NANOS_PER_SEC in *. nia.
Qed.

(** ** What holds at every point of every run *)

Definition retry_bounds (b : Z) : Prop := retry_after <= b <= RETRY_BACKOFF_MAX.

(** The state in hand is the published one unless a newer one waits; the back-off
    stays in its bounds and no pause is longer. *)
Definition in_hand (w : world) : Prop :=
  match w_phase w with
  | Idle | Exited => True
  | DeadlineTask ds b | DeadlineRun ds b _ | Waiting ds b _ | InstallTask ds b | InstallRun ds b _ =>
      retry_bounds b /\ (mb_changed (w_box w) = false -> mb_value (w_box w) = Some ds)
  | Pausing ds b until =>
      retry_bounds b /\ until <= w_now w + b /\ (mb_changed (w_box w) = false -> mb_value (w_box w) = Some ds)
  end.

Lemma in_hand_adopt w : 0 < retry_after <= RETRY_BACKOFF_MAX -> in_hand (adopt retry_after w).
Proof.
  intros Hr. destruct w as [p [[ds|] c cl] f t now]; unfold in_hand, adopt, retry_bounds; cbn; [|done].
  split; [lia|done].
Qed.

Lemma in_hand_step w w' :
  0 < retry_after <= RETRY_BACKOFF_MAX -> in_hand w -> step from_slice retry_after w w' -> in_hand w'.
Proof.
  intros Hr Hw Hstep. destruct Hstep as [e w w' _ Hs|ds w _|w|d w Hd|t w].
  - unfold worker_step in Hs. unfold in_hand in Hw.
    destruct (w_phase w) as [|d b|d b n|d b dl|d b|d b n|d b u|].
    + destruct (changed (w_box w)) as [[[]|[]]|]; simplify_eq; [by apply in_hand_adopt|done].
    + by simplify_eq.
    + destruct e; simplify_eq; [done|]. destruct Hw as [Hb Hv]. split; [done|]. cbn. split; [lia|done].
    + destruct (match dl with Some _ => _ | None => _ end); [|done].
      destruct (has_changed (w_box w)) as [[]|[]]; simplify_eq; [by apply in_hand_adopt|done..].
    + by simplify_eq.
    + destruct Hw as [Hb Hv]. destruct e as [order|t]; [|simplify_eq; split; [done|]; cbn; split; [lia|done]].
      destruct (install _ _ _ _ _ _) as [[[]|err] t']; simplify_eq; [done|]. split; [done|]. cbn. split; [lia|done].
    + destruct (changed (w_box w)) as [[[]|[]]|] eqn:Ec; simplify_eq; [by apply in_hand_adopt|done|].
      destruct (u <=? w_now w); simplify_eq. destruct Hw as (Hb & _ & Hv).
      split; [|done]. unfold retry_bounds, next_backoff in *. lia.
    + done.
  - destruct w as [p [v c cl] f tg now]. unfold in_hand, publish in *. cbn in *. case_bool_decide; [done|].
    destruct p; cbn; intuition done.
  - destruct w as [p [v c cl] f tg now]. unfold in_hand in *. destruct p; cbn in *; intuition done.
  - destruct w as [p bx f tg now]. unfold in_hand in *. destruct p; cbn in *; try done.
    destruct Hw as (? & ? & ?). split; [done|]. split; [lia|done].
  - exact Hw.
Qed.

Theorem worker_in_hand t now w :
  0 < retry_after <= RETRY_BACKOFF_MAX -> rtc (step from_slice retry_after) (spawn t now) w -> in_hand w.
Proof.
  intros Hr Hrun. assert (in_hand (spawn t now)) as H0 by done. revert H0.
  induction Hrun as [|w w1 w2 Hs _ IH]; [done|]. intros H0. by apply IH, (in_hand_step w).
Qed.

(** A scheduled run is a run. *)
Lemma scheduled_runs lag w w' : w_now w <= default (w_now w) (wake_at (w_box w) (w_phase w) (w_now w)) ->
  scheduled lag w w' -> rtc (step from_slice retry_after) w w'.
Proof.
  intros Hle (u & t & order & Hu & Ht & Hord & Hs). rewrite Hu in Hle. change (w_now w <= u) in Hle.
  apply (rtc_l _ _ (set_now t w)).
  - replace t with (w_now w + (t - w_now w)) by lia. apply step_elapse. lia.
  - apply rtc_once. by apply (step_worker _ _ (Completes order)).
Qed.

(** *** The worker goes away with its handles *)

(** Steps to the exit once every handle is dropped, whatever the tasks do. *)
Definition exit_rank (w : world) : Z :=
  match w_phase w, mb_changed (w_box w) with
  | Exited, _ => 0
  | Idle, c | Pausing _ _ _, c => if c then 5 else 1
  | DeadlineTask _ _, c => if c then 7 else 4
  | DeadlineRun _ _ _, c => if c then 6 else 3
  | Waiting _ _ _, _ => 2
  | InstallTask _ _, c => if c then 7 else 3
  | InstallRun _ _ _, c => if c then 6 else 2
  end.

Definition task_step (w w' : world) : Prop :=
  exists u t e, wake_at (w_box w) (w_phase w) (w_now w) = Some u /\ w_now w <= u <= t /\
    worker_step from_slice retry_after e (set_now t w) = Some w'.

Local Ltac by_exit H := injection H as <-; unfold exit_rank; cbn; (split; [done|lia]).

Theorem worker_exits w :
  mb_closed (w_box w) = true -> eventually task_step (fun w' => w_phase w' = Exited) w.
Proof.
  apply (eventually_variant _ _ (fun w => mb_closed (w_box w) = true) exit_rank). clear w.
  intros [p [v c cl] f t now]. cbn. intros ->. assert (p = Exited \/ p <> Exited) as [->|Hp] by (destruct p; auto); [by left|right]. split.
  - assert (exists u, wake_at {| mb_value := v; mb_changed := c; mb_closed := true |} p now = Some u /\ now <= u)
      as (u & Hu & Hle).
    { destruct p as [| | |? ? [dl|]| | | |], c; cbn in *; try done; eexists; (split; [done|lia]). }
    set (w := {| w_phase := p; w_box := _; w_failures := f; w_target := t; w_now := now |}).
    destruct (proj2 (worker_enabled (Completes []) w u Hle)) as [w' Hw']; [by exists u|].
    exists w', u, u, (Completes []). split; [done|]. split; [cbn; lia|done].
  - intros w' (u & t' & e & Hu & Ht & Hs). destruct p as [|d b|d b n|d b dl|d b|d b n|d b n|]; [..|done];
      unfold worker_step in Hs; cbn in Hs.
    + destruct c; [destruct v|]; by_exit Hs.
    + destruct c; by_exit Hs.
    + destruct e, c; by_exit Hs.
    + destruct (match dl with Some _ => _ | None => _ end); [by_exit Hs|done].
    + destruct c; by_exit Hs.
    + destruct e; [destruct (install _ _ _ _ _ _) as [[[]|err] t1]|]; destruct c; by_exit Hs.
    + destruct c; [destruct v|]; by_exit Hs.
Qed.
End runs.

(** ** Runs of the worker over the eBPF loader *)

Module example.

#[local] Instance Ebpf : EnforcerApi := ebpf_enforcer (N := SimpleNet) (T := MapTrie).

Definition ir_reader (_ : string) : option PolicyIR := Some test_ir.

Definition ds_at (v : Z) : DesiredState :=
  {| ds_revision := 1; ds_peers := []; ds_policy_ir := "ir"; ds_policy_version := v;
     ds_relays := []; ds_revoked_serials := [] |}.

(** The boot device, ready and without policy, and an overlap that applied
    version [v] at instant [t]. *)
Definition boot : GatewayEnforcer := attach (test_boot, gen_default).
Definition overlap (v t : Z) : GatewayEnforcer := (apply_if_changed ir_reader (ds_at v) t boot).2.

Definition live (l : list (TunnelId * GatewayEnforcer)) : EnforcerApplyTarget :=
  {| enforcers := list_to_map l; version_gauge := 0; report_notify := false |}.

Definition versions (t : EnforcerApplyTarget) : list (TunnelId * option Z) :=
  map (fun p => (p.1, applied_version p.2)) (map_to_list (enforcers t)).

(** The overlap flipped a second ago: it is left alone and named, the boot device
    is written. *)
Example overlap_deferred :
  let t := live [(Own 0, boot); (Own 1, overlap 6 (secs 100))] in
  let '(r, t') := install ir_reader [Own 1; Own 0] t (ds_at 7) true (secs 101) in
  r = Err (Deferred [Own 0] [(Own 1, secs 9)]) /\ version_gauge t' = 0 /\
  (applied_version <$> enforcers t' !! Own 0) = Some (Some 7) /\ (applied_version <$> enforcers t' !! Own 1) = Some (Some 6).
Proof. vm_compute. done. Qed.

(** A stale state leaves what is newer alone; a rollback writes it. *)
Example ahead :
  let t := live [(Own 0, overlap 8 0)] in
  (enforcers (install ir_reader [Own 0] t (ds_at 7) false (secs 20)).2 !! Own 0 ≫= applied_version) = Some 8 /\
  (enforcers (install ir_reader [Own 0] t (ds_at 7) true (secs 20)).2 !! Own 0 ≫= applied_version) = Some 7 /\
  version_gauge (install ir_reader [Own 0] t (ds_at 7) false (secs 20)).2 = 8.
Proof. vm_compute. done. Qed.

(** An unreadable policy is a failure that changes nothing. *)
Example unreadable :
  (install (fun _ => None) [Own 0] (live [(Own 0, boot)]) (ds_at 7) true 0).1 =
  Err (ApplyFailed (Own 0) BadPolicyIr [] true).
Proof. vm_compute. done. Qed.

Definition published : World := set_box (publish (ds_at 7) channel) (spawn (live [(Own 0, boot)]) 5).

(** Idle, the deadline read, the wait, the install, idle again. *)
Example five_steps :
  match (fun w => worker_step ir_reader POLICY_APPLY_RETRY (Completes [Own 0]) w) published with
  | Some w =>
      Nat.iter 5 (fun o => o ≫= worker_step ir_reader POLICY_APPLY_RETRY (Completes [Own 0])) (Some w) ≫=
        (fun w' => Some (w_failures w', version_gauge (w_target w'), versions (w_target w'), changed (w_box w')))
  | None => None
  end = Some (0, 7, [(Own 0, Some 7)], None).
Proof. vm_compute. done. Qed.

Lemma test_ir_accepted : accepts_from ir_reader 0 (ds_at 7).
Proof.
  intros [[s gen] v] now _. unfold apply_if_changed. case_bool_decide; [done|].
  change (ir_of ir_reader (ds_at 7)) with (Some test_ir). cbn.
  destruct (apply_succeeds (N := SimpleNet) (T := MapTrie) s gen test_ir now test_flat test_flat_flattens)
    as (ws & gen' & ->). done.
Qed.

Lemma boot_graces id g : enforcers (w_target published) !! id = Some g -> g = boot.
Proof.
  intros H. change (enforcers (w_target published)) with (<[Own 0 := boot]> (∅ : gmap TunnelId GatewayEnforcer)) in H.
  apply lookup_insert_Some in H as [[_ <-]|[_ H]]; [done|]. by rewrite lookup_empty in H.
Qed.

Lemma worker_settles_witness :
  eventually (scheduled ir_reader POLICY_APPLY_RETRY (secs 1))
    (fun w => w_phase w = Idle /\ installed_by (ds_at 7) (w_target w) /\ w_now w <= secs 100) published.
Proof.
  refine (eventually_mono _ _ _ _ _ (worker_settles ir_reader POLICY_APPLY_RETRY (secs 1) 0 0 (ds_at 7) published
    _ _ test_ir_accepted _ _ _ _)).
  - intros w' (Hp & _ & Hi & Hn). split; [done|]. split; [done|]. transitivity (settle_by (secs 1) 0 0 published); [exact Hn|].
    apply Z.leb_le. vm_compute. reflexivity.
  - unfold secs, NANOS_PER_SEC. lia.
  - unfold POLICY_APPLY_RETRY, RETRY_BACKOFF_MAX, secs, NANOS_PER_SEC. lia.
  - done.
  - done.
  - intros g [id Hg]%entries_spec. by rewrite (boot_graces id g Hg).
  - exact I.
Defined.

Lemma install_contract_witness :
  let t := (install ir_reader [Own 0] (live [(Own 0, boot)]) (ds_at 7) true 5).2 in
  gauge_is_live 0 t /\ report_notify t = true.
Proof.
  pose proof (install_contract ir_reader [Own 0] (live [(Own 0, boot)]) (ds_at 7) true 5
    ltac:(vm_compute; reflexivity)) as H.
  destruct (install ir_reader [Own 0] (live [(Own 0, boot)]) (ds_at 7) true 5) as [r t] eqn:E.
  assert (r = Ok tt) as -> by (apply (f_equal fst) in E; revert E; vm_compute; by intros <-).
  exact (proj2 (proj2 H)).
Defined.
End example.
