(* ===== verification/GwRotation.v ===== *)
(** * Gateway: the decisions of a key rotation

    [crates/wiremesh-gateway/src/rotation.rs]: the phases of the gateway's own
    rotation, what to do about each rotating peer, whether a deferred write-back
    still names the overlap it was computed for, which device owns a peer's
    routes, which session on the new device to watch for, and the endpoint a
    collapsing overlap must dial. *)
From Stdlib Require Import ZArith Lia Ascii.
From S2P Require Import Prelude StdNet GwUapi GwState GwReconcile.
Open Scope Z_scope.

(** ** The state machine of the own rotation (Role A) *)

Inductive RotationPhase : Type :=
| Idle
| Overlapping (new_epoch : Z)
| CutOver (new_epoch : Z).

Definition phase_str (p : RotationPhase) : string :=
  match p with Idle => "idle" | Overlapping _ => "overlapping" | CutOver _ => "cutover" end.

Inductive RotationAction : Type :=
| MintBringUpSubmit (epoch : Z)
| FlipRoutes (epoch : Z)
| TearDown (epoch : Z)
| Abort (epoch : Z).

Definition on_directive (new_epoch : Z) (p : RotationPhase) : option RotationAction * RotationPhase :=
  match p with
  | Idle => (Some (MintBringUpSubmit new_epoch), Overlapping new_epoch)
  | _ => (None, p)
  end.

Definition on_new_epoch_session (rx_corroborated : bool) (p : RotationPhase) :
    option RotationAction * RotationPhase :=
  match p with
  | Overlapping new_epoch =>
      if rx_corroborated then (Some (FlipRoutes new_epoch), CutOver new_epoch) else (None, p)
  | _ => (None, p)
  end.

Definition on_epoch_retired (epoch : Z) (p : RotationPhase) : option RotationAction * RotationPhase :=
  match p with
  | CutOver _ => (Some (TearDown epoch), Idle)
  | _ => (None, p)
  end.

Definition on_failed (p : RotationPhase) : option RotationAction * RotationPhase :=
  match p with
  | Overlapping new_epoch => (Some (Abort new_epoch), Idle)
  | _ => (None, p)
  end.

(** ** Rotating peers (Role B) *)

Inductive RoleBDecision : Type :=
| Skip
| Start (pending_epoch : Z)
| Restart (stale_epoch pending_epoch : Z)
| Unusable (pending_epoch : Z).

Definition decide_role_b (peer : PeerState) (overlapped : option Z) : RoleBDecision :=
  match active_key peer, pending_key peer with
  | Some _, Some pending =>
      let pending_epoch := ki_epoch pending in
      match pubkey_b64_to_hex (ki_pubkey_b64 pending) with
      | None => Unusable pending_epoch
      | Some _ =>
          match overlapped with
          | Some held => if held =? pending_epoch then Skip else Restart held pending_epoch
          | None => Start pending_epoch
          end
      end
  | _, _ => Skip
  end.

Definition role_b_decisions (ds : DesiredState) (overlapped : gmap Z Z) : list (Z * RoleBDecision) :=
  map (fun peer => (ps_gateway_id peer, decide_role_b peer (overlapped !! ps_gateway_id peer))) (ds_peers ds).

Record OverlapIdentity : Type := { oi_pending_epoch : Z; oi_new_tun : string }.

#[export] Instance OverlapIdentity_eq_dec : EqDecision OverlapIdentity.
Proof. solve_decision. Defined.

Inductive WriteBack : Type := Apply | Replaced | Vanished.

Definition overlap_write_back (taken : OverlapIdentity) (current : option OverlapIdentity) : WriteBack :=
  match current with
  | None => Vanished
  | Some cur => if bool_decide (cur = taken) then Apply else Replaced
  end.

(** ** Route ownership *)

Inductive RouteOwner : Type := ActiveTun | OverlapTun.

Record OverlapClaim : Type := { oc_built_at_own_epoch : Z; oc_cut_over : bool }.

Definition route_owner (own_active_epoch : Z) (overlap : option OverlapClaim) : RouteOwner :=
  match overlap with
  | Some o =>
      if oc_cut_over o && (oc_built_at_own_epoch o =? own_active_epoch) then OverlapTun else ActiveTun
  | None => ActiveTun
  end.

(** ** The sessions to watch *)

Inductive EpochWatch : Type := Key (hex : string) | Gone.

Definition watch_of (cut_over : bool) (ds : option DesiredState) (pinned : gmap Z string)
    (gid : Z) (snapshot_hex : string) : EpochWatch :=
  if negb cut_over then Key snapshot_hex
  else
    match ds with
    | None => Key snapshot_hex
    | Some ds =>
        match List.find (fun p => ps_gateway_id p =? gid) (ds_peers ds) with
        | None => Gone
        | Some peer =>
            let selected := match pinned !! gid with
                            | Some k => Some k
                            | None => ps_active_pubkey_b64 peer
                            end in
            match selected with
            | None => Gone
            | Some selected => Key (default snapshot_hex (pubkey_b64_to_hex selected))
            end
        end
    end.

Definition new_epoch_watch_keys (snapshot : list (Z * string)) (cut_over : bool)
    (ds : option DesiredState) (pinned : gmap Z string) : list (Z * EpochWatch) :=
  map (fun '(gid, hex) => (gid, watch_of cut_over ds pinned gid hex)) snapshot.

Definition collapse_dial (own_active_epoch built_at_own_epoch : Z) (peer_candidate : string) : option string :=
  if built_at_own_epoch =? own_active_epoch then None else own_tun_endpoint peer_candidate.
