(* ===== verification/GwRotate.v ===== *)
(** * Gateway: the driver of a key rotation

    The rotation half of [crates/wiremesh-gateway/src/main.rs]: a directive
    ([handle_rotate] with its unwinding), the rotation tick (the cutover and the
    retirement of Role A, the cutover and the collapse of Role B), the overlaps
    toward rotating peers, the state event of the sync loop ([apply_state]), and
    the retirements served by the run task.

    Two tasks share this state: the run task and the tick.  Each operation below
    is one stretch of a task between two awaits that matter: a submission in
    flight ([submitting]), the tick's clones of overlap entries ([pending_b],
    [armed_b]) and an acknowledgement in flight ([awaiting_ack]) are part of the
    state, so the other task can run in between.  The liveness read of Role A and
    the acts on it are one stretch.  Devices, enforcer attachment, routes, files
    and the controller are the environment: every call may fail.  Relay
    transports, log lines, the stall clock and the policy hand-off are left out. *)
From Stdlib Require Import ZArith Lia Ascii.
From S2P Require Import Prelude StdNet GwUapi GwState GwReconcile GwEpochKeys GwTunnelset GwRotation.
Open Scope Z_scope.

Definition ROTATION_KEEPALIVE : Z := 3.
Definition RETIRE_GRACE : Z := secs (2 * ROTATION_KEEPALIVE).

(** ** The shared state *)

Record ActiveTunInfo : Type := {
  at_ifname : string;
  at_priv_key : string;
  at_wg_port : Z;
  at_epoch : Z;
  at_applied_config : option string;
  at_applied_peers : list PeerConfig }.

Record RoleAPeer : Type := { rp_gateway_id : Z; rp_active_hex : string; rp_cidrs : list string }.

Record RoleA : Type := {
  ra_new_tun : string;
  ra_new_priv : string;
  ra_new_port : Z;
  ra_old_epoch : Z;
  ra_peers : list RoleAPeer }.

Record RoleB : Type := {
  rb_pending_epoch : Z;
  rb_new_tun : string;
  rb_built_at_own_epoch : Z;
  rb_peer_pending_hex : string;
  rb_peer_cidrs : list string;
  rb_cut_over : bool;
  rb_done : bool;
  rb_collapse_armed : bool }.

Definition claim (b : RoleB) : OverlapClaim :=
  {| oc_built_at_own_epoch := rb_built_at_own_epoch b; oc_cut_over := rb_cut_over b |}.
Definition identity (b : RoleB) : OverlapIdentity :=
  {| oi_pending_epoch := rb_pending_epoch b; oi_new_tun := rb_new_tun b |}.

Definition mark_b (cut_over done armed : bool) (b : RoleB) : RoleB :=
  {| rb_pending_epoch := rb_pending_epoch b; rb_new_tun := rb_new_tun b;
     rb_built_at_own_epoch := rb_built_at_own_epoch b; rb_peer_pending_hex := rb_peer_pending_hex b;
     rb_peer_cidrs := rb_peer_cidrs b; rb_cut_over := cut_over; rb_done := done; rb_collapse_armed := armed |}.

Record RotationResidue : Type := { rr_tun_epoch : Z; rr_minted_epoch : option Z }.

Definition for_directive (directive_epoch : Z) : RotationResidue :=
  {| rr_tun_epoch := directive_epoch; rr_minted_epoch := None |}.

Record Gw : Type := {
  tunnels : TunnelSet;
  enforcers : gset TunnelId;
  devices : gmap string (list PeerConfig);
  routes : gmap string string;
  rotation : RotationPhase;
  rotation_aborts : Z;
  role_a : option RoleA;
  role_b : gmap Z RoleB;
  active_tun : ActiveTunInfo;
  wg0_pins : gmap Z string;
  live_endpoints : gmap Z string;
  desired : option DesiredState;
  applied : option DesiredState;
  retire_ready : option Z;
  collapse_ready : list (Z * Z);
  epoch_keys : EpochKeys;
  key_file : option EpochKeys;
  all_live_since : option Z;
  submitting : option RotationResidue;
  pending_b : list (Z * RoleB);
  awaiting_ack : option (Z * RoleB);
  armed_b : list (Z * RoleB) }.

Definition set_tunnels (v : TunnelSet) (g : Gw) : Gw :=
  {| tunnels := v; enforcers := enforcers g; devices := devices g; routes := routes g; rotation := rotation g;
     rotation_aborts := rotation_aborts g; role_a := role_a g; role_b := role_b g; active_tun := active_tun g;
     wg0_pins := wg0_pins g; live_endpoints := live_endpoints g; desired := desired g; applied := applied g;
     retire_ready := retire_ready g; collapse_ready := collapse_ready g; epoch_keys := epoch_keys g; key_file
     := key_file g; all_live_since := all_live_since g; submitting := submitting g; pending_b := pending_b g;
     awaiting_ack := awaiting_ack g; armed_b := armed_b g |}.
Definition set_enforcers (v : gset TunnelId) (g : Gw) : Gw :=
  {| tunnels := tunnels g; enforcers := v; devices := devices g; routes := routes g; rotation := rotation g;
     rotation_aborts := rotation_aborts g; role_a := role_a g; role_b := role_b g; active_tun := active_tun g;
     wg0_pins := wg0_pins g; live_endpoints := live_endpoints g; desired := desired g; applied := applied g;
     retire_ready := retire_ready g; collapse_ready := collapse_ready g; epoch_keys := epoch_keys g; key_file
     := key_file g; all_live_since := all_live_since g; submitting := submitting g; pending_b := pending_b g;
     awaiting_ack := awaiting_ack g; armed_b := armed_b g |}.
Definition set_devices (v : gmap string (list PeerConfig)) (g : Gw) : Gw :=
  {| tunnels := tunnels g; enforcers := enforcers g; devices := v; routes := routes g; rotation := rotation g;
     rotation_aborts := rotation_aborts g; role_a := role_a g; role_b := role_b g; active_tun := active_tun g;
     wg0_pins := wg0_pins g; live_endpoints := live_endpoints g; desired := desired g; applied := applied g;
     retire_ready := retire_ready g; collapse_ready := collapse_ready g; epoch_keys := epoch_keys g; key_file
     := key_file g; all_live_since := all_live_since g; submitting := submitting g; pending_b := pending_b g;
     awaiting_ack := awaiting_ack g; armed_b := armed_b g |}.
Definition set_routes (v : gmap string string) (g : Gw) : Gw :=
  {| tunnels := tunnels g; enforcers := enforcers g; devices := devices g; routes := v; rotation := rotation
     g; rotation_aborts := rotation_aborts g; role_a := role_a g; role_b := role_b g; active_tun := active_tun
     g; wg0_pins := wg0_pins g; live_endpoints := live_endpoints g; desired := desired g; applied := applied
     g; retire_ready := retire_ready g; collapse_ready := collapse_ready g; epoch_keys := epoch_keys g;
     key_file := key_file g; all_live_since := all_live_since g; submitting := submitting g; pending_b :=
     pending_b g; awaiting_ack := awaiting_ack g; armed_b := armed_b g |}.
Definition set_rotation (v : RotationPhase) (g : Gw) : Gw :=
  {| tunnels := tunnels g; enforcers := enforcers g; devices := devices g; routes := routes g; rotation := v;
     rotation_aborts := rotation_aborts g; role_a := role_a g; role_b := role_b g; active_tun := active_tun g;
     wg0_pins := wg0_pins g; live_endpoints := live_endpoints g; desired := desired g; applied := applied g;
     retire_ready := retire_ready g; collapse_ready := collapse_ready g; epoch_keys := epoch_keys g; key_file
     := key_file g; all_live_since := all_live_since g; submitting := submitting g; pending_b := pending_b g;
     awaiting_ack := awaiting_ack g; armed_b := armed_b g |}.
Definition set_rotation_aborts (v : Z) (g : Gw) : Gw :=
  {| tunnels := tunnels g; enforcers := enforcers g; devices := devices g; routes := routes g; rotation :=
     rotation g; rotation_aborts := v; role_a := role_a g; role_b := role_b g; active_tun := active_tun g;
     wg0_pins := wg0_pins g; live_endpoints := live_endpoints g; desired := desired g; applied := applied g;
     retire_ready := retire_ready g; collapse_ready := collapse_ready g; epoch_keys := epoch_keys g; key_file
     := key_file g; all_live_since := all_live_since g; submitting := submitting g; pending_b := pending_b g;
     awaiting_ack := awaiting_ack g; armed_b := armed_b g |}.
Definition set_role_a (v : option RoleA) (g : Gw) : Gw :=
  {| tunnels := tunnels g; enforcers := enforcers g; devices := devices g; routes := routes g; rotation :=
     rotation g; rotation_aborts := rotation_aborts g; role_a := v; role_b := role_b g; active_tun :=
     active_tun g; wg0_pins := wg0_pins g; live_endpoints := live_endpoints g; desired := desired g; applied
     := applied g; retire_ready := retire_ready g; collapse_ready := collapse_ready g; epoch_keys :=
     epoch_keys g; key_file := key_file g; all_live_since := all_live_since g; submitting := submitting g;
     pending_b := pending_b g; awaiting_ack := awaiting_ack g; armed_b := armed_b g |}.
Definition set_role_b (v : gmap Z RoleB) (g : Gw) : Gw :=
  {| tunnels := tunnels g; enforcers := enforcers g; devices := devices g; routes := routes g; rotation :=
     rotation g; rotation_aborts := rotation_aborts g; role_a := role_a g; role_b := v; active_tun :=
     active_tun g; wg0_pins := wg0_pins g; live_endpoints := live_endpoints g; desired := desired g; applied
     := applied g; retire_ready := retire_ready g; collapse_ready := collapse_ready g; epoch_keys :=
     epoch_keys g; key_file := key_file g; all_live_since := all_live_since g; submitting := submitting g;
     pending_b := pending_b g; awaiting_ack := awaiting_ack g; armed_b := armed_b g |}.
Definition set_active_tun (v : ActiveTunInfo) (g : Gw) : Gw :=
  {| tunnels := tunnels g; enforcers := enforcers g; devices := devices g; routes := routes g; rotation :=
     rotation g; rotation_aborts := rotation_aborts g; role_a := role_a g; role_b := role_b g; active_tun :=
     v; wg0_pins := wg0_pins g; live_endpoints := live_endpoints g; desired := desired g; applied := applied
     g; retire_ready := retire_ready g; collapse_ready := collapse_ready g; epoch_keys := epoch_keys g;
     key_file := key_file g; all_live_since := all_live_since g; submitting := submitting g; pending_b :=
     pending_b g; awaiting_ack := awaiting_ack g; armed_b := armed_b g |}.
Definition set_wg0_pins (v : gmap Z string) (g : Gw) : Gw :=
  {| tunnels := tunnels g; enforcers := enforcers g; devices := devices g; routes := routes g; rotation :=
     rotation g; rotation_aborts := rotation_aborts g; role_a := role_a g; role_b := role_b g; active_tun :=
     active_tun g; wg0_pins := v; live_endpoints := live_endpoints g; desired := desired g; applied := applied
     g; retire_ready := retire_ready g; collapse_ready := collapse_ready g; epoch_keys := epoch_keys g;
     key_file := key_file g; all_live_since := all_live_since g; submitting := submitting g; pending_b :=
     pending_b g; awaiting_ack := awaiting_ack g; armed_b := armed_b g |}.
Definition set_live_endpoints (v : gmap Z string) (g : Gw) : Gw :=
  {| tunnels := tunnels g; enforcers := enforcers g; devices := devices g; routes := routes g; rotation :=
     rotation g; rotation_aborts := rotation_aborts g; role_a := role_a g; role_b := role_b g; active_tun :=
     active_tun g; wg0_pins := wg0_pins g; live_endpoints := v; desired := desired g; applied := applied g;
     retire_ready := retire_ready g; collapse_ready := collapse_ready g; epoch_keys := epoch_keys g; key_file
     := key_file g; all_live_since := all_live_since g; submitting := submitting g; pending_b := pending_b g;
     awaiting_ack := awaiting_ack g; armed_b := armed_b g |}.
Definition set_desired (v : option DesiredState) (g : Gw) : Gw :=
  {| tunnels := tunnels g; enforcers := enforcers g; devices := devices g; routes := routes g; rotation :=
     rotation g; rotation_aborts := rotation_aborts g; role_a := role_a g; role_b := role_b g; active_tun :=
     active_tun g; wg0_pins := wg0_pins g; live_endpoints := live_endpoints g; desired := v; applied :=
     applied g; retire_ready := retire_ready g; collapse_ready := collapse_ready g; epoch_keys := epoch_keys
     g; key_file := key_file g; all_live_since := all_live_since g; submitting := submitting g; pending_b :=
     pending_b g; awaiting_ack := awaiting_ack g; armed_b := armed_b g |}.
Definition set_applied (v : option DesiredState) (g : Gw) : Gw :=
  {| tunnels := tunnels g; enforcers := enforcers g; devices := devices g; routes := routes g; rotation :=
     rotation g; rotation_aborts := rotation_aborts g; role_a := role_a g; role_b := role_b g; active_tun :=
     active_tun g; wg0_pins := wg0_pins g; live_endpoints := live_endpoints g; desired := desired g; applied
     := v; retire_ready := retire_ready g; collapse_ready := collapse_ready g; epoch_keys := epoch_keys g;
     key_file := key_file g; all_live_since := all_live_since g; submitting := submitting g; pending_b :=
     pending_b g; awaiting_ack := awaiting_ack g; armed_b := armed_b g |}.
Definition set_retire_ready (v : option Z) (g : Gw) : Gw :=
  {| tunnels := tunnels g; enforcers := enforcers g; devices := devices g; routes := routes g; rotation :=
     rotation g; rotation_aborts := rotation_aborts g; role_a := role_a g; role_b := role_b g; active_tun :=
     active_tun g; wg0_pins := wg0_pins g; live_endpoints := live_endpoints g; desired := desired g; applied
     := applied g; retire_ready := v; collapse_ready := collapse_ready g; epoch_keys := epoch_keys g; key_file
     := key_file g; all_live_since := all_live_since g; submitting := submitting g; pending_b := pending_b g;
     awaiting_ack := awaiting_ack g; armed_b := armed_b g |}.
Definition set_collapse_ready (v : list (Z * Z)) (g : Gw) : Gw :=
  {| tunnels := tunnels g; enforcers := enforcers g; devices := devices g; routes := routes g; rotation :=
     rotation g; rotation_aborts := rotation_aborts g; role_a := role_a g; role_b := role_b g; active_tun :=
     active_tun g; wg0_pins := wg0_pins g; live_endpoints := live_endpoints g; desired := desired g; applied
     := applied g; retire_ready := retire_ready g; collapse_ready := v; epoch_keys := epoch_keys g; key_file
     := key_file g; all_live_since := all_live_since g; submitting := submitting g; pending_b := pending_b g;
     awaiting_ack := awaiting_ack g; armed_b := armed_b g |}.
Definition set_epoch_keys (v : EpochKeys) (g : Gw) : Gw :=
  {| tunnels := tunnels g; enforcers := enforcers g; devices := devices g; routes := routes g; rotation :=
     rotation g; rotation_aborts := rotation_aborts g; role_a := role_a g; role_b := role_b g; active_tun :=
     active_tun g; wg0_pins := wg0_pins g; live_endpoints := live_endpoints g; desired := desired g; applied
     := applied g; retire_ready := retire_ready g; collapse_ready := collapse_ready g; epoch_keys := v;
     key_file := key_file g; all_live_since := all_live_since g; submitting := submitting g; pending_b :=
     pending_b g; awaiting_ack := awaiting_ack g; armed_b := armed_b g |}.
Definition set_key_file (v : option EpochKeys) (g : Gw) : Gw :=
  {| tunnels := tunnels g; enforcers := enforcers g; devices := devices g; routes := routes g; rotation :=
     rotation g; rotation_aborts := rotation_aborts g; role_a := role_a g; role_b := role_b g; active_tun :=
     active_tun g; wg0_pins := wg0_pins g; live_endpoints := live_endpoints g; desired := desired g; applied
     := applied g; retire_ready := retire_ready g; collapse_ready := collapse_ready g; epoch_keys :=
     epoch_keys g; key_file := v; all_live_since := all_live_since g; submitting := submitting g; pending_b :=
     pending_b g; awaiting_ack := awaiting_ack g; armed_b := armed_b g |}.
Definition set_all_live_since (v : option Z) (g : Gw) : Gw :=
  {| tunnels := tunnels g; enforcers := enforcers g; devices := devices g; routes := routes g; rotation :=
     rotation g; rotation_aborts := rotation_aborts g; role_a := role_a g; role_b := role_b g; active_tun :=
     active_tun g; wg0_pins := wg0_pins g; live_endpoints := live_endpoints g; desired := desired g; applied
     := applied g; retire_ready := retire_ready g; collapse_ready := collapse_ready g; epoch_keys :=
     epoch_keys g; key_file := key_file g; all_live_since := v; submitting := submitting g; pending_b :=
     pending_b g; awaiting_ack := awaiting_ack g; armed_b := armed_b g |}.
Definition set_submitting (v : option RotationResidue) (g : Gw) : Gw :=
  {| tunnels := tunnels g; enforcers := enforcers g; devices := devices g; routes := routes g; rotation :=
     rotation g; rotation_aborts := rotation_aborts g; role_a := role_a g; role_b := role_b g; active_tun :=
     active_tun g; wg0_pins := wg0_pins g; live_endpoints := live_endpoints g; desired := desired g; applied
     := applied g; retire_ready := retire_ready g; collapse_ready := collapse_ready g; epoch_keys :=
     epoch_keys g; key_file := key_file g; all_live_since := all_live_since g; submitting := v; pending_b :=
     pending_b g; awaiting_ack := awaiting_ack g; armed_b := armed_b g |}.
Definition set_pending_b (v : list (Z * RoleB)) (g : Gw) : Gw :=
  {| tunnels := tunnels g; enforcers := enforcers g; devices := devices g; routes := routes g; rotation :=
     rotation g; rotation_aborts := rotation_aborts g; role_a := role_a g; role_b := role_b g; active_tun :=
     active_tun g; wg0_pins := wg0_pins g; live_endpoints := live_endpoints g; desired := desired g; applied
     := applied g; retire_ready := retire_ready g; collapse_ready := collapse_ready g; epoch_keys :=
     epoch_keys g; key_file := key_file g; all_live_since := all_live_since g; submitting := submitting g;
     pending_b := v; awaiting_ack := awaiting_ack g; armed_b := armed_b g |}.
Definition set_awaiting_ack (v : option (Z * RoleB)) (g : Gw) : Gw :=
  {| tunnels := tunnels g; enforcers := enforcers g; devices := devices g; routes := routes g; rotation :=
     rotation g; rotation_aborts := rotation_aborts g; role_a := role_a g; role_b := role_b g; active_tun :=
     active_tun g; wg0_pins := wg0_pins g; live_endpoints := live_endpoints g; desired := desired g; applied
     := applied g; retire_ready := retire_ready g; collapse_ready := collapse_ready g; epoch_keys :=
     epoch_keys g; key_file := key_file g; all_live_since := all_live_since g; submitting := submitting g;
     pending_b := pending_b g; awaiting_ack := v; armed_b := armed_b g |}.
Definition set_armed_b (v : list (Z * RoleB)) (g : Gw) : Gw :=
  {| tunnels := tunnels g; enforcers := enforcers g; devices := devices g; routes := routes g; rotation :=
     rotation g; rotation_aborts := rotation_aborts g; role_a := role_a g; role_b := role_b g; active_tun :=
     active_tun g; wg0_pins := wg0_pins g; live_endpoints := live_endpoints g; desired := desired g; applied
     := applied g; retire_ready := retire_ready g; collapse_ready := collapse_ready g; epoch_keys :=
     epoch_keys g; key_file := key_file g; all_live_since := all_live_since g; submitting := submitting g;
     pending_b := pending_b g; awaiting_ack := awaiting_ack g; armed_b := v |}.

#[export] Instance PeerConfig_eq_dec : EqDecision PeerConfig.
Proof. solve_decision. Defined.

Inductive RotateError : Type :=
| NoDesiredState
| Minting (e : EpochError)
| EpochMismatch
| Planning (e : TunnelError)
| BringUp (e : TunnelError)
| Attaching
| ApplyingPolicy
| ApplyingPeers.

Section gateway.
Context (x25519 : list Z -> list Z) (base_tun : string) (base_wg_port : Z).

(** ** Devices and routes *)

(** [Tunnel::up] leaves a device without peers; dropping one takes its link and
    the routes over it away. *)
Definition tear_down_device (now : Z) (id : TunnelId) (g : Gw) : Gw :=
  match ts_tunnels (tunnels g) !! id with
  | None => g
  | Some t =>
      set_routes (filter (fun '(_, dev) => dev <> t_ifname t) (routes g))
        (set_devices (delete (t_ifname t) (devices g)) (set_tunnels (tear_down now id (tunnels g)) g))
  end.

Definition bring_up_device (up configured : bool) (id : TunnelId) (ifname priv : string) (port : Z) (g : Gw) :
    result TunnelError Gw :=
  ts ← bring_up up configured id ifname priv port (tunnels g);
  Ok (set_devices (<[ifname := []]> (devices g)) (set_tunnels ts g)).

(** [uapi::apply]: [None] when the encoding or the write fails. *)
Definition uapi_apply (replied : bool) (ifname : string) (cfg : DeviceConfig) (g : Gw) : option Gw :=
  match encode_set cfg with
  | Err _ => None
  | Ok _ => if replied then Some (set_devices (<[ifname := peers cfg]> (devices g)) g) else None
  end.

(** [routes::add_route]: [ip route replace]. *)
Definition add_route (can : string -> bool) (ifname cidr : string) (g : Gw) : Gw :=
  if can cidr then set_routes (<[cidr := ifname]> (routes g)) g else g.

Definition place_peer_routes (can : string -> bool) (cidrs : list string) (active_ifname : string)
    (active_epoch : Z) (overlap : option (string * OverlapClaim)) (g : Gw) : Gw :=
  let owner := route_owner active_epoch (snd <$> overlap) in
  let target := match owner, overlap with
                | OverlapTun, Some (ifname, _) => ifname
                | _, _ => active_ifname
                end in
  foldl (fun g cidr => add_route can target cidr g) g cidrs.

(** ** A directive (Role A) *)

(** What the calls of a directive return. *)
Record RotateEnv : Type := {
  re_now : Z;
  re_raw : list Z;
  re_minted : WriteOutcome;
  re_up : bool;
  re_configured : bool;
  re_attached : bool;
  re_policy : bool;
  re_peers : bool;
  re_discarded : WriteOutcome }.

Definition role_a_peer (p : PeerState) : option RoleAPeer :=
  key ← ps_active_pubkey_b64 p;
  hex ← pubkey_b64_to_hex key;
  Some {| rp_gateway_id := ps_gateway_id p; rp_active_hex := hex; rp_cidrs := ps_allowed_ips p |}.

(** The device half, from the minted key to the armed tick. *)
Definition stand_up_epoch (e : RotateEnv) (n : Z) (new_key : EpochKey) (active_epoch : Z)
    (ds : DesiredState) (g : Gw) : result RotateError unit * Gw :=
  match plan_tunnel (Own n) base_tun base_wg_port (plans (re_now e) (tunnels g)) with
  | Err err => (Err (Planning err), g)
  | Ok plan =>
      let new_tun := tp_ifname plan in
      let new_port := tp_listen_port plan in
      match bring_up_device (re_up e) (re_configured e) (tp_id plan) new_tun (ek_private_key_b64 new_key)
              new_port g with
      | Err err => (Err (BringUp err), g)
      | Ok g =>
          if negb (re_attached e) then (Err Attaching, tear_down_device (re_now e) (tp_id plan) g)
          else if negb (re_policy e) then (Err ApplyingPolicy, tear_down_device (re_now e) (tp_id plan) g)
          else
            let g := set_enforcers ({[tp_id plan]} ∪ enforcers g) g in
            let dev := device_config_at_port ds (ek_private_key_b64 new_key) new_port ROTATION_KEEPALIVE in
            match uapi_apply (re_peers e) new_tun dev g with
            | None => (Err ApplyingPeers, g)
            | Some g =>
                (Ok tt, set_role_a (Some {| ra_new_tun := new_tun; ra_new_priv := ek_private_key_b64 new_key;
                                            ra_new_port := new_port; ra_old_epoch := active_epoch;
                                            ra_peers := omap role_a_peer (ds_peers ds) |}) g)
            end
      end
  end.

(** Up to the submission: [Ok false] is a refused directive. *)
Definition handle_rotate_inner (e : RotateEnv) (directive_epoch : Z) (ds : option DesiredState) (g : Gw) :
    result RotateError bool * RotationResidue * Gw :=
  let residue := for_directive directive_epoch in
  let '(action, phase) := on_directive directive_epoch (rotation g) in
  match action with
  | Some (MintBringUpSubmit n) =>
      let g := set_rotation phase g in
      let residue := {| rr_tun_epoch := n; rr_minted_epoch := rr_minted_epoch residue |} in
      match ds with
      | None => (Err NoDesiredState, residue, g)
      | Some ds =>
          match generate_next_at x25519 (epoch_keys g) n (re_raw e) with
          | Err err => (Err (Minting err), residue, g)
          | Ok (new_key, ks) =>
              let residue := {| rr_tun_epoch := n; rr_minted_epoch := Some (ek_epoch new_key) |} in
              let '(written, file) := persist (re_minted e) ks (key_file g) in
              let g := set_key_file file (set_epoch_keys ks g) in
              match written with
              | Err err => (Err (Minting err), residue, g)
              | Ok _ =>
                  let active_epoch := match active ks with Some k => ek_epoch k | None => 0 end in
                  if negb (ek_epoch new_key =? n) then (Err EpochMismatch, residue, g)
                  else
                    match stand_up_epoch e n new_key active_epoch ds g with
                    | (Err err, g) => (Err err, residue, g)
                    | (Ok _, g) => (Ok true, residue, g)
                    end
              end
          end
      end
  | _ => (Ok false, residue, g)
  end.

Definition unwind_failed_rotation (now : Z) (discarded : WriteOutcome) (residue : RotationResidue) (g : Gw) : Gw :=
  let g := set_rotation_aborts (wrap 64 (rotation_aborts g + 1)) g in
  let g := set_role_a None g in
  let id := Own (rr_tun_epoch residue) in
  let g := tear_down_device now id g in
  let g := set_enforcers (enforcers g ∖ {[id]}) g in
  let g := match rr_minted_epoch residue with
           | None => g
           | Some minted =>
               match discard_pending (epoch_keys g) minted with
               | Ok ks => set_key_file (snd (persist discarded ks (key_file g))) (set_epoch_keys ks g)
               | Err _ => g
               end
           end in
  set_rotation (snd (on_failed (rotation g))) g.

(** [handle_rotate] up to the submission of the public key. *)
Definition handle_rotate (e : RotateEnv) (directive_epoch : Z) (g : Gw) : Gw :=
  match handle_rotate_inner e directive_epoch (applied g) g with
  | (Err _, residue, g) => unwind_failed_rotation (re_now e) (re_discarded e) residue g
  | (Ok false, _, g) => g
  | (Ok true, residue, g) => set_submitting (Some residue) g
  end.

(** The answer of the controller. *)
Definition submitted (now : Z) (accepted : bool) (discarded : WriteOutcome) (g : Gw) : Gw :=
  match submitting g with
  | None => g
  | Some residue =>
      let g := set_submitting None g in
      if accepted then g else unwind_failed_rotation now discarded residue g
  end.

(** ** The tick, Role A *)

Definition is_cut_over (p : RotationPhase) : bool := match p with CutOver _ => true | _ => false end.

Definition watch_keys (a : RoleA) (g : Gw) : list string :=
  omap (fun '(_, w) => match w with Key hex => Some hex | Gone => None end)
    (new_epoch_watch_keys (map (fun p => (rp_gateway_id p, rp_active_hex p)) (ra_peers a))
       (is_cut_over (rotation g)) (desired g) (wg0_pins g)).

Definition any_live (live : option (gset string)) (watch : list string) : bool :=
  match live with Some l => existsb (fun hex => bool_decide (hex ∈ l)) watch | None => false end.

Definition all_live (live : option (gset string)) (watch : list string) : bool :=
  match watch, live with
  | [], _ | _, None => false
  | _, Some l => forallb (fun hex => bool_decide (hex ∈ l)) watch
  end.

Definition flip_peer (can : string -> bool) (a : RoleA) (epoch : Z) (g : Gw) (p : RoleAPeer) : Gw :=
  let held := (fun b => (rb_new_tun b, claim b)) <$> role_b g !! rp_gateway_id p in
  place_peer_routes can (rp_cidrs p) (ra_new_tun a) epoch held g.

(** The change guard the cutover seeds. *)
Definition seed_guard (a : RoleA) (g : Gw) : option string * list PeerConfig :=
  match desired g with
  | None => (None, [])
  | Some ds =>
      let dev := device_config_pinned ds (ra_new_priv a) (ra_new_port a) (wg0_pins g) (live_endpoints g) in
      match encode_set dev with Ok enc => (Some enc, peers dev) | Err _ => (None, []) end
  end.

Definition cut_over (can : string -> bool) (promoted : WriteOutcome) (a : RoleA) (epoch : Z) (g : Gw) : Gw :=
  let g := foldl (flip_peer can a epoch) g (ra_peers a) in
  let '(config, applied_peers) := seed_guard a g in
  let g := set_active_tun {| at_ifname := ra_new_tun a; at_priv_key := ra_new_priv a; at_wg_port := ra_new_port a;
                             at_epoch := epoch; at_applied_config := config; at_applied_peers := applied_peers |} g in
  match promote (epoch_keys g) epoch with
  | Ok ks => set_key_file (snd (persist promoted ks (key_file g))) (set_epoch_keys ks g)
  | Err _ => g
  end.

(** [live] is what [read_live_peers] returns. *)
Definition tick_role_a (now : Z) (live : option (gset string)) (can : string -> bool) (promoted : WriteOutcome)
    (g : Gw) : Gw :=
  match role_a g with
  | None => g
  | Some a =>
      let watch := watch_keys a g in
      match rotation g with
      | Overlapping _ =>
          if any_live live watch then
            let '(action, phase) := on_new_epoch_session true (rotation g) in
            let g := set_rotation phase g in
            match action with Some (FlipRoutes epoch) => cut_over can promoted a epoch g | _ => g end
          else g
      | CutOver _ =>
          if all_live live watch then
            let since := default now (all_live_since g) in
            if RETIRE_GRACE <=? sat_sub now since
            then set_all_live_since None (set_role_a None (set_retire_ready (Some (ra_old_epoch a)) g))
            else set_all_live_since (Some since) g
          else set_all_live_since None g
      | Idle => g
      end
  end.

(** ** The retirement of the old epoch *)

(** The part before the first peer block, and the rest. *)
Fixpoint split_at (pat s : string) : string * string :=
  match str_strip_prefix pat s with
  | Some _ => ("", s)
  | None => match s with
            | EmptyString => ("", "")
            | String c s' => let '(a, b) := split_at pat s' in (String c a, b)
            end
  end.

Definition device_header (encoded : string) : string := fst (split_at "public_key=" encoded).

(** [split_inclusive('\n')] *)
Fixpoint split_inclusive (s : string) : list string :=
  match s with
  | EmptyString => []
  | String c s' =>
      if Ascii.eqb c LF then String c "" :: split_inclusive s'
      else match split_inclusive s' with l :: ls => String c l :: ls | [] => [String c ""] end
  end.

Definition rewrite_listen_port (encoded : string) (port : Z) : option string :=
  let '(header, peers) := split_at "public_key=" encoded in
  let lines := split_inclusive header in
  let is_port l := match str_strip_prefix "listen_port=" l with Some _ => true | None => false end in
  if existsb is_port lines then
    Some (String.concat "" (map (fun l => if is_port l then line "listen_port=" (show_uint port) else l) lines) +:+ peers)
  else None.

Definition renormalize_active_listen_port (moved : bool) (g : Gw) : Gw :=
  let a := active_tun g in
  if at_wg_port a =? base_wg_port then g
  else
    match set_listen_port moved (Own (at_epoch a)) base_wg_port (tunnels g) with
    | Err _ => g
    | Ok ts =>
        let config := at_applied_config a ≫= fun cfg => rewrite_listen_port cfg base_wg_port in
        let applied_peers := match at_applied_config a, config with
                             | Some _, None => []
                             | _, _ => at_applied_peers a
                             end in
        set_active_tun {| at_ifname := at_ifname a; at_priv_key := at_priv_key a; at_wg_port := base_wg_port;
                          at_epoch := at_epoch a; at_applied_config := config; at_applied_peers := applied_peers |}
          (set_tunnels ts g)
    end.

Definition service_retire (now : Z) (moved : bool) (written : WriteOutcome) (g : Gw) : Gw :=
  match retire_ready g with
  | None => g
  | Some old_epoch =>
      let g := set_retire_ready None g in
      let '(action, phase) := on_epoch_retired old_epoch (rotation g) in
      let g := set_rotation phase g in
      match action with
      | Some (TearDown epoch) =>
          let g := tear_down_device now (Own epoch) g in
          let g := set_enforcers (enforcers g ∖ {[Own epoch]}) g in
          let g := renormalize_active_listen_port moved g in
          match retire (epoch_keys g) epoch with
          | Ok ks => set_key_file (snd (persist written ks (key_file g))) (set_epoch_keys ks g)
          | Err _ => g
          end
      | _ => g
      end
  end.

(** ** Overlaps toward rotating peers (Role B) *)

(** What the calls for one peer return. *)
Record OverlapEnv : Type := {
  oe_up : bool;
  oe_configured : bool;
  oe_attached : bool;
  oe_policy : bool;
  oe_peers : bool }.

Definition retire_stale_overlap (now : Z) (can : string -> bool) (aid stale_epoch : Z) (g : Gw) : Gw :=
  let stale := role_b g !! aid in
  let g := set_wg0_pins (delete aid (wg0_pins g)) (set_role_b (delete aid (role_b g)) g) in
  let g := match stale with
           | Some b => place_peer_routes can (rb_peer_cidrs b) (at_ifname (active_tun g)) (at_epoch (active_tun g)) None g
           | None => g
           end in
  let id := Overlap aid stale_epoch in
  let g := tear_down_device now id g in
  set_enforcers (enforcers g ∖ {[id]}) g.

(** The overlap toward one peer; every failure leaves the peer without one. *)
Definition stand_up_overlap (now : Z) (e : OverlapEnv) (ds : DesiredState) (aid pending_epoch : Z) (g : Gw) : Gw :=
  match List.find (fun p => ps_gateway_id p =? aid) (ds_peers ds) with
  | None => g
  | Some peer =>
      match active_key peer, pending_key peer with
      | Some active, Some pending =>
          match pubkey_b64_to_hex (ki_pubkey_b64 pending) with
          | None => g
          | Some peer_pending_hex =>
              match List.filter (fun pc => bool_decide (public_key_b64 pc = ki_pubkey_b64 pending))
                      (pending_peer_configs ds ROTATION_KEEPALIVE) with
              | [] => g
              | overlap_peers =>
                  let id := Overlap aid pending_epoch in
                  match plan_tunnel id base_tun base_wg_port (plans now (tunnels g)) with
                  | Err _ => g
                  | Ok plan =>
                      let new_tun := tp_ifname plan in
                      let own_priv := at_priv_key (active_tun g) in
                      let own_epoch := at_epoch (active_tun g) in
                      match bring_up_device (oe_up e) (oe_configured e) id new_tun own_priv (tp_listen_port plan) g with
                      | Err _ => g
                      | Ok g =>
                          if negb (oe_attached e && oe_policy e) then tear_down_device now id g
                          else
                            let g := set_enforcers ({[id]} ∪ enforcers g) g in
                            let dev := {| private_key_b64 := own_priv; listen_port := tp_listen_port plan;
                                          peers := overlap_peers |} in
                            match uapi_apply (oe_peers e) new_tun dev g with
                            | None =>
                                let g := tear_down_device now id g in
                                set_enforcers (enforcers g ∖ {[id]}) g
                            | Some g =>
                                set_role_b (<[aid := {| rb_pending_epoch := pending_epoch; rb_new_tun := new_tun;
                                                        rb_built_at_own_epoch := own_epoch;
                                                        rb_peer_pending_hex := peer_pending_hex;
                                                        rb_peer_cidrs := ps_allowed_ips peer;
                                                        rb_cut_over := false; rb_done := false;
                                                        rb_collapse_armed := false |}]> (role_b g))
                                  (set_wg0_pins (<[aid := ki_pubkey_b64 active]> (wg0_pins g)) g)
                            end
                      end
                  end
              end
          end
      | _, _ => g
      end
  end.

Definition execute_decision (now : Z) (can : string -> bool) (env : Z -> OverlapEnv) (ds : DesiredState) (g : Gw)
    (d : Z * RoleBDecision) : Gw :=
  let '(aid, decision) := d in
  match decision with
  | Skip | Unusable _ => g
  | Start pending_epoch => stand_up_overlap now (env aid) ds aid pending_epoch g
  | Restart stale_epoch pending_epoch =>
      stand_up_overlap now (env aid) ds aid pending_epoch (retire_stale_overlap now can aid stale_epoch g)
  end.

Definition maybe_start_role_b (now : Z) (can : string -> bool) (env : Z -> OverlapEnv) (ds : DesiredState) (g : Gw) : Gw :=
  let overlapped := rb_pending_epoch <$> role_b g in
  foldl (execute_decision now can env ds) g (role_b_decisions ds overlapped).

(** One entry of [maybe_collapse_role_b]. *)
Definition collapse_entry (ds : DesiredState) (g : Gw) (entry : Z * RoleB) : Gw :=
  let '(aid, b) := entry in
  if rb_collapse_armed b then g
  else
    match List.find (fun p => ps_gateway_id p =? aid) (ds_peers ds) with
    | None => g
    | Some peer =>
        match pending_key peer with
        | Some _ => g
        | None =>
            let new_active_hex := active_key peer ≫= fun k => pubkey_b64_to_hex (ki_pubkey_b64 k) in
            if negb (bool_decide (new_active_hex = Some (rb_peer_pending_hex b))) then g
            else
              let g := set_wg0_pins (delete aid (wg0_pins g)) g in
              let dial := primary_endpoint peer ≫= fun c =>
                            collapse_dial (at_epoch (active_tun g)) (rb_built_at_own_epoch b) c in
              let g := match dial with
                       | Some ep => set_live_endpoints (<[aid := ep]> (live_endpoints g)) g
                       | None => g
                       end in
              set_role_b (<[aid := mark_b (rb_cut_over b) (rb_done b) true b]> (role_b g)) g
        end
    end.

Definition maybe_collapse_role_b (ds : DesiredState) (g : Gw) : Gw :=
  foldl (collapse_entry ds) g (map_to_list (role_b g)).

(** ** The tick, Role B *)

(** The clones a pass over the overlaps starts from. *)
Definition take_pending_b (g : Gw) : Gw :=
  set_pending_b (List.filter (fun '(_, b) => negb (rb_done b) && negb (rb_collapse_armed b))
                   (map_to_list (role_b g))) g.
Definition take_armed_b (g : Gw) : Gw :=
  set_armed_b (List.filter (fun '(_, b) => rb_collapse_armed b) (map_to_list (role_b g))) g.

Definition write_back (aid : Z) (b : RoleB) (g : Gw) : WriteBack :=
  overlap_write_back (identity b) (identity <$> role_b g !! aid).

Definition update_b (aid : Z) (f : RoleB -> RoleB) (g : Gw) : Gw := set_role_b (alter f aid (role_b g)) g.

(** The head of the pass, once its liveness is read. *)
Definition role_b_live (live : bool) (can : string -> bool) (g : Gw) : Gw :=
  match pending_b g with
  | [] => g
  | (aid, b) :: rest =>
      let g := set_pending_b rest g in
      if negb live then g
      else
        match write_back aid b g with
        | Apply =>
            let g := update_b aid (fun b => mark_b true (rb_done b) (rb_collapse_armed b) b) g in
            let claim := {| oc_built_at_own_epoch := rb_built_at_own_epoch b; oc_cut_over := true |} in
            let g := place_peer_routes can (rb_peer_cidrs b) (at_ifname (active_tun g)) (at_epoch (active_tun g))
                       (Some (rb_new_tun b, claim)) g in
            set_awaiting_ack (Some (aid, b)) g
        | _ => g
        end
  end.

(** The acknowledgement was sent, or failed. *)
Definition role_b_acked (sent : bool) (g : Gw) : Gw :=
  match awaiting_ack g with
  | None => g
  | Some (aid, b) =>
      let g := set_awaiting_ack None g in
      if negb sent then g
      else
        match write_back aid b g with
        | Apply => update_b aid (fun b => mark_b (rb_cut_over b) true (rb_collapse_armed b) b) g
        | _ => g
        end
  end.

Definition role_b_collapse (live : bool) (can : string -> bool) (g : Gw) : Gw :=
  match armed_b g with
  | [] => g
  | (aid, b) :: rest =>
      let g := set_armed_b rest g in
      if negb live then g
      else
        match write_back aid b g with
        | Apply =>
            let a := active_tun g in
            let g := set_role_b (delete aid (role_b g)) g in
            let g := place_peer_routes can (rb_peer_cidrs b) (at_ifname a) (at_epoch a) None g in
            set_collapse_ready (collapse_ready g ++ [(aid, rb_pending_epoch b)]) g
        | _ => g
        end
  end.

Definition collapse_device (now : Z) (g : Gw) (entry : Z * Z) : Gw :=
  let id := Overlap entry.1 entry.2 in
  let g := tear_down_device now id g in
  set_enforcers (enforcers g ∖ {[id]}) g.

Definition service_role_b_collapse (now : Z) (g : Gw) : Gw :=
  let ready := collapse_ready g in
  foldl (collapse_device now) (set_collapse_ready [] g) ready.

(** ** The state event *)

Inductive PeerSetDelta : Type :=
| Unchanged
| PureAdditions (added : list PeerConfig)
| NeedsFullApply.

(** The last peer of a key: [collect] into a map. *)
Definition prev_of (prev : list PeerConfig) (key : string) : option PeerConfig :=
  List.find (fun p => bool_decide (public_key_b64 p = key)) (rev prev).

Definition classify_peer_delta (prev next : list PeerConfig) : PeerSetDelta :=
  let next_keys := map public_key_b64 next in
  if existsb (fun p => negb (bool_decide (public_key_b64 p ∈ next_keys))) prev then NeedsFullApply
  else if existsb (fun p => match prev_of prev (public_key_b64 p) with
                            | Some existing => negb (bool_decide (existing = p))
                            | None => false
                            end) next then NeedsFullApply
  else
    match List.filter (fun p => match prev_of prev (public_key_b64 p) with None => true | Some _ => false end) next with
    | [] => Unchanged
    | added => PureAdditions added
    end.

Definition set_guard (config : option string) (applied_peers : list PeerConfig) (g : Gw) : Gw :=
  let a := active_tun g in
  set_active_tun {| at_ifname := at_ifname a; at_priv_key := at_priv_key a; at_wg_port := at_wg_port a;
                    at_epoch := at_epoch a; at_applied_config := config; at_applied_peers := applied_peers |} g.

Definition apply_device_if_changed (replied : bool) (ifname : string) (dev : DeviceConfig) (g : Gw) : option Gw :=
  match encode_set dev with
  | Err _ => None
  | Ok encoded =>
      if bool_decide (at_applied_config (active_tun g) = Some encoded) then Some g
      else
        g ← uapi_apply replied ifname dev g;
        Some (set_guard (Some encoded) (peers dev) g)
  end.

(** [None]: the error leaves the run loop and the process ends. *)
Definition apply_device (replied : bool) (ds : DesiredState) (g : Gw) : option Gw :=
  let a := active_tun g in
  let dev := device_config_pinned ds (at_priv_key a) (at_wg_port a) (wg0_pins g) (live_endpoints g) in
  match encode_set dev with
  | Err _ => None
  | Ok encoded =>
      let header_matches := match at_applied_config a with
                            | Some cfg => bool_decide (device_header cfg = device_header encoded)
                            | None => false
                            end in
      let delta := (fun _ => classify_peer_delta (at_applied_peers a) (peers dev)) <$> at_applied_config a in
      match delta, header_matches with
      | Some Unchanged, true => Some g
      | Some (PureAdditions added), true =>
          match encode_add_peers added with
          | Err _ => None
          | Ok _ =>
              if replied then
                Some (set_guard (Some encoded) (peers dev)
                        (set_devices (alter (fun ps => ps ++ added) (at_ifname a) (devices g)) g))
              else None
          end
      | _, _ => apply_device_if_changed replied (at_ifname a) dev g
      end
  end.

Definition no_state : DesiredState :=
  {| ds_revision := 0; ds_peers := []; ds_policy_ir := ""; ds_policy_version := 0; ds_relays := [];
     ds_revoked_serials := [] |}.

(** [ip route del cidr dev ifname]: a route over another device is not found. *)
Definition del_route (ifname cidr : string) (g : Gw) : Gw :=
  if bool_decide (routes g !! cidr = Some ifname) then set_routes (delete cidr (routes g)) g else g.

Definition apply_routes (can : string -> bool) (prev : option DesiredState) (ds : DesiredState) (ifname : string)
    (g : Gw) : option Gw :=
  let diff := route_diff (default no_state prev) ds in
  if forallb can (to_add diff) && forallb can (to_del diff) then
    Some (foldl (fun g cidr => del_route ifname cidr g)
            (foldl (fun g cidr => add_route can ifname cidr g) g (to_add diff)) (to_del diff))
  else None.

Definition apply_state (replied : bool) (can : string -> bool) (prev : option DesiredState) (ds : DesiredState)
    (g : Gw) : option Gw :=
  let ifname := at_ifname (active_tun g) in
  g ← apply_device replied ds g;
  apply_routes can prev ds ifname g.

(** The [State] arm of the sync loop. *)
Definition on_state (now : Z) (replied : bool) (can : string -> bool) (env : Z -> OverlapEnv) (ds : DesiredState)
    (g : Gw) : option Gw :=
  let g := maybe_collapse_role_b ds g in
  g ← apply_state replied can (applied g) ds g;
  let g := maybe_start_role_b now can env ds g in
  Some (set_applied (Some ds) (set_desired (Some ds) g)).

(** ** Boot *)

(** The data plane and the store a start comes up with; [None] ends the process.
    [saved] is the persisted desired state. *)
Definition boot (store : option EpochKeys) (legacy_priv : string) (up configured attached replied : bool)
    (can : string -> bool) (baseline : WriteOutcome) (saved : option DesiredState) : option Gw :=
  match select_boot_key x25519 store legacy_priv,
        match store with Some k => Ok (k, Some k) | None =>
          k ← from_legacy x25519 legacy_priv;
          match persist baseline k None with (Ok _, file) => Ok (k, file) | (Err e, _) => Err e end end with
  | Ok boot_key, Ok (keys, file) =>
      let id := Own (ek_epoch boot_key) in
      match bring_up up configured id base_tun (ek_private_key_b64 boot_key) base_wg_port no_tunnels with
      | Err _ => None
      | Ok ts =>
          if negb attached then None
          else
            let g := {| tunnels := ts; enforcers := {[id]}; devices := {[base_tun := []]}; routes := ∅;
                        rotation := Idle; rotation_aborts := 0; role_a := None; role_b := ∅;
                        active_tun := {| at_ifname := base_tun; at_priv_key := ek_private_key_b64 boot_key;
                                         at_wg_port := base_wg_port; at_epoch := ek_epoch boot_key;
                                         at_applied_config := None; at_applied_peers := [] |};
                        wg0_pins := ∅; live_endpoints := ∅; desired := saved; applied := saved;
                        retire_ready := None; collapse_ready := []; epoch_keys := keys; key_file := file;
                        all_live_since := None; submitting := None; pending_b := []; awaiting_ack := None;
                        armed_b := [] |} in
            match saved with
            | None => Some g
            | Some ds => apply_state replied can None ds g
            end
      end
  | _, _ => None
  end.
End gateway.
