(* ===== verification/GwRotateInv.v ===== *)
(** * Gateway: what holds throughout a rotation

    The runs of the rotation driver of GwRotate and their invariant: whatever the
    interleaving of the run task and the tick, and whichever calls fail, the
    active device is up and filtered, it runs the key the store calls active, and
    every other device belongs to a rotation under way or is about to go. *)
From Stdlib Require Import ZArith Lia Ascii.
From S2P Require Import Prelude StdNet GwUapi GwState GwReconcile GwEpochKeys GwTunnelset GwRotation GwRotate.
Open Scope Z_scope.

(** ** What the invariant reads *)

Definition tun_of (a : ActiveTunInfo) : Tunnel :=
  {| t_ifname := at_ifname a; t_private_key_b64 := at_priv_key a; t_listen_port := at_wg_port a |}.

Record Core : Type := {
  c_tunnels : TunnelSet;
  c_enforcers : gset TunnelId;
  c_epoch : Z;
  c_tun : Tunnel;
  c_keys : EpochKeys;
  c_phase : RotationPhase;
  c_role_a : option RoleA;
  c_retire_ready : option Z;
  c_submitting : option RotationResidue;
  c_overlaps : gmap Z OverlapIdentity;
  c_collapse_ready : list (Z * Z);
  c_since : option Z }.

Definition core (g : Gw) : Core :=
  {| c_tunnels := tunnels g; c_enforcers := enforcers g; c_epoch := at_epoch (active_tun g);
     c_tun := tun_of (active_tun g); c_keys := epoch_keys g; c_phase := rotation g; c_role_a := role_a g;
     c_retire_ready := retire_ready g; c_submitting := submitting g;
     c_overlaps := identity <$> role_b g; c_collapse_ready := collapse_ready g; c_since := all_live_since g |}.

Definition own_only (c : Core) (epochs : list Z) : Prop :=
  forall e t, live_tun (c_tunnels c) (Own e) t -> e ∈ epochs.

(** The device the new epoch runs on. *)
Definition new_tun_of (a : RoleA) : Tunnel :=
  {| t_ifname := ra_new_tun a; t_private_key_b64 := ra_new_priv a; t_listen_port := ra_new_port a |}.

Definition phase_ok (c : Core) : Prop :=
  match c_phase c with
  | Idle => c_role_a c = None /\ c_retire_ready c = None /\ c_submitting c = None /\ own_only c [c_epoch c]
  | Overlapping n =>
      n <> c_epoch c /\ c_retire_ready c = None /\ own_only c [c_epoch c; n] /\
      (forall r, c_submitting c = Some r -> r = {| rr_tun_epoch := n; rr_minted_epoch := Some n |}) /\
      exists a k, c_role_a c = Some a /\ ra_old_epoch a = c_epoch c /\
        live_tun (c_tunnels c) (Own n) (new_tun_of a) /\
        by_epoch (c_keys c) n = Some k /\ ek_state k = "pending" /\ ek_private_key_b64 k = ra_new_priv a
  | CutOver n =>
      n = c_epoch c /\
      exists old, old <> n /\ own_only c [n; old] /\ is_Some (ts_tunnels (c_tunnels c) !! Own old) /\
        ((exists a, c_role_a c = Some a /\ ra_old_epoch a = old /\ c_retire_ready c = None) \/
         (c_role_a c = None /\ c_retire_ready c = Some old))
  end.

(** The overlaps: an entry has its device, and a device is either named by an
    entry or waits for its collapse. *)
Record overlaps_ok (ts : TunnelSet) (overlaps : gmap Z OverlapIdentity) (ready : list (Z * Z)) : Prop := {
  ov_entry : forall aid i, overlaps !! aid = Some i ->
    ((aid, oi_pending_epoch i) ∉ ready) /\
    exists t, live_tun ts (Overlap aid (oi_pending_epoch i)) t /\ t_ifname t = oi_new_tun i;
  ov_owned : forall aid e t, live_tun ts (Overlap aid e) t ->
    (exists i, overlaps !! aid = Some i /\ oi_pending_epoch i = e) \/ (aid, e) ∈ ready;
  ov_ready : forall aid e, (aid, e) ∈ ready -> is_Some (ts_tunnels ts !! Overlap aid e) }.

(** The active key is the one the active device runs. *)
Definition store_ok (ks : EpochKeys) (epoch : Z) (priv : string) : Prop :=
  match active ks with
  | Some k => ek_epoch k = epoch /\ ek_private_key_b64 k = priv
  | None => epoch = 0
  end.

Record core_ok (c : Core) : Prop := {
  co_tunnels : tunnels_ok (c_tunnels c);
  co_enforcers : c_enforcers c = dom (ts_tunnels (c_tunnels c));
  co_active : live_tun (c_tunnels c) (Own (c_epoch c)) (c_tun c);
  co_keys : keys_ok (c_keys c);
  co_store : store_ok (c_keys c) (c_epoch c) (t_private_key_b64 (c_tun c));
  co_phase : phase_ok c;
  co_overlaps : overlaps_ok (c_tunnels c) (c_overlaps c) (c_collapse_ready c) }.

(** Each half reads the devices of its own kind. *)
Lemma overlaps_ok_own ts ts' ov ready :
  (forall aid e, ts_tunnels ts' !! Overlap aid e = ts_tunnels ts !! Overlap aid e) ->
  overlaps_ok ts ov ready -> overlaps_ok ts' ov ready.
Proof.
  intros E [H1 H2 H3]. split; unfold live_tun; setoid_rewrite E; [exact H1|exact H2|exact H3].
Qed.

(** ** Operations the core does not see *)

Lemma add_route_core can ifname cidr g : core (add_route can ifname cidr g) = core g.
Proof. unfold add_route. by destruct (can cidr). Qed.

Lemma foldl_core {A : Type} (f : Gw -> A -> Gw) l g :
  (forall g x, core (f g x) = core g) -> core (foldl f g l) = core g.
Proof. intros Hf. revert g. induction l as [|x l IH]; intros g; [done|]. cbn. by rewrite IH. Qed.

Lemma place_peer_routes_core can cidrs ifname epoch overlap g :
  core (place_peer_routes can cidrs ifname epoch overlap g) = core g.
Proof. apply foldl_core. intros. apply add_route_core. Qed.

Lemma del_route_core ifname cidr g : core (del_route ifname cidr g) = core g.
Proof. unfold del_route. by case_bool_decide. Qed.

Lemma uapi_apply_core replied ifname cfg g g' : uapi_apply replied ifname cfg g = Some g' -> core g' = core g.
Proof. unfold uapi_apply. destruct (encode_set cfg), replied; try done. by intros [= <-]. Qed.

Lemma apply_device_core replied ds g g' : apply_device replied ds g = Some g' -> core g' = core g.
Proof.
  unfold apply_device. set (dev := device_config_pinned _ _ _ _ _).
  assert (apply_device_if_changed replied (at_ifname (active_tun g)) dev g = Some g' -> core g' = core g) as Hfull.
  { unfold apply_device_if_changed. destruct (encode_set dev); [|done]. case_bool_decide; [by intros [= <-]|].
    intros (g1 & H1%uapi_apply_core & [= <-])%bind_Some. done. }
  destruct (encode_set dev) as [encoded|]; [|done].
  destruct (at_applied_config (active_tun g)) as [cfg|]; cbn [fmap option_fmap option_map]; [|done].
  destruct (classify_peer_delta _ _) as [|added|], (bool_decide (device_header cfg = device_header encoded)); try done.
  - by intros [= <-].
  - destruct (encode_add_peers added), replied; try done. by intros [= <-].
Qed.

Lemma apply_state_core replied can prev ds g g' :
  apply_state replied can prev ds g = Some g' -> core g' = core g.
Proof.
  unfold apply_state, apply_routes. intros (g1 & H1%apply_device_core & H2)%bind_Some.
  destruct (_ && _); [|done]. injection H2 as <-.
  rewrite foldl_core by (intros; apply del_route_core). rewrite foldl_core by (intros; apply add_route_core). done.
Qed.

Lemma collapse_entry_core ds g aid b :
  identity <$> role_b g !! aid = Some (identity b) -> core (collapse_entry ds g (aid, b)) = core g.
Proof.
  intros Hb. unfold collapse_entry. destruct (rb_collapse_armed b); [done|].
  destruct (List.find _ _) as [peer|]; [|done]. destruct (pending_key peer); [done|].
  destruct (negb _); [done|].
  assert (forall m, m = <[aid := mark_b (rb_cut_over b) (rb_done b) true b]> (role_b g) ->
    identity <$> m = identity <$> role_b g) as Hm.
  { intros m ->. rewrite fmap_insert. apply insert_id. by rewrite lookup_fmap. }
  destruct (primary_endpoint peer ≫= _); cbn; unfold core; cbn; by rewrite Hm.
Qed.

Lemma maybe_collapse_core ds g : core (maybe_collapse_role_b ds g) = core g.
Proof.
  unfold maybe_collapse_role_b.
  assert (forall l g, Forall (fun '(aid, b) => identity <$> role_b g !! aid = Some (identity b)) l ->
    core (foldl (collapse_entry ds) g l) = core g) as H.
  { clear g. induction l as [|[aid b] l IH]; intros g Hl; [done|]. apply Forall_cons_iff in Hl as [Hb Hl]. cbn [foldl].
    pose proof (collapse_entry_core ds g aid b Hb) as Hc. rewrite IH; [done|].
    pose proof (f_equal c_overlaps Hc) as E. cbn [c_overlaps core] in E.
    eapply list.Forall_impl; [exact Hl|]. intros [i c] Hi. by rewrite <- lookup_fmap, E, lookup_fmap. }
  apply H, list.Forall_forall. intros [aid b] Hb%elem_of_map_to_list. by rewrite Hb.
Qed.

Lemma update_b_core aid f g : (forall b, identity (f b) = identity b) -> core (update_b aid f g) = core g.
Proof.
  intros Hf. unfold core, update_b. cbn. f_equal. apply map_eq. intros i. rewrite !lookup_fmap.
  destruct (decide (aid = i)) as [-> | Hne]; [|by rewrite lookup_alter_ne].
  rewrite lookup_alter_eq. destruct (role_b g !! i); cbn; [by rewrite Hf|done].
Qed.

(** ** Devices that go *)

Lemma live_tear_down now id ts i t : live_tun (tear_down now id ts) i t <-> i <> id /\ live_tun ts i t.
Proof. unfold live_tun. rewrite tear_down_tunnels, lookup_delete_Some. naive_solver. Qed.

(** The core with one device torn down and its enforcer dropped. *)
Definition drop_tun (now : Z) (id : TunnelId) (c : Core) : Core :=
  {| c_tunnels := tear_down now id (c_tunnels c); c_enforcers := c_enforcers c ∖ {[id]}; c_epoch := c_epoch c;
     c_tun := c_tun c; c_keys := c_keys c; c_phase := c_phase c; c_role_a := c_role_a c;
     c_retire_ready := c_retire_ready c; c_submitting := c_submitting c; c_overlaps := c_overlaps c;
     c_collapse_ready := c_collapse_ready c; c_since := c_since c |}.

Lemma tear_down_device_tunnels now id g : tunnels (tear_down_device now id g) = tear_down now id (tunnels g).
Proof. unfold tear_down_device, tear_down. by destruct (ts_tunnels (tunnels g) !! id) eqn:E; cbn; rewrite ?E. Qed.

Lemma drop_core now id g :
  core (set_enforcers (enforcers (tear_down_device now id g) ∖ {[id]}) (tear_down_device now id g)) =
  drop_tun now id (core g).
Proof.
  pose proof (tear_down_device_tunnels now id g) as E. unfold core, drop_tun. cbn. rewrite E.
  unfold tear_down_device. by destruct (ts_tunnels (tunnels g) !! id).
Qed.

Lemma drop_enforcers now id c :
  c_enforcers c = dom (ts_tunnels (c_tunnels c)) ->
  c_enforcers (drop_tun now id c) = dom (ts_tunnels (c_tunnels (drop_tun now id c))).
Proof. cbn. rewrite tear_down_tunnels, dom_delete_L. by intros ->. Qed.

Lemma own_only_drop now e c l : own_only c l -> own_only (drop_tun now (Own e) c) (List.filter (fun x => negb (x =? e)) l).
Proof.
  intros H x t Hx%live_tear_down. destruct Hx as [Hne Hx]. apply elem_of_filter_b. split; [by eapply H|].
  apply negb_true_iff, Z.eqb_neq. congruence.
Qed.

(** ** A directive *)

Section inv.
Context (x25519 : list Z -> list Z) (base_tun : string) (base_wg_port : Z).

Abbreviation handle_rotate := (handle_rotate x25519 base_tun base_wg_port).

(** What a directive leaves alone, failed or not. *)
Record untouched (g g' : Gw) : Prop := {
  un_active : active_tun g' = active_tun g;
  un_role_b : role_b g' = role_b g;
  un_retire : retire_ready g' = retire_ready g;
  un_collapse : collapse_ready g' = collapse_ready g;
  un_desired : desired g' = desired g /\ applied g' = applied g;
  un_pins : wg0_pins g' = wg0_pins g /\ live_endpoints g' = live_endpoints g }.

Lemma untouched_trans g1 g2 g3 : untouched g1 g2 -> untouched g2 g3 -> untouched g1 g3.
Proof. intros [? ? ? ? [] []] [? ? ? ? [] []]. split; try split; congruence. Qed.

Lemma tear_down_untouched now id g : untouched g (tear_down_device now id g).
Proof. unfold tear_down_device. by destruct (ts_tunnels (tunnels g) !! id). Qed.

(** What the device half of a directive leaves behind. *)
Definition stood_up (n : Z) (priv : string) (active_epoch : Z) (g : Gw) (r : result RotateError unit) (g' : Gw) : Prop :=
  untouched g g' /\ epoch_keys g' = epoch_keys g /\ key_file g' = key_file g /\ rotation g' = rotation g /\
  submitting g' = submitting g /\ rotation_aborts g' = rotation_aborts g /\ all_live_since g' = all_live_since g /\
  (tunnels_ok (tunnels g) -> tunnels_ok (tunnels g')) /\
  match r with
  | Ok _ => exists a, role_a g' = Some a /\ ra_old_epoch a = active_epoch /\ ra_new_priv a = priv /\
      ts_tunnels (tunnels g') = <[Own n := new_tun_of a]> (ts_tunnels (tunnels g)) /\
      enforcers g' = {[Own n]} ∪ enforcers g
  | Err _ => role_a g' = role_a g /\ delete (Own n) (ts_tunnels (tunnels g')) = ts_tunnels (tunnels g) /\
      enforcers g' ∖ {[Own n]} = enforcers g
  end.

Lemma torn_down_again now n priv ae g ts devs err :
  ts_tunnels (tunnels g) !! Own n = None -> Own n ∉ enforcers g ->
  delete (Own n) (ts_tunnels ts) = ts_tunnels (tunnels g) -> (tunnels_ok (tunnels g) -> tunnels_ok ts) ->
  stood_up n priv ae g (Err err) (tear_down_device now (Own n) (set_devices devs (set_tunnels ts g))).
Proof.
  intros Hn Hnenf Hts Hok. set (g1 := set_devices _ _).
  pose proof (tear_down_device_tunnels now (Own n) g1) as Et.
  assert (tunnels g1 = ts) as Eg1 by done.
  unfold stood_up. split_and!; try (unfold tear_down_device; by destruct (ts_tunnels (tunnels g1) !! Own n)).
  - intros H. rewrite Et. by apply tear_down_ok, Hok.
  - rewrite Et, tear_down_tunnels, Eg1, Hts. by apply delete_id.
  - assert (enforcers (tear_down_device now (Own n) g1) = enforcers g) as ->
      by (unfold tear_down_device; by destruct (ts_tunnels (tunnels g1) !! Own n)). set_solver.
Qed.

Lemma stand_up_spec e n key active_epoch ds g r g' :
  ts_tunnels (tunnels g) !! Own n = None -> Own n ∉ enforcers g ->
  stand_up_epoch base_tun base_wg_port e n key active_epoch ds g = (r, g') ->
  stood_up n (ek_private_key_b64 key) active_epoch g r g'.
Proof.
  intros Hn Hnenf. unfold stand_up_epoch.
  assert (delete (Own n) (ts_tunnels (tunnels g)) = ts_tunnels (tunnels g)) as Hdel by by apply delete_id.
  assert (enforcers g ∖ {[Own n]} = enforcers g) as Henf by set_solver.
  destruct (plan_tunnel (Own n) base_tun base_wg_port (plans (re_now e) (tunnels g))) as [plan|err] eqn:Ep.
  2:{ intros [= <- <-]. unfold stood_up. split_and!; auto; by split. }
  pose proof (proj1 (plan_spec _ _ _ _ _ Ep)) as Hid.
  unfold bring_up_device. destruct (bring_up _ _ _ _ _ _ _) as [ts|err] eqn:Eb.
  2:{ intros [= <- <-]. unfold stood_up. split_and!; auto; by split. }
  cbn [mbind result_bind].
  assert (tunnels_ok (tunnels g) -> tunnels_ok ts) as Hok by (intros H; by eapply bring_up_ok).
  apply bring_up_spec in Eb as (_ & Ets & _ & _). rewrite Hid in *.
  assert (delete (Own n) (ts_tunnels ts) = ts_tunnels (tunnels g)) as Hts by (rewrite Ets; by apply delete_insert_id).
  destruct (re_attached e); cbn [negb]; [|intros [= <- <-]; by apply torn_down_again].
  destruct (re_policy e); cbn [negb]; [|intros [= <- <-]; by apply torn_down_again].
  unfold uapi_apply. destruct (encode_set _); [destruct (re_peers e)|]; intros [= <- <-]; unfold stood_up; cbn.
  - split_and!; try done. eexists. split_and!; [reflexivity|done|done|exact Ets|done].
  - split_and!; try done. set_solver.
  - split_and!; try done. set_solver.
Qed.

Definition discarded_keys (minted : option Z) (ks : EpochKeys) : EpochKeys :=
  match minted with
  | None => ks
  | Some m => if is_at ks m "pending" then List.filter (other_epoch m) ks else ks
  end.

(** What an unwinding does, field by field. *)
Record unwound (residue : RotationResidue) (g g' : Gw) : Prop := {
  uw_untouched : untouched g g';
  uw_tunnels : ts_tunnels (tunnels g') = delete (Own (rr_tun_epoch residue)) (ts_tunnels (tunnels g));
  uw_tunnels_ok : tunnels_ok (tunnels g) -> tunnels_ok (tunnels g');
  uw_enforcers : enforcers g' = enforcers g ∖ {[Own (rr_tun_epoch residue)]};
  uw_role_a : role_a g' = None;
  uw_rotation : rotation g' = snd (on_failed (rotation g));
  uw_submitting : submitting g' = submitting g;
  uw_since : all_live_since g' = all_live_since g;
  uw_aborts : rotation_aborts g' = wrap 64 (rotation_aborts g + 1);
  uw_keys : epoch_keys g' = discarded_keys (rr_minted_epoch residue) (epoch_keys g) }.

Lemma unwind_spec now w residue g : unwound residue g (unwind_failed_rotation now w residue g).
Proof.
  unfold unwind_failed_rotation. set (g1 := set_role_a None _). set (id := Own (rr_tun_epoch residue)).
  set (g2 := set_enforcers (enforcers (tear_down_device now id g1) ∖ {[id]}) (tear_down_device now id g1)).
  assert (unwound residue g (set_rotation (snd (on_failed (rotation g2)))
    (set_epoch_keys (discarded_keys (rr_minted_epoch residue) (epoch_keys g2)) g2))) as H.
  { pose proof (tear_down_device_tunnels now id g1) as Et. unfold g2.
    split; cbn; rewrite ?Et, ?tear_down_tunnels; try done;
      try (unfold tear_down_device; by destruct (ts_tunnels (tunnels g1) !! id)).
    intros Hok. by apply tear_down_ok. }
  unfold discarded_keys, discard_pending in *. destruct (rr_minted_epoch residue) as [m|].
  - destruct (is_at (epoch_keys g2) m "pending"); cbn [negb] in *.
    + destruct H as [[] ? ? ? ? ? ? ? ? ?]. by split.
    + destruct H as [[] ? ? ? ? ? ? ? ? ?]. by split.
  - destruct H as [[] ? ? ? ? ? ? ? ? ?]. by split.
Qed.

(** The two ways a directive in the idle phase ends. *)
Record refused_setup (n : Z) (g g' : Gw) : Prop := {
  rs_untouched : untouched g g';
  rs_tunnels : ts_tunnels (tunnels g') = ts_tunnels (tunnels g);
  rs_tunnels_ok : tunnels_ok (tunnels g');
  rs_enforcers : enforcers g' = enforcers g;
  rs_idle : rotation g' = Idle /\ role_a g' = None /\ submitting g' = None;
  rs_since : all_live_since g' = all_live_since g;
  rs_aborts : rotation_aborts g' = wrap 64 (rotation_aborts g + 1);
  rs_keys : epoch_keys g' = epoch_keys g \/
    epoch_keys g' = List.filter (other_epoch n) (epoch_keys g) /\
    (forall k, by_epoch (epoch_keys g) n = Some k -> ek_state k = "pending") }.

Record overlapping_started (n : Z) (g g' : Gw) : Prop := {
  os_untouched : untouched g g';
  os_rotation : rotation g' = Overlapping n;
  os_submitting : submitting g' = Some {| rr_tun_epoch := n; rr_minted_epoch := Some n |};
  os_since : all_live_since g' = all_live_since g;
  os_key : exists k a, epoch_keys g' = List.filter (other_epoch n) (epoch_keys g) ++ [k] /\ ek_epoch k = n /\
    ek_state k = "pending" /\ keys_ok (epoch_keys g') /\ role_a g' = Some a /\ ra_new_priv a = ek_private_key_b64 k /\
    ra_old_epoch a = match active (epoch_keys g') with Some k => ek_epoch k | None => 0 end /\
    ts_tunnels (tunnels g') = <[Own n := new_tun_of a]> (ts_tunnels (tunnels g));
  os_tunnels_ok : tunnels_ok (tunnels g');
  os_enforcers : enforcers g' = {[Own n]} ∪ enforcers g;
  os_occupant : forall k, by_epoch (epoch_keys g) n = Some k -> ek_state k = "pending" }.

(** A half-built rotation: what every failure point leaves to the unwinding. *)
Record half_built (n : Z) (minted : option Z) (g G : Gw) : Prop := {
  hb_untouched : untouched g G;
  hb_tunnels : delete (Own n) (ts_tunnels (tunnels G)) = ts_tunnels (tunnels g);
  hb_tunnels_ok : tunnels_ok (tunnels G);
  hb_enforcers : enforcers G ∖ {[Own n]} = enforcers g;
  hb_rotation : rotation G = Overlapping n;
  hb_rest : submitting G = submitting g /\ all_live_since G = all_live_since g /\ rotation_aborts G = rotation_aborts g;
  hb_keys : match minted with
            | None => epoch_keys G = epoch_keys g
            | Some m => m = n /\ (forall k, by_epoch (epoch_keys g) n = Some k -> ek_state k = "pending") /\
                exists k, epoch_keys G = List.filter (other_epoch n) (epoch_keys g) ++ [k] /\
                  ek_epoch k = n /\ ek_state k = "pending"
            end }.

Lemma discard_minted n k ks :
  ek_epoch k = n -> ek_state k = "pending" ->
  discarded_keys (Some n) (List.filter (other_epoch n) ks ++ [k]) = List.filter (other_epoch n) ks.
Proof.
  intros He Hs. unfold discarded_keys.
  assert (is_at (List.filter (other_epoch n) ks ++ [k]) n "pending" = true) as ->.
  { apply is_at_spec. exists k. split; [|done]. apply elem_of_app. right. by apply list_elem_of_singleton. }
  assert (other_epoch n k = false) as Hk by (unfold other_epoch, has_epoch; by rewrite He, Z.eqb_refl).
  rewrite List.filter_app. cbn. rewrite Hk, app_nil_r.
  induction ks as [|x ks IH]; cbn; [done|]. destruct (other_epoch n x) eqn:E; cbn; rewrite ?E, IH; done.
Qed.

Lemma unwind_half_built now w n minted g G :
  submitting g = None -> half_built n minted g G ->
  refused_setup n g (unwind_failed_rotation now w {| rr_tun_epoch := n; rr_minted_epoch := minted |} G).
Proof.
  intros Hsub [Hun Hts Hok Henf Hrot (Hs & Hsi & Hab) Hk].
  destruct (unwind_spec now w {| rr_tun_epoch := n; rr_minted_epoch := minted |} G)
    as [Uun Uts Uok Uenf Ura Urot Usub Usi Uab Uk]; cbn [rr_tun_epoch rr_minted_epoch] in *.
  split; try congruence; auto.
  - by eapply untouched_trans.
  - split_and!; [by rewrite Urot, Hrot|done|congruence].
  - destruct minted as [m|]; [|left; by rewrite Uk, Hk]. destruct Hk as (-> & Hocc & k & E & Hek & Hst).
    right. split; [|done]. rewrite Uk, E. by apply discard_minted.
Qed.

Lemma no_new_device n g :
  core_ok (core g) -> rotation g = Idle -> n <> at_epoch (active_tun g) ->
  ts_tunnels (tunnels g) !! Own n = None /\ Own n ∉ enforcers g.
Proof.
  intros Hok Hidle Hn. pose proof (co_phase _ Hok) as Hp. unfold phase_ok in Hp. cbn in Hp. rewrite Hidle in Hp.
  destruct Hp as (_ & _ & _ & Hown).
  assert (ts_tunnels (tunnels g) !! Own n = None) as H.
  { destruct (ts_tunnels (tunnels g) !! Own n) as [t|] eqn:E; [|done]. apply (Hown n t) in E.
    by apply list_elem_of_singleton in E. }
  split; [done|]. pose proof (co_enforcers _ Hok) as He. cbn in He. rewrite He. by apply not_elem_of_dom.
Qed.

Lemma handle_rotate_spec e n g :
  core_ok (core g) -> rotation g = Idle -> submitting g = None -> n <> at_epoch (active_tun g) ->
  refused_setup n g (handle_rotate e n g) \/ overlapping_started n g (handle_rotate e n g).
Proof.
  intros Hok Hidle Hsub Hn. destruct (no_new_device n g Hok Hidle Hn) as [Hnone Hnenf].
  pose proof (co_tunnels _ Hok) as Htok. cbn in Htok.
  unfold GwRotate.handle_rotate, handle_rotate_inner. rewrite Hidle. cbn [on_directive rr_minted_epoch for_directive].
  set (g1 := set_rotation (Overlapping n) g).
  assert (half_built n None g g1) as H1.
  { split; try done; [by apply delete_id|set_solver]. }
  destruct (applied g) as [ds|]; [|left; by apply unwind_half_built].
  destruct (generate_next_at _ _ _ _) as [[key ks]|err] eqn:Egen; [|left; by apply unwind_half_built].
  pose proof (generate_ok _ _ _ _ _ _ (co_keys _ Hok) Egen) as Hkok.
  apply generate_spec in Egen as (Hke & Hks & _ & Eks & Hocc). cbn [epoch_keys set_rotation g1] in *.
  destruct (persist (re_minted e) ks (key_file g1)) as [written file]. rewrite Hke.
  set (g2 := set_key_file file (set_epoch_keys ks g1)).
  assert (half_built n (Some n) g g2) as H2.
  { split; try done; [by apply delete_id|set_solver|]. split_and!; [done|done|]. exists key. by rewrite <- Eks. }
  destruct written as [u|err]; [|left; by apply unwind_half_built]. rewrite Z.eqb_refl. cbn [negb].
  destruct (stand_up_epoch _ _ _ _ _ _ _ _) as [r g3] eqn:Es.
  apply stand_up_spec in Es; [|done|done].
  destruct Es as (Hun & Ek & _ & Er & Esub & Eab & Esi & Eok & Hr). destruct r as [u'|err].
  - right. destruct Hr as (a & Ha & Hold & Hpriv & Ets & Eenf).
    split; try done.
    + apply (untouched_trans _ g2); [by split|]. apply (untouched_trans _ g3); [done|by split].
    + exists key, a. split_and!; try done; try congruence; cbn; by rewrite Ek.
    + by apply Eok.
  - left. destruct Hr as (Hra & Ets & Eenf). apply unwind_half_built; [done|].
    split; try done.
    + apply (untouched_trans _ g2); [by split|done].
    + by apply Eok.
    + split_and!; [done|done|]. exists key. rewrite Ek. by rewrite <- Eks.
Qed.
End inv.

(** ** The invariant, kept by a directive *)

Lemma active_remove_none ks n : active ks = None -> active (List.filter (other_epoch n) ks) = None.
Proof.
  unfold active. rewrite !find_none_iff, !list.Forall_forall. intros H k [Hk _]%elem_of_other_epoch. by apply H.
Qed.

Lemma store_remove ks n epoch priv :
  keys_ok ks -> store_ok ks epoch priv -> n <> epoch -> store_ok (List.filter (other_epoch n) ks) epoch priv.
Proof.
  unfold store_ok. intros Hok Hst Hn. destruct (active ks) as [k|] eqn:E.
  - rewrite (active_remove _ _ k); [done|done|done|]. destruct Hst as [-> _]. congruence.
  - by rewrite active_remove_none.
Qed.

Lemma store_add ks k epoch priv : ek_state k <> "active" -> store_ok ks epoch priv -> store_ok (ks ++ [k]) epoch priv.
Proof.
  intros Hk. unfold store_ok, active. assert (has_state "active" k = false) as Hb by by apply bool_decide_eq_false_2.
  induction ks as [|x ks IH]; cbn; [by rewrite Hb|]. by destruct (has_state "active" x).
Qed.

Section kept.
Context (g g' : Gw) (n : Z) (Hok : core_ok (core g)).

Lemma refused_ok : rotation g = Idle -> n <> at_epoch (active_tun g) -> refused_setup n g g' -> core_ok (core g').
Proof.
  intros Hidle Hn [[Ea Eb Er Ec _ _] Ets Htok Eenf (Hi & Hra & Hsu) _ _ Hk].
  pose proof (co_phase _ Hok) as Hp. unfold phase_ok in Hp. cbn in Hp. rewrite Hidle in Hp.
  destruct Hp as (_ & Hret & _ & Hown).
  split; cbn; unfold live_tun; rewrite ?Ets, ?Ea; try apply Hok; try done.
  - rewrite Eenf. apply (co_enforcers _ Hok).
  - destruct Hk as [-> | [-> _]]; [apply Hok|apply remove_epoch_ok, Hok].
  - destruct Hk as [-> | [-> _]]; [apply (co_store _ Hok)|]. apply store_remove; [apply Hok..|done].
  - unfold phase_ok. cbn. rewrite Hi. split_and!; [done|congruence|done|].
    intros e t. cbn. unfold live_tun. rewrite Ets, Ea. apply Hown.
  - rewrite Eb, Ec. eapply overlaps_ok_own; [|apply (co_overlaps _ Hok)]. cbn. by rewrite Ets.
Qed.

Lemma started_ok : rotation g = Idle -> n <> at_epoch (active_tun g) -> overlapping_started n g g' -> core_ok (core g').
Proof.
  intros Hidle Hn [[Ea Eb Er Ec _ _] Erot Esub _ (k & a & Ek & Hek & Hks & Hkok & Hra & Hpriv & Hold & Ets) Htok Eenf Hocc].
  pose proof (co_phase _ Hok) as Hp. unfold phase_ok in Hp. cbn in Hp. rewrite Hidle in Hp.
  destruct Hp as (_ & Hret & _ & Hown).
  assert (store_ok (epoch_keys g') (at_epoch (active_tun g)) (at_priv_key (active_tun g))) as Hst.
  { rewrite Ek. apply store_add; [by rewrite Hks|]. apply store_remove; [apply Hok..|done]. }
  assert (forall id, id <> Own n -> ts_tunnels (tunnels g') !! id = ts_tunnels (tunnels g) !! id) as Hother.
  { intros id Hid. rewrite Ets. by apply lookup_insert_ne. }
  assert (live_tun (tunnels g') (Own (at_epoch (active_tun g))) (tun_of (active_tun g))) as Hact.
  { unfold live_tun. rewrite Hother by congruence. apply (co_active _ Hok). }
  split; cbn; rewrite ?Ea; try done.
  - rewrite Eenf, Ets, dom_insert_L. f_equal. apply (co_enforcers _ Hok).
  - unfold phase_ok. cbn. rewrite Erot, Ea. split_and!; [done|congruence| |by rewrite Esub; intros r [= <-]|].
    + intros e t. cbn. unfold live_tun. destruct (decide (e = n)) as [-> | He].
      * intros _. apply list_elem_of_further, list_elem_of_here.
      * rewrite Hother by congruence. intros H%Hown%list_elem_of_singleton. subst. apply list_elem_of_here.
    + exists a, k. split_and!; try done.
      * rewrite Hold. unfold store_ok in Hst. destruct (active (epoch_keys g')); [by destruct Hst|done].
      * unfold live_tun. rewrite Ets. apply lookup_insert_eq.
      * apply by_epoch_spec; [apply Hkok|]. rewrite Ek. split; [|done]. apply elem_of_app. right. by apply list_elem_of_singleton.
  - rewrite Eb, Ec. eapply overlaps_ok_own; [|apply (co_overlaps _ Hok)]. intros. cbn. by apply Hother.
Qed.
End kept.

Lemma own_only_two c n epoch e t : own_only c [epoch; n] -> e <> n -> live_tun (c_tunnels c) (Own e) t -> e = epoch.
Proof. intros H He Ht%H. apply elem_of_cons in Ht as [-> | Ht]; [done|]. by apply list_elem_of_singleton in Ht. Qed.

(** A refused submission. *)
Lemma unwind_ok now w n g :
  core_ok (core g) -> rotation g = Overlapping n ->
  core_ok (core (unwind_failed_rotation now w {| rr_tun_epoch := n; rr_minted_epoch := Some n |} (set_submitting None g))).
Proof.
  intros Hok Hrot. set (residue := {| rr_tun_epoch := n; rr_minted_epoch := Some n |}).
  destruct (unwind_spec now w residue (set_submitting None g))
    as [[Ea Eb Er Ec _ _] Ets Htok Eenf Hra Hph Hsu _ _ Hk].
  set (g' := unwind_failed_rotation _ _ _ _) in *. clearbody g'. cbn [set_submitting tunnels enforcers rotation submitting epoch_keys
    active_tun role_b retire_ready collapse_ready rr_tun_epoch rr_minted_epoch residue] in *.
  pose proof (co_phase _ Hok) as Hp. unfold phase_ok in Hp. cbn in Hp. rewrite Hrot in Hp, Hph.
  destruct Hp as (Hn & Hret & Hown & _ & _).
  assert (forall id, id <> Own n -> ts_tunnels (tunnels g') !! id = ts_tunnels (tunnels g) !! id) as Hother.
  { intros id Hid. rewrite Ets. by apply lookup_delete_ne. }
  assert (epoch_keys g' = epoch_keys g \/ epoch_keys g' = List.filter (other_epoch n) (epoch_keys g)) as Hkeys.
  { rewrite Hk. unfold discarded_keys. destruct (is_at _ _ _); auto. }
  split; cbn; rewrite ?Ea.
  - apply Htok, Hok.
  - rewrite Eenf, Ets, dom_delete_L. f_equal. apply (co_enforcers _ Hok).
  - unfold live_tun. rewrite Hother by congruence. apply (co_active _ Hok).
  - destruct Hkeys as [-> | ->]; [apply Hok|apply remove_epoch_ok, Hok].
  - destruct Hkeys as [-> | ->]; [apply (co_store _ Hok)|]. apply store_remove; [apply Hok..|done].
  - unfold phase_ok. cbn. rewrite Hph, Ea. cbn. split_and!; [done|congruence|done|].
    intros e t. cbn. unfold live_tun. rewrite Ets, lookup_delete_Some. intros [Hne Ht].
    apply list_elem_of_singleton. by eapply (own_only_two (core g) n); [exact Hown|congruence|exact Ht].
  - rewrite Eb, Ec. eapply overlaps_ok_own; [|apply (co_overlaps _ Hok)]. intros. cbn. by apply Hother.
Qed.

(** ** The tick *)

Lemma flip_core can a epoch l g : core (foldl (flip_peer can a epoch) g l) = core g.
Proof. apply foldl_core. intros. apply place_peer_routes_core. Qed.

Lemma cut_over_core can w a n g :
  exists ks, core (cut_over can w a n g) =
    {| c_tunnels := tunnels g; c_enforcers := enforcers g; c_epoch := n; c_tun := new_tun_of a; c_keys := ks;
       c_phase := rotation g; c_role_a := role_a g; c_retire_ready := retire_ready g; c_submitting := submitting g;
       c_overlaps := identity <$> role_b g; c_collapse_ready := collapse_ready g; c_since := all_live_since g |} /\
  match promote (epoch_keys g) n with
  | Ok p => ks = p
  | Err _ => ks = epoch_keys g
  end.
Proof.
  unfold cut_over. pose proof (flip_core can a n (ra_peers a) g) as Hf. revert Hf.
  generalize (foldl (flip_peer can a n) g (ra_peers a)). intros g1 Hf.
  destruct (seed_guard a g1) as [config ps]. cbn [epoch_keys set_active_tun].
  unfold core in Hf. injection Hf as H1 H2 H3 H4 H5 H6 H7 H8 H9 H10 H11 H12 H13 H14. rewrite H7.
  destruct (promote (epoch_keys g) n) as [p|]; eexists; (split; [|done]); unfold core, new_tun_of, tun_of; cbn; congruence.
Qed.

Lemma cut_over_ok can w a n g :
  core_ok (core g) -> rotation g = Overlapping n -> role_a g = Some a ->
  core_ok (core (cut_over can w a n (set_rotation (CutOver n) g))).
Proof.
  intros Hok Hrot Ha. destruct (cut_over_core can w a n (set_rotation (CutOver n) g)) as (ks & -> & Hk).
  cbn [set_rotation tunnels enforcers epoch_keys rotation role_a retire_ready submitting role_b collapse_ready] in *.
  pose proof (co_phase _ Hok) as Hp. unfold phase_ok in Hp. cbn in Hp. rewrite Hrot in Hp.
  destruct Hp as (Hn & Hret & Hown & _ & a' & k & Ha' & Hold & Hlive & Hby & Hpend & Hpriv).
  assert (a' = a) as -> by congruence.
  pose proof (co_keys _ Hok) as Hkok. cbn in Hkok.
  assert (exists p, promote (epoch_keys g) n = Ok p) as (p & Hpr).
  { unfold promote. assert (is_at (epoch_keys g) n "pending" = true) as ->; [|by eexists].
    apply is_at_spec. exists k. apply by_epoch_spec in Hby as [? ?]; [done|apply Hkok]. }
  rewrite Hpr in Hk. subst ks. split; cbn; try apply Hok.
  - exact Hlive.
  - by eapply promote_ok.
  - unfold store_ok. rewrite (promote_active _ _ _ _ Hkok Hpr Hby). cbn.
    apply by_epoch_spec in Hby as [_ ?]; [done|apply Hkok].
  - unfold phase_ok. cbn. split; [done|]. exists (at_epoch (active_tun g)). split_and!; [done| | |].
    + intros e t [-> | ->%list_elem_of_singleton]%Hown%elem_of_cons.
      * apply list_elem_of_further, list_elem_of_here.
      * apply list_elem_of_here.
    + eexists. apply (co_active _ Hok).
    + left. by exists a.
Qed.

Lemma since_ok s g : core_ok (core g) -> core_ok (core (set_all_live_since s g)).
Proof. intros [H1 H2 H3 H4 H5 H6 H7]. split; [exact H1|exact H2|exact H3|exact H4|exact H5|exact H6|exact H7]. Qed.

Lemma tick_role_a_ok now live can w g : core_ok (core g) -> core_ok (core (tick_role_a now live can w g)).
Proof.
  intros Hok. unfold tick_role_a. destruct (role_a g) as [a|] eqn:Ha; [|done]. destruct (rotation g) as [|n|n] eqn:Hrot; [done| |].
  - destruct (any_live live (watch_keys a g)); [|done]. cbn [on_new_epoch_session]. by apply cut_over_ok.
  - destruct (all_live live (watch_keys a g)); [|by apply since_ok]. destruct (RETIRE_GRACE <=? _); [|by apply since_ok].
    apply since_ok. split; try apply Hok. pose proof (co_phase _ Hok) as Hp. unfold phase_ok in *. cbn in *. rewrite Hrot in *.
    destruct Hp as (Hn & old & Hne & Hown & Hlive & [(a' & Ha' & Hold & _) | [Hnone _]]); [|congruence].
    split; [done|]. exists old. split_and!; [done..|]. right. split; [done|]. congruence.
Qed.

(** ** The retirement *)

(** Moving the active device back to the base port. *)
Record renormalized (g g' : Gw) : Prop := {
  rn_port : exists p, tun_of (active_tun g') = with_port p (tun_of (active_tun g)) /\
    ts_tunnels (tunnels g') = <[Own (at_epoch (active_tun g)) := with_port p (tun_of (active_tun g))]> (ts_tunnels (tunnels g));
  rn_tunnels_ok : tunnels_ok (tunnels g) -> tunnels_ok (tunnels g');
  rn_epoch : at_epoch (active_tun g') = at_epoch (active_tun g);
  rn_same : enforcers g' = enforcers g /\ epoch_keys g' = epoch_keys g /\ key_file g' = key_file g /\
    rotation g' = rotation g /\ role_a g' = role_a g /\ retire_ready g' = retire_ready g /\
    submitting g' = submitting g /\ role_b g' = role_b g /\ collapse_ready g' = collapse_ready g /\
    all_live_since g' = all_live_since g /\ routes g' = routes g }.

Lemma renormalize_spec base_wg_port moved g :
  live_tun (tunnels g) (Own (at_epoch (active_tun g))) (tun_of (active_tun g)) ->
  renormalized g (renormalize_active_listen_port base_wg_port moved g).
Proof.
  intros Hlive. assert (renormalized g g) as Hsame.
  { split; try done. exists (at_wg_port (active_tun g)). split; [done|]. by rewrite insert_id. }
  unfold renormalize_active_listen_port. destruct (_ =? base_wg_port); [done|].
  destruct (set_listen_port _ _ _ _) as [ts|] eqn:E; [|done].
  split; cbn; try done.
  - exists base_wg_port. split; [done|]. apply set_listen_port_spec in E as (t & Ht & -> & _).
    by replace t with (tun_of (active_tun g)) by congruence.
  - intros H. by eapply set_listen_port_ok.
Qed.

Lemma retired_ok now old n g g1 g2 ks :
  core_ok (core g) -> rotation g = CutOver n -> retire_ready g = Some old -> submitting g = None ->
  core g1 = drop_tun now (Own old) (core (set_rotation Idle (set_retire_ready None g))) -> renormalized g1 g2 ->
  ks = epoch_keys g2 \/ ks = List.filter (other_epoch old) (epoch_keys g2) -> core_ok (core (set_epoch_keys ks g2)).
Proof.
  intros Hok Hrot Hret Hsub Hc [(p & Et & Ets) Htok Eep (Eenf & Ekeys & _ & Eph & Era & Eret & Esub & Erb & Ecr & _)] Hks.
  unfold core, drop_tun in Hc. cbn in Hc. injection Hc as C1 C2 C3 C4 C5 C6 C7 C8 C9 C10 C11 C12 C13 C14.
  pose proof (co_phase _ Hok) as Hp. unfold phase_ok in Hp. cbn in Hp. rewrite Hrot in Hp.
  destruct Hp as (Hn & o & Hne & Hown & _ & [(? & _ & _ & ?) | [Hra Hro]]); [congruence|].
  assert (o = old) as -> by congruence. rewrite C3, <- Hn in Ets. rewrite C3, <- Hn in Eep.
  assert (forall id, id <> Own old -> id <> Own n -> ts_tunnels (tunnels g2) !! id = ts_tunnels (tunnels g) !! id) as Hother.
  { intros id H1 H2. rewrite Ets, C1, tear_down_tunnels. rewrite lookup_insert_ne by congruence. by apply lookup_delete_ne. }
  assert (ts_tunnels (tunnels g2) !! Own n = Some (tun_of (active_tun g2))) as Hact.
  { rewrite Ets, Et. apply lookup_insert_eq. }
  assert (t_private_key_b64 (tun_of (active_tun g2)) = at_priv_key (active_tun g)) as Hpriv by (rewrite Et; cbn; congruence).
  rewrite Ekeys, C7 in Hks. split; cbn; rewrite ?Eep.
  - apply Htok. rewrite C1. apply tear_down_ok, Hok.
  - rewrite Eenf, C2, Ets, C1, tear_down_tunnels, dom_insert_lookup_L, dom_delete_L.
    + f_equal. apply (co_enforcers _ Hok).
    + rewrite lookup_delete_ne, Hn by congruence. eexists. apply (co_active _ Hok).
  - done.
  - destruct Hks as [-> | ->]; [apply Hok|apply remove_epoch_ok, Hok].
  - cbn in Hpriv. rewrite Hpriv, Hn. destruct Hks as [-> | ->]; [apply (co_store _ Hok)|].
    apply store_remove; [apply Hok|apply (co_store _ Hok)|]. cbn. congruence.
  - unfold phase_ok. cbn. rewrite Eph, C8, Era, C9, Eret, C10, Esub, C11, Eep. split_and!; try done.
    intros e t. cbn. unfold live_tun. destruct (decide (e = n)) as [-> | He].
    { intros _. apply list_elem_of_here. }
    destruct (decide (e = old)) as [-> | Ho].
    { rewrite Ets, C1, tear_down_tunnels, lookup_insert_ne, lookup_delete_eq by congruence. done. }
    rewrite Hother by congruence. intros [-> | ->%list_elem_of_singleton]%Hown%elem_of_cons; done.
  - rewrite Erb, C12, Ecr, C13. eapply overlaps_ok_own; [|apply (co_overlaps _ Hok)]. intros. cbn. by apply Hother.
Qed.

Lemma service_retire_ok base_wg_port now moved w g :
  core_ok (core g) -> submitting g = None -> core_ok (core (service_retire base_wg_port now moved w g)).
Proof.
  intros Hok Hsub. unfold service_retire. destruct (retire_ready g) as [old|] eqn:Hret; [|done].
  assert (exists n, rotation g = CutOver n /\ old <> n /\ n = at_epoch (active_tun g)) as (n & Hrot & Hne & Hn).
  { pose proof (co_phase _ Hok) as Hp. unfold phase_ok in Hp. cbn in Hp. destruct (rotation g) as [|n|n].
    - destruct Hp as (_ & ? & _). congruence.
    - destruct Hp as (_ & ? & _). congruence.
    - exists n. destruct Hp as (Hn & o & Hne & _ & _ & [(? & _ & _ & ?) | [_ ?]]); [congruence|].
      split_and!; [done|congruence|done]. }
  cbn [set_retire_ready rotation]. rewrite Hrot. cbn [on_epoch_retired].
  set (g0 := set_rotation Idle (set_retire_ready None g)).
  set (g1 := set_enforcers _ (tear_down_device now (Own old) g0)).
  assert (core g1 = drop_tun now (Own old) (core g0)) as Hc by apply drop_core. clearbody g1.
  assert (renormalized g1 (renormalize_active_listen_port base_wg_port moved g1)) as Hr.
  { apply renormalize_spec. unfold core, drop_tun in Hc. cbn in Hc. injection Hc as C1 _ C3 C4 C5 C6 _ _ _ _ _ _ _ _.
    unfold tun_of. rewrite C1, C3, C4, C5, C6. apply live_tear_down. split; [congruence|]. apply (co_active _ Hok). }
  set (g2 := renormalize_active_listen_port _ _ _) in *. clearbody g2.
  unfold retire. destruct (is_at (epoch_keys g2) old "retiring"); cbn [negb].
  - apply (retired_ok now old n g g1 g2); auto.
  - apply (retired_ok now old n g g1 g2 (epoch_keys g2)); auto.
Qed.

(** ** Overlaps *)

(** The core with other overlaps; the own devices stay. *)
Definition with_overlaps (ts : TunnelSet) (ov : gmap Z OverlapIdentity) (ready : list (Z * Z)) (c : Core) : Core :=
  {| c_tunnels := ts; c_enforcers := dom (ts_tunnels ts); c_epoch := c_epoch c; c_tun := c_tun c; c_keys := c_keys c;
     c_phase := c_phase c; c_role_a := c_role_a c; c_retire_ready := c_retire_ready c; c_submitting := c_submitting c;
     c_overlaps := ov; c_collapse_ready := ready; c_since := c_since c |}.

Lemma with_overlaps_ok ts ov ready c :
  core_ok c -> tunnels_ok ts -> (forall e, ts_tunnels ts !! Own e = ts_tunnels (c_tunnels c) !! Own e) ->
  overlaps_ok ts ov ready -> core_ok (with_overlaps ts ov ready c).
Proof.
  intros Hok Hts Hown Hov.
  assert (forall l, own_only c l -> own_only (with_overlaps ts ov ready c) l) as Hoo.
  { intros l Hl e t. cbn. unfold live_tun. rewrite Hown. apply Hl. }
  split; cbn; try done; try apply Hok.
  - unfold live_tun. rewrite Hown. apply Hok.
  - pose proof (co_phase _ Hok) as Hp. unfold phase_ok in *. cbn. unfold live_tun.
    destruct (c_phase c) as [|n|n]; [naive_solver| |].
    + destruct Hp as (H1 & H2 & H3 & H4 & a & k & Ha & Hold & Hlive & Hk).
      split_and!; auto. exists a, k. by rewrite Hown.
    + destruct Hp as (H1 & old & H2 & H3 & H4 & H5). split; [done|]. exists old. rewrite Hown. auto.
Qed.

Lemma live_overlap_delete now id ts aid e t :
  id <> Overlap aid e -> live_tun ts (Overlap aid e) t -> live_tun (tear_down now id ts) (Overlap aid e) t.
Proof. intros Hne Ht. by apply live_tear_down. Qed.

Lemma drop_overlap_ok now c aid e :
  core_ok c -> (forall i, c_overlaps c !! aid = Some i -> oi_pending_epoch i = e) -> ((aid, e) ∉ c_collapse_ready c) ->
  overlaps_ok (tear_down now (Overlap aid e) (c_tunnels c)) (delete aid (c_overlaps c)) (c_collapse_ready c).
Proof.
  intros Hok Hi Hready. destruct (co_overlaps _ Hok) as [H1 H2 H3]. split.
  - intros aid' i [Hne Hl]%lookup_delete_Some. destruct (H1 _ _ Hl) as (Hr & t & Ht & Et). split; [done|].
    exists t. split; [|done]. apply live_overlap_delete; [congruence|done].
  - intros aid' e' t [Hne Ht]%live_tear_down. destruct (H2 _ _ _ Ht) as [(i & Hl & He) | Hr]; [|by right]. left.
    exists i. split; [|done]. apply lookup_delete_Some. split; [|done]. intros <-. specialize (Hi _ Hl). congruence.
  - intros aid' e' Hr. rewrite tear_down_tunnels, lookup_delete_ne by congruence. by apply H3.
Qed.

Lemma retire_stale_core now can aid stale g b :
  core_ok (core g) -> role_b g !! aid = Some b ->
  core (retire_stale_overlap now can aid stale g) =
  with_overlaps (tear_down now (Overlap aid stale) (tunnels g)) (delete aid (identity <$> role_b g)) (collapse_ready g) (core g).
Proof.
  intros Hok Hb. unfold retire_stale_overlap. rewrite Hb.
  set (g1 := place_peer_routes _ _ _ _ _ _). set (id := Overlap aid stale).
  pose proof (drop_core now id g1) as Hd. cbn zeta in *. rewrite Hd.
  assert (core g1 = core (set_wg0_pins (delete aid (wg0_pins g)) (set_role_b (delete aid (role_b g)) g))) as ->
    by apply place_peer_routes_core.
  unfold with_overlaps, drop_tun, core. cbn. rewrite fmap_delete, tear_down_tunnels, dom_delete_L.
  f_equal. f_equal. apply (co_enforcers _ Hok).
Qed.

Lemma retire_stale_ok now can aid stale g b :
  core_ok (core g) -> role_b g !! aid = Some b -> rb_pending_epoch b = stale ->
  core_ok (core (retire_stale_overlap now can aid stale g)).
Proof.
  intros Hok Hb Hs. rewrite (retire_stale_core _ _ _ _ _ b) by done.
  assert ((identity <$> role_b g) !! aid = Some (identity b)) as Hl by by rewrite lookup_fmap, Hb.
  apply with_overlaps_ok; [done|apply tear_down_ok, Hok| |].
  - intros e. rewrite tear_down_tunnels. by apply lookup_delete_ne.
  - apply (drop_overlap_ok now (core g)); [done| |].
    + cbn. intros i Hi. rewrite Hl in Hi. injection Hi as <-. done.
    + rewrite <- Hs. by apply (ov_entry _ _ _ (co_overlaps _ Hok) aid (identity b)).
Qed.

(** The two ways an overlap's setup ends. *)
Definition no_overlap (g g' : Gw) : Prop :=
  role_b g' = role_b g /\ exists ts, core g' = with_overlaps ts (identity <$> role_b g) (collapse_ready g) (core g) /\
    ts_tunnels ts = ts_tunnels (tunnels g) /\ tunnels_ok ts.

Definition overlap_up (aid pending_epoch : Z) (g g' : Gw) : Prop :=
  exists b ts t, role_b g' = <[aid := b]> (role_b g) /\ rb_pending_epoch b = pending_epoch /\
    core g' = with_overlaps ts (<[aid := identity b]> (identity <$> role_b g)) (collapse_ready g) (core g) /\
    ts_tunnels (tunnels g) !! Overlap aid pending_epoch = None /\
    ts_tunnels ts = <[Overlap aid pending_epoch := t]> (ts_tunnels (tunnels g)) /\ tunnels_ok ts /\ t_ifname t = rb_new_tun b.

Lemma no_overlap_refl g : core_ok (core g) -> no_overlap g g.
Proof.
  intros Hok. split; [done|]. exists (tunnels g). split_and!; [|done|apply Hok].
  unfold with_overlaps, core. cbn. f_equal. apply (co_enforcers _ Hok).
Qed.

(** A device that came up and went down again. *)
Lemma no_overlap_again now id g ts t g1 :
  core_ok (core g) -> ts_tunnels (tunnels g) !! id = None -> ts_tunnels ts = <[id := t]> (ts_tunnels (tunnels g)) ->
  tunnels_ok ts -> core g1 = core (set_tunnels ts (set_enforcers (enforcers g1) g)) -> role_b g1 = role_b g ->
  enforcers g1 ∖ {[id]} = enforcers g ->
  no_overlap g (set_enforcers (enforcers (tear_down_device now id g1) ∖ {[id]}) (tear_down_device now id g1)).
Proof.
  intros Hok Hnone Ets Hts Hc Hb Henf.
  assert (ts_tunnels (tear_down now id ts) = ts_tunnels (tunnels g)) as E.
  { rewrite tear_down_tunnels, Ets. by apply delete_insert_id. }
  split.
  - rewrite <- Hb. unfold tear_down_device. by destruct (ts_tunnels (tunnels g1) !! id).
  - exists (tear_down now id ts). split_and!; [|done|by apply tear_down_ok].
    pose proof (drop_core now id g1) as Hd. cbn zeta in *. rewrite Hd, Hc.
    unfold drop_tun, with_overlaps, core. cbn. rewrite E, Henf. f_equal. apply (co_enforcers _ Hok).
Qed.

Lemma tear_down_device_enforcers now id g : enforcers (tear_down_device now id g) = enforcers g.
Proof. unfold tear_down_device. by destruct (ts_tunnels (tunnels g) !! id). Qed.

Lemma set_enforcers_same g : core (set_enforcers (enforcers g) g) = core g.
Proof. done. Qed.

Lemma stand_up_overlap_spec base_tun base_wg_port now e ds aid pe g :
  core_ok (core g) ->
  let g' := stand_up_overlap base_tun base_wg_port now e ds aid pe g in no_overlap g g' \/ overlap_up aid pe g g'.
Proof.
  intros Hok. pose proof (no_overlap_refl g Hok) as Hsame. cbn zeta. unfold stand_up_overlap.
  destruct (List.find _ _) as [peer|]; [|by left].
  destruct (active_key peer) as [ak|]; [|by left]. destruct (pending_key peer) as [pk|]; [|by left].
  destruct (pubkey_b64_to_hex _) as [hex|]; [|by left].
  destruct (List.filter _ _) as [|pc pcs]; [by left|].
  destruct (plan_tunnel _ _ _ _) as [plan|]; [|by left].
  unfold bring_up_device. destruct (bring_up _ _ _ _ _ _ _) as [ts|] eqn:Eb; cbn [mbind result_bind]; [|by left].
  assert (tunnels_ok ts) as Hts by (eapply bring_up_ok; [apply Hok|exact Eb]).
  apply bring_up_spec in Eb as (Hnone & Ets & _ & _). set (id := Overlap aid pe) in *.
  assert (id ∉ enforcers g) as Hid.
  { pose proof (co_enforcers _ Hok) as He. cbn in He. rewrite He. by apply not_elem_of_dom. }
  destruct (oe_attached e && oe_policy e); cbn [negb].
  2:{ left. set (g1 := set_devices _ _).
    assert (enforcers (tear_down_device now id g1) ∖ {[id]} = enforcers (tear_down_device now id g1)) as He
      by (rewrite tear_down_device_enforcers; cbn; set_solver).
    destruct (no_overlap_again now id g ts _ g1 Hok Hnone Ets Hts eq_refl eq_refl) as [H1 H2]; [cbn; set_solver|].
    rewrite He in H1, H2. rewrite set_enforcers_same in H2. by split. }
  unfold uapi_apply. destruct (encode_set _) as [enc|]; [destruct (oe_peers e)|].
  - right. eexists _, ts, _. split_and!; [reflexivity|done| |done|exact Ets|done|done].
    unfold with_overlaps, core. cbn. rewrite fmap_insert, Ets, dom_insert_L. f_equal. f_equal. apply (co_enforcers _ Hok).
  - left. eapply no_overlap_again; try done. cbn. set_solver.
  - left. eapply no_overlap_again; try done. cbn. set_solver.
Qed.

Lemma no_overlap_ok g g' : core_ok (core g) -> no_overlap g g' -> core_ok (core g').
Proof.
  intros Hok (_ & ts & -> & E & Hts). apply with_overlaps_ok; [done|done|by rewrite E|].
  eapply overlaps_ok_own; [|apply (co_overlaps _ Hok)]. intros. cbn. by rewrite E.
Qed.

Lemma overlap_up_ok aid pe g g' : core_ok (core g) -> role_b g !! aid = None -> overlap_up aid pe g g' -> core_ok (core g').
Proof.
  intros Hok Hb (b & ts & t & _ & Hpe & -> & Hnone & E & Hts & Ht).
  apply with_overlaps_ok; [done|done|intros; rewrite E; by apply lookup_insert_ne|].
  destruct (co_overlaps _ Hok) as [H1 H2 H3]. cbn in H1, H2, H3. split.
  - intros aid' i. rewrite lookup_insert_Some. intros [[<- <-] | [Hne Hl]].
    + cbn. rewrite Hpe. split.
      * intros [u Hu]%H3. congruence.
      * exists t. split; [|done]. unfold live_tun. rewrite E. apply lookup_insert_eq.
    + destruct (H1 _ _ Hl) as (Hr & u & Hu & Eu). split; [done|]. exists u. split; [|done].
      unfold live_tun. rewrite E. by rewrite lookup_insert_ne by congruence.
  - intros aid' e u. unfold live_tun. rewrite E, lookup_insert_Some. intros [[[= <- <-] _] | [Hne Hu]].
    + left. exists (identity b). by rewrite lookup_insert_eq.
    + destruct (H2 _ _ _ Hu) as [(i & Hl & He) | Hr]; [|by right]. left. exists i. split; [|done].
      rewrite lookup_insert_ne; [done|]. intros <-. by rewrite lookup_fmap, Hb in Hl.
  - intros aid' e Hr. rewrite E. destruct (H3 _ _ Hr) as [u Hu]. apply lookup_insert_is_Some.
    destruct (decide (Overlap aid pe = Overlap aid' e)); [by left|right; by rewrite Hu].
Qed.
