(* ===== verification/GwRotateRun.v ===== *)
(** * Gateway: runs of the rotation driver

    The run task and the tick as one list of actions over the state of GwRotate,
    in any order and with any outcome of the calls they make; the invariant of
    GwRotateInv along such runs, the routes, and what must have happened before
    an old device goes. *)
From Stdlib Require Import ZArith Lia Ascii.
From S2P Require Import Prelude StdNet GwUapi GwState GwReconcile GwEpochKeys GwTunnelset GwRotation GwRotate GwRotateInv.
Open Scope Z_scope.

(** ** The remaining operations keep the core *)

Definition fits (g : Gw) (d : Z * RoleBDecision) : Prop :=
  match d.2 with
  | Start _ => role_b g !! d.1 = None
  | Restart stale _ => exists b, role_b g !! d.1 = Some b /\ rb_pending_epoch b = stale
  | Skip | Unusable _ => True
  end.

Lemma place_peer_routes_only can cidrs ifname epoch ov g :
  exists r, place_peer_routes can cidrs ifname epoch ov g = set_routes r g.
Proof.
  unfold place_peer_routes. set (target := match _ with OverlapTun => _ | ActiveTun => _ end). clearbody target.
  assert (exists r, g = set_routes r g) as H by (exists (routes g); by destruct g).
  revert H. generalize g at 1 3. induction cidrs as [|c cidrs IH]; intros g0 [r ->]; cbn [foldl]; [by exists r|].
  unfold add_route at 2. destruct (can c); [|apply IH; by exists r].
  apply IH. by eexists.
Qed.

Lemma tear_down_device_role_b now id g : role_b (tear_down_device now id g) = role_b g.
Proof. unfold tear_down_device. by destruct (ts_tunnels (tunnels g) !! id). Qed.

Lemma retire_stale_role_b now can aid stale g : role_b (retire_stale_overlap now can aid stale g) = delete aid (role_b g).
Proof.
  unfold retire_stale_overlap. cbn. rewrite tear_down_device_role_b. destruct (role_b g !! aid); [|done].
  destruct (place_peer_routes_only can (rb_peer_cidrs r) (at_ifname (active_tun g)) (at_epoch (active_tun g)) None
    (set_wg0_pins (delete aid (wg0_pins g)) (set_role_b (delete aid (role_b g)) g))) as [rt E].
  cbn in *. by rewrite E.
Qed.

Section run.
Context (x25519 : list Z -> list Z) (base_tun : string) (base_wg_port : Z).

Lemma stand_up_role_b now e ds aid pe g :
  core_ok (core g) -> forall i, i <> aid -> role_b (stand_up_overlap base_tun base_wg_port now e ds aid pe g) !! i = role_b g !! i.
Proof.
  intros Hok i Hi. destruct (stand_up_overlap_spec base_tun base_wg_port now e ds aid pe g Hok) as [[-> _] | (b & _ & _ & -> & _)]; [done|].
  by apply lookup_insert_ne.
Qed.

Lemma stand_up_ok now e ds aid pe g :
  core_ok (core g) -> role_b g !! aid = None -> core_ok (core (stand_up_overlap base_tun base_wg_port now e ds aid pe g)).
Proof.
  intros Hok Hb. destruct (stand_up_overlap_spec base_tun base_wg_port now e ds aid pe g Hok) as [H | H].
  - by eapply no_overlap_ok.
  - by eapply overlap_up_ok.
Qed.

Lemma execute_decision_ok now can env ds g d :
  core_ok (core g) -> fits g d ->
  core_ok (core (execute_decision base_tun base_wg_port now can env ds g d)) /\
  forall i, i <> d.1 -> role_b (execute_decision base_tun base_wg_port now can env ds g d) !! i = role_b g !! i.
Proof.
  intros Hok Hf. destruct d as [aid d]. cbn. destruct d as [|pe|stale pe|pe]; cbn in Hf.
  - done.
  - split; [by apply stand_up_ok|]. by apply stand_up_role_b.
  - destruct Hf as (b & Hb & Hs). pose proof (retire_stale_ok now can aid stale g b Hok Hb Hs) as Hok'.
    split.
    + apply stand_up_ok; [done|]. rewrite retire_stale_role_b. apply lookup_delete_eq.
    + intros i Hi. rewrite stand_up_role_b by done. rewrite retire_stale_role_b. by apply lookup_delete_ne.
  - done.
Qed.

(** Decisions of distinct peers stay fitting; [P] rides along. *)
Lemma execute_decisions_ok (P : Gw -> Prop) now can env ds l g :
  (forall g d, core_ok (core g) -> fits g d -> P g -> P (execute_decision base_tun base_wg_port now can env ds g d)) ->
  core_ok (core g) -> P g -> NoDup (map fst l) -> Forall (fits g) l ->
  let g' := foldl (execute_decision base_tun base_wg_port now can env ds) g l in core_ok (core g') /\ P g'.
Proof.
  intros HP. revert g. induction l as [|d l IH]; intros g Hok Hg Hnd Hl; [done|]. cbn [foldl].
  cbn in Hnd. apply list.NoDup_cons in Hnd as [Hd Hnd]. apply Forall_cons_iff in Hl as [Hf Hl].
  destruct (execute_decision_ok now can env ds g d Hok Hf) as [Hok' Hframe]. apply IH; [done|by apply HP|done|].
  apply list.Forall_forall. intros d' Hd'. rewrite list.Forall_forall in Hl. specialize (Hl d' Hd').
  unfold fits in *. rewrite Hframe; [done|]. intros E. apply Hd. rewrite <- E. apply list_elem_of_fmap. by exists d'.
Qed.

Lemma decisions_fit g ds : Forall (fits g) (role_b_decisions ds (rb_pending_epoch <$> role_b g)).
Proof.
  apply list.Forall_forall. intros d (peer & -> & _)%list_elem_of_fmap. unfold fits. cbn. rewrite lookup_fmap.
  unfold decide_role_b. destruct (active_key peer); [|done]. destruct (pending_key peer) as [pk|]; [|done].
  destruct (pubkey_b64_to_hex _); [|done]. destruct (role_b g !! ps_gateway_id peer) as [b|] eqn:E; cbn; [|done].
  destruct (_ =? _); [done|]. by exists b.
Qed.

Definition gateway_ids (ds : DesiredState) : list Z := map ps_gateway_id (ds_peers ds).

(** *** The passes over the overlaps *)

Lemma role_b_live_core live can g : core (role_b_live live can g) = core g.
Proof.
  unfold role_b_live. destruct (pending_b g) as [|[aid b] rest]; [done|]. destruct live; [|done]. cbn [negb].
  destruct (write_back _ _ _); try done.
  match goal with |- core (set_awaiting_ack _ ?g1) = _ => change (core g1 = core g) end.
  rewrite place_peer_routes_core. by rewrite update_b_core.
Qed.

Lemma role_b_acked_core sent g : core (role_b_acked sent g) = core g.
Proof.
  unfold role_b_acked. destruct (awaiting_ack g) as [[aid b]|]; [|done]. destruct sent; [|done]. cbn [negb].
  destruct (write_back _ _ _); try done. by rewrite update_b_core.
Qed.

Lemma write_back_apply aid b g :
  write_back aid b g = Apply -> exists cur, role_b g !! aid = Some cur /\ identity cur = identity b.
Proof.
  unfold write_back, overlap_write_back. destruct (role_b g !! aid) as [cur|]; cbn; [|done].
  case_bool_decide; [|done]. by exists cur.
Qed.

Lemma role_b_collapse_ok live can g : core_ok (core g) -> core_ok (core (role_b_collapse live can g)).
Proof.
  intros Hok. unfold role_b_collapse. destruct (armed_b g) as [|[aid b] rest]; [done|]. destruct live; [|done]. cbn [negb].
  destruct (write_back _ _ _) eqn:Ew; try done. apply write_back_apply in Ew as (cur & Hcur & Hid). cbn in Hcur.
  set (g1 := place_peer_routes _ _ _ _ _ _).
  assert (core g1 = core (set_role_b (delete aid (role_b g)) g)) as Hc by (etransitivity; [apply place_peer_routes_core|done]).
  clearbody g1. assert (core (set_collapse_ready (collapse_ready g1 ++ [(aid, rb_pending_epoch b)]) g1) =
    with_overlaps (tunnels g) (delete aid (identity <$> role_b g)) (collapse_ready g ++ [(aid, rb_pending_epoch b)]) (core g)) as ->.
  { unfold core in Hc. injection Hc as C1 C2 C3 C4 C5 C6 C7 C8 C9 C10 C11 C12 C13 C14.
    unfold with_overlaps, core, tun_of. cbn. rewrite C1, C3, C4, C5, C6, C7, C8, C9, C10, C11, C12, C13, C14.
    rewrite fmap_delete. f_equal. rewrite C2. apply (co_enforcers _ Hok). }
  apply with_overlaps_ok; [done|apply Hok|done|].
  assert ((identity <$> role_b g) !! aid = Some (identity b)) as Hl by by rewrite lookup_fmap, Hcur; cbn; rewrite Hid.
  destruct (co_overlaps _ Hok) as [H1 H2 H3]. cbn in H1, H2, H3. split.
  - intros aid' i [Hne Hi]%lookup_delete_Some. destruct (H1 _ _ Hi) as [Hr Ht]. split; [|done].
    rewrite elem_of_app, list_elem_of_singleton. intros [H | [= H _]]; congruence.
  - intros aid' e t Ht. destruct (H2 _ _ _ Ht) as [(i & Hi & He) | Hr].
    + destruct (decide (aid' = aid)) as [-> | Hne].
      * right. apply elem_of_app. right. apply list_elem_of_singleton. f_equal.
        rewrite Hl in Hi. injection Hi as <-. done.
      * left. exists i. split; [|done]. by rewrite lookup_delete_ne.
    + right. apply elem_of_app. by left.
  - intros aid' e [Hr | [= -> ->]%list_elem_of_singleton]%elem_of_app; [by apply H3|].
    destruct (H1 _ _ Hl) as (_ & t & Ht & _). by exists t.
Qed.

Lemma collapse_all_core now l g :
  core_ok (core g) -> exists ts,
    core (foldl (collapse_device now) (set_collapse_ready [] g) l) = with_overlaps ts (identity <$> role_b g) [] (core g) /\
    tunnels_ok ts /\ (forall id, (forall aid e, (aid, e) ∈ l -> id <> Overlap aid e) -> ts_tunnels ts !! id = ts_tunnels (tunnels g) !! id) /\
    (forall aid e, (aid, e) ∈ l -> ts_tunnels ts !! Overlap aid e = None).
Proof.
  intros Hok. induction l as [|[aid e] l IH] using rev_ind.
  - exists (tunnels g). split_and!; [|apply Hok|done|by intros ? ? ?%elem_of_nil].
    unfold with_overlaps, core. cbn. f_equal. apply (co_enforcers _ Hok).
  - destruct IH as (ts & Hc & Hts & Hsame & Hgone). rewrite foldl_snoc.
    set (g1 := foldl _ _ _) in *. clearbody g1. exists (tear_down now (Overlap aid e) ts).
    unfold collapse_device. cbn [fst snd]. pose proof (drop_core now (Overlap aid e) g1) as Hd. cbn zeta in *.
    rewrite Hd, Hc. split_and!.
    + unfold drop_tun, with_overlaps, core. cbn. by rewrite tear_down_tunnels, dom_delete_L.
    + by apply tear_down_ok.
    + intros id Hid. rewrite tear_down_tunnels, lookup_delete_ne.
      * apply Hsame. intros a' e' Hin. apply Hid, elem_of_app. by left.
      * intros <-. apply (Hid aid e); [|done]. apply elem_of_app. right. by apply list_elem_of_singleton.
    + intros a' e' [Hin | [= -> ->]%list_elem_of_singleton]%elem_of_app; rewrite tear_down_tunnels, lookup_delete_None; auto.
Qed.

Lemma service_collapse_ok now g : core_ok (core g) -> core_ok (core (service_role_b_collapse now g)).
Proof.
  intros Hok. unfold service_role_b_collapse. destruct (collapse_all_core now (collapse_ready g) g Hok) as (ts & -> & Hts & Hsame & Hgone).
  destruct (co_overlaps _ Hok) as [H1 H2 H3]. cbn in H1, H2, H3.
  apply with_overlaps_ok; [done|done| |].
  - intros e. by apply Hsame.
  - split.
    + intros aid i Hi. destruct (H1 _ _ Hi) as (Hr & t & Ht & Et). split; [by intros ?%elem_of_nil|]. exists t. split; [|done].
      unfold live_tun. rewrite Hsame; [done|]. intros aid' e Hin [= <- <-]. done.
    + intros aid e t. unfold live_tun. intros Ht. destruct (decide ((aid, e) ∈ collapse_ready g)) as [Hin | Hout].
      { by rewrite Hgone in Ht. }
      rewrite Hsame in Ht; [|intros a' e' Hin [= <- <-]; done].
      destruct (H2 _ _ _ Ht) as [Hi | Hr]; [by left|done].
    + by intros ? ? ?%elem_of_nil.
Qed.

(** ** Routes

    Every route goes over a device of the set. *)
Definition has_device (ts : TunnelSet) (dev : string) : Prop := exists id t, live_tun ts id t /\ t_ifname t = dev.

Definition routes_in (ts : TunnelSet) (rs : gmap string string) : Prop :=
  forall cidr dev, rs !! cidr = Some dev -> has_device ts dev.

Definition routes_ok (g : Gw) : Prop := routes_in (tunnels g) (routes g).

Lemma routes_in_mono ts ts' rs : (forall dev, has_device ts dev -> has_device ts' dev) -> routes_in ts rs -> routes_in ts' rs.
Proof. intros H Hr cidr dev Hl. by apply H, (Hr cidr). Qed.

Lemma has_device_insert ts ts' id t dev :
  ts_tunnels ts !! id = None -> ts_tunnels ts' = <[id := t]> (ts_tunnels ts) -> has_device ts dev -> has_device ts' dev.
Proof.
  intros Hn E (i & u & Hu & Hd). exists i, u. split; [|done]. unfold live_tun in *. rewrite E.
  rewrite lookup_insert_ne; [done|]. congruence.
Qed.

Lemma add_route_routes can ifname cidr g :
  has_device (tunnels g) ifname -> routes_ok g -> routes_ok (add_route can ifname cidr g).
Proof.
  intros Hd Hr. unfold add_route. destruct (can cidr); [|done]. intros c dev. cbn.
  rewrite lookup_insert_Some. intros [[_ <-] | [_ Hl]]; [done|]. by apply (Hr c).
Qed.

Lemma add_routes_routes can ifname cidrs g :
  has_device (tunnels g) ifname -> routes_ok g ->
  routes_ok (foldl (fun g cidr => add_route can ifname cidr g) g cidrs).
Proof.
  revert g. induction cidrs as [|c cidrs IH]; intros g Hd Hr; [done|]. cbn [foldl]. apply IH.
  - unfold add_route. by destruct (can c).
  - by apply add_route_routes.
Qed.

Lemma del_routes_routes ifname cidrs g :
  routes_ok g -> routes_ok (foldl (fun g cidr => del_route ifname cidr g) g cidrs).
Proof.
  revert g. induction cidrs as [|c cidrs IH]; intros g Hr; [done|]. cbn [foldl]. apply IH.
  unfold del_route. case_bool_decide; [|done]. intros c' dev. cbn. rewrite lookup_delete_Some. intros [_ Hl]. by apply (Hr c').
Qed.

Lemma place_peer_routes_routes can cidrs ifname epoch ov g :
  has_device (tunnels g) ifname -> (forall o, ov = Some o -> has_device (tunnels g) o.1) ->
  routes_ok g -> routes_ok (place_peer_routes can cidrs ifname epoch ov g).
Proof.
  intros Hd Ho Hr. unfold place_peer_routes. apply add_routes_routes; [|done].
  destruct (route_owner _ _); [done|]. destruct ov as [[o cl]|]; [|done]. by apply (Ho (o, cl)).
Qed.

Lemma tear_down_routes now id g : routes_ok g -> routes_ok (tear_down_device now id g).
Proof.
  intros Hr. unfold tear_down_device. destruct (ts_tunnels (tunnels g) !! id) as [t|] eqn:Et; [|done].
  intros cidr dev. cbn. rewrite map_lookup_filter_Some. intros [Hl Hne].
  destruct (Hr _ _ Hl) as (i & u & Hu & Hd). exists i, u. split; [|done]. apply live_tear_down. split; [|done].
  intros ->. unfold live_tun in Hu. congruence.
Qed.

Lemma uapi_routes replied ifname cfg g g' : uapi_apply replied ifname cfg g = Some g' -> routes_ok g -> routes_ok g'.
Proof. unfold uapi_apply. destruct (encode_set cfg), replied; try done. by intros [= <-]. Qed.

Lemma unwind_routes now w residue g : routes_ok g -> routes_ok (unwind_failed_rotation now w residue g).
Proof.
  intros Hr. unfold unwind_failed_rotation. set (g1 := set_role_a None _).
  assert (routes_ok (tear_down_device now (Own (rr_tun_epoch residue)) g1)) as H by by apply tear_down_routes.
  destruct (rr_minted_epoch residue); [|done]. by destruct (discard_pending _ _).
Qed.

Lemma stand_up_epoch_routes e n key ae ds g : routes_ok g -> routes_ok (stand_up_epoch base_tun base_wg_port e n key ae ds g).2.
Proof.
  intros Hr. unfold stand_up_epoch. destruct (plan_tunnel _ _ _ _) as [plan|]; [|done].
  unfold bring_up_device. destruct (bring_up _ _ _ _ _ _ _) as [ts|] eqn:Eb; [|done]. cbn [mbind result_bind].
  apply bring_up_spec in Eb as (Hnone & Ets & _ & _).
  assert (forall devs, routes_ok (set_devices devs (set_tunnels ts g))) as Hts.
  { intros devs. unfold routes_ok. cbn. eapply routes_in_mono; [|exact Hr]. intros dev. by apply (has_device_insert _ _ _ _ _ Hnone Ets). }
  destruct (re_attached e); [|by apply tear_down_routes]. destruct (re_policy e); [|by apply tear_down_routes]. cbn [negb].
  destruct (uapi_apply _ _ _ _) as [g'|] eqn:Eu; [|by apply Hts].
  apply (uapi_routes _ _ _ _ _ Eu). by apply Hts.
Qed.

Lemma handle_rotate_routes e n g : routes_ok g -> routes_ok (handle_rotate x25519 base_tun base_wg_port e n g).
Proof.
  intros Hr. unfold handle_rotate, handle_rotate_inner. destruct (on_directive n (rotation g)) as [[[m| | |]|] ph]; try done.
  destruct (applied g) as [ds|]; [|by apply unwind_routes].
  destruct (generate_next_at _ _ _ _) as [[key ks]|]; [|by apply unwind_routes].
  destruct (persist _ _ _) as [[u|] file]; [|by apply unwind_routes].
  destruct (negb _); [by apply unwind_routes|].
  pose proof (fun ae g0 => stand_up_epoch_routes e m key ae ds g0) as H.
  destruct (stand_up_epoch _ _ _ _ _ _ _ _) as [[u'|] g3] eqn:E.
  - change (routes_ok g3). replace g3 with (Ok u' : result RotateError unit, g3).2 by done. rewrite <- E. by apply H.
  - apply unwind_routes. replace g3 with (@Err RotateError unit e0, g3).2 by done. rewrite <- E. by apply H.
Qed.

Lemma active_device g : core_ok (core g) -> has_device (tunnels g) (at_ifname (active_tun g)).
Proof. intros Hok. eexists _, _. split; [apply (co_active _ Hok)|done]. Qed.

Lemma overlap_device g aid b : core_ok (core g) -> role_b g !! aid = Some b -> has_device (tunnels g) (rb_new_tun b).
Proof.
  intros Hok Hb. destruct (ov_entry _ _ _ (co_overlaps _ Hok) aid (identity b)) as (_ & t & Ht & Et).
  - cbn. by rewrite lookup_fmap, Hb.
  - by eexists _, t.
Qed.

Lemma flip_routes can a epoch l g :
  has_device (tunnels g) (ra_new_tun a) -> (forall aid b, role_b g !! aid = Some b -> has_device (tunnels g) (rb_new_tun b)) ->
  routes_ok g -> routes_ok (foldl (flip_peer can a epoch) g l).
Proof.
  revert g. induction l as [|p l IH]; intros g Hd Hb Hr; [done|]. cbn [foldl].
  assert (routes_ok (flip_peer can a epoch g p)) as Hr'.
  { apply place_peer_routes_routes; [done| |done]. intros o Ho. destruct (role_b g !! rp_gateway_id p) as [b|] eqn:E; [|done].
    injection Ho as <-. by eapply Hb. }
  revert Hr'. unfold flip_peer.
  destruct (place_peer_routes_only can (rp_cidrs p) (ra_new_tun a) epoch
    ((fun b => (rb_new_tun b, claim b)) <$> role_b g !! rp_gateway_id p) g) as [r ->].
  intros Hr'. by apply IH.
Qed.

Lemma tick_role_a_routes now live can w g : core_ok (core g) -> routes_ok g -> routes_ok (tick_role_a now live can w g).
Proof.
  intros Hok Hr. unfold tick_role_a. destruct (role_a g) as [a|] eqn:Ha; [|done]. destruct (rotation g) as [|n|n] eqn:Hrot; [done| |].
  - destruct (any_live live (watch_keys a g)); [|done]. cbn [on_new_epoch_session]. unfold cut_over.
    set (g0 := set_rotation (CutOver n) g).
    assert (routes_ok (foldl (flip_peer can a n) g0 (ra_peers a))) as Hf.
    { apply flip_routes; [| |done]; [|intros aid b Hb; by eapply (overlap_device g)].
      pose proof (co_phase _ Hok) as Hp. unfold phase_ok in Hp. cbn in Hp. rewrite Hrot in Hp.
      destruct Hp as (_ & _ & _ & _ & a' & k & Ha' & _ & Hlive & _). assert (a' = a) as -> by congruence. by eexists _, _. }
    destruct (seed_guard _ _). cbn [epoch_keys set_active_tun]. by destruct (promote _ _).
  - destruct (all_live live (watch_keys a g)); [|done]. by destruct (RETIRE_GRACE <=? _).
Qed.

Lemma renormalize_routes moved g :
  live_tun (tunnels g) (Own (at_epoch (active_tun g))) (tun_of (active_tun g)) -> routes_ok g ->
  routes_ok (renormalize_active_listen_port base_wg_port moved g).
Proof.
  intros Hlive Hr. destruct (renormalize_spec base_wg_port moved g Hlive) as [(p & Ep & Ets) _ _ (_ & _ & _ & _ & _ & _ & _ & _ & _ & _ & E)].
  unfold routes_ok. rewrite E. eapply routes_in_mono; [|exact Hr]. intros dev (i & t & Ht & Hd).
  unfold has_device, live_tun in *. rewrite Ets. destruct (decide (i = Own (at_epoch (active_tun g)))) as [-> | Hne].
  - eexists _, _. split; [apply lookup_insert_eq|]. cbn. rewrite Hlive in Ht. by injection Ht as <-.
  - exists i, t. by rewrite lookup_insert_ne.
Qed.

Lemma service_retire_routes now moved w g :
  core_ok (core g) -> routes_ok g -> routes_ok (service_retire base_wg_port now moved w g).
Proof.
  intros Hok Hr. unfold service_retire. destruct (retire_ready g) as [old|] eqn:Hret; [|done].
  cbn [set_retire_ready rotation]. destruct (rotation g) as [|n|n] eqn:Hrot; try done. cbn [on_epoch_retired].
  pose proof (co_phase _ Hok) as Hp. unfold phase_ok in Hp. cbn in Hp. rewrite Hrot in Hp.
  destruct Hp as (Hn & o & Hne & _ & _ & [(? & _ & _ & ?) | [_ ?]]); [congruence|].
  set (g0 := set_rotation Idle (set_retire_ready None g)).
  assert (routes_ok (tear_down_device now (Own old) g0)) as Ht by by apply tear_down_routes.
  set (g1 := set_enforcers _ (tear_down_device now (Own old) g0)).
  assert (routes_ok (renormalize_active_listen_port base_wg_port moved g1)) as H1.
  { apply renormalize_routes; [|done]. pose proof (drop_core now (Own old) g0) as Hc. cbn zeta in Hc.
    pose proof (f_equal c_tunnels Hc) as E1. pose proof (f_equal c_epoch Hc) as E2. pose proof (f_equal c_tun Hc) as E3.
    cbn [c_tunnels c_epoch c_tun core drop_tun] in E1, E2, E3. fold g1 in E1, E2, E3. rewrite E1, E2, E3.
    apply live_tear_down. split; [cbn; congruence|]. apply (co_active _ Hok). }
  by destruct (retire _ _).
Qed.

Lemma retire_stale_routes now can aid stale g :
  core_ok (core g) -> routes_ok g -> routes_ok (retire_stale_overlap now can aid stale g).
Proof.
  intros Hok Hr. unfold retire_stale_overlap.
  set (g1 := match role_b g !! aid with Some _ => _ | None => _ end).
  assert (routes_ok g1) as H1.
  { unfold g1. destruct (role_b g !! aid); [|done]. apply place_peer_routes_routes; [exact (active_device g Hok)|by intros o [=]|exact Hr]. }
  assert (routes_ok (tear_down_device now (Overlap aid stale) g1)) by by apply tear_down_routes. done.
Qed.

Lemma stand_up_overlap_routes now e ds aid pe g :
  routes_ok g -> routes_ok (stand_up_overlap base_tun base_wg_port now e ds aid pe g).
Proof.
  intros Hr. unfold stand_up_overlap.
  destruct (List.find _ _) as [peer|]; [|done]. destruct (active_key peer); [|done]. destruct (pending_key peer); [|done].
  destruct (pubkey_b64_to_hex _); [|done]. destruct (List.filter _ _); [done|]. destruct (plan_tunnel _ _ _ _) as [plan|]; [|done].
  unfold bring_up_device. destruct (bring_up _ _ _ _ _ _ _) as [ts|] eqn:Eb; [|done]. cbn [mbind result_bind].
  apply bring_up_spec in Eb as (Hnone & Ets & _ & _).
  set (g1 := set_devices _ (set_tunnels ts g)).
  assert (routes_ok g1) as Hts.
  { unfold routes_ok. cbn. eapply routes_in_mono; [|exact Hr]. intros dev. by apply (has_device_insert _ _ _ _ _ Hnone Ets). }
  destruct (oe_attached e && oe_policy e); [|by apply tear_down_routes]. cbn [negb].
  set (g2 := set_enforcers _ g1). destruct (uapi_apply _ _ _ g2) as [g'|] eqn:Eu.
  - by apply (uapi_routes _ _ _ _ _ Eu).
  - assert (routes_ok (tear_down_device now (Overlap aid pe) g2)) by by apply tear_down_routes. done.
Qed.

Lemma execute_decision_routes now can env ds g d :
  core_ok (core g) -> routes_ok g -> routes_ok (execute_decision base_tun base_wg_port now can env ds g d).
Proof.
  intros Hok Hr. destruct d as [aid [|pe|stale pe|pe]]; cbn; try done; apply stand_up_overlap_routes; [done|].
  by apply retire_stale_routes.
Qed.

Lemma apply_device_same replied ds g g' :
  apply_device replied ds g = Some g' -> tunnels g' = tunnels g /\ routes g' = routes g /\ role_b g' = role_b g.
Proof.
  unfold apply_device. set (dev := device_config_pinned _ _ _ _ _).
  assert (apply_device_if_changed replied (at_ifname (active_tun g)) dev g = Some g' ->
    tunnels g' = tunnels g /\ routes g' = routes g /\ role_b g' = role_b g) as Hfull.
  { unfold apply_device_if_changed, uapi_apply. destruct (encode_set dev); [|done]. case_bool_decide; [by intros [= <-]|].
    destruct replied; [|done]. by intros [= <-]. }
  destruct (encode_set dev) as [encoded|]; [|done].
  destruct (at_applied_config (active_tun g)) as [cfg|]; cbn [fmap option_fmap option_map]; [|done].
  destruct (classify_peer_delta _ _) as [|added|], (bool_decide (device_header cfg = device_header encoded)); try done.
  - by intros [= <-].
  - destruct (encode_add_peers added), replied; try done. by intros [= <-].
Qed.

Lemma apply_state_routes replied can prev ds g g' :
  core_ok (core g) -> routes_ok g -> apply_state replied can prev ds g = Some g' -> routes_ok g'.
Proof.
  intros Hok Hr. unfold apply_state, apply_routes. intros (g1 & H1 & H2)%bind_Some.
  apply apply_device_same in H1 as (E1 & E2 & _). destruct (_ && _); [|done]. injection H2 as <-.
  apply del_routes_routes, add_routes_routes; [rewrite E1; by apply active_device|]. unfold routes_ok. by rewrite E1, E2.
Qed.

Lemma collapse_entries_routes ds l g : routes_ok g -> routes_ok (foldl (collapse_entry ds) g l).
Proof.
  revert g. induction l as [|[aid b] l IH]; intros g Hr; [done|]. cbn [foldl]. apply IH.
  unfold collapse_entry. destruct (rb_collapse_armed b); [done|]. destruct (List.find _ _) as [peer|]; [|done].
  destruct (pending_key peer); [done|]. destruct (negb _); [done|]. by destruct (primary_endpoint peer ≫= _).
Qed.

(** The whole invariant. *)
Definition gw_ok (g : Gw) : Prop := core_ok (core g) /\ routes_ok g.

Lemma on_state_ok now replied can env ds g g' :
  gw_ok g -> NoDup (gateway_ids ds) -> on_state base_tun base_wg_port now replied can env ds g = Some g' -> gw_ok g'.
Proof.
  intros [Hok Hr] Hnd (g1 & H1 & [= <-])%bind_Some.
  assert (core_ok (core (maybe_collapse_role_b ds g))) as Hok0 by by rewrite maybe_collapse_core.
  assert (core_ok (core g1)) as Hok1 by by rewrite (apply_state_core _ _ _ _ _ _ H1).
  assert (routes_ok g1) as Hr1 by (eapply apply_state_routes; [exact Hok0|by apply collapse_entries_routes|exact H1]).
  apply (execute_decisions_ok routes_ok); [by intros; apply execute_decision_routes|done|done| |apply decisions_fit].
  unfold role_b_decisions. by rewrite map_map.
Qed.

Lemma role_b_live_routes live can g : core_ok (core g) -> routes_ok g -> routes_ok (role_b_live live can g).
Proof.
  intros Hok Hr. unfold role_b_live. destruct (pending_b g) as [|[aid b] rest]; [done|]. destruct live; [|done]. cbn [negb].
  destruct (write_back _ _ _) eqn:Ew; try done. apply write_back_apply in Ew as (cur & Hcur & Hid). cbn in Hcur.
  match goal with |- routes_ok (set_awaiting_ack _ ?g1) => change (routes_ok g1) end.
  apply place_peer_routes_routes; [exact (active_device g Hok)| |exact Hr].
  intros o [= <-]. replace (rb_new_tun b) with (rb_new_tun cur) by by injection Hid. by apply (overlap_device g aid).
Qed.

Lemma role_b_acked_routes sent g : routes_ok g -> routes_ok (role_b_acked sent g).
Proof.
  intros Hr. unfold role_b_acked. destruct (awaiting_ack g) as [[aid b]|]; [|done]. destruct sent; [|done]. cbn [negb].
  by destruct (write_back _ _ _).
Qed.

Lemma role_b_collapse_routes live can g : core_ok (core g) -> routes_ok g -> routes_ok (role_b_collapse live can g).
Proof.
  intros Hok Hr. unfold role_b_collapse. destruct (armed_b g) as [|[aid b] rest]; [done|]. destruct live; [|done]. cbn [negb].
  destruct (write_back _ _ _); try done.
  match goal with |- routes_ok (set_collapse_ready _ ?g1) => change (routes_ok g1) end.
  apply place_peer_routes_routes; [exact (active_device g Hok)|by intros o [=]|exact Hr].
Qed.

Lemma service_collapse_routes now g : routes_ok g -> routes_ok (service_role_b_collapse now g).
Proof.
  intros Hr. unfold service_role_b_collapse. assert (routes_ok (set_collapse_ready [] g)) as H by done. revert H.
  generalize (set_collapse_ready [] g). generalize (collapse_ready g). intros l. induction l as [|en l IH]; intros g0 H0; [done|].
  cbn [foldl]. apply IH. unfold collapse_device.
  assert (routes_ok (tear_down_device now (Overlap en.1 en.2) g0)) by by apply tear_down_routes. done.
Qed.

(** ** Runs

    One stretch of the run task, of the tick, or of a path task. *)
Inductive Act : Type :=
| Directive (e : RotateEnv) (epoch : Z)
| Submitted (now : Z) (accepted : bool) (discarded : WriteOutcome)
| ServiceRetire (now : Z) (moved : bool) (written : WriteOutcome)
| ServiceCollapse (now : Z)
| State (now : Z) (replied : bool) (can : string -> bool) (env : Z -> OverlapEnv) (ds : DesiredState)
| TickA (now : Z) (live : option (gset string)) (can : string -> bool) (promoted : WriteOutcome)
| TakePendingB
| LiveB (live : bool) (can : string -> bool)
| AckedB (sent : bool)
| TakeArmedB
| CollapseB (live : bool) (can : string -> bool)
| PathEndpoints (endpoints : gmap Z string).

(** The run task handles one event at a time: nothing of it runs while a
    submission is in flight. *)
Definition run_task (g g' : Gw) : option Gw :=
  match submitting g with None => Some g' | Some _ => None end.

(** [None]: not enabled, or the process ends. *)
Definition step (a : Act) (g : Gw) : option Gw :=
  match a with
  | Directive e n => run_task g (handle_rotate x25519 base_tun base_wg_port e n g)
  | Submitted now accepted discarded => Some (submitted now accepted discarded g)
  | ServiceRetire now moved written => run_task g (service_retire base_wg_port now moved written g)
  | ServiceCollapse now => run_task g (service_role_b_collapse now g)
  | State now replied can env ds =>
      _ ← run_task g g; on_state base_tun base_wg_port now replied can env ds g
  | TickA now live can promoted => Some (tick_role_a now live can promoted g)
  | TakePendingB => Some (take_pending_b g)
  | LiveB live can => Some (role_b_live live can g)
  | AckedB sent => Some (role_b_acked sent g)
  | TakeArmedB => Some (take_armed_b g)
  | CollapseB live can => Some (role_b_collapse live can g)
  | PathEndpoints endpoints => Some (set_live_endpoints endpoints g)
  end.

(** What the controller is relied on for: it names a new epoch, does not refuse
    a key whose sessions are already up, and lists a gateway once. *)
Definition admissible (a : Act) (g : Gw) : bool :=
  match a with
  | Directive _ n => negb (n =? at_epoch (active_tun g))
  | Submitted _ accepted _ => accepted || negb (is_cut_over (rotation g))
  | State _ _ _ _ ds => bool_decide (NoDup (gateway_ids ds))
  | _ => true
  end.

(** A run with, before each action, the state it starts from. *)
Inductive run (g0 : Gw) : list (Gw * Act) -> Gw -> Prop :=
| run_nil : run g0 [] g0
| run_snoc tr g a g' : run g0 tr g -> admissible a g = true -> step a g = Some g' -> run g0 (tr ++ [(g, a)]) g'.

Fixpoint play (acts : list Act) (g : Gw) : option Gw :=
  match acts with
  | [] => Some g
  | a :: acts => if admissible a g then step a g ≫= play acts else None
  end.

Lemma play_run acts g0 tr g g' : run g0 tr g -> play acts g = Some g' -> exists tr', run g0 (tr ++ tr') g'.
Proof.
  revert tr g. induction acts as [|a acts IH]; intros tr g Hr; cbn.
  - intros [= <-]. exists []. by rewrite app_nil_r.
  - destruct (admissible a g) eqn:Ha; [|done]. intros (g1 & Hs & Hp)%bind_Some.
    destruct (IH (tr ++ [(g, a)]) g1) as [tr' H]; [by eapply run_snoc|done|].
    exists ((g, a) :: tr'). by rewrite <- app_assoc in H.
Qed.

Lemma boot_ok store legacy up configured attached replied can baseline saved g :
  (forall ks, store = Some ks -> keys_ok ks) ->
  boot x25519 base_tun base_wg_port store legacy up configured attached replied can baseline saved = Some g -> gw_ok g.
Proof.
  intros Hks. unfold boot. destruct (select_boot_key _ _ _) as [bk|] eqn:Eb; [|done].
  match goal with |- match ?m with _ => _ end = _ -> _ => destruct m as [[keys file]|] eqn:Ek; [|done] end.
  assert (keys_ok keys /\ store_ok keys (ek_epoch bk) (ek_private_key_b64 bk)) as [Hkeys Hstore].
  { unfold select_boot_key in Eb. destruct store as [ks|]; cbn in Eb, Ek.
    - injection Ek as <- _. split; [by apply Hks|]. unfold store_ok. destruct (active ks); [by injection Eb as <-|].
      apply bind_ok in Eb as (pub & _ & [= <-]). done.
    - apply bind_ok in Eb as (pub & _ & [= <-]). apply bind_ok in Ek as (ks & Hf & Ek).
      apply bind_ok in Hf as (pub' & _ & [= <-]). destruct (persist _ _ _) as [[]]; [|done]. injection Ek as <- _. split; [|done].
      split; [apply NoDup_singleton|]. by intros k1 k2 ->%list_elem_of_singleton ->%list_elem_of_singleton. }
  destruct (bring_up _ _ _ _ _ _ _) as [ts|] eqn:Eu; [|done]. destruct attached; [|done]. cbn [negb].
  assert (tunnels_ok no_tunnels) as H0 by (split; [done..|cbn; unfold MAX_QUARANTINE; lia]).
  pose proof (bring_up_ok _ _ _ _ _ _ _ _ H0 Eu) as Hts. apply bring_up_spec in Eu as (_ & Ets & _ & _). cbn in Ets.
  match goal with |- match saved with None => Some ?g1 | _ => _ end = _ -> _ => assert (gw_ok g1) as H1 end.
  { split; [|by intros cidr dev]. split; cbn; try done.
    - rewrite Ets. by rewrite dom_insert_L, dom_empty_L, union_empty_r_L.
    - unfold live_tun. rewrite Ets. apply lookup_insert_eq.
    - unfold phase_ok. cbn. split_and!; [done..|]. intros e t. cbn. unfold live_tun. rewrite Ets, lookup_insert_Some.
      intros [[[= <-] _] | [_ H]]; [apply list_elem_of_here|done].
    - split; [done| |by intros ? ? ?%elem_of_nil]. intros aid e t. unfold live_tun. rewrite Ets, lookup_insert_Some.
      intros [[? _] | [_ H]]; done. }
  destruct saved as [ds|]; [|by intros [= <-]]. intros Hs. destruct H1 as [Hok Hr]. split.
  - by rewrite (apply_state_core _ _ _ _ _ _ Hs).
  - by eapply apply_state_routes.
Qed.

Lemma accepted_ok g : core_ok (core g) -> core_ok (core (set_submitting None g)).
Proof.
  intros [H1 H2 H3 H4 H5 H6 H7]. split; [exact H1|exact H2|exact H3|exact H4|exact H5| |exact H7].
  unfold phase_ok in *. cbn in *. destruct (rotation g); naive_solver.
Qed.

Lemma handle_rotate_ok e n g :
  core_ok (core g) -> submitting g = None -> n <> at_epoch (active_tun g) ->
  core_ok (core (handle_rotate x25519 base_tun base_wg_port e n g)).
Proof.
  intros Hok Hsub Hn. destruct (rotation g) as [|m|m] eqn:Hrot.
  - destruct (handle_rotate_spec x25519 base_tun base_wg_port e n g Hok Hrot Hsub Hn) as [H | H].
    + by eapply refused_ok.
    + by eapply started_ok.
  - unfold handle_rotate, handle_rotate_inner. by rewrite Hrot.
  - unfold handle_rotate, handle_rotate_inner. by rewrite Hrot.
Qed.

(** A refused submission finds the rotation it belongs to. *)
Lemma in_flight g residue :
  core_ok (core g) -> submitting g = Some residue -> is_cut_over (rotation g) = false ->
  exists n, rotation g = Overlapping n /\ residue = {| rr_tun_epoch := n; rr_minted_epoch := Some n |}.
Proof.
  intros Hok Hsub Hc. pose proof (co_phase _ Hok) as Hp. unfold phase_ok in Hp. cbn in Hp.
  destruct (rotation g) as [|n|n]; [|exists n|done].
  - destruct Hp as (_ & _ & H & _). congruence.
  - destruct Hp as (_ & _ & _ & H & _). split; [done|]. by apply H.
Qed.

Lemma step_ok a g g' : gw_ok g -> admissible a g = true -> step a g = Some g' -> gw_ok g'.
Proof.
  intros [Hok Hr] Ha Hs. destruct a; cbn in Ha, Hs; try (injection Hs as <-).
  - unfold run_task in Hs. destruct (submitting g) eqn:Hsub; [done|]. injection Hs as <-.
    apply negb_true_iff, Z.eqb_neq in Ha. split; [by apply handle_rotate_ok|by apply handle_rotate_routes].
  - unfold submitted. destruct (submitting g) as [r|] eqn:Hsub; [|by split]. destruct accepted.
    + split; [by apply accepted_ok|done].
    + cbn in Ha. apply negb_true_iff in Ha. destruct (in_flight g r Hok Hsub Ha) as (n & Hrot & ->).
      split; [by apply unwind_ok|by apply unwind_routes].
  - unfold run_task in Hs. destruct (submitting g) eqn:Hsub; [done|]. injection Hs as <-.
    split; [by apply service_retire_ok|by apply service_retire_routes].
  - unfold run_task in Hs. destruct (submitting g) eqn:Hsub; [done|]. injection Hs as <-.
    split; [by apply service_collapse_ok|by apply service_collapse_routes].
  - apply bind_Some in Hs as (_ & _ & Hs). apply bool_decide_eq_true in Ha. by eapply on_state_ok.
  - split; [by apply tick_role_a_ok|by apply tick_role_a_routes].
  - done.
  - split; [by rewrite role_b_live_core|by apply role_b_live_routes].
  - split; [by rewrite role_b_acked_core|by apply role_b_acked_routes].
  - done.
  - split; [by apply role_b_collapse_ok|by apply role_b_collapse_routes].
  - done.
Qed.

Lemma run_ok g0 tr g : gw_ok g0 -> run g0 tr g -> gw_ok g.
Proof. intros H0 Hr. induction Hr; [done|by eapply step_ok]. Qed.
End run.
