(* ===== verification/GwRotateSafe.v ===== *)
(** * Gateway: what a rotation guarantees

    The theorems over the runs of GwRotateRun: the data plane in every state of
    every run, what precedes the loss of an old device and its key, and what a
    failed rotation leaves behind. *)
From Stdlib Require Import ZArith Lia Ascii.
From S2P Require Import Prelude StdNet GwUapi GwState GwReconcile GwEpochKeys GwTunnelset GwRotation GwRotate GwRotateInv.
From S2P Require Import GwRotateRun.
Open Scope Z_scope.

(** ** What most actions leave alone *)

Record frame (g g' : Gw) : Prop := {
  fr_rotation : rotation g' = rotation g;
  fr_role_a : role_a g' = role_a g;
  fr_retire : retire_ready g' = retire_ready g;
  fr_since : all_live_since g' = all_live_since g;
  fr_own : forall e, ts_tunnels (tunnels g') !! Own e = ts_tunnels (tunnels g) !! Own e }.

Lemma frame_trans g1 g2 g3 : frame g1 g2 -> frame g2 g3 -> frame g1 g3.
Proof. intros [H1 H2 H3 H4 H5] [K1 K2 K3 K4 K5]. split; try congruence. Qed.

Lemma frame_core g g' : core g' = core g -> frame g g'.
Proof.
  intros Hc. pose proof (f_equal c_tunnels Hc) as E1. pose proof (f_equal c_phase Hc) as E2.
  pose proof (f_equal c_role_a Hc) as E3. pose proof (f_equal c_retire_ready Hc) as E4. pose proof (f_equal c_since Hc) as E5.
  cbn in *. split; try done. intros e. by rewrite E1.
Qed.

Lemma frame_overlaps g g' ts ov ready :
  core g' = with_overlaps ts ov ready (core g) -> (forall e, ts_tunnels ts !! Own e = ts_tunnels (tunnels g) !! Own e) ->
  frame g g'.
Proof.
  intros Hc Hown. pose proof (f_equal c_tunnels Hc) as E1. pose proof (f_equal c_phase Hc) as E2.
  pose proof (f_equal c_role_a Hc) as E3. pose proof (f_equal c_retire_ready Hc) as E4. pose proof (f_equal c_since Hc) as E5.
  cbn in *. split; try done. intros e. by rewrite E1.
Qed.

Section safe.
Context (x25519 : list Z -> list Z) (base_tun : string) (base_wg_port : Z).

Abbreviation step := (step x25519 base_tun base_wg_port).
Abbreviation run := (run x25519 base_tun base_wg_port).
Abbreviation handle_rotate := (handle_rotate x25519 base_tun base_wg_port).

Lemma execute_decision_frame now can env ds g d :
  core_ok (core g) -> fits g d -> frame g (execute_decision base_tun base_wg_port now can env ds g d).
Proof.
  assert (forall e aid pe g, core_ok (core g) -> frame g (stand_up_overlap base_tun base_wg_port now e ds aid pe g)) as Hup.
  { intros e aid pe g0 Hok. destruct (stand_up_overlap_spec base_tun base_wg_port now e ds aid pe g0 Hok)
      as [(_ & ts & Hc & E & _) | (b & ts & t & _ & _ & Hc & _ & E & _)].
    - eapply frame_overlaps; [exact Hc|]. by rewrite E.
    - eapply frame_overlaps; [exact Hc|]. intros. rewrite E. by apply lookup_insert_ne. }
  intros Hok Hf. destruct d as [aid [|pe|stale pe|pe]]; cbn in *; try (by apply frame_core); [by apply Hup|].
  destruct Hf as (b & Hb & Hs). eapply frame_trans; [|apply Hup; by eapply retire_stale_ok].
  eapply frame_overlaps; [by eapply retire_stale_core|]. intros e. rewrite tear_down_tunnels. by apply lookup_delete_ne.
Qed.

Lemma on_state_frame now replied can env ds g g' :
  core_ok (core g) -> NoDup (gateway_ids ds) -> on_state base_tun base_wg_port now replied can env ds g = Some g' -> frame g g'.
Proof.
  intros Hok Hnd (g1 & H1 & [= <-])%bind_Some.
  assert (core g1 = core g) as E1 by by rewrite (apply_state_core _ _ _ _ _ _ H1), maybe_collapse_core.
  apply (frame_trans _ g1); [by apply frame_core|].
  assert (core_ok (core g1)) as Hok1 by by rewrite E1.
  cut (frame g1 (maybe_start_role_b base_tun base_wg_port now can env ds g1)); [by intros []|].
  refine (proj2 (execute_decisions_ok base_tun base_wg_port (frame g1) now can env ds _ g1 _ Hok1 _ _ _));
    [|by apply frame_core| |apply decisions_fit].
  - intros g2 d Hok2 Hf Hfr. eapply frame_trans; [exact Hfr|by apply execute_decision_frame].
  - unfold role_b_decisions. by rewrite map_map.
Qed.

Lemma role_b_collapse_frame live can g : frame g (role_b_collapse live can g).
Proof.
  unfold role_b_collapse. destruct (armed_b g) as [|[aid b] rest]; [done|]. destruct live; [|done]. cbn [negb].
  destruct (write_back _ _ _); try done. cbv zeta.
  match goal with |- context [place_peer_routes ?c ?l ?i ?e None ?g1] =>
    destruct (place_peer_routes_only c l i e None g1) as [r ->] end. done.
Qed.

Lemma service_collapse_frame now g : core_ok (core g) -> frame g (service_role_b_collapse now g).
Proof.
  intros Hok. destruct (collapse_all_core now (collapse_ready g) g Hok) as (ts & Hc & _ & Hsame & _).
  eapply frame_overlaps; [exact Hc|]. intros e. by apply Hsame.
Qed.

Lemma service_retire_hist now moved w g old :
  core_ok (core g) -> retire_ready g = Some old ->
  let g' := service_retire base_wg_port now moved w g in
  rotation g' = Idle /\ role_a g' = role_a g /\ retire_ready g' = None /\ all_live_since g' = all_live_since g /\
  forall e, e <> old -> is_Some (ts_tunnels (tunnels g) !! Own e) -> is_Some (ts_tunnels (tunnels g') !! Own e).
Proof.
  intros Hok Hret. pose proof (co_phase _ Hok) as Hp. unfold phase_ok in Hp. cbn in Hp.
  unfold service_retire. rewrite Hret. cbn [set_retire_ready rotation]. cbv zeta.
  destruct (rotation g) as [|n|n] eqn:Hrot; [destruct Hp as (_ & ? & _); congruence|destruct Hp as (_ & ? & _); congruence|].
  destruct Hp as (Hn & o & Hne & _ & _ & [(? & _ & _ & ?) | [_ ?]]); [congruence|]. cbn [on_epoch_retired].
  set (g0 := set_rotation Idle (set_retire_ready None g)).
  set (g1 := set_enforcers _ (tear_down_device now (Own old) g0)).
  pose proof (drop_core now (Own old) g0) as Hc. cbn zeta in Hc. fold g1 in Hc.
  assert (all_live_since g1 = all_live_since g) as Hsi by exact (f_equal c_since Hc).
  assert (rotation g1 = Idle /\ role_a g1 = role_a g /\ retire_ready g1 = None) as (Hr1 & Hr2 & Hr3).
  { split_and!; [exact (f_equal c_phase Hc)|exact (f_equal c_role_a Hc)|exact (f_equal c_retire_ready Hc)]. }
  pose proof (f_equal c_tunnels Hc) as Ht. pose proof (f_equal c_epoch Hc) as Hep. pose proof (f_equal c_tun Hc) as Htun.
  cbn [c_tunnels c_epoch c_tun core drop_tun] in Ht, Hep, Htun. clearbody g1.
  destruct (renormalize_spec base_wg_port moved g1) as [(p & _ & Ets) _ _ (_ & _ & _ & E4 & E5 & E6 & _ & _ & _ & E10 & _)].
  { rewrite Ht, Hep, Htun. apply live_tear_down. split; [cbn; congruence|]. apply (co_active _ Hok). }
  set (g2 := renormalize_active_listen_port _ _ _) in *. clearbody g2.
  assert (forall e, e <> old -> is_Some (ts_tunnels (tunnels g) !! Own e) -> is_Some (ts_tunnels (tunnels g2) !! Own e)) as Hlive.
  { intros e He Hs. rewrite Ets, Ht, tear_down_tunnels. apply lookup_insert_is_Some.
    destruct (decide (Own (at_epoch (active_tun g1)) = Own e)); [by left|right]. split; [done|].
    rewrite lookup_delete_ne; [exact Hs|congruence]. }
  destruct (retire _ _); cbn; split_and!; try done; congruence.
Qed.

(** ** What happened before

    A tick that saw a session of a watched peer on the new device; a stretch of
    a cut-over rotation in which every tick saw all of them. *)
Definition cutover_tick (n : Z) (p : Gw * Act) : Prop :=
  rotation p.1 = Overlapping n /\ exists now live can w a,
    p.2 = TickA now live can w /\ role_a p.1 = Some a /\ any_live live (watch_keys a p.1) = true.

Definition tick_at (now : Z) (p : Gw * Act) : Prop := exists live can w, p.2 = TickA now live can w.

Definition all_sessions (n : Z) (p : Gw * Act) : Prop :=
  rotation p.1 = CutOver n /\
  match p.2 with
  | TickA _ live _ _ => exists a, role_a p.1 = Some a /\ all_live live (watch_keys a p.1) = true
  | _ => True
  end.

(** Since the tick at [since], every tick saw all the sessions. *)
Definition watched (tr : list (Gw * Act)) (n since : Z) : Prop :=
  exists before first rest, tr = before ++ first :: rest /\ Exists (cutover_tick n) before /\
    tick_at since first /\ Forall (all_sessions n) (first :: rest).

(** Two such ticks at least a grace apart, with none in between that missed one. *)
Definition grace_held (tr : list (Gw * Act)) (n : Z) : Prop :=
  exists before first between last after since now,
    tr = before ++ first :: between ++ last :: after /\ Exists (cutover_tick n) before /\
    tick_at since first /\ tick_at now last /\ Forall (all_sessions n) (first :: between ++ [last]) /\
    RETIRE_GRACE <= now - since.

Record history (tr : list (Gw * Act)) (g : Gw) : Prop := {
  hi_cut : forall n, rotation g = CutOver n -> Exists (cutover_tick n) tr;
  hi_since : forall s, all_live_since g = Some s -> exists n, rotation g = CutOver n /\ is_Some (role_a g) /\ watched tr n s;
  hi_retire : forall old, retire_ready g = Some old -> exists n, rotation g = CutOver n /\ grace_held tr n }.

Lemma grace_held_app tr p n : grace_held tr n -> grace_held (tr ++ [p]) n.
Proof.
  intros (before & f & btw & l & after & s & now & -> & H). exists before, f, btw, l, (after ++ [p]), s, now.
  split; [|done]. by rewrite <- app_assoc, <- app_comm_cons, <- app_assoc.
Qed.

Lemma watched_app tr p n s : watched tr n s -> all_sessions n p -> watched (tr ++ [p]) n s.
Proof.
  intros (before & f & rest & -> & H1 & H2 & H3) Hp. exists before, f, (rest ++ [p]).
  split; [by rewrite <- app_assoc|]. split_and!; [done..|]. rewrite app_comm_cons. by apply Forall_app_2, Forall_singleton.
Qed.

(** An action that leaves the phase and the clock of the rotation alone. *)
Lemma history_frame tr g a g' :
  (forall now live can w, a <> TickA now live can w) -> rotation g' = rotation g -> role_a g' = role_a g ->
  retire_ready g' = retire_ready g -> all_live_since g' = all_live_since g -> history tr g -> history (tr ++ [(g, a)]) g'.
Proof.
  intros Ha E1 E2 E3 E4 [H1 H2 H3]. split; rewrite ?E1, ?E2, ?E3, ?E4.
  - intros n Hn. apply Exists_app. left. by apply H1.
  - intros s Hs. destruct (H2 s Hs) as (n & Hn & Hra & Hw). exists n. split_and!; [done..|]. apply watched_app; [done|].
    split; [done|]. cbn. destruct a; try done. by destruct (Ha now live can promoted).
  - intros old Ho. destruct (H3 old Ho) as (n & Hn & Hg). exists n. split; [done|by apply grace_held_app].
Qed.

(** An action that ends in a phase without a clock. *)
Lemma history_reset tr g : (forall n, rotation g <> CutOver n) -> retire_ready g = None -> all_live_since g = None -> history tr g.
Proof. intros H1 H2 H3. split; [by intros n Hn%H1|congruence|congruence]. Qed.

Lemma sat_sub_at_least a b c : 0 < c -> c <= sat_sub a b -> c <= a - b.
Proof. unfold sat_sub. lia. Qed.

Lemma watched_tick tr g now live can w n a :
  rotation g = CutOver n -> role_a g = Some a -> all_live live (watch_keys a g) = true -> history tr g ->
  watched (tr ++ [(g, TickA now live can w)]) n (default now (all_live_since g)).
Proof.
  intros Hrot Ha Hl [H1 H2 _].
  assert (all_sessions n (g, TickA now live can w)) as Hp by (split; [done|by exists a]).
  destruct (all_live_since g) as [s|]; cbn [default from_option id].
  - destruct (H2 s eq_refl) as (m & Hm & _ & Hw). assert (m = n) as -> by congruence. by apply watched_app.
  - exists tr, (g, TickA now live can w), []. split_and!; [done|by apply H1|by eexists _, _, _|by apply Forall_singleton].
Qed.

Lemma grace_tick tr g now live can w n a :
  rotation g = CutOver n -> role_a g = Some a -> all_live live (watch_keys a g) = true -> history tr g ->
  RETIRE_GRACE <= sat_sub now (default now (all_live_since g)) -> grace_held (tr ++ [(g, TickA now live can w)]) n.
Proof.
  intros Hrot Ha Hl [_ H2 _] Hg. assert (0 < RETIRE_GRACE) as Hpos by (by vm_compute).
  destruct (all_live_since g) as [s|]; cbn [default from_option id] in Hg; [|unfold sat_sub in Hg; lia].
  destruct (H2 s eq_refl) as (m & Hm & _ & before & f & rest & -> & Hb & Hf & Hall). assert (m = n) as -> by congruence.
  exists before, f, rest, (g, TickA now live can w), [], s, now. split_and!; [by rewrite <- app_assoc|done|done|by eexists _, _, _| |].
  - rewrite app_comm_cons. apply Forall_app_2; [done|]. apply Forall_singleton. split; [done|by exists a].
  - by apply sat_sub_at_least.
Qed.

Lemma history_tick tr g now live can w :
  core_ok (core g) -> history tr g -> history (tr ++ [(g, TickA now live can w)]) (tick_role_a now live can w g).
Proof.
  intros Hok Hh. pose proof Hh as [H1 H2 H3]. set (p := (g, TickA now live can w)).
  assert (all_live_since g = None -> history (tr ++ [p]) g) as Hsame.
  { intros Hs. split; [|congruence|].
    - intros n Hn. apply Exists_app. left. by apply H1.
    - intros old Ho. destruct (H3 old Ho) as (n & Hn & Hg). exists n. split; [done|by apply grace_held_app]. }
  assert ((forall n, rotation g <> CutOver n) -> all_live_since g = None) as Hnone.
  { intros Hc. destruct (all_live_since g) as [s|] eqn:Es; [|done]. destruct (H2 s eq_refl) as (n & Hn & _). by destruct (Hc n). }
  unfold tick_role_a. destruct (role_a g) as [a|] eqn:Ha.
  2:{ apply Hsame. destruct (all_live_since g) as [s|] eqn:Es; [|done]. destruct (H2 s eq_refl) as (n & _ & [? ?] & _). congruence. }
  destruct (rotation g) as [|n|n] eqn:Hrot; [by apply Hsame, Hnone| |].
  - assert (all_live_since g = None) as Hs by by apply Hnone.
    destruct (any_live live (watch_keys a g)) eqn:El; [|by apply Hsame]. cbn [on_new_epoch_session].
    destruct (cut_over_core can w a n (set_rotation (CutOver n) g)) as (ks & Hc & _).
    pose proof (f_equal c_phase Hc) as E1. pose proof (f_equal c_retire_ready Hc) as E2. pose proof (f_equal c_since Hc) as E3.
    cbn [c_phase c_retire_ready c_since core set_rotation rotation retire_ready all_live_since] in E1, E2, E3.
    assert (retire_ready g = None) as Hr.
    { pose proof (co_phase _ Hok) as Hp. unfold phase_ok in Hp. cbn in Hp. rewrite Hrot in Hp. by destruct Hp as (_ & ? & _). }
    split; [|congruence|congruence]. intros m Hm. rewrite E1 in Hm. injection Hm as <-. apply Exists_app. right. constructor.
    split; [done|]. by exists now, live, can, w, a.
  - destruct (all_live live (watch_keys a g)) eqn:El; [destruct (RETIRE_GRACE <=? _) eqn:Eg|].
    + apply Z.leb_le in Eg. split; cbn; [|done|].
      * intros m Hm. apply Exists_app. left. apply H1. congruence.
      * intros old [= <-]. exists n. split; [done|]. by eapply grace_tick.
    + split; cbn; [| |].
      * intros m Hm. apply Exists_app. left. apply H1. congruence.
      * intros s [= <-]. exists n. split_and!; [done|by exists a|]. by eapply watched_tick.
      * intros old Ho. destruct (H3 old Ho) as (m & Hm & Hg). exists m. split; [congruence|by apply grace_held_app].
    + split; cbn; [|done|].
      * intros m Hm. apply Exists_app. left. apply H1. congruence.
      * intros old Ho. destruct (H3 old Ho) as (m & Hm & Hg). exists m. split; [congruence|by apply grace_held_app].
Qed.

Lemma since_none tr g : history tr g -> (forall n, rotation g <> CutOver n) -> all_live_since g = None.
Proof.
  intros [_ H2 _] Hc. destruct (all_live_since g) as [s|] eqn:Es; [|done]. destruct (H2 s eq_refl) as (n & Hn & _).
  by destruct (Hc n).
Qed.

Lemma history_directive tr g e n :
  core_ok (core g) -> submitting g = None -> n <> at_epoch (active_tun g) -> history tr g ->
  history (tr ++ [(g, Directive e n)]) (handle_rotate e n g).
Proof.
  intros Hok Hsub Hn Hh. destruct (rotation g) as [|m|m] eqn:Hrot.
  2,3: unfold GwRotate.handle_rotate, handle_rotate_inner; rewrite Hrot; cbn; by apply history_frame.
  assert (all_live_since g = None) as Hs by (eapply since_none; [exact Hh|congruence]).
  pose proof (co_phase _ Hok) as Hp. unfold phase_ok in Hp. cbn in Hp. rewrite Hrot in Hp. destruct Hp as (_ & Hret & _).
  destruct (handle_rotate_spec x25519 base_tun base_wg_port e n g Hok Hrot Hsub Hn) as
    [[[_ _ Er _ _ _] _ _ _ (Ei & _) Es _ _] | [[_ _ Er _ _ _] Ei _ Es _ _ _ _]].
  - apply history_reset; congruence.
  - apply history_reset; congruence.
Qed.

Lemma history_step tr g a g' :
  gw_ok g -> admissible a g = true -> step a g = Some g' -> history tr g -> history (tr ++ [(g, a)]) g'.
Proof.
  intros [Hok _] Ha Hst Hh.
  assert (forall g2, frame g g2 -> (forall now live can w, a <> TickA now live can w) -> history (tr ++ [(g, a)]) g2) as Hframe.
  { intros g2 [E1 E2 E3 E4 _] Hne. by apply history_frame. }
  destruct a; cbn in Ha, Hst; try (injection Hst as <-).
  - unfold run_task in Hst. destruct (submitting g) eqn:Hsub; [done|]. injection Hst as <-.
    apply negb_true_iff, Z.eqb_neq in Ha. by apply history_directive.
  - unfold submitted. destruct (submitting g) as [r|] eqn:Hsub; [|by apply Hframe; [by apply frame_core|]].
    destruct accepted; [by apply Hframe|]. cbn in Ha. apply negb_true_iff in Ha.
    destruct (in_flight g r Hok Hsub Ha) as (n & Hrot & ->).
    assert (all_live_since g = None) as Hs by (eapply since_none; [exact Hh|congruence]).
    pose proof (co_phase _ Hok) as Hp. unfold phase_ok in Hp. cbn in Hp. rewrite Hrot in Hp. destruct Hp as (_ & Hret & _).
    destruct (unwind_spec now discarded {| rr_tun_epoch := n; rr_minted_epoch := Some n |} (set_submitting None g))
      as [[_ _ Er _ _ _] _ _ _ _ Ei _ Es _ _].
    set (g2 := unwind_failed_rotation _ _ _ _) in *. clearbody g2.
    cbn [set_submitting rotation retire_ready all_live_since] in Er, Ei, Es. rewrite Hrot in Ei. cbn in Ei.
    apply history_reset; congruence.
  - unfold run_task in Hst. destruct (submitting g) eqn:Hsub; [done|]. injection Hst as <-.
    destruct (retire_ready g) as [old|] eqn:Hret.
    2:{ unfold service_retire. rewrite Hret. by apply Hframe; [by apply frame_core|]. }
    destruct (service_retire_hist now moved written g old Hok Hret) as (E1 & _ & E3 & E4 & _).
    apply history_reset; [congruence|done|]. rewrite E4. destruct (all_live_since g) as [s|] eqn:Es; [|done].
    destruct (hi_since _ _ Hh s Es) as (n & Hn & [a Hra] & _).
    pose proof (co_phase _ Hok) as Hp. unfold phase_ok in Hp. cbn in Hp. rewrite Hn in Hp.
    destruct Hp as (_ & o & _ & _ & _ & [(? & _ & _ & ?) | [? _]]); congruence.
  - unfold run_task in Hst. destruct (submitting g) eqn:Hsub; [done|]. injection Hst as <-.
    by apply Hframe; [by apply service_collapse_frame|].
  - apply bind_Some in Hst as (_ & _ & Hst). apply bool_decide_eq_true in Ha.
    by apply Hframe; [by eapply on_state_frame|].
  - by apply history_tick.
  - by apply Hframe.
  - by apply Hframe; [apply frame_core, role_b_live_core|].
  - by apply Hframe; [apply frame_core, role_b_acked_core|].
  - by apply Hframe.
  - by apply Hframe; [apply role_b_collapse_frame|].
  - by apply Hframe.
Qed.

Lemma run_history g0 tr g : gw_ok g0 -> history [] g0 -> run g0 tr g -> gw_ok g /\ history tr g.
Proof.
  intros H0 Hh Hr. induction Hr as [|tr g a g' Hr [IH1 IH2] Ha Hs]; [done|].
  split; [by eapply step_ok|by eapply history_step].
Qed.

(** ** The actions that take an own device down *)

Lemma tick_role_a_tunnels now live can w g : tunnels (tick_role_a now live can w g) = tunnels g.
Proof.
  unfold tick_role_a. destruct (role_a g) as [a|]; [|done]. destruct (rotation g) as [|n|n]; [done| |].
  - destruct (any_live live (watch_keys a g)); [|done]. cbn [on_new_epoch_session].
    destruct (cut_over_core can w a n (set_rotation (CutOver n) g)) as (ks & Hc & _). exact (f_equal c_tunnels Hc).
  - destruct (all_live live (watch_keys a g)); [|done]. by destruct (RETIRE_GRACE <=? _).
Qed.

Lemma own_lost a g g' e t :
  gw_ok g -> admissible a g = true -> step a g = Some g' -> live_tun (tunnels g) (Own e) t ->
  ts_tunnels (tunnels g') !! Own e = None ->
  (rotation g = Overlapping e /\ exists now w, a = Submitted now false w) \/
  (retire_ready g = Some e /\ exists now moved w, a = ServiceRetire now moved w).
Proof.
  intros [Hok _] Ha Hst Ht Hgone. unfold live_tun in Ht.
  assert (forall g2, frame g g2 -> ts_tunnels (tunnels g2) !! Own e <> None) as Hframe.
  { intros g2 Hf. rewrite (fr_own _ _ Hf). congruence. }
  destruct a; cbn in Ha, Hst; try (injection Hst as <-).
  - unfold run_task in Hst. destruct (submitting g) eqn:Hsub; [done|]. injection Hst as <-.
    apply negb_true_iff, Z.eqb_neq in Ha. exfalso. destruct (rotation g) as [|m|m] eqn:Hrot.
    2,3: unfold GwRotate.handle_rotate, handle_rotate_inner in Hgone; rewrite Hrot in Hgone; cbn in Hgone; congruence.
    destruct (handle_rotate_spec x25519 base_tun base_wg_port e0 epoch g Hok Hrot Hsub Ha) as
      [[_ E _ _ _ _ _ _] | [_ _ _ _ (k & a & _ & _ & _ & _ & _ & _ & _ & E) _ _ _]]; rewrite E in Hgone; [congruence|].
    apply lookup_insert_None in Hgone as [? _]. congruence.
  - unfold submitted in Hgone. destruct (submitting g) as [r|] eqn:Hsub; [|congruence]. destruct accepted; [cbn in Hgone; congruence|].
    cbn in Ha. apply negb_true_iff in Ha. destruct (in_flight g r Hok Hsub Ha) as (n & Hrot & ->). left.
    rewrite (uw_tunnels _ _ _ (unwind_spec now discarded {| rr_tun_epoch := n; rr_minted_epoch := Some n |} _)) in Hgone.
    cbn in Hgone. apply lookup_delete_None in Hgone as [[= ->] | ?]; [|congruence]. split; [done|by exists now, discarded].
  - unfold run_task in Hst. destruct (submitting g) eqn:Hsub; [done|]. injection Hst as <-. right.
    destruct (retire_ready g) as [old|] eqn:Hret.
    2:{ unfold service_retire in Hgone. rewrite Hret in Hgone. congruence. }
    destruct (service_retire_hist now moved written g old Hok Hret) as (_ & _ & _ & _ & Hlive).
    destruct (decide (e = old)) as [-> | Hne]; [by split; [|exists now, moved, written]|].
    destruct (Hlive e Hne) as [? ?]; [by exists t|congruence].
  - unfold run_task in Hst. destruct (submitting g) eqn:Hsub; [done|]. injection Hst as <-. exfalso.
    by eapply Hframe; [apply service_collapse_frame|].
  - apply bind_Some in Hst as (_ & _ & Hst). apply bool_decide_eq_true in Ha. exfalso.
    by eapply Hframe; [eapply on_state_frame|].
  - rewrite tick_role_a_tunnels in Hgone. congruence.
  - cbn in Hgone. congruence.
  - exfalso. by eapply Hframe; [apply frame_core, role_b_live_core|].
  - exfalso. by eapply Hframe; [apply frame_core, role_b_acked_core|].
  - cbn in Hgone. congruence.
  - exfalso. by eapply Hframe; [apply role_b_collapse_frame|].
  - cbn in Hgone. congruence.
Qed.

(** ** The theorems *)

(** A start: a key store with one entry per epoch, any outcome of the calls. *)
Definition started (g0 : Gw) : Prop :=
  exists store legacy up configured attached replied can baseline saved,
    (forall ks, store = Some ks -> keys_ok ks) /\
    boot x25519 base_tun base_wg_port store legacy up configured attached replied can baseline saved = Some g0.

Lemma started_phase g0 : started g0 -> rotation g0 = Idle /\ retire_ready g0 = None /\ all_live_since g0 = None.
Proof.
  intros (store & legacy & up & configured & attached & replied & can & baseline & saved & _ & Hb).
  unfold boot in Hb. destruct (select_boot_key _ _ _) as [bk|]; [|done].
  match type of Hb with match ?m with _ => _ end = _ => destruct m as [[keys file]|]; [|done] end.
  destruct (bring_up _ _ _ _ _ _ _) as [ts|]; [|done]. destruct attached; [|done]. cbn [negb] in Hb.
  destruct saved as [ds|]; [|by injection Hb as <-]. apply apply_state_core in Hb.
  split_and!; [exact (f_equal c_phase Hb)|exact (f_equal c_retire_ready Hb)|exact (f_equal c_since Hb)].
Qed.

Lemma started_run g0 tr g : started g0 -> run g0 tr g -> gw_ok g /\ history tr g.
Proof.
  intros Hs. pose proof (started_phase g0 Hs) as (H1 & H2 & H3).
  destruct Hs as (store & legacy & up & configured & attached & replied & can & baseline & saved & Hks & Hb).
  apply run_history; [by eapply boot_ok|]. apply history_reset; [congruence|done..].
Qed.



(** ** A rotation that fails *)

Record as_before (n : Z) (g g' : Gw) : Prop := {
  ab_idle : rotation g' = Idle /\ role_a g' = None /\ submitting g' = None;
  ab_active : active_tun g' = active_tun g;
  ab_tunnels : ts_tunnels (tunnels g') = delete (Own n) (ts_tunnels (tunnels g));
  ab_enforcers : enforcers g' = enforcers g ∖ {[Own n]};
  ab_role_b : role_b g' = role_b g;
  ab_routes : forall cidr dev, routes g !! cidr = Some dev ->
    (forall t, live_tun (tunnels g) (Own n) t -> t_ifname t <> dev) -> routes g' !! cidr = Some dev;
  ab_keys : (forall k, k ∈ epoch_keys g' -> k ∈ epoch_keys g) /\
    (forall k, k ∈ epoch_keys g -> ek_epoch k <> n -> k ∈ epoch_keys g');
  ab_aborts : rotation_aborts g' = wrap 64 (rotation_aborts g + 1) }.

Lemma tear_down_device_keeps now id g cidr dev :
  routes g !! cidr = Some dev -> (forall t, live_tun (tunnels g) id t -> t_ifname t <> dev) ->
  routes (tear_down_device now id g) !! cidr = Some dev.
Proof.
  intros Hr Hne. unfold tear_down_device. destruct (ts_tunnels (tunnels g) !! id) as [t|] eqn:E; [|done].
  cbn. apply map_lookup_filter_Some. split; [done|]. intros ->. by apply (Hne t).
Qed.

Lemma unwind_keeps now w residue g cidr dev :
  routes g !! cidr = Some dev -> (forall t, live_tun (tunnels g) (Own (rr_tun_epoch residue)) t -> t_ifname t <> dev) ->
  routes (unwind_failed_rotation now w residue g) !! cidr = Some dev.
Proof.
  intros Hr Hne. unfold unwind_failed_rotation. set (g1 := set_role_a None _).
  assert (routes (tear_down_device now (Own (rr_tun_epoch residue)) g1) !! cidr = Some dev)
    by by apply tear_down_device_keeps.
  destruct (rr_minted_epoch residue); [|done]. by destruct (discard_pending _ _).
Qed.

Lemma stand_up_keeps e n key ae ds g r g' :
  routes_ok g -> stand_up_epoch base_tun base_wg_port e n key ae ds g = (r, g') ->
  (forall cidr dev, routes g !! cidr = Some dev -> routes g' !! cidr = Some dev) /\
  (forall t dev, live_tun (tunnels g') (Own n) t -> ts_tunnels (tunnels g) !! Own n = None ->
     has_device (tunnels g) dev -> t_ifname t <> dev).
Proof.
  intros Hr. unfold stand_up_epoch.
  assert (forall t dev, live_tun (tunnels g) (Own n) t -> ts_tunnels (tunnels g) !! Own n = None ->
     has_device (tunnels g) dev -> t_ifname t <> dev) as Hnone by (unfold live_tun; congruence).
  destruct (plan_tunnel _ _ _ _) as [plan|] eqn:Ep; [|by intros [= <- <-]].
  pose proof (proj1 (plan_spec _ _ _ _ _ Ep)) as Hid. rewrite Hid.
  unfold bring_up_device. destruct (bring_up _ _ _ _ _ _ _) as [ts|] eqn:Eb; [|by intros [= <- <-]]. cbn [mbind result_bind].
  apply bring_up_spec in Eb as (Hn & Ets & Hfree & _).
  assert (forall t dev, live_tun ts (Own n) t -> has_device (tunnels g) dev -> t_ifname t <> dev) as Hfresh.
  { intros t dev Ht (i & u & Hu & <-) E. unfold live_tun in Ht. rewrite Ets, lookup_insert_eq in Ht. injection Ht as <-.
    by destruct (Hfree i u Hu). }
  assert (forall devs, let g1 := tear_down_device (re_now e) (Own n) (set_devices devs (set_tunnels ts g)) in
    (forall cidr dev, routes g !! cidr = Some dev -> routes g1 !! cidr = Some dev) /\
    (forall t dev, live_tun (tunnels g1) (Own n) t -> ts_tunnels (tunnels g) !! Own n = None ->
       has_device (tunnels g) dev -> t_ifname t <> dev)) as Hdown.
  { intros devs g1. split.
    - intros cidr dev Hl. apply tear_down_device_keeps; [done|]. intros t Ht. apply Hfresh; [done|]. by apply (Hr cidr).
    - intros t dev. unfold g1. rewrite tear_down_device_tunnels. by intros [? _]%live_tear_down. }
  destruct (re_attached e); cbn [negb]; [|intros [= <- <-]; apply Hdown].
  destruct (re_policy e); cbn [negb]; [|intros [= <- <-]; apply Hdown].
  unfold uapi_apply. destruct (encode_set _); [destruct (re_peers e)|]; intros [= <- <-]; (split; [done|]);
    intros t dev Ht _; by apply Hfresh.
Qed.

Lemma refused_keeps e n g cidr dev :
  gw_ok g -> rotation g = Idle -> n <> at_epoch (active_tun g) -> submitting (handle_rotate e n g) = None ->
  routes g !! cidr = Some dev -> routes (handle_rotate e n g) !! cidr = Some dev.
Proof.
  intros [Hok Hr] Hidle Hn Hsub Hl. destruct (no_new_device n g Hok Hidle Hn) as [Hnone _].
  assert (has_device (tunnels g) dev) as Hd by by apply (Hr cidr).
  assert (forall t, live_tun (tunnels g) (Own n) t -> t_ifname t <> dev) as Hnot by (unfold live_tun; congruence).
  revert Hsub. unfold GwRotate.handle_rotate, handle_rotate_inner. rewrite Hidle. cbn [on_directive].
  destruct (applied g) as [ds|]; [|intros _; by apply unwind_keeps].
  destruct (generate_next_at _ _ _ _) as [[key ks]|]; [|intros _; by apply unwind_keeps].
  destruct (persist _ _ _) as [[u|] file]; [|intros _; by apply unwind_keeps].
  destruct (negb _); [intros _; by apply unwind_keeps|].
  destruct (stand_up_epoch _ _ _ _ _ _ _ _) as [[u'|] g3] eqn:E; [done|]. intros _.
  apply stand_up_keeps in E as [H1 H2]; [|done]. apply unwind_keeps; [by apply H1|].
  intros t Ht. by apply H2.
Qed.

Lemma sublist_keys n ks ks' :
  ks' = ks \/ ks' = List.filter (other_epoch n) ks ->
  (forall k, k ∈ ks' -> k ∈ ks) /\ (forall k, k ∈ ks -> ek_epoch k <> n -> k ∈ ks').
Proof. intros [-> | ->]; [done|]. setoid_rewrite elem_of_other_epoch. naive_solver. Qed.

End safe.

(** ** A rotation on concrete values

    One peer; X25519 is any function, here the identity. *)
Definition demo_key (b : Z) : string := base64_encode (replicate 32 b).
Definition demo_hex (b : Z) : string := default "" (pubkey_b64_to_hex (demo_key b)).

Definition demo_peer (gid b : Z) (cidr : string) : PeerState :=
  {| ps_gateway_id := gid; ps_segment_name := "site"; ps_active_pubkey_b64 := Some (demo_key b);
     ps_keys := [{| ki_epoch := 0; ki_pubkey_b64 := demo_key b; ki_state := "active" |}];
     ps_candidates := ["203.0.113.9:51820"]; ps_allowed_ips := [cidr] |}.

Definition demo_state (peers : list PeerState) : DesiredState :=
  {| ds_revision := 1; ds_peers := peers; ds_policy_ir := ""; ds_policy_version := 1; ds_relays := [];
     ds_revoked_serials := [] |}.

Definition demo_env (attached : bool) : RotateEnv :=
  {| re_now := secs 10; re_raw := replicate 32 9; re_minted := Written; re_up := true; re_configured := true;
     re_attached := attached; re_policy := true; re_peers := true; re_discarded := Written |}.

Definition demo_overlaps (aid : Z) : OverlapEnv :=
  {| oe_up := true; oe_configured := true; oe_attached := true; oe_policy := true; oe_peers := true |}.

Definition ok_cidr (cidr : string) : bool := true.

Definition demo_apply (now : Z) (peers : list PeerState) : Act :=
  State now true ok_cidr demo_overlaps (demo_state peers).

Definition demo_tick (now : Z) (sessions : list Z) : Act :=
  TickA (secs now) (Some (list_to_set (map demo_hex sessions))) ok_cidr Written.

Definition demo_boot : option Gw :=
  boot id "wg0" 51820 None (demo_key 1) true true true true ok_cidr Written None.
Definition demo_start : Gw.
Proof. let g := eval vm_compute in demo_boot in match g with Some ?g => exact g end. Defined.
Definition demo_play (acts : list Act) : option Gw := play id "wg0" 51820 acts demo_start.

(** A peer, a directive accepted, the cutover, and seven seconds of sessions. *)
Definition demo_rotation : list Act :=
  [demo_apply (secs 1) [demo_peer 7 2 "10.7.0.0/16"]; Directive (demo_env true) 1; Submitted (secs 11) true Written;
   demo_tick 12 [2]; demo_tick 13 [2]; demo_tick 20 [2]].

Example demo_started : started id "wg0" 51820 demo_start.
Proof. exists None, (demo_key 1), true, true, true, true, ok_cidr, Written, None. by split. Qed.

Definition demo_end (acts : list Act) : Gw := default demo_start (demo_play acts).

Lemma demo_run acts : is_Some (demo_play acts) -> exists tr, run id "wg0" 51820 demo_start tr (demo_end acts).
Proof.
  intros [g Hg]. destruct (play_run id "wg0" 51820 acts demo_start [] demo_start g) as [tr Hr]; [constructor|exact Hg|].
  exists tr. unfold demo_end. by rewrite Hg.
Qed.


Definition demo_retired : Gw := demo_end (demo_rotation ++ [ServiceRetire (secs 21) true Written]).


Definition demo_submitting : list Act := [demo_apply (secs 1) [demo_peer 7 2 "10.7.0.0/16"]; Directive (demo_env true) 1].


(** ** Where the guarantees end

    Outside [admissible], and for peers the rotation does not know. *)

(** A directive that names the active epoch is refused when its key is minted,
    and the unwinding then takes the active device down with its filter. *)
Example directive_for_the_active_epoch :
  (g ← demo_play [demo_apply (secs 1) [demo_peer 7 2 "10.7.0.0/16"]];
   g ← step id "wg0" 51820 (Directive (demo_env true) 0) g;
   Some (at_epoch (active_tun g), ts_tunnels (tunnels g) !! Own 0, routes g !! "10.7.0.0/16")) = Some (0, None, None).
Proof. by vm_compute. Qed.

(** A submission that commits and loses its reply: the tick cuts over while it
    is in flight, and the unwinding takes the new active device down; the phase
    stays, and every later directive is ignored. *)
Example reply_lost_after_cutover :
  (g ← demo_play (demo_submitting ++ [demo_tick 12 [2]]);
   g ← step id "wg0" 51820 (Submitted (secs 13) false Written) g;
   Some (at_epoch (active_tun g), ts_tunnels (tunnels g) !! Own 1, rotation g,
     rotation <$> step id "wg0" 51820 (Directive (demo_env true) 2) g)) =
  Some (1, None, CutOver 1, Some (CutOver 1)).
Proof. by vm_compute. Qed.

(** A peer that is enrolled while the rotation overlaps gets its route over the
    old device; the cutover does not move it and the retirement takes it away. *)
Example newcomer_loses_its_route :
  (g ← demo_play (demo_submitting ++ [Submitted (secs 11) true Written;
     demo_apply (secs 11) [demo_peer 7 2 "10.7.0.0/16"; demo_peer 8 3 "10.8.0.0/16"];
     demo_tick 12 [2]; demo_tick 13 [2]; demo_tick 20 [2]; ServiceRetire (secs 21) true Written;
     demo_apply (secs 30) [demo_peer 7 2 "10.7.0.0/16"; demo_peer 8 3 "10.8.0.0/16"]]);
   Some (rotation g, map_to_list (routes g))) = Some (Idle, [("10.7.0.0/16", "wg0e1")]).
Proof. by vm_compute. Qed.
