(* ===== verification/RelayWire.v ===== *)
(** * The relay's wire formats, client and denylist

    [crates/wiremesh-relay/src/lib.rs] outside [serve]: the registry key and the
    registration payload, the client's datagrams, the classification of a failed
    connect, the per-branch log limiter, the denylist of revoked certificate
    serials with the verifier that consults it and the Sync messages that feed
    it.  SHA-256 is a parameter; QUIC, TLS and X.509 appear as the values the code
    reads from them: an error, the DER content of a serial number, the DNS names
    of a certificate.  A byte sequence is a [string]. *)
From Stdlib Require Import ZArith Lia Ascii.
From S2P Require Import PolicyCompile GwUapi.
From S2P Require Import Prelude SyncProto.
Local Open Scope Z_scope.

(** ** Byte sequences *)

Fixpoint str_take (n : nat) (s : string) : string :=
  match n, s with S n', String c s' => String c (str_take n' s') | _, _ => EmptyString end.

Fixpoint str_drop (n : nat) (s : string) : string :=
  match n, s with S n', String _ s' => str_drop n' s' | _, _ => s end.

(** The [k] low bytes of [n], most significant first ([to_be_bytes]). *)
Fixpoint be_bytes (k : nat) (n : Z) : string :=
  match k with
  | O => EmptyString
  | S k' => String (char_of (n / 2 ^ (8 * Z.of_nat k') mod 256)) (be_bytes k' n)
  end.

(** [from_be_bytes]. *)
Definition be_value (s : string) : Z := foldl (fun v b => v * 256 + b) 0 (bytes s).

(** Whether [std::str::from_utf8] accepts the bytes (RFC 3629). *)
Definition continuation (lo hi : Z) (c : ascii) : bool := (lo <=? byte_of c) && (byte_of c <=? hi).

Fixpoint utf8 (s : string) : bool :=
  match s with
  | EmptyString => true
  | String a s1 =>
      let n := byte_of a in
      if n <? 128 then utf8 s1
      else
        match s1 with
        | EmptyString => false
        | String b s2 =>
            if (194 <=? n) && (n <=? 223) then continuation 128 191 b && utf8 s2
            else
              match s2 with
              | EmptyString => false
              | String c s3 =>
                  if (224 <=? n) && (n <=? 239) then
                    continuation (if n =? 224 then 160 else 128) (if n =? 237 then 159 else 191) b
                    && continuation 128 191 c && utf8 s3
                  else
                    match s3 with
                    | EmptyString => false
                    | String d s4 =>
                        (240 <=? n) && (n <=? 244)
                        && continuation (if n =? 240 then 144 else 128) (if n =? 244 then 143 else 191) b
                        && continuation 128 191 c && continuation 128 191 d && utf8 s4
                    end
              end
        end
  end.

(** ** Registration *)

Definition MAX_REGISTRATION_BYTES : nat := 1024.

Section key.
Context (sha256 : string -> string).

(** What [registration_key] hashes. *)
Definition registration_preimage (my_identity peer_identity : string) : string :=
  be_bytes 8 (Z.of_nat (String.length my_identity)) +:+ my_identity +:+ peer_identity.

Definition registration_key (my_identity peer_identity : string) : string :=
  str_take 8 (sha256 (registration_preimage my_identity peer_identity)).
End key.

Definition key_hex (key : string) : string := hex_encode key.

Definition encode_registration (my_identity peer_identity : string) : string :=
  be_bytes 2 (Z.of_nat (String.length my_identity)) +:+ my_identity +:+ peer_identity.

Inductive RegistrationError : Type :=
| TooShort
| Truncated (my_len : Z) (have : nat)
| MyNotUtf8
| PeerNotUtf8
| EmptyIdentity.

Definition decode_registration (buf : string) : result RegistrationError (string * string) :=
  if (String.length buf <? 2)%nat then Err TooShort
  else
    let my_len := be_value (str_take 2 buf) in
    let rest := str_drop 2 buf in
    if Z.of_nat (String.length rest) <? my_len then Err (Truncated my_len (String.length rest))
    else
      let my := str_take (Z.to_nat my_len) rest in
      let peer := str_drop (Z.to_nat my_len) rest in
      if negb (utf8 my) then Err MyNotUtf8
      else if negb (utf8 peer) then Err PeerNotUtf8
      else if bool_decide (my = "") || bool_decide (peer = "") then Err EmptyIdentity
      else Ok (my, peer).

(** [identity_from_client_cert] on the DNS names of the certificate: the first one
    that names a gateway. *)
Definition is_gateway_name (name : string) : bool :=
  match str_strip_prefix "gw-" name with Some rest => negb (bool_decide (rest = "")) | None => false end.

Definition identity_from_client_cert (dns_names : list string) : option string :=
  List.find is_gateway_name dns_names.

(** ** The client *)

Record Client : Type := { dest_key : string; cl_alpn : option string }.

Definition new_client (sha256 : string -> string) (my_identity peer_identity : string) (alpn : option string) : Client :=
  {| dest_key := registration_key sha256 peer_identity my_identity; cl_alpn := alpn |}.

(** [Client::send]: the datagram handed to the connection. *)
Definition client_send (c : Client) (data : string) : string := dest_key c +:+ data.

(** [Client::recv]. *)
Definition client_recv (dgram : string) : option (string * string) :=
  if (String.length dgram <? 8)%nat then None else Some (str_take 8 dgram, str_drop 8 dgram).

(** ** Why a connect failed *)

Definition ALPN_V0 : string := "wiremesh-relay/0".
Definition ALPN_SUPPORTED : list string := [ALPN_V0].
Definition ALERT_NO_APPLICATION_PROTOCOL : Z := 120.

Inductive RelayConnectFailure : Type :=
| AlpnMismatch
| PeerRejectedCredentials (alert : Z)
| Unreachable
| OtherFailure.

Definition classify_transport_code (raw : Z) : RelayConnectFailure :=
  if (256 <=? raw) && (raw <? 512) then
    let alert := Z.land raw 255 in
    if alert =? ALERT_NO_APPLICATION_PROTOCOL then AlpnMismatch else PeerRejectedCredentials alert
  else OtherFailure.

(** The connection errors of [quinn] that the code tells apart. *)
Inductive ConnectionError : Type :=
| ConnectionClosed (error_code : Z)
| TimedOut
| Reset
| VersionMismatch
| ApplicationClosed (code : Z)
| OtherConnectionError.

Definition classify_connection_error (e : ConnectionError) : RelayConnectFailure :=
  match e with
  | ConnectionClosed code => classify_transport_code code
  | TimedOut | Reset | VersionMismatch => Unreachable
  | _ => OtherFailure
  end.

(** The step of [finish_connect] that failed; [None] is an error that is not a
    lost connection. *)
Inductive ConnectStep : Type :=
| QuicConnect
| Handshake (e : ConnectionError)
| OpenStream (e : ConnectionError)
| WriteRegistration (e : option ConnectionError)
| FinishStream
| AwaitAck (e : option ConnectionError).

Definition connect_failure (s : ConnectStep) : RelayConnectFailure :=
  match s with
  | QuicConnect | FinishStream => OtherFailure
  | Handshake e | OpenStream e => classify_connection_error e
  | WriteRegistration e | AwaitAck e =>
      match e with Some ce => classify_connection_error ce | None => OtherFailure end
  end.

(** [finish_connect]: the first step that fails, or the client. *)
Definition finish_connect (sha256 : string -> string) (failed : option ConnectStep) (my_identity peer_identity : string)
    (alpn : option string) : result RelayConnectFailure Client :=
  match failed with
  | Some s => Err (connect_failure s)
  | None => Ok (new_client sha256 my_identity peer_identity alpn)
  end.

(** ** The log limiter *)

Definition DATAGRAM_LOG_INTERVAL : Z := secs 10.

Record DatagramDropLog : Type := { dl_count : Z; last_logged : option Z }.

Definition new_drop_log : DatagramDropLog := {| dl_count := 0; last_logged := None |}.

(** [record] at instant [now]: the count a line that is due prints. *)
Definition record_drop (l : DatagramDropLog) (now : Z) : DatagramDropLog * option Z :=
  let n := dl_count l + 1 in
  let due := match last_logged l with None => true | Some t => DATAGRAM_LOG_INTERVAL <=? sat_sub now t end in
  if due then ({| dl_count := n; last_logged := Some now |}, Some n)
  else ({| dl_count := n; last_logged := last_logged l |}, None).

(** [AlpnSessionCounts::record]. *)
Definition record_session (m : gmap string Z) (alpn : option string) : gmap string Z * Z :=
  let key := default "unknown" alpn in
  let n := default 0 (m !! key) + 1 in
  (<[key := n]> m, n).

(** ** The denylist *)

Abbreviation Denylist := (gset string).

Definition replace_all (serials : list string) : Denylist := list_to_set serials.
Definition union_serials (d : Denylist) (serials : list string) : Denylist := d ∪ list_to_set serials.

Inductive LoadError : Type := Unparsable | Unreadable.

(** [Denylist::load] on what reading the file gives; a missing file is empty. *)
Definition load_denylist (parse : string -> option (list string)) (file : result bool string) : result LoadError Denylist :=
  match file with
  | Ok text => match parse text with Some items => Ok (replace_all items) | None => Err Unparsable end
  | Err true => Ok ∅
  | Err false => Err Unreadable
  end.

(** [sync_message::Body], as far as the relay reads it. *)
Inductive Body : Type := BSnapshot (s : StateSnapshot) | BDelta (d : Delta) | BOther.

(** One message of [run_sync]'s stream: the new list, and whether it is persisted. *)
Definition fold_message (d : Denylist) (m : Body) : Denylist * bool :=
  match m with
  | BSnapshot s => (replace_all (ss_revoked_serials s), true)
  | BDelta x => match d_revoked_serials x with [] => (d, false) | l => (union_serials d l, true) end
  | BOther => (d, false)
  end.

(** [extract_serial_hex] on the content bytes of the certificate's serial. *)
Definition extract_serial_hex (raw : string) : option string :=
  let content :=
    match raw with
    | String z rest => if (String.length raw =? 17)%nat && (byte_of z =? 0) then rest else raw
    | EmptyString => raw
    end in
  if (16 <? String.length content)%nat then None
  else Some (hex_encode (of_bytes (replicate (16 - String.length content) 0) +:+ content)).

Inductive VerifyError : Type := ChainRejected | NoSerial | Revoked.

(** [DenyingVerifier::verify_client_cert]: the chain first, then the serial; [raw] is
    [None] when the certificate does not parse. *)
Definition verify_client_cert (d : Denylist) (chain_ok : bool) (raw : option string) : result VerifyError unit :=
  if negb chain_ok then Err ChainRejected
  else
    match raw ≫= extract_serial_hex with
    | None => Err NoSerial
    | Some serial => if bool_decide (serial ∈ d) then Err Revoked else Ok tt
    end.

(** ** Byte sequences *)

Lemma str_length_app s t : String.length (s +:+ t) = (String.length s + String.length t)%nat.
Proof. induction s as [|c s IH]; [done|]. rewrite string_app_cons. cbn. by rewrite IH. Qed.

Lemma str_take_app s t n : String.length s = n -> str_take n (s +:+ t) = s.
Proof.
  intros <-. induction s as [|c s IH]; [by destruct t|]. rewrite string_app_cons. cbn. by rewrite IH.
Qed.

Lemma str_drop_app s t n : String.length s = n -> str_drop n (s +:+ t) = t.
Proof. intros <-. induction s as [|c s IH]; [done|]. by rewrite string_app_cons. Qed.

Lemma str_take_drop n s : str_take n s +:+ str_drop n s = s.
Proof.
  revert s. induction n as [|n IH]; intros [|c s]; [done..|]. cbn. rewrite string_app_cons. by rewrite IH.
Qed.

Lemma str_take_length n s : (n <= String.length s)%nat -> String.length (str_take n s) = n.
Proof. revert s. induction n as [|n IH]; intros [|c s] H; cbn in *; [done|done|lia|]. rewrite IH; lia. Qed.

Lemma be_bytes_length k n : String.length (be_bytes k n) = k.
Proof. induction k as [|k IH]; [done|]. cbn. by rewrite IH. Qed.

Lemma byte_of_char_of b : 0 <= b < 256 -> byte_of (char_of b) = b.
Proof. intros H. unfold byte_of, char_of. rewrite nat_ascii_embedding; lia. Qed.

Lemma bytes_app s t : bytes (s +:+ t) = bytes s ++ bytes t.
Proof. induction s as [|c s IH]; [done|]. rewrite string_app_cons. cbn. by rewrite IH. Qed.

(** Value of a byte list, most significant first. *)
Lemma be_value_acc l v : foldl (fun v b => v * 256 + b) v l = v * 256 ^ Z.of_nat (length l) + foldl (fun v b => v * 256 + b) 0 l.
Proof.
  revert v. induction l as [|b l IH]; intros v; [cbn; lia|]. cbn [foldl length].
  rewrite (IH (v * 256 + b)), (IH (0 * 256 + b)), Nat2Z.inj_succ, Z.pow_succ_r by lia. lia.
Qed.

Lemma bytes_length s : length (bytes s) = String.length s.
Proof. induction s as [|c s IH]; [done|]. cbn. by rewrite IH. Qed.

Lemma byte_of_range c : 0 <= byte_of c < 256.
Proof. unfold byte_of. pose proof (nat_ascii_bounded c). lia. Qed.

Lemma be_value_cons c s : be_value (String c s) = byte_of c * 256 ^ Z.of_nat (String.length s) + be_value s.
Proof. unfold be_value. cbn. rewrite be_value_acc, bytes_length. lia. Qed.

Lemma be_value_range s : 0 <= be_value s < 256 ^ Z.of_nat (String.length s).
Proof.
  induction s as [|c s IH]; [cbn; lia|]. rewrite be_value_cons. pose proof (byte_of_range c). cbn [String.length].
  rewrite Nat2Z.inj_succ, Z.pow_succ_r by lia. nia.
Qed.

Lemma be_value_inj s t : String.length s = String.length t -> be_value s = be_value t -> s = t.
Proof.
  revert t. induction s as [|c s IH]; intros [|d t] Hl Hv; [done..|]. cbn in Hl. injection Hl as Hl.
  rewrite !be_value_cons in Hv. rewrite Hl in Hv.
  pose proof (be_value_range s) as Hs. pose proof (be_value_range t) as Ht. rewrite Hl in Hs.
  set (w := 256 ^ Z.of_nat (String.length t)) in *.
  assert (byte_of c = byte_of d) as Hcd by nia.
  assert (c = d) as ->. { unfold byte_of in Hcd. rewrite <- (ascii_nat_embedding c), <- (ascii_nat_embedding d). f_equal. lia. }
  f_equal. apply IH; [done|nia].
Qed.

Lemma be_bytes_value k n : be_value (be_bytes k n) = n mod 256 ^ Z.of_nat k.
Proof.
  induction k as [|k IH]; [cbn; by rewrite Z.mod_1_r|].
  cbn [be_bytes]. rewrite be_value_cons, be_bytes_length, IH, byte_of_char_of by (apply Z.mod_pos_bound; lia).
  replace (2 ^ (8 * Z.of_nat k)) with (256 ^ Z.of_nat k) by (rewrite Z.pow_mul_r by lia; done).
  rewrite Nat2Z.inj_succ, Z.pow_succ_r, (Z.mul_comm 256), Z.rem_mul_r by lia. lia.
Qed.

(** ** Registration *)

Lemma preimage_inj my my' peer peer' :
  Z.of_nat (String.length my) < 2 ^ 64 -> Z.of_nat (String.length my') < 2 ^ 64 ->
  registration_preimage my peer = registration_preimage my' peer' -> my = my' /\ peer = peer'.
Proof.
  intros Hm Hm' H. unfold registration_preimage in H.
  assert (be_bytes 8 (Z.of_nat (String.length my)) = be_bytes 8 (Z.of_nat (String.length my'))) as El.
  { apply (f_equal (str_take 8)) in H. by rewrite !(str_take_app _ _ 8) in H by apply be_bytes_length. }
  apply (f_equal (str_drop 8)) in H. rewrite !(str_drop_app _ _ 8) in H by apply be_bytes_length.
  apply (f_equal be_value) in El. rewrite !be_bytes_value in El. change (256 ^ Z.of_nat 8) with (2 ^ 64) in El.
  rewrite !Z.mod_small in El by lia. apply Nat2Z.inj in El.
  pose proof (f_equal (str_take (String.length my)) H) as Ht. pose proof (f_equal (str_drop (String.length my)) H) as Hd.
  rewrite str_take_app, (str_take_app my') in Ht by done. by rewrite str_drop_app, (str_drop_app my') in Hd by done.
Qed.

Lemma decode_encode my peer :
  Z.of_nat (String.length my) < 2 ^ 16 ->
  (decode_registration (encode_registration my peer) = Ok (my, peer) <->
   utf8 my = true /\ utf8 peer = true /\ my <> "" /\ peer <> "").
Proof.
  intros Hm. unfold decode_registration, encode_registration.
  rewrite str_length_app, be_bytes_length, (str_take_app _ _ 2), (str_drop_app _ _ 2), be_bytes_value by apply be_bytes_length.
  change (256 ^ Z.of_nat 2) with (2 ^ 16). rewrite Z.mod_small, str_length_app, Nat2Z.id, str_take_app, str_drop_app by (done || lia).
  destruct (Nat.ltb_spec (2 + (String.length my + String.length peer)) 2); [lia|].
  destruct (Z.ltb_spec (Z.of_nat (String.length my + String.length peer)) (Z.of_nat (String.length my))); [lia|].
  destruct (utf8 my); cbn [negb]; [|naive_solver].
  destruct (utf8 peer); cbn [negb]; [|naive_solver].
  repeat case_bool_decide; cbn [orb]; naive_solver.
Qed.

Lemma decoded_is_encoded buf my peer :
  decode_registration buf = Ok (my, peer) -> buf = encode_registration my peer /\ Z.of_nat (String.length my) < 2 ^ 16.
Proof.
  unfold decode_registration, encode_registration. destruct (Nat.ltb_spec (String.length buf) 2) as [|Hlen]; [done|].
  set (rest := str_drop 2 buf). pose proof (be_value_range (str_take 2 buf)) as Hv.
  assert (String.length (str_take 2 buf) = 2%nat) as H2 by (apply str_take_length; lia). rewrite H2 in Hv.
  change (256 ^ Z.of_nat 2) with (2 ^ 16) in Hv. set (n := be_value (str_take 2 buf)) in *.
  destruct (Z.ltb_spec (Z.of_nat (String.length rest)) n); [done|].
  destruct (negb (utf8 _)); [done|]. destruct (negb (utf8 _)); [done|]. destruct (_ || _); [done|]. intros [= <- <-].
  assert (String.length (str_take (Z.to_nat n) rest) = Z.to_nat n) as Hn by (apply str_take_length; lia).
  rewrite Hn, Z2Nat.id by lia. split; [|lia]. rewrite str_take_drop.
  rewrite <- (str_take_drop 2 buf) at 1. f_equal. apply be_value_inj; [by rewrite be_bytes_length|].
  by rewrite be_bytes_value, Z.mod_small.
Qed.

(** C40: A registration is read back: a buffer decodes to two identities exactly when it is
    the payload a client writes for them, they are non-empty UTF-8 and the own one fits
    the 16-bit length. *)
Theorem registration_reads_back buf my peer :
  decode_registration buf = Ok (my, peer) <->
  buf = encode_registration my peer /\ Z.of_nat (String.length my) < 2 ^ 16 /\
  utf8 my = true /\ utf8 peer = true /\ my <> "" /\ peer <> "".
Proof.
  split.
  - intros H. pose proof (decoded_is_encoded buf my peer H) as [-> Hm]. split; [done|]. split; [done|].
    by apply decode_encode.
  - intros (-> & Hm & H). by apply decode_encode.
Qed.

(** ** Serial numbers *)

(** The content bytes of a DER INTEGER with the value of [serial] (X.690, 8.3):
    the shortest two's complement form of a non-negative number. *)
Definition der_integer (serial raw : string) : Prop :=
  be_value raw = be_value serial /\
  match raw with
  | "" => False
  | String a rest => byte_of a < 128 /\
      match rest with "" => True | String b _ => byte_of a = 0 -> 128 <= byte_of b end
  end.

Lemma be_value_zeros n s : be_value (of_bytes (replicate n 0) +:+ s) = be_value s.
Proof.
  induction n as [|n IH]; [done|]. cbn [replicate of_bytes]. rewrite string_app_cons, be_value_cons, IH.
  rewrite byte_of_char_of by lia. lia.
Qed.

Lemma zeros_length n : String.length (of_bytes (replicate n 0)) = n.
Proof. induction n as [|n IH]; [done|]. cbn. by rewrite IH. Qed.

Lemma be_value_lower c s : 0 < byte_of c -> 256 ^ Z.of_nat (String.length s) <= be_value (String c s).
Proof. intros Hc. rewrite be_value_cons. pose proof (be_value_range s). nia. Qed.

(** No certificate slips past the list on account of how DER writes its serial. *)
Lemma extract_serial_spec serial raw :
  String.length serial = 16%nat -> der_integer serial raw -> extract_serial_hex raw = Some (hex_encode serial).
Proof.
  intros Hs [Hv Hmin]. pose proof (be_value_range serial) as Hr. rewrite Hs, <- Hv in Hr.
  destruct raw as [|a rest]; [done|]. destruct Hmin as [Ha Hb].
  assert (exists content, extract_serial_hex (String a rest) = (if (16 <? String.length content)%nat then None
      else Some (hex_encode (of_bytes (replicate (16 - String.length content) 0) +:+ content))) /\
      be_value content = be_value serial /\ (String.length content <= 16)%nat) as (content & -> & Hc & Hl).
  { unfold extract_serial_hex. destruct (Nat.eqb_spec (String.length (String a rest)) 17) as [E|E]; cbn [andb].
    - destruct (Z.eqb_spec (byte_of a) 0) as [Ea|Ea].
      + exists rest. split; [done|]. rewrite be_value_cons, Ea in Hv. split; [lia|]. cbn in E. lia.
      + pose proof (byte_of_range a). pose proof (be_value_lower a rest ltac:(lia)) as Hlow. cbn in E.
        injection E as E. rewrite E in Hlow. lia.
    - exists (String a rest). split; [done|]. split; [done|]. apply Nat.nlt_ge. intros Hlt.
      destruct (Z.eq_dec (byte_of a) 0) as [Ea|Ea].
      + destruct rest as [|b rest']; [cbn in Hlt; lia|]. specialize (Hb Ea). cbn in E, Hlt.
        pose proof (be_value_lower b rest' ltac:(lia)) as Hlow.
        rewrite be_value_cons, Ea in Hr.
        assert (256 ^ 16 <= 256 ^ Z.of_nat (String.length rest')) by (apply Z.pow_le_mono_r; lia). lia.
      + pose proof (byte_of_range a). pose proof (be_value_lower a rest ltac:(lia)) as Hlow. cbn in Hlt.
        assert (256 ^ 16 <= 256 ^ Z.of_nat (String.length rest)) by (apply Z.pow_le_mono_r; lia). lia. }
  destruct (Nat.ltb_spec 16 (String.length content)); [lia|]. do 2 f_equal.
  apply be_value_inj; [|by rewrite be_value_zeros]. rewrite str_length_app, zeros_length. lia.
Qed.

(** A certificate whose serial is listed is refused, whatever else it says. *)
Lemma revoked_refused d serial raw chain_ok :
  String.length serial = 16%nat -> der_integer serial raw -> hex_encode serial ∈ d ->
  verify_client_cert d chain_ok (Some raw) = Err (if chain_ok then Revoked else ChainRejected).
Proof.
  intros Hs Hraw Hd. unfold verify_client_cert. destruct chain_ok; [|done]. cbn.
  rewrite (extract_serial_spec serial raw Hs Hraw). by rewrite bool_decide_eq_true_2.
Qed.

(** ** How much a flood can log *)

Lemma record_drop_spec l now :
  let '(l', line) := record_drop l now in
  dl_count l' = dl_count l + 1 /\
  match line with
  | Some n => n = dl_count l' /\ last_logged l' = Some now /\
      forall t, last_logged l = Some t -> t + DATAGRAM_LOG_INTERVAL <= now
  | None => last_logged l' = last_logged l
  end.
Proof.
  unfold record_drop, sat_sub, DATAGRAM_LOG_INTERVAL, secs, NANOS_PER_SEC.
  destruct (last_logged l) as [t|] eqn:E; cbn; [|repeat split; congruence].
  destruct (Z.leb_spec (10 * 1000000000) (Z.max 0 (now - t))); cbn; [|by split].
  split; [done|]. split; [done|]. split; [done|]. intros ? [= <-]. lia.
Qed.

Definition lines (outs : list (option Z)) : list Z := omap id outs.

Lemma drop_log_spaced l ts t0 t1 :
  last_logged l = Some t0 -> Forall (fun t => t <= t1) ts -> t0 <= t1 ->
  let '(l', outs) := run record_drop l ts in
  dl_count l' = dl_count l + Z.of_nat (length ts) /\
  Z.of_nat (length (lines outs)) * DATAGRAM_LOG_INTERVAL <= t1 - t0.
Proof.
  revert l t0. induction ts as [|t ts IH]; intros l t0 Hl Hts Ht; cbn [run]; [cbn; lia|].
  apply list.Forall_cons in Hts as [Htt Hts]. pose proof (record_drop_spec l t) as Hspec.
  destruct (record_drop l t) as [l1 line]. destruct Hspec as [Hc Hline].
  destruct line as [n|].
  - destruct Hline as (_ & Hl1 & Hsp). specialize (Hsp t0 Hl). specialize (IH l1 t Hl1 Hts Htt).
    destruct (run record_drop l1 ts) as [l' outs]. destruct IH as [IHc IH]. unfold lines in *. cbn [omap list_omap id length].
    unfold DATAGRAM_LOG_INTERVAL, secs, NANOS_PER_SEC in *. cbn [length]. split; [lia|]. lia.
  - rewrite Hl in Hline. specialize (IH l1 t0 Hline Hts Ht).
    destruct (run record_drop l1 ts) as [l' outs]. destruct IH as [IHc IH]. unfold lines in *. cbn [omap list_omap id length]. split; [lia|]. lia.
Qed.

(** A flood cannot flood the log.  However many datagrams of one kind a connection has
    dropped between two instants, one branch's limiter counts every one of them and
    lets through the first line and then at most one per ten seconds. *)
Theorem drop_log_bounded ts t0 t1 :
  ts <> [] -> Forall (fun t => t0 <= t <= t1) ts ->
  let '(l, outs) := run record_drop new_drop_log ts in
  dl_count l = Z.of_nat (length ts) /\ head outs = Some (Some 1) /\
  (Z.of_nat (length (lines outs)) - 1) * DATAGRAM_LOG_INTERVAL <= t1 - t0.
Proof.
  intros Hne Hts. destruct ts as [|t ts]; [done|]. apply list.Forall_cons in Hts as [Ht Hts]. cbn [run].
  change (record_drop new_drop_log t) with ({| dl_count := 1; last_logged := Some t |}, Some 1). cbv beta iota.
  pose proof (drop_log_spaced {| dl_count := 1; last_logged := Some t |} ts t t1 eq_refl
    ltac:(eapply list.Forall_impl; [exact Hts|cbn; lia]) ltac:(lia)) as H.
  destruct (run record_drop _ ts) as [l outs]. destruct H as [Hc H]. unfold lines in *. cbn [omap list_omap id length head].
  split; [cbn [dl_count] in Hc; lia|]. split; [done|]. unfold DATAGRAM_LOG_INTERVAL, secs, NANOS_PER_SEC in *. lia.
Qed.

(** ** What a failed connect is taken for *)

(** An ALPN refusal is never taken for a refusal of credentials, at whichever step of
    the connect it surfaces; every other TLS alert is. *)
Theorem alerts_classified alert :
  0 <= alert < 256 ->
  Forall (fun step => connect_failure step =
      if alert =? ALERT_NO_APPLICATION_PROTOCOL then AlpnMismatch else PeerRejectedCredentials alert)
    (let e := ConnectionClosed (256 + alert) in [Handshake e; OpenStream e; WriteRegistration (Some e); AwaitAck (Some e)]).
Proof.
  intros Ha. assert (classify_transport_code (256 + alert) =
    if alert =? ALERT_NO_APPLICATION_PROTOCOL then AlpnMismatch else PeerRejectedCredentials alert) as H.
  { unfold classify_transport_code. rewrite (proj2 (Z.leb_le 256 (256 + alert))), (proj2 (Z.ltb_lt (256 + alert) 512)) by lia.
    cbn [andb]. change 255 with (Z.ones 8). rewrite Z.land_ones by lia. change (2 ^ 8) with 256.
    by rewrite <- (Z.add_mod_idemp_l 256 alert 256), Z.mod_same, Z.add_0_l, Z.mod_small by lia. }
  repeat constructor; apply H.
Qed.

Lemma drop_log_bounded_witness :
  let '(l, outs) := run record_drop new_drop_log [secs 1; secs 2; secs 12; secs 13] in
  dl_count l = 4 /\ lines outs = [1; 3].
Proof.
  pose proof (drop_log_bounded [secs 1; secs 2; secs 12; secs 13] (secs 1) (secs 13) ltac:(done)
    ltac:(repeat constructor; done)) as H.
  revert H. vm_compute. intros [H _]. exact (conj H eq_refl).
Defined.
