(* ===== verification/RelayServe.v ===== *)
(** * The relay's accept, register and forward loop

    [serve] of [crates/wiremesh-relay/src/lib.rs], with the handshake's verifier and
    the Sync client that feeds its denylist.  Every connection has a task; a step
    is what one task does between two awaits, under the registry lock where the
    code takes it.  Connections are numbered by quinn's stable id, which is not
    reused while the connection's task lives.  What a step puts on the wire or
    in the log is its list of effects. *)
From Stdlib Require Import ZArith Lia Ascii.
From S2P Require Import PolicyCompile GwUapi.
From S2P Require Import Prelude SyncProto RelayWire.
Local Open Scope Z_scope.

(** ** State *)

Record RegEntry : Type := { re_conn : Z; re_owner : string; re_peer : string }.

(** The four limiters of a forwarding task. *)
Record DropLogs : Type := {
  runt_log : DatagramDropLog;
  cross_pair_log : DatagramDropLog;
  unknown_dest_log : DatagramDropLog;
  forward_failed_log : DatagramDropLog }.

Definition new_logs : DropLogs :=
  {| runt_log := new_drop_log; cross_pair_log := new_drop_log;
     unknown_dest_log := new_drop_log; forward_failed_log := new_drop_log |}.

(** Where a task stands: reading the registration, writing the ack, forwarding. *)
Inductive Phase : Type :=
| Reading
| Acking (key peer_identity : string)
| Forwarding (key peer_identity allowed_dest : string) (logs : DropLogs).

Record Session : Type := { cert_identity : string; session_alpn : option string; s_phase : Phase }.

Record Relay : Type := {
  denylist : Denylist;
  registry : gmap string RegEntry;
  sessions : gmap Z Session;
  alpn_counts : gmap string Z }.

Definition new_relay (d : Denylist) : Relay :=
  {| denylist := d; registry := ∅; sessions := ∅; alpn_counts := ∅ |}.

(** ** Events and effects *)

Inductive Event : Type :=
(** A handshake: the chain's verdict, the serial's DER content and the DNS names
    of the leaf ([None] where the certificate does not parse), the ALPN. *)
| Connect (conn : Z) (chain_ok : bool) (raw_serial : option string) (dns_names : option (list string)) (alpn : option string)
(** What the first stream delivered, [None] on a stream error. *)
| Registration (conn : Z) (payload : option string)
(** The ack was written, or failed. *)
| AckWritten (conn : Z) (ok : bool)
(** A datagram was read at [now]; [sent] is whether a forward would be taken. *)
| Datagram (conn : Z) (dgram : string) (now : Z) (sent : bool)
(** [read_datagram] failed: the connection is gone. *)
| Lost (conn : Z)
| SyncBody (m : Body).

Inductive Branch : Type := Runt | CrossPair | UnknownDest | ForwardFailed.

Inductive Effect : Type :=
| Close (conn code : Z)
| Ack (conn : Z)
| Sent (conn : Z) (dgram : string)
| Line (conn : Z) (b : Branch) (count : Z).

Inductive RegisterDecision : Type := Accept | ReplaceOwnSlot | RejectOwnedByOther | RejectKeyCollision.

Definition register_decision (existing : option (string * string)) (cert_identity peer_identity : string) : RegisterDecision :=
  match existing with
  | None => Accept
  | Some (owner, peer) =>
      if negb (bool_decide (owner = cert_identity)) then RejectOwnedByOther
      else if bool_decide (peer = peer_identity) then ReplaceOwnSlot
      else RejectKeyCollision
  end.

Section serve.
Context (sha256 : string -> string).

Definition set_registry (m : gmap string RegEntry) (r : Relay) : Relay :=
  {| denylist := denylist r; registry := m; sessions := sessions r; alpn_counts := alpn_counts r |}.
Definition set_sessions (m : gmap Z Session) (r : Relay) : Relay :=
  {| denylist := denylist r; registry := registry r; sessions := m; alpn_counts := alpn_counts r |}.

Definition end_session (conn : Z) (r : Relay) : Relay := set_sessions (delete conn (sessions r)) r.

Definition set_phase (conn : Z) (s : Session) (p : Phase) (r : Relay) : Relay :=
  set_sessions (<[conn := {| cert_identity := cert_identity s; session_alpn := session_alpn s; s_phase := p |}]> (sessions r)) r.

Definition remove_if_owner (key : string) (conn : Z) (r : Relay) : Relay :=
  match registry r !! key with
  | Some e => if re_conn e =? conn then set_registry (delete key (registry r)) r else r
  | None => r
  end.

(** The handshake and the reading of the certificate's identity. *)
Definition on_connect (conn : Z) (chain_ok : bool) (raw : option string) (names : option (list string))
    (alpn : option string) (r : Relay) : Relay * list Effect :=
  match sessions r !! conn with
  | Some _ => (r, [])
  | None =>
      match verify_client_cert (denylist r) chain_ok raw with
      | Err _ => (r, [])
      | Ok _ =>
          match names ≫= identity_from_client_cert with
          | None => (r, [Close conn 1])
          | Some id =>
              (set_sessions (<[conn := {| cert_identity := id; session_alpn := alpn; s_phase := Reading |}]> (sessions r)) r, [])
          end
      end
  end.

(** [read_registration]. *)
Definition read_registration (payload : option string) : option (string * string) :=
  buf ← payload;
  if (MAX_REGISTRATION_BYTES <? String.length buf)%nat then None else result_ok (decode_registration buf).

(** The registration is read, checked against the certificate, and decided under
    the registry lock. *)
Definition on_registration (conn : Z) (payload : option string) (r : Relay) : Relay * list Effect :=
  match sessions r !! conn with
  | Some s =>
      match s_phase s with
      | Reading =>
          match read_registration payload with
          | None => (end_session conn r, [Close conn 1])
          | Some (my_identity, peer_identity) =>
              if negb (bool_decide (my_identity = cert_identity s)) then (end_session conn r, [Close conn 2])
              else
                let key := registration_key sha256 my_identity peer_identity in
                let incumbent := (fun e => (re_owner e, re_peer e)) <$> registry r !! key in
                match register_decision incumbent (cert_identity s) peer_identity with
                | RejectOwnedByOther => (end_session conn r, [Close conn 3])
                | RejectKeyCollision => (end_session conn r, [Close conn 4])
                | Accept | ReplaceOwnSlot =>
                    let entry := {| re_conn := conn; re_owner := cert_identity s; re_peer := peer_identity |} in
                    (set_phase conn s (Acking key peer_identity) (set_registry (<[key := entry]> (registry r)) r), [])
                end
          end
      | _ => (r, [])
      end
  | None => (r, [])
  end.

Definition on_ack (conn : Z) (ok : bool) (r : Relay) : Relay * list Effect :=
  match sessions r !! conn with
  | Some s =>
      match s_phase s with
      | Acking key peer_identity =>
          if ok then
            let '(counts, _) := record_session (alpn_counts r) (session_alpn s) in
            let r1 := {| denylist := denylist r; registry := registry r; sessions := sessions r; alpn_counts := counts |} in
            let allowed_dest := registration_key sha256 peer_identity (cert_identity s) in
            (set_phase conn s (Forwarding key peer_identity allowed_dest new_logs) r1, [Ack conn])
          else (end_session conn (remove_if_owner key conn r), [])
      | _ => (r, [])
      end
  | None => (r, [])
  end.

Definition get_log (b : Branch) (l : DropLogs) : DatagramDropLog :=
  match b with
  | Runt => runt_log l | CrossPair => cross_pair_log l
  | UnknownDest => unknown_dest_log l | ForwardFailed => forward_failed_log l
  end.

Definition set_log (b : Branch) (x : DatagramDropLog) (l : DropLogs) : DropLogs :=
  {| runt_log := match b with Runt => x | _ => runt_log l end;
     cross_pair_log := match b with CrossPair => x | _ => cross_pair_log l end;
     unknown_dest_log := match b with UnknownDest => x | _ => unknown_dest_log l end;
     forward_failed_log := match b with ForwardFailed => x | _ => forward_failed_log l end |}.

(** One drop, through its branch's limiter. *)
Definition drop_datagram (conn : Z) (b : Branch) (now : Z) (logs : DropLogs) : DropLogs * list Effect :=
  let '(l, line) := record_drop (get_log b logs) now in
  (set_log b l logs, match line with Some n => [Line conn b n] | None => [] end).

(** The body of the datagram loop. *)
Definition forward (conn : Z) (key allowed_dest dgram : string) (now : Z) (sent : bool) (reg : gmap string RegEntry)
    (logs : DropLogs) : DropLogs * list Effect :=
  if (String.length dgram <? 8)%nat then drop_datagram conn Runt now logs
  else
    let dest := str_take 8 dgram in
    if negb (bool_decide (dest = allowed_dest)) then drop_datagram conn CrossPair now logs
    else
      match reg !! dest with
      | None => drop_datagram conn UnknownDest now logs
      | Some e =>
          if sent then (logs, [Sent (re_conn e) (key +:+ str_drop 8 dgram)])
          else drop_datagram conn ForwardFailed now logs
      end.

Definition on_datagram (conn : Z) (dgram : string) (now : Z) (sent : bool) (r : Relay) : Relay * list Effect :=
  match sessions r !! conn with
  | Some s =>
      match s_phase s with
      | Forwarding key peer_identity allowed_dest logs =>
          let '(logs', out) := forward conn key allowed_dest dgram now sent (registry r) logs in
          (set_phase conn s (Forwarding key peer_identity allowed_dest logs') r, out)
      | _ => (r, [])
      end
  | None => (r, [])
  end.

Definition on_lost (conn : Z) (r : Relay) : Relay * list Effect :=
  match sessions r !! conn with
  | Some s =>
      match s_phase s with
      | Forwarding key _ _ _ => (end_session conn (remove_if_owner key conn r), [])
      | _ => (r, [])
      end
  | None => (r, [])
  end.

Definition on_sync (m : Body) (r : Relay) : Relay * list Effect :=
  ({| denylist := (fold_message (denylist r) m).1; registry := registry r; sessions := sessions r;
      alpn_counts := alpn_counts r |}, []).

Definition relay_step (r : Relay) (ev : Event) : Relay * list Effect :=
  match ev with
  | Connect conn chain_ok raw names alpn => on_connect conn chain_ok raw names alpn r
  | Registration conn payload => on_registration conn payload r
  | AckWritten conn ok => on_ack conn ok r
  | Datagram conn dgram now sent => on_datagram conn dgram now sent r
  | Lost conn => on_lost conn r
  | SyncBody m => on_sync m r
  end.

Definition reachable (d : Denylist) (r : Relay) : Prop := exists evs, r = (run relay_step (new_relay d) evs).1.
End serve.

(** ** What every reachable state satisfies *)

Section safety.
Context (sha256 : string -> string).
Abbreviation key_of := (registration_key sha256).

(** The slot a task registered, and for which peer. *)
Definition registered (s : Session) : option (string * string) :=
  match s_phase s with
  | Reading => None
  | Acking key peer | Forwarding key peer _ _ => Some (key, peer)
  end.

(** A task's slot is its certificate's own half of the pair, and the one
    destination it may address is the peer's half. *)
Record session_ok (s : Session) : Prop := {
  slot_bound : forall key peer, registered s = Some (key, peer) ->
    key = key_of (cert_identity s) peer /\
    (String.length (cert_identity s) <= MAX_REGISTRATION_BYTES)%nat /\ (String.length peer <= MAX_REGISTRATION_BYTES)%nat;
  dest_bound : forall key peer allowed logs, s_phase s = Forwarding key peer allowed logs ->
    allowed = key_of peer (cert_identity s) }.

(** Every slot belongs to a live task that registered it. *)
Definition entry_ok (ss : gmap Z Session) (key : string) (e : RegEntry) : Prop :=
  exists s, ss !! re_conn e = Some s /\ cert_identity s = re_owner e /\ registered s = Some (key, re_peer e).

Record relay_ok (r : Relay) : Prop := {
  sessions_ok : forall c s, sessions r !! c = Some s -> session_ok s;
  registry_ok : forall key e, registry r !! key = Some e -> entry_ok (sessions r) key e }.

(** A task that moves on without changing what it registered. *)
Lemma same_slot_ok conn s s' r :
  sessions r !! conn = Some s -> registered s' = registered s -> cert_identity s' = cert_identity s ->
  session_ok s' -> relay_ok r -> relay_ok (set_sessions (<[conn := s']> (sessions r)) r).
Proof.
  intros Hs Hreg Hid Hok [Hss Hr]. split; cbn.
  - intros c x [[_ <-]|[_ Hx]]%lookup_insert_Some; [done|by apply (Hss c)].
  - intros key e He. destruct (Hr key e He) as (x & Hx & Ho & Hk). unfold entry_ok.
    destruct (decide (conn = re_conn e)) as [->|Hne].
    + rewrite lookup_insert_eq. exists s'. rewrite Hs in Hx. injection Hx as <-.
      by rewrite Hid, Hreg.
    + rewrite lookup_insert_ne by done. eauto.
Qed.

(** A task that ends, with no slot left in its name. *)
Lemma end_session_ok conn r :
  (forall key e, registry r !! key = Some e -> re_conn e <> conn) ->
  (forall c s, sessions r !! c = Some s -> session_ok s) ->
  (forall key e, registry r !! key = Some e -> entry_ok (sessions r) key e) -> relay_ok (end_session conn r).
Proof.
  intros Hno Hss Hr. split; cbn.
  - intros c s [_ Hs]%lookup_delete_Some. by apply (Hss c).
  - intros key e He. destruct (Hr key e He) as (s & Hs & H). exists s.
    rewrite lookup_delete_ne by (intros E; by apply (Hno key e)). done.
Qed.

(** [remove_if_owner] takes away exactly the slot that still names the task. *)
Lemma remove_if_owner_lookup key conn r k :
  registry (remove_if_owner key conn r) !! k =
  if bool_decide (k = key /\ (re_conn <$> registry r !! key) = Some conn) then None else registry r !! k.
Proof.
  unfold remove_if_owner. destruct (registry r !! key) as [e|] eqn:He; cbn.
  - destruct (Z.eqb_spec (re_conn e) conn) as [E|E]; cbn; case_bool_decide as Hb.
    + destruct Hb as [-> _]. apply lookup_delete_eq.
    + rewrite lookup_delete_ne; [done|]. intros <-. destruct Hb. by rewrite E.
    + destruct Hb as [_ Hb]. congruence.
    + done.
  - rewrite bool_decide_eq_false_2; [done|]. naive_solver.
Qed.

Lemma remove_if_owner_rest key conn r :
  sessions (remove_if_owner key conn r) = sessions r /\ denylist (remove_if_owner key conn r) = denylist r.
Proof. unfold remove_if_owner. destruct (registry r !! key) as [e|]; [destruct (_ =? _)|]; done. Qed.

Lemma leave_ok key peer conn s r :
  sessions r !! conn = Some s -> registered s = Some (key, peer) -> relay_ok r ->
  relay_ok (end_session conn (remove_if_owner key conn r)).
Proof.
  intros Hs Hreg [Hss Hr]. destruct (remove_if_owner_rest key conn r) as [Es _].
  apply end_session_ok; rewrite ?Es; [|done|].
  - intros k e He Hc. rewrite remove_if_owner_lookup in He. case_bool_decide as Hb; [done|].
    destruct (Hr k e He) as (s' & Hs' & _ & Hk). rewrite Hc, Hs in Hs'. injection Hs' as <-.
    rewrite Hreg in Hk. injection Hk as -> _. destruct Hb. split; [done|]. rewrite He. cbn. congruence.
  - intros k e He. rewrite remove_if_owner_lookup in He. case_bool_decide; [done|]. by apply Hr.
Qed.

(** A registration that is read fits the limit. *)
Lemma read_registration_sizes payload my peer :
  read_registration payload = Some (my, peer) ->
  (String.length my <= MAX_REGISTRATION_BYTES)%nat /\ (String.length peer <= MAX_REGISTRATION_BYTES)%nat.
Proof.
  unfold read_registration. destruct payload as [buf|]; [cbn [mbind option_bind]|done].
  destruct (Nat.ltb_spec MAX_REGISTRATION_BYTES (String.length buf)); [done|].
  destruct (decode_registration buf) as [[m p]|] eqn:Ed; [|done]. intros [= <- <-].
  apply decoded_is_encoded in Ed as [-> _]. unfold encode_registration in *. rewrite !str_length_app in *. lia.
Qed.

Lemma registration_ok conn payload r : relay_ok r -> relay_ok (on_registration sha256 conn payload r).1.
Proof.
  intros Hok. pose proof Hok as [Hss Hr]. unfold on_registration.
  destruct (sessions r !! conn) as [s|] eqn:Hs; [|done]. destruct (s_phase s) eqn:Hp; [|done..].
  assert (registered s = None) as Hnone by (unfold registered; by rewrite Hp).
  assert (forall key e, registry r !! key = Some e -> re_conn e <> conn) as Hno.
  { intros key e He Hc. destruct (Hr key e He) as (x & Hx & _ & Hk). rewrite Hc, Hs in Hx. congruence. }
  assert (relay_ok (end_session conn r)) as Hend by (by apply end_session_ok).
  destruct (read_registration payload) as [[my peer]|] eqn:Hread; [|done].
  case_bool_decide as Hmy; [|done]. cbn [negb]. destruct (register_decision _ _ _); [..|done|done]; subst my.
  all: pose proof (read_registration_sizes _ _ _ Hread) as [Hm1 Hp1]; split; cbn.
  1,3: intros c x [[_ <-]|[_ Hx]]%lookup_insert_Some; [|by apply (Hss c)].
  1,2: split; cbn; [by intros ? ? [= <- <-]|done].
  all: intros k e [[<- <-]|[_ He]]%lookup_insert_Some; [eexists; cbn; by rewrite lookup_insert_eq|].
  all: destruct (Hr k e He) as (x & Hx & H); exists x; by rewrite lookup_insert_ne by (intros E; by apply (Hno k e)).
Qed.

Lemma ack_ok conn ok r : relay_ok r -> relay_ok (on_ack sha256 conn ok r).1.
Proof.
  intros Hok. unfold on_ack. destruct (sessions r !! conn) as [s|] eqn:Hs; [|done].
  destruct (s_phase s) as [|key peer|] eqn:Hp; [done| |done].
  assert (registered s = Some (key, peer)) as Hreg by (unfold registered; by rewrite Hp).
  destruct ok; [|by apply (leave_ok key peer conn s)].
  destruct (record_session _ _) as [counts n]. cbn [fst].
  apply (same_slot_ok conn s); [done|by rewrite Hreg|done| |by destruct Hok].
  pose proof (sessions_ok r Hok conn s Hs) as [Hslot _].
  split; cbn; [intros k p [= <- <-]; by apply Hslot|by intros ? ? ? ? [= _ <- <- _]].
Qed.

Lemma datagram_ok conn dgram now sent r : relay_ok r -> relay_ok (on_datagram conn dgram now sent r).1.
Proof.
  intros Hok. unfold on_datagram. destruct (sessions r !! conn) as [s|] eqn:Hs; [|done].
  destruct (s_phase s) as [| |key peer allowed logs] eqn:Hp; [done..|].
  destruct (forward _ _ _ _ _ _ _ _) as [logs' out]. cbn [fst].
  assert (registered s = Some (key, peer)) as Hreg by (unfold registered; by rewrite Hp).
  apply (same_slot_ok conn s); [done|by rewrite Hreg|done| |done].
  pose proof (sessions_ok r Hok conn s Hs) as [Hslot Hdest].
  split; cbn; [intros k p [= <- <-]; by apply Hslot|]. intros ? ? ? ? [= <- <- <- <-]. by apply (Hdest key peer allowed logs).
Qed.

Lemma relay_step_ok r ev : relay_ok r -> relay_ok (relay_step sha256 r ev).1.
Proof.
  intros Hok. destruct ev as [c ch raw names alpn|c payload|c ok|c dg now sent|c|m]; cbn.
  - unfold on_connect. destruct (sessions r !! c) eqn:Hc; [done|].
    destruct (verify_client_cert _ _ _); [|done]. destruct (names ≫= _) as [id|]; [|done].
    destruct Hok as [Hss Hr]. split; cbn.
    + intros c' s [[_ <-]|[_ Hs]]%lookup_insert_Some; [|by apply (Hss c')]. by split.
    + intros key e He. destruct (Hr key e He) as (s & Hs & H). exists s.
      rewrite lookup_insert_ne; [done|]. intros ->. congruence.
  - by apply registration_ok.
  - by apply ack_ok.
  - by apply datagram_ok.
  - unfold on_lost. destruct (sessions r !! c) as [s|] eqn:Hs; [|done].
    destruct (s_phase s) as [| |key peer allowed logs] eqn:Hp; [done..|].
    apply (leave_ok key peer c s); [done| |done]. unfold registered. by rewrite Hp.
  - by destruct Hok.
Qed.

Lemma reachable_ok d r : reachable sha256 d r -> relay_ok r.
Proof.
  intros [evs ->]. apply run_invariant; [intros s ev; apply relay_step_ok|]. split; cbn; intros ? ? H; by rewrite lookup_empty in H.
Qed.

(** ** Only the two mates of a pair reach each other *)

(** Two pairs whose keys agree though the hashed bytes differ. *)
Definition collision (x y : string) : Prop := x <> y /\ str_take 8 (sha256 x) = str_take 8 (sha256 y).

Lemma identity_length n : (n <= MAX_REGISTRATION_BYTES)%nat -> Z.of_nat n < 2 ^ 64.
Proof. unfold MAX_REGISTRATION_BYTES. intros H. transitivity 2048; lia. Qed.

Lemma keys_agree my peer my' peer' :
  (String.length my <= MAX_REGISTRATION_BYTES)%nat -> (String.length my' <= MAX_REGISTRATION_BYTES)%nat ->
  key_of my peer = key_of my' peer' ->
  my = my' /\ peer = peer' \/ collision (registration_preimage my peer) (registration_preimage my' peer').
Proof.
  intros Hm%identity_length Hm'%identity_length Hk.
  destruct (decide (registration_preimage my peer = registration_preimage my' peer')) as [E|E]; [left|right; by split].
  by apply preimage_inj.
Qed.

Lemma drop_sends conn b now logs c fwd : Sent c fwd ∉ (drop_datagram conn b now logs).2.
Proof.
  unfold drop_datagram. destruct (record_drop _ _) as [l [n|]]; cbn; [|apply not_elem_of_nil].
  intros H%list_elem_of_singleton. done.
Qed.

Lemma forward_sends conn key allowed dgram now sent reg logs c fwd :
  Sent c fwd ∈ (forward conn key allowed dgram now sent reg logs).2 ->
  exists e, reg !! allowed = Some e /\ c = re_conn e /\ fwd = key +:+ str_drop 8 dgram.
Proof.
  unfold forward. destruct (_ <? 8)%nat; [by intros H%drop_sends|].
  case_bool_decide as Hd; cbn [negb]; [subst allowed|by intros H%drop_sends].
  destruct (reg !! str_take 8 dgram) as [e|]; [|by intros H%drop_sends].
  destruct sent; [|by intros H%drop_sends]. intros [= -> ->]%list_elem_of_singleton. eauto.
Qed.

(** C6: The relay carries datagrams only inside a pair.  Whatever a reachable relay
    forwards was read from a connection whose certificate names a gateway [A] that
    registered a peer [B]; it goes, payload unchanged and headed by [A]'s own key, to
    one connection that is registered, and that connection's certificate names [B] and
    registered [A] in turn: the two asked for each other.  The only way out is a
    collision of the 8-byte keys of two different pairs, which the statement exhibits. *)
Theorem relayed_between_mates d r ev c' fwd :
  reachable sha256 d r -> Sent c' fwd ∈ (relay_step sha256 r ev).2 ->
  exists c dgram now s s' B A',
    ev = Datagram c dgram now true /\ sessions r !! c = Some s /\ sessions r !! c' = Some s' /\
    registered s = Some (key_of (cert_identity s) B, B) /\
    registered s' = Some (key_of (cert_identity s') A', A') /\
    fwd = key_of (cert_identity s) B +:+ str_drop 8 dgram /\
    (cert_identity s' = B /\ A' = cert_identity s \/
     collision (registration_preimage B (cert_identity s)) (registration_preimage (cert_identity s') A')).
Proof.
  intros Hreach Hsent. pose proof (reachable_ok d r Hreach) as [Hss Hr].
  destruct ev as [c ch raw names alpn|c payload|c ok|c dgram now sent|c|m]; cbn in Hsent.
  - exfalso. revert Hsent. unfold on_connect. repeat case_match; cbn; set_solver.
  - exfalso. revert Hsent. unfold on_registration. repeat case_match; cbn; set_solver.
  - exfalso. revert Hsent. unfold on_ack. repeat case_match; cbn; set_solver.
  - unfold on_datagram in Hsent. destruct (sessions r !! c) as [s|] eqn:Hs; [|set_solver].
    destruct (s_phase s) as [| |key B allowed logs] eqn:Hp; [set_solver..|].
    pose proof (Hss c s Hs) as [Hslot Hdest]. pose proof (Hdest _ _ _ _ Hp) as ->.
    assert (registered s = Some (key, B)) as Hreg by (unfold registered; by rewrite Hp).
    destruct (Hslot _ _ Hreg) as (-> & HlA & HlB).
    destruct (forward _ _ _ _ _ _ _ _) as [logs' out] eqn:Ef. cbn in Hsent.
    assert (sent = true) as ->.
    { destruct sent; [done|]. exfalso. replace out with (logs', out).2 in Hsent by done. rewrite <- Ef in Hsent.
      revert Hsent. unfold forward. repeat case_match; first [apply drop_sends|done]. }
    replace out with (logs', out).2 in Hsent by done. rewrite <- Ef in Hsent.
    apply forward_sends in Hsent as (e & He & -> & ->).
    destruct (Hr _ _ He) as (s' & Hs' & Ho & Hreg').
    destruct (slot_bound s' (Hss _ _ Hs') _ _ Hreg') as (Hk & HlB' & _).
    exists c, dgram, now, s, s', B, (re_peer e). split; [done|]. split; [done|]. split; [done|]. split; [done|].
    split; [by rewrite <- Hk|]. split; [done|].
    destruct (keys_agree B (cert_identity s) (cert_identity s') (re_peer e) HlB HlB' Hk) as [[-> ->]|?]; [by left|by right].
  - exfalso. revert Hsent. unfold on_lost. repeat case_match; cbn; set_solver.
  - cbn in Hsent. set_solver.
Qed.

(** ** Nobody outside a pair can cut it *)

(** An event of a run that the pair brings about itself: one of its two tasks
    ends, or a certificate of the slot's owner registers anew. *)
Definition own_event (owner : string) (c c' : Z) (r : Relay) (ev : Event) : Prop :=
  match ev with
  | Registration conn _ => cert_identity <$> sessions r !! conn = Some owner
  | AckWritten conn ok => ok = false /\ (conn = c \/ conn = c')
  | Lost conn => conn = c \/ conn = c'
  | _ => False
  end.

Fixpoint outsiders (owner : string) (c c' : Z) (r : Relay) (evs : list Event) : Prop :=
  match evs with
  | [] => True
  | ev :: rest => ~ own_event owner c c' r ev /\ outsiders owner c c' (relay_step sha256 r ev).1 rest
  end.

(** A task forwarding under its key, and a slot with its entry. *)
Definition forwarding (c : Z) (id key peer allowed : string) (r : Relay) : Prop :=
  exists s logs, sessions r !! c = Some s /\ cert_identity s = id /\ s_phase s = Forwarding key peer allowed logs.

Definition linked (c : Z) (id key peer allowed : string) (e : RegEntry) (r : Relay) : Prop :=
  forwarding c id key peer allowed r /\ registry r !! allowed = Some e.

Lemma forwarding_other c id key peer allowed conn s r :
  conn <> c -> forwarding c id key peer allowed r ->
  forwarding c id key peer allowed (set_sessions (<[conn := s]> (sessions r)) r).
Proof. intros Hne (x & logs & Hx & H). exists x, logs. cbn. by rewrite lookup_insert_ne. Qed.

Lemma forwarding_end c id key peer allowed conn r :
  conn <> c -> forwarding c id key peer allowed r -> forwarding c id key peer allowed (end_session conn r).
Proof. intros Hne (x & logs & Hx & H). exists x, logs. cbn. by rewrite lookup_delete_ne. Qed.

Lemma forwarding_same c id key peer allowed r r' :
  sessions r' = sessions r -> forwarding c id key peer allowed r -> forwarding c id key peer allowed r'.
Proof. intros E (x & logs & H). exists x, logs. by rewrite E. Qed.

(** A slot is only lost by the task it names. *)
Lemma slot_survives key k conn e r :
  registry r !! k = Some e -> re_conn e <> conn -> registry (remove_if_owner key conn r) !! k = Some e.
Proof.
  intros He Hne. rewrite remove_if_owner_lookup. case_bool_decide as Hb; [|done].
  destruct Hb as [-> Hb]. rewrite He in Hb. cbn in Hb. congruence.
Qed.

Lemma registration_linked c id key peer allowed e conn payload r :
  linked c id key peer allowed e r -> ~ own_event (re_owner e) c (re_conn e) r (Registration conn payload) ->
  linked c id key peer allowed e (on_registration sha256 conn payload r).1.
Proof.
  intros [Hf He] Hown. unfold on_registration. destruct (sessions r !! conn) as [s|] eqn:Hs; [|done].
  destruct (s_phase s) eqn:Hp; [|done..].
  assert (conn <> c) as Hne by (intros ->; destruct Hf as (x & logs & Hx & _ & Hxp); congruence).
  assert (linked c id key peer allowed e (end_session conn r)) as Hend by (split; [by apply forwarding_end|done]).
  destruct (read_registration payload) as [[my p]|]; [|done]. case_bool_decide as Hmy; [|done]. cbn [negb].
  assert (key_of my p = allowed -> register_decision ((fun x => (re_owner x, re_peer x)) <$> registry r !! key_of my p)
    (cert_identity s) p = RejectOwnedByOther) as Hheld.
  { intros ->. rewrite He. cbn. rewrite bool_decide_eq_false_2; [done|]. intros E. apply Hown. cbn. rewrite Hs. cbn. congruence. }
  destruct (decide (key_of my p = allowed)) as [E|E]; [by rewrite (Hheld E)|].
  destruct (register_decision _ _ _); [..|done|done]; split; cbn.
  all: try (by apply forwarding_other; [|apply (forwarding_same _ _ _ _ _ r)]).
  all: by rewrite lookup_insert_ne.
Qed.

Lemma step_linked c id key peer allowed e r ev :
  linked c id key peer allowed e r -> ~ own_event (re_owner e) c (re_conn e) r ev ->
  linked c id key peer allowed e (relay_step sha256 r ev).1.
Proof.
  intros Hl Hown. pose proof Hl as [Hf He].
  destruct ev as [conn ch raw names alpn|conn payload|conn ok|conn dg now sent|conn|m]; cbn [relay_step].
  - unfold on_connect. destruct (sessions r !! conn) eqn:Hc; [done|]. destruct (verify_client_cert _ _ _); [|done].
    destruct (names ≫= _); [|done]. split; [|done]. apply forwarding_other; [|done].
    intros ->. destruct Hf as (x & logs & Hx & _). congruence.
  - by apply registration_linked.
  - unfold on_ack. destruct (sessions r !! conn) as [s|] eqn:Hs; [|done]. destruct (s_phase s) as [|k p|] eqn:Hp; [done| |done].
    assert (conn <> c) as Hne by (intros ->; destruct Hf as (x & logs & Hx & _ & Hxp); congruence).
    destruct ok.
    + destruct (record_session _ _). split; [|done]. apply forwarding_other; [done|]. by apply (forwarding_same _ _ _ _ _ r).
    + split; [apply forwarding_end; [done|]; apply (forwarding_same _ _ _ _ _ r); [apply remove_if_owner_rest|done]|].
      apply slot_survives; [done|]. intros E. apply Hown. cbn. auto.
  - unfold on_datagram. destruct (sessions r !! conn) as [s|] eqn:Hs; [|done].
    destruct (s_phase s) as [| |k p a logs] eqn:Hp; [done..|]. destruct (forward _ _ _ _ _ _ _ _) as [logs' out].
    split; [|done]. destruct (decide (conn = c)) as [->|Hne]; [|by apply forwarding_other].
    destruct Hf as (x & lx & Hx & Hid & Hxp). rewrite Hs in Hx. injection Hx as <-. rewrite Hp in Hxp. injection Hxp as -> -> -> ->.
    eexists _, logs'. cbn. rewrite lookup_insert_eq. done.
  - unfold on_lost. destruct (sessions r !! conn) as [s|] eqn:Hs; [|done].
    destruct (s_phase s) as [| |k p a logs] eqn:Hp; [done..|].
    split; [apply forwarding_end; [intros ->; apply Hown; cbn; auto|]; apply (forwarding_same _ _ _ _ _ r); [apply remove_if_owner_rest|done]|].
    apply slot_survives; [done|]. intros E. apply Hown. cbn. auto.
  - done.
Qed.

Lemma run_linked c id key peer allowed e r evs :
  linked c id key peer allowed e r -> outsiders (re_owner e) c (re_conn e) r evs ->
  linked c id key peer allowed e (run (relay_step sha256) r evs).1.
Proof.
  revert r. induction evs as [|ev evs IH]; intros r Hl Hout; [done|]. destruct Hout as [Hev Hout].
  pose proof (step_linked c id key peer allowed e r ev Hl Hev) as Hl1. cbn [run].
  destruct (relay_step sha256 r ev) as [r1 o]. cbn [fst] in *. specialize (IH r1 Hl1 Hout).
  by destruct (run (relay_step sha256) r1 evs).
Qed.

(** C7: Nobody outside a pair can cut it.  Once a connection forwards for the pair ([A], [B])
    and [B]'s half of the pair is registered, then whatever other connections do -
    connect, register anything under any other certificate, go away, flood - as long
    as neither of the two connections ends and [B] itself does not register again,
    what [A]'s client sends still arrives at [B]'s connection, and [B]'s client reads
    the payload with [A]'s key. *)
Theorem outsiders_cannot_cut d r c s key B allowed logs e evs :
  (forall x, (8 <= String.length (sha256 x))%nat) ->
  reachable sha256 d r -> sessions r !! c = Some s -> s_phase s = Forwarding key B allowed logs ->
  registry r !! allowed = Some e -> outsiders (re_owner e) c (re_conn e) r evs ->
  let r' := (run (relay_step sha256) r evs).1 in
  forall data now,
    let fwd := key +:+ data in
    (relay_step sha256 r' (Datagram c (client_send (new_client sha256 (cert_identity s) B None) data) now true)).2 =
      [Sent (re_conn e) fwd] /\
    client_recv fwd = Some (key_of (cert_identity s) B, data).
Proof.
  intros Hsha Hreach Hs Hp He Hout r' data now fwd.
  pose proof (sessions_ok r (reachable_ok d r Hreach) c s Hs) as [Hslot Hdest].
  pose proof (Hdest _ _ _ _ Hp) as ->. destruct (Hslot key B) as [-> _]; [by unfold registered; rewrite Hp|].
  destruct (run_linked c (cert_identity s) (key_of (cert_identity s) B) B (key_of B (cert_identity s)) e r evs) as
    [(s' & logs' & Hs' & Hid & Hp') He']; [split; [by exists s, logs|done]|done|].
  assert (forall a b, String.length (key_of a b) = 8%nat) as Hlen by (intros a b; apply str_take_length, Hsha).
  split.
  - cbn [relay_step]. unfold on_datagram. fold r' in Hs', He'. rewrite Hs', Hp'.
    unfold forward, client_send. cbn [new_client dest_key].
    rewrite str_length_app, Hlen, (str_take_app _ _ 8), (str_drop_app _ _ 8), He' by apply Hlen.
    rewrite bool_decide_eq_true_2 by done. done.
  - unfold client_recv, fwd. by rewrite str_length_app, Hlen, (str_take_app _ _ 8), (str_drop_app _ _ 8) by apply Hlen.
Qed.

(** ** Revocation *)

(** A message after which [serial] is listed if it was. *)
Definition keeps_revoked (serial : string) (ev : Event) : Prop :=
  match ev with SyncBody (BSnapshot s) => serial ∈ ss_revoked_serials s | _ => True end.

Lemma step_denylist r ev :
  denylist (relay_step sha256 r ev).1 = match ev with SyncBody m => (fold_message (denylist r) m).1 | _ => denylist r end.
Proof.
  destruct ev as [conn ch raw names alpn|conn payload|conn ok|conn dg now sent|conn|m]; cbn [relay_step].
  - unfold on_connect. repeat case_match; done.
  - unfold on_registration. repeat case_match; done.
  - unfold on_ack. repeat case_match; cbn; try done. apply remove_if_owner_rest.
  - unfold on_datagram. repeat case_match; done.
  - unfold on_lost. repeat case_match; cbn; try done. apply remove_if_owner_rest.
  - done.
Qed.

Lemma step_keeps serial r ev :
  keeps_revoked serial ev -> serial ∈ denylist r -> serial ∈ denylist (relay_step sha256 r ev).1.
Proof.
  intros Hk Hd. rewrite step_denylist. destruct ev as [| | | | |[x|x|]]; try done; cbn in *.
  - unfold replace_all. by apply elem_of_list_to_set.
  - destruct (d_revoked_serials x); [done|]. unfold union_serials. set_solver.
Qed.

(** C8: A revoked certificate is never admitted.  Once a serial is on the relay's list - from
    the file at start, from a snapshot or from a delta - and as long as no later snapshot
    drops it, a handshake with a certificate of that serial, however DER shortened or
    padded it, leaves no session, no slot and no trace. *)
Theorem revoked_never_admitted r evs serial :
  String.length serial = 16%nat -> hex_encode serial ∈ denylist r ->
  Forall (keeps_revoked (hex_encode serial)) evs ->
  let r' := (run (relay_step sha256) r evs).1 in
  forall conn chain_ok raw names alpn, der_integer serial raw ->
    relay_step sha256 r' (Connect conn chain_ok (Some raw) names alpn) = (r', []).
Proof.
  intros Hlen Hd Hevs r' conn chain_ok raw names alpn Hraw.
  assert (hex_encode serial ∈ denylist r') as Hd'.
  { unfold r'. clear r' conn chain_ok raw names alpn Hraw. revert r Hd. induction Hevs as [|ev evs Hev _ IH]; intros r Hd; [done|].
    pose proof (step_keeps _ r ev Hev Hd) as H1. cbn [run]. destruct (relay_step sha256 r ev) as [r1 o]. cbn [fst] in *.
    specialize (IH r1 H1). by destruct (run (relay_step sha256) r1 evs). }
  cbn. unfold on_connect. destruct (sessions r' !! conn); [done|].
  by rewrite (revoked_refused (denylist r') serial raw chain_ok Hlen Hraw Hd').
Qed.
End safety.

(** ** Runs of the relay *)

Module example.

(** A stand-in digest: the last eight bytes, so that these pairs do not collide. *)
Definition ex_sha (x : string) : string := be_bytes 8 (be_value x).

Definition raw_serial : string := of_bytes [5].
Definition revoked_serial : string := of_bytes (replicate 15 0 ++ [5]).

Definition connect (conn : Z) (name : string) : Event :=
  Connect conn true (Some (of_bytes [Z.succ conn])) (Some ["relay-client"; name]) (Some ALPN_V0).

Definition registers (conn : Z) (my peer : string) : list Event :=
  [Registration conn (Some (encode_registration my peer)); AckWritten conn true].

Definition joins (conn : Z) (my peer : string) : list Event := connect conn my :: registers conn my peer.

Definition meeting : list Event := joins 1 "gw-1" "gw-2" ++ joins 2 "gw-2" "gw-1".
Definition met : Relay := (run (relay_step ex_sha) (new_relay ∅) meeting).1.

Definition from_1 : string := client_send (new_client ex_sha "gw-1" "gw-2" None) "hi".

Definition sent_to (conn : Z) (r : Relay) (ev : Event) : list (option (string * string)) :=
  omap (fun x => match x with Sent c fwd => if c =? conn then Some (client_recv fwd) else None | _ => None end)
    (relay_step ex_sha r ev).2.

Example hello : sent_to 2 met (Datagram 1 from_1 0 true) = [Some ("gw-1gw-2", "hi")].
Proof. vm_compute. done. Qed.

(** A third gateway: the identity of another is refused, its own registration gives
    no way into the pair. *)
Example impostor : (run (relay_step ex_sha) met (connect 3 "gw-3" :: registers 3 "gw-1" "gw-2")).2 = [[]; [Close 3 2]; []].
Proof. vm_compute. done. Qed.

Example injector :
  (run (relay_step ex_sha) met (joins 3 "gw-3" "gw-2" ++ [Datagram 3 from_1 0 true])).2 =
  [[]; []; [Ack 3]; [Line 3 CrossPair 1]].
Proof. vm_compute. done. Qed.

(** The second gateway reconnects before the relay notices that its old connection
    died: the slot is the new one's, and the old one's end does not take it away. *)
Example reconnected :
  let r := (run (relay_step ex_sha) met (joins 4 "gw-2" "gw-1" ++ [Lost 2])).1 in
  sent_to 4 r (Datagram 1 from_1 0 true) = [Some ("gw-1gw-2", "hi")].
Proof. vm_compute. done. Qed.

(** A revocation bars the next handshake; a session that is up keeps forwarding. *)
Definition revoke : Event :=
  SyncBody (BDelta {| d_revision := 2; d_upserted_peers := []; d_removed_peer_ids := []; d_relay_infos := [];
    d_relays_updated := false; d_policy_ir := ""; d_policy_version := 0;
    d_revoked_serials := [hex_encode (of_bytes (replicate 15 0 ++ [2]))] |}).

Example revoked_session_lives :
  let r := (run (relay_step ex_sha) met [revoke]).1 in
  sent_to 2 r (Datagram 1 from_1 0 true) = [Some ("gw-1gw-2", "hi")] /\
  sessions (run (relay_step ex_sha) r [Lost 1; connect 1 "gw-1"]).1 !! 1 = None.
Proof. vm_compute. done. Qed.

Lemma met_reachable : reachable ex_sha ∅ met.
Proof. by exists meeting. Qed.

Lemma ex_sha_length x : (8 <= String.length (ex_sha x))%nat.
Proof. unfold ex_sha. by rewrite be_bytes_length. Qed.

Lemma relayed_between_mates_witness :
  exists c s B, sessions met !! c = Some s /\ registered s = Some (registration_key ex_sha (cert_identity s) B, B).
Proof.
  destruct (relayed_between_mates ex_sha ∅ met (Datagram 1 from_1 0 true) 2 ("gw-1gw-2" +:+ "hi") met_reachable)
    as (c & dg & now & s & s' & B & A' & _ & Hs & _ & Hr & _).
  - vm_compute. left.
  - exists c, s, B. split; [exact Hs|exact Hr].
Defined.

(** A stranger comes, registers and floods; a new handshake of the mate does no harm. *)
Definition strangers : list Event :=
  joins 3 "gw-3" "gw-2" ++ [Datagram 3 from_1 0 true; connect 5 "gw-2"; Lost 3].

Lemma outsiders_cannot_cut_witness :
  let r := (run (relay_step ex_sha) met strangers).1 in
  (relay_step ex_sha r (Datagram 1 from_1 9 true)).2 = [Sent 2 ("gw-1gw-2" +:+ "hi")].
Proof.
  refine (proj1 (outsiders_cannot_cut ex_sha ∅ met 1
    {| cert_identity := "gw-1"; session_alpn := Some ALPN_V0; s_phase := Forwarding "gw-1gw-2" "gw-2" "gw-2gw-1" new_logs |}
    "gw-1gw-2" "gw-2" "gw-2gw-1" new_logs {| re_conn := 2; re_owner := "gw-2"; re_peer := "gw-1" |} strangers
    ex_sha_length met_reachable _ _ _ _ "hi" 9)).
  - vm_compute. done.
  - done.
  - vm_compute. done.
  - vm_compute. naive_solver.
Defined.

Lemma revoked_never_admitted_witness :
  let r := (run (relay_step ex_sha) met [revoke; Lost 1]).1 in
  relay_step ex_sha r (connect 1 "gw-1") = (r, []).
Proof.
  refine (revoked_never_admitted ex_sha (run (relay_step ex_sha) met [revoke]).1 [Lost 1]
    (of_bytes (replicate 15 0 ++ [2])) eq_refl _ _ 1 true (of_bytes [2]) (Some ["relay-client"; "gw-1"]) (Some ALPN_V0) _).
  - apply (bool_decide_unpack _). vm_compute. done.
  - repeat constructor.
  - split; [reflexivity|]. vm_compute. done.
Defined.
End example.
