(* ===== verification/OpApi.v ===== *)
(** * Operator: resources, calls and the shared helpers

    [crd.rs], [admin.rs], [admin_exec.rs], [operator_admin.rs] and
    [controllers/mod.rs] of [crates/wiremesh-operator/src].  A reconciler is a
    program over the calls it makes: to the Kubernetes API server and to the
    controller's Admin API.  A call is answered by an environment that may differ
    at every call, so what changes in the cluster between two awaits, and every
    call that can fail, is an environment.  A run is the calls with their answers
    and what the reconciler returns.  Of a Kubernetes object the fields the
    operator writes or reads are kept; an object read back has a name. *)
From Stdlib Require Import ZArith Lia Ascii.
From S2P Require Import Prelude StdNet.
Local Open Scope Z_scope.

(** ** Custom resources *)

Record Condition : Type := { type_ : string; c_status : string; reason : string; message : string }.

Record WiremeshResourceStatus : Type := {
  applied : bool; applied_version : option Z; rs_message : option string }.

Record WiremeshControllerSpec : Type := {
  wc_image : option string;
  wc_storage_class : option string;
  wc_storage_size : option string;
  admin_tcp_port : option Z;
  sync_tcp_port : option Z;
  observe_udp_port : option Z;
  rotation_interval : option string }.

Record WiremeshControllerStatus : Type := {
  wcs_ready : bool; admin_endpoint : option string; observed_version : option Z;
  wcs_conditions : list Condition }.

Record WiremeshSegmentSpec : Type := { segment_name : string; ws_cidrs : list string }.

Record AllowRule : Type := { ar_proto : string; ar_ports : list Z }.
Record WiremeshPolicySpec : Type := { pol_from : string; pol_to : string; pol_rules : list AllowRule }.

Record WiremeshGatewaySpec : Type := {
  segment_ref : string;
  wg_node_name : option string;
  wg_node_selector : option (gmap string string);
  wg_port : option Z;
  tun : option string;
  wg_image : option string;
  wg_storage_class : option string;
  wg_storage_size : option string;
  observe_endpoint : option string;
  sync_endpoint : option string;
  metrics_bind : option string }.

Record WiremeshGatewayStatus : Type := {
  enrolled : bool; gateway_id : option Z; path_state : option string;
  wgs_conditions : list Condition }.

Record WiremeshRelaySpec : Type := {
  wr_endpoint : string;
  wr_node_name : option string;
  wr_image : option string;
  wr_storage_class : option string;
  wr_storage_size : option string;
  controller_endpoint : option string }.

(** A custom resource: name, uid, deletion mark, spec and status. *)
Record Cr (Spec Status : Type) : Type := {
  cr_name : string; cr_uid : option string; cr_deleting : bool;
  cr_spec : Spec; cr_status : option Status }.
Arguments cr_name {Spec Status} _.
Arguments cr_uid {Spec Status} _.
Arguments cr_deleting {Spec Status} _.
Arguments cr_spec {Spec Status} _.
Arguments cr_status {Spec Status} _.

Definition WiremeshController : Type := Cr WiremeshControllerSpec WiremeshControllerStatus.
Definition WiremeshSegment : Type := Cr WiremeshSegmentSpec WiremeshResourceStatus.
Definition WiremeshPolicy : Type := Cr WiremeshPolicySpec WiremeshResourceStatus.
Definition WiremeshGateway : Type := Cr WiremeshGatewaySpec WiremeshGatewayStatus.
Definition WiremeshRelay : Type := Cr WiremeshRelaySpec WiremeshResourceStatus.

(** ** Kubernetes objects *)

Record OwnerReference : Type := {
  or_kind : string; or_name : string; or_uid : string;
  or_controller : option bool; or_block_owner_deletion : option bool }.

Record ObjectMeta : Type := {
  om_name : option string; om_namespace : option string;
  om_labels : option (gmap string string); om_owner_references : option (list OwnerReference) }.

Definition meta (name : option string) (labels : option (gmap string string)) : ObjectMeta :=
  {| om_name := name; om_namespace := None; om_labels := labels; om_owner_references := None |}.

Record Secret : Type := {
  sec_meta : ObjectMeta; sec_data : option (gmap string string); sec_type : option string }.

Record PersistentVolumeClaim : Type := {
  pvc_meta : ObjectMeta; pvc_access_modes : list string; pvc_storage : string;
  pvc_storage_class : option string }.

Record EnvVar : Type := { ev_name : string; ev_value : option string }.
Record ContainerPort : Type := { cp_name : string; cp_port : Z; cp_protocol : string }.
Record VolumeMount : Type := { vm_name : string; vm_path : string; vm_read_only : option bool }.

Record Container : Type := {
  ct_name : string; ct_image : option string; ct_command : option (list string);
  ct_args : option (list string); ct_env : option (list EnvVar);
  ct_ports : option (list ContainerPort); ct_privileged : option bool;
  ct_volume_mounts : list VolumeMount }.

Inductive VolumeSource : Type :=
| Claim (claim_name : string)
| EmptyDir
| HostPath (path type : string)
| SecretVolume (secret_name : string) (optional : option bool) (items : option (list (string * string))).

Record PodSpec : Type := {
  host_network : option bool; dns_policy : option string; node_name : option string;
  node_selector : option (gmap string string); init_containers : list Container;
  containers : list Container; volumes : list (string * VolumeSource) }.

(** [rolling_update]: absent, or the block the API server's defaulter writes. *)
Record DeploymentStrategy : Type := { strategy_type : option string; rolling_update : option unit }.

Record DeploymentSpec : Type := {
  replicas : option Z; strategy : option DeploymentStrategy; selector : option (gmap string string);
  template_labels : option (gmap string string); template_pod : option PodSpec }.

Record Deployment : Type := {
  dep_meta : ObjectMeta; dep_spec : option DeploymentSpec; dep_available : option Z }.

(** The body of a server-side apply: the object, and whether it carries an
    explicit [spec.strategy.rollingUpdate: null]. *)
Record ApplyBody : Type := { body_of : Deployment; null_rolling_update : bool }.

Record ServicePort : Type := { sp_name : string; sp_port : Z; sp_target : Z; sp_protocol : string }.
Record Service : Type := {
  svc_meta : ObjectMeta; svc_selector : option (gmap string string); svc_ports : list ServicePort;
  svc_cluster_ip : option string }.

(** ** The Admin API *)

Record GatewayRow : Type := { gr_id : Z; gr_name : string; gr_segment : string; gr_status : string; gr_applied_version : Z }.
Record RelayRow : Type := { rr_id : Z; rr_name : string; rr_endpoint : string; rr_status : string }.
Record MintTokenRequest : Type := { mt_kind : string; mt_bound_cidrs : list string; mt_rebind_segment_id : Z }.
Record SegmentInfo : Type := { si_id : Z; si_name : string }.

(** ** Calls *)

Inductive StatusPatch : Type :=
| GatewayStatus (s : WiremeshGatewayStatus)
| ControllerStatus (s : WiremeshControllerStatus)
| ResourceStatus (kind : string) (s : WiremeshResourceStatus).

Inductive OpCall : Type -> Type :=
(** the API server *)
| GetSegment (name : string) : OpCall WiremeshSegment
| GetSegmentOpt (name : string) : OpCall (option WiremeshSegment)
| ListSegmentCrs : OpCall (list WiremeshSegment)
| ListPolicyCrs : OpCall (list WiremeshPolicy)
| ListGatewayCrs : OpCall (list WiremeshGateway)
| ListControllerCrs : OpCall (list WiremeshController)
| ListPodPhases (selector : string) : OpCall (list (option string))
| GetPvcOpt (name : string) : OpCall (option PersistentVolumeClaim)
| GetSecretOpt (name : string) : OpCall (option Secret)
| GetDeployment (name : string) : OpCall Deployment
| GetDeploymentOpt (name : string) : OpCall (option Deployment)
| GetService (name : string) : OpCall Service
| ApplySecret (name : string) (s : Secret) : OpCall unit
| ApplyPvc (name : string) (p : PersistentVolumeClaim) : OpCall unit
| ApplyService (name : string) (s : Service) : OpCall unit
| ApplyDeployment (name : string) (b : ApplyBody) : OpCall unit
| PatchStatus (name : string) (s : StatusPatch) : OpCall unit
(** the controller *)
| AdminApply (fabric_yaml : string) : OpCall unit
| AdminMintToken (req : MintTokenRequest) : OpCall string
| AdminRegisterRelay (name endpoint : string) : OpCall Z
| AdminListSegments : OpCall (list SegmentInfo)
| AdminDeleteSegment (id : Z) : OpCall unit
| AdminListGateways : OpCall (list GatewayRow)
| AdminListRelays : OpCall (list RelayRow)
| AdminDrain (id : Z) : OpCall unit
(** the operator's own fabric lock *)
| LockFabric : OpCall unit
| UnlockFabric : OpCall unit.

(** A failed call: [kube::Error], or an [anyhow::Error] of the admin transport. *)
Inductive CallErr : Type := CallFailed.

Inductive OpError : Type :=
| Kube
| AdminFailed
| BadField (field : string)
| MissingField (field : string).

(** [kube::runtime::controller::Action]. *)
Inductive Action : Type :=
| Requeue (secs : Z)
| AwaitChange.

(** ** Programs *)

Inductive prog (A : Type) : Type :=
| Done (r : result OpError A)
| Call {T : Type} (c : OpCall T) (k : result CallErr T -> prog A).
Arguments Done {A} r.
Arguments Call {A T} c k.

#[export] Instance prog_ret : MRet prog := fun A a => Done (Ok a).

(** [?] on an awaited block. *)
#[export] Instance prog_bind : MBind prog := fun A B f =>
  fix go m := match m with
              | Done (Ok a) => f a
              | Done (Err e) => Done (Err e)
              | Call c k => Call c (fun r => go (k r))
              end.

Definition stop {A : Type} (e : OpError) : prog A := Done (Err e).
Definition lift_result {A : Type} (r : result OpError A) : prog A := Done r.

(** A call whose error the code handles itself. *)
Definition try {T : Type} (c : OpCall T) : prog (result CallErr T) := Call c (fun r => Done (Ok r)).
(** [api.get(..).await?] *)
Definition kube {T : Type} (c : OpCall T) : prog T :=
  Call c (fun r => match r with Ok x => Done (Ok x) | Err _ => Done (Err Kube) end).
(** [admin.op(..).await.map_err(Error::Admin)?] *)
Definition admin {T : Type} (c : OpCall T) : prog T :=
  Call c (fun r => match r with Ok x => Done (Ok x) | Err _ => Done (Err AdminFailed) end).

(** A guard dropped when the block ends, however it ends. *)
Fixpoint finally {A : Type} (m : prog A) (c : OpCall unit) : prog A :=
  match m with
  | Done r => Call c (fun _ => Done r)
  | Call c' k => Call c' (fun x => finally (k x) c)
  end.

(** The environment: what the [n]-th call of a run is answered. *)
Definition Env : Type := nat -> forall T, OpCall T -> result CallErr T.

Inductive Event : Type :=
| Ev {T : Type} (c : OpCall T) (r : result CallErr T).

Fixpoint run {A : Type} (env : Env) (n : nat) (m : prog A) : list Event * result OpError A :=
  match m with
  | Done r => ([], r)
  | @Call _ T c k =>
      let r := env n T c in
      let '(tr, res) := run env (S n) (k r) in (Ev c r :: tr, res)
  end.

(** ** Shared helpers ([controllers/mod.rs]) *)

Record Context : Type := {
  namespace : string;
  (** [AdminExec]: the pod selector of the exec transport, [None] over gRPC. *)
  pod_label : option string;
  operator_image : option string }.

Definition is_grpc (ctx : Context) : bool := bool_decide (pod_label ctx = None).

Definition service_dns (name ns : string) (port : Z) : string :=
  name +:+ "." +:+ ns +:+ ".svc:" +:+ show_uint port.

Definition pvc_needs_create (existing : option PersistentVolumeClaim) : bool :=
  match existing with None => true | Some _ => false end.

Definition cleanup_should_skip (controller_cr_exists controller_pod_running : bool) : bool :=
  negb controller_cr_exists || negb controller_pod_running.

Definition controller_cleanup_skip (ctx : Context) : prog bool :=
  match pod_label ctx with
  | None => mret false
  | Some selector =>
      crs ← try ListControllerCrs;
      let cr_exists := match crs with Ok l => negb (bool_decide (length l = 0%nat)) | Err _ => true end in
      pods ← try (ListPodPhases selector);
      let pod_running :=
        match pods with Ok l => existsb (fun p => bool_decide (p = Some "Running")) l | Err _ => true end in
      mret (cleanup_should_skip cr_exists pod_running)
  end.

Definition owner_ref {Spec Status : Type} (kind : string) (owner : Cr Spec Status) : prog OwnerReference :=
  match cr_uid owner with
  | None => stop (MissingField ".metadata.uid")
  | Some uid => mret {| or_kind := kind; or_name := cr_name owner; or_uid := uid;
                        or_controller := Some true; or_block_owner_deletion := Some true |}
  end.

(** The namespace and owner a reconciler stamps on an object. *)
Definition stamp (ns : string) (o : OwnerReference) (m : ObjectMeta) : ObjectMeta :=
  {| om_name := om_name m; om_namespace := Some ns; om_labels := om_labels m;
     om_owner_references := Some [o] |}.

Definition object_name (m : ObjectMeta) : prog string :=
  match om_name m with None => stop (MissingField ".metadata.name") | Some n => mret n end.

Definition apply_secret (s : Secret) : prog unit := n ← object_name (sec_meta s); kube (ApplySecret n s).
Definition apply_pvc (p : PersistentVolumeClaim) : prog unit := n ← object_name (pvc_meta p); kube (ApplyPvc n p).
Definition apply_service (s : Service) : prog unit := n ← object_name (svc_meta s); kube (ApplyService n s).

(** [workloads::deployment_apply_body]. *)
Definition deployment_apply_body (dep : Deployment) : ApplyBody :=
  {| body_of := dep;
     null_rolling_update :=
       bool_decide ((spec ← dep_spec dep; st ← strategy spec; strategy_type st) = Some "Recreate") |}.

Definition apply_deployment (d : Deployment) : prog unit :=
  n ← object_name (dep_meta d); kube (ApplyDeployment n (deployment_apply_body d)).

Inductive Readiness : Type := Available | ScaledDown | Starting.
#[export] Instance readiness_eq_dec : EqDecision Readiness.
Proof. solve_decision. Defined.

Definition workload_readiness (desired : option Z) (available : Z) : Readiness :=
  if bool_decide (desired = Some 0) then ScaledDown
  else if 1 <=? available then Available else Starting.

Definition deployment_readiness (live : Deployment) : Readiness :=
  workload_readiness (spec ← dep_spec live; replicas spec) (match dep_available live with Some n => n | None => 0 end).

Definition SETTLED_REQUEUE_SECS : Z := 300.

Record ControllerAddrs : Type := { sync : string; enroll : string; observe : string }.

Definition or_else {A : Type} (d : A) (o : option A) : A := match o with Some a => a | None => d end.

Definition addr_of (ip : string) (port : Z) : string := ip +:+ ":" +:+ show_uint port.

Definition controller_endpoints : prog ControllerAddrs :=
  ctrls ← kube ListControllerCrs;
  match ctrls with
  | [] => stop (MissingField "WiremeshController (none exists)")
  | c :: _ =>
      let sync_port := or_else 9500 (sync_tcp_port (cr_spec c)) in
      let observe_port := or_else 9600 (observe_udp_port (cr_spec c)) in
      svc ← kube (GetService (cr_name c));
      match svc_cluster_ip svc with
      | None => stop (MissingField "controller Service clusterIP (not assigned yet)")
      | Some ip =>
          if bool_decide (ip = "") || bool_decide (ip = "None")
          then stop (MissingField "controller Service clusterIP (not assigned yet)")
          else if bool_decide (parse_ipv4 ip = None)
          then stop (MissingField "controller Service clusterIP must be IPv4")
          else mret {| sync := addr_of ip sync_port; enroll := addr_of ip 9400;
                       observe := addr_of ip observe_port |}
      end
  end.

(** ** Admin operations ([admin.rs], [admin_exec.rs]) *)

Definition REBIND_TOKEN_KIND : string := "rebind".

Definition rebind_mint_request (rebind_segment_id : Z) : MintTokenRequest :=
  {| mt_kind := REBIND_TOKEN_KIND; mt_bound_cidrs := []; mt_rebind_segment_id := rebind_segment_id |}.

Definition rebind_mint_args (rebind_segment_id : Z) : list string :=
  ["mint-token"; "--kind"; REBIND_TOKEN_KIND; "--rebind-segment-id"; show_uint rebind_segment_id].

Definition gateway_mint_args (cidrs : list string) : list string :=
  ["mint-token"; "--kind"; "gateway"] ++ concat (map (fun c => ["--cidr"; c]) cidrs).

Definition relay_mint_args : list string := ["mint-token"; "--kind"; "relay"].

Definition mint_request (kind : string) (cidrs : list string) : MintTokenRequest :=
  {| mt_kind := kind; mt_bound_cidrs := cidrs; mt_rebind_segment_id := 0 |}.

Definition mint_gateway_token (cidrs : list string) : prog string :=
  admin (AdminMintToken (mint_request "gateway" cidrs)).
Definition mint_relay_token : prog string := admin (AdminMintToken (mint_request "relay" [])).
Definition mint_gateway_rebind_token (rebind_segment_id : Z) : prog string :=
  if rebind_segment_id =? 0 then stop AdminFailed
  else admin (AdminMintToken (rebind_mint_request rebind_segment_id)).

Definition segment_id_by_name (name : string) : prog (option Z) :=
  segs ← admin AdminListSegments;
  mret (si_id <$> List.find (fun s => bool_decide (si_name s = name)) segs).

Definition delete_segment_by_name (name : string) : prog unit :=
  id ← segment_id_by_name name;
  match id with None => mret tt | Some i => admin (AdminDeleteSegment i) end.

(** ** Reasoning about runs

    [safe I h m Q]: from the history [h], every call of [m] is made in a history
    that [I] allows, whatever the answers, and [Q] holds of the history and the
    result at the end. *)

Section safety.
Context (I : list Event -> forall T : Type, OpCall T -> Prop).

Fixpoint safe {A : Type} (h : list Event) (m : prog A) (Q : list Event -> result OpError A -> Prop) : Prop :=
  match m with
  | Done r => Q h r
  | @Call _ T c k => I h T c /\ forall x, safe (h ++ [Ev c x]) (k x) Q
  end.

Lemma safe_mono {A : Type} (h : list Event) (m : prog A) (Q Q' : list Event -> result OpError A -> Prop) :
  safe h m Q -> (forall h' r, Q h' r -> Q' h' r) -> safe h m Q'.
Proof.
  intros H HQ. revert h H. induction m as [r|T c k IH]; intros h; simpl; [apply HQ|].
  intros [Hc Hk]. split; [done|]. intros x. apply IH, Hk.
Qed.

Lemma safe_and {A : Type} (h : list Event) (m : prog A) (Q Q' : list Event -> result OpError A -> Prop) :
  safe h m Q -> safe h m Q' -> safe h m (fun h' r => Q h' r /\ Q' h' r).
Proof.
  revert h. induction m as [r|T c k IH]; intros h; simpl; [done|].
  intros [Hc Hk] [_ Hk']. split; [done|]. intros x. by apply IH.
Qed.

Lemma safe_bind {A B : Type} (h : list Event) (m : prog A) (f : A -> prog B)
    (Q : list Event -> result OpError B -> Prop) :
  safe h m (fun h' r => match r with Ok a => safe h' (f a) Q | Err e => Q h' (Err e) end) ->
  safe h (m ≫= f) Q.
Proof.
  revert h. induction m as [r|T c k IH]; intros h; simpl; [by destruct r|].
  intros [Hc Hk]. split; [done|]. intros x. apply IH, Hk.
Qed.

Lemma safe_ret {A : Type} (h : list Event) (a : A) (Q : list Event -> result OpError A -> Prop) :
  Q h (Ok a) -> safe h (mret a) Q.
Proof. done. Qed.

Lemma safe_kube {T : Type} (h : list Event) (c : OpCall T) (Q : list Event -> result OpError T -> Prop) :
  I h T c -> Q (h ++ [Ev c (Err CallFailed)]) (Err Kube) ->
  (forall x, Q (h ++ [Ev c (Ok x)]) (Ok x)) -> safe h (kube c) Q.
Proof. intros Hc He Hx. split; [done|]. intros [x|[]]; [apply Hx|done]. Qed.

Lemma safe_admin {T : Type} (h : list Event) (c : OpCall T) (Q : list Event -> result OpError T -> Prop) :
  I h T c -> Q (h ++ [Ev c (Err CallFailed)]) (Err AdminFailed) ->
  (forall x, Q (h ++ [Ev c (Ok x)]) (Ok x)) -> safe h (admin c) Q.
Proof. intros Hc He Hx. split; [done|]. intros [x|[]]; [apply Hx|done]. Qed.

Lemma safe_try {T : Type} (h : list Event) (c : OpCall T)
    (Q : list Event -> result OpError (result CallErr T) -> Prop) :
  I h T c -> (forall x, Q (h ++ [Ev c x]) (Ok x)) -> safe h (try c) Q.
Proof. done. Qed.

Lemma safe_run {A : Type} (env : Env) (n : nat) (h : list Event) (m : prog A)
    (Q : list Event -> result OpError A -> Prop) :
  safe h m Q ->
  Q (h ++ (run env n m).1) (run env n m).2 /\
  forall pre T (c : OpCall T) x post, (run env n m).1 = pre ++ Ev c x :: post -> I (h ++ pre) T c.
Proof.
  revert n h. induction m as [r|T c k IH]; intros n h; simpl.
  - intros HQ. rewrite app_nil_r. split; [done|]. by intros [|].
  - intros [Hc Hk]. specialize (IH (env n T c) (S n) (h ++ [Ev c (env n T c)]) (Hk _)).
    destruct (run env (S n) (k (env n T c))) as [tr r]. simpl in *. rewrite <- app_assoc in IH. simpl in IH.
    destruct IH as [HQ IH]. split; [done|].
    intros [|e pre] T' c' x' post; simpl.
    + intros E. rewrite app_nil_r.
      apply (f_equal (fun l => match l with e :: _ => e | [] => Ev c' x' end)) in E.
      by refine (match E in _ = e return match e with Ev c' _ => I h _ c' end with eq_refl => Hc end).
    + intros E. pose proof (f_equal (fun l => match l with e' :: _ => e' | [] => e end) E) as He.
      apply (f_equal tail) in E. simpl in He, E. subst e. apply IH in E. by rewrite <- app_assoc in E.
Qed.
End safety.

(** The calls of a program that all satisfy a predicate. *)
Fixpoint only {A : Type} (P : forall T : Type, OpCall T -> Prop) (m : prog A) : Prop :=
  match m with
  | Done _ => True
  | @Call _ T c k => P T c /\ forall x, only P (k x)
  end.

Lemma only_bind {A B : Type} (P : forall T : Type, OpCall T -> Prop) (m : prog A) (f : A -> prog B) :
  only P m -> (forall a, only P (f a)) -> only P (m ≫= f).
Proof.
  intros Hm Hf. induction m as [[a|e]|T c k IH]; simpl; [apply Hf|done|].
  destruct Hm as [Hc Hk]. split; [done|]. intros x. apply IH, Hk.
Qed.

Lemma only_mono {A : Type} (P P' : forall T : Type, OpCall T -> Prop) (m : prog A) :
  only P m -> (forall T c, P T c -> P' T c) -> only P' m.
Proof.
  intros Hm HP. induction m as [r|T c k IH]; [done|]. destruct Hm as [Hc Hk].
  split; [by apply HP|]. intros x. by apply IH.
Qed.

Definition satisfies (P : forall T : Type, OpCall T -> Prop) (e : Event) : Prop :=
  match e with @Ev T c _ => P T c end.

Lemma only_safe {A : Type} (P : forall T : Type, OpCall T -> Prop)
    (I : list Event -> forall T : Type, OpCall T -> Prop) (h : list Event) (m : prog A) :
  only P m -> (forall h' T c, P T c -> I h' T c) ->
  safe I h m (fun h' _ => exists more, h' = h ++ more /\ Forall (satisfies P) more).
Proof.
  intros Hm HP. cut (forall h0, safe I (h ++ h0) m (fun h' _ => exists more,
    h' = h ++ h0 ++ more /\ Forall (satisfies P) more)).
  { intros H. specialize (H []). by rewrite app_nil_r in H. }
  induction m as [r|T c k IH]; intros h0; simpl.
  - exists []. by rewrite app_nil_r.
  - destruct Hm as [Hc Hk]. split; [by apply HP|]. intros x. rewrite <- app_assoc.
    eapply safe_mono; [by apply IH|]. intros h' _ (more & -> & Hmore). simpl.
    exists (Ev c x :: more). rewrite <- app_assoc. split; [done|]. by constructor.
Qed.
