(* ===== verification/OpAdmin.v ===== *)
(** * Operator: the two admin transports

    [operator_admin.rs], the helper the operator runs in the controller's pod, and
    both arms of [AdminExec] in [admin_exec.rs]: a direct gRPC client, or the helper
    over [kubectl exec] with its JSON on standard output.  The document the helper
    prints is kept as a value; printing it and reading it back is serde_json's. *)
From Stdlib Require Import ZArith Lia Ascii.
From S2P Require Import Prelude OpApi.
Local Open Scope Z_scope.

(** ** The helper *)

Record AdminFlags : Type := {
  af_socket : string; af_kind : string; af_cidrs : list string; af_name : string;
  af_endpoint : string; af_id : Z; af_rebind_segment_id : Z }.

Definition DEFAULT_SOCKET : string := "/run/wiremesh/controller.sock".

Definition no_flags : AdminFlags :=
  {| af_socket := DEFAULT_SOCKET; af_kind := ""; af_cidrs := []; af_name := "";
     af_endpoint := ""; af_id := 0; af_rebind_segment_id := 0 |}.

Definition set_socket (v : string) (f : AdminFlags) : AdminFlags :=
  {| af_socket := v; af_kind := af_kind f; af_cidrs := af_cidrs f; af_name := af_name f;
     af_endpoint := af_endpoint f; af_id := af_id f; af_rebind_segment_id := af_rebind_segment_id f |}.
Definition set_kind (v : string) (f : AdminFlags) : AdminFlags :=
  {| af_socket := af_socket f; af_kind := v; af_cidrs := af_cidrs f; af_name := af_name f;
     af_endpoint := af_endpoint f; af_id := af_id f; af_rebind_segment_id := af_rebind_segment_id f |}.
Definition push_cidr (v : string) (f : AdminFlags) : AdminFlags :=
  {| af_socket := af_socket f; af_kind := af_kind f; af_cidrs := af_cidrs f ++ [v]; af_name := af_name f;
     af_endpoint := af_endpoint f; af_id := af_id f; af_rebind_segment_id := af_rebind_segment_id f |}.
Definition set_name (v : string) (f : AdminFlags) : AdminFlags :=
  {| af_socket := af_socket f; af_kind := af_kind f; af_cidrs := af_cidrs f; af_name := v;
     af_endpoint := af_endpoint f; af_id := af_id f; af_rebind_segment_id := af_rebind_segment_id f |}.
Definition set_endpoint (v : string) (f : AdminFlags) : AdminFlags :=
  {| af_socket := af_socket f; af_kind := af_kind f; af_cidrs := af_cidrs f; af_name := af_name f;
     af_endpoint := v; af_id := af_id f; af_rebind_segment_id := af_rebind_segment_id f |}.
Definition set_id (v : Z) (f : AdminFlags) : AdminFlags :=
  {| af_socket := af_socket f; af_kind := af_kind f; af_cidrs := af_cidrs f; af_name := af_name f;
     af_endpoint := af_endpoint f; af_id := v; af_rebind_segment_id := af_rebind_segment_id f |}.
Definition set_rebind (v : Z) (f : AdminFlags) : AdminFlags :=
  {| af_socket := af_socket f; af_kind := af_kind f; af_cidrs := af_cidrs f; af_name := af_name f;
     af_endpoint := af_endpoint f; af_id := af_id f; af_rebind_segment_id := v |}.

(** One flag of the loop: what its value does, [None] for an unknown flag. *)
Definition admin_flag (flag v : string) (f : AdminFlags) : option AdminFlags :=
  match flag with
  | "--socket" => Some (set_socket v f)
  | "--kind" => Some (set_kind v f)
  | "--cidr" => Some (push_cidr v f)
  | "--name" => Some (set_name v f)
  | "--endpoint" => Some (set_endpoint v f)
  | "--id" => n ← parse_unsigned 64 v; Some (set_id n f)
  | "--rebind-segment-id" => n ← parse_unsigned 64 v; Some (set_rebind n f)
  | _ => None
  end.

Fixpoint admin_flags (args : list string) (f : AdminFlags) : option AdminFlags :=
  match args with
  | [] => Some f
  | [_] => None
  | flag :: v :: rest => g ← admin_flag flag v f; admin_flags rest g
  end.

(** The JSON the helper prints. *)
Inductive AdminOut : Type :=
| AppliedOut
| TokenOut (token : string)
| RegisteredOut (id : Z)
| DeletedOut (name : string)
| SegmentIdOut (id : option Z)
| RelaysOut (rows : list RelayRow)
| GatewaysOut (rows : list GatewayRow)
| DrainedOut (id : Z).

(** The guards of [mint-token]. *)
Definition mint_flags_ok (f : AdminFlags) : bool :=
  if bool_decide (af_kind f = REBIND_TOKEN_KIND)
  then negb (af_rebind_segment_id f =? 0) && bool_decide (af_cidrs f = [])
  else af_rebind_segment_id f =? 0.

Definition operator_admin_op (op : string) (stdin : option string) (f : AdminFlags) : prog AdminOut :=
  match op with
  | "apply" =>
      match stdin with
      | None => stop AdminFailed
      | Some yaml => _ ← admin (AdminApply yaml); mret AppliedOut
      end
  | "mint-token" =>
      if mint_flags_ok f then
        t ← admin (AdminMintToken {| mt_kind := af_kind f; mt_bound_cidrs := af_cidrs f;
                                     mt_rebind_segment_id := af_rebind_segment_id f |});
        mret (TokenOut t)
      else stop AdminFailed
  | "register-relay" =>
      id ← admin (AdminRegisterRelay (af_name f) (af_endpoint f)); mret (RegisteredOut id)
  | "delete-segment" =>
      segs ← admin AdminListSegments;
      match List.find (fun s => bool_decide (si_name s = af_name f)) segs with
      | Some s => _ ← admin (AdminDeleteSegment (si_id s)); mret (DeletedOut (af_name f))
      | None => mret (DeletedOut (af_name f))
      end
  | "segment-id" =>
      segs ← admin AdminListSegments;
      mret (SegmentIdOut (si_id <$> List.find (fun s => bool_decide (si_name s = af_name f)) segs))
  | "list-relays" => rows ← admin AdminListRelays; mret (RelaysOut rows)
  | "list-gateways" => rows ← admin AdminListGateways; mret (GatewaysOut rows)
  | "drain" => _ ← admin (AdminDrain (af_id f)); mret (DrainedOut (af_id f))
  | _ => stop AdminFailed
  end.

(** [operator_admin::run] on the arguments after [operator-admin]. *)
Definition operator_admin (args : list string) (stdin : option string) : prog AdminOut :=
  match args with
  | [] => stop AdminFailed
  | op :: rest =>
      match admin_flags rest no_flags with
      | None => stop AdminFailed
      | Some f => operator_admin_op op stdin f
      end
  end.

(** ** The operations over each transport *)

Inductive AdminOp : Type :=
| OpApply (yaml : string)
| OpMintGateway (cidrs : list string)
| OpMintRebind (segment_id : Z)
| OpMintRelay
| OpSegmentId (name : string)
| OpRegisterRelay (name endpoint : string)
| OpDeleteSegment (name : string)
| OpListGateways
| OpListRelays
| OpDrain (id : Z).

(** [AdminExec::Grpc]. *)
Definition by_grpc (o : AdminOp) : prog AdminOut :=
  match o with
  | OpApply yaml => _ ← admin (AdminApply yaml); mret AppliedOut
  | OpMintGateway cidrs => t ← mint_gateway_token cidrs; mret (TokenOut t)
  | OpMintRebind id => t ← mint_gateway_rebind_token id; mret (TokenOut t)
  | OpMintRelay => t ← mint_relay_token; mret (TokenOut t)
  | OpSegmentId name => id ← segment_id_by_name name; mret (SegmentIdOut id)
  | OpRegisterRelay name endpoint => id ← admin (AdminRegisterRelay name endpoint); mret (RegisteredOut id)
  | OpDeleteSegment name => _ ← delete_segment_by_name name; mret (DeletedOut name)
  | OpListGateways => rows ← admin AdminListGateways; mret (GatewaysOut rows)
  | OpListRelays => rows ← admin AdminListRelays; mret (RelaysOut rows)
  | OpDrain id => _ ← admin (AdminDrain id); mret (DrainedOut id)
  end.

(** The argv and the standard input [AdminExec::Exec] runs the helper with. *)
Definition exec_args (o : AdminOp) : list string :=
  match o with
  | OpApply _ => ["apply"]
  | OpMintGateway cidrs => gateway_mint_args cidrs
  | OpMintRebind id => rebind_mint_args id
  | OpMintRelay => relay_mint_args
  | OpSegmentId name => ["segment-id"; "--name"; name]
  | OpRegisterRelay name endpoint => ["register-relay"; "--name"; name; "--endpoint"; endpoint]
  | OpDeleteSegment name => ["delete-segment"; "--name"; name]
  | OpListGateways => ["list-gateways"]
  | OpListRelays => ["list-relays"]
  | OpDrain id => ["drain"; "--id"; show_uint id]
  end.

Definition exec_stdin (o : AdminOp) : option string :=
  match o with OpApply yaml => Some yaml | _ => Some "" end.

(** [AdminExec::Exec], up to the pod lookup and [kubectl]. *)
Definition by_exec (uds : string) (o : AdminOp) : prog AdminOut :=
  let go := operator_admin (exec_args o ++ ["--socket"; uds]) (exec_stdin o) in
  match o with
  | OpMintRebind id => if id =? 0 then stop AdminFailed else go
  | _ => go
  end.

Definition op_ids_fit (o : AdminOp) : Prop :=
  match o with OpMintRebind id | OpDrain id => 0 <= id < 2 ^ 64 | _ => True end.

(** ** The transports agree *)

Lemma push_cidrs_flags (cidrs rest : list string) (f : AdminFlags) :
  admin_flags (concat (map (fun c => ["--cidr"; c]) cidrs) ++ rest) f =
  admin_flags rest (foldl (fun g c => push_cidr c g) f cidrs).
Proof. revert f. induction cidrs as [|c cidrs IH]; intros f; [done|]. apply IH. Qed.

Lemma push_cidrs_fold (cidrs : list string) (f : AdminFlags) :
  let g := foldl (fun g c => push_cidr c g) f cidrs in
  af_cidrs g = af_cidrs f ++ cidrs /\ af_kind g = af_kind f /\
  af_rebind_segment_id g = af_rebind_segment_id f.
Proof.
  revert f. induction cidrs as [|c cidrs IH]; intros f; simpl; [by rewrite app_nil_r|].
  destruct (IH (push_cidr c f)) as (-> & -> & ->). simpl. by rewrite <- app_assoc.
Qed.

Lemma mint_gateway_flags (cidrs : list string) (uds : string) :
  exists f, admin_flags (["--kind"; "gateway"] ++ concat (map (fun c => ["--cidr"; c]) cidrs) ++ ["--socket"; uds])
              no_flags = Some f /\
    af_kind f = "gateway" /\ af_cidrs f = cidrs /\ af_rebind_segment_id f = 0.
Proof.
  eexists. split.
  - cbn. rewrite push_cidrs_flags. cbn. reflexivity.
  - simpl. destruct (push_cidrs_fold cidrs (set_kind "gateway" no_flags)) as (-> & -> & ->). done.
Qed.

(** C0: Both admin transports issue the same requests and return the same
    answers: whatever operation the operator runs, the helper's own parsing of the
    command line the exec transport builds, under any socket path, behaves on every
    environment as the direct client does - the kind, CIDRs and segment id of a
    minted token included. *)
Theorem transports_agree (o : AdminOp) (uds : string) (env : Env) (n : nat) :
  op_ids_fit o -> run env n (by_exec uds o) = run env n (by_grpc o).
Proof.
  intros Hid. destruct o as [yaml|cidrs|id| |name|name ep|name| | |id]; unfold by_exec;
    try (cbn; first [done | by destruct (env n _ _)]).
  - destruct (mint_gateway_flags cidrs uds) as (f & Hf & Hk & Hc & Hr).
    unfold operator_admin, exec_args, gateway_mint_args. rewrite <- !app_assoc. cbn [app] in *.
    rewrite Hf. unfold operator_admin_op, mint_flags_ok. rewrite Hk, Hr, Hc.
    rewrite bool_decide_eq_false_2 by done. cbn. by destruct (env n _ _).
  - cbn [op_ids_fit] in Hid. unfold by_grpc, mint_gateway_rebind_token.
    destruct (Z.eqb_spec id 0) as [->|Hnz]; [done|].
    unfold operator_admin, exec_args, rebind_mint_args. cbn [app admin_flags admin_flag].
    rewrite parse_unsigned_show by done.
    assert (forall f, af_kind f = REBIND_TOKEN_KIND -> af_rebind_segment_id f = id -> af_cidrs f = [] ->
              mint_flags_ok f = true) as Hok.
    { intros f Hk Hr Hc. unfold mint_flags_ok. rewrite Hk, Hr, Hc, !bool_decide_eq_true_2 by done.
      by rewrite (proj2 (Z.eqb_neq id 0) Hnz). }
    cbn. by rewrite Hok.
  - cbn. destruct (env n _ AdminListSegments) as [segs|]; [|done]. cbn.
    destruct (List.find _ segs); [|done]. cbn. by destruct (env (S n) _ _).
  - cbn [op_ids_fit] in Hid. unfold operator_admin, exec_args. cbn [app admin_flags admin_flag].
    rewrite parse_unsigned_show by done. cbn. by destruct (env n _ _).
Qed.

Lemma transports_agree_witness :
  let env : Env := fun n T c => Err CallFailed in
  op_ids_fit (OpMintRebind 7) /\
  run env 0 (by_exec "/s" (OpMintRebind 7)) = run env 0 (by_grpc (OpMintRebind 7)) /\
  run env 0 (by_grpc (OpMintRebind 7)) =
    ([Ev (AdminMintToken (rebind_mint_request 7)) (Err CallFailed)], Err AdminFailed).
Proof. split; [cbn; lia|]. split; [|reflexivity]. apply (transports_agree (OpMintRebind 7) "/s" _ 0). cbn. lia. Defined.
