(* ===== verification/StdNet6.v ===== *)
(** * Addresses of the Rust standard library: [Ipv6Addr] and [SocketAddr]

    The recursive-descent parser of [core::net::parser], on the text that is left.
    An [Ipv6Addr] is its eight 16-bit groups; a scope id is kept, a missing one
    is 0. *)
From Stdlib Require Import ZArith Lia Ascii.
From S2P Require Import Prelude StdNet.
Local Open Scope Z_scope.

(** [char::to_digit(16)]. *)
Definition hex_digit_of (c : ascii) : option Z :=
  let n := Z.of_nat (nat_of_ascii c) in
  if (48 <=? n) && (n <=? 57) then Some (n - 48)
  else if (97 <=? n) && (n <=? 102) then Some (n - 87)
  else if (65 <=? n) && (n <=? 70) then Some (n - 55)
  else None.

Fixpoint take_digits (digit : ascii -> option Z) (s : string) : list Z * string :=
  match s with
  | String c s' =>
      match digit c with
      | Some d => let '(ds, rest) := take_digits digit s' in (d :: ds, rest)
      | None => ([], s)
      end
  | EmptyString => ([], s)
  end.

Definition read_number (digit : ascii -> option Z) (radix bound : Z) (max_digits : option nat)
    (allow_zero_prefix : bool) (s : string) : option (Z * string) :=
  let '(ds, rest) := take_digits digit s in
  let v := foldl (fun acc d => acc * radix + d) 0 ds in
  match ds with
  | [] => None
  | d :: ds' =>
      if match max_digits with Some m => (m <? length ds)%nat | None => false end then None
      else if negb allow_zero_prefix && (d =? 0) && negb (bool_decide (ds' = [])) then None
      else if v <? bound then Some (v, rest) else None
  end.

Definition read_given_char (c : ascii) (s : string) : option string :=
  match s with String d s' => if Ascii.eqb d c then Some s' else None | EmptyString => None end.

Definition read_separator {A : Type} (c : ascii) (index : nat) (inner : string -> option (A * string))
    (s : string) : option (A * string) :=
  match index with O => inner s | S _ => s' ← read_given_char c s; inner s' end.

Definition read_octet : string -> option (Z * string) := read_number digit_of 10 256 (Some 3%nat) false.

Definition read_ipv4_addr (s : string) : option (Z * string) :=
  '(a, s1) ← read_octet s;
  '(b, s2) ← read_separator "." 1 read_octet s1;
  '(c, s3) ← read_separator "." 2 read_octet s2;
  '(d, s4) ← read_separator "." 3 read_octet s3;
  Some (octets a b c d, s4).

Definition read_group : string -> option (Z * string) := read_number hex_digit_of 16 (2 ^ 16) (Some 4%nat) true.

(** [read_groups] from index [i] with [left] slots: the groups, whether the last
    two are an embedded IPv4 address, and what is left. *)
Fixpoint read_groups (left i : nat) (s : string) : list Z * bool * string :=
  match left with
  | O => ([], false, s)
  | S l =>
      match (match l with O => None | S _ => read_separator ":" i read_ipv4_addr s end) with
      | Some (v4, s') => ([v4 / 65536; v4 mod 65536], true, s')
      | None =>
          match read_separator ":" i read_group s with
          | Some (g, s') => let '(gs, b, s'') := read_groups l (S i) s' in (g :: gs, b, s'')
          | None => ([], false, s)
          end
      end
  end.

Definition read_ipv6_addr (s : string) : option (list Z * string) :=
  let '(head, head_ipv4, s1) := read_groups 8 0 s in
  if (length head =? 8)%nat then Some (head, s1)
  else if head_ipv4 then None
  else
    s2 ← read_given_char ":" s1;
    s3 ← read_given_char ":" s2;
    let '(tail, _, s4) := read_groups (8 - (length head + 1)) 0 s3 in
    Some (head ++ repeat 0 (8 - length head - length tail) ++ tail, s4).

Definition read_port (s : string) : option (Z * string) :=
  s' ← read_given_char ":" s; read_number digit_of 10 (2 ^ 16) None true s'.

Definition read_scope_id (s : string) : option (Z * string) :=
  s' ← read_given_char "%" s; read_number digit_of 10 (2 ^ 32) None true s'.

Definition read_socket_addr_v6 (s : string) : option (list Z * Z * Z * string) :=
  s1 ← read_given_char "[" s;
  '(ip, s2) ← read_ipv6_addr s1;
  let '(scope, s3) := match read_scope_id s2 with Some (i, s3) => (i, s3) | None => (0, s2) end in
  s4 ← read_given_char "]" s3;
  '(port, s5) ← read_port s4;
  Some (ip, scope, port, s5).

Definition all_read {A : Type} (r : option (A * string)) : option A :=
  '(a, rest) ← r; if bool_decide (rest = "") then Some a else None.

(** [Ipv6Addr::from_str] and [SocketAddrV6::from_str]. *)
Definition parse_ipv6 (s : string) : option (list Z) := all_read (read_ipv6_addr s).
Definition parse_socket_v6 (s : string) : option (list Z * Z * Z) := all_read (read_socket_addr_v6 s).

Inductive SocketAddr : Type :=
| V4 (ip port : Z)
| V6 (ip : list Z) (scope port : Z).

Definition is_ipv4 (a : SocketAddr) : bool := match a with V4 _ _ => true | V6 _ _ _ => false end.

(** [SocketAddr::from_str]: version 4, or else version 6. *)
Definition parse_socket (s : string) : option SocketAddr :=
  match parse_socket_v4 s with
  | Some (ip, port) => Some (V4 ip port)
  | None => '(ip, scope, port) ← parse_socket_v6 s; Some (V6 ip scope port)
  end.

Example parse_socket_any : parse_socket "[::]:9090" = Some (V6 (repeat 0 8) 0 9090).
Proof. reflexivity. Qed.
Example parse_socket_embedded :
  parse_socket "[fe80::1%3]:80" = Some (V6 [65152; 0; 0; 0; 0; 0; 0; 1] 3 80) /\
  parse_socket "[::ffff:10.0.0.1]:80" = Some (V6 [0; 0; 0; 0; 0; 65535; 2560; 1] 0 80) /\
  parse_socket "fe80::1:80" = None /\ parse_socket "[1:2:3:4:5:6:7]:80" = None.
Proof. repeat split. Qed.
Example parse_ipv6_full : parse_ipv6 "1:2:3:4:5:6:7:8" = Some [1; 2; 3; 4; 5; 6; 7; 8].
Proof. reflexivity. Qed.

(** ** Without a colon there is no IPv6 address *)

Lemma take_digits_rest c digit s : has_char c s = false -> has_char c (take_digits digit s).2 = false.
Proof.
  induction s as [|d s IH]; simpl; [done|]. intros [Hd Hs]%orb_false_iff.
  destruct (digit d); simpl; [|by rewrite Hd, Hs].
  destruct (take_digits digit s) as [ds rest]. by apply IH.
Qed.

Lemma read_number_rest c digit radix bound m z s v rest :
  has_char c s = false -> read_number digit radix bound m z s = Some (v, rest) -> has_char c rest = false.
Proof.
  intros Hs. unfold read_number. pose proof (take_digits_rest c digit s Hs) as H.
  destruct (take_digits digit s) as [ds r]. repeat case_match; try done; intros [= _ <-]; done.
Qed.

Lemma read_given_char_none c s : has_char c s = false -> read_given_char c s = None.
Proof.
  destruct s as [|d s]; [done|]. simpl. intros [Hd _]%orb_false_iff. by rewrite Ascii.eqb_sym, Hd.
Qed.

Lemma read_groups_no_colon left i s : has_char ":" s = false -> read_groups left (S i) s = ([], false, s).
Proof.
  intros Hs. destruct left as [|l]; [done|]. cbn [read_groups read_separator].
  rewrite (read_given_char_none _ _ Hs). by destruct l.
Qed.

Lemma read_ipv6_no_colon s : has_char ":" s = false -> read_ipv6_addr s = None.
Proof.
  intros Hs. unfold read_ipv6_addr.
  change (read_groups 8 0 s) with
    (match read_ipv4_addr s with
     | Some (v4, s') => ([v4 / 65536; v4 mod 65536], true, s')
     | None => match read_group s with
               | Some (g, s') => let '(gs, b, s'') := read_groups 7 1 s' in (g :: gs, b, s'')
               | None => ([], false, s)
               end
     end).
  destruct (read_ipv4_addr s) as [[v4 s']|]; [done|].
  destruct (read_group s) as [[g s']|] eqn:E.
  - apply (read_number_rest ":") in E; [|done]. rewrite read_groups_no_colon by done.
    simpl. by rewrite read_given_char_none.
  - simpl. by rewrite read_given_char_none.
Qed.

Lemma parse_ipv6_no_colon s : has_char ":" s = false -> parse_ipv6 s = None.
Proof. intros Hs. unfold parse_ipv6. by rewrite read_ipv6_no_colon. Qed.

(** ** The text of an IPv4 address *)

Lemma digits_acc_chars s acc v : digits_acc acc s = Some v -> str_all is_digit s = true.
Proof.
  revert acc. induction s as [|c s IH]; intros acc; simpl; [done|].
  unfold is_digit. destruct (digit_of c); [|done]. simpl. apply IH.
Qed.

Lemma parse_octet_chars s v : parse_octet s = Some v -> str_all is_digit s = true.
Proof.
  unfold parse_octet. destruct s as [|c s]; [done|]. destruct (Ascii.eqb_spec c "0") as [->|_].
  - by destruct s.
  - case_match; [|done]. destruct (digits_acc 0 (String c s)) eqn:E; [|done]. intros _.
    by apply digits_acc_chars in E.
Qed.

Lemma parse_ipv4_chars s x : parse_ipv4 s = Some x -> str_all ipv4_char s = true.
Proof.
  unfold parse_ipv4. intros H.
  destruct (split_once "." s) as [[p1 r1]|] eqn:E1; [|done]. cbn in H.
  destruct (split_once "." r1) as [[p2 r2]|] eqn:E2; [|done]. cbn in H.
  destruct (split_once "." r2) as [[p3 p4]|] eqn:E3; [|done]. cbn in H.
  destruct (parse_octet p1) eqn:O1; [|done]. destruct (parse_octet p2) eqn:O2; [|done].
  destruct (parse_octet p3) eqn:O3; [|done]. destruct (parse_octet p4) eqn:O4; [|done].
  apply split_once_some in E1 as [-> _], E2 as [-> _], E3 as [-> _].
  assert (forall p n, parse_octet p = Some n -> str_all ipv4_char p = true) as Hp.
  { intros p n Hn. eapply str_all_impl; [|by eapply parse_octet_chars].
    intros d Hd. unfold ipv4_char. by rewrite Hd. }
  repeat (rewrite str_all_app; cbn [str_all]). repeat (erewrite Hp by done). done.
Qed.

Lemma parse_ipv4_no_colon s x : parse_ipv4 s = Some x -> has_char ":" s = false.
Proof.
  intros H%parse_ipv4_chars. apply has_char_all. eapply str_all_impl; [|done].
  intros d Hd. apply negb_true_iff, Ascii.eqb_neq. by intros <-.
Qed.
