(* ===== verification/GwConfig.v ===== *)
(** * Command lines: what the gateway and the relay accept

    [validate_host_port] and the address choice of
    [crates/wiremesh-enroll/src/lib.rs]; [GatewayConfig::parse] of
    [crates/wiremesh-gateway/src/config.rs]; [parse_args] of the gateway's and the
    relay's [enroll.rs]; [cli_action] of [cli.rs].  A path is its text.  Reading a
    token file and looking up a name are arguments; of an error only that it is
    one is kept, and the texts of [--help] and [--version] are left out. *)
From Stdlib Require Import ZArith Lia Ascii.
From S2P Require Import Prelude StdNet StdNet6.
Local Open Scope Z_scope.

(** ** Dial targets *)

Definition ipv4_shaped (host : string) : bool := str_all ipv4_char host.

Definition starts_with (c : ascii) (s : string) : bool :=
  match s with String d _ => Ascii.eqb d c | EmptyString => false end.

(** [matches!(host.parse(), Ok(IpAddr::V6(_)))]: version 4 is tried first. *)
Definition parses_as_v6 (host : string) : bool :=
  bool_decide (parse_ipv4 host = None) && bool_decide (is_Some (parse_ipv6 host)).

Definition validate_host_port (s : string) : bool :=
  match rsplit_once ":" s with
  | None => false
  | Some (host, port) =>
      if bool_decide (host = "") then false
      else match parse_unsigned 16 port with
           | None => false
           | Some p =>
               if p =? 0 then false
               else if starts_with "[" host || parses_as_v6 host then false
               else if ipv4_shaped host then bool_decide (is_Some (parse_socket s))
               else true
           end
  end.

Definition prefer_ipv4 (addrs : list SocketAddr) : option SocketAddr := List.find is_ipv4 addrs.

(** [lookup]: the resolver, [None] on a failure or past its time limit. *)
Definition resolve_host_port (lookup : string -> option (list SocketAddr)) (s : string) : option SocketAddr :=
  addrs ← lookup s; prefer_ipv4 addrs.

(** ** Pre-parse intent *)

Inductive CliAction : Type := Help | Version | Run.

Definition cli_action (args : list string) : CliAction :=
  let toks := tail args in
  if existsb (fun t => bool_decide (t = "-h" \/ t = "--help")) toks then Help
  else if existsb (fun t => bool_decide (t = "-V" \/ t = "--version")) toks then Version
  else Run.

(** ** A loop over flags that each take a value *)

Section flags.
Context {F : Type} (step : string -> string -> F -> option F).

Fixpoint flag_loop (args : list string) (f : F) : option F :=
  match args with
  | [] => Some f
  | [_] => None
  | flag :: v :: rest => g ← step flag v f; flag_loop rest g
  end.
End flags.

(** ** The gateway *)

Record GatewayConfig : Type := {
  controller_sync_addr : string;
  observe_addr : string;
  tun_ifname : string;
  wg_listen_port : Z;
  state_dir : string;
  metrics_addr : SocketAddr }.

Record GatewayFlags : Type := {
  f_controller : option string; f_observe : option string; f_tun : option string;
  f_wg_port : option Z; f_state_dir : option string; f_metrics : option SocketAddr }.

Definition no_gateway_flags : GatewayFlags :=
  {| f_controller := None; f_observe := None; f_tun := None; f_wg_port := None;
     f_state_dir := None; f_metrics := None |}.

Definition gateway_flag (flag v : string) (f : GatewayFlags) : option GatewayFlags :=
  match flag with
  | "--controller-sync" =>
      if validate_host_port v then
        Some {| f_controller := Some v; f_observe := f_observe f; f_tun := f_tun f;
                f_wg_port := f_wg_port f; f_state_dir := f_state_dir f; f_metrics := f_metrics f |}
      else None
  | "--observe" =>
      if validate_host_port v then
        Some {| f_controller := f_controller f; f_observe := Some v; f_tun := f_tun f;
                f_wg_port := f_wg_port f; f_state_dir := f_state_dir f; f_metrics := f_metrics f |}
      else None
  | "--tun" =>
      Some {| f_controller := f_controller f; f_observe := f_observe f; f_tun := Some v;
              f_wg_port := f_wg_port f; f_state_dir := f_state_dir f; f_metrics := f_metrics f |}
  | "--wg-port" =>
      p ← parse_unsigned 16 v;
      Some {| f_controller := f_controller f; f_observe := f_observe f; f_tun := f_tun f;
              f_wg_port := Some p; f_state_dir := f_state_dir f; f_metrics := f_metrics f |}
  | "--state-dir" =>
      Some {| f_controller := f_controller f; f_observe := f_observe f; f_tun := f_tun f;
              f_wg_port := f_wg_port f; f_state_dir := Some v; f_metrics := f_metrics f |}
  | "--metrics" =>
      a ← parse_socket v;
      Some {| f_controller := f_controller f; f_observe := f_observe f; f_tun := f_tun f;
              f_wg_port := f_wg_port f; f_state_dir := f_state_dir f; f_metrics := Some a |}
  | _ => None
  end.

(** [GatewayConfig::parse]; [args] begins with [argv[0]]. *)
Definition parse_config (args : list string) : option GatewayConfig :=
  f ← flag_loop gateway_flag (tail args) no_gateway_flags;
  controller ← f_controller f;
  observe ← f_observe f;
  tun ← f_tun f;
  wg_port ← f_wg_port f;
  dir ← f_state_dir f;
  Some {| controller_sync_addr := controller; observe_addr := observe; tun_ifname := tun;
          wg_listen_port := wg_port; state_dir := dir;
          metrics_addr := match f_metrics f with Some a => a | None => V4 (octets 127 0 0 1) 0 end |}.

(** ** Enrollment *)

Section enroll.
(** [std::fs::read_to_string]. *)
Context (read_file : string -> option string).

Definition resolve_token (token token_file : option string) : option string :=
  match token, token_file with
  | Some t, None => Some t
  | None, Some f => text ← read_file f; Some (trim text)
  | None, None => None
  | Some _, Some _ => None
  end.

Record EnrollArgs : Type := {
  token : string; controller : string; ca_path : string; ea_state_dir : string; cidrs : list string }.

Record EnrollFlags : Type := {
  e_token : option string; e_token_file : option string; e_controller : option string;
  e_ca : option string; e_dir : option string; e_cidrs : list string; e_endpoint : option string }.

Definition no_enroll_flags : EnrollFlags :=
  {| e_token := None; e_token_file := None; e_controller := None; e_ca := None; e_dir := None;
     e_cidrs := []; e_endpoint := None |}.

(** The flags both enroll commands share; [dir_flag] is [--state-dir] or [--certdir]. *)
Definition enroll_flag (dir_flag flag v : string) (f : EnrollFlags) : option EnrollFlags :=
  if bool_decide (flag = dir_flag) then
    Some {| e_token := e_token f; e_token_file := e_token_file f; e_controller := e_controller f;
            e_ca := e_ca f; e_dir := Some v; e_cidrs := e_cidrs f; e_endpoint := e_endpoint f |}
  else match flag with
  | "--token" =>
      Some {| e_token := Some v; e_token_file := e_token_file f; e_controller := e_controller f;
              e_ca := e_ca f; e_dir := e_dir f; e_cidrs := e_cidrs f; e_endpoint := e_endpoint f |}
  | "--token-file" =>
      Some {| e_token := e_token f; e_token_file := Some v; e_controller := e_controller f;
              e_ca := e_ca f; e_dir := e_dir f; e_cidrs := e_cidrs f; e_endpoint := e_endpoint f |}
  | "--controller" =>
      Some {| e_token := e_token f; e_token_file := e_token_file f; e_controller := Some v;
              e_ca := e_ca f; e_dir := e_dir f; e_cidrs := e_cidrs f; e_endpoint := e_endpoint f |}
  | "--ca" =>
      Some {| e_token := e_token f; e_token_file := e_token_file f; e_controller := e_controller f;
              e_ca := Some v; e_dir := e_dir f; e_cidrs := e_cidrs f; e_endpoint := e_endpoint f |}
  | _ => None
  end.

Definition gateway_enroll_flag (flag v : string) (f : EnrollFlags) : option EnrollFlags :=
  if bool_decide (flag = "--cidr") then
    Some {| e_token := e_token f; e_token_file := e_token_file f; e_controller := e_controller f;
            e_ca := e_ca f; e_dir := e_dir f; e_cidrs := e_cidrs f ++ [v]; e_endpoint := e_endpoint f |}
  else enroll_flag "--state-dir" flag v f.

(** [enroll::parse_args] of the gateway, after the [enroll] token. *)
Definition parse_enroll (args : list string) : option EnrollArgs :=
  f ← flag_loop gateway_enroll_flag args no_enroll_flags;
  t ← resolve_token (e_token f) (e_token_file f);
  c ← e_controller f;
  ca ← e_ca f;
  dir ← e_dir f;
  Some {| token := t; controller := c; ca_path := ca; ea_state_dir := dir; cidrs := e_cidrs f |}.

(** [main] of the gateway up to the chosen run; [None] is an argument error. *)
Inductive GatewayMain : Type :=
| ShowHelp
| ShowVersion
| Enroll (args : option EnrollArgs)
| DataPlane (cfg : option GatewayConfig).

Definition gateway_main (args : list string) : GatewayMain :=
  match cli_action args with
  | Help => ShowHelp
  | Version => ShowVersion
  | Run =>
      match tail args with
      | "enroll" :: rest => Enroll (parse_enroll rest)
      | _ => DataPlane (parse_config args)
      end
  end.

Record RelayEnrollArgs : Type := {
  re_token : string; re_controller : string; re_ca_path : string; certdir : string; endpoint : string }.

Definition relay_enroll_flag (flag v : string) (f : EnrollFlags) : option EnrollFlags :=
  if bool_decide (flag = "--endpoint") then
    Some {| e_token := e_token f; e_token_file := e_token_file f; e_controller := e_controller f;
            e_ca := e_ca f; e_dir := e_dir f; e_cidrs := e_cidrs f; e_endpoint := Some v |}
  else enroll_flag "--certdir" flag v f.

(** [enroll::parse_args] of the relay. *)
Definition parse_relay_enroll (args : list string) : option RelayEnrollArgs :=
  f ← flag_loop relay_enroll_flag args no_enroll_flags;
  t ← resolve_token (e_token f) (e_token_file f);
  c ← e_controller f;
  ca ← e_ca f;
  dir ← e_dir f;
  ep ← e_endpoint f;
  Some {| re_token := t; re_controller := c; re_ca_path := ca; certdir := dir; endpoint := ep |}.
End enroll.

(** ** An address of a Service is a dial target *)

Lemma validate_service_addr ip x port :
  parse_ipv4 ip = Some x -> 0 < port < 2 ^ 16 ->
  validate_host_port (ip +:+ String ":" (show_uint port)) = true.
Proof.
  intros Hip Hp. assert (has_char ":" (show_uint port) = false) as Hc
    by (apply has_char_show_uint; [lia|done]).
  unfold validate_host_port. rewrite rsplit_once_app by done.
  rewrite bool_decide_eq_false_2 by (intros ->; done).
  rewrite parse_unsigned_show by lia. rewrite (proj2 (Z.eqb_neq port 0)) by lia.
  assert (starts_with "[" ip = false) as ->.
  { pose proof (parse_ipv4_chars _ _ Hip) as H. destruct ip as [|c ip]; [done|]. simpl in *.
    apply andb_true_iff in H as [H _]. apply Ascii.eqb_neq. by intros ->. }
  unfold parses_as_v6. rewrite Hip, bool_decide_eq_false_2 by done. simpl.
  case_match; [|done]. apply bool_decide_eq_true_2.
  assert (parse_socket_v4 (ip +:+ String ":" (show_uint port)) = Some (x, port)) as Hs.
  { unfold parse_socket_v4. rewrite split_once_app by (by eapply parse_ipv4_no_colon).
    cbn [mbind option_bind]. rewrite Hip. cbn [mbind option_bind].
    rewrite parse_show_port by lia. done. }
  unfold parse_socket. rewrite Hs. eauto.
Qed.

(** ** Values that are no [--help] *)

Definition info_flag (t : string) : bool :=
  bool_decide (t = "-h" \/ t = "--help" \/ t = "-V" \/ t = "--version").

Lemma cli_action_run (args : list string) :
  Forall (fun t => info_flag t = false) (tail args) -> cli_action args = Run.
Proof.
  intros H. unfold cli_action.
  assert (forall P : string -> bool, (forall t, P t = true -> info_flag t = true) ->
            existsb P (tail args) = false) as Hno.
  { intros P HP. induction H as [|t l Ht _ IH]; [done|]. simpl. rewrite IH, orb_false_r.
    destruct (P t) eqn:E; [|done]. apply HP in E. congruence. }
  rewrite !Hno; [done| |]; intros t Ht%bool_decide_eq_true_1; apply bool_decide_eq_true_2; tauto.
Qed.

(** A text some reader accepts that accepts none of the four. *)
Lemma accepted_not_info (accepts : string -> bool) (t : string) :
  accepts "-h" = false -> accepts "--help" = false -> accepts "-V" = false -> accepts "--version" = false ->
  accepts t = true -> info_flag t = false.
Proof.
  intros H1 H2 H3 H4 Ht. apply bool_decide_eq_false_2. intros [->|[->|[->| ->]]]; congruence.
Qed.
