(* ===== verification/OpWorkloads.v ===== *)
(** * Operator: the objects it applies

    The builders and validators of [crates/wiremesh-operator/src/workloads.rs], and
    what the gateway and relay binaries make of the command lines the builders
    write ([GwConfig]). *)
From Stdlib Require Import ZArith Lia Ascii.
From S2P Require Import Prelude StdNet StdNet6 GwConfig OpApi.
Local Open Scope Z_scope.

Definition DEFAULT_CONTROLLER_IMAGE : string := "ghcr.io/zozo6015/wiremesh-controller:latest".
Definition DEFAULT_GATEWAY_IMAGE : string := "ghcr.io/zozo6015/wiremesh-gateway:latest".
Definition DEFAULT_RELAY_IMAGE : string := "ghcr.io/zozo6015/wiremesh-relay:latest".
Definition DEFAULT_OPERATOR_IMAGE : string := "ghcr.io/zozo6015/wiremesh-operator:latest".
Definition ENROLL_TCP_PORT : Z := 9400.
Definition SYNC_TCP_PORT : Z := 9500.
Definition ADMIN_TCP_PORT : Z := 9443.
Definition OBSERVE_UDP_PORT : Z := 9600.
Definition DATA_DIR : string := "/var/lib/wiremesh".
Definition RUN_DIR : string := "/run/wiremesh".
Definition UDS_PATH : string := "/run/wiremesh/controller.sock".
Definition CONTROLLER_COMPONENT_LABEL : string * string := ("app.kubernetes.io/component", "controller").
Definition CONTROLLER_CA_SECRET : string := "wiremesh-controller-ca".

Definition controller_pod_selector : string :=
  "app.kubernetes.io/name=wiremesh," +:+ CONTROLLER_COMPONENT_LABEL.1 +:+ "=" +:+ CONTROLLER_COMPONENT_LABEL.2.

Definition labels (name : string) : gmap string string :=
  <["app.kubernetes.io/instance" := name]> {["app.kubernetes.io/name" := "wiremesh"]}.

Definition env_var (name value : string) : EnvVar := {| ev_name := name; ev_value := Some value |}.
Definition recreate_strategy : DeploymentStrategy :=
  {| strategy_type := Some "Recreate"; rolling_update := None |}.
Definition released_replicas : option Z := None.
Definition tcp_port (name : string) (port : Z) : ContainerPort :=
  {| cp_name := name; cp_port := port; cp_protocol := "TCP" |}.
Definition mount (name path : string) : VolumeMount :=
  {| vm_name := name; vm_path := path; vm_read_only := None |}.
Definition mount_ro (name path : string) : VolumeMount :=
  {| vm_name := name; vm_path := path; vm_read_only := Some true |}.

(** ** Validators *)

Definition validate_dial_target (s : string) : bool :=
  match rsplit_once ":" s with
  | None => false
  | Some (host, port) =>
      if bool_decide (host = "") then false
      else match parse_unsigned 16 port with
           | None => false
           | Some p =>
               if p =? 0 then false
               else if starts_with "[" host || has_char ":" host || parses_as_v6 host then false
               else if ipv4_shaped host then bool_decide (is_Some (parse_socket s))
               else true
           end
  end.

Definition validate_bind_target (s : string) : bool := bool_decide (is_Some (parse_socket s)).

Definition is_ascii_alphanumeric (c : ascii) : bool :=
  let n := Z.of_nat (nat_of_ascii c) in
  is_digit c || ((65 <=? n) && (n <=? 90)) || ((97 <=? n) && (n <=? 122)).

Definition ifname_char (c : ascii) : bool :=
  is_ascii_alphanumeric c || Ascii.eqb c "_" || Ascii.eqb c "-".

Definition safe_ifname (tun : option string) : string :=
  match tun with
  | Some t =>
      if negb (bool_decide (t = "")) && (String.length t <=? 15)%nat && negb (starts_with "-" t) &&
         str_all ifname_char t
      then t else "wg0"
  | None => "wg0"
  end.

(** ** Claims, service, pods *)

(** The three [*_pvc] builders differ in the name's suffix and the default size. *)
Definition identity_pvc (suffix default_size name : string) (storage_class storage_size : option string) :
    PersistentVolumeClaim :=
  {| pvc_meta := meta (Some (name +:+ suffix)) (Some (labels name));
     pvc_access_modes := ["ReadWriteOnce"];
     pvc_storage := or_else default_size storage_size;
     pvc_storage_class := storage_class |}.

Definition controller_pvc (name : string) (spec : WiremeshControllerSpec) : PersistentVolumeClaim :=
  identity_pvc "-data" "1Gi" name (wc_storage_class spec) (wc_storage_size spec).
Definition gateway_pvc (name : string) (spec : WiremeshGatewaySpec) : PersistentVolumeClaim :=
  identity_pvc "-gateway-data" "128Mi" name (wg_storage_class spec) (wg_storage_size spec).
Definition relay_pvc (name : string) (spec : WiremeshRelaySpec) : PersistentVolumeClaim :=
  identity_pvc "-relay-data" "128Mi" name (wr_storage_class spec) (wr_storage_size spec).

Definition service_port (name : string) (port : Z) (protocol : string) : ServicePort :=
  {| sp_name := name; sp_port := port; sp_target := port; sp_protocol := protocol |}.

Definition controller_service (name : string) (spec : WiremeshControllerSpec) : Service :=
  {| svc_meta := meta (Some name) (Some (labels name));
     svc_selector := Some (labels name);
     svc_ports := [service_port "enroll-tcp" ENROLL_TCP_PORT "TCP";
                   service_port "sync-tcp" (or_else SYNC_TCP_PORT (sync_tcp_port spec)) "TCP";
                   service_port "observe-udp" (or_else OBSERVE_UDP_PORT (observe_udp_port spec)) "UDP"];
     svc_cluster_ip := None |}.

(** The script of the CA seed. *)
Definition ca_seed_script : string :=
  "if [ -e /var/lib/wiremesh/ca.pem ] || [ -e /var/lib/wiremesh/ca.key ]; then " +:+
  "if [ -e /var/lib/wiremesh/ca.pem ] && [ -e /var/lib/wiremesh/ca.key ]; then exit 0; fi; " +:+
  "echo 'wiremesh ca-seed: incomplete existing CA state on the PVC' >&2; exit 1; " +:+
  "fi; " +:+
  "if [ ! -e /mnt/ca-secret/tls.crt ] || [ ! -e /mnt/ca-secret/tls.key ]; then " +:+
  "echo 'wiremesh ca-seed: no CA secret mounted; controller will self-generate its CA' >&2; exit 0; " +:+
  "fi; " +:+
  "install -m 0644 /mnt/ca-secret/tls.crt /var/lib/wiremesh/ca.pem && " +:+
  "install -m 0600 /mnt/ca-secret/tls.key /var/lib/wiremesh/ca.key".

Definition ca_seed_init_container (image : string) : Container :=
  {| ct_name := "ca-seed"; ct_image := Some image; ct_command := Some ["/bin/sh"; "-c"];
     ct_args := Some [ca_seed_script]; ct_env := None; ct_ports := None; ct_privileged := None;
     ct_volume_mounts := [mount "data" DATA_DIR; mount_ro "ca-secret" "/mnt/ca-secret"] |}.

Definition admin_exec_sidecar (operator_image : string) : Container :=
  {| ct_name := "admin-exec"; ct_image := Some operator_image;
     ct_command := Some ["wiremesh-operator"; "idle"]; ct_args := None; ct_env := None; ct_ports := None;
     ct_privileged := None; ct_volume_mounts := [mount "run" RUN_DIR] |}.

Definition controller_env (spec : WiremeshControllerSpec) : list EnvVar :=
  [env_var "WIREMESH_DATA_DIR" DATA_DIR;
   env_var "WIREMESH_TCP_PORT" (show_uint ENROLL_TCP_PORT);
   env_var "WIREMESH_SYNC_TCP_PORT" (show_uint (or_else SYNC_TCP_PORT (sync_tcp_port spec)));
   env_var "WIREMESH_SOCKET_PATH" UDS_PATH;
   env_var "WIREMESH_ADMIN_TCP_PORT" (show_uint (or_else ADMIN_TCP_PORT (admin_tcp_port spec)));
   env_var "WIREMESH_OBSERVE_UDP_PORT" (show_uint (or_else OBSERVE_UDP_PORT (observe_udp_port spec)));
   env_var "WIREMESH_BIND_IP" "0.0.0.0";
   env_var "WIREMESH_ROTATION_INTERVAL" (or_else "off" (rotation_interval spec))].

(** What the three Deployments share: the strategy, the released replica count,
    the selector on the instance's labels. *)
Definition deployment (name : string) (pod_labels : gmap string string) (pod : PodSpec) : Deployment :=
  {| dep_meta := meta (Some name) (Some (labels name));
     dep_spec := Some {| replicas := released_replicas; strategy := Some recreate_strategy;
                         selector := Some (labels name); template_labels := Some pod_labels;
                         template_pod := Some pod |};
     dep_available := None |}.

Definition controller_deployment (name : string) (spec : WiremeshControllerSpec) (operator_image : string) :
    Deployment :=
  let image := or_else DEFAULT_CONTROLLER_IMAGE (wc_image spec) in
  let container :=
    {| ct_name := "controller"; ct_image := Some image; ct_command := None; ct_args := None;
       ct_env := Some (controller_env spec);
       ct_ports := Some [tcp_port "enroll-tcp" ENROLL_TCP_PORT;
                         tcp_port "sync-tcp" (or_else SYNC_TCP_PORT (sync_tcp_port spec))];
       ct_privileged := None;
       ct_volume_mounts := [mount "data" DATA_DIR; mount "run" RUN_DIR] |} in
  deployment name (<[CONTROLLER_COMPONENT_LABEL.1 := CONTROLLER_COMPONENT_LABEL.2]> (labels name))
    {| host_network := None; dns_policy := None; node_name := None; node_selector := None;
       init_containers := [ca_seed_init_container image];
       containers := [container; admin_exec_sidecar operator_image];
       volumes := [("data", Claim (name +:+ "-data")); ("run", EmptyDir);
                   ("ca-secret", SecretVolume CONTROLLER_CA_SECRET (Some true) None)] |}.

Definition HOSTNAME_KEY : string := "kubernetes.io/hostname".

Definition scheduler_aware_node_selector (node_name : option string)
    (node_selector : option (gmap string string)) : option (gmap string string) :=
  let sel := match node_selector with Some m => m | None => ∅ end in
  let sel := match node_name with
             | Some n => match sel !! HOSTNAME_KEY with Some _ => sel | None => <[HOSTNAME_KEY := n]> sel end
             | None => sel
             end in
  if bool_decide (sel = ∅) then None else Some sel.

(** The enroll argv of both pods before their own flags. *)
Definition enroll_argv (controller_enroll dir_flag : string) : list string :=
  ["--token-file"; "/etc/wiremesh-token/token"; "--controller"; controller_enroll;
   "--ca"; "/etc/wiremesh-ca/ca.pem"; dir_flag; DATA_DIR].

Definition enroll_container (image command state : string) (args : list string) : Container :=
  {| ct_name := "enroll"; ct_image := Some image; ct_command := Some [command]; ct_args := Some args;
     ct_env := None; ct_ports := None; ct_privileged := None;
     ct_volume_mounts := [mount state DATA_DIR; mount_ro "token" "/etc/wiremesh-token";
                          mount_ro "ca" "/etc/wiremesh-ca"] |}.

Definition token_volume (token_secret : string) : string * VolumeSource :=
  ("token", SecretVolume token_secret None None).
Definition ca_volume (ca_secret : string) : string * VolumeSource :=
  ("ca", SecretVolume ca_secret None (Some [("tls.crt", "ca.pem")])).

Definition gateway_enroll_args (controller_enroll : string) (cidrs : list string) : list string :=
  ["enroll"] ++ enroll_argv controller_enroll "--state-dir" ++ concat (map (fun c => ["--cidr"; c]) cidrs).

Definition gateway_args (spec : WiremeshGatewaySpec) (controller_sync controller_observe : string) : list string :=
  ["--controller-sync"; or_else controller_sync (sync_endpoint spec);
   "--observe"; or_else controller_observe (observe_endpoint spec);
   "--tun"; safe_ifname (tun spec);
   "--wg-port"; show_uint (or_else 51820 (wg_port spec));
   "--state-dir"; DATA_DIR;
   "--metrics"; or_else "0.0.0.0:9090" (metrics_bind spec)].

Definition gateway_deployment (gw : WiremeshGateway)
    (controller_sync controller_enroll controller_observe ca_secret token_secret : string)
    (cidrs : list string) : Deployment :=
  let name := cr_name gw in
  let spec := cr_spec gw in
  let image := or_else DEFAULT_GATEWAY_IMAGE (wg_image spec) in
  let main :=
    {| ct_name := "gateway"; ct_image := Some image; ct_command := None;
       ct_args := Some (gateway_args spec controller_sync controller_observe);
       ct_env := None; ct_ports := None; ct_privileged := Some true;
       ct_volume_mounts := [mount "state" DATA_DIR; mount "tun" "/dev/net/tun"] |} in
  deployment name (labels name)
    {| host_network := Some true; dns_policy := Some "ClusterFirstWithHostNet"; node_name := None;
       node_selector := scheduler_aware_node_selector (wg_node_name spec) (wg_node_selector spec);
       init_containers := [enroll_container image "wiremesh-gateway" "state"
                             (gateway_enroll_args controller_enroll cidrs)];
       containers := [main];
       volumes := [("state", Claim (name +:+ "-gateway-data"));
                   ("tun", HostPath "/dev/net/tun" "CharDevice");
                   token_volume token_secret; ca_volume ca_secret] |}.

Definition relay_enroll_argv (controller_enroll endpoint : string) : list string :=
  enroll_argv controller_enroll "--certdir" ++ ["--endpoint"; endpoint].

Definition relay_args (spec : WiremeshRelaySpec) (bind_port : Z) (controller_sync : string) : list string :=
  ["0.0.0.0:" +:+ show_uint bind_port; DATA_DIR; "--controller";
   or_else controller_sync (controller_endpoint spec)].

(** [None]: the endpoint is refused. *)
Definition relay_deployment (r : WiremeshRelay)
    (controller_sync controller_enroll ca_secret token_secret : string) : option Deployment :=
  let name := cr_name r in
  let spec := cr_spec r in
  let image := or_else DEFAULT_RELAY_IMAGE (wr_image spec) in
  '(_, bind_port) ← parse_socket_v4 (wr_endpoint spec);
  if bind_port =? 0 then None
  else
    let main :=
      {| ct_name := "relay"; ct_image := Some image; ct_command := None;
         ct_args := Some (relay_args spec bind_port controller_sync); ct_env := None;
         ct_ports := Some [{| cp_name := "quic"; cp_port := bind_port; cp_protocol := "UDP" |}];
         ct_privileged := None; ct_volume_mounts := [mount "certs" DATA_DIR] |} in
    Some (deployment name (labels name)
      {| host_network := None; dns_policy := None; node_name := None;
         node_selector := scheduler_aware_node_selector (wr_node_name spec) None;
         init_containers := [enroll_container image "wiremesh-relay-enroll" "certs"
                               (relay_enroll_argv controller_enroll (wr_endpoint spec))];
         containers := [main];
         volumes := [("certs", Claim (name +:+ "-relay-data")); token_volume token_secret;
                     ca_volume ca_secret] |}).

(** ** The binaries accept what the builders write *)

Lemma dial_target_accepted s : validate_dial_target s = true -> validate_host_port s = true.
Proof.
  unfold validate_dial_target, validate_host_port.
  destruct (rsplit_once ":" s) as [[host port]|]; [|done]. case_match; [done|].
  case_match; [|done]. case_match; [done|].
  destruct (starts_with "[" host); [done|]. destruct (has_char ":" host); [done|].
  by destruct (parses_as_v6 host).
Qed.

(** The validators differ on a host with a colon, which no dial can resolve: the
    operator refuses what the binary would boot with. *)
Example stricter_than_the_binary :
  validate_dial_target "fe80::1" = false /\ validate_host_port "fe80::1" = true.
Proof. by vm_compute. Qed.

Definition opt_accepts (accepts : string -> bool) (o : option string) : bool :=
  match o with Some v => accepts v | None => true end.

Lemma dial_choice_accepted (default : string) (o : option string) :
  opt_accepts validate_dial_target o = true -> validate_host_port default = true ->
  validate_host_port (or_else default o) = true.
Proof. destruct o; simpl; [|done]. intros ? _. by apply dial_target_accepted. Qed.

Lemma host_port_not_info s : validate_host_port s = true -> info_flag s = false.
Proof. by apply accepted_not_info. Qed.

Lemma bind_not_info s : validate_bind_target s = true -> info_flag s = false.
Proof. by apply accepted_not_info. Qed.

Lemma show_uint_not_info n : 0 <= n -> info_flag (show_uint n) = false.
Proof. intros Hn. apply (accepted_not_info (str_all is_digit)); try done. by apply str_all_show_uint. Qed.

Lemma safe_ifname_not_info o : info_flag (safe_ifname o) = false.
Proof.
  apply (accepted_not_info (fun t => negb (starts_with "-" t))); try done.
  unfold safe_ifname. destruct o as [t|]; [|done]. case_match eqn:E; [|done].
  apply andb_true_iff in E as [E _]. by apply andb_true_iff in E as [_ E].
Qed.

Lemma cidr_flags_loop (cidrs rest : list string) (f : EnrollFlags) :
  flag_loop gateway_enroll_flag (concat (map (fun c => ["--cidr"; c]) cidrs) ++ rest) f =
  flag_loop gateway_enroll_flag rest
    {| e_token := e_token f; e_token_file := e_token_file f; e_controller := e_controller f;
       e_ca := e_ca f; e_dir := e_dir f; e_cidrs := e_cidrs f ++ cidrs; e_endpoint := e_endpoint f |}.
Proof.
  revert f. induction cidrs as [|c cidrs IH]; intros f; simpl.
  - rewrite app_nil_r. by destruct f.
  - rewrite IH. simpl. by rewrite <- app_assoc.
Qed.

Lemma enroll_argv_loop (enroll : string) (rest : list string) :
  flag_loop gateway_enroll_flag (enroll_argv enroll "--state-dir" ++ rest) no_enroll_flags =
  flag_loop gateway_enroll_flag rest
    {| e_token := None; e_token_file := Some "/etc/wiremesh-token/token"; e_controller := Some enroll;
       e_ca := Some "/etc/wiremesh-ca/ca.pem"; e_dir := Some DATA_DIR; e_cidrs := []; e_endpoint := None |}.
Proof. reflexivity. Qed.

Lemma parse_gateway_enroll (read_file : string -> option string) (enroll text : string) (cidrs : list string) :
  read_file "/etc/wiremesh-token/token" = Some text ->
  parse_enroll read_file (tail (gateway_enroll_args enroll cidrs)) =
    Some {| token := trim text; controller := enroll; ca_path := "/etc/wiremesh-ca/ca.pem";
            ea_state_dir := DATA_DIR; cidrs := cidrs |}.
Proof.
  intros Hf. unfold parse_enroll, gateway_enroll_args. cbn [app tail].
  rewrite enroll_argv_loop, <- (app_nil_r (concat _)), cidr_flags_loop.
  cbn [flag_loop mbind option_bind e_token e_token_file e_controller e_ca e_dir e_cidrs resolve_token app].
  rewrite Hf. reflexivity.
Qed.

(** What [wiremesh-gateway] runs as, in the two containers of a pod; [entry] is the
    image's entry point. *)
Definition init_main (read_file : string -> option string) (pod : PodSpec) : list GatewayMain :=
  map (fun c => gateway_main read_file (or_else [] (ct_command c) ++ or_else [] (ct_args c)))
    (init_containers pod).
Definition pod_main (read_file : string -> option string) (entry : string) (pod : PodSpec) : list GatewayMain :=
  map (fun c => gateway_main read_file (or_else [entry] (ct_command c) ++ or_else [] (ct_args c)))
    (containers pod).

Definition pod_of (d : Deployment) : option PodSpec := spec ← dep_spec d; template_pod spec.

(** C0: A gateway pod the operator writes boots.  Whatever the custom resource
    holds, once its overrides passed the reconciler's validators, the container
    runs the data plane with exactly the configuration meant: the overrides, or
    the addresses of the controller's Service and the defaults.  The init
    container redeems the mounted token under the segment's CIDRs: neither
    command line is refused, nor taken for a request for help. *)
Theorem gateway_pod_boots (gw : WiremeshGateway) (read_file : string -> option string)
    (entry sync enroll observe token_secret text : string) (cidrs : list string) :
  let spec := cr_spec gw in
  opt_accepts validate_dial_target (sync_endpoint spec) = true ->
  opt_accepts validate_dial_target (observe_endpoint spec) = true ->
  opt_accepts validate_bind_target (metrics_bind spec) = true ->
  0 <= or_else 51820 (wg_port spec) < 2 ^ 16 ->
  validate_host_port sync = true -> validate_host_port observe = true ->
  info_flag enroll = false -> Forall (fun c => info_flag c = false) cidrs ->
  read_file "/etc/wiremesh-token/token" = Some text ->
  exists pod bind,
    pod_of (gateway_deployment gw sync enroll observe CONTROLLER_CA_SECRET token_secret cidrs) = Some pod /\
    parse_socket (or_else "0.0.0.0:9090" (metrics_bind spec)) = Some bind /\
    pod_main read_file entry pod =
      [DataPlane (Some {| controller_sync_addr := or_else sync (sync_endpoint spec);
                          observe_addr := or_else observe (observe_endpoint spec);
                          tun_ifname := safe_ifname (tun spec);
                          wg_listen_port := or_else 51820 (wg_port spec);
                          state_dir := DATA_DIR; metrics_addr := bind |})] /\
    init_main read_file pod =
      [Enroll (Some {| token := trim text; controller := enroll; ca_path := "/etc/wiremesh-ca/ca.pem";
                       ea_state_dir := DATA_DIR; cidrs := cidrs |})].
Proof.
  intros spec Hsync Hobs Hbind Hport Hs Ho He Hc Hf.
  assert (validate_bind_target (or_else "0.0.0.0:9090" (metrics_bind spec)) = true) as Hb
    by (by destruct (metrics_bind spec)).
  pose proof (proj1 (bool_decide_eq_true _) Hb) as [bind Hbind'].
  assert (Hs' := dial_choice_accepted sync _ Hsync Hs). assert (Ho' := dial_choice_accepted observe _ Hobs Ho).
  eexists _, bind. split; [reflexivity|]. split; [done|]. split.
  - unfold pod_main. cbn [containers map ct_command ct_args or_else app]. f_equal. unfold gateway_main.
    rewrite cli_action_run.
    + unfold gateway_args. cbn [tail]. f_equal. unfold parse_config. cbn [tail flag_loop gateway_flag].
      fold spec. rewrite Hs'. cbn [mbind option_bind]. rewrite Ho'. cbn [mbind option_bind].
      rewrite parse_unsigned_show by done. cbn [mbind option_bind]. rewrite Hbind'. reflexivity.
    + unfold gateway_args. cbn [tail]. fold spec.
      repeat (apply list.Forall_cons; split; [first [reflexivity | by apply host_port_not_info
        | by apply safe_ifname_not_info | by apply bind_not_info | by apply show_uint_not_info, Hport]|]).
      constructor.
  - unfold init_main. cbn [init_containers map ct_command ct_args or_else app enroll_container]. f_equal.
    unfold gateway_main. rewrite cli_action_run.
    + rewrite <- (parse_gateway_enroll read_file enroll text cidrs Hf). reflexivity.
    + unfold gateway_enroll_args, enroll_argv. cbn [tail app].
      repeat (apply list.Forall_cons; split; [first [reflexivity | done]|]).
      clear -Hc. induction Hc; simpl; [constructor|]. by repeat (constructor; [done|]).
Qed.

Definition ex_gateway (sync : option string) : WiremeshGateway :=
  {| cr_name := "gw-home"; cr_uid := Some "u1"; cr_deleting := false;
     cr_spec := {| segment_ref := "home"; wg_node_name := Some "n1"; wg_node_selector := None; wg_port := None;
                   tun := Some "--help"; wg_image := None; wg_storage_class := None; wg_storage_size := None;
                   observe_endpoint := None; sync_endpoint := sync; metrics_bind := Some "[::]:9090" |};
     cr_status := None |}.

Lemma gateway_pod_boots_witness :
  exists pod bind,
    pod_of (gateway_deployment (ex_gateway (Some "ctrl.example.com:9500")) "10.0.0.9:9500" "10.0.0.9:9400"
              "10.0.0.9:9600" CONTROLLER_CA_SECRET "s" ["10.1.0.0/16"]) = Some pod /\
    parse_socket "[::]:9090" = Some bind /\
    pod_main (fun _ => Some "tok") "wiremesh-gateway" pod =
      [DataPlane (Some {| controller_sync_addr := "ctrl.example.com:9500"; observe_addr := "10.0.0.9:9600";
                          tun_ifname := "wg0"; wg_listen_port := 51820; state_dir := DATA_DIR;
                          metrics_addr := bind |})] /\
    init_main (fun _ => Some "tok") pod =
      [Enroll (Some {| token := "tok"; controller := "10.0.0.9:9400"; ca_path := "/etc/wiremesh-ca/ca.pem";
                       ea_state_dir := DATA_DIR; cidrs := ["10.1.0.0/16"] |})].
Proof.
  apply (gateway_pod_boots (ex_gateway (Some "ctrl.example.com:9500")) (fun _ => Some "tok") "wiremesh-gateway"
           "10.0.0.9:9500" "10.0.0.9:9400" "10.0.0.9:9600" "s" "tok" ["10.1.0.0/16"]);
    try done; try by vm_compute.
  by repeat constructor.
Defined.

(** A relay's command lines, the same way: the bind address parses, the
    controller's address validates, the enroll flags are read back. *)
Lemma relay_pod_args (r : WiremeshRelay) (sync enroll ca token_secret text : string) (d : Deployment)
    (read_file : string -> option string) :
  opt_accepts validate_dial_target (controller_endpoint (cr_spec r)) = true ->
  validate_host_port sync = true -> read_file "/etc/wiremesh-token/token" = Some text ->
  relay_deployment r sync enroll ca token_secret = Some d ->
  exists pod bind_port c e,
    pod_of d = Some pod /\ containers pod = [c] /\ init_containers pod = [e] /\
    ct_args c = Some ["0.0.0.0:" +:+ show_uint bind_port; DATA_DIR; "--controller";
                      or_else sync (controller_endpoint (cr_spec r))] /\
    0 < bind_port < 2 ^ 16 /\ parse_socket ("0.0.0.0:" +:+ show_uint bind_port) = Some (V4 0 bind_port) /\
    validate_host_port (or_else sync (controller_endpoint (cr_spec r))) = true /\
    parse_relay_enroll read_file (or_else [] (ct_args e)) =
      Some {| re_token := trim text; re_controller := enroll; re_ca_path := "/etc/wiremesh-ca/ca.pem";
              certdir := DATA_DIR; endpoint := wr_endpoint (cr_spec r) |}.
Proof.
  intros Hsync Hs Hf. unfold relay_deployment.
  destruct (parse_socket_v4 (wr_endpoint (cr_spec r))) as [[ip port]|] eqn:Hep; [|done].
  cbn [mbind option_bind]. apply parse_socket_v4_range in Hep as [_ Hport].
  destruct (Z.eqb_spec port 0); [done|]. intros [= <-].
  eexists _, port, _, _. split; [reflexivity|]. split; [reflexivity|]. split; [reflexivity|].
  split; [reflexivity|]. split; [lia|]. split.
  { assert (parse_socket_v4 ("0.0.0.0:" +:+ show_uint port) = Some (0, port)) as Hb; [|by unfold parse_socket; rewrite Hb].
    unfold parse_socket_v4. change ("0.0.0.0:" +:+ show_uint port) with ("0.0.0.0" +:+ String ":" (show_uint port)).
    rewrite split_once_app by done. cbn [mbind option_bind]. change (parse_ipv4 "0.0.0.0") with (Some 0).
    cbn [mbind option_bind]. by rewrite parse_show_port. }
  split; [by apply dial_choice_accepted|].
  unfold parse_relay_enroll. cbn [ct_args enroll_container or_else relay_enroll_argv].
  change (flag_loop relay_enroll_flag _ no_enroll_flags) with
    (Some {| e_token := None; e_token_file := Some "/etc/wiremesh-token/token"; e_controller := Some enroll;
             e_ca := Some "/etc/wiremesh-ca/ca.pem"; e_dir := Some DATA_DIR; e_cidrs := [];
             e_endpoint := Some (wr_endpoint (cr_spec r)) |}).
  cbn [mbind option_bind e_token e_token_file resolve_token e_controller e_ca e_dir e_endpoint].
  rewrite Hf. reflexivity.
Qed.

(** An apply body names a rolling-update block exactly under [Recreate], and the
    operator never claims the replica count. *)
Lemma built_deployments (name : string) (l : gmap string string) (pod : PodSpec) :
  let d := deployment name l pod in
  null_rolling_update (deployment_apply_body d) = true /\
  (spec ← dep_spec d; replicas spec) = None /\
  deployment_readiness d = Starting.
Proof. done. Qed.

Lemma node_pin_wins (node : option string) (sel : option (gmap string string)) (k v : string) :
  (m ← sel; m !! k) = Some v -> (m ← scheduler_aware_node_selector node sel; m !! k) = Some v.
Proof.
  unfold scheduler_aware_node_selector. destruct sel as [m|]; [|done]. simpl. intros Hm.
  assert (m <> ∅) by (intros ->; by rewrite lookup_empty in Hm).
  destruct node as [n|]; [|by rewrite bool_decide_eq_false_2].
  destruct (m !! HOSTNAME_KEY) eqn:E; [by rewrite bool_decide_eq_false_2|].
  rewrite bool_decide_eq_false_2 by apply insert_non_empty. simpl.
  rewrite lookup_insert_ne; [done|]. intros <-. congruence.
Qed.
