(* ===== verification/OpGateway.v ===== *)
(** * Operator: the gateway reconciler

    [controllers/gateway.rs] of [crates/wiremesh-operator/src]: the pure decisions,
    [apply_gateway] and [cleanup_gateway] as programs over their calls.  The JSON
    text of the bound-CIDR record is a parameter that reads back what it writes. *)
From Stdlib Require Import ZArith Lia Ascii.
From S2P Require Import Prelude StdNet StdNet6 GwConfig OpApi OpWorkloads.
Local Open Scope Z_scope.

(** [serde_json] on a list of strings. *)
Class CidrJson : Type := {
  to_vec : list string -> string;
  from_slice : string -> option (list string) }.
Class CidrJsonLaws (J : CidrJson) : Prop := {
  from_to_vec : forall l, from_slice (to_vec l) = Some l }.

(** ** Decisions *)

Definition token_secret_name (gateway_name : string) : string := "wiremesh-gw-" +:+ gateway_name +:+ "-token".

Definition needs_token (existing : option Secret) : bool :=
  match existing with
  | None => true
  | Some s => match sec_data s with Some d => bool_decide (d !! "token" = None) | None => true end
  end.

Definition identity_persisted (pvc_exists gateway_active : bool) : bool := pvc_exists && gateway_active.

Definition should_mint_token (identity_persisted : bool) (token_secret : option Secret) : bool :=
  negb identity_persisted || needs_token token_secret.

Definition active_row (segment : string) (g : GatewayRow) : bool :=
  bool_decide (gr_segment g = segment) && bool_decide (gr_status g = "active").

Definition active_in_segment (roster : list GatewayRow) (segment : string) : option GatewayRow :=
  List.find (active_row segment) roster.

Definition string_set (l : list string) : gset string := list_to_set l.

Definition needs_rebind (bound_cidrs : option (list string)) (segment_cidrs : list string) : bool :=
  match bound_cidrs with
  | None => false
  | Some bound => negb (bool_decide (string_set bound = string_set segment_cidrs))
  end.

Inductive MintAction : Type := Defer | MintOrdinary | MintRebind | MintNone.

Definition mint_action (roster_ok gateway_active identity_persisted rebind_pending : bool)
    (token_secret : option Secret) : MintAction :=
  if rebind_pending && negb roster_ok then Defer
  else if should_mint_token identity_persisted token_secret then MintOrdinary
  else if gateway_active && rebind_pending then MintRebind
  else MintNone.

Definition adoption_needs_stale_drain (pvc_freshly_created : bool)
    (active_roster_id_for_segment own_enrolled_id : option Z) (sole_gateway_for_segment : bool) : option Z :=
  if negb pvc_freshly_created then None
  else if negb sole_gateway_for_segment then None
  else match active_roster_id_for_segment with
       | Some id => if bool_decide (Some id = own_enrolled_id) then None else Some id
       | None => None
       end.

Definition drain_still_authorized (recount_now : nat) (active_id_now : option Z) (stale_id : Z) : bool :=
  (recount_now =? 1)%nat && bool_decide (active_id_now = Some stale_id).

(** How many of the listed resources target this one's segment. *)
Definition segment_crs (gw : WiremeshGateway) (l : list WiremeshGateway) : nat :=
  length (List.filter (fun g => bool_decide (segment_ref (cr_spec g) = segment_ref (cr_spec gw))) l).

Section reconciler.
Context {J : CidrJson}.

Definition BOUND_CIDRS_KEY : string := "bound_cidrs".

Definition token_secret_body (gateway_name token : string) (bound_cidrs : list string) : Secret :=
  {| sec_meta := meta (Some (token_secret_name gateway_name)) None;
     sec_data := Some (<[BOUND_CIDRS_KEY := to_vec bound_cidrs]> {["token" := token]});
     sec_type := Some "Opaque" |}.

Definition bound_cidrs_of (secret : Secret) : option (list string) :=
  d ← sec_data secret; raw ← (d : gmap string string) !! BOUND_CIDRS_KEY; from_slice raw.

Definition stamped_secret (ns : string) (o : OwnerReference) (s : Secret) : Secret :=
  {| sec_meta := stamp ns o (sec_meta s); sec_data := sec_data s; sec_type := sec_type s |}.

(** ** [apply_gateway], step by step *)

Definition check_field (field : string) (accepts : string -> bool) (v : option string) : prog unit :=
  if opt_accepts accepts v then mret tt else stop (BadField field).

Definition validate_overrides (spec : WiremeshGatewaySpec) : prog unit :=
  _ ← check_field "observeEndpoint" validate_dial_target (observe_endpoint spec);
  _ ← check_field "syncEndpoint" validate_dial_target (sync_endpoint spec);
  check_field "metricsBind" validate_bind_target (metrics_bind spec).

(** The adoption drain, on a PVC that does not exist yet. *)
Definition adopt (gw : WiremeshGateway) (segment : string) (seg_row : option GatewayRow) : prog unit :=
  crs ← try ListGatewayCrs;
  let sole := match crs with Ok l => (segment_crs gw l =? 1)%nat | Err _ => false end in
  match adoption_needs_stale_drain true (gr_id <$> seg_row) None sole with
  | None => mret tt
  | Some stale_id =>
      roster_recheck ← try AdminListGateways;
      recount_recheck ← try ListGatewayCrs;
      match roster_recheck, recount_recheck with
      | Ok rows_now, Ok l_now =>
          if drain_still_authorized (segment_crs gw l_now) (gr_id <$> active_in_segment rows_now segment) stale_id
          then admin (AdminDrain stale_id) else mret tt
      | _, _ => mret tt
      end
  end.

Definition write_token (gw : WiremeshGateway) (ctx : Context) (token : string) (cidrs : list string) : prog unit :=
  o ← owner_ref "WiremeshGateway" gw;
  apply_secret (stamped_secret (namespace ctx) o (token_secret_body (cr_name gw) token cidrs)).

Definition mint (gw : WiremeshGateway) (ctx : Context) (segment : string) (cidrs : list string)
    (action : MintAction) : prog unit :=
  match action with
  | Defer | MintNone => mret tt
  | MintOrdinary => token ← mint_gateway_token cidrs; write_token gw ctx token cidrs
  | MintRebind =>
      id ← segment_id_by_name segment;
      match id with
      | Some segment_id => token ← mint_gateway_rebind_token segment_id; write_token gw ctx token cidrs
      | None => mret tt
      end
  end.

Definition stamped_pvc (ns : string) (o : OwnerReference) (p : PersistentVolumeClaim) : PersistentVolumeClaim :=
  {| pvc_meta := stamp ns o (pvc_meta p); pvc_access_modes := pvc_access_modes p;
     pvc_storage := pvc_storage p; pvc_storage_class := pvc_storage_class p |}.

Definition create_pvc (gw : WiremeshGateway) (ctx : Context) (existing : option PersistentVolumeClaim) : prog unit :=
  if pvc_needs_create existing then
    o ← owner_ref "WiremeshGateway" gw;
    apply_pvc (stamped_pvc (namespace ctx) o (gateway_pvc (cr_name gw) (cr_spec gw)))
  else mret tt.

Definition stamped_deployment (ns : string) (o : OwnerReference) (d : Deployment) : Deployment :=
  {| dep_meta := stamp ns o (dep_meta d); dep_spec := dep_spec d; dep_available := dep_available d |}.

Definition deploy (gw : WiremeshGateway) (ctx : Context) (cidrs : list string) : prog unit :=
  addrs ← controller_endpoints;
  let dep := gateway_deployment gw (sync addrs) (enroll addrs) (observe addrs) CONTROLLER_CA_SECRET
               (token_secret_name (cr_name gw)) cidrs in
  o ← owner_ref "WiremeshGateway" gw;
  apply_deployment (stamped_deployment (namespace ctx) o dep).

Definition true_false (b : bool) : string := if b then "True" else "False".

Definition gateway_status (seg_row : option GatewayRow) (scaled_down : bool) : WiremeshGatewayStatus :=
  let enrolled := bool_decide (is_Some seg_row) in
  {| OpApi.enrolled := enrolled; gateway_id := gr_id <$> seg_row; path_state := gr_status <$> seg_row;
     wgs_conditions :=
       [{| type_ := "Enrolled"; c_status := true_false enrolled;
           reason := if enrolled then "GatewayRegistered" else "AwaitingEnrollment";
           message := if enrolled then "gateway registered with the controller" else "gateway not yet enrolled" |};
        {| type_ := "ScaledDown"; c_status := true_false scaled_down;
           reason := if scaled_down then "ReplicasZero" else "ReplicasNonZero";
           message := if scaled_down
             then "gateway Deployment is scaled to 0 replicas " +:+ byte3 226 128 148 +:+
                  " the enrollment is still valid, but no gateway pod is running and this segment carries no traffic"
             else "gateway Deployment is not scaled down" |}] |}.

Definition report (gw : WiremeshGateway) (seg_row : option GatewayRow) : prog Action :=
  live ← kube (GetDeploymentOpt (cr_name gw));
  let scaled_down := bool_decide (deployment_readiness <$> live = Some ScaledDown) in
  _ ← kube (PatchStatus (cr_name gw) (GatewayStatus (gateway_status seg_row scaled_down)));
  mret (Requeue (if bool_decide (is_Some seg_row) || scaled_down then SETTLED_REQUEUE_SECS else 15)).

Definition apply_gateway (gw : WiremeshGateway) (ctx : Context) : prog Action :=
  let name := cr_name gw in
  _ ← validate_overrides (cr_spec gw);
  seg ← kube (GetSegment (segment_ref (cr_spec gw)));
  let cidrs := ws_cidrs (cr_spec seg) in
  let segment := segment_name (cr_spec seg) in
  existing_pvc ← kube (GetPvcOpt (name +:+ "-gateway-data"));
  let pvc_exists := negb (pvc_needs_create existing_pvc) in
  listed ← try AdminListGateways;
  let '(roster, roster_ok) := match listed with Ok rows => (rows, true) | Err _ => ([], false) end in
  let seg_row := active_in_segment roster segment in
  let gateway_active := bool_decide (is_Some seg_row) in
  _ ← (if pvc_exists then mret tt else adopt gw segment seg_row);
  existing_secret ← kube (GetSecretOpt (token_secret_name name));
  let rebind_pending := needs_rebind (existing_secret ≫= bound_cidrs_of) cidrs in
  _ ← mint gw ctx segment cidrs
        (mint_action roster_ok gateway_active (identity_persisted pvc_exists gateway_active)
           rebind_pending existing_secret);
  _ ← create_pvc gw ctx existing_pvc;
  _ ← deploy gw ctx cidrs;
  report gw seg_row.

(** ** [cleanup_gateway] *)

Definition cleanup_target (gw : WiremeshGateway) : prog (option Z) :=
  match (match cr_status gw with Some st => gateway_id st | None => None end) with
  | Some id => mret (Some id)
  | None =>
      seg ← kube (GetSegmentOpt (segment_ref (cr_spec gw)));
      match seg with
      | None => mret None
      | Some s =>
          crs ← try ListGatewayCrs;
          let sole := match crs with Ok l => (segment_crs gw l =? 1)%nat | Err _ => false end in
          if sole then
            roster ← admin AdminListGateways;
            mret (gr_id <$> active_in_segment roster (segment_name (cr_spec s)))
          else mret None
      end
  end.

Definition cleanup_gateway (gw : WiremeshGateway) (ctx : Context) : prog Action :=
  skip ← controller_cleanup_skip ctx;
  if (skip : bool) then mret AwaitChange
  else
    target ← cleanup_target gw;
    _ ← (match target with Some id => admin (AdminDrain id) | None => mret tt end : prog unit);
    mret AwaitChange.
End reconciler.

(** ** What a history shows *)

Definition drains : list Event -> list Z :=
  omap (fun e => match e with Ev c _ => match c with AdminDrain id => Some id | _ => None end end).

Definition segment_reads : list Event -> list (result CallErr WiremeshSegment) :=
  omap (fun e => match e with Ev c r =>
    match c in OpCall T return result CallErr T -> option (result CallErr WiremeshSegment) with
    | GetSegment _ => Some | _ => fun _ => None end r end).
Definition pvc_reads : list Event -> list (result CallErr (option PersistentVolumeClaim)) :=
  omap (fun e => match e with Ev c r =>
    match c in OpCall T return result CallErr T -> option (result CallErr (option PersistentVolumeClaim)) with
    | GetPvcOpt _ => Some | _ => fun _ => None end r end).
Definition roster_reads : list Event -> list (result CallErr (list GatewayRow)) :=
  omap (fun e => match e with Ev c r =>
    match c in OpCall T return result CallErr T -> option (result CallErr (list GatewayRow)) with
    | AdminListGateways => Some | _ => fun _ => None end r end).
Definition cr_lists : list Event -> list (result CallErr (list WiremeshGateway)) :=
  omap (fun e => match e with Ev c r =>
    match c in OpCall T return result CallErr T -> option (result CallErr (list WiremeshGateway)) with
    | ListGatewayCrs => Some | _ => fun _ => None end r end).
Definition secret_reads : list Event -> list (result CallErr (option Secret)) :=
  omap (fun e => match e with Ev c r =>
    match c in OpCall T return result CallErr T -> option (result CallErr (option Secret)) with
    | GetSecretOpt _ => Some | _ => fun _ => None end r end).
Definition segment_lists : list Event -> list (result CallErr (list SegmentInfo)) :=
  omap (fun e => match e with Ev c r =>
    match c in OpCall T return result CallErr T -> option (result CallErr (list SegmentInfo)) with
    | AdminListSegments => Some | _ => fun _ => None end r end).
Definition mints : list Event -> list (MintTokenRequest * result CallErr string) :=
  omap (fun e => match e with Ev c r =>
    match c in OpCall T return result CallErr T -> option (MintTokenRequest * result CallErr string) with
    | AdminMintToken req => fun r => Some (req, r) | _ => fun _ => None end r end).

(** The calls of the adoption step, and of the steps after the mint. *)
Definition adopt_call (T : Type) (c : OpCall T) : Prop :=
  match c with ListGatewayCrs | AdminListGateways | AdminDrain _ => True | _ => False end.
Definition no_drain (T : Type) (c : OpCall T) : Prop := match c with AdminDrain _ => False | _ => True end.
Definition deploy_call (T : Type) (c : OpCall T) : Prop :=
  match c with
  | ApplyPvc _ _ | ListControllerCrs | GetService _ | ApplyDeployment _ _ | GetDeploymentOpt _
  | PatchStatus _ _ => True
  | _ => False
  end.

(** The calls of the mint step. *)
Definition mint_call (T : Type) (c : OpCall T) : Prop :=
  match c with AdminMintToken _ | AdminListSegments | ApplySecret _ _ => True | _ => False end.

Lemma adopt_history (h : list Event) :
  Forall (satisfies adopt_call) h ->
  segment_reads h = [] /\ pvc_reads h = [] /\ secret_reads h = [] /\ segment_lists h = [] /\ mints h = [].
Proof.
  induction 1 as [|[T c r] h Hc _ IH]; [done|]. destruct c; try done; exact IH.
Qed.

(** Calls all of one kind: every continuation and answer is tried. *)
Ltac all_calls :=
  repeat first
    [ exact I
    | apply only_bind; [|intros ?]
    | split; [exact I|]; intros [?|[]]; simpl
    | progress cbn [only kube admin try mret prog_ret stop]
    | case_match ].

Lemma adopt_calls gw segment row : only adopt_call (adopt gw segment row).
Proof.
  unfold adopt. apply only_bind; [by split|]. intros crs. case_match; [|exact I].
  apply only_bind; [by split|]. intros rows. apply only_bind; [by split|]. intros l.
  repeat case_match; try exact I; (split; [exact I|]; by intros []).
Qed.

Lemma write_token_calls `{CidrJson} gw ctx t cidrs : only mint_call (write_token gw ctx t cidrs).
Proof. unfold write_token, owner_ref, apply_secret, object_name. all_calls. Qed.

Lemma mint_calls `{CidrJson} gw ctx segment cidrs action : only mint_call (mint gw ctx segment cidrs action).
Proof.
  destruct action; try exact I; cbn [mint].
  - apply only_bind; [|intros; apply write_token_calls]. unfold mint_gateway_token. all_calls.
  - apply only_bind; [unfold segment_id_by_name; all_calls|]. intros [id|]; [|exact I].
    apply only_bind; [|intros; apply write_token_calls]. unfold mint_gateway_rebind_token. all_calls.
Qed.

Definition rest_of (gw : WiremeshGateway) (ctx : Context) (pvc : option PersistentVolumeClaim)
    (cidrs : list string) (row : option GatewayRow) : prog Action :=
  _ ← create_pvc gw ctx pvc; _ ← deploy gw ctx cidrs; report gw row.

Lemma rest_calls gw ctx pvc cidrs row : only deploy_call (rest_of gw ctx pvc cidrs row).
Proof.
  unfold rest_of, create_pvc, deploy, report, controller_endpoints, owner_ref, apply_pvc, apply_deployment,
    object_name. all_calls.
Qed.

(** ** Adoption drains *)

(** What must have been read before a drain: the PVC was absent, and at two
    readings - the second one of the resources the last call before the drain -
    this resource was the only one of its segment and [id] its active gateway. *)
Definition drain_justified (gw : WiremeshGateway) (h : list Event) (id : Z) : Prop :=
  exists seg r1 r2 l1 l2 h',
    let active r := gr_id <$> active_in_segment r (segment_name (cr_spec seg)) in
    segment_reads h = [Ok seg] /\ pvc_reads h = [Ok None] /\
    roster_reads h = [Ok r1; Ok r2] /\ active r1 = Some id /\ active r2 = Some id /\
    cr_lists h = [Ok l1; Ok l2] /\ segment_crs gw l1 = 1%nat /\ segment_crs gw l2 = 1%nat /\
    h = h' ++ [Ev ListGatewayCrs (Ok l2)] /\ drains h = [].

Definition drain_guard (gw : WiremeshGateway) (h : list Event) (T : Type) (c : OpCall T) : Prop :=
  match c with AdminDrain id => drain_justified gw h id | _ => True end.

Lemma no_drain_safe {A : Type} (gw : WiremeshGateway) (h : list Event) (m : prog A)
    (Q : list Event -> result OpError A -> Prop) :
  only no_drain m -> (forall h' r, Q h' r) -> safe (drain_guard gw) h m Q.
Proof.
  intros Hm HQ. eapply safe_mono; [eapply (only_safe no_drain)|]; [done| |auto].
  intros h' T c Hc. by destruct c.
Qed.

Lemma after_adoption_no_drain `{CidrJson} gw ctx segment pvc cidrs row action :
  only no_drain (_ ← mint gw ctx segment cidrs action; rest_of gw ctx pvc cidrs row).
Proof.
  apply only_bind; [eapply only_mono; [apply mint_calls|]|intros _; eapply only_mono; [apply rest_calls|]];
    intros T c Hc; by destruct c.
Qed.

Lemma adopt_safe gw (seg : WiremeshSegment) (listed : result CallErr (list GatewayRow)) (name1 name2 : string)
    (Q : list Event -> result OpError unit -> Prop) :
  let roster := match listed with Ok rows => rows | Err _ => [] end in
  let h := [Ev (GetSegment name1) (Ok seg); Ev (GetPvcOpt name2) (Ok None); Ev AdminListGateways listed] in
  let segment := segment_name (cr_spec seg) in
  (forall h' r, Q h' r) ->
  safe (drain_guard gw) h (adopt gw segment (active_in_segment roster segment)) Q.
Proof.
  intros roster h segment HQ. unfold adopt. apply safe_bind, safe_try; [exact I|]. intros crs.
  destruct (active_in_segment roster segment) as [row|] eqn:Hrow;
    [|cbn; destruct (negb _); apply HQ].
  destruct listed as [rows|]; [|done].
  destruct crs as [l1|]; [|apply HQ].
  unfold adoption_needs_stale_drain. cbn [negb fmap option_fmap option_map].
  destruct (Nat.eqb_spec (segment_crs gw l1) 1); [|apply HQ].
  apply safe_bind, safe_try; [exact I|]. intros rows2. apply safe_bind, safe_try; [exact I|]. intros l2.
  destruct rows2 as [r2|]; [|apply HQ]. destruct l2 as [l2|]; [|apply HQ].
  destruct (drain_still_authorized _ _ _) eqn:Hauth; [|apply HQ].
  unfold drain_still_authorized in Hauth.
  apply andb_true_iff in Hauth as [?%Nat.eqb_eq Hid%bool_decide_eq_true_1].
  apply safe_admin; [|apply HQ|intros; apply HQ].
  exists seg, rows, r2, l1, l2, (h ++ [Ev ListGatewayCrs (Ok l1); Ev AdminListGateways (Ok r2)]).
  cbn. fold segment. unfold roster in Hrow. rewrite Hrow, Hid. done.
Qed.

Definition overrides_ok (spec : WiremeshGatewaySpec) : bool :=
  opt_accepts validate_dial_target (observe_endpoint spec) &&
  opt_accepts validate_dial_target (sync_endpoint spec) &&
  opt_accepts validate_bind_target (metrics_bind spec).

Lemma validate_overrides_cases spec :
  (overrides_ok spec = true /\ validate_overrides spec = mret tt) \/
  (overrides_ok spec = false /\ exists f, validate_overrides spec = stop (BadField f)).
Proof.
  unfold validate_overrides, check_field, overrides_ok.
  destruct (opt_accepts _ (observe_endpoint spec)); [|by right; eauto].
  destruct (opt_accepts _ (sync_endpoint spec)); [|by right; eauto].
  destruct (opt_accepts _ (metrics_bind spec)); [by left|by right; eauto].
Qed.

(** A malformed override fails the reconcile before any call. *)
Lemma bad_override_no_calls `{CidrJson} gw ctx env n :
  overrides_ok (cr_spec gw) = false -> exists f, run env n (apply_gateway gw ctx) = ([], Err (BadField f)).
Proof.
  intros Hno. unfold apply_gateway.
  destruct (validate_overrides_cases (cr_spec gw)) as [[? _]|(_ & f & ->)]; [congruence|by exists f].
Qed.

(** A reconcile before its adoption step: the overrides are checked before
    anything is called, then three reads. *)
Lemma apply_gateway_safe `{CidrJson} (I : list Event -> forall T : Type, OpCall T -> Prop)
    gw ctx (Q : list Event -> result OpError Action -> Prop) :
  (forall h n, I h _ (GetSegment n)) -> (forall h n, I h _ (GetPvcOpt n)) -> (forall h, I h _ AdminListGateways) ->
  (forall h e, secret_reads h = [] -> Q h (Err e)) ->
  (forall name1 seg name2 pvc listed,
     let h := [Ev (GetSegment name1) (Ok seg); Ev (GetPvcOpt name2) (Ok pvc); Ev AdminListGateways listed] in
     let cidrs := ws_cidrs (cr_spec seg) in
     let segment := segment_name (cr_spec seg) in
     let pvc_exists := negb (pvc_needs_create pvc) in
     let row := active_in_segment (match listed with Ok rows => rows | Err _ => [] end) segment in
     let active := bool_decide (is_Some row) in
     safe I h
       (_ ← (if pvc_exists then mret tt else adopt gw segment row);
        secret ← kube (GetSecretOpt (token_secret_name (cr_name gw)));
        _ ← mint gw ctx segment cidrs
              (mint_action (is_ok listed) active (identity_persisted pvc_exists active)
                 (needs_rebind (secret ≫= bound_cidrs_of) cidrs) secret);
        rest_of gw ctx pvc cidrs row) Q) ->
  safe I [] (apply_gateway gw ctx) Q.
Proof.
  intros I1 I2 I3 HQ Hrest. unfold apply_gateway. apply safe_bind.
  destruct (validate_overrides_cases (cr_spec gw)) as [[_ ->]|(_ & f & ->)]; [|by apply HQ].
  apply safe_ret.
  apply safe_bind, safe_kube; [apply I1|by apply HQ|]. intros seg.
  apply safe_bind, safe_kube; [apply I2|by apply HQ|]. intros pvc.
  apply safe_bind, safe_try; [apply I3|]. intros listed.
  specialize (Hrest (segment_ref (cr_spec gw)) seg (cr_name gw +:+ "-gateway-data") pvc listed).
  destruct listed; exact Hrest.
Qed.

(** C0: A reconcile drains a gateway only as a stale predecessor of its own: in
    every run, whatever the API server and the controller answer and however that
    changes between two calls, the identity PVC was absent, and at two separate
    readings this resource was the only one of its segment and the drained id the
    segment's active gateway; the second count is the last call before the drain,
    and nothing is drained twice.  A failed reading never leads to a drain. *)
Theorem adoption_drains_justified `{CidrJson} gw ctx (env : Env) (n : nat)
    (pre post : list Event) (id : Z) (answer : result CallErr unit) :
  (run env n (apply_gateway gw ctx)).1 = pre ++ Ev (AdminDrain id) answer :: post ->
  drain_justified gw pre id.
Proof.
  assert (safe (drain_guard gw) [] (apply_gateway gw ctx) (fun _ _ => True)) as Hs.
  { apply apply_gateway_safe; try done. intros name1 seg name2 pvc listed h cidrs segment pvc_exists row active.
    apply safe_bind.
    assert (forall h' r, match r : result OpError unit with
      | Ok _ => safe (drain_guard gw) h' (secret ← kube (GetSecretOpt (token_secret_name (cr_name gw)));
          _ ← mint gw ctx segment cidrs (mint_action (is_ok listed) active (identity_persisted pvc_exists active)
                (needs_rebind (secret ≫= bound_cidrs_of) cidrs) secret);
          rest_of gw ctx pvc cidrs row) (fun _ _ => True)
      | Err _ => True end) as Hrest.
    { intros h' [[]|]; [|done]. apply no_drain_safe; [|done].
      apply only_bind; [split; [exact I|by intros [|]]|]. intros. apply after_adoption_no_drain. }
    destruct pvc as [p|]; [by apply safe_ret, (Hrest _ (Ok tt))|]. by apply adopt_safe. }
  intros E. exact (proj2 (safe_run _ env n [] _ _ Hs) pre unit (AdminDrain id) answer post E).
Qed.

(** ** A pending rebind *)

Definition secret_writes : list Event -> list (Secret * result CallErr unit) :=
  omap (fun e => match e with Ev c r =>
    match c in OpCall T return result CallErr T -> option (Secret * result CallErr unit) with
    | ApplySecret _ s => fun r => Some (s, r) | _ => fun _ => None end r end).

Definition token_in (s : Secret) : option string := d ← sec_data s; (d : gmap string string) !! "token".

Definition id_of_segment (name : string) (segs : list SegmentInfo) : option Z :=
  si_id <$> List.find (fun s => bool_decide (si_name s = name)) segs.

Definition is_mint (a : MintAction) : bool :=
  match a with MintOrdinary | MintRebind => true | Defer | MintNone => false end.

Section rebind.
Context {J : CidrJson} {L : CidrJsonLaws J}.

(** The token a mint asks for, by the action taken and the segments listed. *)
Definition asks (action : MintAction) (segment : string) (cidrs : list string)
    (lists : list (result CallErr (list SegmentInfo))) (req : MintTokenRequest) : Prop :=
  match action with
  | MintOrdinary => req = mint_request "gateway" cidrs
  | MintRebind => exists segs id, lists = [Ok segs] /\ id_of_segment segment segs = Some id /\
                    id <> 0 /\ req = rebind_mint_request id
  | Defer | MintNone => False
  end.

(** What the mint step leaves: no Secret written, or one, holding the token just
    minted and the segment's CIDRs. *)
Definition minted (action : MintAction) (segment : string) (cidrs : list string) (h : list Event) : Prop :=
  (is_mint action = false -> mints h = []) /\
  (secret_writes h = [] \/
   exists s' answer req t,
     secret_writes h = [(s', answer)] /\ mints h = [(req, Ok t)] /\
     bound_cidrs_of s' = Some cidrs /\ token_in s' = Some t /\
     asks action segment cidrs (segment_lists h) req).

Lemma token_secret_reads_back ns o name t cidrs :
  let s := stamped_secret ns o (token_secret_body name t cidrs) in
  bound_cidrs_of s = Some cidrs /\ token_in s = Some t.
Proof.
  cbn. unfold bound_cidrs_of, token_in. cbn [sec_data mbind option_bind].
  rewrite lookup_insert_eq. cbn. rewrite from_to_vec. done.
Qed.

Lemma write_token_safe gw ctx t cidrs (h : list Event) (Q : list Event -> result OpError unit -> Prop) :
  Q h (Err (MissingField ".metadata.uid")) ->
  (forall s' name answer r, bound_cidrs_of s' = Some cidrs -> token_in s' = Some t ->
     Q (h ++ [Ev (ApplySecret name s') answer]) r) ->
  safe (fun _ _ _ => True) h (write_token gw ctx t cidrs) Q.
Proof.
  intros H1 H2. unfold write_token, owner_ref. destruct (cr_uid gw) as [uid|]; [|done].
  apply safe_bind, safe_ret. cbv beta iota.
  match goal with |- safe _ _ (apply_secret (stamped_secret ?ns ?o ?s)) _ =>
    destruct (token_secret_reads_back ns o (cr_name gw) t cidrs) as [Hb Ht] end.
  split; [done|]. intros [[]|[]]; by apply H2.
Qed.

Lemma mint_safe gw ctx segment cidrs action (h : list Event) :
  mints h = [] -> secret_writes h = [] -> segment_lists h = [] ->
  safe (fun _ _ _ => True) h (mint gw ctx segment cidrs action)
    (fun h' _ => minted action segment cidrs h').
Proof.
  intros Hm Hw Hs. assert (forall a h', secret_writes h' = [] -> (is_mint a = false -> mints h' = []) ->
    minted a segment cidrs h') as Hno by (intros; by split; [|left]).
  destruct action; cbn [mint]; try (by apply safe_ret, Hno).
  - apply safe_bind, safe_admin; [done| |intros t].
    { apply Hno; [|done]. unfold secret_writes in *. by rewrite omap_app, Hw. }
    apply write_token_safe; [apply Hno; [|done]; unfold secret_writes in *; by rewrite omap_app, Hw|].
    intros s' name answer r Hb Ht. split; [done|]. right. exists s', answer, (mint_request "gateway" cidrs), t.
    unfold secret_writes, mints in *. rewrite !omap_app, Hw, Hm. done.
  - apply safe_bind. unfold segment_id_by_name. apply safe_bind, safe_admin; [done| |intros segs].
    { apply Hno; [|done]. unfold secret_writes in *. by rewrite omap_app, Hw. }
    apply safe_ret. fold (id_of_segment segment segs).
    assert (secret_writes (h ++ [Ev AdminListSegments (Ok segs)]) = []) as Hw'
      by (unfold secret_writes in *; by rewrite omap_app, Hw).
    destruct (id_of_segment segment segs) as [id|] eqn:Hid; [|by apply safe_ret, Hno].
    unfold mint_gateway_rebind_token. destruct (Z.eqb_spec id 0) as [|Hnz]; [by apply Hno|].
    apply safe_bind, safe_admin; [done| |intros t].
    { apply Hno; [|done]. unfold secret_writes in *. by rewrite omap_app, Hw'. }
    apply write_token_safe; [apply Hno; [|done]; unfold secret_writes in *; by rewrite omap_app, Hw'|].
    intros s' name answer r Hb Ht. split; [done|]. right. exists s', answer, (rebind_mint_request id), t.
    unfold secret_writes, mints, segment_lists in *. rewrite !omap_app, Hw, Hm, Hs.
    repeat (split; [done|]). by exists segs, id.
Qed.
End rebind.

(** What the steps before and after the mint leave alone. *)
Lemma deploy_history (h more : list Event) :
  Forall (satisfies deploy_call) more ->
  segment_reads (h ++ more) = segment_reads h /\ pvc_reads (h ++ more) = pvc_reads h /\
  roster_reads (h ++ more) = roster_reads h /\ secret_reads (h ++ more) = secret_reads h /\
  segment_lists (h ++ more) = segment_lists h /\ mints (h ++ more) = mints h /\
  secret_writes (h ++ more) = secret_writes h.
Proof.
  intros H. unfold segment_reads, pvc_reads, roster_reads, secret_reads, segment_lists, mints, secret_writes.
  rewrite !omap_app. induction H as [|[T c r] more Hc _ IH]; [by rewrite !app_nil_r|].
  destruct c; try done; exact IH.
Qed.

Lemma mint_history (h more : list Event) :
  Forall (satisfies mint_call) more ->
  segment_reads (h ++ more) = segment_reads h /\ pvc_reads (h ++ more) = pvc_reads h /\
  roster_reads (h ++ more) = roster_reads h /\ secret_reads (h ++ more) = secret_reads h.
Proof.
  intros H. unfold segment_reads, pvc_reads, roster_reads, secret_reads.
  rewrite !omap_app. induction H as [|[T c r] more Hc _ IH]; [by rewrite !app_nil_r|].
  destruct c; try done; exact IH.
Qed.

Lemma adopt_writes (h : list Event) : Forall (satisfies adopt_call) h -> secret_writes h = [].
Proof. induction 1 as [|[T c r] h Hc _ IH]; [done|]. destruct c; try done; exact IH. Qed.

Lemma mint_action_pending (ok active pvc_exists : bool) (secret : option Secret) :
  match mint_action ok active (identity_persisted pvc_exists active) true secret with
  | Defer => ok = false
  | MintOrdinary => ok = true /\ (pvc_exists && active = false \/ needs_token secret = true)
  | MintRebind => ok = true /\ active = true /\ pvc_exists = true
  | MintNone => False
  end.
Proof.
  unfold mint_action, should_mint_token, identity_persisted.
  destruct ok, active, pvc_exists, (needs_token secret); cbn; auto.
Qed.

Section rebind_kept.
Context {J : CidrJson} {L : CidrJsonLaws J}.

(** In the history [h], the token Secret records CIDRs other than the segment's. *)
Definition rebind_pending (h : list Event) (seg : WiremeshSegment) (secret : Secret) : Prop :=
  segment_reads h = [Ok seg] /\ secret_reads h = [Ok (Some secret)] /\
  needs_rebind (bound_cidrs_of secret) (ws_cidrs (cr_spec seg)) = true.

(** The one Secret written holds a token that this reconcile minted, for the new
    CIDRs, with the roster read. *)
Definition rebind_served (h : list Event) (seg : WiremeshSegment) (secret : Secret) : Prop :=
  let cidrs := ws_cidrs (cr_spec seg) in
  let segment := segment_name (cr_spec seg) in
  exists s' answer req t roster rereads pvc,
    secret_writes h = [(s', answer)] /\ mints h = [(req, Ok t)] /\
    bound_cidrs_of s' = Some cidrs /\ token_in s' = Some t /\
    roster_reads h = Ok roster :: rereads /\ pvc_reads h = [Ok pvc] /\
    (is_Some (active_in_segment roster segment) /\ is_Some pvc /\
     (exists segs id, segment_lists h = [Ok segs] /\ id_of_segment segment segs = Some id /\
        id <> 0 /\ req = rebind_mint_request id)
     \/ (active_in_segment roster segment = None \/ pvc = None \/ needs_token (Some secret) = true) /\
        req = mint_request "gateway" cidrs).

Definition rebind_kept (h : list Event) : Prop :=
  forall seg secret, rebind_pending h seg secret ->
    (secret_writes h = [] \/ rebind_served h seg secret) /\
    (forall rest, roster_reads h = Err CallFailed :: rest -> mints h = []).

Lemma minted_kept (h : list Event) seg pvc listed rereads secret :
  let cidrs := ws_cidrs (cr_spec seg) in
  let row := active_in_segment (match listed with Ok rows => rows | Err _ => [] end)
               (segment_name (cr_spec seg)) in
  let active := bool_decide (is_Some row) in
  let pvc_exists := negb (pvc_needs_create pvc) in
  segment_reads h = [Ok seg] -> pvc_reads h = [Ok pvc] -> roster_reads h = listed :: rereads ->
  secret_reads h = [Ok secret] ->
  minted (mint_action (is_ok listed) active (identity_persisted pvc_exists active)
            (needs_rebind (secret ≫= bound_cidrs_of) cidrs) secret)
    (segment_name (cr_spec seg)) cidrs h ->
  rebind_kept h.
Proof.
  intros cidrs row active pvc_exists Hseg Hpvc Hros Hsec Hm seg' secret' (Hseg' & Hsec' & Hpend).
  rewrite Hseg in Hseg'. injection Hseg' as <-. rewrite Hsec in Hsec'. injection Hsec' as ->.
  cbn [mbind option_bind] in Hm. fold cidrs in Hpend. rewrite Hpend in Hm.
  pose proof (mint_action_pending (is_ok listed) active pvc_exists (Some secret')) as Hact.
  destruct Hm as [Hnomint Hm]. split.
  - destruct Hm as [|(s' & answer & req & t & Hw & Hmint & Hb & Ht & Hasks)]; [by left|right].
    destruct listed as [roster|]; [|by destruct (mint_action _ _ _ _ _); destruct_and?].
    exists s', answer, req, t, roster, rereads, pvc. repeat (split; [done|]).
    destruct (mint_action _ _ _ _ _); try done.
    + right. split; [|done]. destruct Hact as [_ [Hact|Hact]]; [|by do 2 right].
      apply andb_false_iff in Hact as [Hact|Hact].
      * right; left. by destruct pvc.
      * left. apply bool_decide_eq_false_1 in Hact. by apply eq_None_not_Some.
    + left. destruct Hact as (_ & Hact & Hp). split; [by apply bool_decide_eq_true_1 in Hact|].
      by split; [destruct pvc|].
  - intros rest Hros'. rewrite Hros in Hros'. injection Hros' as -> _. apply Hnomint.
    destruct (mint_action _ _ _ _ _); destruct_and?; done.
Qed.

Lemma rebind_kept_same (h h' : list Event) :
  rebind_kept h ->
  segment_reads h' = segment_reads h /\ pvc_reads h' = pvc_reads h /\ roster_reads h' = roster_reads h /\
  secret_reads h' = secret_reads h /\ segment_lists h' = segment_lists h /\ mints h' = mints h /\
  secret_writes h' = secret_writes h ->
  rebind_kept h'.
Proof.
  unfold rebind_kept, rebind_pending, rebind_served. intros H (-> & -> & -> & -> & -> & -> & ->). exact H.
Qed.

(** C0: A reconcile never loses a pending rebind.  When the token Secret it read
    records other CIDRs than the segment's, then whatever fails or changes on the
    way, either the Secret is left as it was - so the next reconcile still finds
    the rebind pending - or it is replaced by a token minted in this run for the
    new CIDRs: a rebind token scoped to the segment's id where the gateway is
    active and its identity has a volume, an ordinary one only where the roster
    was read and there is no identity to keep, or no token.  While the roster
    cannot be read nothing is minted. *)
Theorem pending_rebind_kept gw ctx (env : Env) (n : nat) :
  rebind_kept (run env n (apply_gateway gw ctx)).1.
Proof.
  assert (safe (fun _ _ _ => True) [] (apply_gateway gw ctx) (fun h _ => rebind_kept h)) as Hs;
    [|exact (proj1 (safe_run _ env n [] _ _ Hs))].
  assert (forall h, secret_reads h = [] \/ secret_reads h = [Err CallFailed] -> rebind_kept h) as Hearly.
  { intros h Hh seg secret (_ & Hs & _). rewrite Hs in Hh. by destruct Hh. }
  apply apply_gateway_safe; try done; [by intros; apply Hearly; left|].
  intros name1 seg name2 pvc listed h cidrs segment pvc_exists row active. apply safe_bind.
  apply (safe_mono _ _ _ (fun h' _ => exists more, h' = h ++ more /\ Forall (satisfies adopt_call) more)).
  { destruct pvc_exists; [apply safe_ret; exists []; by rewrite app_nil_r|].
    apply (only_safe adopt_call); [apply adopt_calls|done]. }
  intros h' r (more & -> & Hmore).
  pose proof (adopt_history _ Hmore) as (E1 & E2 & E3 & E4 & E5). pose proof (adopt_writes _ Hmore) as E6.
  assert (forall ev, secret_reads ((h ++ more) ++ ev) = secret_reads ev) as Hsr
    by (intros ev; unfold secret_reads in *; by rewrite !omap_app, E3).
  destruct r as [_|e]; [|apply Hearly; left; rewrite <- (app_nil_r (h ++ more)); by rewrite Hsr].
  apply safe_bind, safe_kube; [done|apply Hearly; right; by rewrite Hsr|]. intros secret.
  set (h2 := (h ++ more) ++ _).
  assert (mints h2 = [] /\ secret_writes h2 = [] /\ segment_lists h2 = []) as (F1 & F2 & F3).
  { unfold h2, mints, secret_writes, segment_lists in *. by rewrite !omap_app, E4, E5, E6. }
  apply safe_bind. eapply safe_mono; [eapply safe_and|].
  { by apply (mint_safe gw ctx segment cidrs). }
  { apply (only_safe mint_call); [apply mint_calls|done]. }
  intros h3 r [Hminted (more3 & -> & Hmore3)].
  pose proof (mint_history h2 _ Hmore3) as (G1 & G2 & G3 & G4).
  assert (rebind_kept (h2 ++ more3)) as Hkept.
  { eapply (minted_kept _ seg pvc listed (roster_reads more) secret); [| | | |done].
    - rewrite G1. unfold h2, segment_reads in *. by rewrite !omap_app, E1.
    - rewrite G2. unfold h2, pvc_reads in *. by rewrite !omap_app, E2.
    - rewrite G3. unfold h2, roster_reads. rewrite !omap_app. cbn. by rewrite app_nil_r.
    - rewrite G4. apply Hsr. }
  destruct r as [_|e]; [|done].
  eapply safe_mono; [by eapply (only_safe deploy_call); [apply rest_calls|]|].
  intros h4 r (more4 & -> & Hmore4). pose proof (deploy_history (h2 ++ more3) _ Hmore4) as D.
  by apply (rebind_kept_same (h2 ++ more3)).
Qed.
End rebind_kept.

(** ** A cluster to run in *)

(** A record of CIDRs that reads back: every character behind a point, every entry
    closed by a comma. *)
Fixpoint dotted (s : string) : string :=
  match s with EmptyString => "," | String c s' => String "." (String c (dotted s')) end.
Fixpoint undotted (s : string) : option (list string) :=
  match s with
  | EmptyString => Some []
  | String "," s' => l ← undotted s'; Some (EmptyString :: l)
  | String "." (String c s') =>
      match undotted s' with Some (w :: l) => Some (String c w :: l) | _ => None end
  | _ => None
  end.

Lemma undotted_dotted (s t : string) (l : list string) :
  undotted t = Some l -> undotted (dotted s +:+ t) = Some (s :: l).
Proof.
  intros Ht. induction s as [|c s IH].
  - change (dotted "" +:+ t) with (String "," t). cbn [undotted]. by rewrite Ht.
  - change (dotted (String c s) +:+ t) with (String "." (String c (dotted s +:+ t))).
    cbn [undotted]. by rewrite IH.
Qed.

#[local] Instance DottedCidrs : CidrJson :=
  {| to_vec := foldr (fun s acc => dotted s +:+ acc) ""; from_slice := undotted |}.
#[local] Instance DottedCidrsLaws : CidrJsonLaws DottedCidrs.
Proof.
  split. intros l. cbn [from_slice to_vec DottedCidrs].
  induction l as [|s l IH]; [done|]. by apply undotted_dotted.
Qed.

Record Cluster : Type := {
  k_segment : WiremeshSegment;
  k_pvc : option PersistentVolumeClaim;
  k_roster : nat -> result CallErr (list GatewayRow);
  k_gateways : list WiremeshGateway;
  k_secret : option Secret;
  k_token : string }.

(** The answers of a cluster whose API server works, the roster by call number. *)
Definition answers (k : Cluster) : Env := fun n T c =>
  match c in OpCall T return result CallErr T with
  | GetSegment _ => Ok (k_segment k)
  | GetSegmentOpt _ => Ok (Some (k_segment k))
  | ListGatewayCrs => Ok (k_gateways k)
  | ListControllerCrs =>
      Ok [{| cr_name := "ctl"; cr_uid := Some "c"; cr_deleting := false;
             cr_spec := {| wc_image := None; wc_storage_class := None; wc_storage_size := None;
                           admin_tcp_port := None; sync_tcp_port := None; observe_udp_port := None;
                           rotation_interval := None |};
             cr_status := None |}]
  | GetService _ => Ok {| svc_meta := meta (Some "ctl") None; svc_selector := None; svc_ports := [];
                          svc_cluster_ip := Some "10.0.0.9" |}
  | GetPvcOpt _ => Ok (k_pvc k)
  | GetSecretOpt _ => Ok (k_secret k)
  | GetDeploymentOpt _ => Ok None
  | AdminListGateways => k_roster k n
  | AdminListSegments => Ok [{| si_id := 3; si_name := "home" |}]
  | AdminMintToken _ => Ok (k_token k)
  | AdminDrain _ => Ok tt
  | LockFabric => Ok tt
  | UnlockFabric => Ok tt
  | AdminApply _ => Ok tt
  | AdminDeleteSegment _ => Ok tt
  | ApplySecret _ _ => Ok tt
  | ApplyPvc _ _ => Ok tt
  | ApplyService _ _ => Ok tt
  | ApplyDeployment _ _ => Ok tt
  | PatchStatus _ _ => Ok tt
  | AdminRegisterRelay _ _ => Err CallFailed
  | AdminListRelays => Err CallFailed
  | GetDeployment _ => Err CallFailed
  | ListSegmentCrs => Err CallFailed
  | ListPolicyCrs => Err CallFailed
  | ListPodPhases _ => Ok [Some "Running"]
  end.

Definition ex_ctx : Context := {| namespace := "mesh"; pod_label := Some "l"; operator_image := None |}.
Definition ex_segment (cidrs : list string) : WiremeshSegment :=
  {| cr_name := "home"; cr_uid := Some "s"; cr_deleting := false;
     cr_spec := {| segment_name := "home"; ws_cidrs := cidrs |}; cr_status := None |}.
Definition ex_row (id : Z) (status : string) : GatewayRow :=
  {| gr_id := id; gr_name := "g"; gr_segment := "home"; gr_status := status; gr_applied_version := 0 |}.
Definition ex_named (name : string) (st : option WiremeshGatewayStatus) : WiremeshGateway :=
  {| cr_name := name; cr_uid := Some name; cr_deleting := false; cr_spec := cr_spec (ex_gateway None);
     cr_status := st |}.
Definition ex_pvc : PersistentVolumeClaim := gateway_pvc "gw-home" (cr_spec (ex_gateway None)).

Definition status_patches : list Event -> list StatusPatch :=
  omap (fun e => match e with Ev c _ => match c with PatchStatus _ s => Some s | _ => None end end).

(** Adopting an empty volume: the stale gateway 7 is drained, row 5 ignored. *)
Definition adopting : Cluster :=
  {| k_segment := ex_segment ["10.1.0.0/16"]; k_pvc := None;
     k_roster := fun _ => Ok [ex_row 5 "drained"; ex_row 7 "active"];
     k_gateways := [ex_gateway None]; k_secret := None; k_token := "t1" |}.

Example adopting_run :
  drains (run (answers adopting) 0 (apply_gateway (ex_gateway None) ex_ctx)).1 = [7] /\
  (run (answers adopting) 0 (apply_gateway (ex_gateway None) ex_ctx)).2 = Ok (Requeue 300).
Proof. by vm_compute. Qed.

Lemma adoption_drains_justified_witness :
  exists pre post answer,
    (run (answers adopting) 0 (apply_gateway (ex_gateway None) ex_ctx)).1 =
      pre ++ Ev (AdminDrain 7) answer :: post /\ drain_justified (ex_gateway None) pre 7.
Proof.
  eexists [_; _; _; _; _; _], _, _. split; [vm_compute; reflexivity|].
  eapply (adoption_drains_justified (ex_gateway None) ex_ctx (answers adopting) 0).
  vm_compute. reflexivity.
Defined.

(** The segment's CIDRs moved under an enrolled gateway: a rebind token. *)
Definition old_token : Secret := token_secret_body "gw-home" "t0" ["10.1.0.0/16"].
Definition moved (roster : result CallErr (list GatewayRow)) (secret : Secret) : Cluster :=
  {| k_segment := ex_segment ["10.2.0.0/16"]; k_pvc := Some ex_pvc; k_roster := fun _ => roster;
     k_gateways := [ex_gateway None]; k_secret := Some secret; k_token := "t1" |}.

Lemma pending_rebind_kept_witness :
  rebind_kept (run (answers (moved (Ok [ex_row 7 "active"]) old_token)) 0
                 (apply_gateway (ex_gateway None) ex_ctx)).1 /\
  mints (run (answers (moved (Ok [ex_row 7 "active"]) old_token)) 0
           (apply_gateway (ex_gateway None) ex_ctx)).1 = [(rebind_mint_request 3, Ok "t1")] /\
  mints (run (answers (moved (Err CallFailed) old_token)) 0 (apply_gateway (ex_gateway None) ex_ctx)).1 = [].
Proof. split; [apply pending_rebind_kept|]. split; vm_compute; reflexivity. Defined.

(** ** Two cases the code does not cover *)

(** Once the rebind token is stored its record matches the segment, so nothing is
    pending: a reconcile that cannot read the roster mints an ordinary token over
    it, and the next one, back in steady state, mints nothing.  The Secret now
    holds a plain token, which the occupied segment refuses. *)
Definition rebind_token : Secret := token_secret_body "gw-home" "t1" ["10.2.0.0/16"].
Definition spare_token : Secret := token_secret_body "gw-home" "t2" ["10.2.0.0/16"].

Example hiccup_overwrites_rebind :
  let k roster secret := answers (moved roster secret) in
  let gw := ex_gateway None in
  map fst (mints (run (k (Ok [ex_row 7 "active"]) old_token) 0 (apply_gateway gw ex_ctx)).1) =
    [rebind_mint_request 3] /\
  map fst (mints (run (k (Err CallFailed) rebind_token) 0 (apply_gateway gw ex_ctx)).1) =
    [mint_request "gateway" ["10.2.0.0/16"]] /\
  length (secret_writes (run (k (Err CallFailed) rebind_token) 0 (apply_gateway gw ex_ctx)).1) = 1%nat /\
  mints (run (k (Ok [ex_row 7 "active"]) spare_token) 0 (apply_gateway gw ex_ctx)).1 = [].
Proof. vm_compute. repeat split. Qed.

(** A second resource of a segment reports the segment's active gateway as its
    own, though it never enrolled; deleting it then drains that gateway. *)
Definition two_resources : Cluster :=
  {| k_segment := ex_segment ["10.1.0.0/16"]; k_pvc := None; k_roster := fun _ => Ok [ex_row 7 "active"];
     k_gateways := [ex_gateway None; ex_named "gw-two" None]; k_secret := None; k_token := "t" |}.

Example second_resource_drains_first :
  let k := answers two_resources in
  let st := gateway_status (Some (ex_row 7 "active")) false in
  drains (run k 0 (apply_gateway (ex_named "gw-two" None) ex_ctx)).1 = [] /\
  status_patches (run k 0 (apply_gateway (ex_named "gw-two" None) ex_ctx)).1 = [GatewayStatus st] /\
  gateway_id st = Some 7 /\
  drains (run k 0 (cleanup_gateway (ex_named "gw-two" (Some st)) ex_ctx)).1 = [7] /\
  drains (run k 0 (cleanup_gateway (ex_named "gw-two" None) ex_ctx)).1 = [].
Proof. vm_compute. repeat split. Qed.
