(* ===== verification/OpRelay.v ===== *)
(** * Operator: the relay and controller reconcilers

    [controllers/relay.rs] and [controllers/controller.rs] of
    [crates/wiremesh-operator/src], as programs over their calls. *)
From Stdlib Require Import ZArith Lia Ascii.
From S2P Require Import Prelude StdNet StdNet6 GwConfig OpApi OpWorkloads OpGateway.
Local Open Scope Z_scope.

(** ** The relay *)

Definition relay_token_secret (relay_name : string) : string := "wiremesh-relay-" +:+ relay_name +:+ "-token".

Definition relay_identity_persisted (pvc_exists : bool) (roster : list RelayRow) (endpoint : string) : bool :=
  pvc_exists && existsb (fun r => bool_decide (rr_endpoint r = endpoint)) roster.

Definition relay_token_body (ns : string) (o : OwnerReference) (relay_name token : string) : Secret :=
  {| sec_meta := stamp ns o (meta (Some (relay_token_secret relay_name)) None);
     sec_data := Some {["token" := token]};
     sec_type := Some "Opaque" |}.

Definition mint_relay (relay : WiremeshRelay) (ctx : Context) (identity_persisted : bool)
    (token_secret : option Secret) : prog unit :=
  if should_mint_token identity_persisted token_secret then
    token ← mint_relay_token;
    o ← owner_ref "WiremeshRelay" relay;
    apply_secret (relay_token_body (namespace ctx) o (cr_name relay) token)
  else mret tt.

Definition create_relay_pvc (relay : WiremeshRelay) (ctx : Context)
    (existing : option PersistentVolumeClaim) : prog unit :=
  if pvc_needs_create existing then
    o ← owner_ref "WiremeshRelay" relay;
    apply_pvc (stamped_pvc (namespace ctx) o (relay_pvc (cr_name relay) (cr_spec relay)))
  else mret tt.

Definition deploy_relay (relay : WiremeshRelay) (ctx : Context) : prog unit :=
  addrs ← controller_endpoints;
  match relay_deployment relay (sync addrs) (enroll addrs) CONTROLLER_CA_SECRET
          (relay_token_secret (cr_name relay)) with
  | None => stop AdminFailed
  | Some dep =>
      o ← owner_ref "WiremeshRelay" relay;
      apply_deployment (stamped_deployment (namespace ctx) o dep)
  end.

Definition relay_status (readiness : Readiness) : WiremeshResourceStatus :=
  {| applied := bool_decide (readiness = Available); applied_version := None;
     rs_message := Some match readiness with
       | Available => "relay deployed"
       | ScaledDown => "relay scaled down (0 replicas)"
       | Starting => "relay pod starting" end |}.

Definition settled (readiness : Readiness) : bool :=
  bool_decide (readiness = Available) || bool_decide (readiness = ScaledDown).

Definition report_relay (relay : WiremeshRelay) : prog Action :=
  live ← kube (GetDeployment (cr_name relay));
  let readiness := deployment_readiness live in
  _ ← kube (PatchStatus (cr_name relay) (ResourceStatus "WiremeshRelay" (relay_status readiness)));
  mret (Requeue (if settled readiness then SETTLED_REQUEUE_SECS else 15)).

Definition reconcile_relay (relay : WiremeshRelay) (ctx : Context) : prog Action :=
  _ ← check_field "controllerEndpoint" validate_dial_target (controller_endpoint (cr_spec relay));
  existing_pvc ← kube (GetPvcOpt (cr_name relay +:+ "-relay-data"));
  listed ← try AdminListRelays;
  let roster := match listed with Ok rows => rows | Err _ => [] end in
  token_secret ← kube (GetSecretOpt (relay_token_secret (cr_name relay)));
  _ ← mint_relay relay ctx
        (relay_identity_persisted (negb (pvc_needs_create existing_pvc)) roster (wr_endpoint (cr_spec relay)))
        token_secret;
  _ ← create_relay_pvc relay ctx existing_pvc;
  _ ← deploy_relay relay ctx;
  report_relay relay.

(** ** The controller *)

Definition controller_status (name ns : string) (sync_port : Z) (readiness : Readiness) : WiremeshControllerStatus :=
  let ready := bool_decide (readiness = Available) in
  let scaled_down := bool_decide (readiness = ScaledDown) in
  {| wcs_ready := ready; admin_endpoint := Some (service_dns name ns sync_port); observed_version := None;
     wcs_conditions :=
       [{| type_ := "Ready"; c_status := true_false ready;
           reason := match readiness with
             | Available => "AllComponentsReady" | ScaledDown => "ScaledDown"
             | Starting => "WaitingForController" end;
           message := match readiness with
             | Available => "controller Deployment available"
             | ScaledDown => "controller Deployment is scaled to 0 replicas " +:+ byte3 226 128 148 +:+
                             " not serving, by request"
             | Starting => "waiting for controller Deployment to become available" end |};
        {| type_ := "ScaledDown"; c_status := true_false scaled_down;
           reason := if scaled_down then "ReplicasZero" else "ReplicasNonZero";
           message := if scaled_down
             then "spec.replicas is explicitly 0 on the controller Deployment; the operator released the field, so this is a deliberate scale-down and will not be reverted"
             else "controller Deployment is not scaled down" |}] |}.

Definition stamped_service (ns : string) (o : OwnerReference) (s : Service) : Service :=
  {| svc_meta := stamp ns o (svc_meta s); svc_selector := svc_selector s; svc_ports := svc_ports s;
     svc_cluster_ip := svc_cluster_ip s |}.

Definition reconcile_controller (cr : WiremeshController) (ctx : Context) : prog Action :=
  let name := cr_name cr in
  let spec := cr_spec cr in
  oref ← owner_ref "WiremeshController" cr;
  existing_pvc ← kube (GetPvcOpt (name +:+ "-data"));
  _ ← (if pvc_needs_create existing_pvc
       then apply_pvc (stamped_pvc (namespace ctx) oref (controller_pvc name spec)) else mret tt);
  _ ← apply_service (stamped_service (namespace ctx) oref (controller_service name spec));
  let image := or_else DEFAULT_OPERATOR_IMAGE (operator_image ctx) in
  _ ← apply_deployment (stamped_deployment (namespace ctx) oref (controller_deployment name spec image));
  live ← kube (GetDeployment name);
  let readiness := deployment_readiness live in
  _ ← kube (PatchStatus name (ControllerStatus
        (controller_status name (namespace ctx) (or_else 9500 (sync_tcp_port spec)) readiness)));
  mret (Requeue (if settled readiness then SETTLED_REQUEUE_SECS else 10)).

(** ** When a relay token is minted *)

Definition relay_rosters : list Event -> list (result CallErr (list RelayRow)) :=
  omap (fun e => match e with Ev c r =>
    match c in OpCall T return result CallErr T -> option (result CallErr (list RelayRow)) with
    | AdminListRelays => Some | _ => fun _ => None end r end).

(** The reasons to mint: no volume, no row for the endpoint at any status in a
    roster that may be unreadable, or no token stored. *)
Definition relay_mint_due (relay : WiremeshRelay) (h : list Event) : Prop :=
  pvc_reads h = [Ok None] \/
  (exists listed, relay_rosters h = [listed] /\
     forall rows r, listed = Ok rows -> r ∈ rows -> rr_endpoint r <> wr_endpoint (cr_spec relay)) \/
  (exists secret, secret_reads h = [Ok secret] /\ needs_token secret = true).

Definition relay_guard (relay : WiremeshRelay) (h : list Event) (T : Type) (c : OpCall T) : Prop :=
  match c with
  | AdminMintToken req => req = mint_request "relay" [] /\ mints h = [] /\ relay_mint_due relay h
  | _ => True
  end.

(** Calls that mint nothing. *)
Definition no_mint (T : Type) (c : OpCall T) : Prop := match c with AdminMintToken _ => False | _ => True end.

Lemma relay_rest_calls relay ctx pvc :
  only no_mint (_ ← create_relay_pvc relay ctx pvc; _ ← deploy_relay relay ctx; report_relay relay).
Proof.
  unfold create_relay_pvc, deploy_relay, report_relay, controller_endpoints, owner_ref, apply_pvc,
    apply_deployment, object_name. all_calls.
Qed.

Lemma relay_rest_safe relay ctx pvc (h : list Event) :
  safe (relay_guard relay) h
    (_ ← create_relay_pvc relay ctx pvc; _ ← deploy_relay relay ctx; report_relay relay) (fun _ _ => True).
Proof.
  eapply safe_mono; [eapply (only_safe no_mint)|done]; [apply relay_rest_calls|].
  intros h' T c Hc. by destruct c.
Qed.

Lemma relay_not_persisted pvc_exists roster endpoint :
  relay_identity_persisted pvc_exists roster endpoint = false ->
  pvc_exists = false \/ forall r, r ∈ roster -> rr_endpoint r <> endpoint.
Proof.
  unfold relay_identity_persisted. intros [H|H]%andb_false_iff; [by left|right].
  intros r Hr He. apply not_true_iff_false in H. apply H, existsb_exists. exists r.
  split; [by apply list_elem_of_In|]. by apply bool_decide_eq_true_2.
Qed.

(** A relay's reconcile mints at most one token, a relay token, and only for a
    reason; in particular an enrolled relay with its volume and its token mints
    nothing through any outage of its pod. *)
Lemma relay_mints_justified relay ctx (env : Env) (n : nat) pre req answer post :
  (run env n (reconcile_relay relay ctx)).1 = pre ++ Ev (AdminMintToken req) answer :: post ->
  req = mint_request "relay" [] /\ mints pre = [] /\ relay_mint_due relay pre.
Proof.
  assert (safe (relay_guard relay) [] (reconcile_relay relay ctx) (fun _ _ => True)) as Hs.
  { unfold reconcile_relay. apply safe_bind. unfold check_field. case_match; [|done]. apply safe_ret.
    apply safe_bind, safe_kube; [done..|]. intros pvc. apply safe_bind, safe_try; [done|]. intros listed.
    apply safe_bind, safe_kube; [done..|]. intros secret. cbn [app]. apply safe_bind.
    match goal with |- safe _ ?h (mint_relay _ _ ?p _) _ => set (history := h); set (persisted := p) end.
    unfold mint_relay. destruct (should_mint_token persisted secret) eqn:Hmint;
      [|by apply safe_ret, relay_rest_safe].
    apply safe_bind, safe_admin; [|done|intros t].
    - split; [done|]. split; [done|]. apply orb_true_iff in Hmint as [Hp%negb_true_iff|Hneed].
      + apply relay_not_persisted in Hp as [Hp|Hp].
        * left. by destruct pvc.
        * right; left. exists listed. split; [done|]. intros rows r -> Hr. by apply Hp.
      + right; right. by exists secret.
    - unfold owner_ref. apply safe_bind. case_match; [|done]. apply safe_ret.
      apply safe_kube; [done|done|]. intros []. apply relay_rest_safe. }
  intros E. exact (proj2 (safe_run _ env n [] _ _ Hs) pre string (AdminMintToken req) answer post E).
Qed.

Example controller_ready :
  let st := controller_status "ctl" "mesh" 9500 in
  wcs_ready (st Available) = true /\ wcs_ready (st ScaledDown) = false /\
  map c_status (wcs_conditions (st ScaledDown)) = ["False"; "True"] /\
  map reason (wcs_conditions (st Starting)) = ["WaitingForController"; "ReplicasNonZero"] /\
  admin_endpoint (st Available) = Some "ctl.mesh.svc:9500".
Proof. by vm_compute. Qed.
