(* ===== verification/OpFabric.v ===== *)
(** * Operator: the fabric reconciler

    [fabric.rs] and [controllers/fabric.rs] of [crates/wiremesh-operator/src], and
    the reconciles of many segments running side by side: a pool of programs over
    one controller, one API server and the fabric lock, a step being one call of
    one program.  Writing the document as YAML is serde_yaml's, reading its segment
    names is the controller's ([CtlApply]); both are parameters. *)
From Stdlib Require Import ZArith Lia Ascii.
From S2P Require Import Prelude OpApi OpGateway.
Local Open Scope Z_scope.

(** ** The document *)

Record SegmentOut : Type := { so_name : string; so_cidrs : list string }.
Record RuleOut : Type := { ro_proto : string; ro_ports : list Z }.
Record BlockOut : Type := { bo_from : string; bo_to : string; bo_rules : list RuleOut }.
(** [fd_policy] is omitted when there is none; so are empty [ro_ports]. *)
Record FabricDoc : Type := { fd_segments : list SegmentOut; fd_policy : option (list BlockOut) }.

Definition fabric_doc (segments : list WiremeshSegmentSpec) (policies : list WiremeshPolicySpec) : FabricDoc :=
  {| fd_segments := map (fun s => {| so_name := segment_name s; so_cidrs := ws_cidrs s |}) segments;
     fd_policy :=
       match policies with
       | [] => None
       | _ => Some (map (fun p =>
           {| bo_from := pol_from p; bo_to := pol_to p;
              bo_rules := map (fun r => {| ro_proto := ar_proto r; ro_ports := ar_ports r |}) (pol_rules p) |})
           policies)
       end |}.

Class FabricYaml : Type := {
  (** [serde_yaml::to_string]. *)
  to_yaml : FabricDoc -> option string;
  (** The names of the segments the controller reads in a document. *)
  yaml_names : string -> list string }.
Class FabricYamlLaws (Y : FabricYaml) : Prop := {
  yaml_names_of : forall d s, to_yaml d = Some s -> yaml_names s = map so_name (fd_segments d);
  yaml_names_empty : yaml_names "" = [] }.

Section fabric.
Context {Y : FabricYaml}.

Definition render_fabric_yaml (segments : list WiremeshSegmentSpec) (policies : list WiremeshPolicySpec) : string :=
  or_else "" (to_yaml (fabric_doc segments policies)).

Definition live_segments (segs : list WiremeshSegment) : list WiremeshSegmentSpec :=
  map cr_spec (List.filter (fun s => negb (cr_deleting s)) segs).
Definition live_names (segs : list WiremeshSegment) : list string := map segment_name (live_segments segs).

Definition live_policies (names : list string) (pols : list WiremeshPolicy) : list WiremeshPolicySpec :=
  List.filter (fun p => bool_decide (pol_from p ∈ names) && bool_decide (pol_to p ∈ names))
    (map cr_spec (List.filter (fun p => negb (cr_deleting p)) pols)).

Definition apply_fabric_locked : prog unit :=
  segs ← kube ListSegmentCrs;
  pols ← kube ListPolicyCrs;
  admin (AdminApply (render_fabric_yaml (live_segments segs) (live_policies (live_names segs) pols))).

(** [let _guard = ctx.fabric_apply_lock.lock().await] around a block. *)
Definition with_fabric_lock {A : Type} (m : prog A) : prog A := Call LockFabric (fun _ => finally m UnlockFabric).

Definition apply_fabric : prog unit := with_fabric_lock apply_fabric_locked.

Definition reconcile_apply (seg : WiremeshSegment) : prog Action :=
  _ ← apply_fabric;
  _ ← kube (PatchStatus (cr_name seg) (ResourceStatus "WiremeshSegment"
        {| applied := true; applied_version := None; rs_message := Some "fabric applied" |}));
  mret (Requeue 300).

Definition reconcile_cleanup (ctx : Context) (seg : WiremeshSegment) : prog Action :=
  skip ← controller_cleanup_skip ctx;
  if (skip : bool) then mret AwaitChange
  else with_fabric_lock (
    _ ← delete_segment_by_name (segment_name (cr_spec seg));
    _ ← apply_fabric_locked;
    mret AwaitChange).

(** ** What is rendered *)

Lemma live_names_spec segs n :
  n ∈ live_names segs <-> exists s, s ∈ segs /\ cr_deleting s = false /\ segment_name (cr_spec s) = n.
Proof.
  unfold live_names, live_segments. rewrite list_elem_of_fmap. split.
  - intros (sp & -> & Hsp). apply list_elem_of_fmap in Hsp as (s & -> & Hs).
    apply list_elem_of_In, List.filter_In in Hs as [Hs Hd%negb_true_iff].
    exists s. by rewrite list_elem_of_In.
  - intros (s & Hs & Hd & <-). exists (cr_spec s). split; [done|]. apply list_elem_of_fmap. exists s.
    split; [done|]. apply list_elem_of_In, List.filter_In. by rewrite Hd, <- list_elem_of_In.
Qed.

(** Every block of a rendered document joins two segments of the document, and no
    resource marked for deletion contributes to it. *)
Lemma rendered_blocks_closed segs pols :
  let d := fabric_doc (live_segments segs) (live_policies (live_names segs) pols) in
  map so_name (fd_segments d) = live_names segs /\
  Forall (fun b => bo_from b ∈ map so_name (fd_segments d) /\ bo_to b ∈ map so_name (fd_segments d))
    (or_else [] (fd_policy d)) /\
  fd_policy d <> Some [].
Proof.
  intros d. assert (map so_name (fd_segments d) = live_names segs) as Hn.
  { unfold d, live_names. simpl. by rewrite map_map. }
  split; [done|]. rewrite Hn. split.
  - apply list.Forall_forall. intros b Hb.
    assert (exists p, p ∈ live_policies (live_names segs) pols /\ bo_from b = pol_from p /\ bo_to b = pol_to p)
      as (p & Hp & -> & ->).
    { unfold d, fabric_doc in Hb. cbn [fd_policy] in Hb.
      destruct (live_policies (live_names segs) pols) as [|p0 l]; [by apply elem_of_nil in Hb|].
      apply list_elem_of_fmap in Hb as (p & -> & Hp). by exists p. }
    apply list_elem_of_In, List.filter_In in Hp as [_ Hp].
    apply andb_true_iff in Hp as [H1%bool_decide_eq_true_1 H2%bool_decide_eq_true_1]. done.
  - unfold d, fabric_doc. cbn [fd_policy]. by destruct (live_policies _ _).
Qed.

Lemma rendered_names {L : FabricYamlLaws Y} segs pols n :
  n ∈ yaml_names (render_fabric_yaml (live_segments segs) (live_policies (live_names segs) pols)) ->
  n ∈ live_names segs.
Proof.
  unfold render_fabric_yaml. destruct (to_yaml _) as [s|] eqn:E; simpl.
  - rewrite (yaml_names_of _ _ E). unfold live_names. simpl. by rewrite map_map.
  - rewrite yaml_names_empty. by intros ?%elem_of_nil.
Qed.

(** ** Many reconciles *)

(** The API server's resources, the controller's segments by id, the lock, and the
    programs still to run. *)
Record Fabric : Type := {
  f_segments : list WiremeshSegment;
  f_policies : list WiremeshPolicy;
  f_rows : gmap Z string;
  f_locked : bool;
  f_threads : gmap nat (prog Action) }.

(** What a call may do to the controller and the lock, and its answer.  A failed
    apply or delete may still have taken effect. *)
Definition handles (f : Fabric) (T : Type) (c : OpCall T) : result CallErr T -> gmap Z string -> bool -> Prop :=
  match c in OpCall T return result CallErr T -> gmap Z string -> bool -> Prop with
  | ListSegmentCrs => fun x rows l =>
      (x = Ok (f_segments f) \/ x = Err CallFailed) /\ rows = f_rows f /\ l = f_locked f
  | ListPolicyCrs => fun x rows l =>
      (x = Ok (f_policies f) \/ x = Err CallFailed) /\ rows = f_rows f /\ l = f_locked f
  | AdminApply y => fun x rows l =>
      (forall id n, rows !! id = Some n -> f_rows f !! id = Some n \/ n ∈ yaml_names y) /\ l = f_locked f
  | AdminListSegments => fun x rows l =>
      (forall segs, x = Ok segs -> forall s, s ∈ segs <-> f_rows f !! si_id s = Some (si_name s)) /\
      rows = f_rows f /\ l = f_locked f
  | AdminDeleteSegment id => fun x rows l =>
      (x = Ok tt /\ rows = base.delete id (f_rows f) \/ x = Err CallFailed /\ rows ⊆ f_rows f) /\ l = f_locked f
  | LockFabric => fun x rows l => f_locked f = false /\ x = Ok tt /\ rows = f_rows f /\ l = true
  | UnlockFabric => fun x rows l => x = Ok tt /\ rows = f_rows f /\ l = false
  | _ => fun x rows l => rows = f_rows f /\ l = f_locked f
  end.

Inductive fabric_step (f : Fabric) : Fabric -> Prop :=
(** A program's call is answered. *)
| step_call i T (c : OpCall T) k x rows l :
    f_threads f !! i = Some (Call c k) -> handles f T c x rows l ->
    fabric_step f {| f_segments := f_segments f; f_policies := f_policies f; f_rows := rows;
                     f_locked := l; f_threads := <[i := k x]> (f_threads f) |}
(** The runtime starts a reconcile. *)
| step_spawn i m :
    f_threads f !! i = None ->
    (exists seg, m = reconcile_apply seg) \/ (exists ctx seg, m = reconcile_cleanup ctx seg) ->
    fabric_step f {| f_segments := f_segments f; f_policies := f_policies f; f_rows := f_rows f;
                     f_locked := f_locked f; f_threads := <[i := m]> (f_threads f) |}
(** Users and finalizers change the resources. *)
| step_resources segs pols :
    fabric_step f {| f_segments := segs; f_policies := pols; f_rows := f_rows f;
                     f_locked := f_locked f; f_threads := f_threads f |}.

Inductive fabric_steps (P : Fabric -> Prop) (f : Fabric) : Fabric -> Prop :=
| fabric_refl : fabric_steps P f f
| fabric_next g h : fabric_steps P f g -> fabric_step g h -> P h -> fabric_steps P f h.

Definition no_reconciles (f : Fabric) : Prop := f_threads f = ∅ /\ f_locked f = false.

(** ** Lock discipline *)

(** [clean n m]: [m] applies no document with the segment [n], unless it lists
    resources again and [n] is live among them. *)
Definition call_ok (n : string) (T : Type) (c : OpCall T) : Prop :=
  match c with AdminApply y => n ∉ yaml_names y | _ => True end.
Definition answer_ok (n : string) (T : Type) (c : OpCall T) : result CallErr T -> Prop :=
  match c in OpCall T return result CallErr T -> Prop with
  | ListSegmentCrs => fun x => match x with Ok l => n ∉ live_names l | Err _ => True end
  | _ => fun _ => True
  end.

Fixpoint clean {A : Type} (n : string) (m : prog A) : Prop :=
  match m with
  | Done _ => True
  | @Call _ T c k => call_ok n T c /\ forall x, answer_ok n T c x -> clean n (k x)
  end.

(** Calls for the lock's holder alone, and calls after which a program is clean. *)
Definition locked_call (T : Type) (c : OpCall T) : Prop :=
  match c with
  | UnlockFabric | AdminApply _ | AdminDeleteSegment _ | ListSegmentCrs | AdminListSegments => True
  | _ => False
  end.
Definition lock_call (T : Type) (c : OpCall T) : Prop :=
  match c with LockFabric | UnlockFabric => True | _ => False end.
Definition cleanup_call (T : Type) (c : OpCall T) : Prop :=
  match c with AdminListSegments | AdminDeleteSegment _ => True | _ => False end.
Definition resets (T : Type) (c : OpCall T) : Prop :=
  match c with UnlockFabric => True | _ => cleanup_call T c end.
Definition held_after (held : bool) (T : Type) (c : OpCall T) : bool :=
  match c with LockFabric => true | UnlockFabric => false | _ => held end.
Definition allowed (held : bool) (T : Type) (c : OpCall T) : Prop :=
  match c with LockFabric => held = false | _ => locked_call T c -> held = true end.

Fixpoint disciplined {A : Type} (held : bool) (m : prog A) : Prop :=
  match m with
  | Done _ => held = false
  | @Call _ T c k =>
      allowed held T c /\ (forall x, disciplined (held_after held T c) (k x)) /\
      (resets T c -> forall x n, clean n (k x))
  end.

(** The block under the lock. *)
Fixpoint inner {A : Type} (m : prog A) : Prop :=
  match m with
  | Done _ => True
  | @Call _ T c k => ~ lock_call T c /\ (resets T c -> forall x n, clean n (k x)) /\ forall x, inner (k x)
  end.

Lemma clean_bind {A B : Type} (n : string) (m : prog A) (g : A -> prog B) :
  clean n m -> (forall a, clean n (g a)) -> clean n (m ≫= g).
Proof.
  intros Hm Hg. induction m as [[a|e]|T c k IH]; simpl; [apply Hg|done|].
  destruct Hm as [Hc Hk]. split; [done|]. intros x Hx. by apply IH, Hk.
Qed.

Lemma clean_finally {A : Type} (n : string) (m : prog A) : clean n m -> clean n (finally m UnlockFabric).
Proof.
  induction m as [r|T c k IH]; simpl; [done|]. intros [Hc Hk]. split; [done|].
  intros x Hx. by apply IH, Hk.
Qed.

Lemma inner_bind {A B : Type} (m : prog A) (g : A -> prog B) :
  inner m -> (forall a, inner (g a)) -> (forall a n, clean n (g a)) -> inner (m ≫= g).
Proof.
  intros Hm Hg Hc. induction m as [[a|e]|T c k IH]; simpl; [apply Hg|done|].
  destruct Hm as (Hl & Hr & Hk). split; [done|]. split; [|intros x; by apply IH].
  intros Hres x n. by apply clean_bind; [apply Hr|].
Qed.

Lemma inner_disciplined {A B : Type} (m : prog A) (g : A -> prog B) :
  inner m -> (forall a, disciplined false (g a)) -> (forall a n, clean n (g a)) ->
  disciplined true (finally m UnlockFabric ≫= g).
Proof.
  intros Hm Hg Hc. induction m as [[a|e]|T c k IH]; simpl.
  - split; [done|]. split; [intros _; apply Hg|intros _ _ n; apply Hc].
  - done.
  - destruct Hm as (Hl & Hr & Hk). split; [by destruct c; try (exfalso; apply Hl; exact I)|]. split.
    + intros x. replace (held_after true T c) with true by (destruct c; try done; exfalso; apply Hl; exact I).
      by apply IH.
    + intros Hres x n. apply clean_bind; [by apply clean_finally, Hr|done].
Qed.

Lemma locked_end_disciplined {A : Type} (m : prog A) :
  inner m -> (forall n, clean n m) ->
  disciplined false (with_fabric_lock m) /\ forall n, clean n (with_fabric_lock m).
Proof.
  intros Hi Hm. split; [|intros n; split; [done|]; intros x _; by apply clean_finally].
  split; [done|]. split; [|by intros []]. intros _. clear Hm. cbn [held_after].
  induction m as [r|T c k IH]; [by repeat split|]. destruct Hi as (Hl & Hr & Hk).
  split; [by destruct c; try (exfalso; apply Hl; exact I)|]. split.
  - intros x. replace (held_after true T c) with true by (destruct c; try done; exfalso; apply Hl; exact I).
    by apply IH.
  - intros Hres x n. by apply clean_finally, Hr.
Qed.

Context {L : FabricYamlLaws Y}.

Lemma apply_locked_clean n : clean n apply_fabric_locked.
Proof.
  split; [exact I|]. intros [segs|[]] Hn; [|exact I]. split; [exact I|]. intros [pols|[]] _; [|exact I].
  split; [|by intros [|[]]]. intros H%rendered_names. by apply Hn.
Qed.

Lemma apply_locked_inner : inner apply_fabric_locked.
Proof.
  split; [by intros []|]. split; [by intros []|]. intros [segs|[]]; [|exact I].
  split; [by intros []|]. split; [by intros []|]. intros [pols|[]]; [|exact I].
  split; [by intros []|]. split; [by intros []|]. by intros [|[]].
Qed.

Lemma locked_disciplined {A B : Type} (m : prog A) (g : A -> prog B) :
  inner m -> (forall n, clean n m) -> (forall a, disciplined false (g a)) -> (forall a n, clean n (g a)) ->
  disciplined false (with_fabric_lock m ≫= g) /\ forall n, clean n (with_fabric_lock m ≫= g).
Proof.
  intros Hi Hm Hg Hc. split.
  - split; [done|]. split; [|by intros []]. intros x. by apply inner_disciplined.
  - intros n. split; [done|]. intros x _. apply clean_bind; [by apply clean_finally|done].
Qed.

Lemma reconcile_apply_disciplined (seg : WiremeshSegment) :
  disciplined false (reconcile_apply seg) /\ forall n, clean n (reconcile_apply seg).
Proof.
  apply locked_disciplined; [apply apply_locked_inner|apply apply_locked_clean| |].
  - intros _. split; [by intros []|]. split; [by intros [|[]]|by intros []].
  - intros _ n. split; [done|]. by intros [|[]].
Qed.

Lemma cleanup_block_inner (seg : WiremeshSegment) :
  let block := (_ ← delete_segment_by_name (segment_name (cr_spec seg)); _ ← apply_fabric_locked;
                mret AwaitChange) : prog Action in
  inner block /\ forall n, clean n block.
Proof.
  intros block. assert (forall n, clean n (_ ← apply_fabric_locked; mret AwaitChange : prog Action)) as Hc
    by (intros n; by apply clean_bind; [apply apply_locked_clean|]).
  assert (forall name n, clean n (delete_segment_by_name name)) as Hdel.
  { intros name n. split; [done|]. intros [segs|[]] _; [|done]. simpl.
    destruct (List.find _ segs); [|done]. split; [done|]. by intros [|[]]. }
  split; [|intros n; by apply clean_bind].
  apply inner_bind; [| |by intros].
  - split; [by intros []|]. split.
    + intros _ [segs|[]] n; [|done]. simpl. destruct (List.find _ segs); [|done].
      split; [done|]. by intros [|[]].
    + intros [segs|[]]; [|done]. simpl. destruct (List.find _ segs); [|done].
      split; [by intros []|]. split; [by intros _ [|[]] n|by intros [|[]]].
  - intros _. apply inner_bind; [apply apply_locked_inner|done|done].
Qed.

Lemma reconcile_cleanup_disciplined (ctx : Context) (seg : WiremeshSegment) :
  disciplined false (reconcile_cleanup ctx seg) /\ forall n, clean n (reconcile_cleanup ctx seg).
Proof.
  destruct (cleanup_block_inner seg) as [Hi Hc].
  destruct (locked_end_disciplined _ Hi Hc) as [Hd Hcl].
  assert (forall skip, disciplined false (if skip : bool then mret AwaitChange else with_fabric_lock
     (_ ← delete_segment_by_name (segment_name (cr_spec seg)); _ ← apply_fabric_locked; mret AwaitChange)) /\
     forall n, clean n (if skip then mret AwaitChange else with_fabric_lock
     (_ ← delete_segment_by_name (segment_name (cr_spec seg)); _ ← apply_fabric_locked; mret AwaitChange)))
    as Hrest by (intros []; done).
  unfold reconcile_cleanup, controller_cleanup_skip. destruct (pod_label ctx); [|apply (Hrest false)].
  split.
  - split; [by intros []|]. split; [|by intros []]. intros crs. split; [by intros []|]. split; [|by intros []].
    intros pods. apply Hrest.
  - intros n. split; [done|]. intros crs _. split; [done|]. intros pods _. apply Hrest.
Qed.

(** ** The deleted segment *)

(** One program at most is inside the lock; the others would list before they
    apply anything. *)
Definition discipline (f : Fabric) : Prop :=
  exists owner : option nat,
    f_locked f = bool_decide (is_Some owner) /\
    (forall i, owner = Some i -> is_Some (f_threads f !! i)) /\
    forall i m, f_threads f !! i = Some m ->
      disciplined (bool_decide (owner = Some i)) m /\ (owner <> Some i -> forall n, clean n m).

Lemma handles_lock f T (c : OpCall T) x rows l :
  handles f T c x rows l -> ~ lock_call T c -> l = f_locked f.
Proof. destruct c; simpl; intros H Hl; try (by destruct Hl); by destruct_and?. Qed.

Lemma spawned_disciplined m :
  (exists seg, m = reconcile_apply seg) \/ (exists ctx seg, m = reconcile_cleanup ctx seg) ->
  disciplined false m /\ forall n, clean n m.
Proof.
  intros [[seg ->]|(ctx & seg & ->)]; [apply reconcile_apply_disciplined|apply reconcile_cleanup_disciplined].
Qed.

(** Who holds the lock after a call. *)
Lemma owner_after f (owner : option nat) (i : nat) T (c : OpCall T)
    (k : result CallErr T -> prog Action) x rows l :
  f_locked f = bool_decide (is_Some owner) ->
  disciplined (bool_decide (owner = Some i)) (Call c k) ->
  (owner <> Some i -> forall n, clean n (Call c k)) ->
  handles f T c x rows l ->
  exists owner', l = bool_decide (is_Some owner') /\
    held_after (bool_decide (owner = Some i)) T c = bool_decide (owner' = Some i) /\
    (forall j, j <> i -> (owner' = Some j <-> owner = Some j)) /\
    (owner' <> Some i -> forall n, clean n (k x)).
Proof.
  intros Hl (Hall & _ & Hres) Hclean Hc.
  assert (~ lock_call T c -> exists owner', l = bool_decide (is_Some owner') /\
    held_after (bool_decide (owner = Some i)) T c = bool_decide (owner' = Some i) /\
    (forall j, j <> i -> (owner' = Some j <-> owner = Some j)) /\
    (owner' <> Some i -> forall n, clean n (k x))) as Hother.
  { intros Hnl. exists owner. split; [by rewrite (handles_lock _ _ _ _ _ _ Hc Hnl)|].
    split; [by destruct c; try (exfalso; apply Hnl; exact I)|]. split; [done|].
    intros Hne n. apply (Hclean Hne n). rewrite bool_decide_eq_false_2 in Hall by done.
    destruct c; try exact I. by discriminate (Hall I). }
  destruct c; try (apply Hother; by intros []).
  - destruct Hc as (Hfree & _ & _ & ->). exists (Some i). simpl in Hall. apply bool_decide_eq_false_1 in Hall.
    rewrite Hfree in Hl. symmetry in Hl. apply bool_decide_eq_false_1, eq_None_not_Some in Hl as ->.
    split; [done|]. split; [cbn [held_after]; by rewrite bool_decide_eq_true_2|]. split; [|done].
    intros j Hj. split; [|done]. intros [= ->]. by destruct Hj.
  - destruct Hc as (_ & _ & ->). exists None. specialize (Hall I). apply bool_decide_eq_true_1 in Hall as ->.
    split; [done|]. split; [done|]. split; [naive_solver|]. intros _ n. by apply Hres.
Qed.

Lemma discipline_step f g : discipline f -> fabric_step f g -> discipline g.
Proof.
  intros (owner & Hl & Hdom & Ht) [i T c k x rows l Hi Hc|i m Hi Hm|segs pols]; [| |by exists owner].
  - destruct (Ht _ _ Hi) as [Hd Hclean].
    destruct (owner_after _ _ _ _ _ _ _ _ _ Hl Hd Hclean Hc) as (owner' & -> & Hheld & Hsame & Hcl).
    exists owner'. split; [done|]. simpl. split.
    + intros j Hj. destruct (decide (j = i)) as [->|Hne]; [by rewrite lookup_insert_eq|].
      rewrite lookup_insert_ne by done. apply Hdom. by apply Hsame.
    + intros j m. rewrite lookup_insert_Some. intros [[<- <-]|[Hne Hj]].
      * rewrite <- Hheld. split; [apply Hd|done].
      * rewrite (bool_decide_ext _ _ (Hsame j (not_eq_sym Hne))). destruct (Ht _ _ Hj) as [H1 H2].
        split; [done|]. intros Ho. apply H2. intros H. by apply Ho, Hsame.
  - exists owner. split; [done|]. simpl. assert (owner <> Some i) as Hno
      by (intros H; destruct (Hdom _ H); congruence).
    split.
    + intros j Hj. rewrite lookup_insert_ne by congruence. by apply Hdom.
    + intros j m'. rewrite lookup_insert_Some. intros [[<- <-]|[_ Hj]]; [|by apply Ht].
      rewrite bool_decide_eq_false_2 by done. destruct (spawned_disciplined _ Hm). done.
Qed.

Lemma discipline_steps P f g : discipline f -> fabric_steps P f g -> discipline g.
Proof. intros Hf. induction 1; [done|]. by eapply discipline_step. Qed.

(** The segment [n] is not with the controller, and no program would put it there
    while no live resource names it. *)
Definition gone (n : string) (f : Fabric) : Prop :=
  (forall id, f_rows f !! id <> Some n) /\ forall i m, f_threads f !! i = Some m -> clean n m.

Definition no_live (n : string) (f : Fabric) : Prop := n ∉ live_names (f_segments f).

Lemma gone_step n f g : gone n f -> no_live n f -> fabric_step f g -> gone n g.
Proof.
  intros [Hrows Ht] Hlive [i T c k x rows l Hi Hc|i m Hi Hm|segs pols]; [| |by split].
  - destruct (Ht _ _ Hi) as [Hok Hk].
    assert (answer_ok n T c x /\ forall id, rows !! id <> Some n) as [Hans Hrows'].
    { destruct c; cbn [handles call_ok answer_ok] in *;
        try (by destruct Hc as (_ & -> & _)); try (by destruct Hc as [-> _]);
        try (by destruct Hc as (_ & _ & -> & _)).
      - destruct Hc as ([-> | ->] & -> & _); done.
      - destruct Hc as [H _]. split; [done|]. intros id H'. destruct (H _ _ H'); [by eapply Hrows|done].
      - destruct Hc as [H _]. split; [done|]. intros id' H'. destruct H as [[_ ->]|[_ Hsub]].
        + apply lookup_delete_Some in H' as [_ H']. by eapply Hrows.
        + eapply Hrows. by eapply lookup_weaken. }
    split; [done|]. simpl. intros j m. rewrite lookup_insert_Some. intros [[<- <-]|[_ Hj]]; [|by eauto].
    by apply Hk.
  - split; [done|]. simpl. intros j m'. rewrite lookup_insert_Some. intros [[<- <-]|[_ Hj]]; [|by eauto].
    by apply spawned_disciplined.
Qed.

(** C0: A segment the operator deleted stays deleted.  Take any interleaving of
    apply and cleanup reconciles over the changing resources, with calls failing
    before or after they took effect, and a moment where a cleanup has just looked
    its segment up or deleted it and the controller holds no segment of that name.
    As long as no live resource bears the name, the controller never has the
    segment again: no reconcile that listed the resource before its deletion can
    still apply it.  The cleanup alone is inside the fabric lock then. *)
Theorem deleted_segment_stays_gone (f0 f1 f2 f3 : Fabric) (n : string) (i : nat) (T : Type) (c : OpCall T)
    (k : result CallErr T -> prog Action) (x : result CallErr T) (rows : gmap Z string) (l : bool) :
  no_reconciles f0 -> fabric_steps (fun _ => True) f0 f1 ->
  f_threads f1 !! i = Some (Call c k) -> cleanup_call T c -> handles f1 T c x rows l ->
  f2 = {| f_segments := f_segments f1; f_policies := f_policies f1; f_rows := rows;
          f_locked := l; f_threads := <[i := k x]> (f_threads f1) |} ->
  (forall id, rows !! id <> Some n) -> no_live n f1 ->
  fabric_steps (no_live n) f2 f3 ->
  forall id, f_rows f3 !! id <> Some n.
Proof.
  intros [Hemp Hfree] H1 Hi Hcall Hc -> Hrows Hlive H3.
  assert (discipline f1) as (owner & _ & _ & Ht).
  { eapply discipline_steps; [|done]. exists None. rewrite Hfree, Hemp.
    split; [done|]. split; [done|]. intros j m Hj. by rewrite lookup_empty in Hj. }
  destruct (Ht _ _ Hi) as [(Hall & _ & Hres) _].
  assert (owner = Some i) as -> 
    by (apply (bool_decide_eq_true_1 (owner = Some i)); destruct c; try done; exact (Hall I)).
  assert (gone n {| f_segments := f_segments f1; f_policies := f_policies f1; f_rows := rows;
          f_locked := l; f_threads := <[i := k x]> (f_threads f1) |}) as Hg.
  { split; [done|]. simpl. intros j m. rewrite lookup_insert_Some. intros [[<- <-]|[Hne Hj]].
    - apply Hres. by destruct c.
    - apply (Ht _ _ Hj). congruence. }
  cut (gone n f3 /\ no_live n f3); [by intros [[? _] _]|].
  induction H3 as [|g h _ [IH1 IH2] Hstep HP]; [done|]. split; [by eapply gone_step|done].
Qed.
End fabric.
